(* ===== verification/_CoqProject ===== *)
-Q . S2P
Prelude.v
Bytes.v
Identifier.v
MemVec.v
Model.v
ModelTests.v
LookupTable.v
Core.v
CoreTrait.v
World.v
BaseNode.v
Hub.v
Overlay.v
Handlers.v
Routing.v
Safety.v
Linking.v
HubSafety.v
Async.v
NodeOps.v
Join.v
Search.v
Context.v
Observability.v
Fixtures.v
LocalGraph.v
RandomTables.v
Processor.v
Transport.v
Interleaving.v
Crossing.v
Cancellation.v
Concurrent.v
Sessions.v
Typing.v
Completion.v
Refusal.v
RelyGuarantee.v
Progress.v
NodeTests.v
Repair.v
