(* ===== verification/Prelude.v ===== *)
(** * Verification of skipgraph-rust

    A model of the skip graph node and of what it runs on, with its correctness
    theorems. Paths are relative to [src/src/].

    ** The program and its parts

    A node has an [Identifier] (a 256-bit number) and a [MembershipVector] (256 bits).
    Its [LookupTable] has a left and a right slot at each of 256 levels; a slot at level
    [l] may hold an identity on its side of the node whose vector shares [l] bits with
    the node's. [BaseCore] answers questions about one table. [BaseNode] speaks the
    protocol: its event handlers answer or forward requests of other nodes and resolve
    the waiters of its own requests; its blocking operations register a waiter, send a
    request through a [Network] and wait for the reply. The [Network] of the repository
    is an in-memory hub that handles an event inside the sender's call.

    ** Files and what they model

    - [Prelude]: errors, results, outcomes (a value, a panic, or the fuel of the
      in-memory network exhausted), the monad [M] of fallible stateful code, [moves] (what a
      computation may change) and its hints, list lemmas.
    - [Bytes]: bytes, fixed arrays, big-endian values, bits; hex decoding is the class [Hex].
    - [Identifier] ([core/model/identifier.rs]), [MemVec] ([core/model/memvec.rs]),
      [Model] (directions, addresses, identities, every payload and [Event];
      [FixedStr] is the class of the fixed-length strings of an address).
    - [LookupTable] ([core/lookup/]): the trait as a class, its contract
      [LookupTableSpec] on slots, and the array implementation with its refinement.
    - [Core] ([node/core.rs]: [BaseCore] and its operations), [CoreTrait] (the trait, its
      contract, and [BaseCore] as the instance that keeps it).
    - [World]: what nodes share. Tables, waiter maps, [oneshot] channels (the class
      [Oneshot], with the documented laws) and the network's state; an [Arc] is a location.
    - [BaseNode] ([node/base_node.rs], handlers and dispatch; the [Network] and
      [EventProcessorCore] traits are classes). [Handlers]: what each handler does.
    - [Hub] ([network/mock/]): the in-memory network. [Overlay]: nodes on one hub.
    - [Routing], [Linking]: what a search and a link request do over many hops.
      [Safety]: what no event can break. [HubSafety]: any events on the hub.
    - [Async]: suspended computations, [join!], [timeout], cancellation by drop.
      [NodeOps] ([node/base_node.rs], blocking operations; [node/waiter.rs]).
      [Join], [Search]: the join and the search end to end on the hub.
    - [Transport]: nodes on a network that queues events and delivers them in any order.
      [Interleaving]: schedules of suspended operations on it. [Crossing]: two nodes that
      link into the same gap, in every order of events. [Concurrent]: what every schedule
      keeps. [Typing]: no schedule panics. [Completion]: a node's own request among all
      others. [Refusal]: a link request that its receiver drops. [RelyGuarantee],
      [Progress]: any number of concurrent requests, and how they all end.
      [Cancellation]: operations that are dropped, time out or are interfered with.
    - [Sessions]: the overlay on the hub as a set of identifiers that serves joins and
      searches.
    - [Context] ([core/context/mod.rs]), [Observability] ([observability/labels.rs] and
      the traits of [observability/metrics.rs]), [Processor] ([network/processor.rs]).
    - [Fixtures] and [RandomTables] ([core/testutil/fixtures.rs], [core/testutil/random.rs]:
      identifiers and the list assertion; random tables, bounded waits and the fixtures'
      tests), [LocalGraph] ([node/skip_graph_integration_test.rs]), [NodeTests] (the unit tests of
      [node/base_node.rs] and [node/testutil.rs]), [ModelTests] (those of
      [core/model/identifier.rs] and [core/model/memvec.rs]): the repository's own checks,
      on the model.
    - [Repair] ([node/repair_schedule.rs]).

    The files of a component require the components it calls: the core is proved against
    [LookupTableSpec], which the array table implements; handlers, operations and their
    theorems against the [Network] class, which the hub, the queueing network and the
    tests' mock implement.

    ** What the theorems show

    - Values: [compare] is the numeric order, [common_prefix_bit] the longest common
      prefix, parsing and printing round-trip, [decompose_at_bit] splits and panics where it
      should.
    - Tables: updates read back; [try_link] and [try_relink] implement their decision;
      concurrent links of one slot converge to the closest.
    - Local search: the closest entry that does not pass the target, or the node itself.
    - Handlers: every branch, replies resolve exactly their waiter.
    - Requests: every way out (answer, failed send, vanished sender, timeout, drop) gives
      the named result and removes the waiter; the join leaves none in any of its runs.
    - Overlay, on the hub: a search ends at the closest member, a link request where it
      belongs, and the join links the new node into level 0, each within a depth that is
      given; a public search changes nothing. Any sequence of joins and searches refines a
      sorted set: the same replies, and level-0 tables that pass the tests' assertion.
    - Overlay, on any network: no peer can break a table's invariant; on the hub, where one
      event runs the handlers of many nodes, any event is also handled within a depth that
      is given, without a panic. On the queueing network honest deliveries end,
      and every honest request (a link request to a node it fits, a search towards its
      target) is answered by then; any number of concurrent searches, queries and link
      requests, asked in that way, all end with success in a bounded number of steps,
      whatever the order; any schedule of any operations, joins included, runs without a
      panic and keeps all tables truthful. What it does not keep is shown as well: two
      nodes that link into the same gap are left apart exactly when their requests cross,
      and a link request to a node it does not fit ends by its timeout only, whatever
      else happens. [Interleaving] has runs of joins that come to either.
    - Contexts: cancellation reaches all descendants; [run] ends for a reason that is there,
      refuses an unusable context and does not outlast its deadline by more than the
      runtime does; irrecoverable errors reach the root. The repair schedule never ticks
      early and skips what it missed.
    - Tests: the integration tests' graph is a skip graph for all draws and their tests
      pass, the tests' list assertion means what the join's theorems say, all unit tests of
      the node, of identifiers and of membership vectors pass on sample draws, those of the
      fixtures exactly for the draws named, and the fixtures' waits are bounded by their
      timeout.

    ** Bounds and fuel

    Handlers of the in-memory network call each other; the model unrolls this to a depth.
    [Hub.mock_network_fuel] shows that more depth never changes a result, and the theorems
    on searches, link requests and joins give depths that suffice: the number of members
    (or nodes) plus two, since each hop moves strictly towards the target. On the queueing
    network no schedule makes more than the number of nodes plus two deliveries for each
    event in flight. Integers: levels, bit indices and byte values stay within their
    widths by the bounds proved with the operations ([max_level], [decompose_at_bit],
    [Bytes]). Adding a timeout to an instant can overflow, and panics then
    ([Context.instant_add]).

    ** Parameters

    Code outside the repository is a class or an argument: hex decoding, fixed-length
    strings, [oneshot] channels, cancellation tokens, the runtime's sleep, [select!], timer,
    asynchronous lock and notification. Their laws are what is documented: a sleep or a
    tick may be noticed late, never early, [select!] takes any branch that is ready, and a
    tick counts as missed only when it is later than a tolerance. Random draws
    (identifiers, vectors, addresses, nonces) and clock readings are arguments. Each
    theorem with such a hypothesis has a witness at a concrete instance.

    ** Not modelled

    - Tracing spans and log text: they carry no behaviour.
    - Lock poisoning, and the locks held while an event is dispatched.
    - The steps inside a handler or a local search. The code takes the table's lock for each
      [get_entry], [try_link] or [try_relink]; the local search takes it once for each
      level it reads, and a handler takes other locks besides. Here a handler, a local
      search and each stretch of an operation between two waits run as one step. The
      theorems on concurrent operation use of a search only that its result is the node
      itself or was an entry between it and the target, and of tables only what every
      locked access keeps: entries are truthful, on their side, and move inward. Both hold
      whatever others link between two of the accesses.
    - [BaseCore::search_by_mem_vec] is [todo!()] in the code: here it panics. The buddy and
      check-neighbor payloads are unsupported in the code, and so here.
    - The threads of the concurrent integration test run one after the other; [Debug]
      output of tables, nodes and contexts.

    ** Next

    A whole join among other traffic that does not link, as [Progress] has the requests;
    crossing joins when the repair sweep exists; a local search whose reads interleave
    with other nodes' links. *)
From Corelib Require Export ssreflect.
From Stdlib Require Export Ascii ZArith Lia.
From stdpp Require Export base tactics option list gmap strings sorting.

#[export] Set Default Proof Using "Type".
#[global] Open Scope general_if_scope.

(** Decide a closed goal by evaluation. *)
Ltac decided := refine (bool_decide_unpack _ _); vm_compute; exact I.

(** ** Errors and results

    An [anyhow::Error] is the format string of the [anyhow!] (or [context])
    that made it, with the interpolated values: numbers, byte arrays, text and
    the errors it wraps. *)
Inductive Error : Type :=
| Anyhow (fmt : string) (args : list Arg)
with Arg : Type :=
| ArgUsize (n : nat)
| ArgBytes (bs : list Z)
| ArgText (s : string)
| ArgErr (e : Error).

(** [anyhow::Result<A>]. *)
Inductive result (A : Type) : Type :=
| Ok (a : A)
| Err (e : Error).
Arguments Ok {_} _.
Arguments Err {_} _.

Definition is_ok {A} (r : result A) : bool :=
  match r with Ok _ => true | Err _ => false end.

(** What running a piece of code can end in: a value, a panic, or (only for the
    recursive in-memory dispatch) the exhaustion of the fuel. *)
Inductive outcome (A : Type) : Type :=
| Done (a : A)
| Panicked
| OutOfFuel.
Arguments Done {_} _.
Arguments Panicked {_}.
Arguments OutOfFuel {_}.

Definition completes {A S} (o : outcome (result A * S)) : bool :=
  match o with Done (Ok _, _) => true | _ => false end.

Lemma completes_done {S} (o : outcome (result () * S)) :
  completes o = true → ∃ s, o = Done (Ok tt, s).
Proof. destruct o as [[[[]|] s]| |]; try done. by exists s. Qed.

(** ** The monad of fallible stateful code

    [M S A] is a fallible computation over a state [S]. An [Err] stops the rest
    of the sequence, as Rust's [?] does, and the state reached so far stays. *)
Definition M (S A : Type) : Type := S → outcome (result A * S).

#[export] Instance M_ret {S} : MRet (M S) := λ A a s, Done (Ok a, s).

#[export] Instance M_bind {S} : MBind (M S) := λ A B k m s,
  match m s with
  | Done (Ok a, s') => k a s'
  | Done (Err e, s') => Done (Err e, s')
  | Panicked => Panicked
  | OutOfFuel => OutOfFuel
  end.

Section monad.
Context {S : Type}.

Definition fail {A} (e : Error) : M S A := λ s, Done (Err e, s).
Definition panic {A} : M S A := λ s, Panicked.
Definition get : M S S := λ s, Done (Ok s, s).
Definition gets {A} (f : S → A) : M S A := λ s, Done (Ok (f s), s).
Definition modify (f : S → S) : M S () := λ s, Done (Ok tt, f s).

(** [Result::map_err]. *)
Definition map_err {A} (f : Error → Error) (m : M S A) : M S A := λ s,
  match m s with
  | Done (Err e, s') => Done (Err (f e), s')
  | r => r
  end.

(** An [Err] that ends in a panic. *)
Definition or_panic {A} (m : M S A) : M S A := λ s,
  match m s with
  | Done (Err e, s') => Panicked
  | r => r
  end.

(** Indexing a [Vec]: out of range panics. *)
Definition index {A} (l : list A) (i : nat) : M S A :=
  match l !! i with Some a => mret a | None => panic end.

(** [Vec::collect] over an iterator of [Result]s: the first error stops it. *)
Fixpoint filter_map_collect {A B} (f : A → M S (option B)) (l : list A) : M S (list B) :=
  match l with
  | [] => mret []
  | a :: l' =>
      ob ← f a;
      bs ← filter_map_collect f l';
      mret (match ob with Some b => b :: bs | None => bs end)
  end.
End monad.

(** Running a computation whose first part succeeds. *)
Lemma bind_ok {S A B} (m : M S A) (k : A → M S B) s a s' :
  m s = Done (Ok a, s') → (m ≫= k) s = k a s'.
Proof. intros E. by rw /mbind /M_bind E. Qed.

(** An [Ok] result goes through every error wrapping. *)
Lemma map_err_ok {S A} (f : Error → Error) (m : M S A) s a s' :
  m s = Done (Ok a, s') → map_err f m s = Done (Ok a, s').
Proof. intros E. by rw /map_err E. Qed.

(** [wrap fmt e] is the [anyhow!(fmt, e)] that callers use in [map_err]. *)
Definition wrap (fmt : string) (e : Error) : Error := Anyhow fmt [ArgErr e].

(** ** Definedness order on computations

    [m ⊑ m'] says that [m'] gives the same answer wherever [m] does not run out of
    fuel. *)
Definition less_defined {S A} (m m' : M S A) : Prop :=
  ∀ s, m s = OutOfFuel ∨ m s = m' s.

Declare Scope skipgraph_scope.
Delimit Scope skipgraph_scope with skipgraph.
Infix "≼" := less_defined (at level 70) : skipgraph_scope.
#[global] Open Scope skipgraph_scope.

#[export] Instance less_defined_preorder {S A} : PreOrder (@less_defined S A).
Proof.
  split.
  - intros m s; auto.
  - intros m1 m2 m3 H12 H23 s.
    destruct (H12 s) as [?|E]; [auto|]. rw E. apply H23.
Qed.

Lemma less_defined_bind {S A B} (m m' : M S A) (k k' : A → M S B) :
  m ≼ m' → (∀ a, k a ≼ k' a) → (m ≫= k) ≼ (m' ≫= k').
Proof.
  intros Hm Hk s. rw /mbind /M_bind.
  destruct (Hm s) as [E|E]; rw E; [by left|].
  destruct (m' s) as [[[a|e] s']| |]; auto. apply Hk.
Qed.

Lemma less_defined_map_err {S A} f (m m' : M S A) :
  m ≼ m' → map_err f m ≼ map_err f m'.
Proof.
  intros Hm s. rw /map_err. destruct (Hm s) as [E|E]; rw E; auto.
Qed.

Lemma less_defined_or_panic {S A} (m m' : M S A) :
  m ≼ m' → or_panic m ≼ or_panic m'.
Proof.
  intros Hm s. rw /or_panic. destruct (Hm s) as [E|E]; rw E; auto.
Qed.

Lemma less_defined_done {S A} (m m' : M S A) s r :
  m ≼ m' → m s = Done r → m' s = Done r.
Proof. intros Hm E. destruct (Hm s) as [?|E']; congruence. Qed.

Create HintDb defined.
#[export] Hint Resolve less_defined_bind less_defined_map_err less_defined_or_panic : defined.
#[export] Hint Extern 1 (?m ≼ ?m) => reflexivity : defined.

(** ** How a computation may change the state

    [moves R m]: every completed run of [m], with a value or an error, relates the
    initial and the final state by [R]. *)
Definition moves {S A} (R : S → S → Prop) (m : M S A) : Prop :=
  ∀ s r s', m s = Done (r, s') → R s s'.

Section moves.
Context {S : Type} {R : S → S → Prop} `{!PreOrder R}.

Lemma moves_ret {A} (a : A) : moves R (mret a).
Proof using Type*. intros s r s' [= _ ->]. reflexivity. Qed.

Lemma moves_fail {A} e : moves R (fail e : M S A).
Proof using Type*. intros s r s' [= _ ->]. reflexivity. Qed.

Lemma moves_gets {A} (f : S → A) : moves R (gets f).
Proof using Type*. intros s r s' [= _ ->]. reflexivity. Qed.

Lemma moves_panic {A} : moves R (panic : M S A).
Proof. intros s r s' [=]. Qed.

Lemma moves_bind {A B} (m : M S A) (k : A → M S B) :
  moves R m → (∀ a, moves R (k a)) → moves R (m ≫= k).
Proof using Type*.
  intros Hm Hk s r s' E. rw /mbind /M_bind in E.
  destruct (m s) as [[[a|e] s1]| |] eqn:Em; simplify_eq; [|by eapply Hm].
  etrans; [by eapply Hm|by eapply Hk].
Qed.

Lemma moves_gets_bind {A B} (f : S → A) (k : A → M S B) :
  (∀ s, moves R (k (f s))) → moves R (gets f ≫= k).
Proof. intros Hk s r s'. apply Hk. Qed.

Lemma moves_map_err {A} f (m : M S A) : moves R m → moves R (map_err f m).
Proof.
  intros Hm s r s' E. rw /map_err in E.
  destruct (m s) as [[[a|e] s1]| |] eqn:Em; simplify_eq; by eapply Hm.
Qed.
End moves.

Create HintDb moves.
#[export] Hint Resolve moves_ret moves_fail moves_gets moves_panic moves_bind moves_map_err : moves.
#[export] Hint Extern 0 (PreOrder _) => exact _ : moves.

(** ** [Iterator::min_by_key] and [Iterator::max_by_key]

    On equal keys Rust's [min_by_key] keeps the first element and [max_by_key]
    the last one. *)
Section by_key.
Context {A K : Type} (cmp : K → K → comparison) (key : A → K).

Definition min_step (acc : option A) (x : A) : option A :=
  match acc with
  | None => Some x
  | Some y => match cmp (key y) (key x) with Gt => Some x | _ => Some y end
  end.
Definition max_step (acc : option A) (x : A) : option A :=
  match acc with
  | None => Some x
  | Some y => match cmp (key y) (key x) with Gt => Some y | _ => Some x end
  end.
Definition min_by_key (l : list A) : option A := fold_left min_step l None.
Definition max_by_key (l : list A) : option A := fold_left max_step l None.

(** Keys compared through an integer value. *)
Context (v : K → Z) (cmp_v : ∀ a b, cmp a b = Z.compare (v a) (v b)).

Lemma by_key_cases a b :
  (cmp a b = Gt ∧ (v b < v a)%Z) ∨ (cmp a b ≠ Gt ∧ (v a ≤ v b)%Z).
Proof using Type*.
  rw cmp_v. destruct (Z.compare_spec (v a) (v b)); [right|right|left];
    (split; [done|lia]).
Qed.

Lemma max_by_key_app l x :
  max_by_key (l ++ [x]) = max_step (max_by_key l) x.
Proof. by rw /max_by_key fold_left_app. Qed.
Lemma min_by_key_app l x :
  min_by_key (l ++ [x]) = min_step (min_by_key l) x.
Proof. by rw /min_by_key fold_left_app. Qed.

(** The last of the greatest elements, with everything after it smaller. *)
Lemma max_by_key_spec l :
  match max_by_key l with
  | None => l = []
  | Some x => ∃ l1 l2, l = l1 ++ x :: l2
      ∧ (∀ y, y ∈ l1 → (v (key y) ≤ v (key x))%Z)
      ∧ (∀ y, y ∈ l2 → (v (key y) < v (key x))%Z)
  end.
Proof using Type*.
  induction l as [|x l IH] using rev_ind; [done|].
  rw max_by_key_app. destruct (max_by_key l) as [y|]; simpl.
  - destruct IH as (l1 & l2 & -> & H1 & H2).
    destruct (by_key_cases (key y) (key x)) as [[E Hlt]|[E Hle]].
    + rw E. exists l1, (l2 ++ [x]). rw -app_assoc. split_and!; [done..|].
      intros z [?| ->%list_elem_of_singleton]%elem_of_app; auto.
    + replace (match cmp (key y) (key x) with Gt => Some y | _ => Some x end)
        with (Some x) by (destruct (cmp (key y) (key x)); done).
      exists (l1 ++ y :: l2), []. split_and!; [done| |by intros ? ?%not_elem_of_nil].
      intros z [Hz|[->|Hz]%elem_of_cons]%elem_of_app.
      * specialize (H1 _ Hz). lia.
      * lia.
      * specialize (H2 _ Hz). lia.
  - subst l. exists [], []. split_and!; [done|by intros ? ?%not_elem_of_nil..].
Qed.

(** The first of the least elements, with everything before it greater. *)
Lemma min_by_key_spec l :
  match min_by_key l with
  | None => l = []
  | Some x => ∃ l1 l2, l = l1 ++ x :: l2
      ∧ (∀ y, y ∈ l1 → (v (key x) < v (key y))%Z)
      ∧ (∀ y, y ∈ l2 → (v (key x) ≤ v (key y))%Z)
  end.
Proof using Type*.
  induction l as [|x l IH] using rev_ind; [done|].
  rw min_by_key_app. destruct (min_by_key l) as [y|]; simpl.
  - destruct IH as (l1 & l2 & -> & H1 & H2).
    destruct (by_key_cases (key y) (key x)) as [[E Hlt]|[E Hle]].
    + rw E. exists (l1 ++ y :: l2), []. split_and!; [done| |by intros ? ?%not_elem_of_nil].
      intros z [Hz|[->|Hz]%elem_of_cons]%elem_of_app.
      * specialize (H1 _ Hz). lia.
      * lia.
      * specialize (H2 _ Hz). lia.
    + replace (match cmp (key y) (key x) with Gt => Some x | _ => Some y end)
        with (Some y) by (destruct (cmp (key y) (key x)); done).
      exists l1, (l2 ++ [x]). rw -app_assoc. split_and!; [done..|].
      intros z [?| ->%list_elem_of_singleton]%elem_of_app; auto.
  - subst l. exists [], []. split_and!; [done|by intros ? ?%not_elem_of_nil..].
Qed.
End by_key.

(** ** Longest common prefix *)
Section lcp.
Context {A : Type} `{EqDecision A}.

Fixpoint lcp (l k : list A) : nat :=
  match l, k with
  | x :: l', y :: k' => if decide (x = y) then S (lcp l' k') else 0
  | _, _ => 0
  end.

Lemma lcp_comm l k : lcp l k = lcp k l.
Proof.
  revert k; induction l as [|x l IH]; intros [|y k]; simpl; [done..|].
  destruct (decide (x = y)) as [->|]; [rw decide_True // IH //|].
  rw decide_False //.
Qed.

Lemma lcp_le l k : lcp l k ≤ length l.
Proof.
  revert k; induction l as [|x l IH]; intros [|y k]; simpl; try lia.
  destruct (decide (x = y)); [|lia]. specialize (IH k). lia.
Qed.

Lemma lcp_diag l : lcp l l = length l.
Proof.
  induction l as [|x l IH]; simpl; [done|]. destruct (decide (x = x)); [by rw IH|done].
Qed.

(** [n] common elements: the two lists start with the same [n] elements. *)
Lemma lcp_take n l k :
  n ≤ length l → n ≤ length k → (n ≤ lcp l k ↔ take n l = take n k).
Proof.
  revert l k; induction n as [|n IH]; intros [|x l] [|y k]; simpl; try lia.
  - intros _ _. split; [done|lia].
  - intros _ _. split; [done|lia].
  - intros _ _. split; [done|lia].
  - intros _ _. split; [done|lia].
  - intros Hl Hk. case_decide as E.
    + subst y. specialize (IH l k ltac:(lia) ltac:(lia)). rw -Nat.succ_le_mono IH.
      split; [by intros ->|by intros [=]].
    + split; [lia|]. by intros [= ? ?].
Qed.

Lemma lcp_trans l k j : lcp l k `min` lcp k j ≤ lcp l j.
Proof.
  revert k j; induction l as [|x l IH]; intros [|y k] [|z j]; cbn [lcp]; try lia.
  specialize (IH k j).
  destruct (decide (x = y)), (decide (y = z)), (decide (x = z));
    subst; try congruence; lia.
Qed.

Lemma lcp_app l k l' k' :
  length l = length k →
  lcp (l ++ l') (k ++ k') =
    if decide (l = k) then length l + lcp l' k' else lcp l k.
Proof.
  revert k; induction l as [|x l IH]; intros [|y k]; simpl; try lia.
  intros Hl. rw IH; [lia|].
  destruct (decide (x = y)), (decide (l = k)), (decide (x :: l = y :: k)); congruence.
Qed.
End lcp.

(** ** Sorted lists *)
Lemma StronglySorted_filter {A} (R : relation A) (P : A → Prop) `{!∀ x, Decision (P x)} l :
  StronglySorted R l → StronglySorted R (base.filter P l).
Proof.
  induction 1 as [|x l Hl IH Hx]; [constructor|].
  rw filter_cons. case_decide; [|done]. constructor; [done|].
  apply Forall_forall. intros y [_ Hy]%list_elem_of_filter.
  by eapply Forall_forall in Hx.
Qed.

Lemma StronglySorted_split {A} (R : relation A) l1 x l2 :
  StronglySorted R (l1 ++ x :: l2) → (∀ y, y ∈ l1 → R y x) ∧ (∀ y, y ∈ l2 → R x y).
Proof.
  intros Hs. split; intros y Hy.
  - eapply StronglySorted_app_1_elem_of; [done|done|by left].
  - apply StronglySorted_app_1_r, StronglySorted_cons in Hs as [Hx _].
    by eapply Forall_forall in Hx.
Qed.
