(* ===== verification/Bytes.v ===== *)
(** * Bytes and 32-byte arrays

    [u8] values, the array type [[u8; 32]] that both [Identifier] and
    [MembershipVector] wrap, its big-endian value, its bits from the most
    significant one, and the interface of the [hex] crate. *)
From Stdlib Require Export Strings.Byte.
From S2P Require Import Prelude.

Abbreviation u8 := Byte.byte (only parsing).

(** The value of a byte, and the wrapping conversion back. *)
Definition u8_val (b : u8) : Z := Z.of_N (Byte.to_N b).
Definition u8_of (z : Z) : u8 := default x00 (Byte.of_N (Z.to_N (z mod 256))).

Lemma u8_val_range b : (0 ≤ u8_val b < 256)%Z.
Proof. rw /u8_val. pose proof (Byte.to_N_bounded b). lia. Qed.

Lemma u8_val_inj a b : u8_val a = u8_val b → a = b.
Proof.
  rw /u8_val. intros E%N2Z.inj.
  pose proof (Byte.of_to_N a) as Ha. pose proof (Byte.of_to_N b) as Hb. congruence.
Qed.

Lemma u8_val_of z : u8_val (u8_of z) = (z mod 256)%Z.
Proof.
  rw /u8_val /u8_of. pose proof (Z.mod_pos_bound z 256 eq_refl) as Hb.
  destruct (Byte.of_N (Z.to_N (z mod 256))) as [b|] eqn:E; simpl.
  - apply Byte.to_of_N in E. rw E. lia.
  - apply Byte.of_N_None_iff in E. lia.
Qed.

#[global] Instance u8_eq_dec : EqDecision u8 := Byte.byte_eq_dec.
#[global] Instance u8_countable : Countable u8 :=
  inj_countable Byte.to_N Byte.of_N Byte.of_to_N.

(** [src/core/model/mod.rs]. *)
Definition IDENTIFIER_SIZE_BYTES : nat := 32.

(** The array type [[u8; IDENTIFIER_SIZE_BYTES]]. *)
Record Array32 : Type := MkArray32 {
  arr : list u8;
  arr_ok : (length arr =? IDENTIFIER_SIZE_BYTES)%nat = true
}.

Lemma arr_length a : length (arr a) = IDENTIFIER_SIZE_BYTES.
Proof. destruct a as [l H]; simpl. by apply Nat.eqb_eq. Qed.

Lemma array32_eq (a b : Array32) : arr a = arr b → a = b.
Proof.
  destruct a as [l Hl], b as [k Hk]; simpl; intros ->.
  f_equal. apply eq_pi, _.
Qed.

#[global] Instance array32_eq_dec : EqDecision Array32.
Proof.
  refine (λ a b, cast_if (decide (arr a = arr b))); [by apply array32_eq|congruence].
Defined.

Definition array32_of (l : list u8) : option Array32 :=
  match bool_dec (length l =? IDENTIFIER_SIZE_BYTES)%nat true with
  | left H => Some (MkArray32 l H)
  | right _ => None
  end.

Lemma array32_of_arr a : array32_of (arr a) = Some a.
Proof.
  rw /array32_of. destruct (bool_dec _ _) as [H|H]; [|by destruct H; apply arr_ok].
  f_equal. by apply array32_eq.
Qed.

#[global] Instance array32_countable : Countable Array32 :=
  inj_countable arr array32_of array32_of_arr.

(** [[b; 32]]. *)
Definition array32_repeat (b : u8) : Array32 :=
  MkArray32 (replicate IDENTIFIER_SIZE_BYTES b) eq_refl.

(** [let mut a = [0; 32]; a[32 - bytes.len()..].copy_from_slice(bytes)], for a
    slice of at most 32 bytes. *)
Definition left_pad (l : list u8) : list u8 :=
  replicate (IDENTIFIER_SIZE_BYTES - length l) x00 ++ l.

Lemma left_pad_ok l :
  length l ≤ IDENTIFIER_SIZE_BYTES →
  (length (left_pad l) =? IDENTIFIER_SIZE_BYTES)%nat = true.
Proof. intros H. apply Nat.eqb_eq. rw /left_pad length_app length_replicate. lia. Qed.

#[export] Hint Resolve arr_length u8_val_range : core.

(** ** Big-endian value *)
Fixpoint be_value (l : list u8) : Z :=
  match l with
  | [] => 0
  | b :: l' => u8_val b * 256 ^ Z.of_nat (length l') + be_value l'
  end.

Lemma be_value_bounds l : (0 ≤ be_value l < 256 ^ Z.of_nat (length l))%Z.
Proof.
  induction l as [|b l IH]; cbn [be_value length]; [lia|].
  rw Nat2Z.inj_succ Z.pow_succ_r; [lia|]. pose proof (u8_val_range b). nia.
Qed.

(** ** Lexicographic comparison of bytes *)
Fixpoint lex_compare (l k : list u8) : comparison :=
  match l, k with
  | x :: l', y :: k' =>
      match Z.compare (u8_val x) (u8_val y) with Eq => lex_compare l' k' | c => c end
  | _, _ => Eq
  end.

Lemma lex_compare_value l k :
  length l = length k → lex_compare l k = Z.compare (be_value l) (be_value k).
Proof.
  revert k; induction l as [|x l IH]; intros [|y k]; cbn [length]; [done..|].
  intros Hlen. assert (Hlen' : length l = length k) by lia.
  cbn [lex_compare be_value].
  pose proof (be_value_bounds l) as Hl. pose proof (be_value_bounds k) as Hk.
  rw Hlen' in Hl |- *. set (p := (256 ^ Z.of_nat (length k))%Z) in *.
  destruct (Z.compare_spec (u8_val x) (u8_val y)) as [->|Hlt|Hgt].
  - rw IH; [done..|]. by rw Z.add_compare_mono_l.
  - symmetry. apply Z.compare_lt_iff. nia.
  - symmetry. apply Z.compare_gt_iff. nia.
Qed.

Lemma be_value_inj l k :
  length l = length k → be_value l = be_value k → l = k.
Proof.
  revert k; induction l as [|x l IH]; intros [|y k]; cbn [length]; [done..|].
  intros Hlen. assert (Hlen' : length l = length k) by lia.
  cbn [be_value].
  pose proof (be_value_bounds l) as Hl. pose proof (be_value_bounds k) as Hk.
  rw Hlen' in Hl |- *. set (p := (256 ^ Z.of_nat (length k))%Z) in *.
  intros E. assert (u8_val x = u8_val y) as Exy by nia.
  apply u8_val_inj in Exy as ->. f_equal. apply IH; [done|]. lia.
Qed.

(** ** Bits, most significant first *)
Definition byte_bits (b : u8) : list bool :=
  (λ i, Z.testbit (u8_val b) i) <$> [7;6;5;4;3;2;1;0]%Z.
Definition bits (l : list u8) : list bool := l ≫= byte_bits.

Lemma byte_bits_length b : length (byte_bits b) = 8.
Proof. done. Qed.

Lemma bits_cons b l : bits (b :: l) = byte_bits b ++ bits l.
Proof. done. Qed.

Lemma bits_length l : length (bits l) = 8 * length l.
Proof.
  induction l as [|b l IH]; [done|].
  rw bits_cons length_app byte_bits_length IH. simpl. lia.
Qed.

Lemma testbit_u8_high b n : (8 ≤ n)%Z → Z.testbit (u8_val b) n = false.
Proof.
  intros Hn. pose proof (u8_val_range b) as Hb.
  destruct (decide (u8_val b = 0)%Z) as [->|]; [apply Z.bits_0|].
  apply Z.bits_above_log2; [lia|]. assert (Z.log2 (u8_val b) < 8)%Z; [|lia].
  apply Z.log2_lt_pow2; lia.
Qed.

Lemma byte_bits_inj a b : byte_bits a = byte_bits b → a = b.
Proof.
  intros E. apply u8_val_inj, Z.bits_inj'. intros n Hn.
  destruct (decide (n < 8)%Z) as [Hn8|Hn8]; [|rw !testbit_u8_high; lia].
  injection E as E7 E6 E5 E4 E3 E2 E1 E0.
  assert (n = 0 ∨ n = 1 ∨ n = 2 ∨ n = 3 ∨ n = 4 ∨ n = 5 ∨ n = 6 ∨ n = 7)%Z as Hc by lia.
  by destruct_or! Hc; subst n.
Qed.

Lemma bits_inj l k : bits l = bits k → l = k.
Proof.
  revert k; induction l as [|x l IH]; intros [|y k]; [done| | |].
  - intros E%(f_equal length). rw !bits_length /= in E. lia.
  - intros E%(f_equal length). rw !bits_length /= in E. lia.
  - rw !bits_cons. intros [Exy Elk]%app_inj_1; [|done].
    f_equal; [by apply byte_bits_inj|by apply IH].
Qed.

(** The [{:08b}] format: eight binary digits. *)
Definition bit_char (b : bool) : ascii := if b then "1"%char else "0"%char.
Definition format_08b (b : u8) : string :=
  String.string_of_list_ascii (bit_char <$> byte_bits b).

(** ** The [hex] crate *)
Class Hex : Type := {
  hex_encode : list u8 → string;
  hex_decode : string → result (list u8)
}.

(** What the code relies on: [decode] inverts [encode], and no bytes give no text. *)
Class HexLaws `{Hex} : Prop := {
  hex_decode_encode l : hex_decode (hex_encode l) = Ok l;
  hex_encode_nil : hex_encode [] = ""
}.

(** A concrete instance, lowercase digits out and either case in, with which the
    law is met. *)
Module HexCodec.
Definition digit (d : Z) : ascii :=
  ascii_of_nat (Z.to_nat (if d <? 10 then 48 + d else 87 + d)%Z).

Definition undigit (c : ascii) : option Z :=
  let n := Z.of_nat (nat_of_ascii c) in
  if ((48 <=? n) && (n <=? 57))%Z then Some (n - 48)%Z
  else if ((97 <=? n) && (n <=? 102))%Z then Some (n - 87)%Z
  else if ((65 <=? n) && (n <=? 70))%Z then Some (n - 55)%Z
  else None.

Fixpoint encode (l : list u8) : string :=
  match l with
  | [] => EmptyString
  | b :: l' =>
      String (digit (u8_val b / 16)%Z) (String (digit (u8_val b mod 16)%Z) (encode l'))
  end.

Fixpoint decode (s : string) : result (list u8) :=
  match s with
  | EmptyString => Ok []
  | String c (String d s') =>
      match undigit c, undigit d with
      | Some x, Some y =>
          match decode s' with
          | Ok l => Ok (u8_of (16 * x + y)%Z :: l)
          | Err e => Err e
          end
      | _, _ => Err (Anyhow "Invalid character" [ArgText s])
      end
  | String _ EmptyString => Err (Anyhow "Odd number of digits" [])
  end.

#[export] Instance codec : Hex := {| hex_encode := encode; hex_decode := decode |}.

Lemma undigit_digit d : (0 ≤ d < 16)%Z → undigit (digit d) = Some d.
Proof.
  intros Hd. assert (d ∈ seqZ 0 16) as Hin by (apply elem_of_seqZ; lia).
  clear Hd. revert d Hin. apply Forall_forall. by repeat constructor.
Qed.

#[export] Instance codec_laws : HexLaws.
Proof.
  split; [|done]. intros l. cbn [hex_decode hex_encode codec].
  induction l as [|b l IH]; [done|].
  cbn [encode decode].
  pose proof (Z.mod_pos_bound (u8_val b) 16 eq_refl). pose proof (u8_val_range b).
  assert (0 ≤ u8_val b / 16 < 16)%Z
    by (split; [apply Z.div_pos|apply Z.div_lt_upper_bound]; lia).
  rw !undigit_digit; [done..|]. rw IH. do 2 f_equal.
  apply u8_val_inj. rw u8_val_of -Z.div_mod; [done|]. by apply Z.mod_small.
Qed.
End HexCodec.
