(* ===== verification/Identifier.v ===== *)
(** * Identifiers ([src/core/model/identifier.rs])

    32-byte node identifiers, compared byte by byte from the most significant one.
    The theorems relate the comparison loop to the order of the big-endian values
    and the conversions to each other. *)
From S2P Require Import Prelude Bytes.

Record Identifier : Type := MkIdentifier { id_array : Array32 }.

#[global] Instance identifier_eq_dec : EqDecision Identifier.
Proof. solve_decision. Defined.
#[global] Instance identifier_countable : Countable Identifier :=
  inj_countable' id_array MkIdentifier (λ '(MkIdentifier _), eq_refl).

Definition ZERO : Identifier := MkIdentifier (array32_repeat x00).
Definition MAX : Identifier := MkIdentifier (array32_repeat xff).

Inductive ComparisonResult : Type := CompareGreater | CompareEqual | CompareLess.

#[global] Instance comparison_result_eq_dec : EqDecision ComparisonResult.
Proof. solve_decision. Defined.

Record ComparisonContext : Type := MkComparisonContext {
  cc_result : ComparisonResult;
  cc_left : Identifier;
  cc_right : Identifier;
  cc_diff_index : nat
}.

(** [self.0[i]], for [i] below the array length. *)
Definition byte_at (a : Array32) (i : nat) : u8 := nth i (arr a) x00.

(** The loop of [compare], over the indices still to visit. *)
Fixpoint compare_loop (self other : Identifier) (idx : list nat) : ComparisonContext :=
  match idx with
  | [] => MkComparisonContext CompareEqual self other IDENTIFIER_SIZE_BYTES
  | i :: idx' =>
      match Z.compare (u8_val (byte_at (id_array self) i))
                      (u8_val (byte_at (id_array other) i)) with
      | Lt => MkComparisonContext CompareLess self other i
      | Gt => MkComparisonContext CompareGreater self other i
      | Eq => compare_loop self other idx'
      end
  end.

Definition compare (self other : Identifier) : ComparisonContext :=
  compare_loop self other (seq 0 IDENTIFIER_SIZE_BYTES).

(** [Ord::cmp] and [PartialOrd::partial_cmp]. *)
Definition cmp (self other : Identifier) : comparison :=
  match cc_result (compare self other) with
  | CompareLess => Lt
  | CompareEqual => Eq
  | CompareGreater => Gt
  end.
Definition partial_cmp (self other : Identifier) : option comparison := Some (cmp self other).

(** The operators [<], [>], [<=] and [>=], which [PartialOrd] derives from
    [partial_cmp]. *)
Definition id_ltb (a b : Identifier) : bool :=
  match partial_cmp a b with Some Lt => true | _ => false end.
Definition id_gtb (a b : Identifier) : bool :=
  match partial_cmp a b with Some Gt => true | _ => false end.
Definition id_leb (a b : Identifier) : bool :=
  match partial_cmp a b with Some (Lt | Eq) => true | _ => false end.
Definition id_geb (a b : Identifier) : bool :=
  match partial_cmp a b with Some (Gt | Eq) => true | _ => false end.

Definition from_bytes (bytes : list u8) : result Identifier :=
  match le_gt_dec (length bytes) IDENTIFIER_SIZE_BYTES with
  | right _ =>
      Err (Anyhow "identifier size is too large, expected {} bytes, got {} bytes"
             [ArgUsize IDENTIFIER_SIZE_BYTES; ArgUsize (length bytes)])
  | left H => Ok (MkIdentifier (MkArray32 (left_pad bytes) (left_pad_ok bytes H)))
  end.

Definition to_bytes (self : Identifier) : list u8 := arr (id_array self).
Definition as_bytes (self : Identifier) : list u8 := arr (id_array self).

Section hex.
Context `{Hex}.

Definition from_string (s : string) : result Identifier :=
  match hex_decode s with
  | Err e => Err e
  | Ok decoded => from_bytes decoded
  end.

Definition to_string (self : Identifier) : string := hex_encode (arr (id_array self)).

(** [a[0..=i]]. *)
Definition prefix_incl (a : Array32) (i : nat) : list u8 := take (S i) (arr a).

Definition comparison_to_string (c : ComparisonContext) : string :=
  let shown op :=
    hex_encode (prefix_incl (id_array (cc_left c)) (cc_diff_index c)) +:+ op +:+
    hex_encode (prefix_incl (id_array (cc_right c)) (cc_diff_index c)) +:+
    " (at byte " +:+ pretty.pretty (cc_diff_index c) +:+ ")" in
  match cc_result c with
  | CompareGreater => shown " > "
  | CompareEqual => to_string (cc_left c) +:+ " == " +:+ to_string (cc_right c)
  | CompareLess => shown " < "
  end.
End hex.

(** ** Values *)

(** The 256-bit unsigned integer an identifier spells, big endian. *)
Definition id_val (i : Identifier) : Z := be_value (arr (id_array i)).

Lemma id_val_inj i j : id_val i = id_val j → i = j.
Proof.
  destruct i as [a], j as [b]; rw /id_val /=. intros E.
  f_equal. apply array32_eq, be_value_inj; [by rw !arr_length|done].
Qed.

Lemma id_val_neq i j : i ≠ j ↔ id_val i ≠ id_val j.
Proof. split; [|by intros ? ->]. intros Hne E. by apply Hne, id_val_inj. Qed.

Lemma id_val_range i : (0 ≤ id_val i < 2 ^ 256)%Z.
Proof.
  pose proof (be_value_bounds (arr (id_array i))) as Hb. rw arr_length in Hb.
  exact Hb.
Qed.

(** What is left of the loop at index [i] compares what is left of the arrays. *)
Lemma compare_loop_lex self other i n :
  i + n = IDENTIFIER_SIZE_BYTES →
  let c := compare_loop self other (seq i n) in
  let l := drop i (arr (id_array self)) in
  let k := drop i (arr (id_array other)) in
  cc_left c = self ∧ cc_right c = other
  ∧ cc_diff_index c = i + lcp l k
  ∧ cc_result c = match lex_compare l k with
                  | Lt => CompareLess | Eq => CompareEqual | Gt => CompareGreater
                  end.
Proof.
  revert i; induction n as [|n IH]; intros i Hin; cbn zeta.
  - rw !drop_ge; [rw ?arr_length; lia..|]. simpl. split_and!; [done..|lia|done].
  - assert (Hd : ∀ a, drop i (arr a) = byte_at a i :: drop (S i) (arr a)).
    { intros a. destruct (lookup_lt_is_Some_2 (arr a) i) as [b Hb]; [rw arr_length; lia|].
      by rw (drop_S _ b _ Hb) /byte_at nth_lookup Hb. }
    specialize (IH (S i) ltac:(lia)) as (IHl & IHr & IHd & IHc).
    rw !Hd. cbn [seq compare_loop lex_compare lcp].
    destruct (Z.compare_spec (u8_val (byte_at (id_array self) i))
                (u8_val (byte_at (id_array other) i))) as [E|Hlt|Hgt].
    + rw decide_True; [by apply u8_val_inj|]. split_and!; [done..|lia|done].
    + rw decide_False; [intros E; rw E in Hlt; lia|]. simpl. split_and!; [done..|lia|done].
    + rw decide_False; [intros E; rw E in Hgt; lia|]. simpl. split_and!; [done..|lia|done].
Qed.

Lemma compare_spec self other :
  cc_left (compare self other) = self
  ∧ cc_right (compare self other) = other
  ∧ cc_diff_index (compare self other) = lcp (arr (id_array self)) (arr (id_array other))
  ∧ cc_result (compare self other) =
      match Z.compare (id_val self) (id_val other) with
      | Lt => CompareLess | Eq => CompareEqual | Gt => CompareGreater
      end.
Proof.
  pose proof (compare_loop_lex self other 0 IDENTIFIER_SIZE_BYTES eq_refl) as H.
  cbn zeta in H. rw !drop_0 lex_compare_value in H; [by rw !arr_length|]. exact H.
Qed.

Lemma cmp_val a b : cmp a b = Z.compare (id_val a) (id_val b).
Proof.
  rw /cmp. destruct (compare_spec a b) as (_ & _ & _ & ->). by destruct (Z.compare _ _).
Qed.

Lemma id_ltb_val a b : id_ltb a b = (id_val a <? id_val b)%Z.
Proof. rw /id_ltb /partial_cmp cmp_val /Z.ltb. by destruct (Z.compare _ _). Qed.
Lemma id_gtb_val a b : id_gtb a b = (id_val b <? id_val a)%Z.
Proof.
  rw /id_gtb /partial_cmp cmp_val /Z.ltb (Z.compare_antisym (id_val a) (id_val b)).
  by destruct (Z.compare _ _).
Qed.
Lemma id_leb_val a b : id_leb a b = (id_val a <=? id_val b)%Z.
Proof. rw /id_leb /partial_cmp cmp_val /Z.leb. by destruct (Z.compare _ _). Qed.
Lemma id_geb_val a b : id_geb a b = (id_val b <=? id_val a)%Z.
Proof.
  rw /id_geb /partial_cmp cmp_val /Z.leb (Z.compare_antisym (id_val a) (id_val b)).
  by destruct (Z.compare _ _).
Qed.

(** Boolean tests on identifiers become inequalities between values. *)
(** [id_order] turns every boolean comparison of identifiers in sight into a fact
    about their values. *)
Ltac id_order :=
  repeat match goal with
  | H : context [id_ltb _ _] |- _ => rw id_ltb_val in H
  | H : context [id_gtb _ _] |- _ => rw id_gtb_val in H
  | H : context [id_leb _ _] |- _ => rw id_leb_val in H
  | H : context [id_geb _ _] |- _ => rw id_geb_val in H
  | |- context [id_ltb _ _] => rw id_ltb_val
  | |- context [id_gtb _ _] => rw id_gtb_val
  | |- context [id_leb _ _] => rw id_leb_val
  | |- context [id_geb _ _] => rw id_geb_val
  end;
  repeat match goal with
  | H : (_ <? _)%Z = true |- _ => apply Z.ltb_lt in H
  | H : (_ <? _)%Z = false |- _ => apply Z.ltb_ge in H
  | H : (_ <=? _)%Z = true |- _ => apply Z.leb_le in H
  | H : (_ <=? _)%Z = false |- _ => apply Z.leb_gt in H
  | |- (_ <? _)%Z = true => apply Z.ltb_lt
  | |- (_ <? _)%Z = false => apply Z.ltb_ge
  | |- (_ <=? _)%Z = true => apply Z.leb_le
  | |- (_ <=? _)%Z = false => apply Z.leb_gt
  end.

Lemma be_value_replicate0 n l : be_value (replicate n x00 ++ l) = be_value l.
Proof. induction n as [|n IH]; [done|]. cbn [replicate app be_value]. by rw IH. Qed.

Lemma from_bytes_val l i :
  from_bytes l = Ok i → length l ≤ IDENTIFIER_SIZE_BYTES ∧ id_val i = be_value l.
Proof.
  rw /from_bytes. destruct (le_gt_dec _ _) as [H|H]; [|done]. intros [= <-].
  split; [done|]. rw /id_val /= /left_pad. apply be_value_replicate0.
Qed.

(** C24: [compare] orders identifiers as the 256-bit big-endian integers they
    spell, keeps both operands, and reports as [diff_index] the length of the
    longest common prefix of the two byte arrays, which is 32 exactly when the
    identifiers are equal. *)
Theorem compare_is_numeric_order self other :
  let c := compare self other in
  (cc_result c = CompareLess ↔ (id_val self < id_val other)%Z)
  ∧ (cc_result c = CompareEqual ↔ self = other)
  ∧ (cc_result c = CompareGreater ↔ (id_val self > id_val other)%Z)
  ∧ cc_left c = self ∧ cc_right c = other
  ∧ cc_diff_index c = lcp (arr (id_array self)) (arr (id_array other))
  ∧ (cc_diff_index c = IDENTIFIER_SIZE_BYTES ↔ self = other).
Proof.
  cbn zeta. destruct (compare_spec self other) as (-> & -> & -> & ->).
  split_and!; [| | |done|done|done|].
  1-3: destruct (Z.compare_spec (id_val self) (id_val other)) as [E|Hlt|Hgt];
    [apply id_val_inj in E as ->|assert (self ≠ other) by (intros ->; lia)..];
    (split; [try done|]); intros; subst; try lia; done.
  split; intros E.
  - destruct self as [a], other as [b]; simpl in *. f_equal. apply array32_eq.
    assert (Hle : IDENTIFIER_SIZE_BYTES ≤ lcp (arr a) (arr b)) by lia.
    apply lcp_take in Hle; [|by rw arr_length..].
    by rw !firstn_all2 in Hle; [rw arr_length..|].
  - subst. by rw lcp_diag arr_length.
Qed.

(** C25: [cmp] is a total order: antisymmetric, transitive, and equal only on equal
    identifiers, so sorting and [min]/[max] selections by identifier are
    well-defined. *)
Theorem cmp_total_order a b c :
  cmp b a = CompOpp (cmp a b)
  ∧ (cmp a b = Eq ↔ a = b)
  ∧ (id_ltb a b = true → id_ltb b c = true → id_ltb a c = true)
  ∧ (id_leb a b = negb (id_gtb a b)) ∧ (id_geb a b = negb (id_ltb a b)).
Proof.
  split_and!.
  - rw !cmp_val. apply Z.compare_antisym.
  - rw cmp_val Z.compare_eq_iff. split; [apply id_val_inj|by intros ->].
  - intros; id_order; lia.
  - rw id_leb_val id_gtb_val. apply Z.leb_antisym.
  - rw id_geb_val id_ltb_val. apply Z.leb_antisym.
Qed.

(** C30: [from_bytes] accepts exactly the slices of at most 32 bytes; it then pads
    with zero bytes on the left, so the identifier spells the same integer and
    [to_bytes] gives back the slice after the padding. Longer slices are
    reported with both sizes. *)
Theorem from_bytes_spec bytes :
  match from_bytes bytes with
  | Ok i => length bytes ≤ 32
      ∧ to_bytes i = replicate (32 - length bytes) x00 ++ bytes
      ∧ id_val i = be_value bytes
  | Err e => 32 < length bytes
      ∧ e = Anyhow "identifier size is too large, expected {} bytes, got {} bytes"
              [ArgUsize 32; ArgUsize (length bytes)]
  end.
Proof.
  destruct (from_bytes bytes) as [i|e] eqn:E.
  - pose proof (from_bytes_val _ _ E) as [Hl Hv]. split_and!; [done| |done].
    rw /from_bytes in E. by destruct (le_gt_dec _ _); simplify_eq.
  - rw /from_bytes in E. destruct (le_gt_dec _ _) as [|Hgt]; simplify_eq.
    rw /IDENTIFIER_SIZE_BYTES in Hgt. split; [lia|done].
Qed.

Lemma identifier_from_to_bytes i : from_bytes (to_bytes i) = Ok i.
Proof.
  pose proof (arr_length (id_array i)) as Hlen.
  rw /from_bytes /to_bytes. destruct (le_gt_dec _ _) as [H|H]; [|lia].
  f_equal. destruct i as [a]. f_equal. apply array32_eq.
  by rw /= /left_pad arr_length.
Qed.

(** C31: printing an identifier as hexadecimal and parsing the text back gives the
    same identifier, and so does [to_bytes] followed by [from_bytes]. *)
Theorem identifier_roundtrip `{!Hex, !HexLaws} i :
  from_string (to_string i) = Ok i ∧ from_bytes (to_bytes i) = Ok i.
Proof.
  split; [|apply identifier_from_to_bytes].
  rw /from_string /to_string hex_decode_encode. apply identifier_from_to_bytes.
Qed.

Lemma identifier_roundtrip_witness :
  @from_string HexCodec.codec (@to_string HexCodec.codec MAX) = Ok MAX
  ∧ from_bytes (to_bytes MAX) = Ok MAX.
Proof. apply (@identifier_roundtrip HexCodec.codec HexCodec.codec_laws MAX). Defined.
