(* ===== verification/MemVec.v ===== *)
(** * Membership vectors ([src/core/model/memvec.rs])

    32-byte membership vectors and the length of the bit prefix two of them share.
    The theorems identify the byte-and-mask loop of [common_prefix_bit] with the
    longest common prefix of the two bit strings, and show that sharing a
    [level]-bit prefix is an equivalence relation: it is what makes the nodes of a
    level fall into disjoint lists. *)
From S2P Require Import Prelude Bytes.

Record MembershipVector : Type := MkMembershipVector { mv_array : Array32 }.

#[global] Instance membership_vector_eq_dec : EqDecision MembershipVector.
Proof. solve_decision. Defined.
#[global] Instance membership_vector_countable : Countable MembershipVector :=
  inj_countable' mv_array MkMembershipVector (λ '(MkMembershipVector _), eq_refl).

Definition from_bytes (bytes : list u8) : result MembershipVector :=
  match le_gt_dec (length bytes) IDENTIFIER_SIZE_BYTES with
  | right _ =>
      Err (Anyhow "membership vector size is too large, expected {} bytes, got {} bytes"
             [ArgUsize IDENTIFIER_SIZE_BYTES; ArgUsize (length bytes)])
  | left H => Ok (MkMembershipVector (MkArray32 (left_pad bytes) (left_pad_ok bytes H)))
  end.

Definition as_bytes (self : MembershipVector) : list u8 := arr (mv_array self).
Definition to_bytes (self : MembershipVector) : list u8 := arr (mv_array self).

(** One [{:08b}] per byte, a space before each but the first. *)
Fixpoint bit_string_loop (l : list u8) (i : nat) (res : string) : string :=
  match l with
  | [] => res
  | b :: l' =>
      let res := if (0 <? i)%nat then res +:+ " " else res in
      bit_string_loop l' (S i) (res +:+ format_08b b)
  end.
Definition to_bit_string (self : MembershipVector) : string :=
  bit_string_loop (arr (mv_array self)) 0 "".

(** ** [common_prefix_bit] *)

(** The inner loop over bit positions either runs out, having counted its zero
    bits, or returns the total from the whole function at the first one bit. *)
Inductive bit_scan : Type := Continue (common_bits : nat) | Return (common_bits : nat).

Fixpoint bit_loop (xor : Z) (positions : list Z) (common_bits : nat) : bit_scan :=
  match positions with
  | [] => Continue common_bits
  | i :: rest =>
      if (Z.land xor (Z.shiftl 1 i) =? 0)%Z
      then bit_loop xor rest (common_bits + 1)
      else Return common_bits
  end.

Fixpoint common_prefix_loop (pairs : list (u8 * u8)) (common_bits : nat) : nat :=
  match pairs with
  | [] => common_bits
  | (byte_a, byte_b) :: rest =>
      let xor := Z.lxor (u8_val byte_a) (u8_val byte_b) in
      if (xor =? 0)%Z then common_prefix_loop rest (common_bits + 8)
      else match bit_loop xor (reverse (seqZ 0 8)) common_bits with
           | Return n => n
           | Continue n => common_prefix_loop rest n
           end
  end.

Definition common_prefix_bit (self other : MembershipVector) : nat :=
  common_prefix_loop (zip (arr (mv_array self)) (arr (mv_array other))) 0.

(** ** Text *)
Section hex.
Context `{Hex}.

Definition from_string (s : string) : result MembershipVector :=
  match hex_decode s with
  | Err e => Err (wrap "failed to decode hex string" e)
  | Ok bytes => from_bytes bytes
  end.

Definition to_string (self : MembershipVector) : string := hex_encode (arr (mv_array self)).

(** Slicing or indexing past the 32 bytes panics. *)
Definition decompose_at_bit (self : MembershipVector) (bit_index : nat)
    : outcome (string * string * string) :=
  let l := arr (mv_array self) in
  let prefix_byte_index := bit_index `div` 8 in
  if (IDENTIFIER_SIZE_BYTES <? prefix_byte_index)%nat then Panicked
  else match l !! prefix_byte_index with
  | None => Panicked
  | Some b =>
      let left_prefix := take prefix_byte_index l in
      if (prefix_byte_index =? IDENTIFIER_SIZE_BYTES - 1)%nat
      then Done (hex_encode left_prefix, format_08b b, "")
      else Done (hex_encode left_prefix, format_08b b,
                 hex_encode (drop (S prefix_byte_index) l))
  end.
End hex.

(** ** The bit strings *)
Definition mv_bits (m : MembershipVector) : list bool := bits (arr (mv_array m)).

Lemma mv_bits_length m : length (mv_bits m) = 256.
Proof. by rw /mv_bits bits_length arr_length. Qed.

Lemma mv_bits_inj m n : mv_bits m = mv_bits n → m = n.
Proof.
  destruct m as [a], n as [b]. intros E%bits_inj. f_equal. by apply array32_eq.
Qed.

Lemma mask_testbit x i : (0 ≤ i)%Z → (Z.land x (Z.shiftl 1 i) =? 0)%Z = negb (Z.testbit x i).
Proof.
  intros Hi. destruct (Z.testbit x i) eqn:E; simpl.
  - apply Z.eqb_neq. intros H0.
    assert (Ht : Z.testbit (Z.land x (Z.shiftl 1 i)) i = false) by (rw H0; apply Z.bits_0).
    rw Z.land_spec E Z.shiftl_spec in Ht; [done|]. by rw Z.sub_diag in Ht.
  - apply Z.eqb_eq, Z.bits_inj'. intros n Hn. rw Z.bits_0 Z.land_spec.
    destruct (decide (n = i)) as [->|Hne]; [by rw E|].
    rw Z.shiftl_spec; [done|]. replace 1%Z with (2 ^ 0)%Z by done.
    rw Z.pow2_bits_false; [lia|]. by rw andb_false_r.
Qed.

Lemma bit_loop_spec a b idx c :
  Forall (λ i, 0 ≤ i)%Z idx →
  bit_loop (Z.lxor a b) idx c =
    if decide (Z.testbit a <$> idx = Z.testbit b <$> idx)
    then Continue (c + length idx)
    else Return (c + lcp (Z.testbit a <$> idx) (Z.testbit b <$> idx)).
Proof.
  intros Hidx. revert c; induction Hidx as [|i idx Hi Hidx IH]; intros c.
  - simpl. by rw Nat.add_0_r.
  - cbn [bit_loop fmap list_fmap lcp]. rw mask_testbit; [done|]. rw Z.lxor_spec.
    destruct (decide (Z.testbit a i = Z.testbit b i)) as [E|E].
    + rw E xorb_nilpotent /= IH.
      destruct (decide (Z.testbit a <$> idx = Z.testbit b <$> idx)) as [E'|E'].
      * rw decide_True; [by rw E'|]. f_equal. lia.
      * rw decide_False; [congruence|]. f_equal. lia.
    + rw decide_False; [congruence|].
      replace (negb _) with false; [by rw Nat.add_0_r|].
      by destruct (Z.testbit a i), (Z.testbit b i).
Qed.

Lemma common_prefix_loop_spec l k c :
  length l = length k → common_prefix_loop (zip l k) c = c + lcp (bits l) (bits k).
Proof.
  revert k c; induction l as [|x l IH]; intros [|y k] c; cbn [length]; [simpl; lia|done..|].
  intros Hlen. assert (Hlen' : length l = length k) by lia.
  cbn [zip_with common_prefix_loop]. rw !bits_cons lcp_app; [done|].
  destruct (decide (byte_bits x = byte_bits y)) as [E|E].
  - apply byte_bits_inj in E as ->. rw Z.lxor_nilpotent /= IH; [done|]. lia.
  - destruct (Z.eqb_spec (Z.lxor (u8_val x) (u8_val y)) 0) as [E0|_].
    { apply Z.lxor_eq, u8_val_inj in E0 as ->. done. }
    rw bit_loop_spec; [by repeat constructor|]. by rw decide_False.
Qed.

Lemma common_prefix_bit_lcp m n : common_prefix_bit m n = lcp (mv_bits m) (mv_bits n).
Proof. rw /common_prefix_bit common_prefix_loop_spec; [by rw !arr_length|done]. Qed.

Lemma common_prefix_bit_take m n level :
  level ≤ 256 → level ≤ common_prefix_bit m n ↔ take level (mv_bits m) = take level (mv_bits n).
Proof. intros Hl. rw common_prefix_bit_lcp. apply lcp_take; by rw mv_bits_length. Qed.

Lemma common_prefix_bit_le m n : common_prefix_bit m n ≤ 256.
Proof. rw common_prefix_bit_lcp -(mv_bits_length m). apply lcp_le. Qed.

(** C23: [common_prefix_bit] is the length of the longest common prefix of the two
    256-bit strings, most significant bit first: [level] of its bits are shared
    exactly when the first [level] bits agree, it never exceeds 256, and it is
    256 exactly on equal vectors. *)
Theorem common_prefix_bit_spec m n level :
  common_prefix_bit m n = lcp (mv_bits m) (mv_bits n)
  ∧ (level ≤ 256 →
      (level ≤ common_prefix_bit m n ↔ take level (mv_bits m) = take level (mv_bits n)))
  ∧ common_prefix_bit m n ≤ 256
  ∧ (common_prefix_bit m n = 256 ↔ m = n).
Proof.
  rw common_prefix_bit_lcp. split; [done|].
  assert (Hle : lcp (mv_bits m) (mv_bits n) ≤ 256)
    by (rw -(mv_bits_length m); apply lcp_le).
  split_and!; [|done|].
  - intros Hl. apply lcp_take; by rw mv_bits_length.
  - split; intros E.
    + assert (256 ≤ lcp (mv_bits m) (mv_bits n)) as Ht by lia.
      apply lcp_take in Ht; [|by rw mv_bits_length..].
      apply mv_bits_inj. by rw !firstn_all2 in Ht; [rw mv_bits_length..|].
    + subst. by rw lcp_diag mv_bits_length.
Qed.

Lemma common_prefix_bit_sym m n : common_prefix_bit m n = common_prefix_bit n m.
Proof. rw !common_prefix_bit_lcp. apply lcp_comm. Qed.

Lemma common_prefix_bit_refl m : common_prefix_bit m m = 256.
Proof. by rw common_prefix_bit_lcp lcp_diag mv_bits_length. Qed.

Lemma common_prefix_bit_trans m n p level :
  level ≤ common_prefix_bit m n → level ≤ common_prefix_bit n p →
  level ≤ common_prefix_bit m p.
Proof.
  rw !common_prefix_bit_lcp. pose proof (lcp_trans (mv_bits m) (mv_bits n) (mv_bits p)).
  lia.
Qed.

(** Two vectors belong to the same level-[level] list. *)
Definition same_list (level : nat) (m n : MembershipVector) : Prop :=
  level ≤ common_prefix_bit m n.

(** At every real level (at most 256 bits) sharing a [level]-bit prefix is an
    equivalence relation, and level [level + 1] refines level [level]: the lists
    of a level are disjoint and each splits into lists of the next one. *)
Theorem same_list_equivalence level :
  level ≤ 256 →
  Equivalence (same_list level) ∧ (∀ m n, same_list (S level) m n → same_list level m n).
Proof.
  intros Hl. split; [split|].
  - intros m. rw /same_list common_prefix_bit_refl. done.
  - intros m n. by rw /same_list common_prefix_bit_sym.
  - intros m n p. apply common_prefix_bit_trans.
  - rw /same_list. lia.
Qed.

Lemma same_list_equivalence_witness :
  3 ≤ 256 ∧ Equivalence (same_list 3)
  ∧ (∀ m n, same_list 4 m n → same_list 3 m n).
Proof.
  assert (H : 3 ≤ 256) by lia. destruct (same_list_equivalence 3 H) as [H1 H2]. done.
Defined.

Lemma memvec_from_to_bytes m : from_bytes (to_bytes m) = Ok m.
Proof.
  pose proof (arr_length (mv_array m)) as Hlen.
  rw /from_bytes /to_bytes. destruct (le_gt_dec _ _) as [H|H]; [|lia].
  f_equal. destruct m as [a]. f_equal. apply array32_eq.
  by rw /= /left_pad arr_length.
Qed.

Lemma format_08b_char b i :
  i < 8 → String.get i (format_08b b) = bit_char <$> (byte_bits b !! i).
Proof. intros Hi. do 8 (destruct i as [|i]; [done|]). lia. Qed.

(** C29: [decompose_at_bit] panics exactly past the 256th bit. Otherwise it returns
    the hexadecimal text of the bytes before and after the byte that holds the
    pivot bit, and that byte in binary, where the pivot bit is digit
    [bit_index mod 8]; together the three parts are the whole vector. *)
Theorem decompose_at_bit_spec `{!Hex, !HexLaws} m bit_index :
  match decompose_at_bit m bit_index with
  | Panicked => 256 ≤ bit_index
  | Done (l, p, r) => bit_index < 256 ∧
      ∃ before b after,
        to_bytes m = before ++ b :: after ∧ length before = bit_index `div` 8
        ∧ hex_decode l = Ok before ∧ hex_decode r = Ok after ∧ p = format_08b b
        ∧ String.get (bit_index `mod` 8) p = bit_char <$> (mv_bits m !! bit_index)
  | OutOfFuel => False
  end.
Proof.
  pose proof (Nat.div_mod_eq bit_index 8) as Hdm.
  pose proof (Nat.mod_upper_bound bit_index 8 ltac:(lia)) as Hmod.
  rw /decompose_at_bit. set (q := bit_index `div` 8) in *.
  pose proof (arr_length (mv_array m)) as Hlen. rw /IDENTIFIER_SIZE_BYTES in Hlen |- *.
  destruct (Nat.ltb_spec 32 q); [lia|].
  destruct (arr (mv_array m) !! q) as [b|] eqn:Hb; [|apply lookup_ge_None in Hb; lia].
  pose proof (lookup_lt_Some _ _ _ Hb) as Hq. rw Hlen in Hq.
  assert (Hsplit : arr (mv_array m) = take q (arr (mv_array m)) ++ b :: drop (S q) (arr (mv_array m)))
    by (by rw -(drop_S _ _ _ Hb) take_drop).
  assert (Hbit : mv_bits m !! bit_index = byte_bits b !! (bit_index `mod` 8)).
  { rw /mv_bits Hsplit /bits bind_app bind_cons -/(bits _).
    assert (Hlb : length (bits (take q (arr (mv_array m)))) = 8 * q)
      by (rw bits_length length_take; lia).
    rw lookup_app_r; [lia|]. rw Hlb lookup_app_l; [rw byte_bits_length; lia|].
    f_equal. lia. }
  assert (Hget : String.get (bit_index `mod` 8) (format_08b b)
                 = bit_char <$> (mv_bits m !! bit_index))
    by (rw format_08b_char; [lia|by rw Hbit]).
  assert (Htake : length (take q (arr (mv_array m))) = q) by (rw length_take; lia).
  destruct (Nat.eqb_spec q (32 - 1)) as [Hq31|Hq31]; cbn beta iota; (split; [lia|]);
    eexists _, b, (drop (S q) (arr (mv_array m))); split_and!;
    try done; try apply hex_decode_encode.
  rw drop_ge; [lia|]. rw -hex_encode_nil. apply hex_decode_encode.
Qed.

Lemma decompose_at_bit_spec_witness :
  match @decompose_at_bit HexCodec.codec (MkMembershipVector (array32_repeat xa7)) 256 with
  | Panicked => 256 ≤ 256
  | _ => False
  end.
Proof.
  exact (@decompose_at_bit_spec HexCodec.codec HexCodec.codec_laws
    (MkMembershipVector (array32_repeat xa7)) 256).
Defined.

Example decompose_at_bit_40 :
  @decompose_at_bit HexCodec.codec (MkMembershipVector (array32_repeat xa7)) 40
  = Done ("a7a7a7a7a7", "10100111", HexCodec.encode (replicate 26 xa7)).
Proof. vm_compute. reflexivity. Qed.

(** C32: a membership vector survives printing and parsing, and conversion to bytes
    and back; parsing reports undecodable text before looking at its size. *)
Theorem memvec_roundtrip `{!Hex, !HexLaws} m s :
  from_string (to_string m) = Ok m ∧ from_bytes (to_bytes m) = Ok m
  ∧ (∀ e, hex_decode s = Err e →
       from_string s = Err (Anyhow "failed to decode hex string" [ArgErr e])).
Proof.
  split_and!; [|apply memvec_from_to_bytes|].
  - rw /from_string /to_string hex_decode_encode. apply memvec_from_to_bytes.
  - intros e E. by rw /from_string E.
Qed.

Lemma memvec_roundtrip_witness :
  @from_string HexCodec.codec "0" = Err (Anyhow "failed to decode hex string"
    [ArgErr (Anyhow "Odd number of digits" [])]).
Proof.
  destruct (@memvec_roundtrip HexCodec.codec HexCodec.codec_laws
    (MkMembershipVector (array32_repeat xa7)) "0") as (_ & _ & H).
  by apply H.
Defined.
