(* ===== verification/Model.v ===== *)
(** * Data model ([src/core/model], [src/network/mod.rs])

    Directions, addresses, identities, and the payloads of every network event.
    Identifiers and membership vectors have files of their own. *)
From S2P Require Import Prelude Bytes.
From S2P Require Identifier MemVec.
Export Identifier (Identifier).
Export MemVec (MembershipVector).

(** ** [direction.rs] *)
Inductive Direction : Type := Left | Right.

#[global] Instance direction_eq_dec : EqDecision Direction.
Proof. solve_decision. Defined.

Definition opposite (self : Direction) : Direction :=
  match self with Left => Right | Right => Left end.

Definition direction_to_string (self : Direction) : string :=
  match self with Left => "Left" | Right => "Right" end.

(** ** [address.rs]

    [str128] and [str8] are fixed-capacity strings of the [fixedstr] crate; an
    address stores the text they keep. *)
Record Address : Type := MkAddress { host : string; port : string }.

#[global] Instance address_eq_dec : EqDecision Address.
Proof. solve_decision. Defined.

Class FixedStr : Type := {
  (** [strN::from] followed by [as_str], for the capacity [N] of the type *)
  fixedstr_from : nat → string → string
}.

(** A [strN] keeps one byte for the length, and text that fits is kept whole. *)
Class FixedStrLaws `{FixedStr} : Prop := {
  fixedstr_fits n s : String.length s < n → fixedstr_from n s = s
}.

Definition address_new `{FixedStr} (h p : string) : Address :=
  MkAddress (fixedstr_from 128 h) (fixedstr_from 8 p).

Definition address_to_string (self : Address) : string := host self +:+ ":" +:+ port self.

(** ** [identity.rs] *)
Record Identity : Type := MkIdentity {
  id : Identifier;
  mem_vec : MembershipVector;
  address : Address
}.

#[global] Instance identity_eq_dec : EqDecision Identity.
Proof. solve_decision. Defined.

(** ** [search.rs] *)

(** [LookupTableLevel] is [usize]; levels are only compared and used as indices. *)
Abbreviation LookupTableLevel := nat (only parsing).

(** A nonce is a [u128] that is only compared; [Nonce::random] is a value the
    operations that call it receive as an argument. *)
Record Nonce : Type := MkNonce { nonce_id : N }.

#[global] Instance nonce_eq_dec : EqDecision Nonce.
Proof. solve_decision. Defined.
#[global] Instance nonce_countable : Countable Nonce :=
  inj_countable' nonce_id MkNonce (λ '(MkNonce _), eq_refl).

Record IdSearchReq : Type := MkIdSearchReq {
  isq_nonce : Nonce;
  isq_target : Identifier;
  isq_origin : Identifier;
  isq_level : LookupTableLevel;
  isq_direction : Direction
}.

Record IdSearchRes : Type := MkIdSearchRes {
  isr_nonce : Nonce;
  isr_target : Identifier;
  isr_termination_level : LookupTableLevel;
  isr_result : Identifier
}.

(** ** [join.rs] *)
Record MaxLevelReq : Type := MkMaxLevelReq { mlq_nonce : Nonce; mlq_origin : Identifier }.
Record MaxLevelRes : Type := MkMaxLevelRes {
  mlr_nonce : Nonce;
  mlr_max_level : LookupTableLevel
}.
Record NeighborReq : Type := MkNeighborReq {
  nq_nonce : Nonce;
  nq_origin : Identifier;
  nq_level : LookupTableLevel;
  nq_direction : Direction
}.
Record NeighborRes : Type := MkNeighborRes {
  nr_nonce : Nonce;
  nr_level : LookupTableLevel;
  nr_direction : Direction;
  nr_neighbor : option Identity
}.
Record LinkReq : Type := MkLinkReq {
  lq_nonce : Nonce;
  lq_candidate : Identity;
  lq_dir : Direction;
  lq_level : LookupTableLevel
}.
Record LinkRes : Type := MkLinkRes {
  lr_nonce : Nonce;
  lr_dir : Direction;
  lr_level : LookupTableLevel;
  lr_linked : option Identity
}.
Record BuddyReq : Type := MkBuddyReq {
  bq_nonce : Nonce;
  bq_candidate : Identity;
  bq_dir : Direction;
  bq_level : LookupTableLevel
}.
Record CheckNeighborReq : Type := MkCheckNeighborReq {
  cq_nonce : Nonce;
  cq_claimant : Identity;
  cq_dir : Direction;
  cq_level : LookupTableLevel
}.

(** ** [Event] *)
Inductive Event : Type :=
| TestMessage (s : string)
| SearchByIdRequest (req : IdSearchReq)
| SearchByIdResponse (res : IdSearchRes)
| GetMaxLevelOp (req : MaxLevelReq)
| RetMaxLevelOp (res : MaxLevelRes)
| GetNeighborOp (req : NeighborReq)
| RetNeighborOp (res : NeighborRes)
| GetLinkOp (req : LinkReq)
| SetLinkOp (res : LinkRes)
| BuddyOp (req : BuddyReq)
| CheckNeighborOp (req : CheckNeighborReq).

(** ** Sides

    [beyond d a b]: [b] lies on side [d] of [a]. A slot of direction [d] of node
    [a] may only hold identities beyond [a]. *)
Definition beyond (d : Direction) (a b : Identifier) : Prop :=
  match d with
  | Left => (Identifier.id_val b < Identifier.id_val a)%Z
  | Right => (Identifier.id_val a < Identifier.id_val b)%Z
  end.

(** At or beyond. *)
Definition reaches (d : Direction) (a b : Identifier) : Prop := a = b ∨ beyond d a b.

#[global] Instance beyond_dec d a b : Decision (beyond d a b).
Proof. destruct d; unfold beyond; apply _. Defined.
#[global] Instance reaches_dec d a b : Decision (reaches d a b).
Proof. unfold reaches; apply _. Defined.

Lemma beyond_trans d a b c : beyond d a b → beyond d b c → beyond d a c.
Proof. destruct d; simpl; lia. Qed.

Lemma beyond_irrefl d a : ¬ beyond d a a.
Proof. destruct d; simpl; lia. Qed.

Lemma beyond_asym d a b : beyond d a b → ¬ beyond d b a.
Proof. destruct d; simpl; lia. Qed.

Lemma beyond_opposite d a b : beyond (opposite d) a b ↔ beyond d b a.
Proof. by destruct d. Qed.

Lemma beyond_total d a b : beyond d a b ∨ a = b ∨ beyond d b a.
Proof.
  destruct (decide (a = b)) as [->|Hne]; [by auto|].
  apply Identifier.id_val_neq in Hne. destruct d; simpl; lia.
Qed.

Lemma beyond_neq d a b : beyond d a b → a ≠ b.
Proof. intros H ->. by eapply beyond_irrefl. Qed.

Lemma not_beyond d a b : ¬ beyond d a b → reaches d b a.
Proof. destruct (beyond_total d a b) as [?|[->|?]]; [done|by left|by right]. Qed.

Lemma reaches_trans d a b c : reaches d a b → reaches d b c → reaches d a c.
Proof.
  intros [->|H1] [->|H2]; [by left|by right|by right|right]. by eapply beyond_trans.
Qed.

Lemma reaches_beyond d a b c : reaches d a b → beyond d b c → beyond d a c.
Proof. intros [->|H1] H2; [done|]. by eapply beyond_trans. Qed.

Lemma beyond_reaches d a b c : beyond d a b → reaches d b c → beyond d a c.
Proof. intros H1 [->|H2]; [done|]. by eapply beyond_trans. Qed.

Lemma reaches_antisym d a b : reaches d a b → reaches d b a → a = b.
Proof. intros [->|H1] [E|H2]; [done..|]. by destruct (beyond_asym _ _ _ H1). Qed.

Create HintDb sides.
#[export] Hint Resolve beyond_trans reaches_trans reaches_beyond beyond_reaches beyond_neq : sides.

(** [opposite] swaps the two directions: applied twice it is the identity, it
    never fixes a direction, and it exchanges the two sides of a node, so a reply
    that inverts the direction names the mirror slot. *)
Theorem opposite_mirrors d a b :
  opposite (opposite d) = d ∧ opposite d ≠ d
  ∧ (beyond (opposite d) a b ↔ beyond d b a).
Proof. split_and!; [by destruct d..|apply beyond_opposite]. Qed.

(** An address keeps the host and port it was made from whenever they fit the
    fixed capacities (fewer than 128 and 8 bytes), and prints as [host:port]. *)
Theorem address_new_spec `{!FixedStr, !FixedStrLaws} h p :
  String.length h < 128 → String.length p < 8 →
  address_new h p = MkAddress h p
  ∧ address_to_string (address_new h p) = h +:+ ":" +:+ p.
Proof. intros Hh Hp. rw /address_new !fixedstr_fits; done. Qed.

(** A truncating fixed string, to witness the law. *)
Definition truncating : FixedStr := {| fixedstr_from n s := String.substring 0 (n - 1) s |}.

Lemma substring_all s n : String.length s ≤ n → String.substring 0 n s = s.
Proof.
  revert n; induction s as [|c s IH]; intros [|n]; simpl; try done; try lia.
  intros H. rw IH; [lia|done].
Qed.

#[global] Instance truncating_laws : @FixedStrLaws truncating.
Proof. split. intros n s H. apply substring_all. lia. Qed.

Lemma address_new_spec_witness :
  @address_new truncating "localhost" "1234" = MkAddress "localhost" "1234"
  ∧ address_to_string (@address_new truncating "localhost" "1234") = "localhost:1234".
Proof.
  apply (@address_new_spec truncating truncating_laws "localhost" "1234"); simpl; lia.
Defined.

(** ** Sample identities for concrete instances *)
Module Sample.
Definition ident (b : u8) : Identifier :=
  Identifier.MkIdentifier (MkArray32 (replicate 31 x00 ++ [b]) eq_refl).
Definition memvec (b : u8) : MembershipVector :=
  MemVec.MkMembershipVector (MkArray32 (b :: replicate 31 x00) eq_refl).
Definition address (b : u8) : Address :=
  MkAddress "localhost" (String (Ascii.ascii_of_byte b) EmptyString).
(** identifier [b], membership vector starting with byte [v] *)
Definition node (b v : u8) : Identity := MkIdentity (ident b) (memvec v) (address b).
End Sample.
