(* ===== verification/ModelTests.v ===== *)
(** * The unit tests of identifiers and membership vectors
    ([src/core/model/identifier.rs], [src/core/model/memvec.rs])

    Each test is a function of its random draws that says whether its assertions pass;
    they are run in [NodeTests] with those of the node. *)
From S2P Require Import Prelude Bytes Model.
From S2P Require Import Identifier MemVec.

(** [unwrap]: an error fails the test. *)
Definition unwrapped {A} (r : result A) (k : A → bool) : bool :=
  match r with Ok a => k a | Err _ => false end.
#[local] Notation "'let!' x ':=' r 'in' k" := (unwrapped r (λ x, k))
  (at level 10, x name, k at level 200).

Definition bytes_eqb (a b : list u8) : bool := bool_decide (a = b).

Section identifier_tests.
Context `{Hex}.

(** Draws of 32, 31 and 33 bytes. *)
Context (bytes32 bytes31 bytes33 : list u8).

(** [from_bytes] on given bytes, and [to_bytes] back. *)
Definition id_bytes (bytes expected : list u8) : bool :=
  let! identifier := Identifier.from_bytes bytes in
  bytes_eqb (Identifier.to_bytes identifier) expected.

Definition test_identifier_from_bytes : bool :=
  id_bytes (replicate IDENTIFIER_SIZE_BYTES x00) (replicate IDENTIFIER_SIZE_BYTES x00)
  && id_bytes (replicate IDENTIFIER_SIZE_BYTES xff) (replicate IDENTIFIER_SIZE_BYTES xff)
  && id_bytes bytes32 bytes32
  && (let! identifier := Identifier.from_bytes bytes31 in
      bytes_eqb (drop 1 (Identifier.to_bytes identifier)) bytes31
      && bool_decide (Identifier.to_bytes identifier !! 0 = Some x00))
  && negb (is_ok (Identifier.from_bytes bytes33)).

Definition id_string (s : string) (expected : list u8) : bool :=
  let! identifier := Identifier.from_string s in
  bytes_eqb (Identifier.to_bytes identifier) expected.

(** The strings are [random_hex_str] of the draws. *)
Definition test_identifier_from_string : bool :=
  id_string (hex_encode (replicate IDENTIFIER_SIZE_BYTES x00)) (replicate IDENTIFIER_SIZE_BYTES x00)
  && id_string (hex_encode (replicate IDENTIFIER_SIZE_BYTES xff)) (replicate IDENTIFIER_SIZE_BYTES xff)
  && (let s := hex_encode bytes32 in
      let! expected_bytes := hex_decode s in id_string s expected_bytes)
  && (let s := hex_encode bytes31 in
      let! identifier := Identifier.from_string s in
      let! expected_bytes := hex_decode s in
      bytes_eqb (drop 1 (Identifier.to_bytes identifier)) expected_bytes
      && bool_decide (Identifier.to_bytes identifier !! 0 = Some x00))
  && negb (is_ok (Identifier.from_string (hex_encode bytes33))).

(** The assertions on one comparison. *)
Definition compares (a b : Identifier) (c : ComparisonResult) (diff_index : nat) (text : string)
    : bool :=
  let comp := compare a b in
  match c with
  | CompareEqual => bool_decide (a = b)
  | CompareLess => id_ltb a b
  | CompareGreater => id_gtb a b
  end
  && bool_decide (c = cc_result comp) && bool_decide (a = cc_left comp)
  && bool_decide (b = cc_right comp) && (diff_index =? cc_diff_index comp)%nat
  && String.eqb (comparison_to_string comp) text.

(** [left_bytes] and [right_bytes] are draws of 15 bytes each. *)
Definition test_identifier_compare (left_bytes right_bytes : list u8) : bool :=
  let! id_0 := Identifier.from_bytes (replicate IDENTIFIER_SIZE_BYTES x00) in
  let! id_1 := Identifier.from_bytes (replicate IDENTIFIER_SIZE_BYTES x7f) in
  let! id_2 := Identifier.from_bytes (replicate IDENTIFIER_SIZE_BYTES xff) in
  let equal i := compares i i CompareEqual IDENTIFIER_SIZE_BYTES
    (Identifier.to_string i +:+ " == " +:+ Identifier.to_string i) in
  let differing_byte_index := IDENTIFIER_SIZE_BYTES `div` 2 in
  let! id_random_greater := Identifier.from_bytes (left_bytes ++ [x01] ++ right_bytes) in
  let! id_random_less := Identifier.from_bytes (left_bytes ++ [x00] ++ right_bytes) in
  let shown i := hex_encode (take (S differing_byte_index) (Identifier.to_bytes i)) in
  equal id_0 && equal id_1 && equal id_2
  && compares id_0 id_1 CompareLess 0 "00 < 7f (at byte 0)"
  && compares id_1 id_0 CompareGreater 0 "7f > 00 (at byte 0)"
  && compares id_1 id_2 CompareLess 0 "7f < ff (at byte 0)"
  && compares id_2 id_1 CompareGreater 0 "ff > 7f (at byte 0)"
  && compares id_0 id_2 CompareLess 0 "00 < ff (at byte 0)"
  && compares id_2 id_0 CompareGreater 0 "ff > 00 (at byte 0)"
  && equal id_random_greater && equal id_random_less
  && compares id_random_greater id_random_less CompareGreater differing_byte_index
       (shown id_random_greater +:+ " > " +:+ shown id_random_less +:+ " (at byte "
          +:+ pretty.pretty differing_byte_index +:+ ")")
  && compares id_random_less id_random_greater CompareLess differing_byte_index
       (shown id_random_less +:+ " < " +:+ shown id_random_greater +:+ " (at byte "
          +:+ pretty.pretty differing_byte_index +:+ ")").

Definition test_identifier_to_string (i : Identifier) : bool :=
  let id_str := Identifier.to_string i in
  let! id_from_str := Identifier.from_string id_str in
  bool_decide (i = id_from_str).
End identifier_tests.

Section memvec_tests.
Context `{Hex}.
Context (bytes32 bytes31 bytes33 : list u8).

Definition mv_bytes (bytes expected : list u8) : bool :=
  let! mv := MemVec.from_bytes bytes in bytes_eqb (MemVec.to_bytes mv) expected.

Definition test_membership_vector_from_bytes : bool :=
  mv_bytes (replicate 32 x00) (replicate 32 x00)
  && mv_bytes (replicate 32 xff) (replicate 32 xff)
  && mv_bytes bytes32 bytes32
  && (let! mv := MemVec.from_bytes bytes31 in
      bytes_eqb (drop 1 (MemVec.to_bytes mv)) bytes31
      && bool_decide (MemVec.to_bytes mv !! 0 = Some x00))
  && negb (is_ok (MemVec.from_bytes bytes33)).

Definition mv_string (s : string) (expected : list u8) : bool :=
  let! mv := MemVec.from_string s in bytes_eqb (MemVec.to_bytes mv) expected.

Definition test_membership_vector_from_string : bool :=
  mv_string (hex_encode (replicate IDENTIFIER_SIZE_BYTES x00)) (replicate IDENTIFIER_SIZE_BYTES x00)
  && mv_string (hex_encode (replicate IDENTIFIER_SIZE_BYTES xff)) (replicate IDENTIFIER_SIZE_BYTES xff)
  && (let s := hex_encode bytes32 in
      let! expected_bytes := hex_decode s in mv_string s expected_bytes)
  && (let s := hex_encode bytes31 in
      let! mv := MemVec.from_string s in
      let! expected_bytes := hex_decode s in
      bool_decide (MemVec.to_bytes mv !! 0 = Some x00)
      && bytes_eqb expected_bytes (drop 1 (MemVec.to_bytes mv)))
  && negb (is_ok (MemVec.from_string (hex_encode bytes33))).

(** Both orders of [common_prefix_bit]. *)
Definition prefix_both (a b : MembershipVector) (n : nat) : bool :=
  (common_prefix_bit a b =? n)%nat && (common_prefix_bit b a =? n)%nat.

(** The fixed vectors. *)
Definition test_common_bit_prefix_fixed : bool :=
  let rest n := replicate (IDENTIFIER_SIZE_BYTES - n) xff in
  let all := IDENTIFIER_SIZE_BYTES * 8 in
  let! mv_0 := MemVec.from_bytes (replicate IDENTIFIER_SIZE_BYTES x00) in
  let! mv_1 := MemVec.from_bytes (replicate IDENTIFIER_SIZE_BYTES xff) in
  let! mv_01 := MemVec.from_bytes ([x7f] ++ rest 1) in
  let! mv_001 := MemVec.from_bytes ([x3f] ++ rest 1) in
  let! mv_second_byte_all_zero := MemVec.from_bytes ([xff] ++ [x00] ++ rest 2) in
  let! mv_second_byte_128 := MemVec.from_bytes ([xff] ++ [x80] ++ rest 2) in
  prefix_both mv_0 mv_0 all && prefix_both mv_1 mv_1 all && prefix_both mv_0 mv_1 0
  && prefix_both mv_01 mv_01 all && prefix_both mv_1 mv_01 0 && prefix_both mv_0 mv_01 1
  && prefix_both mv_001 mv_001 all && prefix_both mv_001 mv_0 2 && prefix_both mv_001 mv_1 0
  && prefix_both mv_second_byte_all_zero mv_second_byte_all_zero all
  && prefix_both mv_second_byte_all_zero mv_0 0 && prefix_both mv_second_byte_all_zero mv_1 8
  && prefix_both mv_second_byte_128 mv_second_byte_128 all
  && prefix_both mv_second_byte_128 mv_0 0 && prefix_both mv_second_byte_128 mv_1 (8 + 1)
  && prefix_both mv_second_byte_128 mv_second_byte_all_zero 8.

(** The drawn vectors, which differ in one bit of the byte at [random_index]. *)
Definition test_common_bit_prefix_drawn (random_index random_bit_index : nat) (byte_1 : u8)
    (left_bytes right_bytes : list u8) : bool :=
  let byte_2 := u8_of (Z.lxor (u8_val byte_1) (Z.shiftl 1 (Z.of_nat random_bit_index))) in
  let! mv_239 := MemVec.from_bytes (left_bytes ++ [xef] ++ right_bytes) in
  let! mv_255 := MemVec.from_bytes (left_bytes ++ [xff] ++ right_bytes) in
  let! mv_1 := MemVec.from_bytes (left_bytes ++ [byte_1] ++ right_bytes) in
  let! mv_2 := MemVec.from_bytes (left_bytes ++ [byte_2] ++ right_bytes) in
  (length right_bytes + length left_bytes =? IDENTIFIER_SIZE_BYTES - 1)%nat
  && prefix_both mv_239 mv_255 (random_index * 8 + 3)
  && (common_prefix_bit mv_1 mv_2 =? random_index * 8 + (7 - random_bit_index))%nat.

Definition fixed_mv : string := "a738f14dc0750b7f7e4c418fdda32c424e9ecf7280892d14648e405466a76f29".

Definition decomposes (mv : MembershipVector) (p : nat) (left pivot right : string) : bool :=
  match decompose_at_bit mv p with
  | Done (l, b, r) => String.eqb l left && String.eqb b pivot && String.eqb r right
  | _ => false
  end.

Definition test_decompose_at_bit_fixed_mv_fixed_pivot : bool :=
  let! mv := MemVec.from_string fixed_mv in
  decomposes mv 40 "a738f14dc0" "01110101" "0b7f7e4c418fdda32c424e9ecf7280892d14648e405466a76f29".

Definition assert_valid_decompose (mv : MembershipVector) (pivot_index : nat) : bool :=
  let l := MemVec.to_bytes mv in
  match l !! (pivot_index `div` 8) with
  | Some b =>
      decomposes mv pivot_index (hex_encode (take (pivot_index `div` 8) l)) (format_08b b)
        (hex_encode (drop (pivot_index `div` 8 + 1) l))
  | None => false
  end.

Definition exhaustive_pivots (mv : MembershipVector) : bool :=
  forallb (assert_valid_decompose mv) (seq 0 (IDENTIFIER_SIZE_BYTES * 8 - 1)).
Definition test_decompose_at_bit_exhaustive_pivot : bool :=
  let! mv := MemVec.from_string fixed_mv in exhaustive_pivots mv.
Definition test_decompose_at_bit_exhaustive_pivot_random_mvs (mvs : list MembershipVector) : bool :=
  forallb exhaustive_pivots mvs.
End memvec_tests.

(** The last test passes for all draws. *)
Lemma decompose_pivots_pass `{!Hex, !HexLaws} mvs :
  test_decompose_at_bit_exhaustive_pivot_random_mvs mvs = true.
Proof.
  apply forallb_forall. intros mv _. apply forallb_forall. intros p [_ Hp]%in_seq.
  rw /assert_valid_decompose /decomposes /decompose_at_bit /MemVec.to_bytes.
  assert (Hi : p `div` 8 < 32) by (apply Nat.Div0.div_lt_upper_bound; revert Hp; rw /IDENTIFIER_SIZE_BYTES; lia).
  pose proof (arr_length (mv_array mv)) as Hlen.
  destruct (lookup_lt_is_Some_2 (arr (mv_array mv)) (p `div` 8)) as [b Hb]; [by rw Hlen|]. rw Hb.
  destruct (Nat.ltb_spec IDENTIFIER_SIZE_BYTES (p `div` 8)) as [Hlt|_].
  { revert Hlt. rw /IDENTIFIER_SIZE_BYTES. lia. }
  rw Nat.add_1_r. destruct (Nat.eqb_spec (p `div` 8) (IDENTIFIER_SIZE_BYTES - 1)) as [->|_].
  - rw (drop_ge (arr (mv_array mv)) (S (IDENTIFIER_SIZE_BYTES - 1))); [by rw Hlen|].
    by rw !String.eqb_refl hex_encode_nil.
  - by rw !String.eqb_refl.
Qed.

(** ** Runs *)
Record ModelDraws : Type := MkModelDraws {
  md_bytes32 : list u8;
  md_bytes31 : list u8;
  md_bytes33 : list u8;
  md_left : list u8;
  md_right : list u8;
  md_index : nat;
  md_bit : nat;
  md_byte : u8;
  md_identifier : Identifier
}.

(** The random byte index and the bytes around it share the drawn bytes. *)
Definition model_tests `{Hex} (r : ModelDraws) : list bool :=
  [test_identifier_from_bytes (md_bytes32 r) (md_bytes31 r) (md_bytes33 r);
   test_identifier_from_string (md_bytes32 r) (md_bytes31 r) (md_bytes33 r);
   test_identifier_compare (md_left r) (md_right r);
   test_identifier_to_string (md_identifier r);
   test_membership_vector_from_bytes (md_bytes32 r) (md_bytes31 r) (md_bytes33 r);
   test_membership_vector_from_string (md_bytes32 r) (md_bytes31 r) (md_bytes33 r);
   test_common_bit_prefix_fixed;
   test_common_bit_prefix_drawn (md_index r) (md_bit r) (md_byte r) (take (md_index r) (md_bytes31 r))
     (drop (md_index r) (md_bytes31 r));
   test_decompose_at_bit_fixed_mv_fixed_pivot;
   test_decompose_at_bit_exhaustive_pivot].

Module ModelTestRuns.
Definition spread (k : Z) (n : nat) : list u8 := (λ i, u8_of (k * Z.of_nat i + 3)) <$> seq 0 n.
Definition run (k : Z) (index bit : nat) : ModelDraws :=
  MkModelDraws (spread k 32) (spread (k + 1) 31) (spread (k + 2) 33) (spread (k + 3) 15)
    (spread (k + 4) 15) index bit (u8_of (k * 11)) MAX.
Definition runs : list ModelDraws :=
  [run 7 1 0; run 29 15 3; run 101 29 7; run 0 8 5].
End ModelTestRuns.
