(* ===== verification/LookupTable.v ===== *)
(** * Lookup tables ([src/core/lookup])

    The [LookupTable] trait as a class of operations over a table state, its
    contract as a second class stated on an abstract contents function, and
    [ArrayLookupTable], two vectors of 256 slots, as an implementation that meets
    the contract. [BaseCore] and everything above it are proved from the contract
    only.

    Each operation of the code runs under one lock acquisition, so each is one
    indivisible state transformer here. *)
From S2P Require Import Prelude Bytes Model.
From S2P Require Import Identifier.

Definition LOOKUP_TABLE_LEVELS : nat := IDENTIFIER_SIZE_BYTES * 8.

Inductive LinkOutcome : Type :=
| LinkedDirectly
| LinkForward (existing : Identity).

Inductive RelinkOutcome : Type :=
| AlreadyConsistent
| RelinkForward (existing : Identity)
| Relinked (evicted : option Identity).

(** ** The trait *)
Class LookupTable (L : Type) : Type := {
  update_entry : Identity → LookupTableLevel → Direction → M L ();
  remove_entry : LookupTableLevel → Direction → M L ();
  get_entry : LookupTableLevel → Direction → M L (option Identity);
  try_link : LookupTableLevel → Direction → Identity → M L LinkOutcome;
  try_relink : LookupTableLevel → Direction → Identity → M L RelinkOutcome;
  left_neighbors : M L (list (nat * Identity));
  right_neighbors : M L (list (nat * Identity));
  max_populated_level : M L (option LookupTableLevel)
}.

(** ** The contract *)

(** The decision of [try_relink] on the current entry. *)
Definition relink_decision (existing : option Identity) (d : Direction) (claimant : Identity)
    : RelinkOutcome :=
  match existing with
  | None => Relinked None
  | Some e =>
      if decide (e = claimant) then AlreadyConsistent
      else if decide (beyond d (id e) (id claimant)) then RelinkForward e
      else Relinked (Some e)
  end.

(** What [try_link] makes of it. *)
Definition link_decision (existing : option Identity) (d : Direction) (candidate : Identity)
    : LinkOutcome :=
  match existing with
  | Some e => if decide (beyond d (id e) (id candidate)) then LinkForward e else LinkedDirectly
  | None => LinkedDirectly
  end.

(** The entry either decision leaves in the slot. *)
Definition linked_slot (existing : option Identity) (d : Direction) (candidate : Identity)
    : option Identity :=
  match link_decision existing d candidate with
  | LinkForward e => Some e
  | LinkedDirectly => Some candidate
  end.

(** Table contents: the entry of each slot. *)
Definition Contents : Type := LookupTableLevel → Direction → option Identity.

Definition set_slot (l : LookupTableLevel) (d : Direction) (e : option Identity) (c : Contents)
    : Contents :=
  λ l' d', if decide (l' = l ∧ d' = d) then e else c l' d'.

(** The populated slots of one direction, lowest level first. *)
Definition populated (c : Contents) (d : Direction) : list (nat * Identity) :=
  omap (λ l, pair l <$> c l d) (seq 0 LOOKUP_TABLE_LEVELS).

Definition occupied (c : Contents) (l : LookupTableLevel) : Prop :=
  is_Some (c l Left) ∨ is_Some (c l Right).

(** The step [m] succeeds with [r] and turns the contents into [c]. *)
Definition steps_to {L A} (wf : L → Prop) (slots : L → Contents)
    (m : M L A) (t : L) (r : A) (c : Contents) : Prop :=
  ∃ t', m t = Done (Ok r, t') ∧ wf t' ∧ ∀ l d, slots t' l d = c l d.

(** The step [m] returns an error and changes nothing. *)
Definition fails {L A} (m : M L A) (t : L) : Prop := ∃ e, m t = Done (Err e, t).

Class LookupTableSpec (L : Type) `{LookupTable L} : Type := {
  lt_wf : L → Prop;
  slots : L → Contents;
  update_entry_spec t i l d : lt_wf t → l < LOOKUP_TABLE_LEVELS →
    steps_to lt_wf slots (update_entry i l d) t tt (set_slot l d (Some i) (slots t));
  update_entry_oob t i l d : LOOKUP_TABLE_LEVELS ≤ l → fails (update_entry i l d) t;
  remove_entry_spec t l d : lt_wf t → l < LOOKUP_TABLE_LEVELS →
    steps_to lt_wf slots (remove_entry l d) t tt (set_slot l d None (slots t));
  remove_entry_oob t l d : LOOKUP_TABLE_LEVELS ≤ l → fails (remove_entry l d) t;
  get_entry_spec t l d : lt_wf t → l < LOOKUP_TABLE_LEVELS →
    get_entry l d t = Done (Ok (slots t l d), t);
  get_entry_oob t l d : LOOKUP_TABLE_LEVELS ≤ l → fails (get_entry l d) t;
  try_relink_spec t l d i : lt_wf t → l < LOOKUP_TABLE_LEVELS →
    steps_to lt_wf slots (try_relink l d i) t (relink_decision (slots t l d) d i)
      (set_slot l d (linked_slot (slots t l d) d i) (slots t));
  try_relink_oob t l d i : LOOKUP_TABLE_LEVELS ≤ l → fails (try_relink l d i) t;
  try_link_spec t l d i : lt_wf t → l < LOOKUP_TABLE_LEVELS →
    steps_to lt_wf slots (try_link l d i) t (link_decision (slots t l d) d i)
      (set_slot l d (linked_slot (slots t l d) d i) (slots t));
  try_link_oob t l d i : LOOKUP_TABLE_LEVELS ≤ l → fails (try_link l d i) t;
  left_neighbors_spec t : lt_wf t →
    left_neighbors t = Done (Ok (populated (slots t) Left), t);
  right_neighbors_spec t : lt_wf t →
    right_neighbors t = Done (Ok (populated (slots t) Right), t);
  max_populated_level_spec t : lt_wf t →
    ∃ r, max_populated_level t = Done (Ok r, t) ∧
      match r with
      | Some l => l < LOOKUP_TABLE_LEVELS ∧ occupied (slots t) l
          ∧ ∀ l', occupied (slots t) l' → l' ≤ l
      | None => ∀ l, ¬ occupied (slots t) l
      end;
  slots_bound t l d : lt_wf t → is_Some (slots t l d) → l < LOOKUP_TABLE_LEVELS
}.

Lemma elem_of_populated `{LookupTableSpec L} (t : L) d l i :
  lt_wf t → (l, i) ∈ populated (slots t) d ↔ slots t l d = Some i.
Proof.
  intros Hwf. rw /populated list_elem_of_omap. split.
  - intros (l' & Hl' & E). apply fmap_Some in E as (j & Ej & [= -> ->]). done.
  - intros E. exists l. split; [|by rw E].
    apply elem_of_seq. assert (l < LOOKUP_TABLE_LEVELS); [|lia].
    apply (slots_bound t l d Hwf). by rw E.
Qed.

(** ** [ArrayLookupTable] *)
Module ArrayLookupTable.
Record InnerArrayLookupTable : Type := MkInner {
  lt_left : list (option Identity);
  lt_right : list (option Identity)
}.
Abbreviation Inner := InnerArrayLookupTable (only parsing).

Definition new : Inner :=
  MkInner (replicate LOOKUP_TABLE_LEVELS None) (replicate LOOKUP_TABLE_LEVELS None).

Definition out_of_range (level : LookupTableLevel) : Error :=
  Anyhow "position is larger than the max lookup table entry number: {}" [ArgUsize level].

(** [inner.left[level]] and [inner.right[level]], read and written. *)
Definition read (level : LookupTableLevel) (direction : Direction) : M Inner (option Identity) :=
  t ← get;
  match direction with
  | Left => index (lt_left t) level
  | Right => index (lt_right t) level
  end.

Definition write (level : LookupTableLevel) (direction : Direction) (e : option Identity)
    : M Inner () :=
  _ ← read level direction;
  modify (λ t, match direction with
               | Left => MkInner (<[level := e]> (lt_left t)) (lt_right t)
               | Right => MkInner (lt_left t) (<[level := e]> (lt_right t))
               end).

Definition update_entry (identity : Identity) (level : LookupTableLevel)
    (direction : Direction) : M Inner () :=
  if (LOOKUP_TABLE_LEVELS <=? level)%nat then fail (out_of_range level)
  else write level direction (Some identity).

Definition remove_entry (level : LookupTableLevel) (direction : Direction) : M Inner () :=
  if (LOOKUP_TABLE_LEVELS <=? level)%nat then fail (out_of_range level)
  else current_entry ← read level direction;
       write level direction None.

Definition get_entry (level : LookupTableLevel) (direction : Direction)
    : M Inner (option Identity) :=
  if (LOOKUP_TABLE_LEVELS <=? level)%nat then fail (out_of_range level)
  else read level direction.

Definition try_relink (level : LookupTableLevel) (direction : Direction) (claimant : Identity)
    : M Inner RelinkOutcome :=
  if (LOOKUP_TABLE_LEVELS <=? level)%nat then fail (out_of_range level)
  else
    existing ← read level direction;
    let relink := _ ← write level direction (Some claimant); mret (Relinked existing) in
    match existing, direction with
    | Some e, _ =>
        if decide (e = claimant) then mret AlreadyConsistent
        else match direction with
             | Right => if id_ltb (id e) (id claimant) then mret (RelinkForward e) else relink
             | Left => if id_gtb (id e) (id claimant) then mret (RelinkForward e) else relink
             end
    | None, _ => relink
    end.

Definition try_link (level : LookupTableLevel) (direction : Direction) (candidate : Identity)
    : M Inner LinkOutcome :=
  o ← try_relink level direction candidate;
  match o with
  | RelinkForward existing => mret (LinkForward existing)
  | AlreadyConsistent | Relinked _ => mret LinkedDirectly
  end.

(** [iter().enumerate()] and the pushes of the loop. *)
Fixpoint neighbors_loop (entries : list (option Identity)) (level : nat)
    (neighbors : list (nat * Identity)) : list (nat * Identity) :=
  match entries with
  | [] => neighbors
  | Some identity :: rest => neighbors_loop rest (S level) (neighbors ++ [(level, identity)])
  | None :: rest => neighbors_loop rest (S level) neighbors
  end.

Definition left_neighbors : M Inner (list (nat * Identity)) :=
  gets (λ t, neighbors_loop (lt_left t) 0 []).
Definition right_neighbors : M Inner (list (nat * Identity)) :=
  gets (λ t, neighbors_loop (lt_right t) 0 []).

(** [find] on the reversed range of levels. *)
Fixpoint find_populated (levels : list nat) : M Inner (option LookupTableLevel) :=
  match levels with
  | [] => mret None
  | level :: rest =>
      l ← read level Left;
      r ← (match l with Some _ => mret l | None => read level Right end : M Inner _);
      match r with
      | Some _ => mret (Some level)
      | None => find_populated rest
      end
  end.

Definition max_populated_level : M Inner (option LookupTableLevel) :=
  find_populated (reverse (seq 0 LOOKUP_TABLE_LEVELS)).
End ArrayLookupTable.

#[global] Instance array_lookup_table : LookupTable ArrayLookupTable.InnerArrayLookupTable := {|
  update_entry := ArrayLookupTable.update_entry;
  remove_entry := ArrayLookupTable.remove_entry;
  get_entry := ArrayLookupTable.get_entry;
  try_link := ArrayLookupTable.try_link;
  try_relink := ArrayLookupTable.try_relink;
  left_neighbors := ArrayLookupTable.left_neighbors;
  right_neighbors := ArrayLookupTable.right_neighbors;
  max_populated_level := ArrayLookupTable.max_populated_level
|}.

(** ** The array meets the contract *)
Section array.
Import ArrayLookupTable.
Implicit Types t : InnerArrayLookupTable.

Definition array_wf t : Prop :=
  length (lt_left t) = LOOKUP_TABLE_LEVELS ∧ length (lt_right t) = LOOKUP_TABLE_LEVELS.

Definition array_slots t : Contents := λ l d,
  match d with
  | Left => lt_left t !! l ≫= (λ e, e)
  | Right => lt_right t !! l ≫= (λ e, e)
  end.

Lemma new_wf : array_wf new.
Proof. by split; rw length_replicate. Qed.

Lemma new_slots l d : array_slots new l d = None.
Proof.
  rw /array_slots /new.
  destruct d; cbn [lt_left lt_right]; destruct (replicate _ _ !! l) as [e|] eqn:E; try done;
    by apply lookup_replicate_1 in E as [-> _].
Qed.

Lemma in_range l : l < LOOKUP_TABLE_LEVELS → (LOOKUP_TABLE_LEVELS <=? l)%nat = false.
Proof. intros H. by apply Nat.leb_gt. Qed.
Lemma above_range l : LOOKUP_TABLE_LEVELS ≤ l → (LOOKUP_TABLE_LEVELS <=? l)%nat = true.
Proof. intros H. by apply Nat.leb_le. Qed.

Lemma read_spec t l d :
  array_wf t → l < LOOKUP_TABLE_LEVELS → read l d t = Done (Ok (array_slots t l d), t).
Proof.
  intros [Hl Hr] Hlt. rw /read /mbind /M_bind /get /index /array_slots. destruct d.
  - destruct (lookup_lt_is_Some_2 (lt_left t) l) as [e He]; [by rw Hl|by rw He].
  - destruct (lookup_lt_is_Some_2 (lt_right t) l) as [e He]; [by rw Hr|by rw He].
Qed.

Lemma write_spec t l d e :
  array_wf t → l < LOOKUP_TABLE_LEVELS →
  ∃ t', write l d e t = Done (Ok tt, t') ∧ array_wf t'
    ∧ ∀ l' d', array_slots t' l' d' = set_slot l d e (array_slots t) l' d'.
Proof.
  intros Hwf Hlt. pose proof Hwf as [Hl Hr].
  rw /write /mbind /M_bind (read_spec t l d Hwf Hlt).
  eexists; split; [done|]. split.
  { destruct d; (split; [|]); simpl; by rw ?length_insert. }
  intros l' d'. rw /set_slot. case_decide as Hc.
  - destruct Hc as [-> ->]. rw /array_slots.
    destruct d; simpl; rw list_lookup_insert_eq; by rw ?Hl ?Hr.
  - rw /array_slots. destruct d, d'; simpl; try done;
      (rw list_lookup_insert_ne; [intros ->; by apply Hc|done]).
Qed.

Lemma neighbors_loop_spec (es : list (option Identity)) (k : nat) acc :
  neighbors_loop es k acc =
    acc ++ omap (λ l, pair l <$> (es !! (l - k) ≫= (λ e, e))) (seq k (length es)).
Proof.
  revert k acc; induction es as [|[i|] es IH]; intros k acc; cbn [neighbors_loop].
  - by rw app_nil_r.
  - rw IH -app_assoc. f_equal. cbn [length seq omap list_omap]. rw Nat.sub_diag /=.
    f_equal. apply list_omap_ext. apply Forall_Forall2_diag, Forall_forall.
    intros l Hl%elem_of_seq. replace (l - k) with (S (l - S k)) by lia. done.
  - rw IH. f_equal. cbn [length seq omap list_omap]. rw Nat.sub_diag /=.
    apply list_omap_ext. apply Forall_Forall2_diag, Forall_forall.
    intros l Hl%elem_of_seq. replace (l - k) with (S (l - S k)) by lia. done.
Qed.

Lemma neighbors_loop_populated t d (es : list (option Identity)) :
  length es = LOOKUP_TABLE_LEVELS →
  (∀ l, array_slots t l d = es !! l ≫= (λ e, e)) →
  neighbors_loop es 0 [] = populated (array_slots t) d.
Proof.
  intros Hlen Hes. rw neighbors_loop_spec Hlen /populated app_nil_l.
  apply list_omap_ext, Forall_Forall2_diag, Forall_forall.
  intros l _. by rw Nat.sub_0_r Hes.
Qed.

Lemma find_populated_spec t n :
  array_wf t → n ≤ LOOKUP_TABLE_LEVELS →
  ∃ r, find_populated (reverse (seq 0 n)) t = Done (Ok r, t) ∧
    match r with
    | Some l => l < n ∧ occupied (array_slots t) l
        ∧ ∀ l', l' < n → occupied (array_slots t) l' → l' ≤ l
    | None => ∀ l, l < n → ¬ occupied (array_slots t) l
    end.
Proof.
  intros Hwf. induction n as [|n IH]; intros Hn.
  - exists None. split; [done|]. lia.
  - rw seq_S reverse_app Nat.add_0_l. cbn [reverse rev_append app].
    cbn [find_populated]. rw /mbind /M_bind read_spec; [done|lia|].
    assert (Hocc : ∀ l, l < S n → occupied (array_slots t) l →
      (array_slots t n Left = None ∧ array_slots t n Right = None → l < n)).
    { intros l Hl [[? Ho]|[? Ho]] [E1 E2]; destruct (decide (l = n)) as [->|];
        simplify_eq; lia. }
    destruct (array_slots t n Left) as [e|] eqn:El.
    + exists (Some n). split; [done|]. split_and!; [lia|by left; rw El|lia].
    + rw read_spec; [done|lia|].
      destruct (array_slots t n Right) as [e|] eqn:Er.
      * exists (Some n). split; [done|]. split_and!; [lia|by right; rw Er|lia].
      * destruct IH as (r & -> & Hr); [lia|]. exists r. split; [done|].
        destruct r as [l|].
        -- destruct Hr as (Hl & Ho & Hmax). split_and!; [lia|done|].
           intros l' Hl' Ho'. apply Hmax; [|done]. by apply (Hocc l').
        -- intros l Hl Ho. apply (Hr l); [|done]. by apply (Hocc l).
Qed.

Lemma array_slots_bound t l d :
  array_wf t → is_Some (array_slots t l d) → l < LOOKUP_TABLE_LEVELS.
Proof.
  intros [Hl Hr] [i Hi]. rw /array_slots in Hi.
  destruct d; apply bind_Some in Hi as (e & He & _); apply lookup_lt_Some in He; lia.
Qed.
End array.

Section array_contract.
Implicit Types t : ArrayLookupTable.InnerArrayLookupTable.

Lemma try_relink_array t l d i :
  array_wf t → l < LOOKUP_TABLE_LEVELS →
  ∃ t', ArrayLookupTable.try_relink l d i t = Done (Ok (relink_decision (array_slots t l d) d i), t')
    ∧ array_wf t'
    ∧ ∀ l' d', array_slots t' l' d' =
        set_slot l d (linked_slot (array_slots t l d) d i) (array_slots t) l' d'.
Proof.
  intros Hwf Hlt.
  assert (Hsame : ∀ e, array_slots t l d = Some e → ∀ l' d',
    array_slots t l' d' = set_slot l d (Some e) (array_slots t) l' d').
  { intros e He l' d'. rw /set_slot. by case_decide as Hc; [destruct Hc as [-> ->]|]. }
  destruct (write_spec t l d (Some i) Hwf Hlt) as (t' & Ew & Hwf' & Hs').
  rw /ArrayLookupTable.try_relink in_range; [done|]. rw /mbind /M_bind read_spec; [done..|].
  rw /relink_decision /linked_slot /link_decision.
  destruct (array_slots t l d) as [e|] eqn:Ee; [|rw Ew; by exists t'].
  destruct (decide (e = i)) as [->|Hne].
  { exists t. split_and!; [done..|]. rw decide_False; [apply beyond_irrefl|]. by apply Hsame. }
  destruct d; simpl.
  - destruct (decide (id_val (id i) < id_val (id e))%Z) as [Hb|Hb].
    + rw id_gtb_val. rw (proj2 (Z.ltb_lt _ _) Hb). exists t. split_and!; [done..|].
      by apply Hsame.
    + rw id_gtb_val. destruct (Z.ltb_spec (id_val (id i)) (id_val (id e))); [lia|].
      rw Ew. by exists t'.
  - destruct (decide (id_val (id e) < id_val (id i))%Z) as [Hb|Hb].
    + rw id_ltb_val. rw (proj2 (Z.ltb_lt _ _) Hb). exists t. split_and!; [done..|].
      by apply Hsame.
    + rw id_ltb_val. destruct (Z.ltb_spec (id_val (id e)) (id_val (id i))); [lia|].
      rw Ew. by exists t'.
Qed.

Lemma link_of_relink existing d i :
  match relink_decision existing d i with
  | RelinkForward e => LinkForward e
  | _ => LinkedDirectly
  end = link_decision existing d i.
Proof.
  rw /relink_decision /link_decision. destruct existing as [e|]; [|done].
  repeat case_decide; subst; try done. by exfalso; eapply beyond_irrefl.
Qed.

Lemma try_link_array t l d i :
  array_wf t → l < LOOKUP_TABLE_LEVELS →
  ∃ t', ArrayLookupTable.try_link l d i t = Done (Ok (link_decision (array_slots t l d) d i), t')
    ∧ array_wf t'
    ∧ ∀ l' d', array_slots t' l' d' =
        set_slot l d (linked_slot (array_slots t l d) d i) (array_slots t) l' d'.
Proof.
  intros Hwf Hlt. destruct (try_relink_array t l d i Hwf Hlt) as (t' & E & Hrest).
  exists t'. split; [|done]. rw /ArrayLookupTable.try_link /mbind /M_bind E -link_of_relink.
  by destruct (relink_decision _ _ _).
Qed.

#[global] Program Instance array_lookup_table_spec : LookupTableSpec ArrayLookupTable.InnerArrayLookupTable := {|
  lt_wf := array_wf;
  slots := array_slots
|}.
Next Obligation.
  intros t i l d Hwf Hlt. cbn [update_entry array_lookup_table].
  rw /ArrayLookupTable.update_entry in_range; [done|]. by apply write_spec.
Qed.
Next Obligation.
  intros t i l d H. cbn [update_entry array_lookup_table].
  rw /ArrayLookupTable.update_entry above_range; [done|]. by eexists.
Qed.
Next Obligation.
  intros t l d Hwf Hlt. cbn [remove_entry array_lookup_table].
  rw /ArrayLookupTable.remove_entry in_range; [done|].
  rw /steps_to /mbind /M_bind read_spec; [done..|]. by apply write_spec.
Qed.
Next Obligation.
  intros t l d H. cbn [remove_entry array_lookup_table].
  rw /ArrayLookupTable.remove_entry above_range; [done|]. by eexists.
Qed.
Next Obligation.
  intros t l d Hwf Hlt. cbn [get_entry array_lookup_table].
  rw /ArrayLookupTable.get_entry in_range; [done|]. by apply read_spec.
Qed.
Next Obligation.
  intros t l d H. cbn [get_entry array_lookup_table].
  rw /ArrayLookupTable.get_entry above_range; [done|]. by eexists.
Qed.
Next Obligation. intros t l d i Hwf Hlt. by apply try_relink_array. Qed.
Next Obligation.
  intros t l d i H. cbn [try_relink array_lookup_table].
  rw /ArrayLookupTable.try_relink above_range; [done|]. by eexists.
Qed.
Next Obligation. intros t l d i Hwf Hlt. by apply try_link_array. Qed.
Next Obligation.
  intros t l d i H. cbn [try_link array_lookup_table].
  rw /ArrayLookupTable.try_link /ArrayLookupTable.try_relink above_range; [done|]. by eexists.
Qed.
Next Obligation.
  intros t [Hl Hr]. cbn [left_neighbors array_lookup_table].
  rw /ArrayLookupTable.left_neighbors /gets.
  by rw (neighbors_loop_populated t Left _ Hl).
Qed.
Next Obligation.
  intros t [Hl Hr]. cbn [right_neighbors array_lookup_table].
  rw /ArrayLookupTable.right_neighbors /gets.
  by rw (neighbors_loop_populated t Right _ Hr).
Qed.
Next Obligation.
  intros t Hwf. cbn [max_populated_level array_lookup_table].
  destruct (find_populated_spec t LOOKUP_TABLE_LEVELS Hwf) as (r & E & Hr); [done|].
  exists r. split; [done|].
  assert (Hb : ∀ l, occupied (array_slots t) l → l < LOOKUP_TABLE_LEVELS).
  { intros l [H|H]; by eapply array_slots_bound. }
  destruct r as [l|]; [|by intros l Ho; apply (Hr l); auto].
  destruct Hr as (? & ? & Hmax). split_and!; auto.
Qed.
Next Obligation. intros t l d. apply array_slots_bound. Qed.
End array_contract.

(** ** Consequences of the contract *)

(** A call that concurrent handlers may make on one slot. *)
Inductive link_call : Type :=
| CallLink (candidate : Identity)
| CallRelink (claimant : Identity).

Definition call_identity (c : link_call) : Identity :=
  match c with CallLink i | CallRelink i => i end.

(** The serialised effect of concurrent calls on one slot: the write lock lets
    them run one after the other, in some order. *)
Fixpoint run_calls `{LookupTable L} (l : LookupTableLevel) (d : Direction)
    (cs : list link_call) : M L () :=
  match cs with
  | [] => mret tt
  | CallLink i :: rest => _ ← try_link l d i; run_calls l d rest
  | CallRelink i :: rest => _ ← try_relink l d i; run_calls l d rest
  end.

(** [e] is the entry nearest to the owner among [s] and [is']. *)
Definition nearest (d : Direction) (s : option Identity) (cs : list Identity)
    (e : option Identity) : Prop :=
  match e with
  | Some i => (s = Some i ∨ i ∈ cs)
      ∧ (∀ j, j ∈ cs → reaches d (id i) (id j))
      ∧ (∀ j, s = Some j → reaches d (id i) (id j))
  | None => s = None ∧ cs = []
  end.

Lemma linked_slot_nearest d s i : nearest d s [i] (linked_slot s d i).
Proof.
  rw /nearest /linked_slot /link_decision. destruct s as [e|].
  - case_decide as Hb.
    + split_and!; [by left| |intros j [= ->]; by left].
      intros j ->%list_elem_of_singleton. by right.
    + split_and!; [right; by apply list_elem_of_singleton| |].
      * intros j ->%list_elem_of_singleton. by left.
      * intros j [= ->]. by apply not_beyond.
  - split_and!; [right; by apply list_elem_of_singleton| |done].
    intros j ->%list_elem_of_singleton. by left.
Qed.

Lemma nearest_cons d s i cs e :
  nearest d (linked_slot s d i) cs e → nearest d s (i :: cs) e.
Proof.
  pose proof (linked_slot_nearest d s i) as Hn.
  destruct e as [e|].
  - intros (Hin & Hcs & Hs). destruct (linked_slot s d i) as [k|] eqn:Ek.
    + destruct Hn as (Hk & Hki & Hks). specialize (Hs k eq_refl).
      assert (Hii : i ∈ [i]) by (by apply list_elem_of_singleton).
      specialize (Hki i Hii). clear Hii.
      split_and!.
      * destruct Hin as [[= ->]|Hin]; [|right; by apply list_elem_of_further].
        destruct Hk as [?| ->%list_elem_of_singleton]; [by left|right; by apply list_elem_of_here].
      * intros j [->|Hj]%elem_of_cons; [|by auto]. by eapply reaches_trans.
      * intros j Hj. eapply reaches_trans; [done|]. by apply Hks.
    + by destruct Hn as [_ [=]].
  - intros [E _]. rw E in Hn. by destruct Hn as [_ [=]].
Qed.

Lemma nearest_id d s cs cs' i j :
  cs ≡ₚ cs' → nearest d s cs (Some i) → nearest d s cs' (Some j) → id i = id j.
Proof.
  intros Hp (Hi & Hic & His) (Hj & Hjc & Hjs). apply (reaches_antisym d).
  - destruct Hj as [Hj|Hj]; [by apply His|]. apply Hic. by rw Hp.
  - destruct Hi as [Hi|Hi]; [by apply Hjs|]. apply Hjc. by rw -Hp.
Qed.

Section contract.
Context `{LookupTableSpec L}.
Implicit Types (t : L) (l : LookupTableLevel) (d : Direction).

Lemma run_calls_spec t l d cs :
  lt_wf t → l < LOOKUP_TABLE_LEVELS →
  ∃ t', run_calls l d cs t = Done (Ok tt, t') ∧ lt_wf t'
    ∧ nearest d (slots t l d) (call_identity <$> cs) (slots t' l d)
    ∧ ∀ l' d', (l', d') ≠ (l, d) → slots t' l' d' = slots t l' d'.
Proof.
  intros Hwf Hl. revert t Hwf; induction cs as [|c cs IH]; intros t Hwf.
  - exists t. split_and!; [done..| |done]. rw /nearest.
    destruct (slots t l d) as [i|]; [|done]. split_and!; [by left|set_solver|].
    intros j [= ->]. by left.
  - assert (Hstep : ∃ t1, run_calls l d (c :: cs) t = run_calls l d cs t1 ∧ lt_wf t1
      ∧ ∀ l' d', slots t1 l' d'
        = set_slot l d (linked_slot (slots t l d) d (call_identity c)) (slots t) l' d').
    { destruct c as [i|i]; cbn [run_calls call_identity].
      - destruct (try_link_spec t l d i Hwf Hl) as (t1 & E & ? & ?).
        exists t1. by rw /mbind /M_bind E.
      - destruct (try_relink_spec t l d i Hwf Hl) as (t1 & E & ? & ?).
        exists t1. by rw /mbind /M_bind E. }
    destruct Hstep as (t1 & E & Hwf1 & Hs1). destruct (IH t1 Hwf1) as (t' & E' & Hwf' & Hn & Ho).
    exists t'. split_and!; [by rw E|done| |].
    + rw fmap_cons. apply nearest_cons.
      by rw Hs1 /set_slot decide_True in Hn.
    + intros l' d' Hne. rw Ho; [done|]. rw Hs1 /set_slot decide_False; [|done].
      by intros [-> ->].
Qed.

(** C20: concurrent [try_link] and [try_relink] calls on one slot, in whatever order
    the write lock serialises them, leave in it an identity nearest to the owner
    among the previous occupant and all the callers' identities, and touch no
    other slot. Every order leaves the same identifier there. *)
Theorem concurrent_links_converge t l d cs cs' :
  lt_wf t → l < LOOKUP_TABLE_LEVELS → cs ≡ₚ cs' →
  ∃ t1 t2, run_calls l d cs t = Done (Ok tt, t1) ∧ run_calls l d cs' t = Done (Ok tt, t2)
    ∧ nearest d (slots t l d) (call_identity <$> cs) (slots t1 l d)
    ∧ id <$> slots t1 l d = id <$> slots t2 l d
    ∧ ∀ l' d', (l', d') ≠ (l, d) →
        slots t1 l' d' = slots t l' d' ∧ slots t2 l' d' = slots t l' d'.
Proof.
  intros Hwf Hl Hp.
  destruct (run_calls_spec t l d cs Hwf Hl) as (t1 & E1 & _ & Hn1 & Ho1).
  destruct (run_calls_spec t l d cs' Hwf Hl) as (t2 & E2 & _ & Hn2 & Ho2).
  exists t1, t2. split_and!; [done..| |by auto].
  assert (Hp' : call_identity <$> cs ≡ₚ call_identity <$> cs') by by rw Hp.
  destruct (slots t1 l d) as [i|] eqn:Ei, (slots t2 l d) as [j|] eqn:Ej; simpl.
  - f_equal. by eapply nearest_id.
  - destruct Hn2 as [Es Ec]. rw Ec in Hp'. apply Permutation_nil_r in Hp'.
    destruct Hn1 as ([?|Hin] & _); [congruence|]. rw Hp' in Hin. set_solver.
  - destruct Hn1 as [Es Ec]. rw Ec in Hp'. symmetry in Hp'. apply Permutation_nil_r in Hp'.
    destruct Hn2 as ([?|Hin] & _); [congruence|]. rw Hp' in Hin. set_solver.
  - done.
Qed.

Lemma linked_slot_inward s d i j :
  s = Some j → ∃ k, linked_slot s d i = Some k ∧ reaches d (id k) (id j).
Proof.
  intros ->. pose proof (linked_slot_nearest d (Some j) i) as Hn.
  destruct (linked_slot (Some j) d i) as [k|]; [|by destruct Hn].
  exists k. split; [done|]. by apply Hn.
Qed.
End contract.

Lemma concurrent_links_converge_witness :
  let t := ArrayLookupTable.new in
  let calls := [CallLink (Sample.node x05 x00); CallRelink (Sample.node x03 x00);
                CallLink (Sample.node x09 x00)] in
  ∃ t1 t2, run_calls 0 Right calls t = Done (Ok tt, t1)
    ∧ run_calls 0 Right (reverse calls) t = Done (Ok tt, t2)
    ∧ id <$> slots t1 0 Right = id <$> slots t2 0 Right.
Proof.
  intros t calls. destruct (concurrent_links_converge t 0 Right calls (reverse calls))
    as (t1 & t2 & E1 & E2 & _ & E & _).
  - apply new_wf.
  - vm_compute. lia.
  - symmetry. apply reverse_Permutation.
  - by exists t1, t2.
Defined.

Section array_theorems.
Implicit Types t : ArrayLookupTable.InnerArrayLookupTable.

(** C21: [ArrayLookupTable.try_relink] implements the three-way decision of the
    trait on every table with its 256 slots per direction: an entry equal to the
    claimant leaves the table as it is and reports [AlreadyConsistent], an entry
    strictly between the owner and the claimant is reported as [Forward], and in
    every other case the claimant is installed and the previous entry reported
    as evicted. No other slot changes and the table keeps its shape. *)
Theorem try_relink_refines t l d i :
  array_wf t → l < 256 →
  ∃ t', ArrayLookupTable.try_relink l d i t
          = Done (Ok (relink_decision (array_slots t l d) d i), t')
    ∧ array_wf t'
    ∧ array_slots t' l d =
        match relink_decision (array_slots t l d) d i with
        | AlreadyConsistent | Relinked _ => Some i
        | RelinkForward e => Some e
        end
    ∧ ∀ l' d', (l', d') ≠ (l, d) → array_slots t' l' d' = array_slots t l' d'.
Proof.
  intros Hwf Hl. destruct (try_relink_array t l d i Hwf Hl) as (t' & E & Hwf' & Hs).
  exists t'. split_and!; [done..| |].
  - rw Hs /set_slot decide_True; [done|]. rw /linked_slot -link_of_relink.
    by destruct (relink_decision _ _ _).
  - intros l' d' Hne. rw Hs /set_slot decide_False; [|done]. by intros [-> ->].
Qed.

(** C22: [ArrayLookupTable.try_link] forwards to an entry strictly between the owner
    and the candidate and installs the candidate otherwise; when the slot already
    holds exactly the candidate it reports [LinkedDirectly] and leaves the
    contents as they were. *)
Theorem try_link_refines t l d i :
  array_wf t → l < 256 →
  ∃ t', ArrayLookupTable.try_link l d i t
          = Done (Ok (link_decision (array_slots t l d) d i), t')
    ∧ array_wf t'
    ∧ (∀ e, array_slots t l d = Some e → beyond d (id e) (id i) →
         link_decision (array_slots t l d) d i = LinkForward e ∧
         array_slots t' l d = Some e)
    ∧ (link_decision (array_slots t l d) d i = LinkedDirectly → array_slots t' l d = Some i)
    ∧ (array_slots t l d = Some i → ∀ l' d', array_slots t' l' d' = array_slots t l' d').
Proof.
  intros Hwf Hl. destruct (try_link_array t l d i Hwf Hl) as (t' & E & Hwf' & Hs).
  assert (Hhere : array_slots t' l d = linked_slot (array_slots t l d) d i).
  { by rw Hs /set_slot decide_True. }
  exists t'. split_and!; [done..| | |].
  - intros e Ee Hb. rw Hhere Ee /linked_slot /link_decision. by rw decide_True.
  - rw Hhere /linked_slot. by intros ->.
  - intros Ei l' d'. rw Hs /set_slot /linked_slot /link_decision Ei.
    rw (decide_False _ _ (beyond_irrefl d (id i))).
    by case_decide as Hc; [destruct Hc as [-> ->]|].
Qed.

Lemma range_cases l d i t :
  256 ≤ l →
  ArrayLookupTable.update_entry i l d t = Done (Err (ArrayLookupTable.out_of_range l), t)
  ∧ ArrayLookupTable.remove_entry l d t = Done (Err (ArrayLookupTable.out_of_range l), t)
  ∧ ArrayLookupTable.get_entry l d t = Done (Err (ArrayLookupTable.out_of_range l), t)
  ∧ ArrayLookupTable.try_link l d i t = Done (Err (ArrayLookupTable.out_of_range l), t)
  ∧ ArrayLookupTable.try_relink l d i t = Done (Err (ArrayLookupTable.out_of_range l), t).
Proof.
  intros H. rw /ArrayLookupTable.update_entry /ArrayLookupTable.remove_entry
    /ArrayLookupTable.get_entry /ArrayLookupTable.try_link /ArrayLookupTable.try_relink.
  by rw above_range.
Qed.

(** C26: on a table with its 256 slots per direction no operation panics: below
    level 256 an update is read back by [get_entry], a removal empties the slot,
    and neither disturbs another slot; from level 256 on every operation returns
    the out-of-range error and leaves the table unchanged. *)
Theorem entry_roundtrip t l d i :
  array_wf t →
  (l < 256 →
    (∃ t', ArrayLookupTable.update_entry i l d t = Done (Ok tt, t') ∧ array_wf t'
      ∧ ArrayLookupTable.get_entry l d t' = Done (Ok (Some i), t')
      ∧ ∀ l' d', (l', d') ≠ (l, d) → array_slots t' l' d' = array_slots t l' d')
    ∧ (∃ t', ArrayLookupTable.remove_entry l d t = Done (Ok tt, t') ∧ array_wf t'
      ∧ ArrayLookupTable.get_entry l d t' = Done (Ok None, t')
      ∧ ∀ l' d', (l', d') ≠ (l, d) → array_slots t' l' d' = array_slots t l' d'))
  ∧ (256 ≤ l → ∀ e, e = ArrayLookupTable.out_of_range l →
      ArrayLookupTable.update_entry i l d t = Done (Err e, t)
      ∧ ArrayLookupTable.remove_entry l d t = Done (Err e, t)
      ∧ ArrayLookupTable.get_entry l d t = Done (Err e, t)
      ∧ ArrayLookupTable.try_link l d i t = Done (Err e, t)
      ∧ ArrayLookupTable.try_relink l d i t = Done (Err e, t)).
Proof.
  intros Hwf. split; [|intros Hl e ->; by apply range_cases].
  assert (Hw : lt_wf t) by exact Hwf.
  assert (Hne : ∀ l' d', (l', d') ≠ (l, d) → ¬ (l' = l ∧ d' = d)) by (intros ?? H [-> ->]; done).
  intros Hl. split.
  - destruct (update_entry_spec t i l d Hw Hl) as (t' & E & Hwf' & Hs).
    exists t'. split_and!; [done..| |].
    + etrans; [apply (get_entry_spec t' l d Hwf' Hl)|]. by rw Hs /set_slot decide_True.
    + intros l' d' H. etrans; [apply (Hs l' d')|].
      rw /set_slot decide_False; [by apply Hne|done].
  - destruct (remove_entry_spec t l d Hw Hl) as (t' & E & Hwf' & Hs).
    exists t'. split_and!; [done..| |].
    + etrans; [apply (get_entry_spec t' l d Hwf' Hl)|]. by rw Hs /set_slot decide_True.
    + intros l' d' H. etrans; [apply (Hs l' d')|].
      rw /set_slot decide_False; [by apply Hne|done].
Qed.
End array_theorems.

Lemma try_relink_refines_witness :
  ∃ t', ArrayLookupTable.try_relink 3 Left (Sample.node x05 x00) ArrayLookupTable.new
    = Done (Ok (Relinked None), t') ∧ array_slots t' 3 Left = Some (Sample.node x05 x00).
Proof.
  destruct (try_relink_refines ArrayLookupTable.new 3 Left (Sample.node x05 x00))
    as (t' & E & _ & Es & _); [apply new_wf|lia|].
  exists t'. split; [exact E|exact Es].
Defined.

Lemma try_link_refines_witness :
  ∃ t', ArrayLookupTable.try_link 3 Left (Sample.node x05 x00) ArrayLookupTable.new
    = Done (Ok LinkedDirectly, t') ∧ array_slots t' 3 Left = Some (Sample.node x05 x00).
Proof.
  destruct (try_link_refines ArrayLookupTable.new 3 Left (Sample.node x05 x00))
    as (t' & E & _ & _ & Es & _); [apply new_wf|lia|].
  exists t'. split; [exact E|by apply Es].
Defined.

Lemma entry_roundtrip_witness :
  (∃ t', ArrayLookupTable.update_entry (Sample.node x05 x00) 255 Right ArrayLookupTable.new
     = Done (Ok tt, t')
     ∧ ArrayLookupTable.get_entry 255 Right t' = Done (Ok (Some (Sample.node x05 x00)), t'))
  ∧ ArrayLookupTable.get_entry 256 Right ArrayLookupTable.new
    = Done (Err (ArrayLookupTable.out_of_range 256), ArrayLookupTable.new).
Proof.
  split.
  - destruct (entry_roundtrip ArrayLookupTable.new 255 Right (Sample.node x05 x00) new_wf)
      as [H _]. destruct H as [(t' & E & _ & Eg & _) _]; [lia|]. by exists t'.
  - destruct (entry_roundtrip ArrayLookupTable.new 256 Right (Sample.node x05 x00) new_wf)
      as [_ H]. by apply (H ltac:(lia) _ eq_refl).
Defined.

(** C27: [left_neighbors] and [right_neighbors] list exactly the populated slots of
    their direction in increasing level order, and [max_populated_level] is the
    highest level with an entry on either side, or [None] on an empty table. *)
Theorem neighbor_enumeration t :
  array_wf t →
  ArrayLookupTable.left_neighbors t = Done (Ok (populated (array_slots t) Left), t)
  ∧ ArrayLookupTable.right_neighbors t = Done (Ok (populated (array_slots t) Right), t)
  ∧ (∀ d l i, (l, i) ∈ populated (array_slots t) d ↔ array_slots t l d = Some i)
  ∧ ∃ r, ArrayLookupTable.max_populated_level t = Done (Ok r, t) ∧
      match r with
      | Some l => occupied (array_slots t) l ∧ ∀ l', occupied (array_slots t) l' → l' ≤ l
      | None => ∀ l, ¬ occupied (array_slots t) l
      end.
Proof.
  intros Hwf. assert (Hw : lt_wf t) by exact Hwf. split_and!.
  - apply (left_neighbors_spec t Hw).
  - apply (right_neighbors_spec t Hw).
  - intros d l i. apply (elem_of_populated t d l i Hw).
  - destruct (max_populated_level_spec t Hw) as (r & E & Hr). exists r. split; [done|].
    destruct r; [|done]. by destruct Hr as (_ & ? & ?).
Qed.

Lemma neighbor_enumeration_witness :
  ArrayLookupTable.left_neighbors ArrayLookupTable.new = Done (Ok [], ArrayLookupTable.new).
Proof.
  destruct (neighbor_enumeration ArrayLookupTable.new new_wf) as (E & _). by rw E.
Defined.
