(* ===== verification/Core.v ===== *)
(** * The local algorithms ([src/node/core.rs])

    [BaseCore] owns a node's identifier and membership vector and refers to its
    lookup table, which clones of the core share. Its operations are computations
    over the state of that table; they are proved for every implementation of the
    lookup-table contract. *)
From S2P Require Import Prelude Bytes Model LookupTable.
From S2P Require Import Identifier.
From S2P Require MemVec.

(** A reference to shared state ([Arc]): equal references name the same object. *)
Abbreviation loc := nat (only parsing).

Record BaseCore : Type := MkBaseCore {
  core_id : Identifier;
  core_mem_vec : MembershipVector;
  core_lt : loc
}.

#[global] Instance base_core_eq_dec : EqDecision BaseCore.
Proof. solve_decision. Defined.

(** [BaseCore::clone] copies the [Arc] of the table, not the table. *)
Definition core_clone (self : BaseCore) : BaseCore :=
  MkBaseCore (core_id self) (core_mem_vec self) (core_lt self).

Section ops.
Context `{LookupTable L}.

(** The closure of [filter_map] in [search_by_id]. *)
Definition candidate_at (direction : Direction) (lvl : LookupTableLevel)
    : M L (option (Identifier * LookupTableLevel)) :=
  e ← map_err (λ e, Anyhow "error while searching by id in level {}: {}"
                      [ArgUsize lvl; ArgErr e])
        (get_entry lvl direction);
  mret ((λ identity, (id identity, lvl)) <$> e).

(** The selection among the candidates. *)
Definition select_candidate (direction : Direction) (target : Identifier)
    (candidates : list (Identifier * LookupTableLevel))
    : option (Identifier * LookupTableLevel) :=
  match direction with
  | Left =>
      min_by_key cmp fst (base.filter (λ c, Is_true (id_geb c.1 target)) candidates)
  | Right =>
      max_by_key cmp fst (base.filter (λ c, Is_true (id_leb c.1 target)) candidates)
  end.

Definition search_by_id (self : BaseCore) (req : IdSearchReq) : M L IdSearchRes :=
  candidates ← filter_map_collect (candidate_at (isq_direction req)) (seq 0 (S (isq_level req)));
  mret match select_candidate (isq_direction req) (isq_target req) candidates with
       | Some (i, level) => MkIdSearchRes (isq_nonce req) (isq_target req) level i
       | None => MkIdSearchRes (isq_nonce req) (isq_target req) 0 (core_id self)
       end.

(** [todo!()]. *)
Definition search_by_mem_vec (self : BaseCore) (_req : IdSearchReq) : M L IdSearchRes := panic.

Definition max_level (self : BaseCore) : M L LookupTableLevel :=
  l ← max_populated_level;
  mret (default 0 l).

Definition neighbor_entry (self : BaseCore) (level : LookupTableLevel)
    (direction : Direction) : M L (option Identity) :=
  get_entry level direction.

Definition prefix_match (self : BaseCore) (candidate : MembershipVector)
    (level : LookupTableLevel) : bool :=
  (level <=? MemVec.common_prefix_bit (core_mem_vec self) candidate)%nat.

Definition core_try_link (self : BaseCore) (level : LookupTableLevel)
    (direction : Direction) (candidate : Identity) : M L LinkOutcome :=
  try_link level direction candidate.

Definition core_try_relink (self : BaseCore) (level : LookupTableLevel)
    (direction : Direction) (claimant : Identity) : M L RelinkOutcome :=
  try_relink level direction claimant.
End ops.

(** ** What a local search finds *)

(** The candidates of the search: identifiers in the slots of direction [d] up to
    level [level], with their level, lowest level first. *)
Definition candidates (c : Contents) (d : Direction) (level : LookupTableLevel)
    : list (Identifier * LookupTableLevel) :=
  omap (λ l, (λ i, (id i, l)) <$> c l d) (seq 0 (S level)).

Lemma elem_of_candidates c d level i l :
  (i, l) ∈ candidates c d level ↔ l ≤ level ∧ ∃ e, c l d = Some e ∧ id e = i.
Proof.
  rw /candidates list_elem_of_omap. split.
  - intros (l' & Hl%elem_of_seq & E). apply fmap_Some in E as (e & Ee & [= -> ->]).
    split; [lia|eauto].
  - intros [Hl (e & Ee & <-)]. exists l. split; [apply elem_of_seq; lia|by rw Ee].
Qed.

(** [r] answers a search of [target] in direction [d] up to [level] at node [own]:
    the entry closest to the target among those not past it, with its level, or
    the node itself at level 0 when there is none. *)
Definition search_answer (own : Identifier) (c : Contents) (d : Direction)
    (level : LookupTableLevel) (target : Identifier) (r : Identifier)
    (termination : LookupTableLevel) : Prop :=
  let eligible l e := l ≤ level ∧ c l d = Some e ∧ reaches d (id e) target in
  (r = own ∧ termination = 0 ∧ ∀ l e, ¬ eligible l e)
  ∨ (∃ e, eligible termination e ∧ r = id e
      ∧ (∀ l e', eligible l e' → reaches d (id e') r)
      ∧ (∀ l e', eligible l e' → id e' = r →
           match d with Left => termination ≤ l | Right => l ≤ termination end)).

Lemma reaches_geb_leb d i target :
  match d with Left => id_geb i target | Right => id_leb i target end = true
  ↔ reaches d i target.
Proof.
  destruct d; rw ?id_geb_val ?id_leb_val Z.leb_le /reaches /=.
  - destruct (decide (i = target)) as [->|Hne]; [split; [by left|intros _; lia]|].
    pose proof Hne as Hv. apply id_val_neq in Hv.
    split; [intros ?; right; lia|intros [?|?]; [done|lia]].
  - destruct (decide (i = target)) as [->|Hne]; [split; [by left|intros _; lia]|].
    pose proof Hne as Hv. apply id_val_neq in Hv.
    split; [intros ?; right; lia|intros [?|?]; [done|lia]].
Qed.

Lemma select_candidate_eq d target cs :
  select_candidate d target cs =
    match d with
    | Left => min_by_key cmp fst (base.filter (λ c, reaches d c.1 target) cs)
    | Right => max_by_key cmp fst (base.filter (λ c, reaches d c.1 target) cs)
    end.
Proof.
  rw /select_candidate. destruct d; f_equal; apply list_filter_iff; intros [i l]; simpl;
    rw Is_true_true.
  - apply (reaches_geb_leb Left).
  - apply (reaches_geb_leb Right).
Qed.

(** Levels increase along the candidates, so their position tells their level. *)
Lemma candidates_sorted c d level :
  StronglySorted (λ x y, x.2 < y.2) (candidates c d level).
Proof.
  rw /candidates. generalize 0 as k. generalize (S level) as n.
  induction n as [|n IH]; intros k; cbn [seq omap list_omap]; [constructor|].
  destruct (c k d) as [e|]; simpl; [|by apply IH].
  constructor; [by apply IH|]. apply Forall_forall. intros [i l].
  rw list_elem_of_omap. intros (l' & Hl%elem_of_seq & E).
  apply fmap_Some in E as (e' & _ & [= -> ->]). simpl. lia.
Qed.

(** ** Correctness of the local operations *)
Section correctness.
Context `{LookupTableSpec L}.
Implicit Types t : L.

Lemma filter_map_collect_cons {A B} (f : A → M L (option B)) a l t r :
  f a t = Done (Ok r, t) →
  filter_map_collect f (a :: l) t =
    match filter_map_collect f l t with
    | Done (Ok bs, t') => Done (Ok (match r with Some b => b :: bs | None => bs end), t')
    | o => o
    end.
Proof.
  intros E. cbn [filter_map_collect]. rw /mbind /M_bind E.
  by destruct (filter_map_collect f l t) as [[[bs|e] t']| |].
Qed.

Lemma candidate_at_spec t d l :
  lt_wf t → l < LOOKUP_TABLE_LEVELS →
  candidate_at d l t = Done (Ok ((λ i, (id i, l)) <$> slots t l d), t).
Proof.
  intros Hwf Hl. by rw /candidate_at /mbind /M_bind /map_err get_entry_spec.
Qed.

Lemma collect_candidates t d k n :
  lt_wf t → k + n ≤ LOOKUP_TABLE_LEVELS →
  filter_map_collect (candidate_at d) (seq k n) t =
    Done (Ok (omap (λ l, (λ i, (id i, l)) <$> slots t l d) (seq k n)), t).
Proof.
  intros Hwf. revert k; induction n as [|n IH]; intros k Hk; [done|].
  cbn [seq]. rw (filter_map_collect_cons _ _ _ _ _ (candidate_at_spec t d k Hwf ltac:(lia))).
  rw IH; [lia|]. cbn [omap list_omap]. by destruct (slots t k d).
Qed.

Lemma collect_candidates_oob t d k n :
  lt_wf t → k ≤ LOOKUP_TABLE_LEVELS → LOOKUP_TABLE_LEVELS < k + n →
  ∃ e, filter_map_collect (candidate_at d) (seq k n) t =
    Done (Err (Anyhow "error while searching by id in level {}: {}"
                 [ArgUsize LOOKUP_TABLE_LEVELS; ArgErr e]), t).
Proof.
  intros Hwf. revert k; induction n as [|n IH]; intros k Hk Hn; [lia|].
  cbn [seq]. destruct (decide (k = LOOKUP_TABLE_LEVELS)) as [->|Hne].
  - destruct (get_entry_oob t LOOKUP_TABLE_LEVELS d) as [e He]; [done|]. exists e.
    by rw /= /candidate_at /mbind /M_bind /map_err He.
  - rw (filter_map_collect_cons _ _ _ _ _ (candidate_at_spec t d k Hwf ltac:(lia))).
    destruct (IH (S k)) as [e ->]; [lia..|]. by exists e.
Qed.

(** The candidates that do not pass the target, in the order of their levels. *)
Definition eligible_candidates c d level target : list (Identifier * LookupTableLevel) :=
  base.filter (λ p, reaches d p.1 target) (candidates c d level).

Lemma elem_of_eligible c d level target i l :
  (i, l) ∈ eligible_candidates c d level target ↔
    ∃ e, id e = i ∧ l ≤ level ∧ c l d = Some e ∧ reaches d i target.
Proof.
  rw /eligible_candidates list_elem_of_filter elem_of_candidates. split.
  - intros [Hr (Hl & e & Ee & <-)]. by exists e.
  - intros (e & <- & Hl & Ee & Hr). split; [done|]. eauto.
Qed.

Lemma eligible_split c d level target cs1 x cs2 :
  eligible_candidates c d level target = cs1 ++ x :: cs2 →
  (∀ y, y ∈ cs1 → y.2 < x.2) ∧ (∀ y, y ∈ cs2 → x.2 < y.2).
Proof.
  intros E. apply (StronglySorted_split (λ x y, x.2 < y.2)). rw -E.
  apply StronglySorted_filter, candidates_sorted.
Qed.

(** The best of them, and of equal ones the one the direction prefers. *)
Lemma best_candidate_answer own c d level target i l :
  (i, l) ∈ eligible_candidates c d level target →
  (∀ j k, (j, k) ∈ eligible_candidates c d level target →
     reaches d j i ∧ (j = i → match d with Left => l ≤ k | Right => k ≤ l end)) →
  search_answer own c d level target i l.
Proof.
  intros (e & <- & Hl & Ee & Hr)%elem_of_eligible Hbest. right. exists e. split_and!; [done..| |];
    intros l' e' (Hl' & Ee' & Hr'); apply (Hbest (id e') l'), elem_of_eligible; by exists e'.
Qed.

Lemma no_candidate_answer own c d level target :
  eligible_candidates c d level target = [] → search_answer own c d level target own 0.
Proof.
  intros E. left. split_and!; [done..|]. intros l e (Hl & Ee & Hr).
  assert (Hin : (id e, l) ∈ eligible_candidates c d level target) by (apply elem_of_eligible; by exists e).
  rw E in Hin. by apply not_elem_of_nil in Hin.
Qed.

Lemma select_candidate_answer own c d level target :
  let s := select_candidate d target (candidates c d level) in
  search_answer own c d level target
    (match s with Some (i, _) => i | None => own end)
    (match s with Some (_, l) => l | None => 0 end).
Proof.
  cbn zeta. rw select_candidate_eq. change (base.filter _ _) with (eligible_candidates c d level target).
  destruct d; [pose proof (min_by_key_spec cmp fst id_val cmp_val (eligible_candidates c Left level target)) as Hb;
      destruct (min_by_key _ _ _) as [[i l]|]
    |pose proof (max_by_key_spec cmp fst id_val cmp_val (eligible_candidates c Right level target)) as Hb;
      destruct (max_by_key _ _ _) as [[i l]|]];
    try (by apply no_candidate_answer); destruct Hb as (cs1 & cs2 & E & H1 & H2);
    destruct (eligible_split _ _ _ _ _ _ _ E) as [Hl1 Hl2]; simpl in *;
    (apply best_candidate_answer; [rw E; apply elem_of_app; right; by left|]);
    intros j k Hjk; rw E in Hjk;
    (apply elem_of_app in Hjk as [Hy|[[= -> ->]|Hy]%elem_of_cons];
      [|split; [by left|lia]|]; specialize (H1 (j, k)); specialize (H2 (j, k));
      specialize (Hl1 (j, k)); specialize (Hl2 (j, k)); simpl in *;
      (split; [apply reaches_geb_leb; id_order; pose proof Hy; intuition lia|intros ->; pose proof Hy; intuition lia])).
Qed.

Lemma search_by_id_in_range self req t :
  lt_wf t → isq_level req < LOOKUP_TABLE_LEVELS →
  ∃ r l, search_by_id self req t
           = Done (Ok (MkIdSearchRes (isq_nonce req) (isq_target req) l r), t)
    ∧ search_answer (core_id self) (slots t) (isq_direction req) (isq_level req)
        (isq_target req) r l.
Proof.
  intros Hwf Hl. rw /search_by_id /mbind /M_bind collect_candidates; [done|lia|].
  pose proof (select_candidate_answer (core_id self) (slots t) (isq_direction req)
    (isq_level req) (isq_target req)) as Ha.
  rw -/(candidates (slots t) (isq_direction req) (isq_level req)).
  destruct (select_candidate _ _ _) as [[r l]|]; by eexists _, _.
Qed.

Lemma search_by_id_out_of_range self req t :
  lt_wf t → LOOKUP_TABLE_LEVELS ≤ isq_level req →
  ∃ e, search_by_id self req t =
    Done (Err (Anyhow "error while searching by id in level {}: {}"
                 [ArgUsize LOOKUP_TABLE_LEVELS; ArgErr e]), t).
Proof.
  intros Hwf Hl.
  destruct (collect_candidates_oob t (isq_direction req) 0 (S (isq_level req))) as [e He];
    [done|lia..|].
  exists e. by rw /search_by_id /mbind /M_bind He.
Qed.

(** C19: on every well-formed table a local search at a real level leaves the table
    alone, echoes nonce and target, and answers with the entry closest to the
    target among those of the requested direction up to the requested level that
    are not past it (smallest identifier [>=] target going left, greatest [<=]
    target going right), at the lowest such level going left and the highest going
    right; with no such entry it falls back to the node itself at level 0. From
    level 256 on it reports the failed read of level 256. *)
Theorem search_by_id_spec self req t :
  lt_wf t →
  (isq_level req < 256 →
    ∃ r l, search_by_id self req t
             = Done (Ok (MkIdSearchRes (isq_nonce req) (isq_target req) l r), t)
      ∧ search_answer (core_id self) (slots t) (isq_direction req) (isq_level req)
          (isq_target req) r l)
  ∧ (256 ≤ isq_level req →
    ∃ e, search_by_id self req t =
      Done (Err (Anyhow "error while searching by id in level {}: {}"
                   [ArgUsize 256; ArgErr e]), t)).
Proof.
  intros Hwf. split; intros Hl.
  - by apply search_by_id_in_range.
  - by apply search_by_id_out_of_range.
Qed.

Lemma max_level_value self t :
  lt_wf t → ∃ l, max_level self t = Done (Ok l, t)
    ∧ (∀ l', occupied (slots t) l' → l' ≤ l)
    ∧ (occupied (slots t) l ∨ (l = 0 ∧ ∀ l', ¬ occupied (slots t) l'))
    ∧ l < LOOKUP_TABLE_LEVELS.
Proof.
  intros Hwf. destruct (max_populated_level_spec t Hwf) as (r & E & Hr).
  rw /max_level /mbind /M_bind E. destruct r as [l|].
  - destruct Hr as (Hl & Ho & Hm). exists l. split_and!; auto.
  - exists 0. split_and!; [done| |by right|].
    + intros l' Ho. by destruct (Hr l').
    + rw /LOOKUP_TABLE_LEVELS /IDENTIFIER_SIZE_BYTES. lia.
Qed.

(** C28: [max_level] answers, without touching the table, a level below 256 that
    bounds every populated level and is itself populated unless the table is
    empty, in which case it is 0; so it is always a valid level to start a search
    from. [neighbor_entry] reads the slot it names, and [prefix_match] holds
    exactly when the first [level] bits of both vectors agree, never past 256. *)
Theorem local_reads_spec self t m l d :
  lt_wf t →
  (∃ l, max_level self t = Done (Ok l, t) ∧ l < 256
    ∧ (∀ l', occupied (slots t) l' → l' ≤ l)
    ∧ (occupied (slots t) l ∨ (l = 0 ∧ ∀ l', ¬ occupied (slots t) l')))
  ∧ (l < 256 → neighbor_entry self l d t = Done (Ok (slots t l d), t))
  ∧ (256 ≤ l → ∃ e, neighbor_entry self l d t = Done (Err e, t))
  ∧ (prefix_match self m l = true ↔
       l ≤ 256 ∧ take l (MemVec.mv_bits (core_mem_vec self)) = take l (MemVec.mv_bits m)).
Proof.
  intros Hwf. split_and!.
  - destruct (max_level_value self t Hwf) as (k & E & Hb & Ho & Hk). by exists k.
  - intros Hl. by apply get_entry_spec.
  - intros Hl. by apply get_entry_oob.
  - pose proof (MemVec.common_prefix_bit_le (core_mem_vec self) m) as Hle.
    rw /prefix_match Nat.leb_le. split.
    + intros Hl. split; [lia|]. apply MemVec.common_prefix_bit_take; [lia|done].
    + intros [Hl E]. by apply MemVec.common_prefix_bit_take.
Qed.
End correctness.

Module CoreSample.
(** node 5 with right entries 7 (level 0) and 9 (level 2), left entry 3 (level 1) *)
Definition core : BaseCore := MkBaseCore (Sample.ident x05) (Sample.memvec x00) 0.
Definition table : ArrayLookupTable.InnerArrayLookupTable :=
  ArrayLookupTable.MkInner
    (<[1 := Some (Sample.node x03 x00)]> (ArrayLookupTable.lt_left ArrayLookupTable.new))
    (<[2 := Some (Sample.node x09 x00)]>
      (<[0 := Some (Sample.node x07 x00)]> (ArrayLookupTable.lt_right ArrayLookupTable.new))).

Lemma table_wf : lt_wf table.
Proof. by split; rw /table /= ?length_insert. Qed.

Definition req (target : u8) (level : nat) (d : Direction) : IdSearchReq :=
  MkIdSearchReq (MkNonce 1) (Sample.ident target) (Sample.ident x05) level d.
End CoreSample.

Lemma search_by_id_spec_witness :
  (∃ r l, search_by_id CoreSample.core (CoreSample.req x0a 3 Right) CoreSample.table
     = Done (Ok (MkIdSearchRes (MkNonce 1) (Sample.ident x0a) l r), CoreSample.table)
     ∧ r = Sample.ident x09 ∧ l = 2)
  ∧ (∃ e, search_by_id CoreSample.core (CoreSample.req x0a 256 Right) CoreSample.table
     = Done (Err e, CoreSample.table)).
Proof.
  split.
  - destruct (search_by_id_spec CoreSample.core (CoreSample.req x0a 3 Right) CoreSample.table
      CoreSample.table_wf) as [H _].
    destruct (H ltac:(simpl; lia)) as (r & l & E & _). exists r, l. split; [exact E|].
    assert (Ev : search_by_id CoreSample.core (CoreSample.req x0a 3 Right) CoreSample.table
      = Done (Ok (MkIdSearchRes (MkNonce 1) (Sample.ident x0a) 2 (Sample.ident x09)),
          CoreSample.table)) by (vm_compute; reflexivity).
    rw Ev in E. by injection E.
  - destruct (search_by_id_spec CoreSample.core (CoreSample.req x0a 256 Right) CoreSample.table
      CoreSample.table_wf) as [_ H].
    destruct (H ltac:(simpl; lia)) as (e & E). by eexists.
Defined.

Lemma local_reads_spec_witness :
  max_level CoreSample.core CoreSample.table = Done (Ok 2, CoreSample.table)
  ∧ neighbor_entry CoreSample.core 1 Left CoreSample.table
    = Done (Ok (Some (Sample.node x03 x00)), CoreSample.table).
Proof.
  destruct (local_reads_spec CoreSample.core CoreSample.table (Sample.memvec x00) 1 Left
    CoreSample.table_wf) as (_ & H & _).
  split; [vm_compute; reflexivity|]. exact (H ltac:(lia)).
Defined.
