(* ===== verification/CoreTrait.v ===== *)
(** * The [Core] trait ([src/node/core.rs])

    The interface a node's local algorithms offer: the methods as a class, what their
    documentation promises as a contract over slots, and [BaseCore] as the instance
    that keeps it for every lookup table. A client is proved against the contract. *)
From S2P Require Import Prelude Bytes Model LookupTable Core.
From S2P Require Import Identifier.
From S2P Require MemVec.

(** A core [C] whose shared state, its table, is [S]. *)
Class Core (C S : Type) : Type := {
  trait_id : C → Identifier;
  trait_mem_vec : C → MembershipVector;
  trait_search_by_id : C → IdSearchReq → M S IdSearchRes;
  trait_search_by_mem_vec : C → IdSearchReq → M S IdSearchRes;
  trait_max_level : C → M S LookupTableLevel;
  trait_neighbor_entry : C → LookupTableLevel → Direction → M S (option Identity);
  trait_prefix_match : C → MembershipVector → LookupTableLevel → bool;
  trait_try_link : C → LookupTableLevel → Direction → Identity → M S LinkOutcome;
  trait_try_relink : C → LookupTableLevel → Direction → Identity → M S RelinkOutcome;
  trait_clone_box : C → C
}.

(** What the documentation of the methods says. *)
Class CoreSpec (C S : Type) `{Core C S} : Type := {
  core_wf : S → Prop;
  core_slots : S → Contents;
  trait_search_by_id_spec c req s : core_wf s → isq_level req < LOOKUP_TABLE_LEVELS →
    ∃ r l, trait_search_by_id c req s
             = Done (Ok (MkIdSearchRes (isq_nonce req) (isq_target req) l r), s)
      ∧ search_answer (trait_id (S := S) c) (core_slots s) (isq_direction req) (isq_level req)
          (isq_target req) r l;
  trait_max_level_spec c s : core_wf s →
    ∃ l, trait_max_level c s = Done (Ok l, s) ∧ l < LOOKUP_TABLE_LEVELS
      ∧ (∀ l', occupied (core_slots s) l' → l' ≤ l)
      ∧ (occupied (core_slots s) l ∨ (l = 0 ∧ ∀ l', ¬ occupied (core_slots s) l'));
  trait_neighbor_entry_spec c s l d : core_wf s → l < LOOKUP_TABLE_LEVELS →
    trait_neighbor_entry c l d s = Done (Ok (core_slots s l d), s);
  trait_prefix_match_spec c m l :
    trait_prefix_match (S := S) c m l = true ↔
      l ≤ MemVec.common_prefix_bit (trait_mem_vec (S := S) c) m;
  trait_try_link_spec c s l d i : core_wf s → l < LOOKUP_TABLE_LEVELS →
    steps_to core_wf core_slots (trait_try_link c l d i) s (link_decision (core_slots s l d) d i)
      (set_slot l d (linked_slot (core_slots s l d) d i) (core_slots s));
  trait_try_relink_spec c s l d i : core_wf s → l < LOOKUP_TABLE_LEVELS →
    steps_to core_wf core_slots (trait_try_relink c l d i) s
      (relink_decision (core_slots s l d) d i)
      (set_slot l d (linked_slot (core_slots s l d) d i) (core_slots s));
  trait_clone_box_spec c : trait_clone_box (S := S) c = c
}.

#[global] Instance base_core `{LookupTable L} : Core BaseCore L := {|
  trait_id := core_id;
  trait_mem_vec := core_mem_vec;
  trait_search_by_id := Core.search_by_id;
  trait_search_by_mem_vec := search_by_mem_vec;
  trait_max_level := max_level;
  trait_neighbor_entry := neighbor_entry;
  trait_prefix_match := prefix_match;
  trait_try_link := core_try_link;
  trait_try_relink := core_try_relink;
  trait_clone_box := core_clone
|}.

#[global, program] Instance base_core_spec `{LookupTableSpec L} : CoreSpec BaseCore L := {|
  core_wf := lt_wf;
  core_slots := slots
|}.
Next Obligation. intros L ? ? self req t Hwf Hl. by apply search_by_id_in_range. Qed.
Next Obligation.
  intros L ? ? self t Hwf. destruct (max_level_value self t Hwf) as (l & E & Hb & Ho & Hl). by exists l.
Qed.
Next Obligation. intros L ? ? self t l d Hwf Hl. by apply get_entry_spec. Qed.
Next Obligation. intros L ? ? self m l. apply Nat.leb_le. Qed.
Next Obligation. intros L ? ? self t l d i Hwf Hl. by apply try_link_spec. Qed.
Next Obligation. intros L ? ? self t l d i Hwf Hl. by apply try_relink_spec. Qed.
Next Obligation. by intros L ? ? []. Qed.

(** ** A client of the contract *)
Section client.
Context {C S : Type} `{CoreSpec C S}.
Implicit Types (c : C) (s : S).

(** When the fallback of [search_by_id] is sound. From a node not past the target, the
    result is not past it either and at least as close; from a node past it the result
    is past it exactly when no entry on the way is known, and then it is the node. *)
Theorem search_fallback_sound c req s :
  core_wf s → isq_level req < 256 →
  ∃ res, trait_search_by_id c req s = Done (Ok res, s)
    ∧ let own := trait_id (S := S) c in let d := isq_direction req in
      (reaches d own (isq_target req) →
         (∀ l e, core_slots s l d = Some e → beyond d own (id e)) →
         reaches d own (isr_result res) ∧ reaches d (isr_result res) (isq_target req))
      ∧ (¬ reaches d own (isq_target req) →
           reaches d (isr_result res) (isq_target req) ↔
             ∃ l e, l ≤ isq_level req ∧ core_slots s l d = Some e ∧ reaches d (id e) (isq_target req)).
Proof.
  intros Hwf Hl. destruct (trait_search_by_id_spec c req s Hwf Hl) as (r & l & E & Ha).
  eexists. split; [exact E|]. cbn [isr_result]. cbv zeta. split.
  - intros Hown Hside. destruct Ha as [(-> & _)|(e & (_ & Ee & Hr) & -> & _)]; [by split; [left|]|].
    split; [right; by eapply Hside|done].
  - intros Hown. destruct Ha as [(-> & _ & Hno)|(e & (Hle & Ee & Hr) & -> & _)].
    + split; [done|]. intros (l' & e & Hl' & Ee & Hr). by destruct (Hno l' e).
    + split; [intros _; by exists l, e|done].
Qed.
End client.
