(* ===== verification/World.v ===== *)
(** * Shared state of the nodes ([src/node/waiter.rs])

    Nodes and their clones share lookup tables, waiter maps, reply channels and the
    network through [Arc]s. The [World] is that shared store; the handles that nodes
    copy are references into it. A [Mutex] or [RwLock] makes each access one
    indivisible step, so an access is one state transformer here. *)
From S2P Require Import Prelude Bytes Model LookupTable Core.

(** ** Reply channels

    [tokio::sync::oneshot] is third-party. Its channels carry the four replies a
    node waits for. *)
Inductive Reply : Type :=
| ReplySearch (res : IdSearchRes)
| ReplyMaxLevel (res : MaxLevelRes)
| ReplyNeighbor (res : NeighborRes)
| ReplyLink (res : LinkRes).

(** The payload types, and their place among the replies. *)
Class Payload (A : Type) : Type := {
  to_reply : A → Reply;
  of_reply : Reply → option A;
  of_to_reply a : of_reply (to_reply a) = Some a;
  to_of_reply r a : of_reply r = Some a → r = to_reply a
}.

Definition as_search (r : Reply) : option IdSearchRes :=
  match r with ReplySearch res => Some res | _ => None end.
Definition as_max_level (r : Reply) : option MaxLevelRes :=
  match r with ReplyMaxLevel res => Some res | _ => None end.
Definition as_neighbor (r : Reply) : option NeighborRes :=
  match r with ReplyNeighbor res => Some res | _ => None end.
Definition as_link (r : Reply) : option LinkRes :=
  match r with ReplyLink res => Some res | _ => None end.

#[global] Instance search_payload : Payload IdSearchRes.
Proof. refine {| to_reply := ReplySearch; of_reply := as_search |}; [done|by intros [] ? [= ->]]. Defined.
#[global] Instance max_level_payload : Payload MaxLevelRes.
Proof. refine {| to_reply := ReplyMaxLevel; of_reply := as_max_level |}; [done|by intros [] ? [= ->]]. Defined.
#[global] Instance neighbor_payload : Payload NeighborRes.
Proof. refine {| to_reply := ReplyNeighbor; of_reply := as_neighbor |}; [done|by intros [] ? [= ->]]. Defined.
#[global] Instance link_payload : Payload LinkRes.
Proof. refine {| to_reply := ReplyLink; of_reply := as_link |}; [done|by intros [] ? [= ->]]. Defined.

(** The two ends of a channel. *)
Record Sender (A : Type) : Type := MkSender { sender_chan : loc }.
Record Receiver (A : Type) : Type := MkReceiver { receiver_chan : loc }.
Arguments MkSender {_} _.
Arguments sender_chan {_} _.
Arguments MkReceiver {_} _.
Arguments receiver_chan {_} _.

(** What a receiver finds when polled: nothing yet, the value, or the news that the
    sender was dropped without sending. *)
Inductive Polled : Type :=
| NotReady
| Received (r : Reply)
| SenderGone.

Class Oneshot : Type := {
  Chans : Type;
  chan_new : Chans → loc * Chans;
  chan_send : loc → Reply → Chans → bool * Chans;
  chan_drop_sender : loc → Chans → Chans;
  chan_drop_receiver : loc → Chans → Chans;
  chan_poll : loc → Chans → Polled
}.

(** The documented behaviour, on an abstract view of the channels. *)
Inductive ChanState : Type :=
| ChanOpen
| ChanSent (r : Reply)
| ChanNoSender
| ChanNoReceiver.

Class OneshotLaws `{Oneshot} : Type := {
  chan_view : Chans → gmap loc ChanState;
  chan_new_law s : chan_view s !! (chan_new s).1 = None
    ∧ chan_view (chan_new s).2 = <[(chan_new s).1 := ChanOpen]> (chan_view s);
  chan_send_open_law s c r : chan_view s !! c = Some ChanOpen →
    (chan_send c r s).1 = true
    ∧ chan_view (chan_send c r s).2 = <[c := ChanSent r]> (chan_view s);
  chan_send_closed_law s c r : chan_view s !! c = Some ChanNoReceiver →
    (chan_send c r s).1 = false ∧ chan_view (chan_send c r s).2 = chan_view s;
  chan_drop_sender_law s c : chan_view s !! c = Some ChanOpen →
    chan_view (chan_drop_sender c s) = <[c := ChanNoSender]> (chan_view s);
  chan_drop_sender_done_law s c : chan_view s !! c ≠ Some ChanOpen →
    chan_view (chan_drop_sender c s) = chan_view s;
  chan_drop_receiver_law s c : is_Some (chan_view s !! c) →
    chan_view (chan_drop_receiver c s) = <[c := ChanNoReceiver]> (chan_view s);
  chan_poll_law s c :
    match chan_view s !! c with
    | Some ChanOpen => chan_poll c s = NotReady
    | Some (ChanSent r) => chan_poll c s = Received r
    | Some ChanNoSender => chan_poll c s = SenderGone
    | _ => True
    end
}.

(** ** Waiters *)
Inductive Waiter : Type :=
| MaxLevel (tx : Sender MaxLevelRes)
| AsyncSearch (tx : Sender IdSearchRes)
| Neighbor (tx : Sender NeighborRes)
| Link (tx : Sender LinkRes) (level : LookupTableLevel) (dir : Direction).

Definition waiter_chan (w : Waiter) : loc :=
  match w with
  | MaxLevel tx => sender_chan tx
  | AsyncSearch tx => sender_chan tx
  | Neighbor tx => sender_chan tx
  | Link tx _ _ => sender_chan tx
  end.

(** ** The store *)
Record World `{Oneshot} (L N : Type) : Type := MkWorld {
  tables : gmap loc L;
  waiters : gmap loc (gmap Nonce Waiter);
  chans : Chans;
  network : N
}.
Arguments MkWorld {_ _ _} _ _ _ _.
Arguments tables {_ _ _} _.
Arguments waiters {_ _ _} _.
Arguments chans {_ _ _} _.
Arguments network {_ _ _} _.

Section store.
Context `{Oneshot} {L N : Type}.
Implicit Types w : World L N.

Definition set_tables f w : World L N :=
  MkWorld (f (tables w)) (waiters w) (chans w) (network w).
Definition set_waiters f w : World L N :=
  MkWorld (tables w) (f (waiters w)) (chans w) (network w).
Definition set_chans f w : World L N :=
  MkWorld (tables w) (waiters w) (f (chans w)) (network w).
Definition set_network f w : World L N :=
  MkWorld (tables w) (waiters w) (chans w) (f (network w)).

(** Run an operation on the shared table [lt]. *)
Definition on_table {A} (lt : loc) (m : M L A) : M (World L N) A := λ w,
  match tables w !! lt with
  | None => Panicked
  | Some t =>
      match m t with
      | Done (r, t') => Done (r, set_tables <[lt := t']> w)
      | Panicked => Panicked
      | OutOfFuel => OutOfFuel
      end
  end.

(** The map behind a [request_id_map] handle. *)
Definition waiter_map (rm : loc) w : gmap Nonce Waiter := default ∅ (waiters w !! rm).

Definition set_waiter_map (rm : loc) (m : gmap Nonce Waiter) : World L N → World L N :=
  set_waiters <[rm := m]>.

(** [oneshot::channel::<A>()] *)
Definition channel {A} : M (World L N) (Sender A * Receiver A) := λ w,
  let '(c, s) := chan_new (chans w) in
  Done (Ok (MkSender c, MkReceiver c), set_chans (λ _, s) w).

(** [tx.send(v)]: whether the receiver was still there. *)
Definition send {A} `{Payload A} (tx : Sender A) (v : A) : M (World L N) bool := λ w,
  let '(b, s) := chan_send (sender_chan tx) (to_reply v) (chans w) in
  Done (Ok b, set_chans (λ _, s) w).

(** Dropping a waiter drops the sender it holds. *)
Definition drop_waiter (o : option Waiter) w : World L N :=
  match o with
  | Some x => set_chans (chan_drop_sender (waiter_chan x)) w
  | None => w
  end.

Definition drop_receiver {A} (rx : Receiver A) : World L N → World L N :=
  set_chans (chan_drop_receiver (receiver_chan rx)).

(** [HashMap::insert] drops the waiter it replaces. *)
Definition insert_waiter (rm : loc) (nonce : Nonce) (x : Waiter) : M (World L N) () :=
  modify (λ w, drop_waiter (waiter_map rm w !! nonce)
                 (set_waiter_map rm (<[nonce := x]> (waiter_map rm w)) w)).

(** [WaiterGuard::drop]: the removed waiter is dropped with its sender. *)
Definition guard_drop (rm : loc) (nonce : Nonce) w : World L N :=
  drop_waiter (waiter_map rm w !! nonce)
    (set_waiter_map rm (delete nonce (waiter_map rm w)) w).

Lemma drop_waiter_map o w rm : waiter_map rm (drop_waiter o w) = waiter_map rm w.
Proof. by destruct o. Qed.
End store.

(** A map of channels, an implementation of the documented behaviour. *)
Module MapOneshot.
#[global] Instance oneshot : Oneshot := {|
  Chans := gmap loc ChanState;
  chan_new s := let c := fresh (dom s) in (c, <[c := ChanOpen]> s);
  chan_send c r s :=
    match s !! c with Some ChanOpen => (true, <[c := ChanSent r]> s) | _ => (false, s) end;
  chan_drop_sender c s :=
    match s !! c with Some ChanOpen => <[c := ChanNoSender]> s | _ => s end;
  chan_drop_receiver c s :=
    match s !! c with Some _ => <[c := ChanNoReceiver]> s | None => s end;
  chan_poll c s :=
    match s !! c with
    | Some (ChanSent r) => Received r
    | Some ChanNoSender => SenderGone
    | _ => NotReady
    end
|}.

#[global] Instance oneshot_laws : OneshotLaws.
Proof.
  refine {| chan_view := λ s : @Chans oneshot, s : gmap loc ChanState |}; simpl.
  - intros s. split; [|done]. apply not_elem_of_dom, is_fresh.
  - intros s c r ->. done.
  - intros s c r ->. done.
  - intros s c ->. done.
  - intros s c Hne. by destruct (s !! c) as [[]|] eqn:E.
  - intros s c [x ->]. done.
  - intros s c. by destruct (s !! c) as [[]|].
Defined.
End MapOneshot.
