(* ===== verification/BaseNode.v ===== *)
(** * The node's event handlers ([src/node/base_node.rs])

    [BaseNode] as a tuple of handles into the [World], the [Network] trait as a
    class, and the synchronous half of the node: one handler per event and the
    dispatch between them. The blocking operations are in [NodeOps]. *)
From S2P Require Import Prelude Bytes Model LookupTable Core World.
From S2P Require Import Identifier.

(** The [Network] trait, for processors of type [P] and a world [W]. A handle names
    one network instance; [send_event] may run any code of the receiving side. *)
Class Network (P W : Type) : Type := {
  net_address : loc → W → Address;
  send_event : loc → Identifier → Event → M W ();
  register_processor : loc → P → M W ()
}.

(** The [EventProcessorCore] trait. [MessageProcessor] shares one such object among
    its clones and forwards to it. *)
Class EventProcessorCore (P W : Type) : Type := {
  process_incoming_event : P → Identifier → Event → M W ()
}.

Record BaseNode : Type := MkBaseNode {
  core : BaseCore;
  net : loc;
  request_id_map : loc
}.

(** [BaseNode::clone] copies the handles. *)
Definition node_clone (self : BaseNode) : BaseNode :=
  MkBaseNode (core_clone (core self)) (net self) (request_id_map self).

#[global] Instance base_node_eq_dec : EqDecision BaseNode.
Proof. solve_decision. Defined.

(** [PartialEq for BaseNode] *)
Definition node_eqb (self other : BaseNode) : bool :=
  bool_decide (core_id (core self) = core_id (core other))
  && bool_decide (core_mem_vec (core self) = core_mem_vec (core other)).

Section handlers.
Context `{Oneshot} `{LookupTable L} {N : Type} `{!Network BaseNode (World L N)}.
Abbreviation W := (World L N) (only parsing).
Implicit Types self : BaseNode.

(** The receiver's table behind its [core]. *)
Definition on_core {A} self (m : M L A) : M W A := on_table (core_lt (core self)) m.

Definition node_id self : Identifier := core_id (core self).
Definition node_mem_vec self : MembershipVector := core_mem_vec (core self).

Definition self_identity self (w : W) : Identity :=
  MkIdentity (node_id self) (node_mem_vec self) (net_address (net self) w).

(** [BaseNode::new]: a failed registration is thrown to the node's own root context,
    which panics. *)
Definition node_new (c : BaseCore) (n : loc) : M W BaseNode :=
  rm ← gets (λ w : W, fresh (dom (waiters w)));
  _ ← modify (set_waiter_map rm ∅);
  let node := MkBaseNode c n rm in
  _ ← or_panic (register_processor n (node_clone node));
  mret node.

Definition take_waiter self (nonce : Nonce) (is_expected_variant : Waiter → bool)
    : M W (option Waiter) := λ w,
  let request_id_map := waiter_map (request_id_map self) w in
  match request_id_map !! nonce with
  | Some x =>
      if is_expected_variant x
      then Done (Ok (Some x),
                 set_waiter_map (BaseNode.request_id_map self) (delete nonce request_id_map) w)
      else Done (Ok None, w)
  | None => Done (Ok None, w)
  end.

Definition is_max_level (x : Waiter) : bool := match x with MaxLevel _ => true | _ => false end.
Definition is_async_search (x : Waiter) : bool :=
  match x with AsyncSearch _ => true | _ => false end.
Definition is_neighbor (x : Waiter) : bool := match x with Neighbor _ => true | _ => false end.
Definition is_link (res : LinkRes) (x : Waiter) : bool :=
  match x with
  | Link _ level dir => (level =? lr_level res)%nat && bool_decide (dir = lr_dir res)
  | _ => false
  end.

Definition handle_search_by_id_request self (req : IdSearchReq) : M W () :=
  res ← map_err (wrap "failed to perform search by id {}")
          (on_core self (Core.search_by_id (core self) req));
  if decide (isr_result res = node_id self) then
    map_err (wrap "failed to send response event for search by id: {}")
      (send_event (net self) (isq_origin req) (SearchByIdResponse res))
  else
    let relay_request :=
      SearchByIdRequest (MkIdSearchReq (isq_nonce req) (isq_target req) (isq_origin req)
        (isr_termination_level res) (isq_direction req)) in
    map_err (wrap "failed to send relay response event for search by id: {}")
      (send_event (net self) (isr_result res) relay_request).

Definition handle_search_by_id_response self (res : IdSearchRes) : M W () :=
  o ← take_waiter self (isr_nonce res) is_async_search;
  match o with
  | Some (AsyncSearch tx) => _ ← World.send tx res; mret tt
  | _ => mret tt
  end.

Definition handle_get_max_level_request self (req : MaxLevelReq) : M W () :=
  max_level ← map_err (wrap "failed to read local max level: {}")
                (on_core self (Core.max_level (core self)));
  map_err (wrap "failed to send max level response: {}")
    (send_event (net self) (mlq_origin req)
       (RetMaxLevelOp (MkMaxLevelRes (mlq_nonce req) max_level))).

Definition handle_ret_max_level_response self (res : MaxLevelRes) : M W () :=
  o ← take_waiter self (mlr_nonce res) is_max_level;
  match o with
  | Some (MaxLevel tx) => _ ← World.send tx res; mret tt
  | _ => mret tt
  end.

Definition handle_get_neighbor_request self (req : NeighborReq) : M W () :=
  neighbor ← map_err (wrap "failed to read local neighbor entry: {}")
               (on_core self (neighbor_entry (core self) (nq_level req) (nq_direction req)));
  map_err (wrap "failed to send neighbor response: {}")
    (send_event (net self) (nq_origin req)
       (RetNeighborOp (MkNeighborRes (nq_nonce req) (nq_level req) (nq_direction req) neighbor))).

Definition handle_ret_neighbor_response self (res : NeighborRes) : M W () :=
  o ← take_waiter self (nr_nonce res) is_neighbor;
  match o with
  | Some (Neighbor tx) => _ ← World.send tx res; mret tt
  | _ => mret tt
  end.

Definition belongs_in_own_slot self (level : LookupTableLevel) (direction : Direction)
    (candidate : Identity) : bool :=
  if (LOOKUP_TABLE_LEVELS <=? level)%nat then false
  else
    let on_direction :=
      match direction with
      | Left => id_ltb (id candidate) (node_id self)
      | Right => id_gtb (id candidate) (node_id self)
      end in
    on_direction && prefix_match (core self) (mem_vec candidate) level.

Definition handle_get_link_request self (req : LinkReq) : M W () :=
  if negb (belongs_in_own_slot self (lq_level req) (lq_dir req) (lq_candidate req))
  then mret tt
  else
    o ← map_err (λ e, Anyhow "failed to decide link at level {}: {}"
                        [ArgUsize (lq_level req); ArgErr e])
          (on_core self (core_try_link (core self) (lq_level req) (lq_dir req) (lq_candidate req)));
    match o with
    | LinkedDirectly =>
        linked ← gets (self_identity self);
        map_err (wrap "failed to send link response: {}")
          (send_event (net self) (id (lq_candidate req))
             (SetLinkOp (MkLinkRes (lq_nonce req) (opposite (lq_dir req)) (lq_level req)
                (Some linked))))
    | LinkForward existing =>
        map_err (wrap "failed to forward get link request: {}")
          (send_event (net self) (id existing) (GetLinkOp req))
    end.

Definition handle_set_link_response self (res : LinkRes) : M W () :=
  _ ← (match lr_linked res with
       | Some linked =>
           if belongs_in_own_slot self (lr_level res) (lr_dir res) linked then
             _ ← map_err (λ e, Anyhow "failed to apply link at level {}: {}"
                                 [ArgUsize (lr_level res); ArgErr e])
                   (on_core self (core_try_link (core self) (lr_level res) (lr_dir res) linked));
             mret tt
           else mret tt
       | None => mret tt
       end : M W ());
  o ← take_waiter self (lr_nonce res) (is_link res);
  match o with
  | Some (Link tx _ _) => _ ← World.send tx res; mret tt
  | _ => mret tt
  end.

Definition node_process_incoming_event self (origin_id : Identifier) (event : Event) : M W () :=
  match event with
  | SearchByIdRequest req => handle_search_by_id_request self req
  | SearchByIdResponse res => handle_search_by_id_response self res
  | GetMaxLevelOp req => handle_get_max_level_request self req
  | RetMaxLevelOp res => handle_ret_max_level_response self res
  | GetNeighborOp req => handle_get_neighbor_request self req
  | RetNeighborOp res => handle_ret_neighbor_response self res
  | GetLinkOp req => handle_get_link_request self req
  | SetLinkOp res => handle_set_link_response self res
  | TestMessage _ | BuddyOp _ | CheckNeighborOp _ =>
      fail (Anyhow "unsupported event payload type" [])
  end.

Definition node_processor : EventProcessorCore BaseNode (World L N) :=
  {| process_incoming_event := node_process_incoming_event |}.
End handlers.
