(* ===== verification/Hub.v ===== *)
(** * The in-memory network ([src/network/mock], [src/network/processor.rs])

    A hub maps identifiers to mock networks, a mock network holds one processor, and
    sending an event calls the target's processor in the sender's own call. With
    [BaseNode] as the processor this recursion has no bound in the code, so
    [mock_network] unrolls it to a depth (fuel); its results do not depend on the
    depth once they are reached. *)
From S2P Require Import Prelude Bytes Model LookupTable Core World BaseNode.
From S2P Require Import Identifier.

Record InnerMockNetwork (P : Type) : Type := MkInnerMockNetwork {
  mock_hub : loc;
  mock_processor : option P;
  mock_id : Identifier;
  mock_addr : Address
}.
Arguments MkInnerMockNetwork {_} _ _ _ _.
Arguments mock_hub {_} _.
Arguments mock_processor {_} _.
Arguments mock_id {_} _.
Arguments mock_addr {_} _.

(** The hubs and the mock networks in existence. *)
Record MockState (P : Type) : Type := MkMockState {
  hubs : gmap loc (gmap Identifier loc);
  mocks : gmap loc (InnerMockNetwork P)
}.
Arguments MkMockState {_} _ _.
Arguments hubs {_} _.
Arguments mocks {_} _.

Section mock.
Context `{Oneshot} {L P : Type}.
Abbreviation W := (World L (MockState P)) (only parsing).

Definition deref {A} (o : option A) : M W A :=
  match o with Some a => mret a | None => panic end.

Definition read_hub (hub : loc) : M W (gmap Identifier loc) := λ w,
  deref (hubs (network w) !! hub) w.
Definition read_mock (n : loc) : M W (InnerMockNetwork P) := λ w,
  deref (mocks (network w) !! n) w.
Definition write_hub (hub : loc) (m : gmap Identifier loc) : M W () :=
  modify (set_network (λ s, MkMockState (<[hub := m]> (hubs s)) (mocks s))).
Definition write_mock (n : loc) (c : InnerMockNetwork P) : M W () :=
  modify (set_network (λ s, MkMockState (hubs s) (<[n := c]> (mocks s)))).

(** [NetworkHub::new] *)
Definition hub_new : M W loc :=
  hub ← gets (λ w : W, fresh (dom (hubs (network w))));
  _ ← write_hub hub ∅;
  mret hub.

(** [MockNetwork::new] behind its [Arc]. *)
Definition mock_new (identifier : Identifier) (hub : loc) (a : Address) : M W loc :=
  n ← gets (λ w : W, fresh (dom (mocks (network w))));
  _ ← write_mock n (MkInnerMockNetwork hub None identifier a);
  mret n.

Definition id_arg (i : Identifier) : Arg := ArgBytes (map u8_val (Identifier.to_bytes i)).

Definition new_mock_network (hub : loc) (identifier : Identifier) (a : Address) : M W loc :=
  networks ← read_hub hub;
  match networks !! identifier with
  | Some _ => fail (Anyhow "network with identifier {} already exists" [id_arg identifier])
  | None =>
      mock_network ← mock_new identifier hub a;
      _ ← write_hub hub (<[identifier := mock_network]> networks);
      mret mock_network
  end.

(** [Network for MockNetwork], given what the processors do with an event. *)
Section routing.
Context `{EventProcessorCore P W}.

Definition incoming_event (self : loc) (origin_id : Identifier) (event : Event) : M W () :=
  core_guard ← read_mock self;
  match mock_processor core_guard with
  | None => fail (Anyhow "no event processor registered" [])
  | Some p =>
      map_err (wrap "failed to process incoming event") (process_incoming_event p origin_id event)
  end.

Definition route_event (hub : loc) (origin_id target_id : Identifier) (event : Event) : M W () :=
  networks ← read_hub hub;
  match networks !! target_id with
  | Some network =>
      map_err (wrap "hub failed to process routing event: {}")
        (incoming_event network origin_id event)
  | None => fail (Anyhow "network with identifier {} not found" [id_arg target_id])
  end.

Definition mock_send_event (self : loc) (target_id : Identifier) (event : Event) : M W () :=
  core_guard ← read_mock self;
  map_err (wrap "failed to route event: {}")
    (route_event (mock_hub core_guard) (mock_id core_guard) target_id event).
End routing.

Definition mock_register_processor (self : loc) (p : P) : M W () :=
  core_guard ← read_mock self;
  match mock_processor core_guard with
  | Some _ => fail (Anyhow "an event processor is already registered" [])
  | None =>
      write_mock self (MkInnerMockNetwork (mock_hub core_guard) (Some p)
                         (mock_id core_guard) (mock_addr core_guard))
  end.

(** A dangling handle has no address; handles are never dangling in the code. *)
Definition mock_address (self : loc) (w : W) : Address :=
  match mocks (network w) !! self with
  | Some c => mock_addr c
  | None => MkAddress "" ""
  end.

(** The trait, with the processors' behaviour still open. *)
Definition mock_with (e : EventProcessorCore P W) : Network P W := {|
  net_address := mock_address;
  send_event := @mock_send_event e;
  register_processor := mock_register_processor
|}.
End mock.

(** ** Tying the knot *)
Section knot.
Context `{Oneshot} `{LookupTable L}.
Abbreviation W := (World L (MockState BaseNode)) (only parsing).

Definition exhausted : EventProcessorCore BaseNode (World L (MockState BaseNode)) :=
  {| process_incoming_event _ _ _ := λ _, OutOfFuel |}.

Fixpoint mock_processor_at (fuel : nat) : EventProcessorCore BaseNode (World L (MockState BaseNode)) :=
  match fuel with
  | 0 => exhausted
  | S n => @node_processor _ _ _ _ (mock_with (mock_processor_at n))
  end.

(** The network whose calls nest at most [fuel] deep. *)
Definition mock_network (fuel : nat) : Network BaseNode (World L (MockState BaseNode)) :=
  mock_with (mock_processor_at fuel).
End knot.

(** ** Results do not depend on the depth *)
Section monotone.
Context `{Oneshot} `{LookupTable L} {N : Type}.

(** [n2] answers whatever [n1] does. *)
Record network_le (n1 n2 : Network BaseNode (World L N)) : Prop := {
  le_address : ∀ h w, @net_address _ _ n1 h w = @net_address _ _ n2 h w;
  le_send : ∀ h i e, @send_event _ _ n1 h i e ≼ @send_event _ _ n2 h i e;
  le_register : ∀ h p, @register_processor _ _ n1 h p ≼ @register_processor _ _ n2 h p
}.

Lemma process_le n1 n2 self o e :
  network_le n1 n2 →
  @node_process_incoming_event _ _ _ _ n1 self o e ≼ @node_process_incoming_event _ _ _ _ n2 self o e.
Proof.
  intros [Ha Hs _]. destruct e; simpl; try reflexivity.
  - apply less_defined_bind; [reflexivity|]. intros res. case_decide; auto with defined.
  - apply less_defined_bind; [reflexivity|]. auto with defined.
  - apply less_defined_bind; [reflexivity|]. auto with defined.
  - rw /handle_get_link_request. case_match; [reflexivity|].
    apply less_defined_bind; [reflexivity|]. intros [|existing]; [|auto with defined].
    intros w. rw /mbind /M_bind /gets /self_identity Ha.
    match goal with |- context [SetLinkOp ?r] =>
      exact (less_defined_map_err _ _ _ (Hs (net self) (id (lq_candidate req)) (SetLinkOp r)) w) end.
Qed.
End monotone.

Section depth.
Context `{Oneshot} `{LookupTable L}.
Abbreviation W := (World L (MockState BaseNode)) (only parsing).

Lemma mock_with_le (e1 e2 : EventProcessorCore BaseNode W) :
  (∀ p o ev, @process_incoming_event _ _ e1 p o ev ≼ @process_incoming_event _ _ e2 p o ev) →
  network_le (mock_with e1) (mock_with e2).
Proof.
  intros He. split; [done| |reflexivity].
  intros h i ev. rw /= /mock_send_event. apply less_defined_bind; [reflexivity|]. intros c.
  apply less_defined_map_err. apply less_defined_bind; [reflexivity|]. intros networks.
  destruct (networks !! i) as [n|]; [|reflexivity].
  apply less_defined_map_err. apply less_defined_bind; [reflexivity|]. intros c'.
  destruct (mock_processor c') as [p|]; [|reflexivity]. by apply less_defined_map_err.
Qed.

Lemma processor_le_S n p o ev :
  @process_incoming_event _ _ (mock_processor_at n) p o ev
    ≼ @process_incoming_event _ _ (mock_processor_at (S n)) p o ev.
Proof.
  revert p o ev; induction n as [|n IH]; intros p o ev; [by left|].
  apply process_le, mock_with_le, IH.
Qed.

Lemma mock_network_le n m : n ≤ m → network_le (mock_network n) (mock_network m).
Proof.
  intros Hle. apply mock_with_le. induction Hle as [|m _ IH]; intros p o ev; [reflexivity|].
  etrans; [apply IH|apply processor_le_S].
Qed.

(** The nesting depth given to the in-memory network never changes a result: an
    event handled within depth [n] is handled with the same result and the same
    final state at every greater depth. *)
Lemma mock_network_fuel n m h i ev (w : W) r :
  n ≤ m →
  @send_event _ _ (mock_network n) h i ev w = Done r →
  @send_event _ _ (mock_network m) h i ev w = Done r.
Proof.
  intros Hle. apply less_defined_done. by apply (le_send _ _ (mock_network_le n m Hle)).
Qed.
End depth.

(** ** Registration and delivery, for any kind of processor *)
Section hub_spec.
Context `{Oneshot} {L P : Type}.
Implicit Types w : World L (MockState P).

(** The network registered on [hub] under [i]. *)
Definition network_of (hub : loc) (i : Identifier) w : option loc :=
  hubs (network w) !! hub ≫= lookup i.

Lemma read_mock_eq w n c : mocks (network w) !! n = Some c → read_mock n w = Done (Ok c, w).
Proof. intros E. by rw /read_mock E. Qed.
Lemma read_hub_eq w hub ms : hubs (network w) !! hub = Some ms → read_hub hub w = Done (Ok ms, w).
Proof. intros E. by rw /read_hub E. Qed.

(** Registration on a hub. A taken identifier is refused and nothing changes. A
    free one gets a new network of its own, with the given address and no processor,
    and no other identifier's network changes. The first processor registered on a
    network is kept: registering another one is an error that changes nothing. *)
Theorem registration_spec w hub ms i a p q :
  hubs (network w) !! hub = Some ms →
  match ms !! i with
  | Some _ => ∃ e, new_mock_network hub i a w = Done (Err e, w)
  | None => ∃ n w1, new_mock_network hub i a w = Done (Ok n, w1)
      ∧ mocks (network w) !! n = None ∧ network_of hub i w1 = Some n
      ∧ mock_address n w1 = a
      ∧ (∀ j, j ≠ i → network_of hub j w1 = network_of hub j w)
      ∧ (∀ m, m ≠ n → mocks (network w1) !! m = mocks (network w) !! m)
      ∧ ∃ w2 e, mock_register_processor n p w1 = Done (Ok tt, w2)
          ∧ (∃ c, mocks (network w2) !! n = Some c ∧ mock_processor c = Some p)
          ∧ mock_register_processor n q w2 = Done (Err e, w2)
  end.
Proof.
  intros Ehub. destruct (ms !! i) as [n|] eqn:Ei.
  - eexists. by rw /new_mock_network /mbind /M_bind /read_hub Ehub /= Ei.
  - set (n := fresh (dom (mocks (network w)))).
    assert (Hn : mocks (network w) !! n = None) by apply not_elem_of_dom, is_fresh.
    eexists n, _. split; [by rw /new_mock_network /mbind /M_bind /read_hub Ehub /= Ei|].
    rw /network_of /mock_address /= !lookup_insert_eq Ehub /=.
    split_and!; [done|by rw lookup_insert_eq|done| | |].
    + intros j Hne. by rw lookup_insert_ne.
    + intros m Hne. by rw lookup_insert_ne.
    + eexists _, _.
      split; [by rw /mock_register_processor /mbind /M_bind /read_mock /= lookup_insert_eq|].
      split; [by eexists; rw /= lookup_insert_eq|].
      by rw /mock_register_processor /mbind /M_bind /read_mock /= lookup_insert_eq.
Qed.

(** C34: delivery. An event goes to the one network registered under the target on the
    sender's hub, whose processor sees the sender's own identifier as the origin; the
    result of the processor is the result of the send, an error wrapped once by each
    layer. An unknown target or a network without a processor is an error, and then
    nothing changes. *)
Theorem delivery_spec `{EventProcessorCore P (World L (MockState P))} w h c ms target ev :
  mocks (network w) !! h = Some c → hubs (network w) !! mock_hub c = Some ms →
  match ms !! target with
  | None => mock_send_event h target ev w =
      Done (Err (wrap "failed to route event: {}"
        (Anyhow "network with identifier {} not found" [id_arg target])), w)
  | Some n => ∀ c', mocks (network w) !! n = Some c' →
      match mock_processor c' with
      | None => ∃ e, mock_send_event h target ev w = Done (Err e, w)
      | Some p => mock_send_event h target ev w =
          match process_incoming_event p (mock_id c) ev w with
          | Done (Err e, w') => Done (Err (wrap "failed to route event: {}"
              (wrap "hub failed to process routing event: {}"
                (wrap "failed to process incoming event" e))), w')
          | r => r
          end
      end
  end.
Proof.
  intros Ec Ems.
  assert (E : mock_send_event h target ev w = map_err (wrap "failed to route event: {}")
    (match ms !! target with
     | Some n => map_err (wrap "hub failed to process routing event: {}")
                   (incoming_event n (mock_id c) ev)
     | None => fail (Anyhow "network with identifier {} not found" [id_arg target])
     end) w).
  { rw /mock_send_event (bind_ok _ _ _ _ _ (read_mock_eq _ _ _ Ec)) /map_err /route_event.
    by rw (bind_ok _ _ _ _ _ (read_hub_eq _ _ _ Ems)). }
  rw E. destruct (ms !! target) as [n|]; [|done]. intros c' Ec'.
  assert (E' : incoming_event n (mock_id c) ev w =
    match mock_processor c' with
    | Some p => map_err (wrap "failed to process incoming event")
                  (process_incoming_event p (mock_id c) ev) w
    | None => Done (Err (Anyhow "no event processor registered" []), w)
    end).
  { rw /incoming_event (bind_ok _ _ _ _ _ (read_mock_eq _ _ _ Ec')). by destruct (mock_processor c'). }
  rw /map_err E'. destruct (mock_processor c') as [p|]; [|by eexists].
  rw /map_err. by destruct (process_incoming_event p (mock_id c) ev w) as [[[x|e] w']| |].
Qed.
End hub_spec.

(** Processors that accept or refuse every event. *)
Module HubSample.
#[global] Instance accept_or_refuse : EventProcessorCore bool (World nat (MockState bool)) :=
  {| process_incoming_event := λ (p : bool) (_ : Identifier) (_ : Event),
       if p then mret tt else fail (Anyhow "refused" []) |}.

Definition i5 : Identifier := Sample.ident x05.
Definition i7 : Identifier := Sample.ident x07.
Definition one_hub : World nat (MockState bool) :=
  MkWorld ∅ ∅ (∅ : gmap loc ChanState) (MkMockState {[ 0 := ∅ ]} ∅).
(** 5 accepts, 7 refuses. *)
Definition networks : gmap Identifier loc := <[i5 := 0]> (<[i7 := 1]> ∅).
Definition net5 : InnerMockNetwork bool := MkInnerMockNetwork 0 (Some true) i5 (MkAddress "h" "5").
Definition net7 : InnerMockNetwork bool := MkInnerMockNetwork 0 (Some false) i7 (MkAddress "h" "7").
Definition two_nodes : World nat (MockState bool) :=
  MkWorld ∅ ∅ (∅ : gmap loc ChanState) (MkMockState {[ 0 := networks ]} {[ 0 := net5; 1 := net7 ]}).
End HubSample.

Lemma registration_spec_witness :
  ∃ n w1, new_mock_network 0 HubSample.i5 (MkAddress "h" "5") HubSample.one_hub = Done (Ok n, w1)
    ∧ network_of 0 HubSample.i5 w1 = Some n.
Proof.
  destruct (registration_spec HubSample.one_hub 0 ∅ HubSample.i5 (MkAddress "h" "5") true false)
    as (n & w1 & E & _ & Hn & _); [reflexivity|].
  exists n, w1. split; [exact E|exact Hn].
Defined.

Lemma delivery_spec_witness :
  mock_send_event 1 HubSample.i5 (TestMessage "hi") HubSample.two_nodes
    = Done (Ok tt, HubSample.two_nodes)
  ∧ mock_send_event 0 HubSample.i7 (TestMessage "hi") HubSample.two_nodes
    = Done (Err (wrap "failed to route event: {}"
        (wrap "hub failed to process routing event: {}"
          (wrap "failed to process incoming event" (Anyhow "refused" [])))), HubSample.two_nodes).
Proof.
  pose proof (delivery_spec HubSample.two_nodes 1 HubSample.net7 HubSample.networks HubSample.i5
    (TestMessage "hi") eq_refl eq_refl) as H5.
  pose proof (delivery_spec HubSample.two_nodes 0 HubSample.net5 HubSample.networks HubSample.i7
    (TestMessage "hi") eq_refl eq_refl) as H7.
  split; [exact (H5 HubSample.net5 eq_refl)|exact (H7 HubSample.net7 eq_refl)].
Defined.
