(* ===== verification/Overlay.v ===== *)
(** * Nodes on a hub

    An overlay is a set of nodes registered on one in-memory hub, each with a table
    of its own. This file says what their tables must satisfy for the node to be
    part of a skip graph's lists, and how one event travels between two of them. *)
From S2P Require Import Prelude Bytes Model LookupTable Core World BaseNode Hub.
From S2P Require Import Identifier.

Section store_lemmas.
Context `{Oneshot} {L N : Type}.
Implicit Types w : World L N.

Lemma set_tables_id w lt t : tables w !! lt = Some t → set_tables <[lt := t]> w = w.
Proof. destruct w as [ts ws cs n]. intros E. rw /set_tables /= insert_id; done. Qed.

Lemma on_table_done {A} lt (m : M L A) w t r t' :
  tables w !! lt = Some t → m t = Done (r, t') →
  on_table lt m w = Done (r, set_tables <[lt := t']> w).
Proof. intros Et Em. by rw /on_table Et Em. Qed.

Lemma on_table_read {A} lt (m : M L A) w t r :
  tables w !! lt = Some t → m t = Done (r, t) → on_table lt m w = Done (r, w).
Proof. intros Et Em. rw (on_table_done _ _ _ _ _ _ Et Em). by rw set_tables_id. Qed.

(** Sending on a channel and looking for a waiter never fail. *)
Lemma send_done {A} `{Payload A} (tx : Sender A) (v : A) w :
  ∃ ok w', World.send tx v w = Done (Ok ok, w').
Proof. rw /World.send. destruct (chan_send _ _ _) as [ok s]. by eexists _, _. Qed.

Lemma take_waiter_done (self : BaseNode) nonce f w :
  ∃ x w', take_waiter self nonce f w = Done (Ok x, w').
Proof. rw /take_waiter. destruct (_ !! nonce) as [x|]; [destruct (f x)|]; by eexists _, _. Qed.
End store_lemmas.

(** ** Contents of a node's table *)
Section contents.
Context `{Oneshot} `{LookupTableSpec L} {N : Type}.
Implicit Types w : World L N.

Definition table_ok w (b : BaseNode) : Prop :=
  ∃ t, tables w !! core_lt (core b) = Some t ∧ lt_wf t.

Definition node_slots w (b : BaseNode) : Contents :=
  match tables w !! core_lt (core b) with
  | Some t => slots t
  | None => λ _ _, None
  end.

Lemma table_ok_slots w b : table_ok w b →
  ∃ t, tables w !! core_lt (core b) = Some t ∧ lt_wf t ∧ node_slots w b = slots t.
Proof. intros (t & Et & Hwf). exists t. by rw /node_slots Et. Qed.

Lemma on_core_search w b req :
  table_ok w b → isq_level req < LOOKUP_TABLE_LEVELS →
  ∃ r l, on_core b (Core.search_by_id (core b) req) w
           = Done (Ok (MkIdSearchRes (isq_nonce req) (isq_target req) l r), w)
    ∧ search_answer (node_id b) (node_slots w b) (isq_direction req) (isq_level req)
        (isq_target req) r l.
Proof.
  intros (t & Et & Hwf & Es)%table_ok_slots Hl.
  destruct (search_by_id_in_range (core b) req t Hwf Hl) as (r & l & E & Ha).
  exists r, l. rw Es. split; [|done]. by apply (on_table_read _ _ _ t).
Qed.

Lemma on_core_entry w b l d :
  table_ok w b → l < LOOKUP_TABLE_LEVELS →
  on_core b (neighbor_entry (core b) l d) w = Done (Ok (node_slots w b l d), w).
Proof.
  intros (t & Et & Hwf & Es)%table_ok_slots Hl. rw Es.
  apply (on_table_read _ _ _ t); [done|]. by apply get_entry_spec.
Qed.

Lemma on_core_try_link w b l d i :
  table_ok w b → l < LOOKUP_TABLE_LEVELS →
  ∃ t', on_core b (core_try_link (core b) l d i) w
          = Done (Ok (link_decision (node_slots w b l d) d i),
                  set_tables <[core_lt (core b) := t']> w)
    ∧ lt_wf t'
    ∧ ∀ l' d', slots t' l' d' =
        set_slot l d (linked_slot (node_slots w b l d) d i) (node_slots w b) l' d'.
Proof.
  intros (t & Et & Hwf & Es)%table_ok_slots Hl. rw Es.
  destruct (try_link_spec t l d i Hwf Hl) as (t' & E & Hwf' & Hs).
  exists t'. split_and!; [|done..]. by apply (on_table_done _ _ _ t).
Qed.
End contents.

(** ** Registered nodes *)
Section overlay.
Context `{Oneshot} `{LookupTableSpec L}.
Abbreviation W := (World L (MockState BaseNode)) (only parsing).
Implicit Types w : W.

Record registered (hub : loc) w (i : Identifier) (b : BaseNode) : Prop := {
  reg_id : node_id b = i;
  reg_hub : (hubs (network w) !! hub) ≫= lookup i = Some (net b);
  reg_mock : ∃ c, mocks (network w) !! net b = Some c ∧ mock_processor c = Some b
              ∧ mock_hub c = hub ∧ mock_id c = i
}.

(** How an event sent between registered nodes is handled. *)
Lemma send_registered hub w fuel i a j b ev :
  registered hub w i a → registered hub w j b →
  @send_event _ _ (mock_network (S fuel)) (net a) j ev w =
    map_err (wrap "failed to route event: {}")
      (map_err (wrap "hub failed to process routing event: {}")
        (map_err (wrap "failed to process incoming event")
          (@node_process_incoming_event _ _ _ _ (mock_network fuel) b i ev))) w.
Proof.
  intros [Ea _ (c & Ec & Ep & Eh & Ecid)]
         [Eb (ms' & Ehub' & Ej)%bind_Some (c' & Ec' & Ep' & Eh' & Ecid')].
  rw /= /mock_send_event /mbind /M_bind /read_mock Ec /=.
  rw {1}/map_err /route_event /mbind /M_bind /read_hub Eh Ehub' /= Ej.
  rw {1}/map_err /incoming_event /mbind /M_bind /read_mock Ec' /= Ep'.
  by rw Ecid /mock_network /=.
Qed.

Lemma send_registered_ok hub w fuel i a j b ev w' :
  registered hub w i a → registered hub w j b →
  @node_process_incoming_event _ _ _ _ (mock_network fuel) b i ev w = Done (Ok tt, w') →
  @send_event _ _ (mock_network (S fuel)) (net a) j ev w = Done (Ok tt, w').
Proof.
  intros Ha Hb E. rw (send_registered hub w fuel i a j b ev Ha Hb). by do 3 apply map_err_ok.
Qed.

(** The nodes of a skip graph on a hub: registered, with tables of their own. *)
Record overlay (hub : loc) (nodes : gmap Identifier BaseNode) w : Prop := {
  ov_registered i b : nodes !! i = Some b → registered hub w i b;
  ov_table i b : nodes !! i = Some b → table_ok w b;
  ov_own_table i j a b : nodes !! i = Some a → nodes !! j = Some b →
    core_lt (core a) = core_lt (core b) → i = j;
  ov_own_waiters i j a b : nodes !! i = Some a → nodes !! j = Some b →
    request_id_map a = request_id_map b → i = j
}.

(** Every entry of a node in [members] names a member on the entry's side. *)
Definition entries_on_side (nodes : gmap Identifier BaseNode) (members : gset Identifier) w : Prop :=
  ∀ i b l d e, i ∈ members → nodes !! i = Some b → node_slots w b l d = Some e →
    id e ∈ members ∧ beyond d i (id e).

(** At level 0 the members form one doubly linked list: each slot names the closest
    member on its side, and is empty only at the end of the list. *)
Definition linked_level0 (nodes : gmap Identifier BaseNode) (members : gset Identifier) w : Prop :=
  ∀ i b d, i ∈ members → nodes !! i = Some b →
    match node_slots w b 0 d with
    | Some e => id e ∈ members ∧ beyond d i (id e)
        ∧ ∀ j, j ∈ members → beyond d i j → reaches d (id e) j
    | None => ∀ j, j ∈ members → ¬ beyond d i j
    end.
End overlay.

(** ** A small overlay, built by the code

    Nodes 2, 5 and 9, all linked at level 0; 2 and 9 share a longer prefix and are
    also linked at level 1. Node 7 is registered but has not joined. *)
Module OverlaySample.
Abbreviation T := ArrayLookupTable.InnerArrayLookupTable (only parsing).
Abbreviation W := (World T (MockState BaseNode)) (only parsing).

Definition n2 : Identity := Sample.node x02 x00.
Definition n5 : Identity := Sample.node x05 x80.
Definition n9 : Identity := Sample.node x09 x00.
Definition n7 : Identity := Sample.node x07 x00.

(** The table of a node with the given entries. *)
Fixpoint fill (entries : list (Identity * nat * Direction)) : M T () :=
  match entries with
  | [] => mret tt
  | (i, l, d) :: rest => _ ← update_entry i l d; fill rest
  end.
Definition table (entries : list (Identity * nat * Direction)) : T :=
  match fill entries ArrayLookupTable.new with
  | Done (_, t) => t
  | _ => ArrayLookupTable.new
  end.

Definition blank : W :=
  MkWorld {[ 0 := table [(n5, 0, Right); (n9, 1, Right)];
             1 := table [(n2, 0, Left); (n9, 0, Right)];
             2 := table [(n5, 0, Left); (n2, 1, Left)];
             3 := ArrayLookupTable.new ]}
    ∅ (∅ : gmap loc ChanState) (MkMockState ∅ ∅).

(** Register the node [i], whose table is at [lt]. *)
Definition start (hub : loc) (i : Identity) (lt : loc) : M W BaseNode :=
  n ← new_mock_network hub (id i) (address i);
  @node_new _ _ _ (mock_network 0) (MkBaseCore (id i) (mem_vec i) lt) n.

Definition boot : M W (list BaseNode) :=
  hub ← hub_new;
  a ← start hub n2 0;
  b ← start hub n5 1;
  c ← start hub n9 2;
  j ← start hub n7 3;
  mret [a; b; c; j].

Definition world : W := match boot blank with Done (_, w) => w | _ => blank end.
Definition node (n : nat) (i : Identity) : BaseNode :=
  MkBaseNode (MkBaseCore (id i) (mem_vec i) n) n n.
Definition nodes : gmap Identifier BaseNode :=
  <[id n2 := node 0 n2]> (<[id n5 := node 1 n5]> (<[id n9 := node 2 n9]>
    (<[id n7 := node 3 n7]> ∅))).

Lemma boot_nodes :
  match boot blank with
  | Done (r, _) => r = Ok [node 0 n2; node 1 n5; node 2 n9; node 3 n7]
  | _ => False
  end.
Proof. vm_compute. reflexivity. Qed.

Lemma nodes_cases (P : Identifier → BaseNode → Prop) :
  P (id n2) (node 0 n2) → P (id n5) (node 1 n5) → P (id n9) (node 2 n9) →
  P (id n7) (node 3 n7) → ∀ i b, nodes !! i = Some b → P i b.
Proof.
  intros H2 H5 H9 H7 i b E. rw /nodes in E.
  apply lookup_insert_Some in E as [[<- <-]|[_ E]]; [done|].
  apply lookup_insert_Some in E as [[<- <-]|[_ E]]; [done|].
  apply lookup_insert_Some in E as [[<- <-]|[_ E]]; [done|].
  apply lookup_insert_Some in E as [[<- <-]|[_ E]]; [done|].
  by rw lookup_empty in E.
Qed.

Lemma world_overlay : overlay 0 nodes world.
Proof.
  split.
  - apply nodes_cases; (split; [done|vm_compute; reflexivity|]);
      (eexists; split; [vm_compute; reflexivity|split_and!; reflexivity]).
  - apply nodes_cases; eexists; (split; [vm_compute; reflexivity|split; vm_compute; reflexivity]).
  - intros i j a b Ea. revert j b.
    apply (nodes_cases (λ i a, ∀ j b, nodes !! j = Some b →
      core_lt (core a) = core_lt (core b) → i = j)); [..|done];
      apply (nodes_cases (λ j b, core_lt _ = core_lt (core b) → _ = j)); done.
  - intros i j a b Ea. revert j b.
    apply (nodes_cases (λ i a, ∀ j b, nodes !! j = Some b →
      request_id_map a = request_id_map b → i = j)); [..|done];
      apply (nodes_cases (λ j b, request_id_map _ = request_id_map b → _ = j)); done.
Qed.

Lemma n2_node : nodes !! id n2 = Some (node 0 n2).
Proof. vm_compute. reflexivity. Qed.
Lemma n5_node : nodes !! id n5 = Some (node 1 n5).
Proof. vm_compute. reflexivity. Qed.
Lemma n9_node : nodes !! id n9 = Some (node 2 n9).
Proof. vm_compute. reflexivity. Qed.

Lemma n7_node : nodes !! id n7 = Some (node 3 n7).
Proof. vm_compute. reflexivity. Qed.

Definition member_list : list Identifier := [id n2; id n5; id n9].
Definition members : gset Identifier := list_to_set member_list.

Lemma elem_of_members i : i ∈ member_list → i ∈ members.
Proof. intros Hi. by apply elem_of_list_to_set. Qed.

Lemma n7_no_member : id n7 ∉ members.
Proof. rw /members elem_of_list_to_set. decided. Qed.

Lemma members_size : size members = 3.
Proof. rw /members size_list_to_set; [|done]. decided. Qed.

Lemma members_cases (P : Identifier → Prop) :
  P (id n2) → P (id n5) → P (id n9) → ∀ j, j ∈ members → P j.
Proof.
  intros H2 H5 H9 j. rw /members elem_of_list_to_set !elem_of_cons.
  by intros [->|[->|[->|[]%not_elem_of_nil]]].
Qed.

Lemma members_nodes : members ⊆ dom nodes.
Proof.
  intros i Hi. apply elem_of_dom. revert i Hi.
  refine (members_cases _ _ _ _); vm_compute; by eexists.
Qed.

Lemma world_entries_checked i b : nodes !! i = Some b → ∀ d,
  Forall (λ p : nat * Identity, id p.2 ∈ member_list ∧ beyond d i (id p.2))
    (populated (node_slots world b) d).
Proof.
  revert i b. refine (nodes_cases _ _ _ _ _); intros []; decided.
Qed.

Lemma world_entries : entries_on_side nodes members world.
Proof.
  intros i b l d e _ Hb E.
  destruct (table_ok_slots world b) as (t & _ & Hwf & Es); [by eapply ov_table, Hb; apply world_overlay|].
  rw Es in E. apply elem_of_populated in E; [|done]. rw -Es in E.
  pose proof (world_entries_checked i b Hb d) as Hall.
  rw Forall_forall in Hall. destruct (Hall _ E). split; [by apply elem_of_members|done].
Qed.

Lemma world_linked : linked_level0 nodes members world.
Proof.
  intros i b d Hi Hb. revert b Hb d. revert i Hi.
  refine (members_cases _ _ _ _); intros b Hb;
    [rw n2_node in Hb|rw n5_node in Hb|rw n9_node in Hb]; injection Hb as <-; intros [];
    match goal with |- context [node_slots ?w ?b 0 ?d] =>
      let E := fresh in destruct (node_slots w b 0 d) eqn:E; vm_compute in E; simplify_eq end;
    try (split_and!; [apply elem_of_members; decided|decided|]);
    refine (members_cases _ _ _ _); decided.
Qed.
End OverlaySample.

(** The same event at depths 3 and 5. *)
Lemma mock_network_fuel_witness :
  let ev := GetMaxLevelOp (MkMaxLevelReq (MkNonce 1) (id OverlaySample.n2)) in
  ∃ w', @send_event _ _ (mock_network 3) 0 (id OverlaySample.n9) ev OverlaySample.world
          = Done (Ok tt, w')
    ∧ @send_event _ _ (mock_network 5) 0 (id OverlaySample.n9) ev OverlaySample.world
          = Done (Ok tt, w').
Proof.
  intros ev.
  assert (E : ∃ w', @send_event _ _ (mock_network 3) 0 (id OverlaySample.n9) ev OverlaySample.world
    = Done (Ok tt, w')) by (apply completes_done; vm_compute; reflexivity).
  destruct E as (w' & E). exists w'. split; [exact E|].
  apply (mock_network_fuel 3 5 0 (id OverlaySample.n9) ev OverlaySample.world (Ok tt, w'));
    [lia|exact E].
Defined.
