(* ===== verification/Handlers.v ===== *)
(** * What the handlers do, on any network ([src/node/base_node.rs])

    The link handlers branch by branch, the correlation of replies with waiters, and
    the table invariant no peer can break. Nothing here depends on how the network
    delivers events. *)
From S2P Require Import Prelude Bytes Model LookupTable Core World BaseNode Hub Overlay.
From S2P Require Import Identifier.

(** ** The slot check *)

(** [i] may occupy the slot [(l, d)] of [self]. *)
Definition fits (self : BaseNode) (l : LookupTableLevel) (d : Direction) (i : Identity) : Prop :=
  l < LOOKUP_TABLE_LEVELS ∧ beyond d (node_id self) (id i)
  ∧ l ≤ MemVec.common_prefix_bit (node_mem_vec self) (mem_vec i).

(** The code's equality of nodes is coarser than equality: networks and waiters do not
    count. *)
#[global] Instance node_equiv : Equiv BaseNode := λ a b, node_eqb a b = true.

Lemma node_equiv_iff (a b : BaseNode) :
  a ≡ b ↔ node_id a = node_id b ∧ node_mem_vec a = node_mem_vec b.
Proof. by rw /equiv /node_equiv /node_eqb andb_true_iff !bool_decide_eq_true. Qed.

#[global] Instance node_equivalence : Equivalence (≡@{BaseNode}).
Proof.
  split.
  - intros a. by rw node_equiv_iff.
  - intros a b. rw !node_equiv_iff. by intros [-> ->].
  - intros a b c. rw !node_equiv_iff. by intros [-> ->].
Qed.

(** Equal nodes have the same slots to fill. *)
#[global] Instance fits_proper : Proper ((≡) ==> (=) ==> (=) ==> (=) ==> iff) fits.
Proof.
  intros a b [Ei Em]%node_equiv_iff l _ <- d _ <- i _ <-. by rw /fits Ei Em.
Qed.

Lemma belongs_fits self l d i : belongs_in_own_slot self l d i = true ↔ fits self l d i.
Proof.
  rw /belongs_in_own_slot /fits /prefix_match.
  destruct (Nat.leb_spec LOOKUP_TABLE_LEVELS l) as [Hl|Hl]; [split; [done|lia]|].
  rw andb_true_iff Nat.leb_le. destruct d; rw ?id_ltb_val ?id_gtb_val Z.ltb_lt /=; tauto.
Qed.

Lemma not_belongs_fits self l d i :
  belongs_in_own_slot self l d i = false ↔ ¬ fits self l d i.
Proof. by rw -not_true_iff_false belongs_fits. Qed.

#[global] Instance fits_dec self l d i : Decision (fits self l d i).
Proof. unfold fits; apply _. Defined.

(** The identity of a node as its peers should know it. *)
Definition describes (i : Identity) (b : BaseNode) : Prop :=
  id i = node_id b ∧ mem_vec i = node_mem_vec b.

#[global] Instance describes_proper : Proper ((=) ==> (≡) ==> iff) describes.
Proof. intros i _ <- a b [Ei Em]%node_equiv_iff. by rw /describes Ei Em. Qed.

(** The claim of [belongs_in_own_slot]'s documentation: the hop a request is
    forwarded to sits between this node and the candidate, so it accepts it. *)
Lemma forward_fits self l d i e b :
  fits self l d i → fits self l d e → beyond d (id e) (id i) → describes e b →
  fits b l d i.
Proof.
  intros (Hl & Hi & Hp) (_ & _ & Hpe) Hei [Eid Emv]. split_and!; [done| |].
  - by rw -Eid.
  - rw -Emv. eapply MemVec.common_prefix_bit_trans; [|exact Hp].
    by rw MemVec.common_prefix_bit_sym.
Qed.

(** ** Functional behaviour *)
Section functional.
Context `{Oneshot} `{LookupTableSpec L} {N : Type} `{!Network BaseNode (World L N)}.
Implicit Types (w : World L N) (self : BaseNode).

(** [w'] is [w] with one slot of [self]'s table holding what linking [i] leaves. *)
Definition slot_linked self l d i w w' : Prop :=
  ∃ t', w' = set_tables <[core_lt (core self) := t']> w ∧ lt_wf t'
    ∧ ∀ l' d', slots t' l' d' =
        set_slot l d (linked_slot (node_slots w self l d) d i) (node_slots w self) l' d'.

Lemma slot_linked_slots self l d i w w' l' d' :
  slot_linked self l d i w w' →
  node_slots w' self l' d' =
    set_slot l d (linked_slot (node_slots w self l d) d i) (node_slots w self) l' d'.
Proof. intros (t' & -> & _ & Hs). by rw {1}/node_slots /= lookup_insert_eq Hs. Qed.

Lemma get_link_rejected self req w :
  ¬ fits self (lq_level req) (lq_dir req) (lq_candidate req) →
  handle_get_link_request self req w = Done (Ok tt, w).
Proof. intros Hf%not_belongs_fits. by rw /handle_get_link_request Hf. Qed.

Lemma get_link_forwarded self req w e :
  table_ok w self → fits self (lq_level req) (lq_dir req) (lq_candidate req) →
  node_slots w self (lq_level req) (lq_dir req) = Some e →
  beyond (lq_dir req) (id e) (id (lq_candidate req)) →
  ∃ w1, slot_linked self (lq_level req) (lq_dir req) (lq_candidate req) w w1
    ∧ (∀ l d, node_slots w1 self l d = node_slots w self l d)
    ∧ handle_get_link_request self req w =
        map_err (wrap "failed to forward get link request: {}")
          (send_event (net self) (id e) (GetLinkOp req)) w1.
Proof.
  intros Hok Hf E Hb. pose proof Hf as (Hl & _ & _). apply belongs_fits in Hf.
  destruct (on_core_try_link w self (lq_level req) (lq_dir req) (lq_candidate req) Hok Hl)
    as (t' & Et & Hwf & Hs).
  exists (set_tables <[core_lt (core self) := t']> w). split; [by eexists|].
  rw E in Et. rw E in Hs. split.
  - intros l d. rw {1}/node_slots /= lookup_insert_eq Hs /set_slot.
    case_decide as Hc; [|done]. destruct Hc as [-> ->]. rw E /linked_slot /link_decision.
    by case_decide.
  - rw /handle_get_link_request Hf /=.
    rw (bind_ok _ _ _ _ _ (map_err_ok _ _ _ _ _ Et)). cbn [link_decision].
    by case_decide.
Qed.

Lemma get_link_accepted self req w :
  table_ok w self → fits self (lq_level req) (lq_dir req) (lq_candidate req) →
  (∀ e, node_slots w self (lq_level req) (lq_dir req) = Some e →
     ¬ beyond (lq_dir req) (id e) (id (lq_candidate req))) →
  ∃ w1, slot_linked self (lq_level req) (lq_dir req) (lq_candidate req) w w1
    ∧ node_slots w1 self (lq_level req) (lq_dir req) = Some (lq_candidate req)
    ∧ handle_get_link_request self req w =
        map_err (wrap "failed to send link response: {}")
          (send_event (net self) (id (lq_candidate req))
             (SetLinkOp (MkLinkRes (lq_nonce req) (opposite (lq_dir req)) (lq_level req)
                (Some (self_identity self w1))))) w1.
Proof.
  intros Hok Hf Hnb. pose proof Hf as (Hl & _ & _). apply belongs_fits in Hf.
  destruct (on_core_try_link w self (lq_level req) (lq_dir req) (lq_candidate req) Hok Hl)
    as (t' & Et & Hwf & Hs).
  assert (Hd : link_decision (node_slots w self (lq_level req) (lq_dir req)) (lq_dir req)
    (lq_candidate req) = LinkedDirectly).
  { rw /link_decision. destruct (node_slots _ _ _ _) as [e|]; [|done].
    case_decide; [|done]. by destruct (Hnb e). }
  exists (set_tables <[core_lt (core self) := t']> w). split_and!; [by eexists| |].
  - rw {1}/node_slots /= lookup_insert_eq Hs /set_slot decide_True; [done|].
    by rw /linked_slot Hd.
  - rw /handle_get_link_request Hf /=.
    rw (bind_ok _ _ _ _ _ (map_err_ok _ _ _ _ _ Et)). rw Hd. done.
Qed.

(** C15: the whole of [handle_get_link_request] on any network. A request naming a
    slot the candidate cannot occupy is dropped without an answer or an error and
    changes nothing. Otherwise, when the slot's entry sits strictly between the node
    and the candidate, no slot changes and the very same request goes to that entry;
    when the slot is empty, or its entry is the candidate or farther out, the slot
    takes the candidate, every other slot is untouched, and one [SetLinkOp] goes to
    the candidate with the request's nonce and level, the mirrored direction and
    this node's own identity. *)
Theorem get_link_behaviour self req w :
  table_ok w self →
  let slot w' := node_slots w' self (lq_level req) (lq_dir req) in
  (¬ fits self (lq_level req) (lq_dir req) (lq_candidate req) →
     handle_get_link_request self req w = Done (Ok tt, w))
  ∧ (fits self (lq_level req) (lq_dir req) (lq_candidate req) →
     ∀ e, slot w = Some e → beyond (lq_dir req) (id e) (id (lq_candidate req)) →
     ∃ w1, (∀ l d, node_slots w1 self l d = node_slots w self l d)
       ∧ handle_get_link_request self req w =
           map_err (wrap "failed to forward get link request: {}")
             (send_event (net self) (id e) (GetLinkOp req)) w1)
  ∧ (fits self (lq_level req) (lq_dir req) (lq_candidate req) →
     (∀ e, slot w = Some e → reaches (lq_dir req) (id (lq_candidate req)) (id e)) →
     ∃ w1, slot w1 = Some (lq_candidate req)
       ∧ (∀ l d, (l, d) ≠ (lq_level req, lq_dir req) →
            node_slots w1 self l d = node_slots w self l d)
       ∧ handle_get_link_request self req w =
           map_err (wrap "failed to send link response: {}")
             (send_event (net self) (id (lq_candidate req))
                (SetLinkOp (MkLinkRes (lq_nonce req) (opposite (lq_dir req)) (lq_level req)
                   (Some (self_identity self w1))))) w1).
Proof.
  intros Hok. split_and!.
  - apply get_link_rejected.
  - intros Hf e E Hb. destruct (get_link_forwarded self req w e Hok Hf E Hb) as (w1 & _ & Hs & Eh).
    by exists w1.
  - intros Hf Hr. destruct (get_link_accepted self req w Hok Hf) as (w1 & Hlk & Hs & Eh).
    { intros e E Hb. destruct (Hr e E) as [Heq|Hb']; [rw Heq in Hb; by eapply beyond_irrefl|].
      by eapply beyond_asym. }
    exists w1. split_and!; [done| |done].
    intros l d Hne. rw (slot_linked_slots _ _ _ _ _ _ _ _ Hlk) /set_slot decide_False; [|done].
    intros [-> ->]. done.
Qed.
End functional.

(** ** Correlation of replies with waiters *)
Section correlation.
Context `{Oneshot} `{LookupTableSpec L} {N : Type} `{!Network BaseNode (World L N)}.
Implicit Types (w : World L N) (self : BaseNode).

(** The reply an event carries for a waiter: only to the waiter of its own message
    type, and for a link only when it names the slot the waiter asked about. *)
Definition resolves (ev : Event) (x : Waiter) : option Reply :=
  match ev, x with
  | SearchByIdResponse res, AsyncSearch _ => Some (ReplySearch res)
  | RetMaxLevelOp res, MaxLevel _ => Some (ReplyMaxLevel res)
  | RetNeighborOp res, Neighbor _ => Some (ReplyNeighbor res)
  | SetLinkOp res, Link _ level dir =>
      if decide (level = lr_level res ∧ dir = lr_dir res) then Some (ReplyLink res) else None
  | _, _ => None
  end.

Definition reply_nonce (ev : Event) : option Nonce :=
  match ev with
  | SearchByIdResponse res => Some (isr_nonce res)
  | RetMaxLevelOp res => Some (mlr_nonce res)
  | RetNeighborOp res => Some (nr_nonce res)
  | SetLinkOp res => Some (lr_nonce res)
  | _ => None
  end.

(** The world after a reply met the waiter map: the matching waiter is gone and its
    channel was sent the reply; without a match nothing happened. *)
Definition resolved self (nonce : Nonce) (ev : Event) w : World L N :=
  match waiter_map (request_id_map self) w !! nonce with
  | Some x =>
      match resolves ev x with
      | Some r =>
          set_chans (λ s, (chan_send (waiter_chan x) r s).2)
            (set_waiter_map (request_id_map self)
               (delete nonce (waiter_map (request_id_map self) w)) w)
      | None => w
      end
  | None => w
  end.

Lemma send_eq {A} `{Payload A} (tx : Sender A) (v : A) w :
  (_ ← World.send tx v; mret tt : M (World L N) ()) w =
    Done (Ok tt, set_chans (λ s, (chan_send (sender_chan tx) (to_reply v) s).2) w).
Proof.
  rw /mbind /M_bind /World.send /set_chans. by destruct (chan_send _ _ _) as [b s].
Qed.

Lemma search_response_resolved self res w :
  handle_search_by_id_response self res w =
    Done (Ok tt, resolved self (isr_nonce res) (SearchByIdResponse res) w).
Proof.
  rw /handle_search_by_id_response /resolved /mbind {1}/M_bind /take_waiter.
  destruct (_ !! _) as [[tx|tx|tx|tx level dir]|]; try done. exact (send_eq tx res _).
Qed.

Lemma max_level_response_resolved self res w :
  handle_ret_max_level_response self res w =
    Done (Ok tt, resolved self (mlr_nonce res) (RetMaxLevelOp res) w).
Proof.
  rw /handle_ret_max_level_response /resolved /mbind {1}/M_bind /take_waiter.
  destruct (_ !! _) as [[tx|tx|tx|tx level dir]|]; try done. exact (send_eq tx res _).
Qed.

Lemma neighbor_response_resolved self res w :
  handle_ret_neighbor_response self res w =
    Done (Ok tt, resolved self (nr_nonce res) (RetNeighborOp res) w).
Proof.
  rw /handle_ret_neighbor_response /resolved /mbind {1}/M_bind /take_waiter.
  destruct (_ !! _) as [[tx|tx|tx|tx level dir]|]; try done. exact (send_eq tx res _).
Qed.

(** The table half of [handle_set_link_response]: the linked node goes into the slot
    when it fits, whether or not anybody waits. *)
Definition applied self (res : LinkRes) w w' : Prop :=
  match lr_linked res with
  | Some i =>
      if decide (fits self (lr_level res) (lr_dir res) i)
      then slot_linked self (lr_level res) (lr_dir res) i w w'
      else w' = w
  | None => w' = w
  end.

Lemma take_link_resolved self res w :
  (o ← take_waiter self (lr_nonce res) (is_link res);
   match o with
   | Some (Link tx _ _) => _ ← World.send tx res; mret tt
   | _ => mret tt
   end : M (World L N) ()) w = Done (Ok tt, resolved self (lr_nonce res) (SetLinkOp res) w).
Proof.
  rw /resolved /mbind {1}/M_bind /take_waiter.
  destruct (_ !! _) as [[tx|tx|tx|tx level dir]|]; try done. cbn [is_link resolves].
  destruct (Nat.eqb_spec level (lr_level res)) as [->|Hl]; cbn [andb]; last first.
  { rw decide_False; [by intros [? _]|done]. }
  case_bool_decide as Hd; last first.
  { rw decide_False; [by intros [_ ?]|done]. }
  subst dir. rw decide_True; [done|]. exact (send_eq tx res _).
Qed.

Lemma set_link_resolved self res w :
  table_ok w self →
  ∃ w1, applied self res w w1
    ∧ handle_set_link_response self res w =
        Done (Ok tt, resolved self (lr_nonce res) (SetLinkOp res) w1).
Proof.
  intros Hok. rw /applied /handle_set_link_response.
  destruct (lr_linked res) as [i|]; last first.
  { exists w. split; [done|]. apply take_link_resolved. }
  case_decide as Hf; last first.
  { exists w. split; [done|]. pose proof Hf as Hb. apply not_belongs_fits in Hb.
    rw Hb. apply take_link_resolved. }
  pose proof Hf as (Hl & _ & _). apply belongs_fits in Hf. rw Hf.
  destruct (on_core_try_link w self (lr_level res) (lr_dir res) i Hok Hl) as (t' & Et & Hwf & Hs).
  eexists. split; [by eexists|]. rw -take_link_resolved {1}/mbind /M_bind {1}/mbind /M_bind.
  by rw (map_err_ok _ _ _ _ _ Et).
Qed.

(** Every reply: its table half, then the waiter map. *)
Lemma reply_resolved self origin ev nonce w :
  table_ok w self → reply_nonce ev = Some nonce →
  ∃ w1, node_process_incoming_event self origin ev w = Done (Ok tt, resolved self nonce ev w1)
    ∧ match ev with SetLinkOp res => applied self res w w1 | _ => w1 = w end
    ∧ network w1 = network w ∧ waiters w1 = waiters w ∧ chans w1 = chans w.
Proof.
  intros Hok Hn.
  assert (∃ w1, node_process_incoming_event self origin ev w
                  = Done (Ok tt, resolved self nonce ev w1)
    ∧ match ev with SetLinkOp res => applied self res w w1 | _ => w1 = w end) as (w1 & E & Ha).
  { destruct ev; simplify_eq/=;
      eauto using search_response_resolved, max_level_response_resolved, neighbor_response_resolved.
    destruct (set_link_resolved self res w Hok) as (w1 & Ha & E). eauto. }
  exists w1. split; [exact E|]. split; [exact Ha|]. clear E.
  destruct ev; try by subst w1. rw /applied in Ha. repeat case_match; try by subst w1.
  by destruct Ha as (t' & -> & _).
Qed.

(** C16: what a reply does to the node that receives it. It never fails. It resolves
    the waiter stored under its nonce only if that waiter belongs to its own message
    type (and, for a link reply, asked about exactly the slot the reply names): then
    that one waiter is removed and its channel gets the reply. Any other reply, late,
    unsolicited or of the wrong type, leaves every waiter and channel as it was. Only
    a link reply writes the table, at most in the slot it names, and it does so
    whether or not a waiter matched. *)
Theorem reply_correlation self origin ev nonce w :
  table_ok w self → reply_nonce ev = Some nonce →
  ∃ w1, node_process_incoming_event self origin ev w = Done (Ok tt, resolved self nonce ev w1)
    ∧ match ev with SetLinkOp res => applied self res w w1 | _ => w1 = w end
    ∧ network w1 = network w
    ∧ match waiter_map (request_id_map self) w !! nonce ≫= (λ x, pair x <$> resolves ev x) with
      | Some (x, r) =>
          waiter_map (request_id_map self) (resolved self nonce ev w1)
            = delete nonce (waiter_map (request_id_map self) w)
          ∧ (∀ rm, rm ≠ request_id_map self →
               waiter_map rm (resolved self nonce ev w1) = waiter_map rm w)
          ∧ chans (resolved self nonce ev w1) = (chan_send (waiter_chan x) r (chans w)).2
      | None => waiters (resolved self nonce ev w1) = waiters w
          ∧ chans (resolved self nonce ev w1) = chans w
      end.
Proof.
  intros Hok Hn.
  destruct (reply_resolved self origin ev nonce w Hok Hn) as (w1 & E & Ha & E1 & E2 & E3).
  exists w1. split_and!; [done..|].
  assert (Hmap : ∀ rm, waiter_map rm w1 = waiter_map rm w) by (intros rm; by rw /waiter_map E2).
  rw /resolved Hmap.
  destruct (waiter_map (request_id_map self) w !! nonce) as [x|]; [|done]. simpl.
  destruct (resolves ev x) as [r|]; [|done]. simpl. split_and!.
  - by rw {1}/waiter_map /= lookup_insert_eq.
  - intros rm Hne. rw {1}/waiter_map /= lookup_insert_ne; [done|apply Hmap].
  - by rw E3.
Qed.
End correlation.

(** ** A node on a network that only records what it sends *)
Module NodeSample.
Abbreviation T := ArrayLookupTable.InnerArrayLookupTable (only parsing).

(** A network that only records what was sent. *)
Definition posting : Network BaseNode (World T (list (loc * Identifier * Event))) := {|
  net_address h w := MkAddress "localhost" "1";
  send_event h i ev := modify (set_network (λ l, l ++ [(h, i, ev)]));
  register_processor h p := mret tt
|}.

Definition node : BaseNode := MkBaseNode (MkBaseCore (Sample.ident x05) (Sample.memvec x00) 0) 0 0.
Definition start : World T (list (loc * Identifier * Event)) :=
  MkWorld {[ 0 := ArrayLookupTable.new ]} ∅ (∅ : gmap loc ChanState) [].
Lemma start_ok : table_ok start node.
Proof. exists ArrayLookupTable.new. split; [done|apply new_wf]. Qed.

(** The same node with 7 in its level-3 right slot and two requests outstanding: a
    link request for that slot (channel 0) and a search (channel 1). *)
Definition waiting : World T (list (loc * Identifier * Event)) :=
  MkWorld {[ 0 := OverlaySample.table [(Sample.node x07 x00, 3, Right)] ]}
    {[ 0 := {[ MkNonce 1 := Link (MkSender 0) 3 Right; MkNonce 2 := AsyncSearch (MkSender 1) ]} ]}
    (<[0 := ChanOpen]> (<[1 := ChanOpen]> ∅) : gmap loc ChanState) [].

Lemma waiting_ok : table_ok waiting node.
Proof. eexists. split; [reflexivity|]. split; vm_compute; reflexivity. Qed.

Definition link_request (c : u8) : LinkReq := MkLinkReq (MkNonce 9) (Sample.node c x00) Right 3.
End NodeSample.

(** A candidate beyond the entry is forwarded to it; one before it takes the slot. *)
Lemma get_link_behaviour_witness :
  (∃ w1, @handle_get_link_request _ _ _ _ NodeSample.posting NodeSample.node
           (NodeSample.link_request x09) NodeSample.waiting
     = map_err (wrap "failed to forward get link request: {}")
         (@send_event _ _ NodeSample.posting 0 (Sample.ident x07)
            (GetLinkOp (NodeSample.link_request x09))) w1)
  ∧ (∃ w1 : World NodeSample.T (list (loc * Identifier * Event)),
       node_slots w1 NodeSample.node 3 Right = Some (Sample.node x06 x00)).
Proof.
  split.
  - destruct (@get_link_behaviour _ _ _ _ _ NodeSample.posting NodeSample.node
      (NodeSample.link_request x09) NodeSample.waiting NodeSample.waiting_ok) as (_ & H & _).
    destruct (H ltac:(decided) (Sample.node x07 x00)) as (w1 & _ & E);
      [vm_compute; reflexivity|decided|by exists w1].
  - destruct (@get_link_behaviour _ _ _ _ _ NodeSample.posting NodeSample.node
      (NodeSample.link_request x06) NodeSample.waiting NodeSample.waiting_ok) as (_ & _ & H).
    destruct (H ltac:(decided)) as (w1 & Es & _); [|by exists w1].
    intros e E. vm_compute in E. injection E as <-. decided.
Defined.

(** The link reply for the awaited slot resolves channel 0 only. *)
Lemma reply_correlation_witness :
  let ev := SetLinkOp (MkLinkRes (MkNonce 1) Right 3 (Some (Sample.node x06 x00))) in
  ∃ w1, @node_process_incoming_event _ _ _ _ NodeSample.posting NodeSample.node
          (Sample.ident x06) ev NodeSample.waiting
        = Done (Ok tt, resolved NodeSample.node (MkNonce 1) ev w1)
    ∧ chans (resolved NodeSample.node (MkNonce 1) ev w1)
      = (<[0 := ChanSent (ReplyLink (MkLinkRes (MkNonce 1) Right 3 (Some (Sample.node x06 x00))))]>
          (<[1 := ChanOpen]> ∅) : gmap loc ChanState).
Proof.
  intros ev.
  destruct (@reply_correlation _ _ _ _ _ NodeSample.posting NodeSample.node (Sample.ident x06) ev
    (MkNonce 1) NodeSample.waiting NodeSample.waiting_ok eq_refl) as (w1 & E & _ & _ & H).
  exists w1. split; [exact E|].
  assert (Em : waiter_map (request_id_map NodeSample.node) NodeSample.waiting !! MkNonce 1
    ≫= (λ x, pair x <$> resolves ev x)
    = Some (Link (MkSender 0) 3 Right, ReplyLink (MkLinkRes (MkNonce 1) Right 3 (Some (Sample.node x06 x00)))))
    by (vm_compute; reflexivity).
  rw Em in H. destruct H as (_ & _ & Ec). rw Ec. vm_compute. reflexivity.
Defined.
