(* ===== verification/Routing.v ===== *)
(** * Search over the in-memory network

    A search request handed to any member that is not past the target is relayed
    from node to node and ends at the member closest to the target, which answers
    the originator. *)
From S2P Require Import Prelude Bytes Model LookupTable Core World BaseNode Hub Overlay.
From S2P Require Import Identifier.

(** [r] is the member closest to [target] among those not past it. *)
Definition closest (members : gset Identifier) (d : Direction) (target r : Identifier) : Prop :=
  r ∈ members ∧ reaches d r target
  ∧ ∀ j, j ∈ members → reaches d j target → reaches d j r.

Section routing.
Context `{Oneshot} `{LookupTableSpec L}.
Abbreviation W := (World L (MockState BaseNode)) (only parsing).
Implicit Types w : W.

(** The members a search at [i] may still visit. *)
Definition ahead (members : gset Identifier) (d : Direction) (i target : Identifier)
    : gset Identifier :=
  base.filter (λ j, beyond d i j ∧ reaches d j target) members.

Lemma ahead_decreases members d i r target :
  r ∈ members → beyond d i r → reaches d r target →
  size (ahead members d r target) < size (ahead members d i target).
Proof.
  intros Hr Hir Hrt. apply subset_size. split.
  - intros j. rw /ahead !elem_of_filter. intros [[Hrj Hjt] Hj].
    split_and!; [by eapply beyond_trans|done..].
  - intros Hsub. assert (Hin : r ∈ ahead members d i target).
    { rw /ahead. apply elem_of_filter. done. }
    apply Hsub in Hin. rw /ahead elem_of_filter in Hin.
    destruct Hin as [[Hrr _] _]. by eapply beyond_irrefl.
Qed.

Lemma ahead_size members d i target : size (ahead members d i target) ≤ size members.
Proof. apply subseteq_size. intros j [_ Hj]%elem_of_filter. done. Qed.

(** One hop: the local search either proves the node closest or moves on. *)
Lemma hop nodes members w i b req r l :
  entries_on_side nodes members w → linked_level0 nodes members w →
  i ∈ members → nodes !! i = Some b → node_id b = i →
  reaches (isq_direction req) i (isq_target req) →
  search_answer (node_id b) (node_slots w b) (isq_direction req) (isq_level req)
    (isq_target req) r l →
  l ≤ isq_level req ∧
  ((r = i ∧ closest members (isq_direction req) (isq_target req) i)
   ∨ (r ≠ i ∧ r ∈ members ∧ beyond (isq_direction req) i r
      ∧ reaches (isq_direction req) r (isq_target req))).
Proof.
  intros Hside Hlink Hi Hb Hid Hreach. rw Hid. intros [(-> & -> & Hnone)|(e & He & -> & _)].
  - split; [lia|]. left. split; [done|]. split; [done|]. split; [done|].
    intros j Hj Hjt. pose proof (Hlink i b (isq_direction req) Hi Hb) as Hl.
    apply not_beyond. intros Hij. destruct (node_slots w b 0 (isq_direction req)) as [e|] eqn:E.
    + destruct Hl as (_ & _ & Hmin). apply (Hnone 0 e). split_and!; [lia|done|].
      eauto with sides.
    + by apply (Hl j).
  - destruct He as (Hl & E & Ht). split; [done|]. right.
    destruct (Hside i b l (isq_direction req) e Hi Hb E) as [Hm Hbe].
    split_and!; try done. intros Heq. rw Heq in Hbe. by eapply beyond_irrefl.
Qed.

(** A response always resolves without error. *)
Lemma response_done (self : BaseNode) res w :
  ∃ w', handle_search_by_id_response self res w = Done (Ok tt, w').
Proof.
  rw /handle_search_by_id_response /mbind /M_bind.
  destruct (take_waiter_done self (isr_nonce res) is_async_search w) as (x & w1 & ->).
  destruct x as [[]|]; try by eexists. destruct (send_done tx res w1) as (ok & w2 & ->).
  by eexists.
Qed.

(** The search handled at a member, by induction on the members ahead of it. *)
Lemma search_handled hub nodes members w n i b o req origin :
  overlay hub nodes w → entries_on_side nodes members w → linked_level0 nodes members w →
  members ⊆ dom nodes → nodes !! isq_origin req = Some origin →
  i ∈ members → nodes !! i = Some b →
  reaches (isq_direction req) i (isq_target req) → isq_level req < LOOKUP_TABLE_LEVELS →
  size (ahead members (isq_direction req) i (isq_target req)) ≤ n →
  ∃ r l w', closest members (isq_direction req) (isq_target req) r
    ∧ handle_search_by_id_response origin
        (MkIdSearchRes (isq_nonce req) (isq_target req) l r) w = Done (Ok tt, w')
    ∧ @node_process_incoming_event _ _ _ _ (mock_network (S n)) b o (SearchByIdRequest req) w
        = Done (Ok tt, w').
Proof.
  intros Hov Hside Hlink Hdom Horig. revert i b o req Horig.
  induction n as [n IH] using lt_wf_ind; intros i b o req Horig Hi Hb Hreach Hlvl Hn.
  destruct (ov_registered _ _ _ Hov _ _ Hb) as [Hid Hhub Hmock].
  destruct (on_core_search w b req) as (r & l & Es & Ha); [by eapply ov_table|done|].
  destruct (hop nodes members w i b req r l) as [Hll Hhop]; try done.
  cbn [node_process_incoming_event]. rw /handle_search_by_id_request.
  rw (bind_ok _ _ _ _ _ (map_err_ok _ _ _ _ _ Es)). cbn [isr_result isr_termination_level].
  rw Hid. case_decide as Hdec; destruct Hhop as [[Hr Hc]|(Hne & Hr & Hbe & Hrt)]; try done.
  - exists r, l. destruct (response_done origin
      (MkIdSearchRes (isq_nonce req) (isq_target req) l r) w) as [w' Ew'].
    exists w'. rw {1}Hr. split_and!; [done..|].
    apply map_err_ok, (send_registered_ok hub _ _ i _ _ origin); [by eapply ov_registered..|done].
  - assert (Hlt : size (ahead members (isq_direction req) r (isq_target req)) < n).
    { eapply Nat.lt_le_trans; [|exact Hn]. by apply ahead_decreases. }
    destruct (nodes !! r) as [b'|] eqn:Eb'; last first.
    { apply not_elem_of_dom in Eb'. by destruct Eb'; apply Hdom. }
    destruct n as [|n]; [lia|].
    destruct (IH n ltac:(lia) r b' i
      (MkIdSearchReq (isq_nonce req) (isq_target req) (isq_origin req) l (isq_direction req)))
      as (r' & l' & w' & Hc & Er & Ep);
      cbn [isq_direction isq_target isq_origin isq_level isq_nonce] in *; [done..|lia|lia|].
    exists r', l', w'. split_and!; [done..|].
    apply map_err_ok, (send_registered_ok hub _ _ i _ _ b'); [by eapply ov_registered..|exact Ep].
Qed.

(** C3: on a skip graph whose level-0 lists are doubly linked, a search request sent
    to any member not past the target (with any level below 256) is relayed along
    strictly approaching members and terminates, within a depth bounded by the
    number of members: the originator's waiter is resolved with the member closest
    to the target among those not past it (greatest identifier [<=] target going
    right, smallest [>=] target going left), and nothing else changes. *)
Theorem search_reaches_closest hub nodes members w fuel a sender start req origin :
  overlay hub nodes w → entries_on_side nodes members w → linked_level0 nodes members w →
  members ⊆ dom nodes → nodes !! sender = Some a → nodes !! isq_origin req = Some origin →
  start ∈ members → reaches (isq_direction req) start (isq_target req) →
  isq_level req < 256 → size members + 2 ≤ fuel →
  ∃ r l w', closest members (isq_direction req) (isq_target req) r
    ∧ handle_search_by_id_response origin
        (MkIdSearchRes (isq_nonce req) (isq_target req) l r) w = Done (Ok tt, w')
    ∧ @send_event _ _ (mock_network fuel) (net a) start (SearchByIdRequest req) w
        = Done (Ok tt, w').
Proof.
  intros Hov Hside Hlink Hdom Ha Horig Hstart Hreach Hlvl Hfuel.
  destruct (nodes !! start) as [b|] eqn:Eb; last first.
  { apply not_elem_of_dom in Eb. by destruct Eb; apply Hdom. }
  destruct fuel as [|[|n]]; [lia..|].
  destruct (search_handled hub nodes members w n start b sender req origin)
    as (r & l & w' & Hc & Er & Ep); try done.
  { pose proof (ahead_size members (isq_direction req) start (isq_target req)). lia. }
  exists r, l, w'. split_and!; [done..|].
  by apply (send_registered_ok hub _ _ sender _ _ b); [eapply ov_registered..|].
Qed.
End routing.

(** Node 2 searches for 8, starting at itself: the answer is node 5. *)
Lemma search_reaches_closest_witness :
  let req := MkIdSearchReq (MkNonce 7) (Sample.ident x08) (id OverlaySample.n2) 3 Right in
  ∃ r l w',
    closest OverlaySample.members Right (Sample.ident x08) r
    ∧ handle_search_by_id_response (OverlaySample.node 0 OverlaySample.n2)
        (MkIdSearchRes (MkNonce 7) (Sample.ident x08) l r) OverlaySample.world = Done (Ok tt, w')
    ∧ @send_event _ _ (mock_network 5) 0 (id OverlaySample.n2) (SearchByIdRequest req)
        OverlaySample.world = Done (Ok tt, w').
Proof.
  apply (search_reaches_closest 0 OverlaySample.nodes OverlaySample.members OverlaySample.world 5
    (OverlaySample.node 0 OverlaySample.n2) (id OverlaySample.n2) (id OverlaySample.n2)
    (MkIdSearchReq (MkNonce 7) (Sample.ident x08) (id OverlaySample.n2) 3 Right)
    (OverlaySample.node 0 OverlaySample.n2)).
  - apply OverlaySample.world_overlay.
  - apply OverlaySample.world_entries.
  - apply OverlaySample.world_linked.
  - apply OverlaySample.members_nodes.
  - apply OverlaySample.n2_node.
  - apply OverlaySample.n2_node.
  - apply OverlaySample.elem_of_members. decided.
  - decided.
  - simpl. lia.
  - rw OverlaySample.members_size. lia.
Defined.
