(* ===== verification/Safety.v ===== *)
(** * The table invariant no peer can break

    Peers choose every field of the events they send, their timing, order and number.
    Whatever they send, each table entry stays on its slot's side of the node and
    shares the slot's prefix, a populated slot is never emptied, and entries move only
    towards the node. This is proved for every network that does not touch the tables
    itself, and from it for the in-memory network and for an adversarial one; that events
    on the in-memory one also come to an end is shown in [HubSafety]. *)
From S2P Require Import Prelude Bytes Model LookupTable Core World BaseNode Hub Overlay Handlers.
From S2P Require Import Identifier.

Section safety.
Context `{Oneshot} `{LookupTableSpec L} {N : Type}.
Implicit Types (w : World L N) (b self : BaseNode).

(** Every entry of [b]'s table may be where it is. *)
Definition sound w b : Prop :=
  ∀ l d e, node_slots w b l d = Some e → fits b l d e.

(** Tables that tell the truth: they name registered nodes as those describe
    themselves, where the slot rules allow them. *)
Definition truthful (nodes : gmap Identifier BaseNode) w : Prop :=
  ∀ i b, nodes !! i = Some b → sound w b ∧
    ∀ l d e, node_slots w b l d = Some e → ∃ b', nodes !! id e = Some b' ∧ describes e b'.

(** From [w] to [w'], [b]'s table kept its invariant and its entries moved inward. *)
Definition inward w w' b : Prop :=
  table_ok w b →
  table_ok w' b ∧ (sound w b → sound w' b)
  ∧ ∀ l d e, node_slots w b l d = Some e →
      ∃ e', node_slots w' b l d = Some e' ∧ reaches d (id e') (id e).

Lemma inward_refl w b : inward w w b.
Proof. intros Hok. split_and!; [done..|]. intros l d e E. exists e. by split; [|left]. Qed.

Lemma inward_trans w1 w2 w3 b : inward w1 w2 b → inward w2 w3 b → inward w1 w3 b.
Proof.
  intros H12 H23 Hok. destruct (H12 Hok) as (Hok2 & Hs2 & He2).
  destruct (H23 Hok2) as (Hok3 & Hs3 & He3). split_and!; [done|auto|].
  intros l d e E. destruct (He2 l d e E) as (e2 & E2 & R2).
  destruct (He3 l d e2 E2) as (e3 & E3 & R3). exists e3. split; [done|]. eauto with sides.
Qed.

(** Only the tables matter. *)
Lemma inward_same_tables w w' b : tables w' = tables w → inward w w' b.
Proof.
  intros E Hok. rw /sound /node_slots /table_ok E. split_and!; [done..|].
  intros l d e El. exists e. by split; [|left].
Qed.

Lemma inward_same_slots w w' b :
  table_ok w' b → (∀ l d, node_slots w' b l d = node_slots w b l d) → inward w w' b.
Proof.
  intros Hok' E Hok. split_and!; [done| |].
  - intros Hs l d e. rw E. apply Hs.
  - intros l d e El. exists e. rw E. by split; [|left].
Qed.

Lemma inward_linked self l d i w w' :
  fits self l d i → slot_linked self l d i w w' → inward w w' self.
Proof.
  intros Hf Hlk Hok. pose proof (λ l' d', slot_linked_slots _ _ _ _ _ _ l' d' Hlk) as Hs.
  destruct Hlk as (t' & -> & Hwf & _). split_and!.
  - exists t'. by rw /= lookup_insert_eq.
  - intros Hsound l' d' e. rw Hs /set_slot. case_decide as Hc; [|by apply Hsound].
    destruct Hc as [-> ->]. rw /linked_slot /link_decision.
    destruct (node_slots w self l d) as [x|] eqn:Ex; [case_decide|]; intros [= <-]; auto.
  - intros l' d' e E. rw Hs /set_slot. case_decide as Hc; [|exists e; by split; [|left]].
    destruct Hc as [-> ->]. by apply linked_slot_inward.
Qed.

(** ** Every handler does what its parts do

    For any relation that local steps, reads of the table, links where they fit and
    sends of proper events respect; [welcome] says which identities may be linked. *)
Section handlers.
Context (network_ops : Network BaseNode (World L N)).
Context (R : relation (World L N)) `{!PreOrder R} (welcome : Identity → Prop).

(** The maps in [P] gained no waiter. *)
Definition no_new_waiters (P : loc → Prop) w w' : Prop :=
  ∀ rm n, P rm → is_Some (waiter_map rm w' !! n) → is_Some (waiter_map rm w !! n).

(** An event that names only such identities. *)
Definition proper (ev : Event) : Prop :=
  match ev with
  | GetLinkOp req => welcome (lq_candidate req)
  | SetLinkOp res => ∀ i, lr_linked res = Some i → welcome i
  | _ => True
  end.

Record respectful self : Prop := {
  re_local w w' : tables w' = tables w → network w' = network w →
    no_new_waiters (λ _, True) w w' → R w w';
  re_read {A} (m : M L A) : (∀ t r t', lt_wf t → m t = Done (r, t') → t' = t) →
    moves R (on_core self m);
  re_link l d i : fits self l d i → welcome i →
    moves R (on_core self (core_try_link (core self) l d i));
  re_send dest ev : proper ev → moves R (send_event (net self) dest ev);
  re_self w : welcome (self_identity self w)
}.

Context (self : BaseNode) (Hre : respectful self).
#[local] Set Default Proof Using "Type*".

Lemma same_tables_moves {A} (m : M (World L N) A) :
  (∀ w r w', m w = Done (r, w') → tables w' = tables w ∧ network w' = network w
     ∧ no_new_waiters (λ _, True) w w') →
  moves R m.
Proof using Hre. intros Hm w r w' (Et & En & Hw)%Hm. by apply (re_local self Hre). Qed.

Lemma take_fewer rm nonce w :
  no_new_waiters (λ _, True) w (set_waiter_map rm (delete nonce (waiter_map rm w)) w).
Proof using Type.
  intros rm' n _. rw {1}/waiter_map /=.
  destruct (decide (rm' = rm)) as [->|Hne]; [|by rw lookup_insert_ne].
  rw lookup_insert_eq /= lookup_delete_is_Some. by intros [_ ?].
Qed.

Lemma take_waiter_moves nonce f : moves R (take_waiter self nonce f).
Proof using Hre.
  apply same_tables_moves. intros w r w' E. rw /take_waiter in E.
  assert (Hw : no_new_waiters (λ _, True) w w') by
    (repeat case_match; simplify_eq; first [apply take_fewer|by intros ? ? _]).
  repeat case_match; simplify_eq; done.
Qed.

Lemma send_moves {A} `{Payload A} (tx : Sender A) (v : A) :
  moves R (World.send tx v : M (World L N) bool).
Proof using Hre.
  apply same_tables_moves. intros w r w' E. rw /World.send in E.
  repeat case_match; simplify_eq; (split_and!; [done..|by intros ? ? _]).
Qed.

Lemma search_moves req : moves R (on_core self (Core.search_by_id (core self) req)).
Proof using Hre.
  apply (re_read self Hre). intros t r t' Hwf E.
  destruct (decide (isq_level req < LOOKUP_TABLE_LEVELS)) as [Hl|Hl].
  - destruct (search_by_id_in_range (core self) req t Hwf Hl) as (x & y & E' & _). rw E' in E. by injection E as _ <-.
  - destruct (search_by_id_out_of_range (core self) req t Hwf ltac:(lia)) as (x & E'). rw E' in E. by injection E as _ <-.
Qed.

Lemma max_level_moves : moves R (on_core self (Core.max_level (core self))).
Proof using Hre.
  apply (re_read self Hre). intros t r t' Hwf E.
  destruct (max_level_value (core self) t Hwf) as (x & E' & _). rw E' in E. by injection E as _ <-.
Qed.

Lemma neighbor_entry_moves l d : moves R (on_core self (neighbor_entry (core self) l d)).
Proof using Hre.
  apply (re_read self Hre). intros t r t' Hwf E. rw /neighbor_entry in E.
  destruct (decide (l < LOOKUP_TABLE_LEVELS)) as [Hl|Hl].
  - rw (get_entry_spec t l d Hwf Hl) in E. by injection E as _ <-.
  - destruct (get_entry_oob t l d ltac:(lia)) as (x & E'). rw E' in E. by injection E as _ <-.
Qed.

#[local] Hint Resolve take_waiter_moves send_moves search_moves max_level_moves
  neighbor_entry_moves : moves.
#[local] Hint Extern 1 (moves R (send_event _ _ _)) => (by apply (re_send self Hre)) : moves.

Lemma handle_get_link_moves req : welcome (lq_candidate req) → moves R (handle_get_link_request self req).
Proof.
  intros Hw. rw /handle_get_link_request.
  destruct (belongs_in_own_slot _ _ _ _) eqn:Hb; simpl; [|auto with moves].
  apply belongs_fits in Hb. apply moves_bind.
  - apply moves_map_err. by apply (re_link self Hre).
  - intros []; [|auto with moves]. apply moves_gets_bind. intros w. apply moves_map_err.
    apply (re_send self Hre). intros i [= <-]. by apply (re_self self Hre).
Qed.

Lemma handle_set_link_moves res :
  (∀ i, lr_linked res = Some i → welcome i) → moves R (handle_set_link_response self res).
Proof.
  intros Hw. rw /handle_set_link_response. apply moves_bind.
  - destruct (lr_linked res) as [i|]; [|auto with moves].
    destruct (belongs_in_own_slot _ _ _ _) eqn:Hb; [|auto with moves].
    apply belongs_fits in Hb. apply moves_bind; [|auto with moves].
    apply moves_map_err. apply (re_link self Hre); [done|by apply Hw].
  - intros _. apply moves_bind; [auto with moves|].
    intros [[]|]; auto with moves.
Qed.

Lemma process_moves o ev : proper ev → moves R (node_process_incoming_event self o ev).
Proof.
  intros Hp. destruct ev; cbn [node_process_incoming_event];
    try by auto using handle_get_link_moves, handle_set_link_moves with moves.
  - apply moves_bind; [auto with moves|]. intros res. case_decide; auto with moves.
  - apply moves_bind; [auto with moves|]. intros [[]|]; auto with moves.
  - apply moves_bind; auto with moves.
  - apply moves_bind; [auto with moves|]. intros [[]|]; auto with moves.
  - apply moves_bind; auto with moves.
  - apply moves_bind; [auto with moves|]. intros [[]|]; auto with moves.
Qed.
End handlers.

(** ** Nodes that share tables coherently

    [group] holds the nodes in play, clones included: handles on the same table
    belong to clones of one node. *)
Context (group : BaseNode → Prop).
Context (coherent : ∀ a b, group a → group b → core_lt (core a) = core_lt (core b) →
                      core a = core b).
(** What the network's own state must satisfy, for [send_event] to respect it. *)
Context (net_ok : N → Prop).

Definition step_ok w w' : Prop :=
  net_ok (network w) → net_ok (network w') ∧ ∀ b, group b → inward w w' b.

#[local] Instance step_ok_preorder : PreOrder step_ok.
Proof using Type.
  split.
  - intros w Hn. split; [done|]. intros b _. apply inward_refl.
  - intros w1 w2 w3 H12 H23 Hn. destruct (H12 Hn) as [Hn2 Hi2]. destruct (H23 Hn2) as [Hn3 Hi3].
    split; [done|]. intros b Hb. eapply inward_trans; eauto.
Qed.

(** A step on the table of one node. *)
Lemma inward_table self w w' t' :
  group self → w' = set_tables <[core_lt (core self) := t']> w →
  (table_ok w self → inward w w' self) → step_ok w w'.
Proof using coherent.
  intros Hg -> Hself Hn. split; [done|]. intros b Hb Hok.
  destruct (decide (core_lt (core b) = core_lt (core self))) as [El|Hne].
  - assert (Ec : core b = core self) by by apply coherent.
    assert (Hok' : table_ok w self) by (rw /table_ok -Ec; exact Hok).
    pose proof (Hself Hok' Hok') as Hres.
    rw /table_ok /sound /node_slots /fits /node_id /node_mem_vec Ec. exact Hres.
  - assert (Es : tables (set_tables <[core_lt (core self) := t']> w) !! core_lt (core b)
      = tables w !! core_lt (core b)) by (simpl; rw lookup_insert_ne; [by intros ?|done]).
    rw /table_ok /sound /node_slots Es. split_and!; [done..|].
    intros l d e E. exists e. by split; [|left].
Qed.

Lemma on_core_moves {A} self (m : M L A) :
  group self →
  (∀ t r t', lt_wf t → m t = Done (r, t') → lt_wf t' ∧ ∀ l d, slots t' l d = slots t l d) →
  moves step_ok (on_core self m).
Proof using coherent.
  intros Hg Hm w r w' E. rw /on_core /on_table in E.
  destruct (tables w !! core_lt (core self)) as [t|] eqn:Et; [|done].
  destruct (m t) as [[r' t']| |] eqn:Em; simplify_eq.
  apply (inward_table self _ _ t'); [done..|]. intros (t0 & Et0 & Hwf).
  rw Et in Et0. injection Et0 as <-. destruct (Hm t r t' Hwf Em) as [Hwf' Hs]. apply inward_same_slots.
  - exists t'. by rw /= lookup_insert_eq.
  - intros l d. by rw /node_slots /= lookup_insert_eq Et Hs.
Qed.

Lemma on_core_try_link_moves self l d i :
  group self → fits self l d i →
  moves step_ok (on_core self (core_try_link (core self) l d i) : M (World L N) _).
Proof using coherent.
  intros Hg Hf w r w' E. pose proof Hf as (Hl & _).
  destruct (tables w !! core_lt (core self)) as [t|] eqn:Et; last first.
  { by rw /on_core /on_table Et in E. }
  pose proof E as E'. rw /on_core /on_table Et in E'.
  destruct (core_try_link (core self) l d i t) as [[r' t']| |] eqn:Em; simplify_eq.
  apply (inward_table self _ _ t'); [done..|]. intros Hok.
  destruct (on_core_try_link w self l d i Hok Hl) as (t2 & E2 & Hwf & Hs).
  apply (inward_linked self l d i); [done|]. exists t2. split; [|done].
  remember (set_tables <[core_lt (core self) := t']> w) as w1. rw E2 in E. by injection E as _ <-.
Qed.

(** ** Every handler keeps the invariant *)
Lemma group_respectful (network_ops : Network BaseNode (World L N)) self :
  (∀ h i ev, moves step_ok (send_event h i ev)) → group self →
  respectful network_ops step_ok (λ _, True) self.
Proof using coherent.
  intros Htame Hg. split; [| | |done..].
  - intros w w' Et En _ Hn. rw En. split; [done|]. intros b _. by apply inward_same_tables.
  - intros A m Hm. apply on_core_moves; [done|]. intros t r t' Hwf E. by rw (Hm t r t' Hwf E).
  - intros l d i Hf _. by apply on_core_try_link_moves.
Qed.

Lemma group_process_moves (network_ops : Network BaseNode (World L N)) self o ev :
  (∀ h i ev, moves step_ok (send_event h i ev)) → group self →
  moves step_ok (node_process_incoming_event self o ev).
Proof using coherent.
  intros Htame Hg. apply (process_moves network_ops step_ok (λ _, True)).
  - by apply group_respectful.
  - by destruct ev.
Qed.
End safety.

(** Worlds with the same tables, whatever their networks. *)
Section same_tables.
Context `{Oneshot} `{LookupTableSpec L} {N N' : Type}.

Lemma table_ok_tables (w : World L N) (w' : World L N') b : tables w' = tables w → table_ok w b → table_ok w' b.
Proof. intros E. by rw /table_ok E. Qed.

Lemma truthful_tables nodes (w : World L N) (w' : World L N') : tables w' = tables w → truthful nodes w → truthful nodes w'.
Proof. intros E Ht i b Hb. rw /sound /node_slots E. by apply (Ht i b). Qed.
End same_tables.

(** ** Adversarial peers *)
Section adversary.
Context `{Oneshot} `{LookupTableSpec L} {N : Type} {network_ops : Network BaseNode (World L N)}.
Implicit Types (w : World L N).

(** Handles on one table belong to clones of one node. *)
Definition coherent (group : BaseNode → Prop) : Prop :=
  ∀ a b, group a → group b → core_lt (core a) = core_lt (core b) → core a = core b.

(** One thing that can happen: some node handles an event, of any content, from
    anybody, at any time; or waiters, channels or the network change in any way. *)
Inductive adversary_step (group : BaseNode → Prop) w : World L N → Prop :=
| adversary_event self origin ev r w' :
    group self → node_process_incoming_event self origin ev w = Done (r, w') →
    adversary_step group w w'
| adversary_other w' : tables w' = tables w → adversary_step group w w'.

(** C5: whatever peers send, in whatever order and number, and whatever happens to
    waiters, channels and the network in between: every table stays well formed,
    every entry lies on its slot's side of the node at a real level and shares at
    least that many prefix bits with it, a populated slot is never emptied, and an
    entry is only ever replaced by one at least as close to the node. This holds on
    every network that delivers events without touching the tables itself. *)
Theorem peers_cannot_break_tables group w w' b :
  (∀ h i ev w r w', send_event h i ev w = Done (r, w') → tables w' = tables w) →
  coherent group → rtc (adversary_step group) w w' →
  group b → table_ok w b → sound w b →
  table_ok w' b ∧ sound w' b
  ∧ ∀ l d e, node_slots w b l d = Some e →
      ∃ e', node_slots w' b l d = Some e' ∧ reaches d (id e') (id e).
Proof.
  intros Hquiet Hcoh Hsteps Hb Hok Hsound.
  assert (inward w w' b) as (? & ? & ?); [|done|by auto].
  induction Hsteps as [w|w w1 w' Hstep _ IH]; [apply inward_refl|].
  assert (Hin : inward w w1 b).
  { destruct Hstep as [self origin ev r w1 Hself E|w1 E]; [|by apply inward_same_tables].
    apply (group_process_moves group Hcoh (λ _, True) network_ops) in E as [_ Hall]; auto.
    intros h i ev' w2 r2 w2' E2 _. split; [done|]. intros b' _.
    apply inward_same_tables. by eapply Hquiet. }
  destruct (Hin Hok) as (Hok1 & Hs1 & _). eapply inward_trans; [done|]. auto.
Qed.
End adversary.

(** ** The in-memory network *)
Section mock.
Context `{Oneshot} `{LookupTableSpec L}.
Implicit Types (w : World L (MockState BaseNode)).

Definition processors_in (group : BaseNode → Prop) (s : MockState BaseNode) : Prop :=
  ∀ n c p, mocks s !! n = Some c → mock_processor c = Some p → group p.

(** A send changes the world only through the one processor it reaches. *)
Lemma mock_send_cases (e : EventProcessorCore BaseNode (World L (MockState BaseNode))) h i ev w r w' :
  @send_event _ _ (mock_with e) h i ev w = Done (r, w') →
  w' = w ∨ ∃ n c p o r', mocks (network w) !! n = Some c ∧ mock_processor c = Some p
    ∧ @process_incoming_event _ _ e p o ev w = Done (r', w').
Proof.
  rw /= /mock_send_event /route_event /incoming_event /mbind /M_bind /map_err /read_mock /read_hub.
  destruct (mocks (network w) !! h) as [c|]; [|done]. simpl.
  destruct (hubs (network w) !! mock_hub c) as [ms|]; [|done]. simpl.
  destruct (ms !! i) as [n|]; [|intros [= _ <-]; by left].
  destruct (mocks (network w) !! n) as [c'|] eqn:Ec; [|done]. simpl.
  destruct (mock_processor c') as [p|] eqn:Ep; [|intros [= _ <-]; by left].
  destruct (process_incoming_event p (mock_id c) ev w) as [[[a|x] w2]| |] eqn:E; [| |done..];
    intros [= _ <-]; right; by eexists _, _, _, _, _.
Qed.

Lemma mock_process_moves group net_ok n p o ev :
  coherent group → (∀ s, net_ok s → processors_in group s) → group p →
  moves (step_ok group net_ok)
    (@process_incoming_event _ _ (mock_processor_at n) p o ev : M (World L _) ()).
Proof.
  intros Hcoh Hin. revert p o ev. induction n as [|n IH]; intros p o ev Hg; [by intros w r w' [=]|].
  apply group_process_moves; [done| |done]. intros h i e w r w' E Hn.
  apply mock_send_cases in E as [->|(m & c & p' & o' & r' & Ec & Ep & E)].
  - split; [done|]. intros b _. apply inward_refl.
  - apply (IH p' o' e (Hin _ Hn _ _ _ Ec Ep) _ _ _ E Hn).
Qed.

(** On the in-memory network, where handling one event may run the handlers of any
    number of other nodes before it returns, an event with any content sent from
    anywhere to anywhere keeps the tables' invariant, and what holds of the network. *)
Lemma mock_send_moves group net_ok n h i ev :
  coherent group → (∀ s, net_ok s → processors_in group s) →
  moves (step_ok group net_ok) (@send_event _ _ (mock_network n) h i ev : M (World L _) ()).
Proof.
  intros Hcoh Hin w r w' E Hn.
  apply mock_send_cases in E as [->|(m & c & p & o & r' & Ec & Ep & E)].
  - split; [done|]. intros b _. apply inward_refl.
  - by apply (mock_process_moves group net_ok n p o ev Hcoh Hin (Hin _ Hn _ _ _ Ec Ep) _ _ _ E).
Qed.
End mock.

(** ** Concrete instances *)
Module SafetySample.
Import NodeSample.
(** A peer claims the level-3 right slot for node 9. *)
Definition claim : Event :=
  GetLinkOp (MkLinkReq (MkNonce 1) (Sample.node x09 x00) Right 3).
Definition after : World ArrayLookupTable.InnerArrayLookupTable (list (loc * Identifier * Event)) :=
  match @node_process_incoming_event _ _ _ _ posting node (Sample.ident x09) claim start with
  | Done (_, w) => w
  | _ => start
  end.

Lemma node_coherent : coherent (λ b, b = node).
Proof. by intros a b -> ->. Qed.

Lemma start_sound : sound start node.
Proof. intros l d e E. change (array_slots ArrayLookupTable.new l d = Some e) in E. by rw new_slots in E. Qed.

Lemma overlay_coherent : coherent (λ b, ∃ i, OverlaySample.nodes !! i = Some b).
Proof.
  intros a b [i Hi] [j Hj] E.
  assert (Hij : i = j) by (eapply ov_own_table; [apply OverlaySample.world_overlay|done..]).
  rw Hij in Hi. congruence.
Qed.

Lemma overlay_processors :
  processors_in (λ b, ∃ i, OverlaySample.nodes !! i = Some b) (network OverlaySample.world).
Proof.
  intros n c p Ec Ep.
  assert (Hall : Forall (λ p, OverlaySample.nodes !! node_id p = Some p)
    (omap (λ x, mock_processor x.2) (map_to_list (mocks (network OverlaySample.world)))))
    by decided.
  rw Forall_forall in Hall. exists (node_id p). apply Hall, list_elem_of_omap.
  exists (n, c). split; [by apply elem_of_map_to_list|exact Ep].
Qed.

Lemma overlay_sound i b : OverlaySample.nodes !! i = Some b → sound OverlaySample.world b.
Proof.
  intros Hb l d e E.
  destruct (table_ok_slots OverlaySample.world b) as (t & _ & Hwf & Es);
    [by eapply ov_table, Hb; apply OverlaySample.world_overlay|].
  rw Es in E. apply elem_of_populated in E; [|done]. rw -Es in E.
  assert (Hall : Forall (λ p : nat * Identity, fits b p.1 d p.2)
    (populated (node_slots OverlaySample.world b) d)).
  { clear -Hb. revert i b Hb. refine (OverlaySample.nodes_cases _ _ _ _ _); destruct d; decided. }
  rw Forall_forall in Hall. apply (Hall _ E).
Qed.
End SafetySample.

Lemma peers_cannot_break_tables_witness :
  table_ok SafetySample.after NodeSample.node
  ∧ sound SafetySample.after NodeSample.node
  ∧ node_slots SafetySample.after NodeSample.node 3 Right = Some (Sample.node x09 x00).
Proof.
  destruct (@peers_cannot_break_tables _ _ _ _ _ NodeSample.posting (λ b, b = NodeSample.node)
    NodeSample.start SafetySample.after NodeSample.node) as (Hok & Hs & _).
  - intros h i ev w r w' E. by injection E as _ <-.
  - apply SafetySample.node_coherent.
  - eapply rtc_once, (adversary_event _ _ NodeSample.node (Sample.ident x09) SafetySample.claim (Ok tt));
      [done|vm_compute; reflexivity].
  - done.
  - apply NodeSample.start_ok.
  - apply SafetySample.start_sound.
  - split_and!; [done..|vm_compute; reflexivity].
Defined.
