(* ===== verification/Linking.v ===== *)
(** * Linking over the in-memory network

    A link request is forwarded inward until it reaches the node whose slot is the
    right place for the candidate; that node takes the candidate, and the candidate
    takes that node. *)
From S2P Require Import Prelude Bytes Model LookupTable Core World BaseNode Hub Overlay Handlers Routing Safety.
From S2P Require Import Identifier.

Section linking.
Context `{Oneshot} `{LookupTableSpec L}.
Abbreviation W := (World L (MockState BaseNode)) (only parsing).
Implicit Types (w : W) (b self : BaseNode).

(** Only tables differ. *)
Definition same_but_tables w w' : Prop :=
  waiters w' = waiters w ∧ chans w' = chans w ∧ network w' = network w.

Lemma slot_linked_same self l d i w w' : slot_linked self l d i w w' → same_but_tables w w'.
Proof. by intros (t' & -> & _). Qed.

Lemma slot_linked_overlay hub nodes self l d i w w' :
  overlay hub nodes w → nodes !! node_id self = Some self → slot_linked self l d i w w' →
  overlay hub nodes w'.
Proof.
  intros [Hr Ht Ho Hw] Hself (t' & -> & Hwf & _). split; [|..|done|done].
  - intros j b Hb. destruct (Hr j b Hb) as [? ? ?]. by split.
  - intros j b Hb. destruct (decide (core_lt (core b) = core_lt (core self))) as [E|Hne].
    + exists t'. by rw E /= lookup_insert_eq.
    + destruct (Ht j b Hb) as (t & Et & ?). exists t. split; [|done].
      simpl. rw lookup_insert_ne; [by intros ?|done].
Qed.

Lemma slot_linked_others hub nodes self l d i w w' j b :
  overlay hub nodes w → nodes !! node_id self = Some self → nodes !! j = Some b →
  j ≠ node_id self → slot_linked self l d i w w' →
  node_slots w' b = node_slots w b.
Proof.
  intros Hov Hself Hb Hne (t' & -> & _). rw /node_slots /= lookup_insert_ne; [|done].
  intros E. apply Hne. by eapply (ov_own_table _ _ _ Hov).
Qed.

(** One forwarding hop of a request for [candidate]. *)
Definition hop_inward (nodes : gmap Identifier BaseNode) w l d (candidate : Identity)
    (a b : BaseNode) : Prop :=
  nodes !! node_id a = Some a ∧
  ∃ e, node_slots w a l d = Some e ∧ beyond d (id e) (id candidate) ∧ id e = node_id b.

(** What the exchange leaves in the tables. *)
Definition slots_after w (y c : BaseNode) l d (candidate : Identity) (yi : Identity)
    (b : BaseNode) : Contents :=
  if decide (b = y) then set_slot l d (Some candidate) (node_slots w b)
  else if decide (b = c) then
    set_slot l (opposite d) (linked_slot (node_slots w b l (opposite d)) (opposite d) yi)
      (node_slots w b)
  else node_slots w b.

(** A node's own identity, with the address of its mock network. *)
Definition mock_identity b w : Identity :=
  MkIdentity (node_id b) (node_mem_vec b) (mock_address (net b) w).

Definition link_reply (req : LinkReq) (y : Identity) : LinkRes :=
  MkLinkRes (lq_nonce req) (opposite (lq_dir req)) (lq_level req) (Some y).

(** The tables of [nodes] have the same entries. *)
Definition same_slots (nodes : gmap Identifier BaseNode) w w' : Prop :=
  ∀ j b, nodes !! j = Some b → ∀ l d, node_slots w' b l d = node_slots w b l d.

Lemma same_slots_truthful nodes w w' :
  same_slots nodes w w' → truthful nodes w → truthful nodes w'.
Proof.
  intros Hs Ht j b Hb. destruct (Ht j b Hb) as [Hsound Hknown]. split.
  - intros l d e. rw (Hs j b Hb). apply Hsound.
  - intros l d e. rw (Hs j b Hb). apply Hknown.
Qed.

Lemma same_slots_path nodes w w' l d i a b :
  same_slots nodes w w' → rtc (hop_inward nodes w' l d i) a b →
  rtc (hop_inward nodes w l d i) a b.
Proof.
  intros Hs. induction 1 as [a|a b c (Ha & e & E & ? & ?) _ IH]; [done|].
  eapply rtc_l; [|exact IH]. split; [done|]. exists e. by rw -(Hs _ a Ha).
Qed.

Lemma same_slots_after nodes w w' y c l d i yi j b l' d' :
  same_slots nodes w w' → nodes !! j = Some b →
  slots_after w' y c l d i yi b l' d' = slots_after w y c l d i yi b l' d'.
Proof.
  intros Hs Hb. rw /slots_after. case_decide; [|case_decide]; rw /set_slot ?(Hs j b Hb); done.
Qed.

Lemma linked_slot_here s d (i : Identity) :
  (∀ e, s = Some e → ¬ beyond d (id e) (id i)) → linked_slot s d i = Some i.
Proof.
  intros Hnb. rw /linked_slot /link_decision. destruct s as [e|]; [|done].
  case_decide; [|done]. by destruct (Hnb e).
Qed.

(** The end of the path: the responder takes the candidate and the candidate the
    responder. *)
Lemma link_accepted hub nodes req c n x o w :
  overlay hub nodes w →
  nodes !! id (lq_candidate req) = Some c → describes (lq_candidate req) c →
  nodes !! node_id x = Some x → fits x (lq_level req) (lq_dir req) (lq_candidate req) →
  (∀ e, node_slots w x (lq_level req) (lq_dir req) = Some e →
     ¬ beyond (lq_dir req) (id e) (id (lq_candidate req))) →
  ∃ w2, @node_process_incoming_event _ _ _ _ (mock_network (S n)) x o (GetLinkOp req) w
      = Done (Ok tt, resolved c (lq_nonce req) (SetLinkOp (link_reply req (mock_identity x w))) w2)
    ∧ same_but_tables w w2
    ∧ ∀ j b, nodes !! j = Some b → table_ok w2 b ∧ ∀ l d,
        node_slots w2 b l d = slots_after w x c (lq_level req) (lq_dir req) (lq_candidate req)
          (mock_identity x w) b l d.
Proof.
  intros Hov Hc Hdesc Hx Hf Hnb. set (l := lq_level req) in *. set (d := lq_dir req) in *.
  set (i := lq_candidate req) in *.
  set (yi := mock_identity x w).
  destruct (@get_link_accepted _ _ _ _ _ (mock_network (S n)) x req w) as (w1 & Hlk & _ & Eh);
    [by eapply ov_table|done..|].
  pose proof (slot_linked_same _ _ _ _ _ _ Hlk) as (Ew & Ec & En).
  pose proof (slot_linked_overlay hub nodes _ _ _ _ _ _ Hov Hx Hlk) as Hov1.
  pose proof Hf as (Hl & Hbe & Hp). destruct Hdesc as [Eid Emv].
  assert (Hfc : fits c l (opposite d) yi).
  { split_and!; [done| |].
    - apply beyond_opposite. by rw -Eid.
    - by rw -Emv MemVec.common_prefix_bit_sym. }
  destruct (set_link_resolved c (link_reply req yi) w1)
    as (w2 & Ha & Es); [by eapply ov_table|].
  rw /applied /= decide_True in Ha; [done|].
  assert (Hne : node_id c ≠ node_id x) by (rw -Eid; by apply not_eq_sym, (beyond_neq d)).
  assert (Hc' : nodes !! node_id c = Some c) by by rw -Eid.
  pose proof (slot_linked_overlay hub nodes _ _ _ _ _ _ Hov1 Hc' Ha) as Hov2.
  exists w2. split_and!.
  - cbn [node_process_incoming_event]. rw Eh. apply map_err_ok.
    apply (send_registered_ok hub _ _ (node_id x) x _ c); [by eapply ov_registered..|].
    cbn [node_process_incoming_event]. rw -Es /link_reply /yi /mock_identity /self_identity /=.
    by rw /mock_address En.
  - destruct (slot_linked_same _ _ _ _ _ _ Ha) as (E1 & E2 & E3).
    by rw /same_but_tables E1 E2 E3.
  - intros j b Hb. split; [by eapply ov_table|]. intros l' d'.
    assert (Hjb : j = node_id b) by (symmetry; by eapply reg_id, ov_registered).
    rw /slots_after. case_decide as Hbx; [|case_decide as Hbc].
    + subst b. rw (slot_linked_others hub nodes c _ _ _ _ _ j x Hov1 Hc' Hb _ Ha);
        [rw Hjb; by apply not_eq_sym|].
      rw (slot_linked_slots _ _ _ _ _ _ _ _ Hlk) (linked_slot_here _ _ _ Hnb). done.
    + subst b. rw (slot_linked_slots _ _ _ _ _ _ _ _ Ha).
      rw (slot_linked_others hub nodes x _ _ _ _ _ j c Hov Hx Hb _ Hlk); [by rw Hjb|done].
    + rw (slot_linked_others hub nodes c _ _ _ _ _ j b Hov1 Hc' Hb _ Ha).
      { intros ->. apply Hbc. congruence. }
      rw (slot_linked_others hub nodes x _ _ _ _ _ j b Hov Hx Hb _ Hlk); [|done].
      intros ->. apply Hbx. congruence.
Qed.

(** The whole path, by induction on the nodes between the receiver and the candidate. *)
Definition link_done (nodes : gmap Identifier BaseNode) req c x w (res : outcome (result () * W)) : Prop :=
  ∃ y w2, rtc (hop_inward nodes w (lq_level req) (lq_dir req) (lq_candidate req)) x y
    ∧ nodes !! node_id y = Some y
    ∧ fits y (lq_level req) (lq_dir req) (lq_candidate req)
    ∧ (∀ e, node_slots w y (lq_level req) (lq_dir req) = Some e →
         ¬ beyond (lq_dir req) (id e) (id (lq_candidate req)))
    ∧ res = Done (Ok tt, resolved c (lq_nonce req) (SetLinkOp (link_reply req (mock_identity y w))) w2)
    ∧ same_but_tables w w2
    ∧ ∀ j b, nodes !! j = Some b → table_ok w2 b ∧ ∀ l d,
        node_slots w2 b l d = slots_after w y c (lq_level req) (lq_dir req) (lq_candidate req)
          (mock_identity y w) b l d.

(** A forwarding node's table stays as it was, and so do all others. *)
Lemma forwarded_same_slots hub nodes x l d i w w1 :
  overlay hub nodes w → nodes !! node_id x = Some x → slot_linked x l d i w w1 →
  (∀ l' d', node_slots w1 x l' d' = node_slots w x l' d') → same_slots nodes w w1.
Proof.
  intros Hov Hx Hlk Hs j a Ha l' d'. destruct (decide (j = node_id x)) as [->|Hne].
  - rw Hx in Ha. injection Ha as <-. apply Hs.
  - by rw (slot_linked_others hub nodes x _ _ _ _ _ j a Hov Hx Ha Hne Hlk).
Qed.

Lemma link_handled hub nodes req c n x o w :
  overlay hub nodes w → truthful nodes w →
  nodes !! id (lq_candidate req) = Some c → describes (lq_candidate req) c →
  nodes !! node_id x = Some x → fits x (lq_level req) (lq_dir req) (lq_candidate req) →
  size (ahead (dom nodes) (lq_dir req) (node_id x) (id (lq_candidate req))) ≤ n →
  link_done nodes req c x w
    (@node_process_incoming_event _ _ _ _ (mock_network (S n)) x o (GetLinkOp req) w).
Proof.
  revert x o w. induction n as [n IH] using lt_wf_ind.
  intros x o w Hov Ht Hc Hdesc Hx Hf Hn.
  destruct (node_slots w x (lq_level req) (lq_dir req)) as [e|] eqn:E; last first.
  { destruct (link_accepted hub nodes req c n x o w) as (w2 & Ep & Hsame & Hslots); [done..|by rw E|].
    exists x, w2. split_and!; try done. by rw E. }
  destruct (decide (beyond (lq_dir req) (id e) (id (lq_candidate req)))) as [Hb|Hnb]; last first.
  { destruct (link_accepted hub nodes req c n x o w) as (w2 & Ep & Hsame & Hslots);
      [done..|rw E; intros ? [= <-]; exact Hnb|].
    exists x, w2. split_and!; try done. by rw E; intros ? [= <-]. }
  destruct (Ht _ x Hx) as [Hsound Hknown].
  destruct (Hknown _ _ _ E) as (b & Eb & Hdb). pose proof (Hsound _ _ _ E) as Hfe.
  assert (Hlt : size (ahead (dom nodes) (lq_dir req) (id e) (id (lq_candidate req))) < n).
  { eapply Nat.lt_le_trans; [|exact Hn].
    apply ahead_decreases; [by apply elem_of_dom|apply Hfe|by right]. }
  destruct n as [|n]; [lia|].
  destruct (@get_link_forwarded _ _ _ _ _ (mock_network (S (S n))) x req w e)
    as (w1 & Hlk & Hs & Eh); [by eapply ov_table|done..|].
  pose proof (slot_linked_overlay hub nodes _ _ _ _ _ _ Hov Hx Hlk) as Hov1.
  pose proof (slot_linked_same _ _ _ _ _ _ Hlk) as (Ew & Ec & En).
  assert (Hss : same_slots nodes w w1) by by eapply forwarded_same_slots.
  destruct Hdb as [Eid Emv]. rw Eid in Eb. rw Eid in Hlt.
  destruct (IH n ltac:(lia) b (node_id x) w1) as (y & w2 & Hpath & Hy & Hfy & Hnb & Ep & Hsame & Hslots);
    [done|by eapply same_slots_truthful|done..| |lia|].
  { apply (forward_fits x _ _ _ e); done. }
  assert (Eyi : mock_identity y w1 = mock_identity y w) by (by rw /mock_identity /mock_address En).
  exists y, w2. split_and!; try done.
  - eapply rtc_l; [|by eapply same_slots_path]. split; [done|]. exists e. split_and!; done.
  - intros e' Ee'. apply Hnb. by rw (Hss _ y Hy).
  - cbn [node_process_incoming_event]. rw Eh. apply map_err_ok. rw Eid.
    apply (send_registered_ok hub _ _ (node_id x) x _ b); [by eapply ov_registered..|].
    by rw Ep Eyi.
  - destruct Hsame as (E1 & E2 & E3). by rw /same_but_tables E1 E2 E3.
  - intros j a Ha. destruct (Hslots j a Ha) as [? Hsl]. split; [done|]. intros l d.
    by rw Hsl Eyi; apply (same_slots_after nodes _ _ _ _ _ _ _ _ j).
Qed.
End linking.

Section theorem.
Context `{Oneshot} `{LookupTableSpec L}.
Implicit Types (w : World L (MockState BaseNode)).

(** C14: a link request sent to any node of the hub where the candidate fits
    terminates without error, within a depth bounded by the number of nodes, whatever
    the tables hold as long as they are truthful (no list needs to be consistent).
    It is forwarded along entries that lie strictly before the candidate, every one
    of them accepting it, up to the first node whose slot is empty or at or past the
    candidate. That node alone takes the candidate into its slot; the candidate takes
    the nearer of its current entry and that node into its mirrored slot, and its
    waiter is resolved if it asked about that slot. No other entry, waiter, channel
    or registration changes. *)
Theorem link_request_finds_its_place hub nodes w fuel a sender x req c :
  overlay hub nodes w → truthful nodes w →
  nodes !! id (lq_candidate req) = Some c → describes (lq_candidate req) c →
  nodes !! sender = Some a → nodes !! node_id x = Some x →
  fits x (lq_level req) (lq_dir req) (lq_candidate req) → size nodes + 2 ≤ fuel →
  ∃ y w2,
    rtc (hop_inward nodes w (lq_level req) (lq_dir req) (lq_candidate req)) x y
    ∧ fits y (lq_level req) (lq_dir req) (lq_candidate req)
    ∧ (∀ e, node_slots w y (lq_level req) (lq_dir req) = Some e →
         reaches (lq_dir req) (id (lq_candidate req)) (id e))
    ∧ @send_event _ _ (mock_network fuel) (net a) (node_id x) (GetLinkOp req) w
        = Done (Ok tt, resolved c (lq_nonce req) (SetLinkOp (link_reply req (mock_identity y w))) w2)
    ∧ same_but_tables w w2
    ∧ ∀ j b, nodes !! j = Some b → ∀ l d,
        node_slots w2 b l d = slots_after w y c (lq_level req) (lq_dir req) (lq_candidate req)
          (mock_identity y w) b l d.
Proof.
  intros Hov Ht Hc Hdesc Ha Hx Hf Hfuel. destruct fuel as [|[|n]]; [lia..|].
  destruct (link_handled hub nodes req c n x sender w)
    as (y & w2 & Hpath & Hy & Hfy & Hnb & Ep & Hsame & Hslots); try done.
  { etrans; [apply ahead_size|]. rw size_dom. lia. }
  exists y, w2. split_and!; try done.
  - intros e E. apply not_beyond. by apply Hnb.
  - apply (send_registered_ok hub _ _ sender a _ x); [by eapply ov_registered..|done].
  - intros j b Hb. by apply (Hslots j b).
Qed.
End theorem.

Lemma overlay_truthful : truthful OverlaySample.nodes OverlaySample.world.
Proof.
  intros i b Hb. split; [by eapply SafetySample.overlay_sound|]. intros l d e E.
  destruct (table_ok_slots OverlaySample.world b) as (t & _ & Hwf & Es);
    [by eapply ov_table, Hb; apply OverlaySample.world_overlay|].
  rw Es in E. apply elem_of_populated in E; [|done]. rw -Es in E.
  assert (Hall : Forall (λ p : nat * Identity,
      p.2 ∈ [OverlaySample.n2; OverlaySample.n5; OverlaySample.n9])
    (populated (node_slots OverlaySample.world b) d)).
  { clear -Hb. revert i b Hb. refine (OverlaySample.nodes_cases _ _ _ _ _); destruct d; decided. }
  rw Forall_forall in Hall. specialize (Hall _ E). simpl in Hall.
  rw !elem_of_cons in Hall. destruct Hall as [->|[->|[->|[]%not_elem_of_nil]]].
  - eexists. split; [apply OverlaySample.n2_node|done].
  - eexists. split; [apply OverlaySample.n5_node|done].
  - eexists. split; [apply OverlaySample.n9_node|done].
Qed.

(** Node 9 asks node 2 for a place on its right at level 0; the request is forwarded. *)
Lemma link_request_finds_its_place_witness :
  let req := MkLinkReq (MkNonce 3) OverlaySample.n9 Right 0 in
  ∃ y w2, hop_inward OverlaySample.nodes OverlaySample.world 0 Right OverlaySample.n9
      (OverlaySample.node 0 OverlaySample.n2) (OverlaySample.node 1 OverlaySample.n5)
    ∧ @send_event _ _ (mock_network 6) 2 (id OverlaySample.n2) (GetLinkOp req) OverlaySample.world
        = Done (Ok tt, resolved (OverlaySample.node 2 OverlaySample.n9) (MkNonce 3)
            (SetLinkOp (link_reply req (mock_identity y OverlaySample.world))) w2).
Proof.
  intros req.
  destruct (link_request_finds_its_place 0 OverlaySample.nodes OverlaySample.world 6
    (OverlaySample.node 2 OverlaySample.n9) (id OverlaySample.n9)
    (OverlaySample.node 0 OverlaySample.n2) req (OverlaySample.node 2 OverlaySample.n9))
    as (y & w2 & _ & _ & _ & E & _).
  - apply OverlaySample.world_overlay.
  - apply overlay_truthful.
  - apply OverlaySample.n9_node.
  - done.
  - apply OverlaySample.n9_node.
  - apply OverlaySample.n2_node.
  - decided.
  - vm_compute. lia.
  - exists y, w2. split; [|exact E]. split; [apply OverlaySample.n2_node|].
    exists OverlaySample.n5. split_and!; [vm_compute; reflexivity|decided|reflexivity].
Defined.
