(* ===== verification/HubSafety.v ===== *)
(** * Any event on the in-memory network ([src/network/mock])

    The hub handles an event inside the sender's call, and the handler may send another:
    nothing in the code bounds the nesting. Here it is bounded for events of any content,
    also those no node would send: an event sent by any node to any identifier is
    handled within a depth given by the number of nodes, with a result or an error and
    never a panic, and it breaks no table. *)
From S2P Require Import Prelude Bytes Model LookupTable Core World BaseNode Hub Overlay Handlers Routing Safety Linking.
From S2P Require Import Identifier.

#[local] Set Warnings "-register-all".

(** ** Runs that end *)
Section ends.
Context {S : Type}.

(** The computation ends, with a value or an error. *)
Definition ends {A} (m : M S A) s : Prop := ∃ r s', m s = Done (r, s').

Lemma ends_map_err {A} f (m : M S A) s : ends m s → ends (map_err f m) s.
Proof. intros (r & s' & E). rw /ends /map_err E. by destruct r; eexists _, _. Qed.

Lemma ends_bind {A B} (m : M S A) (k : A → M S B) s :
  ends m s → (∀ a s', m s = Done (Ok a, s') → ends (k a) s') → ends (m ≫= k) s.
Proof.
  intros ([a|e] & s' & E) Hk; rw /ends /mbind /M_bind E; [by apply Hk|]. by eexists _, _.
Qed.
End ends.
#[local] Hint Resolve ends_map_err : core.

(** ** Nodes that have a hub to themselves *)
Section hub.
Context `{Oneshot} `{LookupTableSpec L} (hub : loc) (nodes : gmap Identifier BaseNode).
Abbreviation W := (World L (MockState BaseNode)) (only parsing).
Implicit Types (w : W) (a b : BaseNode) (ev : Event).

(** The nodes of an overlay, whose tables are sound; the only processors of the hub are
    theirs, each registered under its node's identifier. *)
Record hosted w : Prop := {
  ho_overlay : overlay hub nodes w;
  ho_only j n : (hubs (network w) !! hub) ≫= lookup j = Some n →
    ∃ c, mocks (network w) !! n = Some c ∧ ∀ p, mock_processor c = Some p → nodes !! j = Some p;
  ho_processors n c p : mocks (network w) !! n = Some c → mock_processor c = Some p →
    ∃ i, nodes !! i = Some p;
  ho_sound i b : nodes !! i = Some b → sound w b
}.

Lemma hosted_linked w w' i b l d x :
  hosted w → nodes !! i = Some b → fits b l d x → slot_linked b l d x w w' → hosted w'.
Proof.
  intros [Hov Honly Hproc Hs] Hb Hf Hlk. pose proof (reg_id _ _ _ _ (ov_registered _ _ _ Hov i b Hb)) as Hid.
  subst i. split.
  - by eapply slot_linked_overlay.
  - destruct Hlk as (t' & -> & _). exact Honly.
  - destruct Hlk as (t' & -> & _). exact Hproc.
  - intros j c Hc. destruct (decide (j = node_id b)) as [->|Hne].
    + rw Hb in Hc. injection Hc as <-.
      destruct (inward_linked b l d x w w' Hf Hlk) as (_ & Hkeep & _); [by eapply ov_table|]. by apply Hkeep, (Hs (node_id b)).
    + rw /sound. rw (slot_linked_others hub nodes b l d x w w' j c Hov Hb Hc Hne Hlk). by apply (Hs j).
Qed.

(** A send ends if its handler does. *)
Lemma send_ends n w i a j ev :
  hosted w → nodes !! i = Some a →
  (∀ b, nodes !! j = Some b → ends (@node_process_incoming_event _ _ _ _ (mock_network n) b i ev) w) →
  ends (@send_event _ _ (mock_network (S n)) (net a) j ev) w.
Proof.
  intros Hw Ha Hend. destruct (ov_registered _ _ _ (ho_overlay w Hw) i a Ha) as [_ Hreg (c & Ec & _ & Eh & Eid)].
  apply bind_Some in Hreg as (ms & Ems & _). rw /= /mock_send_event.
  apply ends_bind; [rw /ends /read_mock Ec; by eexists _, _|]. intros c' w' Er.
  rw (read_mock_eq w (net a) c Ec) in Er. injection Er as <- <-. apply ends_map_err. rw /route_event Eh.
  apply ends_bind; [rw /ends /read_hub Ems; by eexists _, _|]. intros ms' w' Er.
  rw (read_hub_eq w hub ms Ems) in Er. injection Er as <- <-.
  destruct (ms !! j) as [m|] eqn:Em; [|by eexists _, _]. apply ends_map_err. rw /incoming_event.
  destruct (ho_only w Hw j m) as (cm & Ecm & Hp); [by rw Ems|].
  apply ends_bind; [rw /ends /read_mock Ecm; by eexists _, _|]. intros c' w' Er.
  rw (read_mock_eq w m cm Ecm) in Er. injection Er as <- <-.
  destruct (mock_processor cm) as [p|]; [|by eexists _, _]. apply ends_map_err. rw Eid. by apply Hend, Hp.
Qed.

(** ** How deep an event can go *)

(** A forwarded request has fewer nodes ahead of it; a reply causes nothing. *)
Definition depth (i : Identifier) ev : nat :=
  match ev with
  | SearchByIdRequest req => 2 + size (ahead (dom nodes) (isq_direction req) i (isq_target req))
  | GetLinkOp req => 2 + size (ahead (dom nodes) (lq_dir req) i (id (lq_candidate req)))
  | GetMaxLevelOp _ | GetNeighborOp _ => 2
  | _ => 1
  end.

Lemma depth_bound i ev : depth i ev ≤ size nodes + 2.
Proof.
  assert (Ha : ∀ d j, size (ahead (dom nodes) d i j) ≤ size nodes).
  { intros d j. rw -(size_dom (D := gset Identifier) nodes). apply ahead_size. }
  destruct ev; simpl; try lia; [pose proof (Ha (isq_direction req) (isq_target req))
    |pose proof (Ha (lq_dir req) (id (lq_candidate req)))]; lia.
Qed.

Lemma depth_reply i ev nonce : reply_nonce ev = Some nonce → depth i ev = 1.
Proof. by destruct ev. Qed.

(** Handlers end at depth [n]. *)
Definition handled_at n : Prop := ∀ w i b o ev,
  hosted w → nodes !! i = Some b → depth i ev ≤ S n →
  ends (@node_process_incoming_event _ _ _ _ (mock_network n) b o ev) w.

Section handlers.
Context (n : nat) (Hn : handled_at n).
#[local] Instance deeper : Network BaseNode W := mock_network (S n).
Context (w : W) (i : Identifier) (b : BaseNode) (Hw : hosted w) (Hb : nodes !! i = Some b).
#[local] Set Default Proof Using "Type*".

Lemma node_here : node_id b = i ∧ table_ok w b.
Proof.
  split; [by eapply reg_id, ov_registered, Hb; apply Hw|]. by eapply ov_table, Hb; apply Hw.
Qed.

(** A handler's own send. *)
Lemma onward f w' j ev :
  hosted w' → (∀ b', nodes !! j = Some b' → depth j ev ≤ S n) →
  ends (map_err f (send_event (net b) j ev)) w'.
Proof. intros Hw' Hd. apply ends_map_err, (send_ends n w' i); [done..|]. intros b' Hb'. apply (Hn w' j); [done..|by eapply Hd]. Qed.

Lemma answers f w' j ev nonce :
  hosted w' → reply_nonce ev = Some nonce → ends (map_err f (send_event (net b) j ev)) w'.
Proof. intros Hw' Hr. apply onward; [done|]. intros b' _. rw (depth_reply j ev nonce Hr). lia. Qed.

(** A local read, which changes nothing. *)
Lemma ends_reading {A B} f (m : M L A) (k : A → M W B) :
  (∀ t, lt_wf t → ∃ r, m t = Done (r, t)) → (∀ x, on_core b m w = Done (Ok x, w) → ends (k x) w) →
  ends (x ← map_err f (on_core b m); k x) w.
Proof.
  intros Hm Hk. destruct node_here as [_ (t & Et & Hwf)]. destruct (Hm t Hwf) as [r E].
  assert (Er : on_core b m w = Done (r, w)) by by eapply on_table_read.
  rw /ends /mbind /M_bind /map_err Er. destruct r as [x|x]; [by apply Hk|by eexists _, _].
Qed.

Lemma search_request_ends req o :
  depth i (SearchByIdRequest req) ≤ S (S n) → ends (node_process_incoming_event b o (SearchByIdRequest req)) w.
Proof.
  intros Hd. destruct node_here as [Hid Hok]. cbn [node_process_incoming_event].
  destruct (decide (isq_level req < LOOKUP_TABLE_LEVELS)) as [Hl|Hl]; last first.
  { apply ends_reading.
    - intros t Hwf. destruct (search_by_id_out_of_range (core b) req t Hwf) as [e ->]; [lia|by eexists].
    - intros res E. destruct Hok as (t & Et & Hwf). exfalso. revert E. rw /on_core /on_table Et.
      destruct (search_by_id_out_of_range (core b) req t Hwf) as [e ->]; [lia|done]. }
  destruct (on_core_search w b req Hok Hl) as (r & l & Es & Ha). rw /handle_search_by_id_request.
  rw /ends (bind_ok _ _ _ _ _ (map_err_ok _ _ _ _ _ Es)). cbn [isr_result isr_termination_level].
  case_decide as Hr; [by eapply answers|]. apply onward; [done|]. intros b' Hb'.
  destruct Ha as [(-> & _)|(e & (_ & Ee & Ht) & -> & _)]; [done|].
  destruct (ho_sound w Hw i b Hb _ _ _ Ee) as (_ & Hbe & _). rw Hid in Hbe. simpl in *.
  pose proof (ahead_decreases (dom nodes) _ i (id e) (isq_target req) (elem_of_dom_2 _ _ _ Hb') Hbe Ht). lia.
Qed.

Lemma max_level_request_ends req o : ends (node_process_incoming_event b o (GetMaxLevelOp req)) w.
Proof.
  apply ends_reading; [|intros l _; by eapply answers].
  intros t Hwf. destruct (max_level_value (core b) t Hwf) as (l & E & _). by eexists.
Qed.

Lemma neighbor_request_ends req o : ends (node_process_incoming_event b o (GetNeighborOp req)) w.
Proof.
  apply ends_reading; [|intros x _; by eapply answers]. intros t Hwf. rw /neighbor_entry.
  destruct (decide (nq_level req < LOOKUP_TABLE_LEVELS)) as [Hl|Hl].
  - rw (get_entry_spec t _ _ Hwf Hl). by eexists.
  - destruct (get_entry_oob t (nq_level req) (nq_direction req)) as [e ->]; [lia|by eexists].
Qed.

Lemma link_request_ends req o :
  depth i (GetLinkOp req) ≤ S (S n) → ends (node_process_incoming_event b o (GetLinkOp req)) w.
Proof.
  intros Hd. destruct node_here as [Hid Hok]. cbn [node_process_incoming_event].
  destruct (decide (fits b (lq_level req) (lq_dir req) (lq_candidate req))) as [Hf|Hf]; last first.
  { rw /ends get_link_rejected; [done|]. by eexists _, _. }
  assert ((∃ x, node_slots w b (lq_level req) (lq_dir req) = Some x
      ∧ beyond (lq_dir req) (id x) (id (lq_candidate req)))
    ∨ (∀ x, node_slots w b (lq_level req) (lq_dir req) = Some x →
      ¬ beyond (lq_dir req) (id x) (id (lq_candidate req)))) as [(x & Ex & Hx)|Hno].
  { destruct (node_slots w b _ _) as [x|]; [|by right].
    destruct (decide (beyond (lq_dir req) (id x) (id (lq_candidate req)))); [left; by exists x|right].
    by intros y [= <-]. }
  - destruct (get_link_forwarded b req w x Hok Hf Ex Hx) as (w1 & Hlk & _ & Er). rw /ends Er.
    apply onward; [by eapply hosted_linked|]. intros b' Hb'.
    destruct (ho_sound w Hw i b Hb _ _ _ Ex) as (_ & Hbe & _). rw Hid in Hbe. simpl in *.
    pose proof (ahead_decreases (dom nodes) _ i (id x) (id (lq_candidate req)) (elem_of_dom_2 _ _ _ Hb') Hbe
      ltac:(by right)). lia.
  - destruct (get_link_accepted b req w Hok Hf Hno) as (w1 & Hlk & _ & Er). rw /ends Er.
    eapply answers; [by eapply hosted_linked|done].
Qed.
End handlers.

(** Events that send nothing end at any depth. *)
Lemma quiet_ends n w i b o ev :
  hosted w → nodes !! i = Some b → depth i ev ≤ 1 →
  ends (@node_process_incoming_event _ _ _ _ (mock_network n) b o ev) w.
Proof.
  intros Hw Hb Hd. destruct (reply_nonce ev) as [nonce|] eqn:Er.
  - destruct (@reply_resolved _ _ _ _ _ (mock_network n) b o ev nonce w) as (w1 & E & _);
      [by eapply ov_table, Hb; apply Hw|done|]. by eexists _, _.
  - destruct ev; try done; simpl in Hd; try lia; by eexists _, _.
Qed.

Lemma all_handled n : handled_at n.
Proof.
  induction n as [|n IH]; intros w i b o ev Hw Hb Hd; [by apply (quiet_ends 0 w i)|].
  destruct (decide (depth i ev ≤ 1)) as [Hle|Hgt]; [by apply (quiet_ends (S n) w i)|].
  destruct ev; simpl in Hgt; try lia.
  - by apply (search_request_ends n IH w i).
  - by apply (max_level_request_ends n IH w i).
  - by apply (neighbor_request_ends n IH w i).
  - by apply (link_request_ends n IH w i).
Qed.

(** ** Any events *)

(** What an event leaves: the network, and tables that only moved inward. *)
Lemma send_hosted fuel w i a j ev :
  hosted w → nodes !! i = Some a → size nodes + 2 ≤ fuel →
  ∃ r w', @send_event _ _ (mock_network fuel) (net a) j ev w = Done (r, w')
    ∧ hosted w' ∧ ∀ k b, nodes !! k = Some b → inward w w' b.
Proof.
  intros Hw Ha Hfuel. destruct fuel as [|n]; [lia|].
  destruct (send_ends n w i a j ev Hw Ha) as (r & w' & E).
  { intros b Hb. apply (all_handled n w j); [done..|]. pose proof (depth_bound j ev). lia. }
  exists r, w'. split; [exact E|].
  destruct (mock_send_moves (λ b, ∃ k, nodes !! k = Some b) (λ s, s = network w) (S n) (net a) j ev)
    with w r w' as [Enet Hin]; [| |exact E|done|].
  - intros b c [k Hk] [l Hl] El. assert (k = l) as <- by by eapply ov_own_table; [apply Hw|..].
    rw Hk in Hl. by injection Hl as ->.
  - intros s -> m c p. apply Hw.
  - assert (Hall : ∀ k b, nodes !! k = Some b → inward w w' b) by (intros k b Hb; apply Hin; by exists k).
    split; [|exact Hall]. destruct Hw as [[Hr Ht Ho Hws] Honly Hproc Hs]. split; rw ?Enet; try done.
    + split; [|..|done|done].
      * intros k b Hb. destruct (Hr k b Hb) as [? ? ?]. by split; rw ?Enet.
      * intros k b Hb. by apply (Hall k b Hb), (Ht k).
    + intros k b Hb. apply (Hall k b Hb); [by apply (Ht k)|by apply (Hs k)].
Qed.

(** A sequence of sends, each by a node and to an identifier, whatever they end in. *)
Fixpoint send_all (fuel : nat) (posts : list (BaseNode * Identifier * Event)) (w : W)
    : outcome (list (result ()) * W) :=
  match posts with
  | [] => Done ([], w)
  | (a, j, ev) :: rest =>
      match @send_event _ _ (mock_network fuel) (net a) j ev w with
      | Done (r, w') =>
          match send_all fuel rest w' with
          | Done (rs, w2) => Done (r :: rs, w2)
          | Panicked => Panicked
          | OutOfFuel => OutOfFuel
          end
      | Panicked => Panicked
      | OutOfFuel => OutOfFuel
      end
  end.

(** C33: the in-memory network withstands any events. Handling one runs the handlers of any
    number of nodes inside the sender's call. Nodes are registered on a hub under their
    identifiers, with tables that meet the slot rules; they send any number of events, of
    any content and to any identifiers, known to the hub or not. Each is handled within a
    depth of [size nodes + 2] calls, to a result or an error, never a panic. Afterwards
    every table is well formed, every entry is on its slot's side of its node with the
    slot's prefix, no slot has been emptied, and entries have only moved inward. *)
Theorem hub_withstands_any_events fuel posts w :
  hosted w → size nodes + 2 ≤ fuel → Forall (λ p, ∃ i, nodes !! i = Some p.1.1) posts →
  ∃ rs w', send_all fuel posts w = Done (rs, w') ∧ length rs = length posts
    ∧ ∀ i b, nodes !! i = Some b → table_ok w' b ∧ sound w' b
        ∧ ∀ l d e, node_slots w b l d = Some e →
            ∃ e', node_slots w' b l d = Some e' ∧ reaches d (id e') (id e).
Proof.
  intros Hw Hfuel Hposts.
  assert (Hgo : ∃ rs w', send_all fuel posts w = Done (rs, w') ∧ length rs = length posts
    ∧ ∀ i b, nodes !! i = Some b → inward w w' b).
  { revert w Hw. induction Hposts as [|[[a j] ev] posts [i Ha] _ IH]; intros w Hw.
    - exists [], w. split_and!; [done..|]. intros i b _. apply inward_refl.
    - destruct (send_hosted fuel w i a j ev Hw Ha Hfuel) as (r & w1 & E & Hw1 & Hin1).
      destruct (IH w1 Hw1) as (rs & w2 & E2 & Hlen & Hin2). exists (r :: rs), w2.
      cbn [send_all]. rw E E2 /= Hlen. split_and!; [done..|].
      intros k b Hb. eapply inward_trans; [by apply (Hin1 k)|by apply (Hin2 k)]. }
  destruct Hgo as (rs & w' & E & Hlen & Hin). exists rs, w'. split_and!; [done..|]. intros i b Hb.
  destruct (Hin i b Hb) as (Hok & Hs & He); [by eapply ov_table, Hb; apply Hw|].
  split_and!; [done|apply Hs; by apply (ho_sound w Hw i)|done].
Qed.
End hub.

(** ** Bogus events among the sample nodes *)
Module HubSafetySample.
Import OverlaySample.
Lemma world_hosted : hosted 0 nodes world.
Proof.
  split.
  - exact world_overlay.
  - intros j n Hj. assert (Hall : forallb (λ p : Identifier * loc,
      match mocks (network world) !! p.2 with
      | Some c => match mock_processor c with Some b => bool_decide (nodes !! p.1 = Some b) | None => true end
      | None => false end) (map_to_list (default ∅ (hubs (network world) !! 0))) = true)
      by (vm_compute; reflexivity).
    apply bind_Some in Hj as (ms & Ems & Ej). rw Ems /= in Hall.
    apply Is_true_true_2, forallb_True in Hall. rw Forall_forall in Hall.
    specialize (Hall (j, n) (proj2 (elem_of_map_to_list _ _ _) Ej)). cbn [fst snd] in Hall.
    destruct (mocks (network world) !! n) as [c|]; [|done]. exists c. split; [done|].
    intros p Ep. rw Ep in Hall. by apply bool_decide_unpack in Hall.
  - exact SafetySample.overlay_processors.
  - exact SafetySample.overlay_sound.
Qed.

(** Node 9 tells node 2 that it is on its left, and asks an identifier nobody has for
    the slot at level 300. *)
Definition posts : list (BaseNode * Identifier * Event) :=
  [(node 2 n9, id n2, SetLinkOp (MkLinkRes (MkNonce 1) Left 0 (Some n9)));
   (node 2 n9, Sample.ident x44, GetLinkOp (MkLinkReq (MkNonce 2) n9 Left 300))].
End HubSafetySample.

Lemma hub_withstands_any_events_witness :
  let b := OverlaySample.node 0 OverlaySample.n2 in
  ∃ rs w', send_all 6 HubSafetySample.posts OverlaySample.world = Done (rs, w')
    ∧ table_ok w' b ∧ sound w' b.
Proof.
  intros b. destruct (hub_withstands_any_events 0 OverlaySample.nodes 6 HubSafetySample.posts
    OverlaySample.world) as (rs & w' & E & _ & Hall).
  - exact HubSafetySample.world_hosted.
  - apply Nat.leb_le. vm_compute. reflexivity.
  - repeat constructor; exists (id OverlaySample.n9); exact OverlaySample.n9_node.
  - exists rs, w'. split; [exact E|]. destruct (Hall _ b OverlaySample.n2_node) as (Hok & Hs & _). by split.
Defined.
