(* ===== verification/Async.v ===== *)
(** * Asynchronous operations

    An [async fn] runs until it waits and is resumed later, in a world that may have
    changed; or it is dropped while it waits. A suspended computation lists what it
    waits for, with what each wake-up does, and what dropping it does. *)
From S2P Require Import Prelude Bytes Model LookupTable Core World.

#[local] Set Warnings "-register-all".

(** What wakes a branch: the first poll of a future, or the end of a wait
    ([tokio::time::timeout] around a [oneshot] receiver). *)
Inductive Wake : Type :=
| Started
| Woken (r : Reply)
| Disconnected
| TimedOut.

(** What a branch waits for. *)
Inductive Trigger : Type :=
| Unstarted
| Waiting (rx : loc).

(** How a [timeout(_, rx).await] ended, at its own payload type. *)
Inductive Awaited (A : Type) : Type :=
| Answer (a : A)
| SenderDropped
| Elapsed.
Arguments Answer {_} _.
Arguments SenderDropped {_}.
Arguments Elapsed {_}.

Section async.
Context `{Oneshot} {L N : Type}.
Abbreviation W := (World L N) (only parsing).

Inductive Co (A : Type) : Type :=
| Ready (r : result A)
| Suspended (branches : list (Trigger * (Wake → World L N → outcome (Co A * World L N))))
    (cancel : World L N → World L N).

Definition Async (A : Type) : Type := World L N → outcome (Co A * World L N).
End async.
Arguments Ready {_ _ _ _} _.
Arguments Suspended {_ _ _ _} _ _.
Arguments Async {_} _ _ _.
Arguments Co {_} _ _ _.

(** Resume what [m] left with [f]. *)
Definition next {S A B} (m : outcome (A * S)) (f : A → S → outcome (B * S)) : outcome (B * S) :=
  match m with
  | Done (a, s) => f a s
  | Panicked => Panicked
  | OutOfFuel => OutOfFuel
  end.

Section combinators.
Context `{Oneshot} {L N : Type}.

(** A synchronous part. *)
Definition sync {A} (m : M (World L N) A) : Async L N A := λ w,
  next (m w) (λ r w', Done (Ready r, w')).

(** [?] and [await] in sequence. *)
Fixpoint co_bind {A B} (c : Co L N A) (k : A → Async L N B) : Async L N B := λ w,
  match c with
  | Ready (Ok a) => k a w
  | Ready (Err e) => Done (Ready (Err e), w)
  | Suspended bs cancel =>
      Done (Suspended
        (map (λ '(t, f), (t, λ wk w, next (f wk w) (λ c' w', co_bind c' k w'))) bs) cancel, w)
  end.

#[global] Instance async_ret : MRet (Async L N) := λ A a w, Done (Ready (Ok a), w).
#[global] Instance async_bind : MBind (Async L N) := λ A B k m w,
  next (m w) (λ c w', co_bind c k w').

(** [r?] on a result at hand, and an early [return Err]. *)
Definition async_of {A} (r : result A) : Async L N A := λ w, Done (Ready r, w).
Definition async_fail {A} (e : Error) : Async L N A := async_of (Err e).

(** A local whose [Drop] runs [f] when the scope of [m] ends, by return or drop. *)
Fixpoint co_finally {A} (c : Co L N A) (f : World L N → World L N) : Async L N A := λ w,
  match c with
  | Ready r => Done (Ready r, f w)
  | Suspended bs cancel =>
      Done (Suspended
        (map (λ '(t, g), (t, λ wk w, next (g wk w) (λ c' w', co_finally c' f w'))) bs)
        (λ w, f (cancel w)), w)
  end.
Definition finally {A} (m : Async L N A) (f : World L N → World L N) : Async L N A := λ w,
  next (m w) (λ c w', co_finally c f w').

(** [f] runs when a synchronous part returns early with an error. *)
Definition on_err {A} (f : World L N → World L N) (m : M (World L N) A) : M (World L N) A := λ w,
  match m w with
  | Done (Err e, w') => Done (Err e, f w')
  | r => r
  end.

(** [tokio::time::timeout(timeout, rx).await]: the receiver is dropped with the wait. *)
Definition timeout {A} `{Payload A} (rx : Receiver A) : Async L N (Awaited A) := λ w,
  Done (Suspended
    [(Waiting (receiver_chan rx), λ wk w,
        match wk with
        | Woken r =>
            match of_reply r with
            | Some a => Done (Ready (Ok (Answer a)), drop_receiver rx w)
            | None => Panicked
            end
        | Disconnected => Done (Ready (Ok SenderDropped), drop_receiver rx w)
        | TimedOut => Done (Ready (Ok Elapsed), drop_receiver rx w)
        | Started => Panicked
        end)]
    (drop_receiver rx), w).

(** Calling an [async fn] makes a future; its body starts when it is first polled. *)
Definition unstarted {A} (m : Async L N A) : Co L N A :=
  Suspended [(Unstarted, λ _ w, m w)] (λ w, w).

(** [tokio::join!]: both futures are polled until both are done. *)
Fixpoint co_join {A B} (c1 : Co L N A) : Co L N B → Co L N (result A * result B) :=
  fix inner (c2 : Co L N B) : Co L N (result A * result B) :=
    match c1, c2 with
    | Ready r1, Ready r2 => Ready (Ok (r1, r2))
    | Suspended bs1 cancel1, Ready _ =>
        Suspended
          (map (λ '(t, f), (t, λ wk w, next (f wk w) (λ c1' w', Done (co_join c1' c2, w')))) bs1)
          cancel1
    | Ready _, Suspended bs2 cancel2 =>
        Suspended
          (map (λ '(t, f), (t, λ wk w, next (f wk w) (λ c2' w', Done (inner c2', w')))) bs2)
          cancel2
    | Suspended bs1 cancel1, Suspended bs2 cancel2 =>
        Suspended
          (map (λ '(t, f), (t, λ wk w, next (f wk w) (λ c1' w', Done (co_join c1' c2, w')))) bs1
           ++ map (λ '(t, f), (t, λ wk w, next (f wk w) (λ c2' w', Done (inner c2', w')))) bs2)
          (λ w, cancel2 (cancel1 w))
    end.

Definition join {A B} (f1 : Co L N A) (f2 : Co L N B) : Async L N (result A * result B) := λ w,
  Done (co_join f1 f2, w).

(** ** Running a computation alone

    The branches are polled in order; when none can go on, the first one times out
    (all waits of an operation have the same length). *)
Definition poll_trigger (t : Trigger) (w : World L N) : option Wake :=
  match t with
  | Unstarted => Some Started
  | Waiting rx =>
      match chan_poll rx (chans w) with
      | NotReady => None
      | Received r => Some (Woken r)
      | SenderGone => Some Disconnected
      end
  end.

Fixpoint run {A} (c : Co L N A) (w : World L N) : outcome (result A * World L N) :=
  match c with
  | Ready r => Done (r, w)
  | Suspended bs _ =>
      let timed_out :=
        match bs with
        | (_, f) :: _ => next (f TimedOut w) (λ c' w', run c' w')
        | [] => Panicked
        end in
      (fix first l :=
         match l with
         | [] => timed_out
         | (t, f) :: rest =>
             match poll_trigger t w with
             | Some wk => next (f wk w) (λ c' w', run c' w')
             | None => first rest
             end
         end) bs
  end.

Definition run_alone {A} (m : Async L N A) : M (World L N) A := λ w,
  next (m w) (λ c w', run c w').
End combinators.

(** ** Runs that never wait

    [eager m w r w']: from [w], polled in order, every wait of [m] finds its reply
    already there, and [m] ends with [r] in [w']. *)
Section eager.
Context `{Oneshot} {L N : Type}.
Implicit Types w : World L N.

Inductive settles {A} : Co L N A → World L N → result A → World L N → Prop :=
| settles_ready r w : settles (Ready r) w r w
| settles_step t f rest cancel w wk c w1 r w2 :
    poll_trigger t w = Some wk → f wk w = Done (c, w1) → settles c w1 r w2 →
    settles (Suspended ((t, f) :: rest) cancel) w r w2.

Definition eager {A} (m : Async L N A) w (r : result A) w' : Prop :=
  ∃ c w1, m w = Done (c, w1) ∧ settles c w1 r w'.

Lemma settles_run {A} (c : Co L N A) w r w' : settles c w r w' → run c w = Done (r, w').
Proof.
  induction 1 as [r w|t f rest cancel w wk c w1 r w2 Ht Ef _ IH]; [done|].
  cbn [run]. rw Ht Ef /=. exact IH.
Qed.

Lemma eager_run {A} (m : Async L N A) w r w' : eager m w r w' → run_alone m w = Done (r, w').
Proof. intros (c & w1 & E & Hs). rw /run_alone E /=. by apply settles_run. Qed.

Lemma eager_sync {A} (m : M (World L N) A) w r w' : m w = Done (r, w') → eager (sync m) w r w'.
Proof. intros E. exists (Ready r), w'. rw /sync E. split; [done|constructor]. Qed.

Lemma eager_ret {A} (a : A) w : eager (mret a) w (Ok a) w.
Proof. exists (Ready (Ok a)), w. split; [done|constructor]. Qed.

Lemma settles_bind {A B} (c : Co L N A) (k : A → Async L N B) w a w1 r w2 :
  settles c w (Ok a) w1 → eager (k a) w1 r w2 → eager (co_bind c k) w r w2.
Proof.
  intros Hs (c' & w' & Ek & Hk). remember (Ok a) as ra eqn:Era.
  induction Hs as [ra w|t f rest cancel w wk c w1 ra w3 Ht Ef _ IH]; subst.
  - by exists c', w'.
  - destruct (IH eq_refl Ek) as (c2 & w4 & E2 & Hs2).
    eexists _, w. split; [reflexivity|]. econstructor; [exact Ht|rw Ef; exact E2|exact Hs2].
Qed.

Lemma eager_bind {A B} (m : Async L N A) (k : A → Async L N B) w a w1 r w2 :
  eager m w (Ok a) w1 → eager (k a) w1 r w2 → eager (m ≫= k) w r w2.
Proof.
  intros (c & w' & E & Hs) Hk. destruct (settles_bind c k _ _ _ _ _ Hs Hk) as (c2 & w3 & E2 & H2).
  exists c2, w3. split; [|done]. by rw /mbind /async_bind E.
Qed.

Lemma settles_bind_err {A B} (c : Co L N A) (k : A → Async L N B) w e w1 :
  settles c w (Err e) w1 → eager (co_bind c k) w (Err e) w1.
Proof.
  intros Hs. remember (Err e) as ra eqn:Era.
  induction Hs as [ra w|t f rest cancel w wk c w1 ra w3 Ht Ef _ IH]; subst.
  - exists (Ready (Err e)), w. split; [done|constructor].
  - destruct (IH eq_refl) as (c2 & w4 & E2 & Hs2).
    eexists _, w. split; [reflexivity|]. econstructor; [exact Ht|rw Ef; exact E2|exact Hs2].
Qed.

Lemma eager_bind_err {A B} (m : Async L N A) (k : A → Async L N B) w e w1 :
  eager m w (Err e) w1 → eager (m ≫= k) w (Err e) w1.
Proof.
  intros (c & w' & E & Hs). destruct (settles_bind_err c k _ _ _ Hs) as (c2 & w3 & E2 & H2).
  exists c2, w3. split; [|done]. by rw /mbind /async_bind E.
Qed.

Lemma settles_finally {A} (c : Co L N A) f w r w1 :
  settles c w r w1 → eager (co_finally c f) w r (f w1).
Proof.
  induction 1 as [r w|t g rest cancel w wk c w1 r w3 Ht Ef _ IH].
  - exists (Ready r), (f w). split; [done|constructor].
  - destruct IH as (c2 & w4 & E2 & Hs2).
    eexists _, w. split; [reflexivity|]. econstructor; [exact Ht|rw Ef; exact E2|exact Hs2].
Qed.

Lemma eager_finally {A} (m : Async L N A) f w r w1 :
  eager m w r w1 → eager (finally m f) w r (f w1).
Proof.
  intros (c & w' & E & Hs). destruct (settles_finally c f _ _ _ Hs) as (c2 & w3 & E2 & H2).
  exists c2, w3. split; [|done]. by rw /finally E.
Qed.

Lemma eager_timeout {A} `{Payload A} (rx : Receiver A) (a : A) w :
  chan_poll (receiver_chan rx) (chans w) = Received (to_reply a) →
  eager (timeout rx) w (Ok (Answer a)) (drop_receiver rx w).
Proof.
  intros Ep. eexists _, w. split; [reflexivity|].
  eapply (settles_step _ _ _ _ _ (Woken (to_reply a))); [by rw /poll_trigger Ep| |constructor].
  by rw of_to_reply.
Qed.

Lemma settles_join_right {A B} (ra : result A) (c : Co L N B) w rb w1 :
  settles c w rb w1 → settles (co_join (Ready ra) c) w (Ok (ra, rb)) w1.
Proof.
  induction 1 as [r w|t g rest cancel w wk c w1 r w3 Ht Ef _ IH]; [constructor|].
  simpl. econstructor; [exact Ht|by rw Ef|exact IH].
Qed.

Lemma settles_join {A B} (c1 : Co L N A) (c2 : Co L N B) w ra w1 rb w2 :
  settles c1 w ra w1 → settles c2 w1 rb w2 → settles (co_join c1 c2) w (Ok (ra, rb)) w2.
Proof.
  intros H1 H2. induction H1 as [r w|t g rest cancel w wk c w1 r w3 Ht Ef _ IH].
  - by apply settles_join_right.
  - destruct c2 as [rb'|bs2 cancel2]; simpl; (econstructor; [exact Ht|by rw Ef|by apply IH]).
Qed.

Lemma eager_join {A B} (m1 : Async L N A) (m2 : Async L N B) w ra w1 rb w2 :
  eager m1 w ra w1 → eager m2 w1 rb w2 →
  eager (join (unstarted m1) (unstarted m2)) w (Ok (ra, rb)) w2.
Proof.
  intros (c1 & w1' & E1 & H1) (c2 & w2' & E2 & H2). eexists _, w. split; [reflexivity|].
  eapply settles_join; econstructor; try done.
Qed.
End eager.
