(* ===== verification/NodeOps.v ===== *)
(** * The node's blocking operations ([src/node/base_node.rs])

    Each operation registers a waiter under a fresh nonce, sends one request and waits
    for the reply with a timeout; a guard removes the waiter on every way out. Nonces
    the code draws at random are arguments here, and so is whatever another task
    does in the meantime: it is the world the operation is resumed in. *)
From S2P Require Import Prelude Bytes Model LookupTable Core World BaseNode Async.
From S2P Require Import Identifier.

Section ops.
Context `{Oneshot} `{LookupTable L} {N : Type} `{!Network BaseNode (World L N)}.
Abbreviation W := (World L N) (only parsing).
Implicit Types self : BaseNode.

(** The guard of an operation, and the early return of a failed send, which drops the
    guard and then the receiver. *)
Definition guard self (nonce : Nonce) : W → W := guard_drop (request_id_map self) nonce.
Definition send_or_drop {A} self (nonce : Nonce) (rx : Receiver A) (f : Error → Error)
    (dest : Identifier) (event : Event) : M W () :=
  on_err (λ w, drop_receiver rx (guard self nonce w)) (map_err f (send_event (net self) dest event)).

(** The arguments of an error that names a node and a direction. *)
Definition id_debug (i : Identifier) : Arg := ArgBytes (map u8_val (Identifier.to_bytes i)).
Definition dir_debug (d : Direction) : Arg := ArgText (direction_to_string d).

Definition get_max_level self (nonce : Nonce) (introducer : Identifier)
    : Async L N LookupTableLevel :=
  ch ← sync channel;
  let '(tx, rx) := ch in
  _ ← sync (insert_waiter (request_id_map self) nonce (MaxLevel tx));
  _ ← sync (send_or_drop self nonce rx (wrap "failed to send get max level request: {}")
              introducer (GetMaxLevelOp (MkMaxLevelReq nonce (node_id self))));
  finally
    (r ← timeout rx;
     match r with
     | Answer res => mret (mlr_max_level res)
     | SenderDropped => async_fail
         (Anyhow "failed to receive network response for get max level: sender dropped" [])
     | Elapsed => async_fail (Anyhow "timed out waiting for get max level response" [])
     end)
    (guard self nonce).

Definition send_search_by_id_req self (dest : Identifier) (nonce : Nonce) (target : Identifier)
    (level : LookupTableLevel) (direction : Direction) : Async L N IdSearchRes :=
  ch ← sync channel;
  let '(tx, rx) := ch in
  _ ← sync (insert_waiter (request_id_map self) nonce (AsyncSearch tx));
  let req := MkIdSearchReq nonce target (node_id self) level direction in
  _ ← sync (send_or_drop self nonce rx (wrap "failed to send search by id request: {}")
              dest (SearchByIdRequest req));
  finally
    (r ← timeout rx;
     match r with
     | Answer res => mret res
     | SenderDropped => async_fail
         (Anyhow "failed to receive search by id response: sender dropped" [])
     | Elapsed => async_fail (Anyhow "timed out waiting for search by id response" [])
     end)
    (guard self nonce).

(** [BaseNode::search_by_id] *)
Definition node_search_by_id self (req : IdSearchReq) : Async L N IdSearchRes :=
  local_res ← sync (map_err (wrap "failed to perform search by id {}")
                      (on_core self (Core.search_by_id (core self) req)));
  if decide (isr_result local_res = node_id self) then mret local_res
  else send_search_by_id_req self (isr_result local_res) (isq_nonce req) (isq_target req)
         (isr_termination_level local_res) (isq_direction req).

Definition get_neighbor self (nonce : Nonce) (from : Identifier) (direction : Direction)
    (level : LookupTableLevel) : Async L N (option Identity) :=
  ch ← sync channel;
  let '(tx, rx) := ch in
  _ ← sync (insert_waiter (request_id_map self) nonce (Neighbor tx));
  _ ← sync (send_or_drop self nonce rx (wrap "failed to send get neighbor request: {}")
              from (GetNeighborOp (MkNeighborReq nonce (node_id self) level direction)));
  finally
    (r ← timeout rx;
     match r with
     | Answer res => mret (nr_neighbor res)
     | SenderDropped => async_fail
         (Anyhow "failed to receive get neighbor response: sender dropped" [])
     | Elapsed => async_fail (Anyhow "timed out waiting for get neighbor response" [])
     end)
    (guard self nonce).

Definition send_link_request self (nonce : Nonce) (dest : Identifier) (dir : Direction)
    (level : LookupTableLevel) : Async L N () :=
  ch ← sync channel;
  let '(tx, rx) := ch in
  _ ← sync (insert_waiter (request_id_map self) nonce (Link tx level (opposite dir)));
  candidate ← sync (gets (self_identity self));
  _ ← sync (send_or_drop self nonce rx
              (λ e, Anyhow "failed to send get link request to {:?} on {:?}: {}"
                      [id_debug dest; dir_debug dir; ArgErr e])
              dest (GetLinkOp (MkLinkReq nonce candidate dir level)));
  finally
    (r ← timeout rx;
     match r with
     | Answer _ => mret tt
     | SenderDropped => async_fail
         (Anyhow "failed to receive get link response from {:?} on {:?}: sender dropped"
            [id_debug dest; dir_debug dir])
     | Elapsed => async_fail
         (Anyhow "timed out waiting for get link response from {:?} on {:?}"
            [id_debug dest; dir_debug dir])
     end)
    (guard self nonce).

(** The nonces one run of the join draws. *)
Record JoinNonces : Type := MkJoinNonces {
  search_nonce : Nonce;
  neighbor_nonce : Nonce;
  search_link_nonce : Nonce;
  query_link_nonce : Nonce
}.

Definition join_stage1_link_level0 self (nonces : JoinNonces) (introducer : Identifier)
    (max_level : LookupTableLevel) : Async L N () :=
  let own_id := node_id self in
  search_direction ←
    (if id_ltb introducer own_id then mret Right
     else if id_gtb introducer own_id then mret Left
     else async_fail (Anyhow "introducer id collides with this node's own id, cannot determine stage-1 search direction" [])
     : Async L N Direction);
  let query_direction := opposite search_direction in
  search_res ← send_search_by_id_req self introducer (search_nonce nonces) own_id max_level
                 search_direction;
  let search_result := isr_result search_res in
  if decide (search_result = own_id) then
    async_fail (Anyhow "stage-1 search resolved a node with this node's own id, another node already holds it" [])
  else
    query_result ← get_neighbor self (neighbor_nonce nonces) search_result search_direction 0;
    let search_link :=
      send_link_request self (search_link_nonce nonces) search_result search_direction 0 in
    match query_result with
    | Some query_identity =>
        let query_link :=
          send_link_request self (query_link_nonce nonces) (id query_identity) query_direction 0 in
        rs ← join (unstarted search_link) (unstarted query_link);
        let '(search_res, query_res) := rs in
        _ ← async_of search_res;
        async_of query_res
    | None => search_link
    end.
End ops.

(** ** Operations whose reply is there when they wait *)
Section answered.
Context `{Oneshot} `{LookupTable L} {N : Type} `{!Network BaseNode (World L N)}.
Implicit Types (self : BaseNode) (w : World L N).

(** The channel an operation started in [w] gets, and the world it sends its request
    in. *)
Definition new_chan w : loc := (chan_new (chans w)).1.
Definition requested {A} self (nonce : Nonce) (mk : Sender A → Waiter) w : World L N :=
  let w1 := set_chans (λ _, (chan_new (chans w)).2) w in
  drop_waiter (waiter_map (request_id_map self) w1 !! nonce)
    (set_waiter_map (request_id_map self)
       (<[nonce := mk (MkSender (new_chan w))]> (waiter_map (request_id_map self) w1)) w1).

Lemma channel_eq {A} w :
  channel w = Done (Ok (MkSender (new_chan w), MkReceiver (new_chan w)),
                    set_chans (λ _, (chan_new (chans w)).2) w)
  :> outcome (result (Sender A * Receiver A) * World L N).
Proof. rw /channel /new_chan. by destruct (chan_new (chans w)). Qed.

Lemma send_or_drop_ok {A} self nonce (rx : Receiver A) f dest ev w w' :
  send_event (net self) dest ev w = Done (Ok tt, w') →
  send_or_drop self nonce rx f dest ev w = Done (Ok tt, w').
Proof. intros E. by rw /send_or_drop /on_err /map_err E. Qed.

(** The world an answered operation ends in, when its request left [w']. *)
Definition ended {A} self (nonce : Nonce) (rx : Receiver A) w' : World L N :=
  guard self nonce (drop_receiver rx w').

Lemma eager_answer {A B} `{Payload A} self nonce (rx : Receiver A) (a : A)
    (k : Awaited A → Async L N B) w r :
  chan_poll (receiver_chan rx) (chans w) = Received (to_reply a) →
  (∀ w, k (Answer a) w = async_of r w) →
  eager (finally (x ← timeout rx; k x) (guard self nonce)) w r (ended self nonce rx w).
Proof.
  intros Hp Hk. rw /ended. apply eager_finally. eapply eager_bind; [by apply eager_timeout|].
  exists (Ready r), (drop_receiver rx w). split; [apply Hk|constructor].
Qed.

Ltac run_request Hs Hp :=
  eapply eager_bind; [by apply eager_sync, channel_eq|]; cbn beta iota;
  eapply eager_bind; [by apply eager_sync|];
  try (eapply eager_bind; [by apply eager_sync|]);
  eapply eager_bind; [apply eager_sync, send_or_drop_ok; exact Hs|];
  eapply eager_answer; [exact Hp|done].

Lemma search_answered self dest nonce target level d (res : IdSearchRes) w w' :
  send_event (net self) dest
    (SearchByIdRequest (MkIdSearchReq nonce target (node_id self) level d))
    (requested self nonce AsyncSearch w) = Done (Ok tt, w') →
  chan_poll (new_chan w) (chans w') = Received (to_reply res) →
  eager (send_search_by_id_req self dest nonce target level d) w (Ok res)
    (ended self nonce (MkReceiver (A := IdSearchRes) (new_chan w)) w').
Proof. intros Hs Hp. rw /send_search_by_id_req. run_request Hs Hp. Qed.

Lemma max_level_answered self nonce introducer (res : MaxLevelRes) w w' :
  send_event (net self) introducer (GetMaxLevelOp (MkMaxLevelReq nonce (node_id self)))
    (requested self nonce MaxLevel w) = Done (Ok tt, w') →
  chan_poll (new_chan w) (chans w') = Received (to_reply res) →
  eager (get_max_level self nonce introducer) w (Ok (mlr_max_level res))
    (ended self nonce (MkReceiver (A := MaxLevelRes) (new_chan w)) w').
Proof. intros Hs Hp. rw /get_max_level. run_request Hs Hp. Qed.

Lemma neighbor_answered self nonce from d level (res : NeighborRes) w w' :
  send_event (net self) from (GetNeighborOp (MkNeighborReq nonce (node_id self) level d))
    (requested self nonce Neighbor w) = Done (Ok tt, w') →
  chan_poll (new_chan w) (chans w') = Received (to_reply res) →
  eager (get_neighbor self nonce from d level) w (Ok (nr_neighbor res))
    (ended self nonce (MkReceiver (A := NeighborRes) (new_chan w)) w').
Proof. intros Hs Hp. rw /get_neighbor. run_request Hs Hp. Qed.

Lemma link_answered self nonce dest d level (res : LinkRes) w w' :
  let w1 := requested self nonce (λ tx, Link tx level (opposite d)) w in
  send_event (net self) dest (GetLinkOp (MkLinkReq nonce (self_identity self w1) d level)) w1
    = Done (Ok tt, w') →
  chan_poll (new_chan w) (chans w') = Received (to_reply res) →
  eager (send_link_request self nonce dest d level) w (Ok tt)
    (ended self nonce (MkReceiver (A := LinkRes) (new_chan w)) w').
Proof. intros w1 Hs Hp. rw /send_link_request. run_request Hs Hp. Qed.
End answered.

(** ** Every way out of a request *)
Section lifecycle.
Context `{Oneshot} `{LookupTable L} {N : Type} `{!Network BaseNode (World L N)}.
Implicit Types (self : BaseNode) (w : World L N).

(** The errors of an operation: of a failed send, a dropped sender and a timeout. *)
Record Failures : Type := MkFailures {
  send_failed : Error → Error;
  sender_dropped : Error;
  timed_out : Error
}.

(** [m] is a request by [self]: it registers the waiter [mk] under [nonce] for a new
    channel and sends [ev]. If the send fails it ends with that error. Otherwise it
    waits on the channel: an answer ends it with [ok] of the answer, a dropped sender
    or a timeout with the error for it, and it can be dropped. Whichever happens, in
    whatever world, the receiver is dropped and the guard runs. *)
Definition is_request {P A} `{Payload P} self (nonce : Nonce) (mk : Sender P → Waiter)
    (dest : Identifier) (ev : World L N → Event) (ok : P → A) (fs : Failures)
    (m : Async L N A) : Prop :=
  ∀ w, let w1 := requested self nonce mk w in
  let rx := MkReceiver (A := P) (new_chan w) in
  match send_event (net self) dest (ev w1) w1 with
  | Done (Err e, w2) =>
      m w = Done (Ready (Err (send_failed fs e)), drop_receiver rx (guard self nonce w2))
  | Done (Ok _, w2) =>
      ∃ resume cancel,
        m w = Done (Suspended [(Waiting (new_chan w), resume)] cancel, w2)
        ∧ ∀ w3, (∀ a, resume (Woken (to_reply a)) w3
                     = Done (Ready (Ok (ok a)), ended self nonce rx w3))
            ∧ resume Disconnected w3 = Done (Ready (Err (sender_dropped fs)), ended self nonce rx w3)
            ∧ resume TimedOut w3 = Done (Ready (Err (timed_out fs)), ended self nonce rx w3)
            ∧ cancel w3 = ended self nonce rx w3
  | Panicked => m w = Panicked
  | OutOfFuel => m w = OutOfFuel
  end.

Definition max_level_failures : Failures :=
  MkFailures (wrap "failed to send get max level request: {}")
    (Anyhow "failed to receive network response for get max level: sender dropped" [])
    (Anyhow "timed out waiting for get max level response" []).
Definition search_failures : Failures :=
  MkFailures (wrap "failed to send search by id request: {}")
    (Anyhow "failed to receive search by id response: sender dropped" [])
    (Anyhow "timed out waiting for search by id response" []).
Definition neighbor_failures : Failures :=
  MkFailures (wrap "failed to send get neighbor request: {}")
    (Anyhow "failed to receive get neighbor response: sender dropped" [])
    (Anyhow "timed out waiting for get neighbor response" []).
Definition link_failures (dest : Identifier) (dir : Direction) : Failures :=
  MkFailures
    (λ e, Anyhow "failed to send get link request to {:?} on {:?}: {}"
            [id_debug dest; dir_debug dir; ArgErr e])
    (Anyhow "failed to receive get link response from {:?} on {:?}: sender dropped"
       [id_debug dest; dir_debug dir])
    (Anyhow "timed out waiting for get link response from {:?} on {:?}"
       [id_debug dest; dir_debug dir]).

(** A waiter is gone once its operation has ended. *)
Lemma guard_removes self nonce w :
  waiter_map (request_id_map self) (guard self nonce w) !! nonce = None.
Proof.
  by rw /guard /guard_drop drop_waiter_map {1}/waiter_map /= lookup_insert_eq lookup_delete_eq.
Qed.

Lemma sync_bind {A B} (m : M (World L N) A) (k : A → Async L N B) w :
  (sync m ≫= k) w =
    match m w with
    | Done (Ok a, w') => k a w'
    | Done (Err e, w') => Done (Ready (Err e), w')
    | Panicked => Panicked
    | OutOfFuel => OutOfFuel
    end.
Proof. rw /mbind /async_bind /sync. by destruct (m w) as [[[a|e] w']| |]. Qed.

Lemma insert_requested {A} self nonce (mk : Sender A → Waiter) w :
  insert_waiter (request_id_map self) nonce (mk (MkSender (new_chan w)))
    (set_chans (λ _, (chan_new (chans w)).2) w) = Done (Ok tt, requested self nonce mk w).
Proof. done. Qed.

(** Waiting under the guard. *)
Lemma guarded_wait {P A} `{Payload P} self nonce (rx : Receiver P) (k : Awaited P → Async L N A)
    (ok : P → A) (fs : Failures) w2 :
  (∀ a w, k (Answer a) w = Done (Ready (Ok (ok a)), w)) →
  (∀ w, k SenderDropped w = Done (Ready (Err (sender_dropped fs)), w)) →
  (∀ w, k Elapsed w = Done (Ready (Err (timed_out fs)), w)) →
  ∃ resume cancel,
    finally (r ← timeout rx; k r) (guard self nonce) w2
      = Done (Suspended [(Waiting (receiver_chan rx), resume)] cancel, w2)
    ∧ ∀ w3, (∀ a, resume (Woken (to_reply a)) w3 = Done (Ready (Ok (ok a)), ended self nonce rx w3))
        ∧ resume Disconnected w3 = Done (Ready (Err (sender_dropped fs)), ended self nonce rx w3)
        ∧ resume TimedOut w3 = Done (Ready (Err (timed_out fs)), ended self nonce rx w3)
        ∧ cancel w3 = ended self nonce rx w3.
Proof.
  intros Ha Hd He. eexists _, _. split; [reflexivity|]. intros w3. split_and!.
  - intros a. rw of_to_reply. cbn [next co_bind]. by rw Ha.
  - cbn [next co_bind]. by rw Hd.
  - cbn [next co_bind]. by rw He.
  - done.
Qed.

Ltac prove_request :=
  intros w; rw sync_bind channel_eq; cbn beta iota; rw sync_bind;
  match goal with |- context [requested ?self ?nonce ?mk w] =>
    let E := fresh in pose proof (insert_requested self nonce mk w) as E; cbn beta in E; rw E
  end;
  repeat (rw sync_bind; cbn [gets]); rw /send_or_drop /on_err /map_err; cbv zeta;
  destruct (send_event _ _ _ _) as [[[[]|e] w2]| |]; [|done..]; by apply guarded_wait.

Lemma get_max_level_request self nonce introducer :
  is_request self nonce MaxLevel introducer
    (λ _, GetMaxLevelOp (MkMaxLevelReq nonce (node_id self))) mlr_max_level max_level_failures
    (get_max_level self nonce introducer).
Proof. rw /is_request /get_max_level. prove_request. Qed.

Lemma search_request self nonce dest target level d :
  is_request self nonce AsyncSearch dest
    (λ _, SearchByIdRequest (MkIdSearchReq nonce target (node_id self) level d)) (λ res, res)
    search_failures (send_search_by_id_req self dest nonce target level d).
Proof. rw /is_request /send_search_by_id_req. prove_request. Qed.

Lemma get_neighbor_request self nonce from d level :
  is_request self nonce Neighbor from
    (λ _, GetNeighborOp (MkNeighborReq nonce (node_id self) level d)) nr_neighbor
    neighbor_failures (get_neighbor self nonce from d level).
Proof. rw /is_request /get_neighbor. prove_request. Qed.

Lemma link_request self nonce dest d level :
  is_request self nonce (λ tx, Link tx level (opposite d)) dest
    (λ w, GetLinkOp (MkLinkReq nonce (self_identity self w) d level)) (λ _, tt)
    (link_failures dest d) (send_link_request self nonce dest d level).
Proof. rw /is_request /send_link_request. prove_request. Qed.

(** C17: the life of each blocking operation, on any network and whatever the world has
    become whenever it is resumed. It registers exactly one waiter of its own kind
    (for a link, with the mirrored slot) for a new channel before it sends its one
    request. A failed send, an answer, a dropped sender, a timeout and being dropped
    are the only ways out; each gives the result the code names for it, drops the
    receiver and runs the guard, after which the node has no waiter under the
    operation's nonce. *)
Theorem request_lifecycle self nonce dest target level d :
  is_request self nonce MaxLevel dest
    (λ _, GetMaxLevelOp (MkMaxLevelReq nonce (node_id self))) mlr_max_level max_level_failures
    (get_max_level self nonce dest)
  ∧ is_request self nonce AsyncSearch dest
      (λ _, SearchByIdRequest (MkIdSearchReq nonce target (node_id self) level d)) (λ res, res)
      search_failures (send_search_by_id_req self dest nonce target level d)
  ∧ is_request self nonce Neighbor dest
      (λ _, GetNeighborOp (MkNeighborReq nonce (node_id self) level d)) nr_neighbor
      neighbor_failures (get_neighbor self nonce dest d level)
  ∧ is_request self nonce (λ tx, Link tx level (opposite d)) dest
      (λ w, GetLinkOp (MkLinkReq nonce (self_identity self w) d level)) (λ _, tt)
      (link_failures dest d) (send_link_request self nonce dest d level)
  ∧ (∀ A (rx : Receiver A) w,
       waiter_map (request_id_map self) (ended self nonce rx w) !! nonce = None
       ∧ waiter_map (request_id_map self) (drop_receiver rx (guard self nonce w)) !! nonce = None).
Proof.
  split_and!; [apply get_max_level_request|apply search_request|apply get_neighbor_request
              |apply link_request|].
  intros A rx w. split; [apply guard_removes|]. exact (guard_removes self nonce w).
Qed.
End lifecycle.
