(* ===== verification/Join.v ===== *)
(** * Stage 1 of the join

    A joining node, registered on the hub with an empty table, runs
    [join_stage1_link_level0] against a skip graph whose level-0 list is doubly
    linked, and ends up in that list between its two neighbors. *)
From S2P Require Import Prelude Bytes Model LookupTable Core World BaseNode Hub Overlay Handlers Routing Safety Linking Async NodeOps.
From S2P Require Import Identifier.

(** ** Inserting into a doubly linked list *)
Section insertion.
Implicit Types (i j p q own : Identifier) (d : Direction) (members : gset Identifier).

(** [s] gives each member its closest member on either side. *)
Definition linked members (s : Identifier → Direction → option Identifier) : Prop :=
  ∀ i d, i ∈ members →
    match s i d with
    | Some e => e ∈ members ∧ beyond d i e ∧ ∀ j, j ∈ members → beyond d i j → reaches d e j
    | None => ∀ j, j ∈ members → ¬ beyond d i j
    end.

Context members s own p d (Hlinked : linked members s) (Hown : own ∉ members).
Context (Hp : p ∈ members) (Hpo : beyond d p own).
Context (Hclosest : ∀ j, j ∈ members → reaches d j own → reaches d j p).

(** A member past [p] is past [own]. *)
Lemma past_own j : j ∈ members → beyond d p j → beyond d own j.
Proof using Type*.
  intros Hj Hpj. destruct (beyond_total d own j) as [?|[->|Hb]]; [done|done|].
  destruct (Hclosest j Hj) as [->|Hb']; [by right|by destruct (beyond_irrefl _ _ Hpj)|].
  by destruct (beyond_asym _ _ _ Hpj).
Qed.

Lemma reaches_opposite i j : reaches (opposite d) i j ↔ reaches d j i.
Proof using Type. rw /reaches beyond_opposite. by split; (intros [->|?]; [left|right]). Qed.

(** The slots of a member that is neither end of the gap still name its closest
    member. *)
Lemma untouched_slot i d' :
  i ∈ members → (i, d') ≠ (p, d) → (∀ q, s p d = Some q → (i, d') ≠ (q, opposite d)) →
  beyond d' i own →
  match s i d' with Some e => reaches d' e own | None => False end.
Proof using Type*.
  intros Hi Hnp Hnq Hb. pose proof (Hlinked i d' Hi) as Hsi.
  destruct (decide (d' = d)) as [->|Hd].
  - assert (Hip : beyond d i p).
    { destruct (Hclosest i Hi) as [E|?]; [by right| |done]. destruct Hnp. by rw E. }
    destruct (s i d) as [e|]; [|by apply (Hsi p)].
    destruct Hsi as (_ & _ & Hmin). right. apply (reaches_beyond _ _ p); [by apply Hmin|done].
  - assert (d' = opposite d) as -> by (by destruct d, d').
    rw beyond_opposite in Hb. assert (Hpi : beyond d p i) by by apply (beyond_trans _ _ own).
    pose proof (Hlinked p d Hp) as Hsp. destruct (s p d) as [q|] eqn:Eq; [|by destruct (Hsp i)].
    destruct Hsp as (Hq & Hpq & Hminp).
    destruct (Hminp i Hi Hpi) as [->|Hqi]; [by destruct (Hnq i)|].
    assert (Hiq : beyond (opposite d) i q) by by apply beyond_opposite.
    destruct (s i (opposite d)) as [e|]; [|by apply (Hsi q)].
    destruct Hsi as (_ & _ & Hmin). apply reaches_opposite.
    right. apply (beyond_reaches _ _ q); [by apply past_own|]. apply reaches_opposite. by apply Hmin.
Qed.

(** [own] takes its place between [p] and what was past [p]; all else stays. *)
Record inserted (s' : Identifier → Direction → option Identifier) : Prop := {
  ins_p : s' p d = Some own;
  ins_back : s' own (opposite d) = Some p;
  ins_own : s' own d = s p d;
  ins_past q : s p d = Some q → s' q (opposite d) = Some own;
  ins_rest i d' : i ∈ members → (i, d') ≠ (p, d) →
    (∀ q, s p d = Some q → (i, d') ≠ (q, opposite d)) → s' i d' = s i d'
}.

(** What a slot of a linked set holds. *)
Definition closest_slot (all : gset Identifier) i d' (o : option Identifier) : Prop :=
  match o with
  | Some e => e ∈ all ∧ beyond d' i e ∧ ∀ j, j ∈ all → beyond d' i j → reaches d' e j
  | None => ∀ j, j ∈ all → ¬ beyond d' i j
  end.

Lemma joined_cases j : j ∈ ({[own]} ∪ members : gset Identifier) → j = own ∨ j ∈ members.
Proof using Type. by rw elem_of_union elem_of_singleton. Qed.

Lemma own_joined : own ∈ ({[own]} ∪ members : gset Identifier).
Proof using Type. by apply elem_of_union_l, elem_of_singleton. Qed.

(** The slots of [own]. *)
Lemma inserted_own_slot s' d' :
  inserted s' → closest_slot ({[own]} ∪ members) own d' (s' own d').
Proof using Type*.
  intros Hs. pose proof (Hlinked p d Hp) as Hsp. destruct (decide (d' = d)) as [->|Hd].
  - rw (ins_own s' Hs). destruct (s p d) as [q|].
    + destruct Hsp as (Hq & Hpq & Hmin). split_and!; [by apply elem_of_union_r|by apply past_own|].
      intros j [->|Hj]%joined_cases Hoj; [by destruct (beyond_irrefl _ _ Hoj)|].
      apply Hmin; [done|by apply (beyond_trans _ _ own)].
    + intros j [->|Hj]%joined_cases Hoj; [by destruct (beyond_irrefl _ _ Hoj)|].
      apply (Hsp j Hj). by apply (beyond_trans _ _ own).
  - assert (d' = opposite d) as -> by (by destruct d, d'). rw (ins_back s' Hs).
    split_and!; [by apply elem_of_union_r|by apply beyond_opposite|].
    intros j Hj Hoj. apply reaches_opposite. rw beyond_opposite in Hoj.
    apply joined_cases in Hj as [->|Hj]; [by destruct (beyond_irrefl _ _ Hoj)|].
    apply Hclosest; [done|by right].
Qed.

(** The slot of the node past [own], towards it. *)
Lemma inserted_past_slot s' q :
  inserted s' → s p d = Some q →
  closest_slot ({[own]} ∪ members) q (opposite d) (s' q (opposite d)).
Proof using Type*.
  intros Hs Eq. pose proof (Hlinked p d Hp) as Hsp. rw Eq in Hsp. destruct Hsp as (Hq & Hpq & Hmin).
  rw (ins_past s' Hs q Eq).
  split_and!; [apply own_joined|by apply beyond_opposite, past_own|].
  intros j Hj Hqj. apply reaches_opposite. rw beyond_opposite in Hqj.
  apply joined_cases in Hj as [->|Hj]; [by left|].
  apply not_beyond. intros Hoj. apply (beyond_asym d j q); [done|].
  destruct (Hmin j Hj) as [->|?]; [by apply (beyond_trans _ _ own)| |done].
  by destruct (beyond_irrefl _ _ Hqj).
Qed.

(** All other slots. *)
Lemma inserted_other_slot s' i d' :
  inserted s' → i ∈ members → (i, d') ≠ (p, d) →
  (∀ q, s p d = Some q → (i, d') ≠ (q, opposite d)) →
  closest_slot ({[own]} ∪ members) i d' (s' i d').
Proof using Type*.
  intros Hs Hi Hnp Hnq. rw (ins_rest s' Hs i d' Hi Hnp Hnq).
  pose proof (untouched_slot i d' Hi Hnp Hnq) as Hown'.
  pose proof (Hlinked i d' Hi) as Hsi. destruct (s i d') as [e|].
  - destruct Hsi as (He & Hie & Hmin). split_and!; [by apply elem_of_union_r|done|].
    intros j [->|Hj]%joined_cases Hij; auto.
  - intros j [->|Hj]%joined_cases Hij; [auto|]. by apply (Hsi j).
Qed.

Lemma linked_insert (s' : Identifier → Direction → option Identifier) :
  inserted s' → linked ({[own]} ∪ members) s'.
Proof using Type*.
  intros Hs i d' Hi. apply joined_cases in Hi as [->|Hi]; [by apply inserted_own_slot|].
  destruct (decide ((i, d') = (p, d))) as [[= -> ->]|Hnp].
  { rw (ins_p s' Hs). split_and!; [apply own_joined|done|].
    intros j [->|Hj]%joined_cases Hpj; [by left|]. right. by apply past_own. }
  assert (Hcase : (∃ q, s p d = Some q ∧ (i, d') = (q, opposite d))
    ∨ ∀ q, s p d = Some q → (i, d') ≠ (q, opposite d)).
  { destruct (s p d) as [q|]; [|by right].
    destruct (decide ((i, d') = (q, opposite d))) as [E|Hn]; [by left; exists q|].
    right. by intros ? [= <-]. }
  destruct Hcase as [(q & Eq & [= -> ->])|Hnq]; [by apply inserted_past_slot|].
  by apply inserted_other_slot.
Qed.
End insertion.

(** ** One request and its reply *)
Section round_trip.
Context `{OneshotLaws} {L N : Type}.
Implicit Types (self : BaseNode) (w : World L N).

Lemma requested_spec {A} self nonce (mk : Sender A → Waiter) w :
  waiter_map (request_id_map self) w !! nonce = None →
  let w1 := requested self nonce mk w in
  tables w1 = tables w ∧ network w1 = network w
  ∧ waiter_map (request_id_map self) w1
      = <[nonce := mk (MkSender (new_chan w))]> (waiter_map (request_id_map self) w)
  ∧ chan_view (chans w1) !! new_chan w = Some ChanOpen.
Proof.
  intros Hf. rw /requested.
  assert (E : ∀ f, waiter_map (request_id_map self) (set_chans f w)
    = waiter_map (request_id_map self) w) by done.
  rw !E Hf. split_and!; [done..| |].
  - by rw {1}/waiter_map /= lookup_insert_eq.
  - simpl. destruct (chan_new_law (chans w)) as [_ ->]. apply lookup_insert_eq.
Qed.

Lemma resolved_spec self nonce ev w x r :
  waiter_map (request_id_map self) w !! nonce = Some x → resolves ev x = Some r →
  chan_view (chans w) !! waiter_chan x = Some ChanOpen →
  let w1 := resolved self nonce ev w in
  tables w1 = tables w ∧ network w1 = network w
  ∧ waiter_map (request_id_map self) w1 = delete nonce (waiter_map (request_id_map self) w)
  ∧ chan_poll (waiter_chan x) (chans w1) = Received r.
Proof.
  intros Hx Hr Hc. rw /resolved Hx Hr. split_and!; [done..| |].
  - by rw {1}/waiter_map /= lookup_insert_eq.
  - simpl. destruct (chan_send_open_law _ _ r Hc) as [_ Hv].
    pose proof (chan_poll_law (chan_send (waiter_chan x) r (chans w)).2 (waiter_chan x)) as Hp.
    by rw Hv lookup_insert_eq in Hp.
Qed.

Lemma ended_spec {A} self nonce (rx : Receiver A) w :
  waiter_map (request_id_map self) w !! nonce = None →
  let w1 := ended self nonce rx w in
  tables w1 = tables w ∧ network w1 = network w
  ∧ waiter_map (request_id_map self) w1 = waiter_map (request_id_map self) w.
Proof.
  intros Hf. rw /ended /guard /guard_drop.
  assert (E : waiter_map (request_id_map self) (drop_receiver rx w)
    = waiter_map (request_id_map self) w) by done.
  rw E Hf. split_and!; [done..|].
  by rw {1}/waiter_map /= lookup_insert_eq delete_id.
Qed.

(** An operation's request leaves the world [w2] up to the reply [ev]: the operation
    finds the reply, and afterwards only the tables can differ from before. *)
Lemma round_trip {A} self nonce (mk : Sender A → Waiter) ev r w w2 :
  waiter_map (request_id_map self) w !! nonce = None →
  waiter_chan (mk (MkSender (new_chan w))) = new_chan w →
  resolves ev (mk (MkSender (new_chan w))) = Some r →
  waiters w2 = waiters (requested self nonce mk w) →
  chans w2 = chans (requested self nonce mk w) →
  network w2 = network (requested self nonce mk w) →
  let w3 := resolved self nonce ev w2 in
  let w4 := ended self nonce (MkReceiver (A := A) (new_chan w)) w3 in
  chan_poll (new_chan w) (chans w3) = Received r
  ∧ tables w4 = tables w2 ∧ network w4 = network w
  ∧ waiter_map (request_id_map self) w4 = waiter_map (request_id_map self) w.
Proof using Type*.
  intros Hf Hch Hr Ew Ec En.
  destruct (requested_spec self nonce mk w Hf) as (_ & En1 & Em1 & Hv1).
  assert (Em2 : waiter_map (request_id_map self) w2
    = <[nonce := mk (MkSender (new_chan w))]> (waiter_map (request_id_map self) w))
    by (rw {1}/waiter_map Ew; exact Em1).
  destruct (resolved_spec self nonce ev w2 (mk (MkSender (new_chan w))) r)
    as (Et3 & En3 & Em3 & Hp3); [by rw Em2 lookup_insert_eq|done|by rw Hch Ec|].
  destruct (ended_spec self nonce (MkReceiver (A := A) (new_chan w)) (resolved self nonce ev w2))
    as (Et4 & En4 & Em4); [by rw Em3 lookup_delete_eq|].
  split_and!.
  - by rw -{1}Hch.
  - by rw Et4 Et3.
  - by rw En4 En3 En En1.
  - by rw Em4 Em3 Em2 delete_insert_eq delete_id.
Qed.
End round_trip.

(** ** The stages on the in-memory network *)
Section stages.
Context `{OneshotLaws} `{LookupTableSpec L}.
Abbreviation W := (World L (MockState BaseNode)) (only parsing).
Implicit Types (w : W) (b self : BaseNode).

(** [w'] differs from [w] at most in the other nodes' waiters and in channels. *)
Definition settled self w w' : Prop :=
  tables w' = tables w ∧ network w' = network w
  ∧ waiter_map (request_id_map self) w' = waiter_map (request_id_map self) w.

Lemma settled_overlay self hub nodes w w' :
  tables w' = tables w → network w' = network w → overlay hub nodes w → overlay hub nodes w'.
Proof.
  intros Et En [Hr Ht Ho Hw]. split; [| |done|done].
  - intros i b Hb. destruct (Hr i b Hb) as [? ? ?]. by split; rw ?En.
  - intros i b Hb. rw /table_ok Et. by apply (Ht i).
Qed.

Lemma same_tables_slots w w' b : tables w' = tables w → node_slots w' b = node_slots w b.
Proof. intros E. by rw /node_slots E. Qed.

(** The search stage: the answer is the member closest to the target. *)
Lemma search_stage hub nodes members self w n nonce target level d start :
  overlay hub nodes w → entries_on_side nodes members w → linked_level0 nodes members w →
  members ⊆ dom nodes → nodes !! node_id self = Some self →
  waiter_map (request_id_map self) w !! nonce = None →
  start ∈ members → reaches d start target → level < LOOKUP_TABLE_LEVELS →
  size members ≤ n →
  ∃ r l w', let res := MkIdSearchRes nonce target l r in
    closest members d target r ∧ settled self w w'
    ∧ eager (send_search_by_id_req (Network0 := mock_network (S (S n))) self start nonce target level d)
        w (Ok res) w'.
Proof using Type*.
  intros Hov Hside Hlink Hdom Hself Hf Hstart Hreach Hlvl Hn.
  destruct (nodes !! start) as [b|] eqn:Eb; last first.
  { apply not_elem_of_dom in Eb. by destruct Eb; apply Hdom. }
  destruct (requested_spec self nonce AsyncSearch w Hf) as (Et1 & En1 & _ & _).
  set (w1 := requested self nonce AsyncSearch w) in *.
  assert (Hov1 : overlay hub nodes w1) by by eapply (settled_overlay self).
  destruct (search_handled hub nodes members w1 n start b (node_id self)
    (MkIdSearchReq nonce target (node_id self) level d) self)
    as (r & l & w2 & Hc & Er & Ep); try done.
  { intros i b' l d' e. rw (same_tables_slots w w1 _ Et1). apply Hside. }
  { intros i b' d'. rw (same_tables_slots w w1 _ Et1). apply Hlink. }
  { etrans; [apply ahead_size|done]. }
  cbn [isq_direction isq_target isq_nonce] in *.
  rw search_response_resolved in Er. injection Er as Er.
  set (res := MkIdSearchRes nonce target l r) in *.
  destruct (round_trip self nonce AsyncSearch (SearchByIdResponse res) (ReplySearch res) w w1)
    as (Hp & Et & En & Em); try done.
  exists r, l, (ended self nonce (MkReceiver (A := IdSearchRes) (new_chan w))
    (resolved self nonce (SearchByIdResponse res) w1)).
  split; [done|]. split; [|eapply search_answered].
  - split_and!; [by rw Et|done|done].
  - apply (send_registered_ok hub _ _ (node_id self) _ _ b); [by eapply ov_registered..|].
    rw Ep. f_equal. f_equal. symmetry. exact Er.
  - exact Hp.
Qed.

(** The query stage: the answer is the entry the queried node has. *)
Lemma neighbor_stage hub nodes self w n nonce from b d level :
  overlay hub nodes w → nodes !! node_id self = Some self → nodes !! from = Some b →
  waiter_map (request_id_map self) w !! nonce = None → level < LOOKUP_TABLE_LEVELS →
  ∃ w', settled self w w'
    ∧ eager (get_neighbor (Network0 := mock_network (S (S n))) self nonce from d level)
        w (Ok (node_slots w b level d)) w'.
Proof using Type*.
  intros Hov Hself Hb Hf Hlvl.
  destruct (requested_spec self nonce Neighbor w Hf) as (Et1 & En1 & _ & _).
  set (w1 := requested self nonce Neighbor w) in *.
  assert (Hov1 : overlay hub nodes w1) by by eapply (settled_overlay self).
  set (res := MkNeighborRes nonce level d (node_slots w b level d)).
  destruct (round_trip self nonce Neighbor (RetNeighborOp res) (ReplyNeighbor res) w w1)
    as (Hp & Et & En & Em); try done.
  exists (ended self nonce (MkReceiver (A := NeighborRes) (new_chan w))
    (resolved self nonce (RetNeighborOp res) w1)).
  split; [split_and!; [by rw Et|done|done]|].
  eapply (neighbor_answered (Network0 := mock_network (S (S n))) self nonce from d level res);
    [|exact Hp].
  apply (send_registered_ok hub _ _ (node_id self) _ _ b); [by eapply ov_registered..|].
  cbn [node_process_incoming_event]. rw /handle_get_neighbor_request.
  rw (bind_ok _ _ _ _ _ (map_err_ok _ _ _ _ _
    (on_core_entry w1 b level d (ov_table _ _ _ Hov1 _ _ Hb) Hlvl))).
  apply map_err_ok. rw (same_tables_slots w w1 _ Et1).
  apply (send_registered_ok hub _ _ from _ _ self); [by eapply ov_registered..|].
  apply neighbor_response_resolved.
Qed.

(** The link stage, sent to the node whose slot is the place for this node. *)
Lemma link_stage hub nodes self w n nonce x d :
  overlay hub nodes w → nodes !! node_id self = Some self → nodes !! node_id x = Some x →
  waiter_map (request_id_map self) w !! nonce = None →
  beyond d (node_id x) (node_id self) →
  (∀ e, node_slots w x 0 d = Some e → ¬ beyond d (id e) (node_id self)) →
  ∃ w', overlay hub nodes w' ∧ network w' = network w
    ∧ waiter_map (request_id_map self) w' = waiter_map (request_id_map self) w
    ∧ (∀ j b, nodes !! j = Some b → ∀ l' d', node_slots w' b l' d' =
         slots_after w x self 0 d (mock_identity self w) (mock_identity x w) b l' d')
    ∧ eager (send_link_request (Network0 := mock_network (S (S n))) self nonce (node_id x) d 0)
        w (Ok tt) w'.
Proof using Type*.
  intros Hov Hself Hx Hf Hbe Hnb.
  set (mk := λ tx, Link tx 0 (opposite d)).
  destruct (requested_spec self nonce mk w Hf) as (Et1 & En1 & _ & _).
  set (w1 := requested self nonce mk w) in *.
  assert (Hov1 : overlay hub nodes w1) by by eapply (settled_overlay self).
  assert (Hid : ∀ b, mock_identity b w1 = mock_identity b w)
    by (intros b; by rw /mock_identity /mock_address En1).
  set (req := MkLinkReq nonce (mock_identity self w) d 0).
  destruct (link_accepted hub nodes req self n x (node_id self) w1)
    as (w2 & Ep & (Ew & Ec & En) & Hslots); [done..| | |].
  { split_and!; [change (0 < 256); lia|done|apply Nat.le_0_l]. }
  { intros e. rw (same_tables_slots w w1 _ Et1). apply Hnb. }
  set (res := link_reply req (mock_identity x w1)) in *.
  destruct (round_trip self nonce mk (SetLinkOp res) (ReplyLink res) w w2)
    as (Hp & Et & En4 & Em); try done.
  { rw /mk /= decide_True; done. }
  exists (ended self nonce (MkReceiver (A := LinkRes) (new_chan w))
    (resolved self nonce (SetLinkOp res) w2)).
  split_and!; [|done..| |].
  - destruct Hov as [Hr Ht Ho Hw]. split; [| |done|done].
    + intros i b Hb. destruct (Hr i b Hb) as [? ? ?]. by split; rw ?En4.
    + intros i b Hb. rw /table_ok Et. by apply (Hslots i b).
  - intros j b Hb l' d'. rw (same_tables_slots _ _ b Et). destruct (Hslots j b Hb) as [_ ->].
    rw -(Hid x). apply (same_slots_after nodes _ _ _ _ _ _ _ _ j); [|done].
    intros j' b' _ l'' d''. by rw (same_tables_slots w w1 _ Et1).
  - eapply (link_answered (Network0 := mock_network (S (S n))) self nonce (node_id x) d 0 res);
      [|exact Hp].
    apply (send_registered_ok hub _ _ (node_id self) _ _ x); [by eapply ov_registered..|].
    rw -Ep. f_equal. f_equal. rw /req -(Hid self). done.
Qed.
End stages.

(** ** What a link does to the lists *)
Lemma opposite_ne (d : Direction) : d ≠ opposite d.
Proof. by destruct d. Qed.

Lemma opposite_opposite (d : Direction) : opposite (opposite d) = d.
Proof. by destruct d. Qed.

Lemma opposite_other (d d' : Direction) : d' ≠ d → d' = opposite d.
Proof. by destruct d, d'. Qed.

Section after.
Context `{Oneshot} `{LookupTableSpec L}.
Abbreviation W := (World L (MockState BaseNode)) (only parsing).
Implicit Types (w : W) (b self : BaseNode).

(** The neighbor at level 0, by identifier. *)
Definition next_id (nodes : gmap Identifier BaseNode) w (i : Identifier) (d : Direction)
    : option Identifier :=
  nodes !! i ≫= λ b, id <$> node_slots w b 0 d.

Lemma linked_level0_iff nodes members w :
  members ⊆ dom nodes → linked_level0 nodes members w ↔ linked members (next_id nodes w).
Proof.
  intros Hdom. split.
  - intros Hl i d Hi. destruct (nodes !! i) as [b|] eqn:Eb; last first.
    { apply not_elem_of_dom in Eb. by destruct Eb; apply Hdom. }
    rw /next_id Eb /=. specialize (Hl i b d Hi Eb). by destruct (node_slots w b 0 d).
  - intros Hl i b d Hi Eb. specialize (Hl i d Hi). rw /next_id Eb /= in Hl.
    by destruct (node_slots w b 0 d).
Qed.

(** The tables of the nodes outside [members] are as they were. *)
Definition same_elsewhere (nodes : gmap Identifier BaseNode) (members : gset Identifier) w w' : Prop :=
  ∀ j b, nodes !! j = Some b → j ∉ members → ∀ l d, node_slots w' b l d = node_slots w b l d.

Lemma same_elsewhere_tables nodes members w w1 w' :
  tables w1 = tables w → same_elsewhere nodes members w1 w' → same_elsewhere nodes members w w'.
Proof. intros E Hs j b Hb Hj l d. by rw (Hs j b Hb Hj) (same_tables_slots w w1 b E). Qed.

Lemma same_elsewhere_trans nodes members w w1 w' :
  same_elsewhere nodes members w w1 → same_elsewhere nodes members w1 w' →
  same_elsewhere nodes members w w'.
Proof. intros H1' H2' j b Hb Hj l d. by rw (H2' j b Hb Hj) (H1' j b Hb Hj). Qed.

Context (hub : loc) (nodes : gmap Identifier BaseNode) (self x : BaseNode) (d : Direction).
Context (w w' : W) (Hov : overlay hub nodes w).
Context (Hself : nodes !! node_id self = Some self) (Hx : nodes !! node_id x = Some x).
Context (Hbe : beyond d (node_id x) (node_id self)).
Context (Hslots : ∀ j b, nodes !! j = Some b → ∀ l' d', node_slots w' b l' d' =
           slots_after w x self 0 d (mock_identity self w) (mock_identity x w) b l' d').

Lemma self_not_x : self ≠ x.
Proof using Hbe. intros E. pose proof Hbe as Hb. rw E in Hb. by eapply beyond_irrefl. Qed.

Lemma next_id_after i d' :
  next_id nodes w' i d' =
    if decide (i = node_id x ∧ d' = d) then Some (node_id self)
    else if decide (i = node_id self ∧ d' = opposite d) then
      id <$> linked_slot (node_slots w self 0 (opposite d)) (opposite d) (mock_identity x w)
    else next_id nodes w i d'.
Proof using Hself Hx Hslots Hbe Hov.
  rw /next_id. case_decide as Hc1.
  { destruct Hc1 as [-> ->]. rw Hx /= (Hslots _ x Hx) /slots_after decide_True; [done|].
    by rw /set_slot decide_True. }
  case_decide as Hc2.
  { destruct Hc2 as [-> ->]. rw Hself /= (Hslots _ self Hself) /slots_after decide_False;
      [apply self_not_x|]. by rw decide_True; [|rw /set_slot decide_True]. }
  destruct (nodes !! i) as [b|] eqn:Eb; [|done]. simpl. f_equal. rw (Hslots i b Eb) /slots_after.
  assert (Hi : i = node_id b) by (symmetry; by eapply reg_id, ov_registered).
  case_decide as Hc3; [|case_decide as Hc4].
  - subst b. rw /set_slot decide_False; [|done]. intros [_ ->]. by apply Hc1.
  - subst b. rw /set_slot decide_False; [|done]. intros [_ ->]. by apply Hc2.
  - done.
Qed.

Lemma entries_after j b l d' e :
  nodes !! j = Some b → node_slots w' b l d' = Some e →
  node_slots w b l d' = Some e
  ∨ (b = x ∧ l = 0 ∧ d' = d ∧ e = mock_identity self w)
  ∨ (b = self ∧ l = 0 ∧ d' = opposite d ∧ e = mock_identity x w).
Proof using Hslots.
  intros Hb. rw (Hslots j b Hb) /slots_after /set_slot.
  case_decide as Hc1; [|case_decide as Hc2]; [..|by left].
  - subst b. case_decide as Hc3; [|by left]. destruct Hc3 as [-> ->]. intros [= <-]. right. by left.
  - subst b. case_decide as Hc3; [|by left]. destruct Hc3 as [-> ->].
    rw /linked_slot /link_decision. destruct (node_slots w self 0 (opposite d)) as [e'|];
      [case_decide|]; intros [= <-]; [by left|by right; right..].
Qed.

Lemma fits_level0 (a b : BaseNode) (d' : Direction) (i : Identity) :
  id i = node_id b → beyond d' (node_id a) (node_id b) → fits a 0 d' i.
Proof. intros E Hb. split_and!; [change (0 < 256); lia|by rw E|apply Nat.le_0_l]. Qed.

Lemma truthful_after : truthful nodes w → truthful nodes w'.
Proof using Hself Hx Hslots Hbe.
  intros Ht j b Hb. destruct (Ht j b Hb) as [Hs Hk]. split.
  - intros l d' e E. destruct (entries_after j b l d' e Hb E)
      as [E'|[(-> & -> & -> & ->)|(-> & -> & -> & ->)]]; [by apply Hs| |].
    + by apply (fits_level0 _ self).
    + apply (fits_level0 _ x); [done|]. by apply beyond_opposite.
  - intros l d' e E. destruct (entries_after j b l d' e Hb E)
      as [E'|[(-> & -> & -> & ->)|(-> & -> & -> & ->)]]; [by apply (Hk l d')| |].
    + by exists self.
    + by exists x.
Qed.

Lemma same_elsewhere_after members :
  node_id self ∈ members → node_id x ∈ members → same_elsewhere nodes members w w'.
Proof using Hslots Hov.
  intros Hs Hxm j b Hb Hj l d'. assert (Hi : j = node_id b) by (symmetry; by eapply reg_id, ov_registered).
  rw (Hslots j b Hb) /slots_after decide_False; [by intros ->; rw Hi in Hj|].
  rw decide_False; [by intros ->; rw Hi in Hj|done].
Qed.

(** Members only know members. *)
Definition knows_only (members : gset Identifier) w : Prop :=
  ∀ i b l d e, i ∈ members → nodes !! i = Some b → node_slots w b l d = Some e → id e ∈ members.

Lemma knows_only_after members :
  node_id self ∈ members → node_id x ∈ members → knows_only members w → knows_only members w'.
Proof using Hslots.
  intros Hs Hxm Hk i b l d' e Hi Hb E.
  destruct (entries_after i b l d' e Hb E) as [E'|[(-> & -> & -> & ->)|(-> & -> & -> & ->)]];
    [by eapply Hk|done|done].
Qed.
End after.

(** ** The join *)
Section join.
Context `{OneshotLaws} `{LookupTableSpec L}.
Abbreviation W := (World L (MockState BaseNode)) (only parsing).
Implicit Types (w : W) (b self : BaseNode).

(** The skip graph [members] among the registered [nodes]: truthful tables, members
    that only know members, and a doubly linked level-0 list. *)
Record skip_graph (hub : loc) (nodes : gmap Identifier BaseNode) (members : gset Identifier) w
    : Prop := {
  sg_overlay : overlay hub nodes w;
  sg_members : members ⊆ dom nodes;
  sg_truthful : truthful nodes w;
  sg_closed : knows_only nodes members w;
  sg_linked : linked_level0 nodes members w
}.

Lemma sg_entries hub nodes members w :
  skip_graph hub nodes members w → entries_on_side nodes members w.
Proof.
  intros [Hov Hm Ht Hc _] i b l d e Hi Hb E. split; [by eapply Hc|].
  destruct (Ht i b Hb) as [Hs _]. destruct (Hs l d e E) as (_ & Hbe & _).
  by rw -(reg_id _ _ _ _ (ov_registered _ _ _ Hov i b Hb)).
Qed.

Lemma sg_settled self hub nodes members w w' :
  settled self w w' → skip_graph hub nodes members w → skip_graph hub nodes members w'.
Proof.
  intros (Et & En & _) [Hov Hm Ht Hc Hl]. split; [by eapply (settled_overlay self)|done|..].
  - intros i b Hb. destruct (Ht i b Hb) as [Hs Hk]. rw /sound (same_tables_slots w w' b Et).
    by split.
  - intros i b l d e. rw (same_tables_slots w w' b Et). apply Hc.
  - intros i b d. rw (same_tables_slots w w' b Et). apply Hl.
Qed.

Definition fresh_nonces self (nonces : JoinNonces) w : Prop :=
  ∀ n, n ∈ [search_nonce nonces; neighbor_nonce nonces; search_link_nonce nonces;
            query_link_nonce nonces] → waiter_map (request_id_map self) w !! n = None.

(** The tables after a link of the joining node, once they form the longer list. *)
Lemma sg_joined hub nodes members self w w' :
  skip_graph hub nodes members w → nodes !! node_id self = Some self →
  overlay hub nodes w' → truthful nodes w' → knows_only nodes ({[node_id self]} ∪ members) w' →
  linked ({[node_id self]} ∪ members) (next_id nodes w') →
  skip_graph hub nodes ({[node_id self]} ∪ members) w'.
Proof.
  intros [_ Hm _ _ _] Hself Hov Ht Hc Hl.
  assert (Hm' : {[node_id self]} ∪ members ⊆ dom nodes).
  { intros i [->%elem_of_singleton|Hi]%elem_of_union; [by apply elem_of_dom|by apply Hm]. }
  split; try done. by apply linked_level0_iff.
Qed.

Lemma knows_only_joined hub nodes members self w :
  skip_graph hub nodes members w → nodes !! node_id self = Some self →
  (∀ l d, node_slots w self l d = None) → knows_only nodes ({[node_id self]} ∪ members) w.
Proof.
  intros [_ _ _ Hc _] Hself Hempty i b l d e [->%elem_of_singleton|Hi]%elem_of_union Hb E.
  - rw Hself in Hb. injection Hb as <-. by rw Hempty in E.
  - apply elem_of_union_r. by eapply Hc.
Qed.

Section links.
Context (hub : loc) (nodes : gmap Identifier BaseNode) (members : gset Identifier).
Context (self : BaseNode) (w : W) (n : nat) (p : BaseNode) (d : Direction).
Context (Hsg : skip_graph hub nodes members w) (Hself : nodes !! node_id self = Some self).
Context (Hnot : node_id self ∉ members) (Hempty : ∀ l d', node_slots w self l d' = None).
Context (Hp : nodes !! node_id p = Some p).
Context (Hclosest : closest members d (node_id self) (node_id p)).
Context (Hbe : beyond d (node_id p) (node_id self)).

Lemma next_id_node b d' w0 :
  nodes !! node_id b = Some b → next_id nodes w0 (node_id b) d' = id <$> node_slots w0 b 0 d'.
Proof using Type. intros Hb. by rw /next_id Hb. Qed.

Lemma own_ne_p : node_id self ≠ node_id p.
Proof using Hbe. intros E. by apply (beyond_neq _ _ _ Hbe). Qed.

Lemma member_ne i : i ∈ members → i ≠ node_id self.
Proof using Hnot. by intros Hi ->. Qed.

Lemma list_before : linked members (next_id nodes w).
Proof using Hsg. apply linked_level0_iff; [by eapply sg_members|by eapply sg_linked]. Qed.

(** The first link, at [p], leaves [p] and the joining node linked to each other. *)
Lemma first_link nonce :
  waiter_map (request_id_map self) w !! nonce = None →
  ∃ w1, overlay hub nodes w1 ∧ network w1 = network w
    ∧ waiter_map (request_id_map self) w1 = waiter_map (request_id_map self) w
    ∧ truthful nodes w1 ∧ knows_only nodes ({[node_id self]} ∪ members) w1
    ∧ same_elsewhere nodes ({[node_id self]} ∪ members) w w1
    ∧ (∀ d', node_slots w1 self 0 d' = if decide (d' = d) then None else Some (mock_identity p w))
    ∧ (∀ i d', next_id nodes w1 i d' =
         if decide (i = node_id p ∧ d' = d) then Some (node_id self)
         else if decide (i = node_id self ∧ d' = opposite d) then Some (node_id p)
         else next_id nodes w i d')
    ∧ eager (send_link_request (Network0 := mock_network (S (S n))) self nonce (node_id p) d 0)
        w (Ok tt) w1.
Proof using Type*.
  intros Hf. destruct Hclosest as (Hpm & _ & Hpc).
  assert (Hov : overlay hub nodes w) by by eapply sg_overlay.
  destruct (link_stage hub nodes self w n nonce p d Hov Hself Hp Hf Hbe)
    as (w1 & Hov1 & En & Em & Hslots & Hrun).
  { intros e E Hb. pose proof (list_before (node_id p) d Hpm) as Hl.
    rw (next_id_node _ _ _ Hp) E /= in Hl. destruct Hl as (He & Hpe & _).
    destruct (Hpc (id e)) as [Heq|Hb']; [done|by right| |].
    - rw Heq in Hpe. by eapply beyond_irrefl.
    - by eapply beyond_asym. }
  exists w1. split_and!; [done..| | | | | |done].
  - apply (truthful_after nodes self p d w w1 Hself Hp Hbe Hslots). by eapply sg_truthful.
  - eapply (knows_only_after nodes self p d w w1 Hslots);
      [by apply elem_of_union_l, elem_of_singleton|by apply elem_of_union_r|].
    by eapply knows_only_joined.
  - apply (same_elsewhere_after hub nodes self p d w w1 Hov Hslots);
      [by apply elem_of_union_l, elem_of_singleton|by apply elem_of_union_r].
  - intros d'. rw (Hslots _ self Hself) /slots_after decide_False; [by eapply self_not_x|].
    rw decide_True; [done|]. rw /set_slot !Hempty.
    destruct (decide (d' = d)) as [->|Hd].
    + rw decide_False; [|done]. intros [_ E]. by apply (opposite_ne d).
    + rw decide_True; [|done]. split; [done|]. by apply opposite_other.
  - intros i d'. rw (next_id_after hub nodes self p d w w1) ?Hempty; done.
Qed.

(** Premises on the untouched slots, shared by both shapes of the list's end. *)
Lemma own_slots w0 d' : (∀ d', node_slots w0 self 0 d' = None) → next_id nodes w0 (node_id self) d' = None.
Proof using Hself. intros E. by rw (next_id_node _ _ _ Hself) E. Qed.

(** With no neighbor on the other side one link completes the join. *)
Lemma links_at_end nonce :
  waiter_map (request_id_map self) w !! nonce = None → node_slots w p 0 d = None →
  ∃ w', skip_graph hub nodes ({[node_id self]} ∪ members) w' ∧ network w' = network w
    ∧ waiter_map (request_id_map self) w' = waiter_map (request_id_map self) w
    ∧ same_elsewhere nodes ({[node_id self]} ∪ members) w w'
    ∧ eager (send_link_request (Network0 := mock_network (S (S n))) self nonce (node_id p) d 0)
        w (Ok tt) w'.
Proof using Type*.
  intros Hf Hq. destruct (first_link nonce Hf) as (w1 & Hov1 & En & Em & Ht1 & Hk1 & He1 & _ & Hn & Hrun).
  exists w1. split_and!; [|done..].
  eapply sg_joined; [exact Hsg|done..|]. destruct Hclosest as (Hpm & _ & Hpc).
  pose proof own_ne_p as Hne.
  apply (linked_insert members (next_id nodes w) (node_id self) (node_id p) d);
    [apply list_before|done..|split].
  - rw Hn. by rw decide_True.
  - rw Hn decide_False; [by intros [? _]|]. by rw decide_True.
  - rw Hn decide_False; [by intros [? _]|]. rw decide_False.
    { intros [_ E]. by apply (opposite_ne d). }
    rw own_slots; [done|]. by rw (next_id_node _ _ _ Hp) Hq.
  - intros q. by rw (next_id_node _ _ _ Hp) Hq.
  - intros i d' Hi Hnp _. rw Hn decide_False; [by intros [-> ->]|].
    rw decide_False; [|done]. intros [-> _]. done.
Qed.

(** What lies past [p], if anything: a member, past the joining node. *)
Lemma past_neighbor e :
  node_slots w p 0 d = Some e →
  ∃ x, nodes !! node_id x = Some x ∧ id e = node_id x
    ∧ next_id nodes w (node_id p) d = Some (node_id x) ∧ node_id x ∈ members
    ∧ beyond d (node_id self) (node_id x) ∧ node_id x ≠ node_id self ∧ node_id x ≠ node_id p
    ∧ ∀ j, j ∈ members → beyond d (node_id p) j → reaches d (node_id x) j.
Proof using Type*.
  intros Hq. destruct Hclosest as (Hpm & _ & Hpc).
  assert (Eq : next_id nodes w (node_id p) d = Some (id e)) by by rw (next_id_node _ _ _ Hp) Hq.
  pose proof (list_before (node_id p) d Hpm) as Hl. rw Eq in Hl. destruct Hl as (Hqm & Hpq & Hmin).
  destruct (sg_truthful _ _ _ _ Hsg _ p Hp) as [_ Hk]. destruct (Hk 0 d e Hq) as (x & Hx & Ex & _).
  rw Ex in Hx. rw Ex in Eq. rw Ex in Hqm. rw Ex in Hpq. rw Ex in Hmin.
  exists x. split_and!; [done..| |by apply member_ne|apply not_eq_sym; by eapply beyond_neq|done].
  apply (past_own members (next_id nodes w) (node_id self) (node_id p)); [apply list_before|done..].
Qed.

(** With both links the joining node is inserted between [p] and [x]. *)
Lemma both_linked_inserted x (s1 s2 : Identifier → Direction → option Identifier) :
  next_id nodes w (node_id p) d = Some (node_id x) → node_id x ∈ members →
  node_id x ≠ node_id self → node_id x ≠ node_id p →
  (∀ i d', s1 i d' =
     if decide (i = node_id p ∧ d' = d) then Some (node_id self)
     else if decide (i = node_id self ∧ d' = opposite d) then Some (node_id p)
     else next_id nodes w i d') →
  (∀ i d', s2 i d' =
     if decide (i = node_id x ∧ d' = opposite d) then Some (node_id self)
     else if decide (i = node_id self ∧ d' = d) then Some (node_id x)
     else s1 i d') →
  inserted members (next_id nodes w) (node_id self) (node_id p) d s2.
Proof using Type*.
  intros Eq Hqm Hqo Hqp Hn1 Hn2. pose proof own_ne_p as Hne. split.
  - rw Hn2 decide_False; [by intros [? _]|]. rw decide_False; [by intros [? _]|].
    rw Hn1. by rw decide_True.
  - rw Hn2 decide_False; [by intros [? _]|]. rw decide_False.
    { intros [_ E]. by apply (opposite_ne d). }
    rw Hn1 decide_False; [by intros [? _]|]. by rw decide_True.
  - rw Hn2 decide_False; [by intros [? _]|]. by rw decide_True.
  - intros q. rw Eq. intros [= <-]. rw Hn2. by rw decide_True.
  - intros i d' Hi Hnp Hnq. pose proof (member_ne _ Hi) as Hio.
    rw Hn2 decide_False; [intros [-> ->]; by apply (Hnq _ Eq)|].
    rw decide_False; [by intros [? _]|].
    rw Hn1 decide_False; [by intros [-> ->]|]. rw decide_False; [by intros [? _]|done].
Qed.

(** Otherwise the second link, at the other neighbor, completes it. *)
Lemma links_between nonce1 nonce2 e :
  waiter_map (request_id_map self) w !! nonce1 = None →
  waiter_map (request_id_map self) w !! nonce2 = None → node_slots w p 0 d = Some e →
  ∃ w', skip_graph hub nodes ({[node_id self]} ∪ members) w' ∧ network w' = network w
    ∧ waiter_map (request_id_map self) w' = waiter_map (request_id_map self) w
    ∧ same_elsewhere nodes ({[node_id self]} ∪ members) w w'
    ∧ eager (join
        (unstarted (send_link_request (Network0 := mock_network (S (S n))) self nonce1 (node_id p) d 0))
        (unstarted (send_link_request (Network0 := mock_network (S (S n))) self nonce2 (id e)
                      (opposite d) 0))) w (Ok (Ok tt, Ok tt)) w'.
Proof using Type*.
  intros Hf1 Hf2 Hq.
  destruct (first_link nonce1 Hf1) as (w1 & Hov1 & En1 & Em1 & Ht1 & Hk1 & He1 & Hs1 & Hn1 & Hrun1).
  destruct (past_neighbor e Hq) as (x & Hx & -> & Eq & Hqm & Hoq & Hqo & Hqp & Hmin).
  assert (Hbe2 : beyond (opposite d) (node_id x) (node_id self)) by by apply beyond_opposite.
  assert (Hf2' : waiter_map (request_id_map self) w1 !! nonce2 = None) by by rw Em1.
  destruct (link_stage hub nodes self w1 n nonce2 x (opposite d) Hov1 Hself Hx Hf2' Hbe2)
    as (w2 & Hov2 & En2 & Em2 & Hslots & Hrun2).
  { intros e' E Hb. pose proof (Hn1 (node_id x) (opposite d)) as E'.
    rw decide_False in E'; [by intros [? _]|]. rw decide_False in E'; [by intros [? _]|].
    rw (next_id_node _ _ _ Hx) E /= in E'. symmetry in E'.
    pose proof (list_before (node_id x) (opposite d) Hqm) as Hl. rw E' in Hl.
    destruct Hl as (Hem & Hxe & _). rw beyond_opposite in Hxe. rw beyond_opposite in Hb.
    apply (beyond_asym d (node_id x) (id e')); [|done].
    destruct (Hmin (id e')) as [Heq|?]; [done|by apply (beyond_trans _ _ (node_id self))| |done].
    rw Heq in Hxe. by destruct (beyond_irrefl _ _ Hxe). }
  exists w2. split_and!; [|by rw En2|by rw Em2| |by eapply eager_join]; last first.
  { eapply same_elsewhere_trans; [exact He1|].
    by apply (same_elsewhere_after hub nodes self x (opposite d) w1 w2 Hov1 Hslots);
      [apply own_joined|apply elem_of_union_r]. }
  eapply sg_joined; [exact Hsg|done..| | |].
  - by apply (truthful_after nodes self x (opposite d) w1 w2 Hself Hx Hbe2 Hslots).
  - apply (knows_only_after nodes self x (opposite d) w1 w2 Hslots);
      [apply own_joined|by apply elem_of_union_r|done].
  - destruct Hclosest as (Hpm & _ & Hpc).
    apply (linked_insert members (next_id nodes w) (node_id self) (node_id p) d);
      [apply list_before|done..|].
    apply (both_linked_inserted x (next_id nodes w1)); [done..|]. intros i d'.
    assert (Hs1d : node_slots w1 self 0 d = None) by (by rw Hs1 decide_True).
    rw (next_id_after hub nodes self x (opposite d) w1 w2); try done.
    by rw opposite_opposite Hs1d.
Qed.

(** Both shapes together, as the last part of the operation. *)
Definition links_op (nonces : JoinNonces) (p : Identifier) (q : option Identity) : Async L _ () :=
  let search_link := send_link_request (Network0 := mock_network (S (S n))) self
    (search_link_nonce nonces) p d 0 in
  match q with
  | Some e =>
      let query_link := send_link_request (Network0 := mock_network (S (S n))) self
        (query_link_nonce nonces) (id e) (opposite d) 0 in
      rs ← join (unstarted search_link) (unstarted query_link);
      let '(search_res, query_res) := rs in
      _ ← async_of search_res;
      async_of query_res
  | None => search_link
  end.

Lemma links_stage nonces :
  waiter_map (request_id_map self) w !! search_link_nonce nonces = None →
  waiter_map (request_id_map self) w !! query_link_nonce nonces = None →
  ∃ w', skip_graph hub nodes ({[node_id self]} ∪ members) w' ∧ network w' = network w
    ∧ waiter_map (request_id_map self) w' = waiter_map (request_id_map self) w
    ∧ same_elsewhere nodes ({[node_id self]} ∪ members) w w'
    ∧ eager (links_op nonces (node_id p) (node_slots w p 0 d)) w (Ok tt) w'.
Proof using Type*.
  intros Hf1 Hf2. rw /links_op. destruct (node_slots w p 0 d) as [e|] eqn:Eq.
  - destruct (links_between (search_link_nonce nonces) (query_link_nonce nonces) e)
      as (w' & ? & ? & ? & ? & Hrun); [done..|].
    exists w'. split_and!; [done..|]. eapply eager_bind; [exact Hrun|].
    eapply eager_bind; [|]; (eexists _, _; split; [reflexivity|constructor]).
  - destruct (links_at_end (search_link_nonce nonces)) as (w' & ? & ? & ? & ? & Hrun); [done..|].
    by exists w'.
Qed.
End links.

(** The side of the introducer decides the direction of the search. *)
Lemma direction_chosen introducer own :
  introducer ≠ own →
  ∃ d, beyond d introducer own ∧
    ((if id_ltb introducer own then mret Right
      else if id_gtb introducer own then mret Left
      else async_fail (Anyhow "introducer id collides with this node's own id, cannot determine stage-1 search direction" []))
     : Async L (MockState BaseNode) Direction) = mret d.
Proof.
  intros Hne. rw id_ltb_val id_gtb_val.
  destruct (Z.ltb_spec (id_val introducer) (id_val own)); [by exists Right|].
  destruct (Z.ltb_spec (id_val own) (id_val introducer)); [by exists Left|].
  apply id_val_neq in Hne. lia.
Qed.

Lemma fresh_settled self nonce w w' :
  settled self w w' → waiter_map (request_id_map self) w !! nonce = None →
  waiter_map (request_id_map self) w' !! nonce = None.
Proof. by intros (_ & _ & ->). Qed.

Lemma join_runs hub nodes members self w n nonces introducer level :
  skip_graph hub nodes members w → nodes !! node_id self = Some self →
  node_id self ∉ members → (∀ l d, node_slots w self l d = None) →
  fresh_nonces self nonces w → introducer ∈ members → level < LOOKUP_TABLE_LEVELS →
  size members ≤ n →
  ∃ w', eager (join_stage1_link_level0 (Network0 := mock_network (S (S n))) self nonces introducer level)
      w (Ok tt) w'
    ∧ skip_graph hub nodes ({[node_id self]} ∪ members) w' ∧ network w' = network w
    ∧ waiter_map (request_id_map self) w' = waiter_map (request_id_map self) w
    ∧ same_elsewhere nodes ({[node_id self]} ∪ members) w w'.
Proof using Type*.
  intros Hsg Hself Hnot Hempty Hf Hi Hlvl Hn.
  assert (Hne : introducer ≠ node_id self) by (by intros ->).
  destruct (direction_chosen introducer (node_id self) Hne) as (d & Hd & Ed).
  assert (Hnonces : ∀ k, k ∈ [search_nonce nonces; neighbor_nonce nonces; search_link_nonce nonces;
    query_link_nonce nonces] → waiter_map (request_id_map self) w !! k = None) by exact Hf.
  destruct (search_stage hub nodes members self w n (search_nonce nonces) (node_id self) level d
    introducer) as (p & lp & w1 & Hclosest & Hset1 & Hrun1);
    [by eapply sg_overlay|by eapply sg_entries|by eapply sg_linked|by eapply sg_members|done
    |apply Hnonces; set_solver|done|by right|done|done|].
  pose proof (sg_settled self hub nodes members w w1 Hset1 Hsg) as Hsg1.
  pose proof Hclosest as (Hpm & Hpr & _).
  assert (Hpo : p ≠ node_id self) by by intros E; rw E in Hpm.
  assert (Hbe : beyond d p (node_id self)) by by destruct Hpr.
  destruct (nodes !! p) as [bp|] eqn:Ebp; last first.
  { apply not_elem_of_dom in Ebp. destruct Ebp. by apply (sg_members _ _ _ _ Hsg). }
  assert (Ep : node_id bp = p) by (by eapply reg_id, ov_registered; [eapply sg_overlay|]).
  destruct (neighbor_stage hub nodes self w1 n (neighbor_nonce nonces) p bp d 0)
    as (w2 & Hset2 & Hrun2); [by eapply sg_overlay|done|done
    |eapply fresh_settled; [exact Hset1|apply Hnonces; set_solver]|change (0 < 256); lia|].
  pose proof (sg_settled self hub nodes members w1 w2 Hset2 Hsg1) as Hsg2.
  rw -(same_tables_slots w1 w2 bp (proj1 Hset2)) in Hrun2.
  assert (Hf2 : ∀ k, k ∈ [search_link_nonce nonces; query_link_nonce nonces] →
    waiter_map (request_id_map self) w2 !! k = None).
  { intros k Hk. eapply fresh_settled; [exact Hset2|]. eapply fresh_settled; [exact Hset1|].
    apply Hnonces. rw !elem_of_cons. rw !elem_of_cons in Hk. tauto. }
  assert (Hempty2 : ∀ l d', node_slots w2 self l d' = None).
  { intros l d'. rw (same_tables_slots w1 w2 self (proj1 Hset2)).
    by rw (same_tables_slots w w1 self (proj1 Hset1)). }
  destruct Hset1 as (Et1 & En1 & Em1), Hset2 as (Et2 & En2 & Em2).
  rw -Ep in Hclosest. rw -Ep in Hbe. rw -Ep in Ebp.
  destruct (links_stage hub nodes members self w2 n bp d Hsg2 Hself Hnot Hempty2 Ebp Hclosest Hbe nonces)
    as (w' & Hsg' & En' & Em' & He' & Hrun'); [apply Hf2; set_solver..|].
  rw Ep in Hrun'.
  exists w'. split_and!; [|done|by rw En' En2|by rw Em' Em2|]; last first.
  { eapply same_elsewhere_tables, He'. by rw Et2. }
  rw /join_stage1_link_level0. eapply eager_bind; [rw Ed; apply eager_ret|]. cbv zeta.
  eapply eager_bind; [exact Hrun1|]. rw decide_False; [done|].
  eapply eager_bind; [exact Hrun2|]. exact Hrun'.
Qed.

(** The join run to its end. *)
Lemma join_run hub nodes members self w nonces introducer level fuel :
  skip_graph hub nodes members w → nodes !! node_id self = Some self →
  node_id self ∉ members → (∀ l d, node_slots w self l d = None) →
  fresh_nonces self nonces w → introducer ∈ members → level < 256 →
  size members + 2 ≤ fuel →
  ∃ w', run_alone (join_stage1_link_level0 (Network0 := mock_network fuel) self nonces introducer level)
      w = Done (Ok tt, w')
    ∧ skip_graph hub nodes ({[node_id self]} ∪ members) w'
    ∧ waiter_map (request_id_map self) w' = waiter_map (request_id_map self) w
    ∧ same_elsewhere nodes ({[node_id self]} ∪ members) w w'.
Proof using Type*.
  intros Hsg Hself Hnot Hempty Hf Hi Hlvl Hfuel. destruct fuel as [|[|n]]; [lia..|].
  destruct (join_runs hub nodes members self w n nonces introducer level)
    as (w' & Hrun & Hsg' & _ & Em & He); try done; [lia|].
  exists w'. split_and!; [|done..]. by apply eager_run.
Qed.

(** The join of a node whose identifier is taken. *)
Lemma join_refused hub nodes members self w nonces introducer level fuel :
  skip_graph hub nodes members w → nodes !! node_id self = Some self →
  node_id self ∈ members → introducer ∈ members → introducer ≠ node_id self →
  fresh_nonces self nonces w → level < 256 → size members + 2 ≤ fuel →
  ∃ w', run_alone (join_stage1_link_level0 (Network0 := mock_network fuel) self nonces introducer level)
      w = Done (Err (Anyhow "stage-1 search resolved a node with this node's own id, another node already holds it" []), w')
    ∧ settled self w w'.
Proof using Type*.
  intros Hsg Hself Hown Hi Hne Hf Hlvl Hfuel. destruct fuel as [|[|n]]; [lia..|].
  destruct (direction_chosen introducer (node_id self) Hne) as (d & Hd & Ed).
  destruct (search_stage hub nodes members self w n (search_nonce nonces) (node_id self) level d
    introducer) as (r & l & w1 & (_ & Hr & Hc) & Hset & Hrun);
    [by eapply sg_overlay|by eapply sg_entries|by eapply sg_linked|by eapply sg_members|done
    |apply Hf; by constructor|done|by right|done|lia|].
  assert (Er : r = node_id self).
  { apply (reaches_antisym d); [done|]. apply Hc; [done|by left]. }
  exists w1. split; [|done]. apply eager_run. rw /join_stage1_link_level0.
  eapply eager_bind; [rw Ed; apply eager_ret|]. cbv zeta.
  eapply eager_bind; [exact Hrun|]. rw decide_True; [done|].
  eexists _, _. split; [reflexivity|constructor].
Qed.

(** C1: stage 1 of the join, run by a registered node with an empty table against a
    skip graph of other members, from any member as introducer and any starting level
    below 256, on the in-memory network: it terminates with success, and the members
    together with the new node form a skip graph again. In particular the level-0
    list is doubly linked with the new node in its place, every table is truthful,
    the node's waiters are exactly those it had before, and the tables of nodes that
    are not members are untouched. *)
Theorem join_stage1_links_node hub nodes members self w nonces introducer level fuel :
  skip_graph hub nodes members w → nodes !! node_id self = Some self →
  node_id self ∉ members → (∀ l d, node_slots w self l d = None) →
  fresh_nonces self nonces w → introducer ∈ members → level < 256 →
  size members + 2 ≤ fuel →
  ∃ w', run_alone (join_stage1_link_level0 (Network0 := mock_network fuel) self nonces introducer level)
      w = Done (Ok tt, w')
    ∧ skip_graph hub nodes ({[node_id self]} ∪ members) w'
    ∧ waiter_map (request_id_map self) w' = waiter_map (request_id_map self) w
    ∧ same_elsewhere nodes ({[node_id self]} ∪ members) w w'.
Proof using Type*. apply join_run. Qed.

(** C18: the two refusals of stage 1. An introducer with the node's own identifier is
    refused at once, with nothing sent and nothing changed, on any network. A search
    that ends at the node's own identifier, as it must when that identifier is already
    in the list, is refused before any link request: no table, no registration and no
    waiter of the node differs afterwards. *)
Theorem join_stage1_refuses hub nodes members self w nonces introducer level fuel :
  (∀ (net : Network BaseNode W), run_alone
     (join_stage1_link_level0 (Network0 := net) self nonces (node_id self) level) w =
     Done (Err (Anyhow "introducer id collides with this node's own id, cannot determine stage-1 search direction" []), w))
  ∧ (skip_graph hub nodes members w → nodes !! node_id self = Some self →
     node_id self ∈ members → introducer ∈ members → introducer ≠ node_id self →
     fresh_nonces self nonces w → level < 256 → size members + 2 ≤ fuel →
     ∃ w', run_alone (join_stage1_link_level0 (Network0 := mock_network fuel) self nonces introducer level)
         w = Done (Err (Anyhow "stage-1 search resolved a node with this node's own id, another node already holds it" []), w')
       ∧ settled self w w').
Proof using Type*.
  split.
  - intros net. rw /run_alone /join_stage1_link_level0 /mbind /async_bind.
    rw id_ltb_val id_gtb_val Z.ltb_irrefl. done.
  - apply join_refused.
Qed.
End join.

(** ** Concrete joins *)
Module JoinSample.
Lemma overlay_empty l d : node_slots OverlaySample.world (OverlaySample.node 3 OverlaySample.n7) l d = None.
Proof.
  assert (E : tables OverlaySample.world !! 3 = Some ArrayLookupTable.new) by (vm_compute; reflexivity).
  rw /node_slots E. apply (new_slots l d).
Qed.

Lemma overlay_skip_graph :
  skip_graph 0 OverlaySample.nodes OverlaySample.members OverlaySample.world.
Proof.
  split.
  - apply OverlaySample.world_overlay.
  - apply OverlaySample.members_nodes.
  - apply overlay_truthful.
  - intros i b l d e Hi Hb E. by apply (OverlaySample.world_entries i b l d e Hi Hb E).
  - apply OverlaySample.world_linked.
Qed.

Definition nonces : JoinNonces := MkJoinNonces (MkNonce 1) (MkNonce 2) (MkNonce 3) (MkNonce 4).

Lemma overlay_fresh i n : fresh_nonces (OverlaySample.node n i) nonces OverlaySample.world.
Proof.
  intros k _. rw /waiter_map.
  assert (E : Forall (λ x, x.2 = ∅) (map_to_list (waiters OverlaySample.world))) by decided.
  destruct (waiters OverlaySample.world !! n) as [m|] eqn:Em; cbn [request_id_map OverlaySample.node];
    rw Em /=; [|apply lookup_empty].
  rw Forall_forall in E. apply elem_of_map_to_list in Em.
  pose proof (E _ Em) as E'. cbn in E'. rw E'. apply lookup_empty.
Qed.
End JoinSample.

(** Node 7 joins through node 2 and through node 9. *)
Lemma join_stage1_links_node_witness :
  ∃ w1 w2,
    run_alone (join_stage1_link_level0 (Network0 := mock_network 5)
      (OverlaySample.node 3 OverlaySample.n7) JoinSample.nonces (id OverlaySample.n2) 1)
      OverlaySample.world = Done (Ok tt, w1)
    ∧ run_alone (join_stage1_link_level0 (Network0 := mock_network 5)
      (OverlaySample.node 3 OverlaySample.n7) JoinSample.nonces (id OverlaySample.n9) 0)
      OverlaySample.world = Done (Ok tt, w2).
Proof.
  destruct (join_stage1_links_node 0 OverlaySample.nodes OverlaySample.members
    (OverlaySample.node 3 OverlaySample.n7) OverlaySample.world JoinSample.nonces
    (id OverlaySample.n2) 1 5) as (w1 & E1 & _).
  - apply JoinSample.overlay_skip_graph.
  - apply OverlaySample.n7_node.
  - apply OverlaySample.n7_no_member.
  - apply JoinSample.overlay_empty.
  - apply JoinSample.overlay_fresh.
  - apply OverlaySample.elem_of_members. decided.
  - lia.
  - rw OverlaySample.members_size. lia.
  - destruct (join_stage1_links_node 0 OverlaySample.nodes OverlaySample.members
      (OverlaySample.node 3 OverlaySample.n7) OverlaySample.world JoinSample.nonces
      (id OverlaySample.n9) 0 5) as (w2 & E2 & _).
    + apply JoinSample.overlay_skip_graph.
    + apply OverlaySample.n7_node.
    + apply OverlaySample.n7_no_member.
    + apply JoinSample.overlay_empty.
    + apply JoinSample.overlay_fresh.
    + apply OverlaySample.elem_of_members. decided.
    + lia.
    + rw OverlaySample.members_size. lia.
    + exists w1, w2. split; [exact E1|exact E2].
Defined.

(** Node 5, already in the list, joins again through node 2. *)
Lemma join_stage1_refuses_witness :
  ∃ w', run_alone (join_stage1_link_level0 (Network0 := mock_network 5)
      (OverlaySample.node 1 OverlaySample.n5) JoinSample.nonces (id OverlaySample.n2) 1)
      OverlaySample.world
    = Done (Err (Anyhow "stage-1 search resolved a node with this node's own id, another node already holds it" []), w').
Proof.
  destruct (join_stage1_refuses 0 OverlaySample.nodes OverlaySample.members
    (OverlaySample.node 1 OverlaySample.n5) OverlaySample.world JoinSample.nonces
    (id OverlaySample.n2) 1 5) as [_ Href].
  destruct Href as (w' & E & _).
  - apply JoinSample.overlay_skip_graph.
  - apply OverlaySample.n5_node.
  - apply OverlaySample.elem_of_members. decided.
  - apply OverlaySample.elem_of_members. decided.
  - decided.
  - apply JoinSample.overlay_fresh.
  - lia.
  - rw OverlaySample.members_size. lia.
  - exists w'. exact E.
Defined.
