(* ===== verification/Search.v ===== *)
(** * Search from end to end

    The public [search_by_id] of a member: its local search, the request it sends if
    the answer is not itself, the relays, and the reply it waits for. *)
From S2P Require Import Prelude Bytes Model LookupTable Core World BaseNode Hub Overlay Handlers Routing Linking Async NodeOps Join.
From S2P Require Import Identifier.

Section search.
Context `{OneshotLaws} `{LookupTableSpec L}.
Implicit Types (w : World L (MockState BaseNode)) (self : BaseNode).

(** [res] answers the search [req] among [members]. *)
Definition answers_search (members : gset Identifier) (req : IdSearchReq) (res : IdSearchRes) : Prop :=
  isr_nonce res = isq_nonce req ∧ isr_target res = isq_target req
  ∧ closest members (isq_direction req) (isq_target req) (isr_result res).

(** The search, and what it leaves. *)
Lemma search_run hub nodes members self w req fuel :
  skip_graph hub nodes members w → nodes !! node_id self = Some self →
  node_id self ∈ members → reaches (isq_direction req) (node_id self) (isq_target req) →
  isq_level req < 256 → waiter_map (request_id_map self) w !! isq_nonce req = None →
  size members + 2 ≤ fuel →
  ∃ res w', run_alone (node_search_by_id (Network0 := mock_network fuel) self req) w
      = Done (Ok res, w')
    ∧ answers_search members req res ∧ settled self w w'.
Proof using Type*.
  intros Hsg Hself Hown Hreach Hlvl Hf Hfuel. destruct fuel as [|[|n]]; [lia..|].
  destruct (on_core_search w self req) as (r & l & Es & Ha);
    [by eapply ov_table; [eapply sg_overlay|]|done|].
  destruct (hop nodes members w (node_id self) self req r l) as [Hll Hhop];
    [by eapply sg_entries|by eapply sg_linked|done..|].
  assert (Hloc : eager (sync (map_err (wrap "failed to perform search by id {}")
      (on_core self (Core.search_by_id (core self) req))) : Async L (MockState BaseNode) _) w
    (Ok (MkIdSearchRes (isq_nonce req) (isq_target req) l r)) w)
    by (apply eager_sync, map_err_ok; exact Es).
  destruct Hhop as [[Hr Hc]|(Hne & Hr & Hbe & Hrt)].
  - exists (MkIdSearchRes (isq_nonce req) (isq_target req) l r), w.
    assert (Hans : answers_search members req (MkIdSearchRes (isq_nonce req) (isq_target req) l r))
      by (split_and!; [done..|by rw Hr]).
    split_and!; [|done|done].
    apply eager_run. eapply eager_bind; [exact Hloc|]. cbn [isr_result].
    rw decide_True; [done|apply eager_ret].
  - destruct (search_stage hub nodes members self w n (isq_nonce req) (isq_target req) l
      (isq_direction req) r) as (r' & l' & w' & Hc & Hset & Hrun);
      [by eapply sg_overlay|by eapply sg_entries|by eapply sg_linked|by eapply sg_members|done..|
       by apply (Nat.le_lt_trans _ (isq_level req))|lia|].
    set (res := MkIdSearchRes (isq_nonce req) (isq_target req) l' r') in *.
    assert (Hans : answers_search members req res) by done.
    exists res, w'. split_and!; [|done|done].
    apply eager_run. eapply eager_bind; [exact Hloc|]. cbn [isr_result isr_termination_level].
    rw decide_False; [done|exact Hrun].
Qed.

(** An answer is the target itself when that is a member. *)
Lemma answers_exact members req res :
  answers_search members req res → isq_target req ∈ members → isr_result res = isq_target req.
Proof.
  intros (_ & _ & _ & Hr & Hc) Ht. apply (reaches_antisym (isq_direction req)); [done|].
  apply Hc; [done|by left].
Qed.

(** C4: [search_by_id] called on a member of a skip graph on the in-memory network, in
    the direction the target lies from it and at any real level, terminates with
    success and answers with the member closest to the target among those not past
    it; in particular it finds the target itself whenever the target is a member.
    Tables and registrations are untouched, and the node keeps exactly the waiters
    it had. *)
Theorem search_by_id_end_to_end hub nodes members self w req fuel :
  skip_graph hub nodes members w → nodes !! node_id self = Some self →
  node_id self ∈ members → reaches (isq_direction req) (node_id self) (isq_target req) →
  isq_level req < 256 → waiter_map (request_id_map self) w !! isq_nonce req = None →
  size members + 2 ≤ fuel →
  ∃ res w', run_alone (node_search_by_id (Network0 := mock_network fuel) self req) w
      = Done (Ok res, w')
    ∧ answers_search members req res
    ∧ (isq_target req ∈ members → isr_result res = isq_target req)
    ∧ settled self w w'.
Proof using Type*.
  intros Hsg Hself Hown Hreach Hlvl Hf Hfuel.
  destruct (search_run hub nodes members self w req fuel) as (res & w' & E & Ha & Hs); [done..|].
  exists res, w'. split_and!; [done..|by apply answers_exact|done].
Qed.
End search.

(** Node 2 searches for node 9 and for the absent 8. *)
Lemma search_by_id_end_to_end_witness :
  let self := OverlaySample.node 0 OverlaySample.n2 in
  let req target := MkIdSearchReq (MkNonce 1) target (id OverlaySample.n2) 1 Right in
  ∃ res1 w1 res2 w2,
    run_alone (node_search_by_id (Network0 := mock_network 5) self (req (id OverlaySample.n9)))
      OverlaySample.world = Done (Ok res1, w1) ∧ isr_result res1 = id OverlaySample.n9
    ∧ run_alone (node_search_by_id (Network0 := mock_network 5) self (req (Sample.ident x08)))
      OverlaySample.world = Done (Ok res2, w2)
    ∧ closest OverlaySample.members Right (Sample.ident x08) (isr_result res2).
Proof.
  intros self req.
  destruct (search_by_id_end_to_end 0 OverlaySample.nodes OverlaySample.members self
    OverlaySample.world (req (id OverlaySample.n9)) 5) as (res1 & w1 & E1 & _ & Hex & _).
  - apply JoinSample.overlay_skip_graph.
  - apply OverlaySample.n2_node.
  - apply OverlaySample.elem_of_members. decided.
  - decided.
  - simpl. lia.
  - apply (JoinSample.overlay_fresh OverlaySample.n2 0). by constructor.
  - rw OverlaySample.members_size. lia.
  - destruct (search_by_id_end_to_end 0 OverlaySample.nodes OverlaySample.members self
      OverlaySample.world (req (Sample.ident x08)) 5) as (res2 & w2 & E2 & (_ & _ & Hc) & _).
    + apply JoinSample.overlay_skip_graph.
    + apply OverlaySample.n2_node.
    + apply OverlaySample.elem_of_members. decided.
    + decided.
    + simpl. lia.
    + apply (JoinSample.overlay_fresh OverlaySample.n2 0). by constructor.
    + rw OverlaySample.members_size. lia.
    + exists res1, w1, res2, w2. split_and!; [exact E1| |exact E2|exact Hc].
      apply Hex. apply OverlaySample.elem_of_members. decided.
Defined.
