(* ===== verification/Context.v ===== *)
(** * Cancellable contexts ([src/core/context/mod.rs])

    A context is an immutable record around a cancellation token; children keep their
    parent. [tokio_util]'s tokens are third-party: a class gives their operations and
    another the documented behaviour, cancellation reaching exactly the descendants.
    So are [tokio]'s [sleep] and [select!]: of a sleep its documentation promises that it
    never ends early and ends some time after its duration, and of [select!] that it
    picks one of the branches that are ready, if there is one, in a random order.
    Readings of the clock are arguments of the operations that read it. *)
From S2P Require Import Prelude.

#[local] Set Warnings "-register-all".

(** Nanoseconds; [Instant] and [Duration]. *)
Abbreviation Instant := Z (only parsing).

(** ** Cancellation tokens *)
Class CancellationTokens : Type := {
  Tokens : Type;
  token_new : Tokens → nat * Tokens;
  child_token : nat → Tokens → nat * Tokens;
  token_cancel : nat → Tokens → Tokens;
  token_is_cancelled : nat → Tokens → bool;
  (** whether a poll of [cancelled().await] is ready *)
  token_cancelled : nat → Tokens → bool
}.

(** The documented behaviour, on an abstract view: the line of every token, itself and
    the tokens it descends from, and the tokens [cancel] was called on. A token is
    cancelled when [cancel] was called on one of its line. *)
Record Forest : Type := MkForest {
  lines : gmap nat (gset nat);
  hit : gset nat
}.

Definition line (f : Forest) (t : nat) : gset nat := default {[ t ]} (lines f !! t).

(** [n] is new to [f]. *)
Definition unused (f : Forest) (n : nat) : Prop :=
  lines f !! n = None ∧ (n ∉ hit f) ∧ ∀ t, n ≠ t → n ∉ line f t.

Class CancellationLaws `{CancellationTokens} : Type := {
  forest : Tokens → Forest;
  token_new_law s : unused (forest s) (token_new s).1
    ∧ forest (token_new s).2
      = MkForest (<[(token_new s).1 := {[ (token_new s).1 ]}]> (lines (forest s))) (hit (forest s));
  child_token_law t s : unused (forest s) (child_token t s).1
    ∧ (child_token t s).1 ≠ t
    ∧ forest (child_token t s).2
      = MkForest (<[(child_token t s).1 := {[ (child_token t s).1 ]} ∪ line (forest s) t]>
                    (lines (forest s))) (hit (forest s));
  token_cancel_law t s :
    forest (token_cancel t s) = MkForest (lines (forest s)) ({[ t ]} ∪ hit (forest s));
  token_is_cancelled_law t s :
    token_is_cancelled t s = true ↔ ∃ a, a ∈ hit (forest s) ∧ a ∈ line (forest s) t;
  token_cancelled_law t s : token_cancelled t s = token_is_cancelled t s
}.

(** ** Sleeping and selecting

    [select] is one poll of [tokio::select!] on its branches, each ready with a value or
    not, with the random draw it makes for their order. *)
Class Runtime : Type := {
  last_instant : Instant;
  Sleep : Type;
  sleep : Z → Instant → Sleep;
  poll_sleep : Instant → Sleep → bool * Sleep;
  Draw : Type;
  select {A : Type} : Draw → list (option A) → option A
}.

(** A sleep is over no earlier than its duration after it was started, and from some
    instant on, which may be later; polling it early changes neither. *)
Class RuntimeLaws `{Runtime} : Type := {
  elapses : Sleep → Instant;
  noticed : Sleep → Instant;
  sleep_elapses d now : elapses (sleep d now) = (now + d)%Z;
  poll_sleep_early now t : (now < elapses t)%Z → (poll_sleep now t).1 = false;
  poll_sleep_noticed now t : (noticed t ≤ now)%Z → (poll_sleep now t).1 = true;
  poll_sleep_pending now t : (poll_sleep now t).1 = false →
    elapses (poll_sleep now t).2 = elapses t ∧ noticed (poll_sleep now t).2 = noticed t;
  select_ready {A : Type} draw (bs : list (option A)) a :
    select draw bs = Some a → Some a ∈ bs;
  select_pending {A : Type} draw (bs : list (option A)) :
    select draw bs = None → ∀ b, b ∈ bs → b = None
}.

(** ** The context *)
Inductive IrrevocableContext : Type :=
| MkContext (token : nat) (deadline : option Instant) (parent : option IrrevocableContext).

Definition ctx_token (c : IrrevocableContext) : nat := let 'MkContext t _ _ := c in t.
Definition ctx_deadline (c : IrrevocableContext) : option Instant := 
  match c with MkContext _ d _ => d end.
Definition ctx_parent (c : IrrevocableContext) : option IrrevocableContext :=
  match c with MkContext _ _ p => p end.

Section context.
Context `{CancellationTokens} `{Runtime}.

Definition context_new (s : Tokens) : IrrevocableContext * Tokens :=
  let '(t, s') := token_new s in (MkContext t None None, s').

(** [Instant + Duration] panics past the last instant. *)
Definition instant_add (now : Instant) (d : Z) : outcome Instant :=
  if (now + d <=? last_instant)%Z then Done (now + d)%Z else Panicked.

Definition with_timeout (timeout : Z) (now : Instant) (s : Tokens)
    : outcome (IrrevocableContext * Tokens) :=
  let '(t, s') := token_new s in
  match instant_add now timeout with
  | Done deadline => Done (MkContext t (Some deadline) None, s')
  | Panicked => Panicked
  | OutOfFuel => OutOfFuel
  end.

Definition child (self : IrrevocableContext) (s : Tokens) : IrrevocableContext * Tokens :=
  let '(t, s') := child_token (ctx_token self) s in
  (MkContext t (ctx_deadline self) (Some self), s').

Definition cancel (self : IrrevocableContext) (s : Tokens) : Tokens :=
  token_cancel (ctx_token self) s.

Definition is_cancelled (self : IrrevocableContext) (s : Tokens) : bool :=
  token_is_cancelled (ctx_token self) s.

(** A poll of [cancelled().await]. *)
Definition cancelled (self : IrrevocableContext) (s : Tokens) : bool :=
  token_cancelled (ctx_token self) s.

Definition is_deadline_exceeded (self : IrrevocableContext) (now : Instant) : bool :=
  match ctx_deadline self with Some d => (d <=? now)%Z | None => false end.

Definition context_cancelled : Error := Anyhow "context cancelled" [].
Definition deadline_exceeded : Error := Anyhow "context deadline exceeded" [].

Definition err (self : IrrevocableContext) (now : Instant) (s : Tokens) : option Error :=
  if is_cancelled self s then Some context_cancelled
  else if is_deadline_exceeded self now then Some deadline_exceeded
  else None.

(** [with_cancel]: a child and the function that cancels it. *)
Definition with_cancel (self : IrrevocableContext) (s : Tokens)
    : IrrevocableContext * (Tokens → Tokens) * Tokens :=
  let '(c, s') := child self s in
  (c, token_cancel (ctx_token c), s').

(** [run], one poll at a time. At each the future is ready or not, [select!] makes its
    draw, and the tokens are what others left. The first poll reads the clock when it
    asks [err] and for the remaining time, and [sleep] reads it when it starts. *)
Section run.
Context {T : Type}.

Record Moment : Type := MkMoment {
  entered : Instant;
  asked : Instant;
  started : Instant;
  polled : Instant;
  future : option (result T);
  draw : Draw;
  tokens : Tokens
}.

(** Before its first poll, and at the [select!], with the sleep of a context that has a
    deadline. *)
Inductive RunFuture : Type := Entered | Selecting (timer : option Sleep).

(** [deadline.saturating_duration_since(Instant::now())] *)
Definition remaining (deadline now : Instant) : Z := Z.max 0 (deadline - now).

Definition poll_select (self : IrrevocableContext) (timer : option Sleep) (m : Moment)
    : result T + RunFuture :=
  let stop := if cancelled self (tokens m) then Some (Err context_cancelled) else None in
  let '(branches, timer') :=
    match timer with
    | Some t =>
        let '(over, t') := poll_sleep (polled m) t in
        ([future m; (if over then Some (Err deadline_exceeded) else None); stop], Some t')
    | None => ([future m; stop], None)
    end in
  match select (draw m) branches with
  | Some r => inl r
  | None => inr (Selecting timer')
  end.

Definition poll_run (self : IrrevocableContext) (f : RunFuture) (m : Moment)
    : result T + RunFuture :=
  match f with
  | Entered =>
      match err self (entered m) (tokens m) with
      | Some e => inl (Err e)
      | None =>
          let timer := (λ d, sleep (remaining d (asked m)) (started m)) <$> ctx_deadline self in
          poll_select self timer m
      end
  | Selecting timer => poll_select self timer m
  end.

(** The moment at which [run] ends, with its result. *)
Fixpoint run (self : IrrevocableContext) (f : RunFuture) (ms : list Moment)
    : option (Moment * result T) :=
  match ms with
  | [] => None
  | m :: rest =>
      match poll_run self f m with
      | inl r => Some (m, r)
      | inr f' => run self f' rest
      end
  end.
End run.

(** [throw_irrecoverable] never returns: it is a panic, in the root context, with a
    message; the result is the contexts passed through and the error. *)
Inductive Thrown : Type := Panic (root : IrrevocableContext) (through : nat) (e : Error).

Fixpoint throw_irrecoverable (self : IrrevocableContext) (e : Error) : Thrown :=
  let 'MkContext _ _ p := self in
  match p with
  | Some parent =>
      let 'Panic root n e' := throw_irrecoverable parent e in Panic root (S n) e'
  | None => Panic self 0 (Anyhow "irrecoverable error: {}" [ArgErr e])
  end.

(** [run_or_throw], on the result of [run]. *)
Definition or_throw {T} (self : IrrevocableContext) (r : result T) : T + Thrown :=
  match r with Ok v => inl v | Err e => inr (throw_irrecoverable self e) end.
Definition run_or_throw {T} (self : IrrevocableContext) (ms : list (@Moment T))
    : option (T + Thrown) :=
  or_throw self ∘ snd <$> run self Entered ms.
End context.
Arguments Moment {_ _} _.
Arguments MkMoment {_ _ _} _ _ _ _ _ _ _.

(** ** Properties *)
Section properties.
Context `{CancellationLaws} `{RuntimeLaws}.
Implicit Types (c : IrrevocableContext) (s : Tokens).
#[local] Set Default Proof Using "Type*".

(** What can happen to the tokens. *)
Inductive token_step s : Tokens → Prop :=
| step_new : token_step s (context_new s).2
| step_child c : token_step s (child c s).2
| step_cancel c : token_step s (cancel c s).

(** Lines are fixed once made, and calls to [cancel] are never forgotten. *)
Lemma step_forest s s' t : token_step s s' →
  (is_Some (lines (forest s) !! t) → line (forest s') t = line (forest s) t)
  ∧ line (forest s) t ⊆ line (forest s') t
  ∧ hit (forest s) ⊆ hit (forest s').
Proof.
  assert (Hadd : ∀ n l, unused (forest s) n → n ∈ l →
    let f := MkForest (<[n := l]> (lines (forest s))) (hit (forest s)) in
    (is_Some (lines (forest s) !! t) → line f t = line (forest s) t)
    ∧ line (forest s) t ⊆ line f t ∧ hit (forest s) ⊆ hit f).
  { intros n l (Hn & _) Hnl. rw /line /=. destruct (decide (t = n)) as [->|Hne].
    - rw lookup_insert_eq Hn /=. split_and!; [by intros []| |done].
      by intros a ->%elem_of_singleton.
    - by rw lookup_insert_ne. }
  intros [|c|c].
  - rw /context_new. pose proof (token_new_law s) as (Hn & Hf). destruct (token_new s) as [n s1].
    simpl in *. rw Hf. apply Hadd; [done|by apply elem_of_singleton].
  - rw /child. pose proof (child_token_law (ctx_token c) s) as (Hn & _ & Hf).
    destruct (child_token _ s) as [n s1]. simpl in *. rw Hf.
    apply Hadd; [done|by apply elem_of_union_l, elem_of_singleton].
  - rw /cancel token_cancel_law. split_and!; [done|done|apply union_subseteq_r].
Qed.

Lemma cancelled_step s s' t :
  token_step s s' → token_is_cancelled t s = true → token_is_cancelled t s' = true.
Proof.
  intros Hstep (a & Ha & Hl)%token_is_cancelled_law. apply token_is_cancelled_law.
  destruct (step_forest s s' t Hstep) as (_ & Hline & Hhit). exists a. auto.
Qed.

Lemma cancelled_mono s s' t :
  rtc token_step s s' → token_is_cancelled t s = true → token_is_cancelled t s' = true.
Proof.
  induction 1 as [s|s s1 s' Hstep _ IH]; [done|]. intros Hc. apply IH. by eapply cancelled_step.
Qed.

(** The token of a child. *)
Lemma child_line c s :
  ctx_token (child c s).1 ≠ ctx_token c
  ∧ unused (forest s) (ctx_token (child c s).1)
  ∧ line (forest (child c s).2) (ctx_token (child c s).1)
      = {[ ctx_token (child c s).1 ]} ∪ line (forest s) (ctx_token c)
  ∧ line (forest (child c s).2) (ctx_token c) = line (forest s) (ctx_token c)
  ∧ hit (forest (child c s).2) = hit (forest s).
Proof.
  rw /child. pose proof (child_token_law (ctx_token c) s) as (Hn & Hne & Hf).
  destruct (child_token _ s) as [n s1]. simpl in *. rw Hf /line /= lookup_insert_eq.
  split_and!; [done..| |done]. by rw lookup_insert_ne.
Qed.

(** [c'] was made from [c] (as it was in [s]) by any number of [child] and
    [with_cancel] calls, with anything happening to the tokens in between. *)
Inductive derived c s : IrrevocableContext → Tokens → Prop :=
| derived_self : derived c s c s
| derived_child c1 s1 : derived c s c1 s1 → derived c s (child c1 s1).1 (child c1 s1).2
| derived_step c1 s1 s2 : derived c s c1 s1 → token_step s1 s2 → derived c s c1 s2.

Lemma derived_line c s c' s' :
  derived c s c' s' →
  line (forest s) (ctx_token c) ⊆ line (forest s') (ctx_token c')
  ∧ hit (forest s) ⊆ hit (forest s').
Proof.
  induction 1 as [|c1 s1 _ [IHl IHh]|c1 s1 s2 _ [IHl IHh] Hstep]; [done| |].
  - destruct (child_line c1 s1) as (_ & _ & -> & _ & ->). split; [|done].
    etrans; [exact IHl|apply union_subseteq_r].
  - destruct (step_forest s1 s2 (ctx_token c1) Hstep) as (_ & ? & ?). by split; etrans.
Qed.

Lemma cancelled_by a c s :
  a ∈ hit (forest s) → a ∈ line (forest s) (ctx_token c) → is_cancelled c s = true.
Proof. intros Hh Hl. apply token_is_cancelled_law. by exists a. Qed.

(** A context that exists: its token was made and lies on its own line. *)
Definition live c s : Prop := ctx_token c ∈ line (forest s) (ctx_token c).

Lemma child_cancel_spares_parent c s :
  is_cancelled c (cancel (child c s).1 (child c s).2) = is_cancelled c s.
Proof.
  destruct (child_line c s) as (Hne & (_ & _ & Hun) & _ & Hline & Hhit).
  rw /is_cancelled. apply eq_true_iff_eq. rw !token_is_cancelled_law /cancel token_cancel_law.
  rw /line /= -/(line (forest (child c s).2) (ctx_token c)) Hline Hhit. split.
  - intros (a & [->%elem_of_singleton|Ha]%elem_of_union & Hl); [|by exists a].
    by destruct (Hun (ctx_token c)).
  - intros (a & Ha & Hl). exists a. split; [by apply elem_of_union_r|done].
Qed.

Lemma new_usable now s : err (context_new s).1 now (context_new s).2 = None.
Proof.
  rw /err /context_new. pose proof (token_new_law s) as ((_ & Hun & _) & Hf).
  destruct (token_new s) as [n s1]. simpl in *.
  assert (E : is_cancelled (MkContext n None None) s1 = false); [|by rw E].
  apply not_true_iff_false. intros (a & Ha & Hl)%token_is_cancelled_law.
  rw Hf /= in Ha. rw Hf /line /= lookup_insert_eq /= in Hl.
  by apply elem_of_singleton in Hl as ->.
Qed.

(** C36: cancellation reaches downward and is forever. A context made from [c] is
    cancelled by [cancel c], and is cancelled already if [c] was; it has [c]'s
    deadline. [err] then reports the cancellation, also when the deadline has passed
    as well, and nothing that happens later undoes it. Cancelling a new child does
    not cancel the context it was made from, and a new root context is usable. *)
Theorem cancellation_reaches_descendants c s c' s' now :
  live c s → derived c s c' s' →
  ctx_deadline c' = ctx_deadline c
  ∧ is_cancelled c' (cancel c s') = true
  ∧ (is_cancelled c s = true → is_cancelled c' s' = true)
  ∧ (∀ s2, is_cancelled c' s' = true → rtc token_step s' s2 →
       err c' now s2 = Some context_cancelled)
  ∧ is_cancelled c (cancel (child c s).1 (child c s).2) = is_cancelled c s
  ∧ err (context_new s).1 now (context_new s).2 = None.
Proof.
  intros Hlive Hd. destruct (derived_line c s c' s' Hd) as [Hl Hh]. split_and!.
  - clear Hl Hh. induction Hd as [|c1 s1 _ IH|c1 s1 s2 _ IH Hstep]; [done| |done].
    rw -IH /child. by destruct (child_token _ s1).
  - apply (cancelled_by (ctx_token c)); rw token_cancel_law.
    + by apply elem_of_union_l, elem_of_singleton.
    + by apply Hl.
  - intros (a & Ha & Hla)%token_is_cancelled_law. apply (cancelled_by a); auto.
  - intros s2 Hc Hsteps.
    assert (E : is_cancelled c' s2 = true) by by eapply cancelled_mono.
    by rw /err E.
  - apply child_cancel_spares_parent.
  - apply new_usable.
Qed.

Lemma err_none c now s :
  err c now s = None ↔ is_cancelled c s = false ∧ is_deadline_exceeded c now = false.
Proof using Type.
  rw /err. by destruct (is_cancelled c s), (is_deadline_exceeded c now); split; try intros [? ?].
Qed.

Lemma cancelled_now c s : cancelled c s = is_cancelled c s.
Proof. apply token_cancelled_law. Qed.

(** ** The course of a [run] *)
Section course.
Context {T : Type}.
Implicit Types (m : Moment T) (ms : list (Moment T)) (r : result T).

(** The readings of the first poll, in the order they are made. *)
Definition in_order m : Prop := (entered m ≤ asked m ≤ started m ∧ started m ≤ polled m)%Z.

(** The timer ends no earlier than the deadline. *)
Definition kept_until c (timer : option Sleep) : Prop :=
  match ctx_deadline c, timer with
  | Some d, Some t => (d ≤ elapses t)%Z
  | None, None => True
  | _, _ => False
  end.
Definition noticed_by (timer : option Sleep) (n : Instant) : Prop :=
  match timer with Some t => (noticed t ≤ n)%Z | None => False end.

(** Why a run may end with [r] at [m]. *)
Definition reason c m r : Prop :=
  future m = Some r
  ∨ (r = Err context_cancelled ∧ is_cancelled c (tokens m) = true)
  ∨ (r = Err deadline_exceeded ∧ ∃ d, ctx_deadline c = Some d ∧ (d ≤ polled m)%Z).

(** One poll of the [select!]: it ends for a reason, or there is none and the timer
    goes on. *)
Lemma poll_select_spec c timer m :
  kept_until c timer →
  match poll_select c timer m with
  | inl r => reason c m r
  | inr (Selecting timer') => future m = None ∧ is_cancelled c (tokens m) = false
      ∧ kept_until c timer' ∧ ¬ noticed_by timer (polled m)
      ∧ ∀ n, noticed_by timer n → noticed_by timer' n
  | inr Entered => False
  end.
Proof.
  intros Hk. rw /poll_select cancelled_now.
  set (stop := if is_cancelled c (tokens m) then _ else _).
  assert (Hstop : ∀ r, stop = Some r → r = Err context_cancelled ∧ is_cancelled c (tokens m) = true).
  { intros r. rw /stop. destruct (is_cancelled _ _); [by intros [= <-]|done]. }
  assert (Hno : stop = None → is_cancelled c (tokens m) = false).
  { rw /stop. by destruct (is_cancelled _ _). }
  rw /kept_until in Hk *. destruct timer as [t|]; destruct (ctx_deadline c) as [d|] eqn:Ed; try done.
  - pose proof (poll_sleep_early (polled m) t) as He. pose proof (poll_sleep_noticed (polled m) t) as Hn.
    pose proof (poll_sleep_pending (polled m) t) as Hp. destruct (poll_sleep (polled m) t) as [over t'].
    cbn [fst snd] in *. destruct (select _ _) as [r|] eqn:Es.
    + apply select_ready in Es as [E|[E|[E|[]%elem_of_nil]%elem_of_cons]%elem_of_cons]%elem_of_cons.
      * by left.
      * destruct over; [|done]. injection E as ->. right; right. split; [done|]. exists d. split; [done|].
        destruct (Z.le_gt_cases (elapses t) (polled m)); [lia|]. by specialize (He ltac:(lia)).
      * right; left. by apply Hstop.
    + pose proof (select_pending _ _ Es) as Hb.
      assert (Eo : over = false).
      { specialize (Hb (if over then Some (Err deadline_exceeded) else None)). destruct over; [|done].
        by specialize (Hb ltac:(right; left)). }
      subst over. destruct (Hp eq_refl) as [-> Hpn]. split_and!.
      * apply Hb. left.
      * apply Hno, Hb. do 2 right. left.
      * done.
      * simpl. intros Hle. by specialize (Hn Hle).
      * simpl. intros n. by rw Hpn.
  - destruct (select _ _) as [r|] eqn:Es.
    + apply select_ready in Es as [E|[E|[]%elem_of_nil]%elem_of_cons]%elem_of_cons; [by left|].
      right; left. by apply Hstop.
    + pose proof (select_pending _ _ Es) as Hb. split_and!; [apply Hb; left| |done|by intros []|done].
      apply Hno, Hb. right. left.
Qed.

(** The timer the first poll starts. *)
Definition first_timer c m : option Sleep :=
  (λ d, sleep (remaining d (asked m)) (started m)) <$> ctx_deadline c.

Lemma first_timer_kept c m : in_order m → kept_until c (first_timer c m).
Proof using Type*.
  intros ((_ & Ha) & _). rw /kept_until /first_timer. destruct (ctx_deadline c) as [d|]; [|done].
  rw /= sleep_elapses /remaining. lia.
Qed.

Lemma selecting_spec c timer ms :
  kept_until c timer →
  match run c (Selecting timer) ms with
  | Some (m, r) => m ∈ ms ∧ reason c m r
  | None => ∀ m, m ∈ ms → future m = None ∧ is_cancelled c (tokens m) = false
      ∧ ¬ noticed_by timer (polled m)
  end.
Proof.
  revert timer. induction ms as [|m ms IH]; intros timer Hk; cbn [run poll_run].
  { by intros m []%elem_of_nil. }
  pose proof (poll_select_spec c timer m Hk) as Hp.
  destruct (poll_select c timer m) as [r|[|timer']]; [|done|].
  - split; [by left|done].
  - destruct Hp as (Hf & Hc & Hk' & Hn & Hn'). specialize (IH timer' Hk').
    destruct (run c (Selecting timer') ms) as [[m' r]|].
    + destruct IH as [Hin Hr]. split; [by right|done].
    + intros m' [->|Hin]%elem_of_cons; [done|]. destruct (IH m' Hin) as (? & ? & Hno).
      split_and!; [done..|]. by intros ?%Hn'.
Qed.

Lemma entered_run c m ms :
  run c Entered (m :: ms) =
    match err c (entered m) (tokens m) with
    | Some e => Some (m, Err e)
    | None => run c (Selecting (first_timer c m)) (m :: ms)
    end.
Proof using Type. cbn [run poll_run]. by destruct (err _ _ _). Qed.

(** An error of [err] is a reason. *)
Lemma err_reason c m e :
  in_order m → err c (entered m) (tokens m) = Some e → reason c m (Err e).
Proof using Type.
  intros [Ho Ho']. rw /err /is_deadline_exceeded. right. destruct (is_cancelled _ _); [left; by simplify_eq|].
  destruct (ctx_deadline c) as [d|]; [|done]. destruct (Z.leb_spec d (entered m)); [|done].
  right. simplify_eq. split; [done|]. exists d. split; [done|lia].
Qed.

Lemma run_ends c m0 ms m r :
  in_order m0 → run c Entered (m0 :: ms) = Some (m, r) → m ∈ m0 :: ms ∧ reason c m r.
Proof.
  intros Ho. rw entered_run. destruct (err c (entered m0) (tokens m0)) as [e|] eqn:E.
  - intros [= <- <-]. split; [by left|by apply err_reason].
  - intros Er. pose proof (selecting_spec c _ (m0 :: ms) (first_timer_kept c m0 Ho)) as Hs. by rw Er in Hs.
Qed.

Lemma run_goes_on c m0 ms m :
  in_order m0 → run c Entered (m0 :: ms) = None → m ∈ m0 :: ms →
  future m = None ∧ is_cancelled c (tokens m) = false ∧ ¬ noticed_by (first_timer c m0) (polled m).
Proof.
  intros Ho. rw entered_run. destruct (err c (entered m0) (tokens m0)) as [e|]; [done|].
  intros Er. pose proof (selecting_spec c _ (m0 :: ms) (first_timer_kept c m0 Ho)) as Hs.
  rw Er in Hs. apply Hs.
Qed.

(** What comes after the end does not matter. *)
Lemma run_extend c f ms later x : run c f ms = Some x → run c f (ms ++ later) = Some x.
Proof using Type.
  revert f. induction ms as [|m ms IH]; intros f; [done|]. cbn [app run].
  destruct (poll_run c f m); [done|apply IH].
Qed.
End course.

(** C37: how a [run] ends, over any course of polls, each with what the future and the
    tokens then are and in whatever order [select!] tries its branches. A context that
    is cancelled or expired when [run] is entered refuses at once, the future not looked
    at. Any end has its reason at that moment: the future's own result; a cancelled
    context, for the cancellation error; a deadline that has passed, never one that is
    ahead, for the deadline error. A run that has not ended had none: its future was
    never ready and its context not cancelled at any poll; and with a deadline there is an
    instant after which the first poll ends it. So a future that is ready before the
    context is cancelled and before its deadline gives the run its result, whatever
    follows. *)
Theorem run_outcomes {T} c (m0 : Moment T) :
  in_order m0 →
  (∀ e ms, err c (entered m0) (tokens m0) = Some e → run c Entered (m0 :: ms) = Some (m0, Err e))
  ∧ (∀ ms m r, run c Entered (m0 :: ms) = Some (m, r) → m ∈ m0 :: ms ∧ reason c m r)
  ∧ (∀ ms, run c Entered (m0 :: ms) = None →
       ∀ m, m ∈ m0 :: ms → future m = None ∧ is_cancelled c (tokens m) = false)
  ∧ (∀ d, ctx_deadline c = Some d →
       ∃ n, ∀ ms m, m ∈ m0 :: ms → (n ≤ polled m)%Z → is_Some (run c Entered (m0 :: ms)))
  ∧ (∀ ms m r before, m0 :: ms = before ++ [m] → future m = Some r →
       (∀ m', m' ∈ before → future m' = None) →
       (∀ m', m' ∈ m0 :: ms → is_cancelled c (tokens m') = false
          ∧ ∀ d, ctx_deadline c = Some d → (polled m' < d)%Z) →
       ∀ later, run c Entered ((m0 :: ms) ++ later) = Some (m, r)).
Proof.
  intros Ho. split_and!.
  - intros e ms E. by rw entered_run E.
  - intros ms m r. by apply run_ends.
  - intros ms Er m Hm. by destruct (run_goes_on c m0 ms m Ho Er Hm) as (? & ? & _).
  - intros d Ed. exists (noticed (sleep (remaining d (asked m0)) (started m0))). intros ms m Hm Hn.
    destruct (run c Entered (m0 :: ms)) eqn:Er; [done|].
    destruct (run_goes_on c m0 ms m Ho Er Hm) as (_ & _ & Hno). destruct Hno. by rw /first_timer Ed.
  - intros ms m r before Ebefore Hm Hbefore Hquiet later. apply run_extend.
    assert (Hlast : m ∈ m0 :: ms) by (rw Ebefore elem_of_app; right; by left).
    destruct (run c Entered (m0 :: ms)) as [[m' r']|] eqn:Er; last first.
    { destruct (run_goes_on c m0 ms m Ho Er Hlast) as (Hf & _). by rw Hm in Hf. }
    destruct (run_ends c m0 ms m' r' Ho Er) as [Hin Hr]. destruct (Hquiet m' Hin) as [Hc Hd].
    destruct Hr as [Hf|[[_ Hc']|(_ & d & Ed & Hle)]]; [|by rw Hc in Hc'|specialize (Hd d Ed); lia].
    rw Ebefore in Hin. apply elem_of_app in Hin as [Hin|Hin].
    + by rw (Hbefore m' Hin) in Hf.
    + apply list_elem_of_singleton in Hin as ->. congruence.
Qed.

(** The length of the chain of parents. *)
Fixpoint depth c : nat :=
  match c with
  | MkContext _ _ None => 0
  | MkContext _ _ (Some p) => S (depth p)
  end.

(** An irrecoverable error thrown in any context passes through each of its
    ancestors once and panics in the root, with the root's message around the
    error; a child throws to the same root as its parent, and [run_or_throw] returns
    the value of a success and panics there on an error. *)
Theorem throw_reaches_root {T} c s e (v : T) :
  ∃ root, ctx_parent root = None
    ∧ throw_irrecoverable c e = Panic root (depth c) (Anyhow "irrecoverable error: {}" [ArgErr e])
    ∧ throw_irrecoverable (child c s).1 e
        = Panic root (S (depth c)) (Anyhow "irrecoverable error: {}" [ArgErr e])
    ∧ or_throw c (Ok v) = inl v
    ∧ or_throw c (@Err T e) = inr (Panic root (depth c) (Anyhow "irrecoverable error: {}" [ArgErr e])).
Proof.
  assert (Hc : ∃ root, ctx_parent root = None
    ∧ throw_irrecoverable c e = Panic root (depth c) (Anyhow "irrecoverable error: {}" [ArgErr e])).
  { revert c. fix IH 1. intros [t d [p|]]; [|by exists (MkContext t d None)].
    destruct (IH p) as (root & Hr & E). exists root. split; [done|]. simpl. by rw E. }
  destruct Hc as (root & Hr & E). exists root. split_and!; [done..| |done|by rw /or_throw E].
  rw /child. destruct (child_token _ s) as [n s1]. simpl. by rw E.
Qed.
End properties.

(** ** A concrete forest *)
Module MapTokens.
Definition used (f : Forest) (t : nat) : gset nat :=
  dom (lines f) ∪ hit f ∪ ⋃ (map_to_list (lines f)).*2 ∪ {[ t ]}.

#[global] Instance tokens : CancellationTokens := {|
  Tokens := Forest;
  token_new f := let n := fresh (used f 0) in (n, MkForest (<[n := {[ n ]}]> (lines f)) (hit f));
  child_token t f := let n := fresh (used f t) in
    (n, MkForest (<[n := {[ n ]} ∪ line f t]> (lines f)) (hit f));
  token_cancel t f := MkForest (lines f) ({[ t ]} ∪ hit f);
  token_is_cancelled t f := bool_decide (hit f ∩ line f t ≠ ∅);
  token_cancelled t f := bool_decide (hit f ∩ line f t ≠ ∅)
|}.

Lemma fresh_unused f t : unused f (fresh (used f t)) ∧ fresh (used f t) ≠ t.
Proof.
  pose proof (is_fresh (used f t)) as Hn. revert Hn. generalize (fresh (used f t)) as n.
  intros n Hn. rw /used !not_elem_of_union not_elem_of_singleton in Hn.
  destruct Hn as [[[Hd Hh] Hl] Ht]. split; [|done]. split_and!; [by apply not_elem_of_dom|done|].
  intros t' Hne. rw /line. destruct (lines f !! t') as [l|] eqn:E; simpl.
  - intros Hin. apply Hl. apply elem_of_union_list. exists l. split; [|done].
    apply list_elem_of_fmap. exists (t', l). split; [done|]. by apply elem_of_map_to_list.
  - by apply not_elem_of_singleton.
Qed.

#[global] Instance tokens_laws : CancellationLaws.
Proof.
  refine {| forest := λ s : @Tokens tokens, s : Forest |}; simpl.
  - intros s. split; [apply fresh_unused|done].
  - intros t s. destruct (fresh_unused s t). by split_and!.
  - done.
  - intros t s. rw bool_decide_eq_true. split.
    + intros (a & Ha)%set_choose_L. exists a. by apply elem_of_intersection in Ha.
    + intros (a & Ha & Hl) E. assert (a ∈ hit s ∩ line s t) as Hin by by apply elem_of_intersection.
      rw E in Hin. by apply not_elem_of_empty in Hin.
  - done.
Defined.

(** A clock in milliseconds that notices the end of a sleep one late; branches are tried
    from the drawn one on. *)
#[global] Instance runtime : Runtime := {|
  last_instant := 1000000;
  Sleep := Z;
  sleep d now := (now + d)%Z;
  poll_sleep now t := ((t <? now)%Z, t);
  Draw := nat;
  select A draw bs := head (omap (λ b, b) (rotate draw bs))
|}.
#[global] Instance runtime_laws : RuntimeLaws.
Proof.
  refine {| elapses := λ t : @Sleep runtime, (t : Z); noticed := λ t : @Sleep runtime, (t + 1)%Z |};
    simpl.
  - done.
  - intros now t Ht. apply Z.ltb_ge. lia.
  - intros now t Ht. apply Z.ltb_lt. lia.
  - done.
  - intros A draw bs a. rw head_Some. intros [l E].
    assert (Ha : a ∈ omap (λ b, b) (rotate draw bs)) by (rw E; left).
    apply list_elem_of_omap in Ha as (b & Hb & ->). by apply elem_of_rotate in Hb.
  - intros A draw bs E b Hb. apply head_None in E. destruct b as [a|]; [|done].
    assert (Ha : a ∈ omap (λ b, b) (rotate draw bs)); [|by rw E in Ha; apply elem_of_nil in Ha].
    apply list_elem_of_omap. exists (Some a). split; [|done]. by apply elem_of_rotate.
Defined.

Definition root : IrrevocableContext * @Tokens tokens :=
  default (MkContext 0 None None, MkForest ∅ ∅)
    match with_timeout 100 0 (MkForest ∅ ∅) with Done r => Some r | _ => None end.
Definition kid : IrrevocableContext * @Tokens tokens := child root.1 root.2.
End MapTokens.

(** Cancelling the root cancels the child made from it. *)
Lemma cancellation_reaches_descendants_witness :
  is_cancelled MapTokens.kid.1 (cancel MapTokens.root.1 MapTokens.kid.2) = true
  ∧ is_cancelled MapTokens.root.1 MapTokens.kid.2 = false.
Proof.
  destruct (cancellation_reaches_descendants MapTokens.root.1 MapTokens.root.2 MapTokens.kid.1
    MapTokens.kid.2 0) as (_ & H & _).
  - unfold live. decided.
  - apply derived_child, derived_self.
  - split; [exact H|vm_compute; reflexivity].
Defined.

Module RunSample.
Import MapTokens.
(** Three polls: nothing is there, the deadline has just passed, it is noticed and the
    future may be ready. *)
Definition first : Moment nat := MkMoment 1 2 3 4 None 0 kid.2.
Definition second : Moment nat := MkMoment 0 0 0 101 None 1 kid.2.
Definition third (future : option (result nat)) : Moment nat := MkMoment 0 0 0 102 future 2 kid.2.
(** Entered after the deadline, with the future ready. *)
Definition late : Moment nat := MkMoment 100 101 102 103 (Some (Ok 7)) 0 kid.2.
Definition early : Moment nat := MkMoment 1 2 3 4 (Some (Ok 7)) 0 kid.2.
End RunSample.

(** A run that waits has ended once its future was ready; entered too late, it refuses;
    a future that is ready in time gives its result. *)
Lemma run_outcomes_witness :
  match run MapTokens.kid.1 Entered [RunSample.first; RunSample.second] with
  | Some _ => False
  | None => True
  end
  ∧ is_Some (run MapTokens.kid.1 Entered
               [RunSample.first; RunSample.second; RunSample.third (Some (Ok 7))])
  ∧ run MapTokens.kid.1 Entered [RunSample.late] = Some (RunSample.late, Err deadline_exceeded)
  ∧ run MapTokens.kid.1 Entered [RunSample.early; RunSample.second]
      = Some (RunSample.early, Ok 7).
Proof.
  split; [vm_compute; exact I|]. split_and!.
  - destruct (run_outcomes MapTokens.kid.1 RunSample.first) as (_ & _ & Hn & _).
    { unfold in_order. simpl. lia. }
    destruct (run _ _ _) eqn:E; [eexists; reflexivity|].
    destruct (Hn _ E (RunSample.third (Some (Ok 7)))) as [Hf _]; [do 2 right; left|discriminate Hf].
  - destruct (run_outcomes MapTokens.kid.1 RunSample.late) as (H & _).
    { unfold in_order. simpl. lia. }
    apply (H deadline_exceeded []). vm_compute. reflexivity.
  - destruct (run_outcomes MapTokens.kid.1 RunSample.early) as (_ & _ & _ & _ & H).
    { unfold in_order. simpl. lia. }
    apply (H [] RunSample.early (Ok 7) []); try reflexivity.
    + intros m []%elem_of_nil.
    + intros m ->%list_elem_of_singleton. split; [vm_compute; reflexivity|].
      intros d E. vm_compute in E. injection E as <-. reflexivity.
Defined.
