(* ===== verification/Observability.v ===== *)
(** * Metrics ([src/observability/labels.rs], [src/observability/metrics.rs])

    The labels, and the traits a node's metrics are recorded through. The code never
    calls the traits; their contract is that recording returns nothing and cannot
    fail. *)
From S2P Require Import Prelude Bytes Model LookupTable.

Inductive SearchOutcome : Type := Found | NotFound.

Inductive MessageType : Type :=
| TestMessageType
| SearchByIdRequestType
| SearchByIdResponseType.

Definition MEDIUM_LEVEL_FLOOR : LookupTableLevel := 16.
Definition HIGH_LEVEL_FLOOR : LookupTableLevel := 64.
Definition OVERFLOW_LEVEL_FLOOR : LookupTableLevel := 256.

Inductive LevelBucket : Type := Low | Medium | High | Overflow.

(** The derived order of the variants. *)
Definition bucket_index (b : LevelBucket) : nat :=
  match b with Low => 0 | Medium => 1 | High => 2 | Overflow => 3 end.

Definition from_level (level : LookupTableLevel) : LevelBucket :=
  if (level <? MEDIUM_LEVEL_FLOOR)%nat then Low
  else if (level <? HIGH_LEVEL_FLOOR)%nat then Medium
  else if (level <? OVERFLOW_LEVEL_FLOOR)%nat then High
  else Overflow.

(** The bucket of a level is the one whose documented range contains it, buckets
    grow with levels, and [Overflow] catches exactly the levels no lookup table has. *)
Theorem from_level_spec level :
  match from_level level with
  | Low => level < 16
  | Medium => 16 ≤ level < 64
  | High => 64 ≤ level < 256
  | Overflow => 256 ≤ level
  end
  ∧ (∀ level', level ≤ level' →
       bucket_index (from_level level) ≤ bucket_index (from_level level'))
  ∧ (from_level level = Overflow ↔ LOOKUP_TABLE_LEVELS ≤ level).
Proof.
  rw /from_level /MEDIUM_LEVEL_FLOOR /HIGH_LEVEL_FLOOR /OVERFLOW_LEVEL_FLOOR.
  change LOOKUP_TABLE_LEVELS with 256. split_and!.
  - destruct (Nat.ltb_spec level 16), (Nat.ltb_spec level 64), (Nat.ltb_spec level 256); lia.
  - intros level' Hle.
    destruct (Nat.ltb_spec level 16), (Nat.ltb_spec level 64), (Nat.ltb_spec level 256),
      (Nat.ltb_spec level' 16), (Nat.ltb_spec level' 64), (Nat.ltb_spec level' 256); simpl; lia.
  - destruct (Nat.ltb_spec level 16), (Nat.ltb_spec level 64), (Nat.ltb_spec level 256);
      (split; [intros E; try discriminate E; lia|intros; try lia; done]).
Qed.

(** Levels 15 and 16. *)
Lemma from_level_spec_witness :
  bucket_index (from_level 15) ≤ bucket_index (from_level 16).
Proof. destruct (from_level_spec 15) as (_ & H & _). apply (H 16). lia. Defined.

(** ** The traits

    A method returns [()] and must not panic: it is a change of the backend's state. *)
Class SearchMetrics (S : Type) : Type := {
  record_search : SearchOutcome → nat → Z → S → S
}.
Class LookupTableMetrics (S : Type) : Type := {
  record_neighbor_install : LevelBucket → Direction → S → S
}.
Class NetworkMetrics (S : Type) : Type := {
  record_message_sent : MessageType → S → S;
  record_message_received : MessageType → S → S
}.

(** [NodeMetrics] follows from the three and is never implemented directly. *)
Class NodeMetrics (S : Type) `{SearchMetrics S} `{LookupTableMetrics S} `{NetworkMetrics S} : Type := {}.
#[global] Instance node_metrics {S} `{SearchMetrics S} `{LookupTableMetrics S} `{NetworkMetrics S} :
  NodeMetrics S := {}.
