(* ===== verification/Fixtures.v ===== *)
(** * Test fixtures ([src/core/testutil/fixtures.rs], [src/node/testutil.rs])

    The fixtures the repository's tests rest on: identifiers on a given side of
    another, the assertion that tables form one doubly linked list, and the hub of
    sorted nodes. Random draws are arguments. The assertion is proved to say what the
    theorems on the join say, and the scenario of nodes joining one after the other is
    run on the model. *)
From S2P Require Import Prelude Bytes Model LookupTable Core World BaseNode Hub Overlay Async NodeOps Join.
From S2P Require Import Identifier.

(** [Box::new(ArrayLookupTable::new())]; clones share it. *)
Definition table_new {N} `{Oneshot} : M (World ArrayLookupTable.InnerArrayLookupTable N) loc :=
  lt ← gets (λ w, fresh (dom (tables w)));
  _ ← modify (set_tables <[lt := ArrayLookupTable.new]>);
  mret lt.

(** ** Identifiers above and below another *)

(** The loop over the bytes from the end: the first byte that is not [0xFF] grows. *)
Fixpoint bump (rev_bytes : list u8) : list u8 :=
  match rev_bytes with
  | [] => []
  | byte :: rest =>
      if (u8_val byte <? 255)%Z then u8_of (u8_val byte + 1) :: rest else byte :: bump rest
  end.

(** The loop over the bytes from the start: the first byte that is not 0 shrinks. *)
Fixpoint shrink (bytes : list u8) : list u8 :=
  match bytes with
  | [] => []
  | byte :: rest =>
      if (0 <? u8_val byte)%Z then u8_of (u8_val byte - 1) :: rest else byte :: shrink rest
  end.

Definition unwrap {A} (r : result A) : outcome A :=
  match r with Ok a => Done a | Err _ => Panicked end.

Definition random_identifier_greater_than (target random_identifier : Identifier)
    : outcome Identifier :=
  if decide (target = ZERO) then Done random_identifier
  else if decide (target = MAX) then Panicked
  else unwrap (Identifier.from_bytes (reverse (bump (reverse (Identifier.to_bytes target))))).

Definition random_identifier_less_than (target random_identifier : Identifier)
    : outcome Identifier :=
  if decide (target = ZERO) then Panicked
  else if decide (target = MAX) then Done random_identifier
  else unwrap (Identifier.from_bytes (shrink (Identifier.to_bytes target))).

Lemma be_value_middle p b c q :
  (u8_val b < u8_val c)%Z → (be_value (p ++ b :: q) < be_value (p ++ c :: q))%Z.
Proof.
  intros Hbc. induction p as [|x p IH]; cbn [app be_value].
  - assert (0 < 256 ^ Z.of_nat (length q))%Z by lia. nia.
  - rw !length_app /=. lia.
Qed.

Lemma u8_val_inc b : (u8_val b < 255)%Z → u8_val (u8_of (u8_val b + 1)) = (u8_val b + 1)%Z.
Proof. intros H. rw u8_val_of. pose proof (u8_val_range b). by rw Z.mod_small; [lia|]. Qed.

Lemma u8_val_dec b : (0 < u8_val b)%Z → u8_val (u8_of (u8_val b - 1)) = (u8_val b - 1)%Z.
Proof. intros H. rw u8_val_of. pose proof (u8_val_range b). by rw Z.mod_small; [lia|]. Qed.

Lemma bump_cases l :
  l = replicate (length l) xff
  ∨ ∃ p b c q, l = p ++ b :: q ∧ bump l = p ++ c :: q ∧ (u8_val b < u8_val c)%Z.
Proof.
  induction l as [|b l IH]; [by left|]. cbn [bump length replicate].
  destruct (Z.ltb_spec (u8_val b) 255) as [Hb|Hb].
  - right. exists [], b, (u8_of (u8_val b + 1)), l. split_and!; [done..|].
    rw u8_val_inc; [done|lia].
  - assert (b = xff) as ->.
    { apply u8_val_inj. pose proof (u8_val_range b). change (u8_val xff) with 255%Z. lia. }
    destruct IH as [E|(p & b & c & q & -> & E & Hlt)]; [left; by f_equal|].
    right. exists (xff :: p), b, c, q. by rw E.
Qed.

Lemma shrink_cases l :
  l = replicate (length l) x00
  ∨ ∃ p b c q, l = p ++ b :: q ∧ shrink l = p ++ c :: q ∧ (u8_val c < u8_val b)%Z.
Proof.
  induction l as [|b l IH]; [by left|]. cbn [shrink length replicate].
  destruct (Z.ltb_spec 0 (u8_val b)) as [Hb|Hb].
  - right. exists [], b, (u8_of (u8_val b - 1)), l. split_and!; [done..|].
    rw u8_val_dec; [done|lia].
  - assert (b = x00) as ->.
    { apply u8_val_inj. pose proof (u8_val_range b). change (u8_val x00) with 0%Z. lia. }
    destruct IH as [E|(p & b & c & q & -> & E & Hlt)]; [left; by f_equal|].
    right. exists (x00 :: p), b, c, q. by rw E.
Qed.

Lemma from_bytes_32 l : length l = 32 → ∃ i, Identifier.from_bytes l = Ok i ∧ id_val i = be_value l.
Proof.
  intros Hl. destruct (Identifier.from_bytes l) as [i|e] eqn:E.
  - exists i. split; [done|]. by apply from_bytes_val.
  - revert E. rw /Identifier.from_bytes. destruct (le_gt_dec _ _) as [H|H]; [done|].
    rw /IDENTIFIER_SIZE_BYTES in H. lia.
Qed.

Lemma all_bytes (i : Identifier) b :
  Identifier.to_bytes i = replicate (length (Identifier.to_bytes i)) b →
  i = MkIdentifier (array32_repeat b).
Proof.
  destruct i as [a]. rw /Identifier.to_bytes /= arr_length. intros E. f_equal. by apply array32_eq.
Qed.

(** Away from the other extreme the fixtures draw nothing: two calls with one argument
    return the same identifier. The join tests that take both the introducer and the
    node its search finds from [random_identifier_less_than] of the joining node thus
    have the introducer find itself. *)
Lemma identifiers_on_a_side_deterministic target drawn drawn' :
  (target ≠ ZERO →
     random_identifier_greater_than target drawn = random_identifier_greater_than target drawn')
  ∧ (target ≠ MAX →
     random_identifier_less_than target drawn = random_identifier_less_than target drawn').
Proof.
  rw /random_identifier_greater_than /random_identifier_less_than. split; intros Hne.
  - by rw !(decide_False _ _ Hne).
  - case_decide; [done|]. by rw !(decide_False _ _ Hne).
Qed.

(** Between the extremes, one strictly above and one strictly below. *)
Lemma fixtures_between target drawn :
  target ≠ ZERO → target ≠ MAX →
  (∃ i, random_identifier_greater_than target drawn = Done i ∧ beyond Right target i)
  ∧ (∃ i, random_identifier_less_than target drawn = Done i ∧ beyond Left target i).
Proof.
  intros Hz Hm.
  rw /random_identifier_greater_than /random_identifier_less_than.
  do 2 (rw decide_False; [done|]). rw (decide_False _ _ Hz) (decide_False _ _ Hm).
  assert (Hlen : length (Identifier.to_bytes target) = 32) by apply arr_length. split.
  - destruct (bump_cases (reverse (Identifier.to_bytes target))) as [E|(p & b & c & q & E & -> & Hlt)].
    { destruct Hm. apply all_bytes. apply (f_equal reverse) in E.
      by rw reverse_involutive length_reverse reverse_replicate in E. }
    apply (f_equal reverse) in E. rw reverse_involutive reverse_app reverse_cons -app_assoc /= in E.
    rw reverse_app reverse_cons -app_assoc /=.
    destruct (from_bytes_32 (reverse q ++ c :: reverse p)) as (i & -> & Ei).
    { rw E in Hlen. rw length_app /= in Hlen. by rw length_app /=. }
    exists i. split; [done|]. rw /beyond Ei /id_val -/(Identifier.to_bytes target) E.
    by apply be_value_middle.
  - destruct (shrink_cases (Identifier.to_bytes target)) as [E|(p & b & c & q & E & -> & Hlt)].
    { destruct Hz. by apply all_bytes. }
    destruct (from_bytes_32 (p ++ c :: q)) as (i & -> & Ei).
    { rw E in Hlen. rw length_app /= in Hlen. by rw length_app /=. }
    exists i. split; [done|]. rw /beyond Ei /id_val -/(Identifier.to_bytes target) E.
    by apply be_value_middle.
Qed.

(** C40: the fixtures do what their names say: for every identifier other than the two
    extremes they return one strictly above, or strictly below, it, the same
    whatever is drawn; at the extreme on that side they panic, and at the other extreme
    they return the random draw, whatever it is. *)
Theorem identifiers_on_a_side target drawn :
  (target ≠ ZERO → target ≠ MAX →
     (∃ i, (∀ drawn', random_identifier_greater_than target drawn' = Done i) ∧ beyond Right target i)
     ∧ (∃ i, (∀ drawn', random_identifier_less_than target drawn' = Done i) ∧ beyond Left target i))
  ∧ random_identifier_greater_than MAX drawn = Panicked
  ∧ random_identifier_less_than ZERO drawn = Panicked
  ∧ random_identifier_greater_than ZERO drawn = Done drawn
  ∧ random_identifier_less_than MAX drawn = Done drawn.
Proof.
  split_and!; [|done..]. intros Hz Hm.
  destruct (fixtures_between target drawn Hz Hm) as [(i & Ei & Hi) (j & Ej & Hj)].
  split; [exists i|exists j]; (split; [|done]);
    intros drawn'; destruct (identifiers_on_a_side_deterministic target drawn' drawn) as [Eg El];
    [by rw Eg|by rw El].
Qed.

(** ** [assert_doubly_linked_at_level] *)
Section assertion.
Context `{LookupTable L}.

(** One [assert_eq!] on a slot of a table. *)
Definition assert_slot (lt : L) (level : LookupTableLevel) (d : Direction)
    (expected : option Identifier) : bool :=
  match get_entry level d lt with
  | Done (Ok e, _) => bool_decide (id <$> e = expected)
  | _ => false
  end.

(** The loop over [tables.iter().enumerate()]. *)
Fixpoint assert_tables (ids : list Identifier) (tables : list L) (i : nat)
    (level : LookupTableLevel) : bool :=
  match tables with
  | [] => true
  | lt :: rest =>
      let below := match i with 0 => None | S j => ids !! j end in
      let above := ids !! (i + 1) in
      assert_slot lt level Left below && assert_slot lt level Right above
      && assert_tables ids rest (i + 1) level
  end.

(** Whether the assertion passes. *)
Definition assert_doubly_linked_at_level (ids : list Identifier) (tables : list L)
    (level : LookupTableLevel) : bool :=
  (length ids =? length tables)%nat && assert_tables ids tables 0 level.
End assertion.

Section assertion_spec.
Context `{LookupTableSpec L}.

Lemma assert_slot_spec (lt : L) level d e :
  lt_wf lt → level < LOOKUP_TABLE_LEVELS →
  assert_slot lt level d e = true ↔ id <$> slots lt level d = e.
Proof.
  intros Hwf Hl. rw /assert_slot get_entry_spec; [done..|]. by rw bool_decide_eq_true.
Qed.

(** The neighbor the loop expects of node [k]. *)
Definition expected (ids : list Identifier) (k : nat) (d : Direction) : option Identifier :=
  match d with
  | Left => match k with 0 => None | S j => ids !! j end
  | Right => ids !! (k + 1)
  end.

Lemma assert_tables_spec ids (ts : list L) i level :
  Forall lt_wf ts → level < LOOKUP_TABLE_LEVELS →
  assert_tables ids ts i level = true ↔
    ∀ k t d, ts !! k = Some t → id <$> slots t level d = expected ids (i + k) d.
Proof.
  intros Hwf Hl. revert i. induction Hwf as [|t ts Ht Hts IH]; intros i.
  - split; [|done]. intros _ k t d. by rw lookup_nil.
  - cbn [assert_tables]. rw !andb_true_iff IH !assert_slot_spec; [done..|]. split.
    + intros [[El Er] Hrest] [|k] t' d; cbn [lookup list_lookup].
      * intros [= <-]. rw Nat.add_0_r. by destruct d.
      * intros Ek. rw (Hrest k t' d Ek). f_equal. lia.
    + intros Hall. split_and!.
      * rw (Hall 0 t Left eq_refl). by rw Nat.add_0_r.
      * rw (Hall 0 t Right eq_refl). by rw Nat.add_0_r.
      * intros k t' d Ek. rw (Hall (S k) t' d Ek). f_equal. lia.
Qed.

(** Positions in an ascending list are ordered as the identifiers are. *)
Lemma ascending_lt ids i j a b :
  StronglySorted (λ a b, beyond Right a b) ids → ids !! i = Some a → ids !! j = Some b →
  beyond Right a b ↔ i < j.
Proof.
  intros Hs Ha Hb.
  assert (Hlt : ∀ i j a b, ids !! i = Some a → ids !! j = Some b → i < j → beyond Right a b).
  { clear -Hs. induction Hs as [|x l Hs IH Hall]; intros i j a b; [by rw lookup_nil|].
    destruct i as [|i], j as [|j]; simpl; [lia| |lia|].
    - intros [= <-] Hb _. rw Forall_forall in Hall. apply Hall. by eapply list_elem_of_lookup_2.
    - intros Ha Hb Hlt. apply (IH i j); [done..|lia]. }
  split; [|by apply Hlt]. intros Hab. destruct (Nat.lt_trichotomy i j) as [?|[->|?]]; [done| |].
  - rw Ha in Hb. injection Hb as ->. by destruct (beyond_irrefl _ _ Hab).
  - destruct (beyond_asym _ _ _ Hab). by apply (Hlt j i).
Qed.

(** In an ascending list the closest identifier on a side is the next position. *)
Lemma expected_closest ids k i d :
  StronglySorted (λ a b, beyond Right a b) ids → ids !! k = Some i →
  match expected ids k d with
  | Some e => e ∈ ids ∧ beyond d i e ∧ ∀ j, j ∈ ids → beyond d i j → reaches d e j
  | None => ∀ j, j ∈ ids → ¬ beyond d i j
  end.
Proof.
  intros Hs Hk. destruct d; simpl.
  - destruct k as [|k].
    + intros j [m Hm]%list_elem_of_lookup_1 Hb. apply (ascending_lt ids m 0) in Hb; [lia|done..].
    + destruct (ids !! k) as [e|] eqn:Ee; last first.
      { apply lookup_ge_None in Ee. apply lookup_lt_Some in Hk. lia. }
      split_and!; [by eapply list_elem_of_lookup_2|by apply (ascending_lt ids k (S k)); [..|lia]|].
      intros j [m Hm]%list_elem_of_lookup_1 Hb. apply (ascending_lt ids m (S k)) in Hb; [|done..].
      destruct (decide (m = k)) as [->|Hne]; [rw Ee in Hm; injection Hm as ->; by left|].
      right. apply (ascending_lt ids m k); [done..|lia].
  - destruct (ids !! (k + 1)) as [e|] eqn:Ee.
    + split_and!; [by eapply list_elem_of_lookup_2|by apply (ascending_lt ids k (k + 1)); [..|lia]|].
      intros j [m Hm]%list_elem_of_lookup_1 Hb. apply (ascending_lt ids k m) in Hb; [|done..].
      destruct (decide (m = k + 1)) as [->|Hne]; [rw Ee in Hm; injection Hm as ->; by left|].
      right. apply (ascending_lt ids (k + 1) m); [done..|lia].
    + intros j [m Hm]%list_elem_of_lookup_1 Hb. apply (ascending_lt ids k m) in Hb; [|done..].
      apply lookup_ge_None in Ee. apply lookup_lt_Some in Hm. lia.
Qed.

(** The closest neighbor is unique. *)
Lemma closest_unique (members : gset Identifier) d i (a b : option Identifier) :
  let is_next o := match o with
    | Some e => e ∈ members ∧ beyond d i e ∧ ∀ j, j ∈ members → beyond d i j → reaches d e j
    | None => ∀ j, j ∈ members → ¬ beyond d i j
    end in
  is_next a → is_next b → a = b.
Proof.
  destruct a as [x|], b as [y|]; simpl; [|by intros (Hx & Hb & _) Hn; destruct (Hn x)
    |by intros Hn (Hy & Hb & _); destruct (Hn y)|done].
  intros (Hx & Hix & Hxm) (Hy & Hiy & Hym). f_equal. apply (reaches_antisym d); auto.
Qed.

(** In terms of the set of the identifiers. *)
Lemma expected_next ids k i d :
  StronglySorted (λ a b, beyond Right a b) ids → ids !! k = Some i →
  match expected ids k d with
  | Some e => e ∈ (list_to_set ids : gset Identifier) ∧ beyond d i e
      ∧ ∀ j, j ∈ (list_to_set ids : gset Identifier) → beyond d i j → reaches d e j
  | None => ∀ j, j ∈ (list_to_set ids : gset Identifier) → ¬ beyond d i j
  end.
Proof.
  intros Hsort Hk. pose proof (expected_closest ids k i d Hsort Hk) as He.
  destruct (expected ids k d) as [e|].
  - destruct He as (He & Hb & Hm). split_and!; [by apply elem_of_list_to_set|done|].
    intros j Hj%elem_of_list_to_set. by apply Hm.
  - intros j Hj%elem_of_list_to_set. by apply He.
Qed.

(** Tables that form a doubly linked list pass. *)
Lemma linked_asserted ids (ts : list L) level (s : Identifier → Direction → option Identifier) :
  StronglySorted (λ a b, beyond Right a b) ids → length ids = length ts →
  Forall lt_wf ts → level < LOOKUP_TABLE_LEVELS →
  (∀ k i t d, ids !! k = Some i → ts !! k = Some t → s i d = id <$> slots t level d) →
  linked (list_to_set ids) s → assert_doubly_linked_at_level ids ts level = true.
Proof.
  intros Hsort Hlen Hwf Hl Hs Hlinked.
  rw /assert_doubly_linked_at_level andb_true_iff Nat.eqb_eq (assert_tables_spec ids ts 0 level Hwf Hl).
  split; [done|]. intros k t d Ht.
  destruct (lookup_lt_is_Some_2 ids k) as [i Hi]; [rw Hlen; by eapply lookup_lt_Some|].
  rw -(Hs k i t d Hi Ht). apply (closest_unique (list_to_set ids) d i); [|by apply expected_next].
  apply Hlinked, elem_of_list_to_set. by eapply list_elem_of_lookup_2.
Qed.

(** C39: the tests' assertion passes on ascending identifiers with well-formed tables
    exactly when the tables' entries at that level form a doubly linked list of all of
    them, the property that stage 1 of the join is proved to establish at level 0. *)
Theorem assert_doubly_linked_iff ids (ts : list L) level (s : Identifier → Direction → option Identifier) :
  StronglySorted (λ a b, beyond Right a b) ids → length ids = length ts →
  Forall lt_wf ts → level < 256 →
  (∀ k i t d, ids !! k = Some i → ts !! k = Some t → s i d = id <$> slots t level d) →
  assert_doubly_linked_at_level ids ts level = true ↔ linked (list_to_set ids) s.
Proof.
  intros Hsort Hlen Hwf Hl Hs. split; [|by apply linked_asserted].
  rw /assert_doubly_linked_at_level andb_true_iff Nat.eqb_eq (assert_tables_spec ids ts 0 level Hwf Hl).
  intros [_ Hall] i d [k Hk]%elem_of_list_to_set%list_elem_of_lookup_1.
  destruct (lookup_lt_is_Some_2 ts k) as [t Ht]; [rw -Hlen; by eapply lookup_lt_Some|].
  rw (Hs k i t d Hk Ht) (Hall k t d Ht). by apply expected_next.
Qed.
End assertion_spec.

(** Both fixtures around an identifier between the extremes. *)
Lemma identifiers_on_a_side_witness :
  (∃ i, (∀ drawn, random_identifier_greater_than (id OverlaySample.n5) drawn = Done i)
      ∧ beyond Right (id OverlaySample.n5) i)
  ∧ (∃ i, (∀ drawn, random_identifier_less_than (id OverlaySample.n5) drawn = Done i)
      ∧ beyond Left (id OverlaySample.n5) i).
Proof.
  destruct (identifiers_on_a_side (id OverlaySample.n5) ZERO) as (H & _).
  apply H; decided.
Defined.

(** Level 0 of three nodes. *)
Module FixtureSample.
Definition ids : list Identifier := OverlaySample.member_list.
Definition tables : list ArrayLookupTable.InnerArrayLookupTable :=
  [OverlaySample.table [(OverlaySample.n5, 0, Right)];
   OverlaySample.table [(OverlaySample.n2, 0, Left); (OverlaySample.n9, 0, Right)];
   OverlaySample.table [(OverlaySample.n5, 0, Left)]].
Definition next (i : Identifier) (d : Direction) : option Identifier :=
  if decide (i = id OverlaySample.n5) then
    Some (match d with Left => id OverlaySample.n2 | Right => id OverlaySample.n9 end)
  else if decide (beyond d i (id OverlaySample.n5)) then Some (id OverlaySample.n5) else None.

Lemma ids_ascending : StronglySorted (λ a b, beyond Right a b) ids.
Proof. repeat constructor; decided. Qed.

Lemma tables_wf : Forall lt_wf tables.
Proof. repeat constructor; vm_compute; reflexivity. Qed.
End FixtureSample.

Lemma assert_doubly_linked_iff_witness :
  linked (list_to_set FixtureSample.ids) FixtureSample.next
  ∧ assert_doubly_linked_at_level FixtureSample.ids (rev FixtureSample.tables) 0 = false.
Proof.
  split; [|vm_compute; reflexivity].
  apply (assert_doubly_linked_iff FixtureSample.ids FixtureSample.tables 0 FixtureSample.next).
  - exact FixtureSample.ids_ascending.
  - reflexivity.
  - exact FixtureSample.tables_wf.
  - lia.
  - intros [|[|[|k]]] i t d; [..|by intros E];
      intros [= <-] [= <-]; destruct d; vm_compute; reflexivity.
  - vm_compute. reflexivity.
Defined.
