(* ===== verification/LocalGraph.v ===== *)
(** * The integration tests' skip graph ([src/node/skip_graph_integration_test.rs])

    [LocalSkipGraph::new] registers nodes on one hub and wires their tables level by
    level. The nodes' draws (identifiers, membership vectors, addresses) are arguments.
    Its graph is proved to pass [test_lookup_tables_validity], to be a skip graph in the
    sense of the join's theorems, and to answer the searches of the other tests. *)
From S2P Require Import Prelude Bytes Model LookupTable Core World BaseNode Hub Overlay Handlers Routing Safety Linking Async NodeOps Join Search Fixtures.
From S2P Require Import Identifier.

(** [Vec::sort] by the code's [Ord]. *)
Definition not_greater (a b : Identifier) : Prop := cmp a b ≠ Gt.
#[global] Instance not_greater_dec a b : Decision (not_greater a b).
Proof. unfold not_greater; apply _. Defined.
Definition sort (ids : list Identifier) : list Identifier := merge_sort not_greater ids.

Record LocalSkipGraph : Type := MkLocalSkipGraph {
  sg_nodes : list BaseNode;
  sg_lts : list loc;
  sg_identifiers : list Identifier;
  sg_mvs : list MembershipVector
}.

Section builder.
Context `{Oneshot} `{FixedStr}.
Abbreviation T := ArrayLookupTable.InnerArrayLookupTable (only parsing).
Abbreviation W := (World T (MockState BaseNode)) (only parsing).

(** One turn of the first loop. Construction sends no event, so the network's depth
    does not matter. *)
Definition start_node (hub : loc) (id : Identifier) (mv : MembershipVector) (a : Address)
    : M W (BaseNode * loc) :=
  lt ← table_new;
  network ← new_mock_network hub id a;
  node ← node_new (Network0 := mock_network 0) (MkBaseCore id mv lt) network;
  mret (node, lt).

(** The first loop, over the identifiers with each node's other draws. *)
Fixpoint start_nodes (hub : loc) (l : list (Identifier * (MembershipVector * Address)))
    : M W (list BaseNode * list loc) :=
  match l with
  | [] => mret ([], [])
  | (id, (mv, a)) :: rest =>
      n ← start_node hub id mv a;
      let '(node, lt) := n in
      r ← start_nodes hub rest;
      let '(nodes, lts) := r in
      mret (node :: nodes, lt :: lts)
  end.

Definition local_identity (n : BaseNode) : Identity :=
  MkIdentity (node_id n) (node_mem_vec n) (address_new "localhost" "0").

(** The loop over [nodes.windows(2).zip(lts.windows(2))]. *)
Fixpoint link_level0 (l : list (BaseNode * loc)) : M W () :=
  match l with
  | (n0, lt0) :: (((n1, lt1) :: _) as rest) =>
      _ ← on_table lt0 (update_entry (local_identity n1) 0 Right);
      _ ← on_table lt1 (update_entry (local_identity n0) 0 Left);
      link_level0 rest
  | _ => mret tt
  end.

Section wiring.
Context (nodes : list BaseNode) (lts : list loc).

(** The innermost loop, over [j]. *)
Fixpoint find_leftward (i : nat) (level : LookupTableLevel) (js : list nat) : M W (option nat) :=
  match js with
  | [] => mret None
  | j :: rest =>
      n_i ← index nodes i;
      n_j ← index nodes j;
      if (level <=? MemVec.common_prefix_bit (node_mem_vec n_i) (node_mem_vec n_j))%nat then
        lt_i ← index lts i;
        _ ← on_table lt_i (update_entry (local_identity n_j) level Left);
        lt_j ← index lts j;
        _ ← on_table lt_j (update_entry (local_identity n_i) level Right);
        mret (Some j)
      else find_leftward i level rest
  end.

(** The loop over the levels. *)
Fixpoint climb (i : nat) (levels : list LookupTableLevel) (loop_start : nat) : M W () :=
  match levels with
  | [] => mret tt
  | level :: rest =>
      neighbor_idx ← find_leftward i level (reverse (seq 0 (S loop_start)));
      match neighbor_idx with
      | Some j => climb i rest j
      | None => mret tt
      end
  end.

(** The loop over the nodes. *)
Fixpoint climb_all (idxs : list nat) : M W () :=
  match idxs with
  | [] => mret tt
  | i :: rest => _ ← climb i (seq 1 (LOOKUP_TABLE_LEVELS - 1)) (i - 1); climb_all rest
  end.
End wiring.

(** [LocalSkipGraph::new(n)], with [n] drawn identifiers. *)
Definition local_skip_graph_new (drawn : list Identifier)
    (others : list (MembershipVector * Address)) : M W LocalSkipGraph :=
  let n := length drawn in
  if (n =? 0)%nat then fail (Anyhow "cannot create skip graph with 0 nodes" [])
  else
    hub ← hub_new;
    let identifiers := sort drawn in
    r ← start_nodes hub (zip identifiers others);
    let '(nodes, lts) := r in
    _ ← link_level0 (zip nodes lts);
    _ ← climb_all nodes lts (seq 1 (n - 1));
    mret (MkLocalSkipGraph nodes lts identifiers (node_mem_vec <$> nodes)).

(** ** [test_lookup_tables_validity] *)
Section validity.
Context (sg : LocalSkipGraph) (w : W).

(** [sg.mvs[i].common_prefix_bit(sg.mvs[j]) >= level] *)
Definition shares_level (level : LookupTableLevel) (i j : nat) : bool :=
  match sg_mvs sg !! i, sg_mvs sg !! j with
  | Some a, Some b => (level <=? MemVec.common_prefix_bit a b)%nat
  | _, _ => false
  end.

Definition expected_left (i : nat) (level : LookupTableLevel) : option nat :=
  find (shares_level level i) (reverse (seq 0 i)).
Definition expected_right (i : nat) (level : LookupTableLevel) : option nat :=
  find (shares_level level i) (seq (i + 1) (length (sg_nodes sg) - (i + 1))).

(** [get_entry] gives the node of the expected index. *)
Definition entry_is (lt : loc) (level : LookupTableLevel) (d : Direction)
    (e : option nat) : bool :=
  match on_table lt (get_entry level d) w with
  | Done (Ok actual, _) =>
      bool_decide (id <$> actual = e ≫= λ j, node_id <$> (sg_nodes sg !! j))
  | _ => false
  end.

Definition test_lookup_tables_validity : bool :=
  forallb (λ i, match sg_lts sg !! i with
    | Some lt => forallb (λ level,
        entry_is lt level Left (expected_left i level)
        && entry_is lt level Right (expected_right i level)) (seq 0 LOOKUP_TABLE_LEVELS)
    | None => false
    end) (seq 0 (length (sg_lts sg))).
End validity.
End builder.

(** ** Nodes as they are started *)
Section started.
Context `{Oneshot}.
Abbreviation T := ArrayLookupTable.InnerArrayLookupTable (only parsing).
Abbreviation W := (World T (MockState BaseNode)) (only parsing).
Implicit Types (w : W) (b : BaseNode) (ns : list BaseNode).

(** [ns] are all the nodes on the hub, in the order they were started: each registered
    under its own identifier, with an empty table and an empty waiter map that are its
    own. *)
Record started (hub : loc) ns w : Prop := {
  st_hub : ∃ ms, hubs (network w) !! hub = Some ms
    ∧ ∀ i, is_Some (ms !! i) ↔ i ∈ node_id <$> ns;
  st_node b : b ∈ ns → registered hub w (node_id b) b
    ∧ tables w !! core_lt (core b) = Some ArrayLookupTable.new
    ∧ waiters w !! request_id_map b = Some ∅;
  st_tables : NoDup ((λ b, core_lt (core b)) <$> ns);
  st_waiters : NoDup (request_id_map <$> ns)
}.

Lemma started_none hub w :
  hubs (network w) !! hub = Some ∅ → started hub [] w.
Proof.
  intros E. split; [|by intros b ?%not_elem_of_nil|constructor..].
  exists ∅. split; [done|]. intros i. rw lookup_empty. split; [by intros []|].
  by intros ?%not_elem_of_nil.
Qed.

(** What [start_node] leaves when the identifier is free. *)
Lemma start_node_run hub ms i mv a w :
  hubs (network w) !! hub = Some ms → ms !! i = None →
  let lt := fresh (dom (tables w)) in
  let n := fresh (dom (mocks (network w))) in
  let rm := fresh (dom (waiters w)) in
  let b := MkBaseNode (MkBaseCore i mv lt) n rm in
  start_node hub i mv a w = Done (Ok (b, lt), MkWorld
    (<[lt := ArrayLookupTable.new]> (tables w)) (<[rm := ∅]> (waiters w)) (chans w)
    (MkMockState (<[hub := <[i := n]> ms]> (hubs (network w)))
       (<[n := MkInnerMockNetwork hub (Some b) i a]>
          (<[n := MkInnerMockNetwork hub None i a]> (mocks (network w)))))).
Proof.
  intros Ehub Ei lt n rm b.
  rw /start_node /table_new /new_mock_network /node_new /mbind /M_bind /=.
  rw /read_hub /= Ehub /= Ei /= /or_panic /mock_register_processor /mbind /M_bind /read_mock /=.
  by rw lookup_insert_eq.
Qed.

Lemma started_one hub ns i mv a w :
  started hub ns w → i ∉ node_id <$> ns →
  ∃ b w', start_node hub i mv a w = Done (Ok (b, core_lt (core b)), w')
    ∧ node_id b = i ∧ node_mem_vec b = mv ∧ started hub (ns ++ [b]) w'.
Proof.
  intros [(ms & Ehub & Hms) Hn Ht Hw] Hi.
  assert (Ei : ms !! i = None).
  { apply eq_None_not_Some. by rw Hms. }
  eexists (MkBaseNode (MkBaseCore i mv _) _ _), _.
  split; [by apply start_node_run|]. split_and!; [done..|].
  set (lt := fresh (dom (tables w))). set (n := fresh (dom (mocks (network w)))).
  set (rm := fresh (dom (waiters w))).
  assert (Hlt : tables w !! lt = None) by apply not_elem_of_dom, is_fresh.
  assert (Hmk : mocks (network w) !! n = None) by apply not_elem_of_dom, is_fresh.
  assert (Hrm : waiters w !! rm = None) by apply not_elem_of_dom, is_fresh.
  split; cbn [network tables waiters hubs mocks].
  - eexists. split; [by rw lookup_insert_eq|]. intros j.
    rw fmap_app elem_of_app /= list_elem_of_singleton -Hms. destruct (decide (j = i)) as [->|Hne].
    + rw lookup_insert_eq. split; [by right|done].
    + rw lookup_insert_ne; [done|]. split; [by left|by intros [?|?]].
  - intros b [Hb| ->%list_elem_of_singleton]%elem_of_app.
    + destruct (Hn b Hb) as ([_ Ehb (c & Ec & Ep & Eh & Eid)] & Etb & Ewb).
      rw !lookup_insert_ne; [by intros ->; rw Hlt in Etb|by intros ->; rw Hrm in Ewb|].
      split_and!; [|done..]. split; [done| |]; cbn [network hubs mocks].
      * rw Ehub /= in Ehb. rw lookup_insert_eq /= lookup_insert_ne; [|done].
        intros ->. by rw Ei in Ehb.
      * exists c. assert (Hne : n ≠ net b) by (intros E; by rw -E Hmk in Ec).
        by rw !lookup_insert_ne.
    + split_and!; [|by rw lookup_insert_eq..]. split; [done| |]; cbn [network hubs mocks net].
      * by rw lookup_insert_eq /= lookup_insert_eq.
      * eexists. by rw lookup_insert_eq.
  - rw fmap_app NoDup_app. split_and!; [done| |apply NoDup_singleton].
    intros x (b & -> & Hb)%list_elem_of_fmap E%list_elem_of_singleton.
    destruct (Hn b Hb) as (_ & Etb & _). cbn [core core_lt] in E. by rw E Hlt in Etb.
  - rw fmap_app NoDup_app. split_and!; [done| |apply NoDup_singleton].
    intros x (b & -> & Hb)%list_elem_of_fmap E%list_elem_of_singleton.
    destruct (Hn b Hb) as (_ & _ & Ewb). cbn [request_id_map] in E. by rw E Hrm in Ewb.
Qed.

Lemma start_nodes_run hub ns l w :
  started hub ns w → NoDup l.*1 → (∀ i, i ∈ l.*1 → i ∉ node_id <$> ns) →
  ∃ bs w', start_nodes hub l w = Done (Ok (bs, (λ b, core_lt (core b)) <$> bs), w')
    ∧ node_id <$> bs = l.*1 ∧ node_mem_vec <$> bs = l.*2.*1 ∧ started hub (ns ++ bs) w'.
Proof.
  revert ns w. induction l as [|[i [mv a]] l IH]; intros ns w Hst Hnd Hnew.
  - exists [], w. rw app_nil_r. done.
  - cbn [fmap list_fmap fst] in *. apply NoDup_cons in Hnd as [Hi Hnd].
    destruct (started_one hub ns i mv a w Hst) as (b & w1 & E1 & Eid & Emv & Hst1).
    { apply Hnew. by left. }
    destruct (IH (ns ++ [b]) w1 Hst1 Hnd) as (bs & w2 & E2 & Eids & Emvs & Hst2).
    { intros j Hj. rw fmap_app not_elem_of_app /= not_elem_of_cons Eid.
      split_and!; [by apply Hnew; right|by intros ->|by apply not_elem_of_nil]. }
    exists (b :: bs), w2. cbn [start_nodes]. rw (bind_ok _ _ _ _ _ E1) (bind_ok _ _ _ _ _ E2) /=.
    rw -app_assoc in Hst2. split_and!; [done|by f_equal|by f_equal|done].
Qed.
End started.

(** ** The wiring

    [adjacent l j i]: node [j] is the closest node before [i] that shares [l] bits with
    it; [i] is then also the closest such node after [j]. *)
Section wiring_spec.
Context `{Oneshot} `{FixedStr}.
Abbreviation T := ArrayLookupTable.InnerArrayLookupTable (only parsing).
Abbreviation W := (World T (MockState BaseNode)) (only parsing).
Implicit Types (w : W) (b : BaseNode).
Context (ns : list BaseNode).

Definition shares (l : LookupTableLevel) (i j : nat) : Prop :=
  ∃ a b, ns !! i = Some a ∧ ns !! j = Some b
    ∧ l ≤ MemVec.common_prefix_bit (node_mem_vec a) (node_mem_vec b).

Definition adjacent (l : LookupTableLevel) (j i : nat) : Prop :=
  l < LOOKUP_TABLE_LEVELS ∧ j < i ∧ shares l j i ∧ ∀ k, j < k < i → ¬ shares l k i.

(** The index of the neighbor on a side. *)
Definition neighbor_at (d : Direction) (l : LookupTableLevel) (k m : nat) : Prop :=
  match d with Left => adjacent l m k | Right => adjacent l k m end.

Lemma shares_sym l i j : shares l i j → shares l j i.
Proof. intros (a & b & Ea & Eb & Hl). exists b, a. by rw MemVec.common_prefix_bit_sym. Qed.

Lemma shares_trans l i j k : shares l i j → shares l j k → shares l i k.
Proof.
  intros (a & b & Ea & Eb & Hl) (b' & c & Eb' & Ec & Hl'). simplify_eq.
  exists a, c. split_and!; [done..|]. by eapply MemVec.common_prefix_bit_trans.
Qed.

Lemma shares_le l l' i j : l ≤ l' → shares l' i j → shares l i j.
Proof. intros Hle (a & b & Ea & Eb & Hl). exists a, b. split_and!; [done..|lia]. Qed.

Lemma adjacent_left l j j' i : adjacent l j i → adjacent l j' i → j = j'.
Proof.
  intros (_ & Hj & Hs & Hn) (_ & Hj' & Hs' & Hn').
  destruct (Nat.lt_trichotomy j j') as [?|[?|?]]; [|done|]; exfalso; [by apply (Hn j')|by apply (Hn' j)].
Qed.

Lemma adjacent_right l j i i' : adjacent l j i → adjacent l j i' → i = i'.
Proof.
  intros (_ & Hj & Hs & Hn) (_ & Hj' & Hs' & Hn').
  assert (Hii : shares l i i') by (eapply shares_trans; [by apply shares_sym|done]).
  destruct (Nat.lt_trichotomy i i') as [?|[?|?]]; [|done|]; exfalso.
  - by apply (Hn' i).
  - by apply (Hn i'); [|apply shares_sym].
Qed.

Lemma neighbor_at_fun d l k m m' : neighbor_at d l k m → neighbor_at d l k m' → m = m'.
Proof. destruct d; [apply adjacent_left|apply adjacent_right]. Qed.

(** The tables of the nodes, when exactly the links [done] allows have been made: a
    link is named by the later of its two nodes and its level. *)
Definition wired (made : nat → LookupTableLevel → Prop) w : Prop :=
  ∀ k b l d e, ns !! k = Some b →
    node_slots w b l d = Some e ↔
      ∃ m c, neighbor_at d l k m ∧ ns !! m = Some c ∧ e = local_identity c ∧ made (k `max` m) l.

Lemma wired_ext made made' w :
  (∀ l j i, adjacent l j i → made i l ↔ made' i l) → wired made w → wired made' w.
Proof.
  intros He Hw k b l d e Hk. rw (Hw k b l d e Hk).
  assert (Hm : ∀ m, neighbor_at d l k m → made (k `max` m) l ↔ made' (k `max` m) l).
  { intros m Hnb. destruct d; pose proof Hnb as (_ & Hlt & _).
    - rw Nat.max_l; [lia|]. by eapply He.
    - rw Nat.max_r; [lia|]. by eapply He. }
  split; intros (m & c & Hnb & Ec & -> & Hd); exists m, c;
    (split_and!; [done..|by apply Hm]).
Qed.

(** Two writes make one link. *)
Lemma wired_link made w w' l j i a b :
  wired made w → adjacent l j i → ns !! i = Some a → ns !! j = Some b →
  (∀ k c l' d, ns !! k = Some c → node_slots w' c l' d =
    if decide (k = i ∧ l' = l ∧ d = Left) then Some (local_identity b)
    else if decide (k = j ∧ l' = l ∧ d = Right) then Some (local_identity a)
    else node_slots w c l' d) →
  wired (λ i' l', made i' l' ∨ (i' = i ∧ l' = l)) w'.
Proof.
  intros Hw Hadj Ha Hb Hs k c l' d e Hk. pose proof Hadj as (_ & Hlt & _). rw (Hs k c l' d Hk).
  case_decide as H1; [|case_decide as H2].
  - destruct H1 as (-> & -> & ->). split.
    + intros [= <-]. exists j, b. split_and!; [done..|]. right. split; [lia|done].
    + intros (m & c' & Hnb & Ec & -> & _). rw (neighbor_at_fun Left l i m j Hnb Hadj) in Ec.
      by simplify_eq.
  - destruct H2 as (-> & -> & ->). split.
    + intros [= <-]. exists i, a. split_and!; [done..|]. right. split; [lia|done].
    + intros (m & c' & Hnb & Ec & -> & _). rw (neighbor_at_fun Right l j m i Hnb Hadj) in Ec.
      by simplify_eq.
  - rw (Hw k c l' d e Hk). split; intros (m & c' & Hnb & Ec & -> & Hd); exists m, c'.
    + split_and!; [done..|by left].
    + split_and!; [done..|]. destruct Hd as [?|[Em ->]]; [done|]. exfalso.
      destruct d; pose proof Hnb as (_ & Hlt' & _).
      * apply H1. split_and!; [lia|done..].
      * apply H2. split_and!; [|done..]. replace m with i in Hnb by lia.
        by eapply adjacent_left.
Qed.

(** ** Writing a slot of one of the nodes *)
Context (Hown : NoDup ((λ b, core_lt (core b)) <$> ns)).

Lemma own_table k k' b b' :
  ns !! k = Some b → ns !! k' = Some b' → core_lt (core b) = core_lt (core b') → k = k'.
Proof using Hown.
  intros Hk Hk' E. eapply (NoDup_lookup _ _ _ (core_lt (core b)) Hown).
  - by rw list_lookup_fmap Hk.
  - by rw list_lookup_fmap Hk' /= E.
Qed.

Definition tables_ok w : Prop := ∀ b, b ∈ ns → table_ok w b.

Lemma write_slot w k b l d e :
  tables_ok w → ns !! k = Some b → l < LOOKUP_TABLE_LEVELS →
  ∃ w', on_table (core_lt (core b)) (update_entry e l d) w = Done (Ok tt, w')
    ∧ tables_ok w' ∧ same_but_tables w w'
    ∧ ∀ k' b' l' d', ns !! k' = Some b' → node_slots w' b' l' d' =
        if decide (k' = k ∧ l' = l ∧ d' = d) then Some e else node_slots w b' l' d'.
Proof using Hown.
  intros Hok Hk Hl.
  destruct (table_ok_slots w b) as (t & Et & Hwf & Es); [by eapply Hok, list_elem_of_lookup_2|].
  destruct (update_entry_spec t e l d Hwf Hl) as (t' & E & Hwf' & Hs).
  exists (set_tables <[core_lt (core b) := t']> w). split_and!.
  - by apply (on_table_done _ _ _ t).
  - intros b' Hb'. rw /table_ok /=. destruct (decide (core_lt (core b') = core_lt (core b))) as [->|Hne].
    + rw lookup_insert_eq. by exists t'.
    + rw lookup_insert_ne; [done|]. by apply Hok.
  - done.
  - intros k' b' l' d' Hk'. rw {1}/node_slots /=.
    destruct (decide (core_lt (core b') = core_lt (core b))) as [El|Hne].
    + assert (k' = k) as -> by by eapply own_table. rw Hk in Hk'. injection Hk' as <-.
      rw lookup_insert_eq. etrans; [exact (Hs l' d')|].
      rw Es /set_slot. do 2 case_decide; tauto.
    + rw lookup_insert_ne; [done|]. rw decide_False; [|done].
      intros (-> & _). by rw Hk in Hk'; injection Hk' as <-.
Qed.

(** ** The loops *)
Context (w0 : W).

Record built (made : nat → LookupTableLevel → Prop) w : Prop := {
  bt_same : same_but_tables w0 w;
  bt_ok : tables_ok w;
  bt_wired : wired made w
}.

Lemma built_ext made made' w :
  (∀ l j i, adjacent l j i → made i l ↔ made' i l) → built made w → built made' w.
Proof. intros He [Hs Ho Hw]. split; [done..|]. by eapply wired_ext. Qed.

Lemma same_but_tables_trans w w1 w2 :
  same_but_tables w w1 → same_but_tables w1 w2 → same_but_tables w w2.
Proof. intros (E1 & E2 & E3) (E1' & E2' & E3'). split_and!; congruence. Qed.

(** The two writes of a link, in either order. *)
Lemma link_pair made w l j i a b (first : Direction) :
  built made w → adjacent l j i → ns !! i = Some a → ns !! j = Some b →
  let write d := match d with
    | Left => on_table (core_lt (core a)) (update_entry (local_identity b) l Left)
    | Right => on_table (core_lt (core b)) (update_entry (local_identity a) l Right)
    end in
  ∃ w1 w2, write first w = Done (Ok tt, w1) ∧ write (opposite first) w1 = Done (Ok tt, w2)
    ∧ built (λ i' l', made i' l' ∨ (i' = i ∧ l' = l)) w2.
Proof using Hown.
  intros [Hsame Hok Hw] Hadj Ha Hb write. pose proof Hadj as (Hl & Hlt & _).
  destruct first; cbn [opposite].
  - destruct (write_slot w i a l Left (local_identity b) Hok Ha Hl) as (w1 & E1 & Hok1 & Hs1 & Hsl1).
    destruct (write_slot w1 j b l Right (local_identity a) Hok1 Hb Hl) as (w2 & E2 & Hok2 & Hs2 & Hsl2).
    exists w1, w2. split_and!; [done..|]. split; [|done|].
    + by eapply same_but_tables_trans, same_but_tables_trans.
    + eapply (wired_link made w); [done..|]. intros k c l' d Hk. rw (Hsl2 k c l' d Hk) (Hsl1 k c l' d Hk).
      do 2 case_decide; try done; by destruct_and!; simplify_eq.
  - destruct (write_slot w j b l Right (local_identity a) Hok Hb Hl) as (w1 & E1 & Hok1 & Hs1 & Hsl1).
    destruct (write_slot w1 i a l Left (local_identity b) Hok1 Ha Hl) as (w2 & E2 & Hok2 & Hs2 & Hsl2).
    exists w1, w2. split_and!; [done..|]. split; [|done|].
    + by eapply same_but_tables_trans, same_but_tables_trans.
    + eapply (wired_link made w); [done..|]. intros k c l' d Hk. by rw (Hsl2 k c l' d Hk) (Hsl1 k c l' d Hk).
Qed.

Abbreviation lts := ((λ b, core_lt (core b)) <$> ns).

Lemma index_lookup {A} (l : list A) k x w : l !! k = Some x → index l k w = Done (Ok x, w).
Proof. intros E. by rw /index E. Qed.

Lemma find_leftward_spec made w i l m :
  built made w → i < length ns → l < LOOKUP_TABLE_LEVELS → m ≤ i →
  (∀ k, m ≤ k < i → ¬ shares l k i) →
  ∃ r w', find_leftward ns lts i l (reverse (seq 0 m)) w = Done (Ok r, w')
    ∧ match r with
      | Some j => adjacent l j i ∧ built (λ i' l', made i' l' ∨ (i' = i ∧ l' = l)) w'
      | None => w' = w ∧ ∀ k, k < i → ¬ shares l k i
      end.
Proof using Hown.
  intros Hbt Hi Hl. destruct (lookup_lt_is_Some_2 ns i Hi) as [a Ha].
  induction m as [|j IH]; intros Hm Hnone.
  - exists None, w. split_and!; [done..|]. intros k Hk. apply Hnone. lia.
  - destruct (lookup_lt_is_Some_2 ns j) as [b Hb]; [lia|].
    rw seq_S reverse_app /=. rw (bind_ok _ _ _ _ _ (index_lookup ns i a w Ha)).
    rw (bind_ok _ _ _ _ _ (index_lookup ns j b w Hb)).
    destruct (Nat.leb_spec l (MemVec.common_prefix_bit (node_mem_vec a) (node_mem_vec b))) as [Hs|Hs].
    + assert (Hadj : adjacent l j i).
      { split_and!; [done|lia| |intros k Hk; apply Hnone; lia].
        apply shares_sym. by exists a, b. }
      destruct (link_pair made w l j i a b Left Hbt Hadj Ha Hb) as (w1 & w2 & E1 & E2 & Hbt').
      exists (Some j), w2. split; [|done].
      rw (bind_ok _ _ _ _ _ (index_lookup lts i (core_lt (core a)) w _));
        [by rw list_lookup_fmap Ha|].
      rw (bind_ok _ _ _ _ _ E1).
      rw (bind_ok _ _ _ _ _ (index_lookup lts j (core_lt (core b)) w1 _));
        [by rw list_lookup_fmap Hb|].
      by rw (bind_ok _ _ _ _ _ E2).
    + apply IH; [lia|]. intros k Hk. destruct (decide (k = j)) as [->|Hne]; [|apply Hnone; lia].
      intros (b' & a' & Eb & Ea & Hle). simplify_eq.
      rw MemVec.common_prefix_bit_sym in Hle. lia.
Qed.

(** The links of the nodes before [i], and of [i] below level [l]. *)
Definition upto (i : nat) (l : LookupTableLevel) (i' : nat) (l' : LookupTableLevel) : Prop :=
  l' = 0 ∨ i' < i ∨ (i' = i ∧ l' < l).

Lemma climb_spec n l w i start :
  built (upto i l) w → i < length ns → l + n = LOOKUP_TABLE_LEVELS → start < i →
  (∀ k, start < k < i → ¬ shares l k i) →
  ∃ w', climb ns lts i (seq l n) start w = Done (Ok tt, w') ∧ built (upto (S i) 1) w'.
Proof using Hown.
  revert l w start. induction n as [|n IH]; intros l w start Hbt Hi Hl Hst Hnone.
  - exists w. split; [done|]. revert Hbt. apply built_ext. intros l' j i' (Hl' & _).
    rw /upto. split; lia.
  - cbn [seq climb].
    destruct (find_leftward_spec (upto i l) w i l (S start)) as (r & w1 & E & Hr);
      [done|done|lia|lia|intros k Hk; apply Hnone; lia|].
    rw (bind_ok _ _ _ _ _ E). destruct r as [j|].
    + destruct Hr as [(_ & Hj & _ & Hbetween) Hbt1]. apply (IH (S l) w1 j); [|done|lia|done|].
      * revert Hbt1. apply built_ext. intros l' j' i' _. rw /upto. lia.
      * intros k Hk Hs. apply (Hbetween k Hk). apply (shares_le l (S l)); [lia|done].
    + destruct Hr as [-> Hno]. exists w. split; [done|]. revert Hbt. apply built_ext.
      intros l' j' i' (_ & Hj' & Hs' & _). rw /upto. split; [lia|].
      intros [?|[?|?]]; [lia| |lia]. destruct (decide (i' = i)) as [->|]; [|lia].
      destruct (decide (l' < l)); [lia|]. exfalso. apply (Hno j' Hj').
      apply (shares_le l l'); [lia|done].
Qed.

Lemma climb_all_spec n i w :
  built (upto i 1) w → 1 ≤ i → i + n ≤ length ns →
  ∃ w', climb_all ns lts (seq i n) w = Done (Ok tt, w') ∧ built (upto (i + n) 1) w'.
Proof using Hown.
  revert i w. induction n as [|n IH]; intros i w Hbt Hi Hn.
  - exists w. by rw Nat.add_0_r.
  - cbn [seq climb_all].
    destruct (climb_spec (LOOKUP_TABLE_LEVELS - 1) 1 w i (i - 1)) as (w1 & E & Hbt1);
      [done|lia|done|lia|lia|].
    destruct (IH (S i) w1) as (w2 & E2 & Hbt2); [done|lia|lia|].
    exists w2. rw (bind_ok _ _ _ _ _ E). by rw Nat.add_succ_r.
Qed.

Lemma link_level0_spec rest p w :
  drop p ns = rest → built (λ i l, l = 0 ∧ i ≤ p) w →
  ∃ w', link_level0 (zip rest ((λ b, core_lt (core b)) <$> rest)) w = Done (Ok tt, w')
    ∧ built (λ i l, l = 0) w'.
Proof using Hown.
  revert p w. induction rest as [|b rest IH]; intros p w Ed Hbt.
  - exists w. split; [done|]. revert Hbt. apply built_ext. intros l j i (_ & _ & (b & c & _ & Ei & _) & _).
    apply lookup_lt_Some in Ei. apply (f_equal length) in Ed. rw length_drop /= in Ed. lia.
  - assert (Eb : ns !! p = Some b) by (by rw -(Nat.add_0_r p) -lookup_drop Ed).
    destruct rest as [|a rest].
    + exists w. split; [done|]. revert Hbt. apply built_ext.
      intros l j i (_ & _ & (b' & c & _ & Ei & _) & _).
      apply lookup_lt_Some in Ei. apply (f_equal length) in Ed. rw length_drop /= in Ed. lia.
    + assert (Ea : ns !! (p + 1) = Some a) by (by rw -lookup_drop Ed).
      assert (Hadj : adjacent 0 p (p + 1)).
      { split_and!; [vm_compute; lia|lia| |lia]. exists b, a. split_and!; [done..|lia]. }
      destruct (link_pair _ w 0 p (p + 1) a b Right Hbt Hadj Ea Eb) as (w1 & w2 & E1 & E2 & Hbt').
      destruct (IH (p + 1) w2) as (w3 & E3 & Hbt3).
      * by rw -drop_drop Ed.
      * revert Hbt'. apply built_ext. intros l j i _. lia.
      * exists w3. split; [|done]. cbn [fmap list_fmap zip zip_with link_level0].
        rw (bind_ok _ _ _ _ _ E1) (bind_ok _ _ _ _ _ E2). exact E3.
Qed.

(** All three loops after the nodes are started. *)
Lemma wiring_built :
  built (λ _ _, False) w0 → ns ≠ [] →
  ∃ w1 w2, link_level0 (zip ns lts) w0 = Done (Ok tt, w1)
    ∧ climb_all ns lts (seq 1 (length ns - 1)) w1 = Done (Ok tt, w2)
    ∧ built (λ _ _, True) w2.
Proof using Hown.
  intros Hbt Hne.
  assert (Hlen : 0 < length ns) by (destruct ns; [done|simpl; lia]).
  destruct (link_level0_spec ns 0 w0) as (w1 & E1 & Hbt1); [done| |].
  { revert Hbt. apply built_ext. intros l j i (_ & Hj & _). lia. }
  destruct (climb_all_spec (length ns - 1) 1 w1) as (w2 & E2 & Hbt2); [|lia|lia|].
  { revert Hbt1. apply built_ext. intros l j i (_ & Hj & _). rw /upto. lia. }
  exists w1, w2. split_and!; [done..|]. revert Hbt2. apply built_ext.
  intros l j i (_ & _ & (b & c & _ & Ei & _) & _). apply lookup_lt_Some in Ei. rw /upto. split; [done|lia].
Qed.
End wiring_spec.

(** ** The finished graph *)
Lemma find_down (p : nat → bool) n :
  match find p (reverse (seq 0 n)) with
  | Some j => j < n ∧ p j = true ∧ ∀ k, j < k < n → p k = false
  | None => ∀ k, k < n → p k = false
  end.
Proof.
  induction n as [|n IH]; [simpl; lia|]. rw seq_S reverse_app /=.
  destruct (p n) eqn:Ep; [split_and!; [lia|done|lia]|].
  destruct (find p (reverse (seq 0 n))) as [j|].
  - destruct IH as (Hj & Hp & Hk). split_and!; [lia|done|].
    intros k Hlt. destruct (decide (k = n)) as [->|]; [done|apply Hk; lia].
  - intros k Hlt. destruct (decide (k = n)) as [->|]; [done|apply IH; lia].
Qed.

Lemma find_up (p : nat → bool) a n :
  match find p (seq a n) with
  | Some j => a ≤ j < a + n ∧ p j = true ∧ ∀ k, a ≤ k < j → p k = false
  | None => ∀ k, a ≤ k < a + n → p k = false
  end.
Proof.
  revert a. induction n as [|n IH]; intros a; [simpl; lia|]. cbn [seq find].
  destruct (p a) eqn:Ep; [split_and!; [lia|lia|done|lia]|]. specialize (IH (S a)).
  destruct (find p (seq (S a) n)) as [j|].
  - destruct IH as (Hj & Hp & Hk). split_and!; [lia|lia|done|].
    intros k Hlt. destruct (decide (k = a)) as [->|]; [done|apply Hk; lia].
  - intros k Hlt. destruct (decide (k = a)) as [->|]; [done|apply IH; lia].
Qed.

Section finished.
Context `{Oneshot} `{FixedStr}.
Abbreviation T := ArrayLookupTable.InnerArrayLookupTable (only parsing).
Abbreviation W := (World T (MockState BaseNode)) (only parsing).
Implicit Types (w : W) (b : BaseNode).
Context (hub : loc) (ns : list BaseNode) (w0 w : W).
Context (Hst : started hub ns w0) (Hbt : built ns w0 (λ _ _, True) w).
Context (Hasc : StronglySorted (λ i j, beyond Right i j) (node_id <$> ns)).

(** What the code returns. *)
Definition the_graph : LocalSkipGraph :=
  MkLocalSkipGraph ns ((λ b, core_lt (core b)) <$> ns) (node_id <$> ns) (node_mem_vec <$> ns).

Lemma shares_level_iff l i j : shares_level the_graph l i j = true ↔ shares ns l i j.
Proof.
  rw /shares_level /shares /= !list_lookup_fmap.
  destruct (ns !! i) as [a|], (ns !! j) as [b|]; simpl; rw ?Nat.leb_le;
    (split; [try done; intros Hle|intros (? & ? & ? & ? & ?)]; simplify_eq; try done; by eexists _, _).
Qed.

Lemma expected_at d l k : l < LOOKUP_TABLE_LEVELS → k < length ns →
  match (match d with Left => expected_left the_graph | Right => expected_right the_graph end) k l with
  | Some m => neighbor_at ns d l k m
  | None => ∀ m, ¬ neighbor_at ns d l k m
  end.
Proof.
  intros Hl Hk.
  assert (Hno : ∀ i j, shares_level the_graph l i j = false → ¬ shares ns l i j)
    by (intros i j E Hs; by rw (proj2 (shares_level_iff l i j) Hs) in E).
  destruct d.
  - rw /expected_left. pose proof (find_down (shares_level the_graph l k) k) as Hf.
    destruct (find _ _) as [m|].
    + destruct Hf as (Hm & Hs%shares_level_iff & Hb). split_and!; [done|done|by apply shares_sym|].
      intros i Hi Hs'. by apply (Hno k i (Hb i Hi)), shares_sym.
    + intros m (_ & Hm & Hs & _). by apply (Hno k m (Hf m Hm)), shares_sym.
  - rw /expected_right. pose proof (find_up (shares_level the_graph l k) (k + 1)
      (length (sg_nodes the_graph) - (k + 1))) as Hf.
    destruct (find _ _) as [m|].
    + destruct Hf as (Hm & Hs%shares_level_iff & Hb). split_and!; [done|lia|done|].
      intros i Hi Hs'. apply (Hno k i (Hb i ltac:(lia))). by eapply shares_trans, shares_sym.
    + intros m (_ & Hm & Hs & _). apply (Hno k m); [|done]. apply Hf. simpl.
      destruct Hs as (? & ? & _ & E & _). apply lookup_lt_Some in E. lia.
Qed.

(** A slot holds the neighbor on its side. *)
Lemma slot_neighbor k b l d m :
  ns !! k = Some b → neighbor_at ns d l k m →
  ∃ c, ns !! m = Some c ∧ node_slots w b l d = Some (local_identity c).
Proof using Hbt.
  intros Hk Hnb.
  assert (is_Some (ns !! m)) as [c Hc].
  { destruct d; destruct Hnb as (_ & _ & (? & ? & ? & ? & _) & _); by eexists. }
  exists c. split; [done|]. apply (bt_wired _ _ _ _ Hbt k b l d); [done|]. by exists m, c.
Qed.

Lemma slot_no_neighbor k b l d :
  ns !! k = Some b → (∀ m, ¬ neighbor_at ns d l k m) → node_slots w b l d = None.
Proof using Hbt.
  intros Hk Hno. destruct (node_slots w b l d) as [e|] eqn:E; [|done].
  apply (bt_wired _ _ _ _ Hbt k b l d) in E as (m & c & Hnb & _); [by destruct (Hno m)|done].
Qed.

Lemma graph_valid : test_lookup_tables_validity the_graph w = true.
Proof using Hbt.
  apply forallb_forall. intros k Hk%list_elem_of_In%elem_of_seq. simpl in Hk.
  rw length_fmap in Hk. destruct (lookup_lt_is_Some_2 ns k) as [b Hb]; [lia|].
  cbn [the_graph sg_lts]. rw list_lookup_fmap Hb. cbn [fmap option_fmap option_map].
  apply forallb_forall. intros l Hl%list_elem_of_In%elem_of_seq.
  assert (Hlt : l < LOOKUP_TABLE_LEVELS) by lia.
  assert (Hentry : ∀ d, entry_is the_graph w (core_lt (core b)) l d
    ((match d with Left => expected_left the_graph | Right => expected_right the_graph end) k l) = true).
  { intros d. rw /entry_is.
    destruct (table_ok_slots w b) as (t & Et & Hwf & Es);
      [by eapply (bt_ok _ _ _ _ Hbt), list_elem_of_lookup_2|].
    rw (on_table_read _ _ _ t _ Et (get_entry_spec t l d Hwf Hlt)) -Es.
    pose proof (expected_at d l k Hlt ltac:(lia)) as He. apply bool_decide_eq_true.
    destruct ((match d with Left => _ | Right => _ end) k l) as [m|].
    - destruct (slot_neighbor k b l d m Hb He) as (c & Hc & ->). by rw /= Hc.
    - by rw (slot_no_neighbor k b l d Hb He). }
  apply andb_true_iff. split; [apply (Hentry Left)|apply (Hentry Right)].
Qed.

(** The nodes by identifier. *)
Definition node_map : gmap Identifier BaseNode := list_to_map ((λ b, (node_id b, b)) <$> ns).

Lemma ids_nodup : NoDup (node_id <$> ns).
Proof using Hasc.
  apply NoDup_alt. intros i j x Hi Hj.
  destruct (Nat.lt_trichotomy i j) as [Hlt|[?|Hlt]]; [|done|];
    exfalso; apply (beyond_irrefl Right x).
  - by apply (ascending_lt (node_id <$> ns) i j).
  - by apply (ascending_lt (node_id <$> ns) j i).
Qed.

Lemma node_map_lookup i b : node_map !! i = Some b ↔ b ∈ ns ∧ node_id b = i.
Proof using Hasc.
  rw /node_map -elem_of_list_to_map.
  - rw -list_fmap_compose. exact ids_nodup.
  - rw list_elem_of_fmap. split; [by intros (c & [= -> ->] & Hc)|]. intros [Hb <-]. by exists b.
Qed.

(** Neighbors at indices are on the side of their direction. *)
Lemma neighbor_side d l k m b c :
  neighbor_at ns d l k m → ns !! k = Some b → ns !! m = Some c → beyond d (node_id b) (node_id c).
Proof using Hasc.
  intros Hnb Hb Hc.
  assert (Hlt : ∀ i j x y, ns !! i = Some x → ns !! j = Some y → i < j →
    beyond Right (node_id x) (node_id y)).
  { intros i j x y Hx Hy. apply (ascending_lt (node_id <$> ns)); [done|..];
      by rw list_lookup_fmap ?Hx ?Hy. }
  destruct d; destruct Hnb as (_ & Hl & _); [apply (Hlt m k c b)|apply (Hlt k m b c)]; done.
Qed.

Lemma graph_overlay : overlay hub node_map w.
Proof using Hst Hbt Hasc.
  destruct Hbt as [(Ew & Ec & En) Hok _].
  split.
  - intros i b [Hb <-]%node_map_lookup. destruct (st_node _ _ _ Hst b Hb) as ([H1 H2 H3] & _).
    split; by rw ?En.
  - intros i b [Hb <-]%node_map_lookup. by apply Hok.
  - intros i j a b [[k Hk]%list_elem_of_lookup_1 <-]%node_map_lookup
      [[m Hm]%list_elem_of_lookup_1 <-]%node_map_lookup E.
    assert (k = m) as -> by (eapply own_table; [by eapply st_tables|done..]).
    by simplify_eq.
  - intros i j a b [[k Hk]%list_elem_of_lookup_1 <-]%node_map_lookup
      [[m Hm]%list_elem_of_lookup_1 <-]%node_map_lookup E.
    assert (k = m) as ->.
    { eapply (NoDup_lookup _ _ _ (request_id_map a) (st_waiters _ _ _ Hst));
        rw list_lookup_fmap ?Hk ?Hm /=; by rw ?E. }
    by simplify_eq.
Qed.

(** A populated slot, by the node it names. *)
Lemma slot_entry i b l d e : node_map !! i = Some b → node_slots w b l d = Some e →
  ∃ k m c, ns !! k = Some b ∧ ns !! m = Some c ∧ neighbor_at ns d l k m ∧ e = local_identity c.
Proof using Hbt Hasc.
  intros [[k Hk]%list_elem_of_lookup_1 _]%node_map_lookup E.
  apply (bt_wired _ _ _ _ Hbt k b l d) in E as (m & c & Hnb & Hc & -> & _); [|done].
  by exists k, m, c.
Qed.

Lemma graph_truthful : truthful node_map w.
Proof using Hbt Hasc.
  intros i b Hb. split.
  - intros l d e E. destruct (slot_entry i b l d e Hb E) as (k & m & c & Hk & Hm & Hnb & ->).
    split_and!; [by destruct d, Hnb|by eapply neighbor_side|].
    destruct d; destruct Hnb as (_ & _ & (x & y & Hx & Hy & Hle) & _); simplify_eq; [|done].
    by rw MemVec.common_prefix_bit_sym.
  - intros l d e E. destruct (slot_entry i b l d e Hb E) as (k & m & c & Hk & Hm & Hnb & ->).
    exists c. split; [|done]. apply node_map_lookup. split; [by eapply list_elem_of_lookup_2|done].
Qed.

Lemma adjacent_level0 j i : i < length ns → adjacent ns 0 j i ↔ i = S j.
Proof.
  intros Hi. split.
  - intros (_ & Hj & _ & Hb). destruct (decide (i = S j)) as [|Hne]; [done|]. exfalso.
    destruct (lookup_lt_is_Some_2 ns (S j)) as [a Ha]; [lia|].
    destruct (lookup_lt_is_Some_2 ns i) as [b Hb']; [lia|].
    apply (Hb (S j)); [lia|]. exists a, b. split_and!; [done..|lia].
  - intros ->. split_and!; [vm_compute; lia|lia| |lia].
    destruct (lookup_lt_is_Some_2 ns (S j)) as [a Ha]; [lia|].
    destruct (lookup_lt_is_Some_2 ns j) as [b Hb']; [lia|].
    exists b, a. split_and!; [done..|lia].
Qed.

Lemma slot_level0 k b d : ns !! k = Some b →
  id <$> node_slots w b 0 d = expected (node_id <$> ns) k d.
Proof using Hbt.
  intros Hk. pose proof (lookup_lt_Some _ _ _ Hk) as Hlen.
  assert (Hget : ∀ m, neighbor_at ns d 0 k m → id <$> node_slots w b 0 d = (node_id <$> ns) !! m).
  { intros m Hnb. destruct (slot_neighbor k b 0 d m Hk Hnb) as (c & Hc & ->).
    by rw list_lookup_fmap Hc. }
  destruct d; simpl.
  - destruct k as [|k]; [|apply Hget; by apply adjacent_level0].
    rw (slot_no_neighbor 0 b 0 Left Hk); [|done]. intros m (_ & ? & _). lia.
  - destruct (decide (k + 1 < length ns)) as [Hlt|Hge].
    + apply Hget. apply adjacent_level0; lia.
    + rw (slot_no_neighbor k b 0 Right Hk).
      * intros m Hadj. pose proof Hadj as (_ & ? & (? & ? & _ & Em & _) & _).
        apply lookup_lt_Some in Em. lia.
      * simpl. symmetry. apply lookup_ge_None. rw length_fmap. lia.
Qed.

Lemma graph_skip_graph : skip_graph hub node_map (list_to_set (node_id <$> ns)) w.
Proof using Hst Hbt Hasc.
  split.
  - exact graph_overlay.
  - intros i [b [-> Hb]]%elem_of_list_to_set%list_elem_of_fmap. apply elem_of_dom. exists b.
    by apply node_map_lookup.
  - exact graph_truthful.
  - intros i b l d e _ Hb E. destruct (slot_entry i b l d e Hb E) as (k & m & c & _ & Hm & _ & ->).
    apply elem_of_list_to_set, list_elem_of_fmap. exists c. split; [done|].
    by eapply list_elem_of_lookup_2.
  - intros i b d _ [[k Hk]%list_elem_of_lookup_1 <-]%node_map_lookup.
    pose proof (slot_level0 k b d Hk) as Es.
    pose proof (expected_closest (node_id <$> ns) k (node_id b) d Hasc) as He.
    rw list_lookup_fmap Hk -Es in He. specialize (He eq_refl).
    destruct (node_slots w b 0 d) as [e|]; simpl in He.
    + destruct He as (He & Hbe & Hm). split_and!; [by apply elem_of_list_to_set|done|].
      intros j Hj%elem_of_list_to_set. by apply Hm.
    + intros j Hj%elem_of_list_to_set. by apply He.
Qed.
End finished.

(** ** The theorems *)
Lemma not_greater_le a b : not_greater a b ↔ (id_val a ≤ id_val b)%Z.
Proof. by rw /not_greater cmp_val. Qed.
#[global] Instance not_greater_trans : Transitive not_greater.
Proof. intros a b c. rw !not_greater_le. lia. Qed.
#[global] Instance not_greater_total : Total not_greater.
Proof. intros a b. rw !not_greater_le. lia. Qed.

Lemma sort_permutation ids : sort ids ≡ₚ ids.
Proof. apply merge_sort_Permutation. Qed.

(** Sorted without duplicates: strictly ascending. *)
Lemma sort_ascending ids : NoDup ids → StronglySorted (λ i j, beyond Right i j) (sort ids).
Proof.
  intros Hnd. rw -(sort_permutation ids) in Hnd.
  pose proof (StronglySorted_merge_sort not_greater ids) as Hs. revert Hs Hnd. rw -/(sort ids).
  induction 1 as [|i l Hl IH Hi]; [constructor|]. intros [Hni Hnd]%NoDup_cons.
  constructor; [by apply IH|]. rw !Forall_forall in Hi *. intros j Hj.
  assert (i ≠ j) by by intros ->. apply Hi, not_greater_le in Hj.
  assert (id_val i ≠ id_val j) by by intros ?%id_val_inj. simpl. lia.
Qed.

Section theorems.
Context `{OneshotLaws} `{FixedStr}.
Abbreviation T := ArrayLookupTable.InnerArrayLookupTable (only parsing).
Abbreviation W := (World T (MockState BaseNode)) (only parsing).
Implicit Types (w : W).

(** The whole construction. *)
Lemma local_skip_graph_run drawn others w :
  NoDup drawn → drawn ≠ [] → length others = length drawn →
  ∃ hub ns w0 w', local_skip_graph_new drawn others w = Done (Ok (the_graph ns), w')
    ∧ started hub ns w0 ∧ built ns w0 (λ _ _, True) w'
    ∧ node_id <$> ns = sort drawn ∧ node_mem_vec <$> ns = others.*1.
Proof.
  intros Hnd Hne Hlen.
  assert (Hsl : length (sort drawn) = length drawn)
    by (apply Permutation_length, sort_permutation).
  assert (Efst : (zip (sort drawn) others).*1 = sort drawn) by (apply fst_zip; lia).
  assert (Esnd : (zip (sort drawn) others).*2 = others) by (apply snd_zip; lia).
  set (hub := fresh (dom (hubs (network w)))).
  set (w1 := set_network (λ s, MkMockState (<[hub := ∅]> (hubs s)) (mocks s)) w).
  destruct (start_nodes_run hub [] (zip (sort drawn) others) w1) as (ns & w2 & E2 & Eid & Emv & Hst).
  { apply started_none. by rw /w1 /= lookup_insert_eq. }
  { rw Efst. by rw (sort_permutation drawn). }
  { intros i _. by apply not_elem_of_nil. }
  rw Efst in Eid. rw Esnd in Emv.
  assert (Hnn : length ns = length drawn) by (by rw -Hsl -Eid length_fmap).
  destruct (wiring_built ns (st_tables _ _ _ Hst) w2) as (w3 & w4 & E3 & E4 & Hbt).
  { split; [done| |].
    - intros b Hb. destruct (st_node _ _ _ Hst b Hb) as (_ & Et & _).
      exists ArrayLookupTable.new. split; [done|apply new_wf].
    - intros k b l d e Hk%list_elem_of_lookup_2. destruct (st_node _ _ _ Hst b Hk) as (_ & Et & _).
      rw /node_slots Et. split; [|by intros (? & ? & _ & _ & _ & [])].
      intros E. by assert (None = Some e) as [=] by (rw -E; symmetry; exact (new_slots l d)). }
  { intros ->. by destruct drawn. }
  exists hub, ns, w2, w4. split_and!; [|done..].
  rw /local_skip_graph_new. destruct (Nat.eqb_spec (length drawn) 0) as [E0|_]; [by destruct drawn|].
  rw (bind_ok _ _ _ hub w1); [done|]. rw (bind_ok _ _ _ _ _ E2) (bind_ok _ _ _ _ _ E3).
  rw -Hnn (bind_ok _ _ _ _ _ E4). by rw /the_graph Eid.
Qed.

(** C6: the integration tests' builder. Whatever distinct identifiers, membership
    vectors and addresses it draws, it succeeds (and refuses only to build nothing);
    every slot of every node then holds exactly the neighbor the validity test
    recomputes from the membership vectors, at all 256 levels; and the nodes are a
    skip graph in the sense the theorems on searches and joins ask for. *)
Theorem local_skip_graph_correct drawn others w :
  match drawn with
  | [] => ∃ e, local_skip_graph_new drawn others w = Done (Err e, w)
  | _ => NoDup drawn → length others = length drawn →
      ∃ sg hub nodes w', local_skip_graph_new drawn others w = Done (Ok sg, w')
        ∧ sg_identifiers sg = sort drawn ∧ node_id <$> sg_nodes sg = sort drawn
        ∧ sg_mvs sg = others.*1
        ∧ test_lookup_tables_validity sg w' = true
        ∧ skip_graph hub nodes (list_to_set drawn) w'
        ∧ ∀ b, b ∈ sg_nodes sg → nodes !! node_id b = Some b
  end.
Proof.
  destruct drawn as [|i drawn]; [by eexists|]. intros Hnd Hlen.
  destruct (local_skip_graph_run (i :: drawn) others w)
    as (hub & ns & w0 & w' & E & Hst & Hbt & Eid & Emv); [done..|].
  pose proof (sort_ascending _ Hnd) as Hasc. rw -Eid in Hasc.
  exists (the_graph ns), hub, (node_map ns), w'. split_and!; [done..| | |].
  - by eapply graph_valid.
  - assert (list_to_set (i :: drawn) = (list_to_set (node_id <$> ns) : gset Identifier)) as ->;
      [|by eapply graph_skip_graph].
    apply set_eq. intros j. rw !elem_of_list_to_set Eid. by rw sort_permutation.
  - intros b Hb. by apply node_map_lookup.
Qed.

(** The graph, ready to be searched. *)
Lemma local_graph_ready drawn others w :
  NoDup drawn → drawn ≠ [] → length others = length drawn →
  ∃ hub ns w', local_skip_graph_new drawn others w = Done (Ok (the_graph ns), w')
    ∧ node_id <$> ns = sort drawn
    ∧ skip_graph hub (node_map ns) (list_to_set drawn) w'
    ∧ ∀ b, b ∈ ns → node_map ns !! node_id b = Some b ∧ node_id b ∈ drawn
        ∧ waiter_map (request_id_map b) w' = ∅.
Proof.
  intros Hnd Hne Hlen. destruct (local_skip_graph_run drawn others w)
    as (hub & ns & w0 & w1 & E & Hst & Hbt & Eid & Emv); [done..|].
  pose proof (sort_ascending _ Hnd) as Hasc. rw -Eid in Hasc.
  exists hub, ns, w1. split_and!; [done..| |].
  - assert (list_to_set drawn = (list_to_set (node_id <$> ns) : gset Identifier)) as ->;
      [|by eapply graph_skip_graph].
    apply set_eq. intros j. rw !elem_of_list_to_set Eid. by rw sort_permutation.
  - intros b Hb. split_and!; [by apply node_map_lookup| |].
    + rw -(sort_permutation drawn) -Eid. apply list_elem_of_fmap. by exists b.
    + destruct (st_node _ _ _ Hst b Hb) as (_ & _ & Ew).
      by rw /waiter_map (proj1 (bt_same _ _ _ _ Hbt)) Ew.
Qed.

(** The searches of the other tests, one after another. *)
Fixpoint run_searches (fuel : nat) (self : BaseNode) (reqs : list IdSearchReq)
    : M W (list IdSearchRes) :=
  match reqs with
  | [] => mret []
  | req :: rest =>
      res ← run_alone (node_search_by_id (Network0 := mock_network fuel) self req);
      results ← run_searches fuel self rest;
      mret (res :: results)
  end.

Lemma searches_run hub nodes members self fuel reqs w :
  nodes !! node_id self = Some self → node_id self ∈ members → size members + 2 ≤ fuel →
  Forall (λ req, isq_target req ∈ members ∧ isq_level req < LOOKUP_TABLE_LEVELS
    ∧ reaches (isq_direction req) (node_id self) (isq_target req)) reqs →
  skip_graph hub nodes members w → waiter_map (request_id_map self) w = ∅ →
  ∃ results w', run_searches fuel self reqs w = Done (Ok results, w')
    ∧ isr_result <$> results = isq_target <$> reqs.
Proof using Type*.
  intros Hmap Hin Hfuel Hreqs. revert w.
  induction Hreqs as [|req reqs (Ht & Hl & Hr) _ IH]; intros w Hsg Hwait; [by exists [], w|].
  destruct (search_run hub nodes members self w req fuel Hsg Hmap) as (res & w2 & E & Ha & Hset);
    [done..|by rw Hwait lookup_empty|done|].
  destruct (IH w2) as (results & w3 & E' & Er); [by eapply sg_settled|by rw (proj2 (proj2 Hset))|].
  exists (res :: results), w3. cbn [run_searches]. rw (bind_ok _ _ _ _ _ E) (bind_ok _ _ _ _ _ E').
  split; [done|]. cbn [fmap list_fmap]. rw Er. f_equal. by apply (answers_exact _ _ _ Ha).
Qed.

(** C7: on the graph the builder makes, every node finds every identifier: any number
    of searches from one node, each in the direction of its target and from any
    level, all terminate with their target as the result, with any nonces. *)
Theorem local_searches_find_targets drawn others w fuel :
  NoDup drawn → drawn ≠ [] → length others = length drawn → length drawn + 2 ≤ fuel →
  ∃ sg w', local_skip_graph_new drawn others w = Done (Ok sg, w')
    ∧ ∀ self reqs, self ∈ sg_nodes sg →
        Forall (λ req, isq_target req ∈ drawn ∧ isq_level req < LOOKUP_TABLE_LEVELS
          ∧ reaches (isq_direction req) (node_id self) (isq_target req)) reqs →
        ∃ results w'', run_searches fuel self reqs w' = Done (Ok results, w'')
          ∧ isr_result <$> results = isq_target <$> reqs.
Proof using Type*.
  intros Hnd Hne Hlen Hfuel.
  destruct (local_graph_ready drawn others w) as (hub & ns & w1 & E & _ & Hsg & Hns); [done..|].
  exists (the_graph ns), w1. split; [done|]. intros self reqs Hself Hreqs.
  destruct (Hns self Hself) as (Hmap & Hin & Hwait).
  eapply (searches_run hub (node_map ns) (list_to_set drawn)); [done|by apply elem_of_list_to_set| | |done..].
  - by rw size_list_to_set.
  - eapply Forall_impl; [exact Hreqs|]. intros req (? & ? & ?).
    split_and!; [by apply elem_of_list_to_set|done..].
Qed.

(** *** The search tests and the edge cases *)







End theorems.

(** ** A small graph *)
Module LocalGraphSample.
Definition drawn : list Identifier := [Sample.ident x09; Sample.ident x02; Sample.ident x05].
Definition others : list (MembershipVector * Address) :=
  [(Sample.memvec x00, Sample.address x01); (Sample.memvec x80, Sample.address x02);
   (Sample.memvec x01, Sample.address x03)].
Definition nothing : World ArrayLookupTable.InnerArrayLookupTable (MockState BaseNode) :=
  MkWorld ∅ ∅ (∅ : gmap loc ChanState) (MkMockState ∅ ∅).

Lemma drawn_nodup : NoDup drawn.
Proof. decided. Qed.
End LocalGraphSample.

(** Identifiers 2, 5 and 9, drawn out of order; the first and the last share 7 bits. *)
Lemma local_skip_graph_correct_witness :
  ∃ sg w', @local_skip_graph_new _ truncating LocalGraphSample.drawn LocalGraphSample.others
      LocalGraphSample.nothing = Done (Ok sg, w')
    ∧ sg_identifiers sg = [Sample.ident x02; Sample.ident x05; Sample.ident x09]
    ∧ test_lookup_tables_validity sg w' = true.
Proof.
  pose proof (@local_skip_graph_correct _ truncating LocalGraphSample.drawn
    LocalGraphSample.others LocalGraphSample.nothing) as H.
  destruct (H LocalGraphSample.drawn_nodup eq_refl) as (sg & hub & nodes & w' & E & Ei & _ & _ & Hv & _).
  exists sg, w'. split; [exact E|]. split; [|exact Hv]. rw Ei. vm_compute. reflexivity.
Defined.

(** On it, the first node finds all three. *)
Lemma local_searches_find_targets_witness :
  ∃ sg w', @local_skip_graph_new _ truncating LocalGraphSample.drawn LocalGraphSample.others
      LocalGraphSample.nothing = Done (Ok sg, w')
    ∧ ∀ self, self ∈ sg_nodes sg → node_id self = Sample.ident x02 →
      let req t := MkIdSearchReq (MkNonce 1) t (node_id self) 255 Right in
      ∃ results w'', run_searches 5 self (req <$> LocalGraphSample.drawn) w' = Done (Ok results, w'')
        ∧ isr_result <$> results = LocalGraphSample.drawn.
Proof.
  destruct (@local_searches_find_targets _ _ truncating LocalGraphSample.drawn
    LocalGraphSample.others LocalGraphSample.nothing 5) as (sg & w' & E & H).
  - exact LocalGraphSample.drawn_nodup.
  - discriminate.
  - reflexivity.
  - simpl. lia.
  - exists sg, w'. split; [exact E|]. intros self Hself Hid req.
    destruct (H self (req <$> LocalGraphSample.drawn) Hself) as (results & w'' & E' & Er).
    + subst req. rw Hid. decided.
    + exists results, w''. split; [exact E'|]. by rw Er.
Defined.

