(* ===== verification/RandomTables.v ===== *)
(** * Random fixtures ([src/core/testutil/fixtures.rs], [src/core/testutil/random.rs])

    Random values as functions of what is drawn: bytes, printed as hex and parsed again,
    and port numbers. A random lookup table is proved to hold exactly the identities it
    drew, up to the number of levels a table has, beyond which the fixture panics. The
    fixtures' own tests and the bounded waits of the tests end the file. *)
From S2P Require Import Prelude Bytes Model LookupTable Fixtures LocalGraph.
From S2P Require Import Identifier.
From stdpp Require Import pretty.

(** ** Draws *)
Section draws.
Context `{Hex} `{FixedStr} {S : Type}.

(** [Result::unwrap] inside a computation. *)
Definition unwrapped {A} (r : result A) : M S A :=
  match r with Ok a => mret a | Err _ => panic end.

Definition random_hex_str (bytes : list u8) : string := hex_encode bytes.

Definition random_identifier (bytes : list u8) : M S Identifier :=
  unwrapped (Identifier.from_string (random_hex_str bytes)).

Definition random_membership_vector (bytes : list u8) : M S MembershipVector :=
  unwrapped (MemVec.from_string (random_hex_str bytes)).

(** [random_range(1024..=65535)] is the draw. *)
Definition random_port (drawn : N) : N := drawn.
Definition random_address (drawn : N) : Address :=
  address_new "localhost" (pretty (random_port drawn)).

(** What one identity draws. *)
Record IdentityDraw : Type := MkIdentityDraw {
  id_drawn : list u8;
  mem_vec_drawn : list u8;
  port_drawn : N
}.

Definition random_identity (drawn : IdentityDraw) : M S Identity :=
  i ← random_identifier (id_drawn drawn);
  m ← random_membership_vector (mem_vec_drawn drawn);
  mret (MkIdentity i m (random_address (port_drawn drawn))).

Definition random_identities (n : nat) (drawn : nat → IdentityDraw) : M S (list Identity) :=
  mapM (λ k, random_identity (drawn k)) (seq 0 n).

Definition random_sorted_identifiers (n : nat) (drawn : nat → list u8) : M S (list Identifier) :=
  ids ← mapM (λ k, random_identifier (drawn k)) (seq 0 n);
  mret (sort ids).
End draws.

(** ** Tables *)
Section tables.
Context `{Hex} `{FixedStr}.
Abbreviation T := ArrayLookupTable.InnerArrayLookupTable (only parsing).

(** The body of the loop: one neighbor on each side at level [i]. *)
Definition insert_level (ids : list Identity) (n i : nat) : M T () :=
  left ← index ids i;
  _ ← or_panic (ArrayLookupTable.update_entry left i Left);
  right ← index ids (i + n);
  or_panic (ArrayLookupTable.update_entry right i Right).

Fixpoint insert_levels (ids : list Identity) (n : nat) (levels : list nat) : M T () :=
  match levels with
  | [] => mret tt
  | i :: rest => _ ← insert_level ids n i; insert_levels ids n rest
  end.

(** From the table [ArrayLookupTable::new()] makes. *)
Definition random_lookup_table (n : nat) (drawn : nat → IdentityDraw) : M T () :=
  ids ← random_identities (2 * n) drawn;
  insert_levels ids n (seq 0 n).

(** [zero] and [max] are the ports drawn for the two extreme identities. *)
Definition random_lookup_table_with_extremes (n : nat) (drawn : nat → IdentityDraw) (zero max : N)
    : M T () :=
  _ ← random_lookup_table n drawn;
  zero_id ← unwrapped (Identifier.from_bytes (replicate IDENTIFIER_SIZE_BYTES x00));
  zero_mv ← unwrapped (MemVec.from_bytes (replicate IDENTIFIER_SIZE_BYTES x00));
  max_id ← unwrapped (Identifier.from_bytes (replicate IDENTIFIER_SIZE_BYTES xff));
  max_mv ← unwrapped (MemVec.from_bytes (replicate IDENTIFIER_SIZE_BYTES xff));
  let zero_identity := MkIdentity zero_id zero_mv (random_address zero) in
  let max_identity := MkIdentity max_id max_mv (random_address max) in
  _ ← or_panic (ArrayLookupTable.update_entry zero_identity 0 Left);
  or_panic (ArrayLookupTable.update_entry max_identity 0 Right).
End tables.

(** ** What is drawn is what the values hold *)
Section values.
Context `{HexLaws} `{FixedStrLaws} {S : Type}.
#[local] Set Default Proof Using "Type*".

(** Draws of the right size and range. *)
Record good_draw (r : IdentityDraw) : Prop := {
  gd_id : length (id_drawn r) = 32;
  gd_mem_vec : length (mem_vec_drawn r) = 32;
  gd_port : (1024 ≤ port_drawn r ≤ 65535)%N
}.

(** [i] is made of what was drawn. *)
Definition made_of (r : IdentityDraw) (i : Identity) : Prop :=
  Identifier.to_bytes (id i) = id_drawn r ∧ MemVec.to_bytes (mem_vec i) = mem_vec_drawn r
  ∧ address i = MkAddress "localhost" (pretty (port_drawn r)).

(** A number below [10 ^ k] prints with at most [k] digits. *)
Lemma pretty_go_length k x s :
  (x < 10 ^ N.of_nat k)%N → String.length (pretty_N_go x s) ≤ k + String.length s.
Proof.
  revert x s. induction k as [|k IH]; intros x s Hx.
  - assert (x = 0%N) as -> by (simpl in Hx; lia). by rw pretty_N_go_0.
  - destruct (decide (0 < x)%N) as [Hpos|Hz].
    + rw pretty_N_go_step; [done|]. etrans; [apply IH|simpl; lia].
      apply N.Div0.div_lt_upper_bound. rw -N.pow_succ_r'. by replace (N.succ (N.of_nat k)) with (N.of_nat (Datatypes.S k)) by lia.
    + assert (x = 0%N) as -> by lia. rw pretty_N_go_0. lia.
Qed.

Lemma port_fits p : (1024 ≤ p ≤ 65535)%N → String.length (pretty p) < 8.
Proof.
  intros Hp. rw /pretty /pretty_N decide_False; [lia|].
  pose proof (pretty_go_length 5 p "") as Hl. simpl in Hl. lia.
Qed.

Lemma random_address_eq p : (1024 ≤ p ≤ 65535)%N → random_address p = MkAddress "localhost" (pretty p).
Proof. intros Hp. apply address_new_spec; [simpl; lia|by apply port_fits]. Qed.

Lemma random_identifier_eq bytes (s : S) : length bytes = 32 →
  ∃ i, random_identifier bytes s = Done (Ok i, s) ∧ Identifier.to_bytes i = bytes.
Proof.
  intros Hl. rw /random_identifier /random_hex_str /Identifier.from_string hex_decode_encode.
  pose proof (Identifier.identifier_from_to_bytes (MkIdentifier (MkArray32 bytes (proj2 (Nat.eqb_eq _ _) Hl)))) as E.
  rw /Identifier.to_bytes /= in E. rw E. eexists. by split.
Qed.

Lemma random_membership_vector_eq bytes (s : S) : length bytes = 32 →
  ∃ m, random_membership_vector bytes s = Done (Ok m, s) ∧ MemVec.to_bytes m = bytes.
Proof.
  intros Hl. rw /random_membership_vector /random_hex_str /MemVec.from_string hex_decode_encode.
  pose proof (MemVec.memvec_from_to_bytes (MemVec.MkMembershipVector (MkArray32 bytes (proj2 (Nat.eqb_eq _ _) Hl)))) as E.
  rw /MemVec.to_bytes /= in E. rw E. eexists. by split.
Qed.

Lemma random_identity_eq r (s : S) :
  good_draw r → ∃ i, random_identity r s = Done (Ok i, s) ∧ made_of r i.
Proof.
  intros [Hi Hm Hp]. destruct (random_identifier_eq _ s Hi) as (i & Ei & Hid).
  destruct (random_membership_vector_eq _ s Hm) as (m & Em & Hmv).
  eexists. rw /random_identity (bind_ok _ _ _ _ _ Ei) (bind_ok _ _ _ _ _ Em).
  split; [done|]. split_and!; [done..|by apply random_address_eq].
Qed.

(** A run of [mapM] whose steps leave the state. *)
Lemma mapM_seq {A} (P : nat → A → Prop) (f : nat → M S A) (s : S) i n :
  (∀ k, i ≤ k < i + n → ∃ a, f k s = Done (Ok a, s) ∧ P k a) →
  ∃ l, mapM f (seq i n) s = Done (Ok l, s) ∧ length l = n
    ∧ ∀ k a, l !! k = Some a → P (i + k) a.
Proof.
  revert i. induction n as [|n IH]; intros i Hf; [by exists []|].
  destruct (Hf i) as (a & Ea & Ha); [lia|].
  destruct (IH (Datatypes.S i)) as (l & El & Hlen & Hl); [intros k Hk; apply Hf; lia|].
  exists (a :: l). cbn [seq mapM]. rw (bind_ok _ _ _ _ _ Ea) (bind_ok _ _ _ _ _ El).
  split_and!; [done|simpl; by rw Hlen|]. intros [|k] b; simpl.
  - intros [= <-]. by rw Nat.add_0_r.
  - intros Hk. replace (i + Datatypes.S k) with (Datatypes.S i + k) by lia. by apply Hl.
Qed.

Lemma random_identities_eq n drawn (s : S) :
  (∀ k, k < n → good_draw (drawn k)) →
  ∃ ids, random_identities n drawn s = Done (Ok ids, s) ∧ length ids = n
    ∧ ∀ k i, ids !! k = Some i → made_of (drawn k) i.
Proof.
  intros Hd. apply (mapM_seq (λ k, made_of (drawn k))). intros k Hk. apply random_identity_eq, Hd. lia.
Qed.
End values.

(** ** The tables *)
Section table_theorems.
Context `{HexLaws} `{FixedStrLaws}.
#[local] Set Default Proof Using "Type*".
Abbreviation T := ArrayLookupTable.InnerArrayLookupTable (only parsing).
Implicit Types t : T.

(** The identity at level [l]: the first half of the draws is on the left. *)
Definition placed (ids : list Identity) (n l : nat) (d : Direction) : option Identity :=
  match d with Left => ids !! l | Right => ids !! (l + n) end.

Lemma update_at t i l d : array_wf t → l < 256 →
  ∃ t', or_panic (ArrayLookupTable.update_entry i l d) t = Done (Ok tt, t') ∧ array_wf t'
    ∧ ∀ l' d', array_slots t' l' d' = set_slot l d (Some i) (array_slots t) l' d'.
Proof.
  intros Hwf Hl. assert (Hw : LookupTable.lt_wf t) by exact Hwf.
  destruct (LookupTable.update_entry_spec t i l d Hw Hl) as (t' & E & Hwf' & Hs).
  exists t'. split_and!; [|done..]. cbn [update_entry array_lookup_table] in E. by rw /or_panic E.
Qed.

Lemma insert_level_spec ids n i t :
  length ids = 2 * n → i < n → i < 256 → array_wf t →
  ∃ t', insert_level ids n i t = Done (Ok tt, t') ∧ array_wf t'
    ∧ ∀ l d, array_slots t' l d = if decide (l = i) then placed ids n i d else array_slots t l d.
Proof.
  intros Hlen Hi Hl Hwf.
  destruct (lookup_lt_is_Some_2 ids i) as [x Ex]; [lia|].
  destruct (lookup_lt_is_Some_2 ids (i + n)) as [y Ey]; [lia|].
  destruct (update_at t x i Left Hwf Hl) as (t1 & E1 & Hwf1 & Hs1).
  destruct (update_at t1 y i Right Hwf1 Hl) as (t2 & E2 & Hwf2 & Hs2).
  exists t2. split_and!; [|done|].
  - rw /insert_level (bind_ok _ _ t x t); [by rw /index Ex|].
    rw (bind_ok _ _ _ _ _ E1). rw (bind_ok _ _ t1 y t1); [by rw /index Ey|done].
  - intros l d. rw Hs2 /set_slot Hs1 /set_slot /placed.
    destruct (decide (l = i)) as [->|Hne]; last first.
    { rw !decide_False; [by intros [? _]..|done]. }
    destruct d; [rw decide_False; [by intros [_ ?]|]|]; by rw decide_True.
Qed.

Lemma insert_levels_spec ids n i m t :
  length ids = 2 * n → i + m ≤ n → i + m ≤ 256 → array_wf t →
  ∃ t', insert_levels ids n (seq i m) t = Done (Ok tt, t') ∧ array_wf t'
    ∧ ∀ l d, array_slots t' l d
        = if decide (i ≤ l < i + m) then placed ids n l d else array_slots t l d.
Proof.
  intros Hlen. revert i t. induction m as [|m IH]; intros i t Hi Hl Hwf.
  - exists t. split_and!; [done..|]. intros l d. by rw decide_False; [lia|].
  - destruct (insert_level_spec ids n i t Hlen) as (t1 & E1 & Hwf1 & Hs1); [lia|lia|done|].
    destruct (IH (S i) t1) as (t2 & E2 & Hwf2 & Hs2); [lia|lia|done|].
    exists t2. cbn [seq insert_levels]. rw (bind_ok _ _ _ _ _ E1).
    split_and!; [done..|]. intros l d. rw Hs2 Hs1.
    destruct (decide (l = i)) as [->|Hne].
    + rw decide_False; [lia|]. by rw decide_True; [lia|].
    + destruct (decide (S i ≤ l < S i + m)); [by rw decide_True; [lia|]|by rw decide_False; [lia|]].
Qed.

Lemma insert_levels_app ids n ls ls' t t' :
  insert_levels ids n ls t = Done (Ok tt, t') →
  insert_levels ids n (ls ++ ls') t = insert_levels ids n ls' t'.
Proof using Type.
  revert t. induction ls as [|i ls IH]; intros t; cbn [insert_levels app]; [by intros [= ->]|].
  rw /mbind /M_bind. destruct (insert_level ids n i t) as [[[[]|e] t1]| |]; try done. apply IH.
Qed.

(** Level 256 does not exist. *)
Lemma insert_level_256 ids n t : insert_level ids n 256 t = Panicked.
Proof using Type.
  rw /insert_level /mbind /M_bind /index. by destruct (ids !! 256).
Qed.

Lemma random_lookup_table_eq n drawn :
  (∀ k, k < 2 * n → good_draw (drawn k)) → n ≤ 256 →
  ∃ ids t, random_lookup_table n drawn ArrayLookupTable.new = Done (Ok tt, t)
    ∧ array_wf t ∧ length ids = 2 * n ∧ (∀ k i, ids !! k = Some i → made_of (drawn k) i)
    ∧ ∀ l d, array_slots t l d = if decide (l < n) then placed ids n l d else None.
Proof.
  intros Hd Hn.
  destruct (random_identities_eq (2 * n) drawn ArrayLookupTable.new Hd) as (ids & E & Hlen & Hids).
  destruct (insert_levels_spec ids n 0 n ArrayLookupTable.new Hlen) as (t & Et & Hwf & Hs);
    [lia|lia|apply new_wf|].
  exists ids, t. split_and!; [|done..|].
  - by rw /random_lookup_table (bind_ok _ _ _ _ _ E).
  - intros l d. rw Hs. destruct (decide (l < n)); [by rw decide_True; [lia|]|].
    rw decide_False; [lia|]. apply new_slots.
Qed.

(** A random lookup table of [n] levels holds, at each level below [n], two of the
    identities it drew, the one at the level's position on the left and the one [n]
    further on the right, each with the bytes and the port that were drawn, and nothing
    above; with extremes, level 0 instead has the zero and the maximum identifier. A
    table has 256 levels, and with more the fixture panics. *)
Theorem random_lookup_table_spec n drawn zero max :
  (∀ k, k < 2 * n → good_draw (drawn k)) →
  if decide (n ≤ 256) then
    ∃ ids t t', random_lookup_table n drawn ArrayLookupTable.new = Done (Ok tt, t)
      ∧ random_lookup_table_with_extremes n drawn zero max ArrayLookupTable.new = Done (Ok tt, t')
      ∧ length ids = 2 * n ∧ (∀ k i, ids !! k = Some i → made_of (drawn k) i)
      ∧ (∀ l d, array_slots t l d = if decide (l < n) then placed ids n l d else None)
      ∧ id <$> array_slots t' 0 Left = Some ZERO ∧ id <$> array_slots t' 0 Right = Some MAX
      ∧ ∀ l d, l ≠ 0 → array_slots t' l d = array_slots t l d
  else random_lookup_table n drawn ArrayLookupTable.new = Panicked
    ∧ random_lookup_table_with_extremes n drawn zero max ArrayLookupTable.new = Panicked.
Proof.
  intros Hd. destruct (decide (n ≤ 256)) as [Hn|Hn].
  - destruct (random_lookup_table_eq n drawn Hd Hn) as (ids & t & E & Hwf & Hlen & Hids & Hs).
    set (zi := MkIdentity ZERO (MemVec.MkMembershipVector (array32_repeat x00)) (random_address zero)).
    set (mi := MkIdentity MAX (MemVec.MkMembershipVector (array32_repeat xff)) (random_address max)).
    destruct (update_at t zi 0 Left Hwf) as (t1 & E1 & Hwf1 & Hs1); [lia|].
    destruct (update_at t1 mi 0 Right Hwf1) as (t2 & E2 & Hwf2 & Hs2); [lia|].
    exists ids, t, t2. split_and!; [done| |done..|by rw Hs2 /set_slot Hs1|by rw Hs2|].
    + rw /random_lookup_table_with_extremes (bind_ok _ _ _ _ _ E).
      have Ez := Identifier.identifier_from_to_bytes ZERO.
      have Em := Identifier.identifier_from_to_bytes MAX.
      have Ezm := MemVec.memvec_from_to_bytes (mem_vec zi).
      have Emm := MemVec.memvec_from_to_bytes (mem_vec mi).
      change (Identifier.to_bytes ZERO) with (replicate IDENTIFIER_SIZE_BYTES x00) in Ez.
      change (Identifier.to_bytes MAX) with (replicate IDENTIFIER_SIZE_BYTES xff) in Em.
      change (MemVec.to_bytes (mem_vec zi)) with (replicate IDENTIFIER_SIZE_BYTES x00) in Ezm.
      change (MemVec.to_bytes (mem_vec mi)) with (replicate IDENTIFIER_SIZE_BYTES xff) in Emm.
      rw Ez Em Ezm Emm. exact (eq_trans (bind_ok _ _ _ _ _ E1) E2).
    + intros l d Hl. rw Hs2 /set_slot decide_False; [by intros [? _]|].
      rw Hs1 /set_slot decide_False; [by intros [? _]|done].
  - assert (Ep : random_lookup_table n drawn ArrayLookupTable.new = Panicked).
    { destruct (random_identities_eq (2 * n) drawn ArrayLookupTable.new Hd) as (ids & E & Hlen & _).
      rw /random_lookup_table (bind_ok _ _ _ _ _ E).
      destruct (insert_levels_spec ids n 0 256 ArrayLookupTable.new Hlen) as (t & Et & _);
        [lia|lia|apply new_wf|].
      have En : seq 0 n = seq 0 256 ++ seq 256 (S (n - 257)) by rw -seq_app; f_equal; lia.
      rw En (insert_levels_app _ _ _ _ _ _ Et).
      cbn [seq insert_levels]. by rw /mbind /M_bind insert_level_256. }
    split; [exact Ep|]. by rw /random_lookup_table_with_extremes /mbind /M_bind Ep.
Qed.
End table_theorems.

(** ** The fixtures' tests *)
Section tests.
Context `{Hex}.

(** The [fold] over neighboring pairs: each is less than the next. *)
Fixpoint ascending_pairs (prev : Identifier) (ids : list Identifier) : bool :=
  match ids with
  | [] => true
  | curr :: rest =>
      bool_decide (cc_result (compare prev curr) = CompareLess) && ascending_pairs curr rest
  end.

(** [n] is 100 in the code. *)
Definition test_random_identifiers (n : nat) (drawn : nat → list u8) : bool :=
  match random_sorted_identifiers n drawn () with
  | Done (Ok (first :: rest), _) => ascending_pairs first rest
  | _ => false
  end.

(** The loop of the other two tests: [target] and what the fixture would draw. [None]
    is a failed assertion or a panic, otherwise the targets that were skipped. *)
Fixpoint side_loop (extreme : Identifier) (fixture : Identifier → Identifier → outcome Identifier)
    (ok : Identifier → Identifier → bool) (draws : list (Identifier * Identifier))
    (failure_count : nat) : option nat :=
  match draws with
  | [] => Some failure_count
  | (target, drawn) :: rest =>
      if decide (target = extreme) then side_loop extreme fixture ok rest (S failure_count)
      else match fixture target drawn with
           | Done i => if ok i target then side_loop extreme fixture ok rest failure_count else None
           | _ => None
           end
  end.

(** The number of turns is 1000 in the code. *)
Definition side_test extreme fixture ok (draws : list (Identifier * Identifier)) : bool :=
  match side_loop extreme fixture ok draws 0 with
  | Some failure_count => (failure_count <? length draws)%nat
  | None => false
  end.
Definition test_random_identifier_greater_than : list (Identifier * Identifier) → bool :=
  side_test MAX random_identifier_greater_than id_gtb.
Definition test_random_identifier_less_than : list (Identifier * Identifier) → bool :=
  side_test ZERO random_identifier_less_than id_ltb.
End tests.

(** What one turn needs: the target is skipped, or the fixture's own draw, used only at
    the other extreme, is not that extreme. *)
Definition turn_passes (extreme other : Identifier) (p : Identifier * Identifier) : Prop :=
  p.1 = other → p.2 ≠ other.

Lemma side_loop_some extreme other fixture ok draws n :
  extreme ≠ other →
  (∀ target drawn, target ≠ extreme →
     (∃ i, fixture target drawn = Done i ∧ ok i target = true) ↔ (target = other → drawn ≠ other)) →
  match side_loop extreme fixture ok draws n with
  | Some m => Forall (turn_passes extreme other) draws
      ∧ m = n + length (filter (λ p, p.1 = extreme) draws)
  | None => ¬ Forall (turn_passes extreme other) draws
  end.
Proof.
  intros Hne Hfix. revert n. induction draws as [|[target drawn] rest IH]; intros n; cbn [side_loop].
  { split; [constructor|simpl; lia]. }
  destruct (decide (target = extreme)) as [->|Ht].
  - specialize (IH (S n)). rw filter_cons_True; [done|].
    destruct (side_loop _ _ _ rest _) as [m|]; rw Forall_cons; [|by intros [_ ?]].
    destruct IH as [Hall ->]. split; [|simpl; lia]. split; [|done]. by intros Heq.
  - specialize (IH n). rw filter_cons_False; [done|]. specialize (Hfix target drawn Ht).
    destruct (fixture target drawn) as [i| |] eqn:Ei.
    + destruct (ok i target) eqn:Eok; [destruct (side_loop _ _ _ rest _) as [m|]|].
      * rw Forall_cons. split; [|apply IH]. split; [|apply IH]. exact (proj1 Hfix (ex_intro _ i (conj eq_refl Eok))).
      * rw Forall_cons. by intros [_ ?].
      * rw Forall_cons. intros [Hp _]. destruct (proj2 Hfix Hp) as (j & [= <-] & Hj). by rw Eok in Hj.
    + rw Forall_cons. intros [Hp _]. by destruct (proj2 Hfix Hp) as (j & [=] & _).
    + rw Forall_cons. intros [Hp _]. by destruct (proj2 Hfix Hp) as (j & [=] & _).
Qed.

Lemma filter_shorter {A} (P : A → Prop) `{∀ x, Decision (P x)} l :
  length (filter P l) < length l ↔ Exists (λ x, ¬ P x) l.
Proof.
  induction l as [|x l IH]; [rw Exists_nil /=; lia|]. rw Exists_cons.
  destruct (decide (P x)) as [Hx|Hx].
  - rw filter_cons_True; [done|]. rw /= -IH. split; [right; lia|intros [?|?]; [done|lia]].
  - rw filter_cons_False; [done|]. pose proof (length_filter P l). simpl. split; [by left|lia].
Qed.

Lemma side_test_passes extreme other fixture ok draws :
  extreme ≠ other →
  (∀ target drawn, target ≠ extreme →
     (∃ i, fixture target drawn = Done i ∧ ok i target = true) ↔ (target = other → drawn ≠ other)) →
  side_test extreme fixture ok draws = true ↔
    Forall (turn_passes extreme other) draws ∧ Exists (λ p, p.1 ≠ extreme) draws.
Proof.
  intros Hne Hfix. rw /side_test.
  pose proof (side_loop_some extreme other fixture ok draws 0 Hne Hfix) as Hl.
  destruct (side_loop _ _ _ _ _) as [m|]; [|by split; [|intros [? _]]].
  destruct Hl as [Hall ->]. rw Nat.ltb_lt /= filter_shorter. tauto.
Qed.

Lemma ZERO_lowest i : i ≠ ZERO → (id_val ZERO < id_val i)%Z.
Proof.
  intros Hne. pose proof (id_val_range i). assert (id_val ZERO ≠ id_val i) by by intros E%id_val_inj.
  assert (id_val ZERO = 0%Z) by (vm_compute; reflexivity). lia.
Qed.
Lemma MAX_highest i : i ≠ MAX → (id_val i < id_val MAX)%Z.
Proof.
  intros Hne. pose proof (id_val_range i). assert (id_val MAX ≠ id_val i) by by intros E%id_val_inj.
  assert (id_val MAX = 2 ^ 256 - 1)%Z by (vm_compute; reflexivity). lia.
Qed.

Lemma ascending_pairs_spec i l :
  ascending_pairs i l = true ↔ StronglySorted (λ a b, beyond Right a b) (i :: l).
Proof.
  assert (Htr : Transitive (λ a b, beyond Right a b)) by (intros a b c; simpl; lia).
  revert i. induction l as [|j l IH]; intros i; cbn [ascending_pairs].
  { split; [repeat constructor|done]. }
  rw andb_true_iff bool_decide_eq_true IH.
  assert (Hc : cc_result (compare i j) = CompareLess ↔ beyond Right i j).
  { destruct (Identifier.compare_spec i j) as (_ & _ & _ & ->). simpl.
    destruct (Z.compare_spec (id_val i) (id_val j)); split; intros; try done; lia. }
  rw Hc. split.
  - intros [Hij Hl]. constructor; [done|]. inversion Hl as [|? ? Hl' Hall]; subst.
    constructor; [done|]. eapply Forall_impl; [exact Hall|]. intros k Hk. exact (Htr _ _ _ Hij Hk).
  - intros Hl. inversion Hl as [|? ? Hl' Hall]; subst. split; [by apply Forall_cons in Hall as [? _]|done].
Qed.

Lemma sorted_identifiers_ascending ids :
  ids ≠ [] →
  match sort ids with first :: rest => ascending_pairs first rest | [] => false end = true ↔ NoDup ids.
Proof.
  intros Hne. rw -{2}(sort_permutation ids).
  destruct (sort ids) as [|i l] eqn:E.
  { pose proof (sort_permutation ids) as Hp. rw E in Hp. by apply Permutation_nil_l in Hp. }
  rw ascending_pairs_spec. split.
  - clear E. generalize (i :: l). induction 1 as [|a l' Hl IH Hall]; [constructor|]. constructor; [|done].
    intros Ha. rw Forall_forall in Hall. by destruct (beyond_irrefl _ _ (Hall a Ha)).
  - intros Hnd. rw -E. apply sort_ascending. by rw -(sort_permutation ids) E.
Qed.

Lemma to_bytes_inj i j : Identifier.to_bytes i = Identifier.to_bytes j → i = j.
Proof. destruct i as [a], j as [b]. intros E. f_equal. by apply array32_eq. Qed.

Lemma test_random_identifiers_passes `{HexLaws} n drawn :
  (∀ k, k < n → length (drawn k) = 32) → 0 < n →
  test_random_identifiers n drawn = true ↔ NoDup (map drawn (seq 0 n)).
Proof.
  intros Hd Hn.
  destruct (mapM_seq (λ k i, Identifier.to_bytes i = drawn k) (λ k, random_identifier (drawn k)) () 0 n)
    as (ids & E & Hlen & Hids); [intros k Hk; apply random_identifier_eq, Hd; lia|].
  assert (Hmap : map drawn (seq 0 n) = map Identifier.to_bytes ids).
  { apply list_eq. intros k. rw !list_lookup_fmap.
    destruct (decide (k < n)) as [Hk|Hk].
    - destruct (lookup_lt_is_Some_2 ids k) as [i Hi]; [lia|]. rw lookup_seq_lt; [done|].
      rw Hi /=. f_equal. symmetry. by apply Hids.
    - rw !lookup_ge_None_2; [rw length_seq; lia|lia|done]. }
  rw /test_random_identifiers /random_sorted_identifiers (bind_ok _ _ _ _ _ E) Hmap.
  rw sorted_identifiers_ascending; [intros ->; simpl in Hlen; lia|].
  split; [by apply NoDup_fmap_2_strong; intros; apply to_bytes_inj|apply NoDup_fmap_1].
Qed.

(** The fixtures' own tests, for all their draws. The first passes exactly when the
    identifiers drawn are distinct; the others unless every target is the extreme on
    that side, or some target and the draw for it are both the other extreme. *)
Theorem fixture_tests_outcome `{HexLaws} n drawn draws :
  (∀ k, k < n → length (drawn k) = 32) →
  (0 < n → test_random_identifiers n drawn = true ↔ NoDup (map drawn (seq 0 n)))
  ∧ (test_random_identifier_greater_than draws = true ↔
       Forall (turn_passes MAX ZERO) draws ∧ Exists (λ p, p.1 ≠ MAX) draws)
  ∧ (test_random_identifier_less_than draws = true ↔
       Forall (turn_passes ZERO MAX) draws ∧ Exists (λ p, p.1 ≠ ZERO) draws).
Proof.
  intros Hd. split_and!.
  - by apply test_random_identifiers_passes.
  - apply side_test_passes; [decided|]. intros target r Ht. destruct (decide (target = ZERO)) as [->|Hz].
    + have -> : random_identifier_greater_than ZERO r = Done r by done. split.
      * intros (i & [= <-] & Hi) _ ->. rw id_gtb_val in Hi. lia.
      * intros Hr. exists r. split; [done|]. rw id_gtb_val. apply Z.ltb_lt, ZERO_lowest. by apply Hr.
    + destruct (fixtures_between target r Hz Ht) as [(i & E & Hi) _]. split; [done|]. intros _.
      exists i. split; [done|]. rw id_gtb_val. by apply Z.ltb_lt.
  - apply side_test_passes; [decided|]. intros target r Hz. destruct (decide (target = MAX)) as [->|Ht].
    + have -> : random_identifier_less_than MAX r = Done r by done. split.
      * intros (i & [= <-] & Hi) _ ->. rw id_ltb_val in Hi. lia.
      * intros Hr. exists r. split; [done|]. rw id_ltb_val. apply Z.ltb_lt, MAX_highest. by apply Hr.
    + destruct (fixtures_between target r Hz Ht) as [_ (i & E & Hi)]. split; [done|]. intros _.
      exists i. split; [done|]. rw id_ltb_val. by apply Z.ltb_lt.
Qed.

(** ** Bounded waits

    Threads and blocking tasks run beside the test; what they do when is an argument, on
    a clock without scheduling delays. *)
Section waits.
Context {T : Type}.

(** A thread: when it ends, if ever, and with what value or panic payload. *)
Record JoinHandle : Type := MkJoinHandle {
  ends_at : option Z;
  ends_with : T + Arg
}.

(** The helper thread joins the handle and sends what it gets; [recv_timeout] waits for
    that. The result, and the instant it is there. *)
Definition join_with_timeout (handle : JoinHandle) (timeout now : Z) : result () * Z :=
  match ends_at handle with
  | Some t =>
      if (t <=? now + timeout)%Z then
        (match ends_with handle with
         | inl _ => Ok tt
         | inr e => Err (Anyhow "thread panicked: {e:?}" [e])
         end, Z.max now t)
      else (Err (Anyhow "thread timed out" []), (now + timeout)%Z)
  | None => (Err (Anyhow "thread timed out" []), (now + timeout)%Z)
  end.

Fixpoint join_handles (start timeout : Z) (handles : list JoinHandle) (now : Z) : result () * Z :=
  match handles with
  | [] => (Ok tt, now)
  | handle :: rest =>
      let elapsed := (now - start)%Z in
      if (timeout <=? elapsed)%Z then (Err (Anyhow "timeout" []), now)
      else
        let remaining_time := (timeout - elapsed)%Z in
        match join_with_timeout handle remaining_time now with
        | (Ok _, now') => join_handles start timeout rest now'
        | (Err e, now') => (Err e, now')
        end
  end.
Definition join_all_with_timeout (handles : list JoinHandle) (timeout now : Z) : result () * Z :=
  join_handles now timeout handles now.

(** The thread returned before, or by, an instant. *)
Definition returned_by (limit : Z) (handle : JoinHandle) : Prop :=
  ∃ t v, ends_at handle = Some t ∧ (t ≤ limit)%Z ∧ ends_with handle = inl v.
Definition returned_before (limit : Z) (handle : JoinHandle) : Prop := returned_by (limit - 1) handle.

Lemma join_with_timeout_spec handle timeout now :
  (0 ≤ timeout)%Z →
  let r := join_with_timeout handle timeout now in
  (now ≤ r.2 ≤ now + timeout)%Z
  ∧ (r.1 = Ok tt ↔ returned_by (now + timeout) handle)
  ∧ ∀ t, ends_at handle = Some t → (t ≤ now + timeout)%Z → r.2 = Z.max now t.
Proof.
  intros Ht. rw /join_with_timeout /returned_by.
  destruct (ends_at handle) as [t|]; [destruct (Z.leb_spec t (now + timeout))|]; simpl.
  - split_and!; [lia|lia| |by intros ? [= <-]]. destruct (ends_with handle) as [v|e]; split; try done; eauto 6.
    by intros (? & ? & _ & _ & [=]).
  - split_and!; [lia|lia| |intros ? [= <-]; lia]. split; [done|]. intros (? & ? & [= <-] & ? & _). lia.
  - split_and!; [lia|lia| |done]. split; [done|]. by intros (? & ? & [=] & _).
Qed.

(** The timeout is one budget for all handles: the wait never exceeds it, and it ends
    well exactly when every thread returned in time, the last one at the latest when
    the budget ends and the others before. *)
Theorem join_all_is_bounded handles last timeout now :
  (0 < timeout)%Z →
  let r := join_all_with_timeout (handles ++ [last]) timeout now in
  (now ≤ r.2 ≤ now + timeout)%Z
  ∧ (r.1 = Ok tt ↔ Forall (returned_before (now + timeout)) handles ∧ returned_by (now + timeout) last).
Proof.
  intros Ht. rw /join_all_with_timeout.
  cut (∀ start, (start ≤ now < start + timeout)%Z →
    let r := join_handles start timeout (handles ++ [last]) now in
    (now ≤ r.2 ≤ start + timeout)%Z
    ∧ (r.1 = Ok tt ↔ Forall (returned_before (start + timeout)) handles ∧ returned_by (start + timeout) last)).
  { intros Hall. apply (Hall now). lia. }
  clear Ht. revert now. induction handles as [|h rest IH]; intros now start Hnow; cbn [app join_handles].
  - destruct (Z.leb_spec timeout (now - start)); [lia|].
    destruct (join_with_timeout_spec last (timeout - (now - start)) now) as (Hb & Hr & _); [lia|].
    destruct (join_with_timeout last _ _) as [[[]|e] now'] eqn:E; cbn [fst snd] in *;
      replace (now + (timeout - (now - start)))%Z with (start + timeout)%Z in * by lia;
      (split; [lia|]); rw Hr Forall_nil; tauto.
  - destruct (Z.leb_spec timeout (now - start)); [lia|].
    destruct (join_with_timeout_spec h (timeout - (now - start)) now) as (Hb & Hr & Hend); [lia|].
    destruct (join_with_timeout h _ _) as [[[]|e] now'] eqn:E; cbn [fst snd] in *;
      replace (now + (timeout - (now - start)))%Z with (start + timeout)%Z in * by lia; last first.
    { split; [lia|]. rw Forall_cons. split; [done|]. intros [[Hh _] _].
      assert (Err e = Ok tt); [|done]. apply Hr. destruct Hh as (t & v & ? & ? & ?). exists t, v. split_and!; [done|lia|done]. }
    destruct (proj1 Hr eq_refl) as (t & v & Et & Hle & Ev). specialize (Hend t Et Hle).
    assert (Hh : returned_before (start + timeout) h ↔ (t < start + timeout)%Z).
    { split; [intros (t' & v' & Et' & ? & _); rw Et in Et'; injection Et' as <-; lia|].
      intros ?. exists t, v. split_and!; [done|lia|done]. }
    destruct (decide (now' < start + timeout)%Z) as [Hlt|Hge].
    + destruct (IH now' start) as [Hb2 Hr2]; [lia|]. split; [lia|].
      rw Hr2 Forall_cons Hh. split; [intros [? ?]|intros [[? ?] ?]]; split_and!; try done; lia.
    + assert (Hstop : join_handles start timeout (rest ++ [last]) now' = (Err (Anyhow "timeout" []), now')).
      { destruct rest; cbn [app join_handles]; by rw (proj2 (Z.leb_le _ _)); [lia|]. }
      rw Hstop. cbn [fst snd]. split; [lia|]. split; [done|]. rw Forall_cons Hh. intros [[? _] _]. lia.
Qed.

(** [wait_until]: the polls of [condition] on the blocking task, each at an instant,
    [None] when it panics. The task ends with its first [true], which it sends, or with
    a panic, which drops the sender. *)
Fixpoint condition_task (polls : list (Z * option bool)) : option (Z * bool) :=
  match polls with
  | [] => None
  | (t, Some true) :: _ => Some (t, true)
  | (t, None) :: _ => Some (t, false)
  | (_, Some false) :: rest => condition_task rest
  end.

Definition wait_until (polls : list (Z * option bool)) (timeout : nat) (now : Z) : result () :=
  match condition_task polls with
  | Some (t, sent) =>
      if (t <=? now + Z.of_nat timeout)%Z then
        if sent then Ok tt else Err (Anyhow "channel closed unexpectedly" [])
      else Err (Anyhow "condition not met within timeout of {:?}" [ArgUsize timeout])
  | None => Err (Anyhow "condition not met within timeout of {:?}" [ArgUsize timeout])
  end.

(** It succeeds exactly when a poll in time finds the condition true and none before it
    panicked. *)
Theorem wait_until_succeeds polls timeout now :
  wait_until polls timeout now = Ok tt ↔
    ∃ before t after, polls = before ++ (t, Some true) :: after
      ∧ Forall (λ p, p.2 = Some false) before ∧ (t ≤ now + Z.of_nat timeout)%Z.
Proof.
  rw /wait_until. induction polls as [|[t [[]|]] rest IH]; cbn [condition_task].
  - split; [done|]. by intros ([] & ? & ? & [=] & _).
  - destruct (Z.leb_spec t (now + Z.of_nat timeout)) as [Ht|Ht].
    + split; [intros _; by exists [], t, rest|done].
    + split; [done|]. intros (before & t' & after & E & Hall & Hle).
      destruct Hall as [|p before Hp _]; simplify_eq/=; lia.
  - rw IH. split.
    + intros (before & t' & after & -> & Hall & Hle). exists ((t, Some false) :: before), t', after.
      split_and!; [done|by constructor|done].
    + intros (before & t' & after & E & Hall & Hle).
      destruct Hall as [|p before Hp Hall]; simplify_eq/=. by exists before, t', after.
  - split; [by destruct (t <=? _)%Z|]. intros (before & t' & after & E & Hall & Hle).
    by destruct Hall as [|p before Hp _]; simplify_eq/=.
Qed.
End waits.
