(* ===== verification/Processor.v ===== *)
(** * The message processor ([src/network/processor.rs])

    A [MessageProcessor] is a shared reference to a boxed processor behind a
    reader-writer lock that nobody ever takes for writing, so a call is a call of the
    shared processor. The unit test counts the events of two clones. *)
From S2P Require Import Prelude Bytes Model LookupTable Core World BaseNode.
From S2P Require Import Identifier.

(** The processors in existence, and the state they work on. *)
Record Shared (P S : Type) : Type := MkShared {
  cores : gmap loc P;
  state : S
}.
Arguments MkShared {_ _} _ _.
Arguments cores {_ _} _.
Arguments state {_ _} _.

(** [core: Arc<RwLock<Box<dyn EventProcessorCore>>>]; a clone is the same reference. *)
Record MessageProcessor : Type := MkMessageProcessor { core_ref : loc }.

Section processor.
Context {P S : Type} `{EventProcessorCore P S}.

Definition message_processor_new (core : P) : M (Shared P S) MessageProcessor := λ w,
  let c := fresh (dom (cores w)) in
  Done (Ok (MkMessageProcessor c), MkShared (<[c := core]> (cores w)) (state w)).

Definition message_processor_clone (self : MessageProcessor) : MessageProcessor :=
  MkMessageProcessor (core_ref self).

(** [self.core.read()] and the call of what it guards. *)
Definition processor_process_incoming_event (self : MessageProcessor) (origin_id : Identifier)
    (event : Event) : M (Shared P S) () := λ w,
  match cores w !! core_ref self with
  | None => Panicked
  | Some core =>
      match process_incoming_event core origin_id event (state w) with
      | Done (r, s) => Done (r, MkShared (cores w) s)
      | Panicked => Panicked
      | OutOfFuel => OutOfFuel
      end
  end.

(** Calls one after the other, each through some handle. *)
Fixpoint process_all (calls : list (MessageProcessor * Identifier * Event)) : M (Shared P S) () :=
  match calls with
  | [] => mret tt
  | (p, o, ev) :: rest => _ ← processor_process_incoming_event p o ev; process_all rest
  end.

(** The same calls of the processor itself. *)
Fixpoint direct_all (core : P) (calls : list (MessageProcessor * Identifier * Event)) : M S () :=
  match calls with
  | [] => mret tt
  | (_, o, ev) :: rest => _ ← process_incoming_event core o ev; direct_all core rest
  end.

(** Any calls through any clones of one processor are the same calls of what it wraps:
    same results, same effects, in the order of the calls. *)
Theorem clones_share_their_core core calls w p w1 :
  message_processor_new core w = Done (Ok p, w1) →
  (∀ q o ev, (q, o, ev) ∈ calls → q = p ∨ q = message_processor_clone p) →
  process_all calls w1 =
    match direct_all core calls (state w) with
    | Done (r, s) => Done (r, MkShared (cores w1) s)
    | Panicked => Panicked
    | OutOfFuel => OutOfFuel
    end.
Proof.
  intros [= <- <-] Hcalls. simpl. generalize (state w). induction calls as [|[[q o] ev] rest IH]; intros s; [done|].
  assert (Eq : core_ref q = fresh (dom (cores w))).
  { by destruct (Hcalls q o ev) as [->| ->]; [left|..]. }
  cbn [process_all direct_all]. rw /mbind /M_bind /processor_process_incoming_event /= Eq lookup_insert_eq.
  destruct (process_incoming_event core o ev s) as [[[[]|e] s']| |]; [|done..].
  apply IH. intros q' o' ev' Hin. apply (Hcalls q' o' ev'). by right.
Qed.
End processor.

(** ** The unit test *)
Module ProcessorTest.

(** An [AtomicUsize] on a 64-bit machine; [fetch_add] wraps around. *)
Definition fetch_add (n : Z) (counter : Z) : Z := ((counter + n) mod 2 ^ 64)%Z.

(** [MockMessageProcessorCore] counts the events it gets. *)
Record MockMessageProcessorCore : Type := MkMock {}.
#[global] Instance mock_core : EventProcessorCore MockMessageProcessorCore Z := {|
  process_incoming_event _ _ _ := modify (fetch_add 1)
|}.

Definition counter (w : Shared MockMessageProcessorCore Z) : Z := state w.

Definition test_event_processor_shallow_cloning (origin_id origin_id2 : Identifier) : bool :=
  let w := MkShared ∅ 0%Z in
  match (processor ← message_processor_new MkMock;
         let processor_clone := message_processor_clone processor in
         before ← gets counter;
         _ ← processor_process_incoming_event processor origin_id (TestMessage "test");
         between ← gets counter;
         _ ← processor_process_incoming_event processor_clone origin_id2 (TestMessage "test2");
         after ← gets counter;
         mret (before, between, after)) w with
  | Done (Ok (before, between, after), _) =>
      ((before =? 0) && (between =? 1) && (after =? 2))%Z
  | _ => false
  end.

Theorem test_event_processor_shallow_cloning_passes origin_id origin_id2 :
  test_event_processor_shallow_cloning origin_id origin_id2 = true.
Proof. reflexivity. Qed.
End ProcessorTest.

(** Three calls through both handles. *)
Lemma clones_share_their_core_witness :
  ∃ p w1, message_processor_new ProcessorTest.MkMock (MkShared ∅ 0%Z) = Done (Ok p, w1)
    ∧ process_all [(p, ZERO, TestMessage "a"); (message_processor_clone p, MAX, TestMessage "b");
                   (p, MAX, TestMessage "c")] w1 = Done (Ok tt, MkShared (cores w1) 3%Z).
Proof.
  eexists _, _. split; [reflexivity|].
  rw (clones_share_their_core ProcessorTest.MkMock _ (MkShared ∅ 0%Z) _ _ eq_refl); [|reflexivity].
  intros q o ev. rw !elem_of_cons elem_of_nil. intros [[= -> _ _]|[[= -> _ _]|[[= -> _ _]|[]]]]; auto.
Defined.
