(* ===== verification/Transport.v ===== *)
(** * Nodes on a network that queues events

    The [Network] trait does not say when an event arrives. Here the network keeps
    what was sent and delivers it one event at a time, in any order, each to the
    processor registered under its target: handlers of different nodes interleave in
    every possible way, and requests of any number of operations are in flight at once.
    When what is in flight is honest, link requests that fit their receivers among it,
    deliveries come to an end, and by then every request has been answered to the node
    that made it. *)
From S2P Require Import Prelude Bytes Model LookupTable Core World BaseNode Hub Overlay Handlers Routing Safety Linking.
From S2P Require Import Identifier.

(** An event on its way. *)
Record Envelope : Type := MkEnvelope {
  env_from : Identifier;
  env_to : Identifier;
  env_event : Event
}.

Section transport.
Context `{Oneshot} `{LookupTableSpec L}.
Abbreviation W := (World L (list Envelope)) (only parsing).
(** The identifier and the address behind each network handle. *)
Context (own : loc → Identifier) (addr : loc → Address).
Implicit Types (w : W) (b self : BaseNode) (e : Envelope).

#[local] Instance queueing : Network BaseNode W := {|
  net_address h _ := addr h;
  send_event h i ev := modify (set_network (λ q, q ++ [MkEnvelope (own h) i ev]));
  register_processor _ _ := mret tt
|}.

(** [i] names a node as it describes itself. *)
Definition known (nodes : gmap Identifier BaseNode) (i : Identity) : Prop :=
  ∃ c, nodes !! id i = Some c ∧ describes i c.

(** ** The nodes and what is in flight *)
Section system.
Context (nodes : gmap Identifier BaseNode).

(** Nodes with identifiers, network handles and tables of their own, whose tables
    tell the truth. *)
Record system w : Prop := {
  sy_id i b : nodes !! i = Some b → node_id b = i ∧ own (net b) = i;
  sy_table i b : nodes !! i = Some b → table_ok w b;
  sy_own i j a b : nodes !! i = Some a → nodes !! j = Some b →
    core_lt (core a) = core_lt (core b) → i = j;
  sy_truthful : truthful nodes w
}.

(** What honest nodes send: requests name their originator, ask for real levels, and
    are sent to the side they concern; identities are those of nodes. *)
Definition honest (e : Envelope) : Prop :=
  is_Some (nodes !! env_to e) ∧
  match env_event e with
  | SearchByIdRequest req => is_Some (nodes !! isq_origin req)
      ∧ isq_level req < LOOKUP_TABLE_LEVELS
      ∧ reaches (isq_direction req) (env_to e) (isq_target req)
  | GetMaxLevelOp req => is_Some (nodes !! mlq_origin req)
  | GetNeighborOp req => is_Some (nodes !! nq_origin req) ∧ nq_level req < LOOKUP_TABLE_LEVELS
  | GetLinkOp req => known nodes (lq_candidate req)
      ∧ ∀ b, nodes !! env_to e = Some b → fits b (lq_level req) (lq_dir req) (lq_candidate req)
  | SetLinkOp res => ∀ i, lr_linked res = Some i → known nodes i
  | _ => True
  end.

(** A request, as its originator would recognise the reply. *)
Inductive Pursuit : Type :=
| SearchFor (nonce : Nonce) (origin target : Identifier) (d : Direction)
| MaxLevelOf (nonce : Nonce) (origin : Identifier)
| NeighborOf (nonce : Nonce) (origin : Identifier) (level : LookupTableLevel) (d : Direction)
| LinkOf (nonce : Nonce) (candidate : Identity) (level : LookupTableLevel) (d : Direction).

Definition asks (k : Pursuit) (e : Envelope) : Prop :=
  match env_event e with
  | SearchByIdRequest req =>
      k = SearchFor (isq_nonce req) (isq_origin req) (isq_target req) (isq_direction req)
  | GetMaxLevelOp req => k = MaxLevelOf (mlq_nonce req) (mlq_origin req)
  | GetNeighborOp req =>
      k = NeighborOf (nq_nonce req) (nq_origin req) (nq_level req) (nq_direction req)
  | GetLinkOp req => k = LinkOf (lq_nonce req) (lq_candidate req) (lq_level req) (lq_dir req)
  | _ => False
  end.

(** The reply: to the originator, with its nonce; a search ends at a node not past the
    target, a link with the identity of a node that belongs in the mirror slot. *)
Definition replies (k : Pursuit) (e : Envelope) : Prop :=
  match k, env_event e with
  | SearchFor nonce origin target d, SearchByIdResponse res =>
      env_to e = origin ∧ isr_nonce res = nonce ∧ isr_target res = target
      ∧ is_Some (nodes !! isr_result res) ∧ reaches d (isr_result res) target
  | MaxLevelOf nonce origin, RetMaxLevelOp res => env_to e = origin ∧ mlr_nonce res = nonce
  | NeighborOf nonce origin level d, RetNeighborOp res =>
      env_to e = origin ∧ nr_nonce res = nonce ∧ nr_level res = level ∧ nr_direction res = d
      ∧ ∀ i, nr_neighbor res = Some i → known nodes i
  | LinkOf nonce candidate level d, SetLinkOp res =>
      env_to e = id candidate ∧ lr_nonce res = nonce ∧ lr_level res = level
      ∧ lr_dir res = opposite d ∧ ∃ i, lr_linked res = Some i ∧ known nodes i
        ∧ ∀ c, nodes !! id candidate = Some c → fits c level (opposite d) i
  | _, _ => False
  end.

(** Where a reply goes and the nonce it bears, of a reply and of the request for it. *)
Definition event_key (e : Envelope) : option (Identifier * Nonce) :=
  match env_event e with
  | SearchByIdRequest req => Some (isq_origin req, isq_nonce req)
  | GetMaxLevelOp req => Some (mlq_origin req, mlq_nonce req)
  | GetNeighborOp req => Some (nq_origin req, nq_nonce req)
  | GetLinkOp req => Some (id (lq_candidate req), lq_nonce req)
  | ev => pair (env_to e) <$> reply_nonce ev
  end.

(** The request or its reply. *)
Definition carries (k : Pursuit) (e : Envelope) : Prop := asks k e ∨ replies k e.

(** How many deliveries an envelope may still cause, itself included: a forwarded
    request has fewer nodes ahead of it. *)
Definition weight (e : Envelope) : nat :=
  match env_event e with
  | SearchByIdRequest req =>
      2 + size (ahead (dom nodes) (isq_direction req) (env_to e) (isq_target req))
  | GetLinkOp req => 2 + size (ahead (dom nodes) (lq_dir req) (env_to e) (id (lq_candidate req)))
  | GetMaxLevelOp _ | GetNeighborOp _ => 2
  | _ => 1
  end.

(** Only tables matter. *)
Lemma system_tables w w' : tables w' = tables w → system w → system w'.
Proof.
  intros E [Hi Ht Ho Htr]. split; [done| |done|by eapply truthful_tables].
  intros i b Hb. by eapply table_ok_tables, Ht.
Qed.

(** Linking a node where it fits keeps the tables truthful. *)
Lemma system_linked self l d i w w' :
  system w → nodes !! node_id self = Some self → fits self l d i → known nodes i →
  slot_linked self l d i w w' → system w'.
Proof.
  intros [Hi Ht Ho Htr] Hself Hf Hk Hlk.
  pose proof (λ l' d', slot_linked_slots _ _ _ _ _ _ l' d' Hlk) as Hs.
  assert (Hother : ∀ j b, nodes !! j = Some b → j ≠ node_id self →
    tables w' !! core_lt (core b) = tables w !! core_lt (core b)).
  { intros j b Hb Hne. destruct Hlk as (t' & -> & _). simpl. rw lookup_insert_ne; [|done].
    intros E. apply Hne. by eapply Ho. }
  assert (Hmine : ∀ l' d' x, node_slots w' self l' d' = Some x →
    node_slots w self l' d' = Some x ∨ (l' = l ∧ d' = d ∧ x = i)).
  { intros l' d' x. rw Hs /set_slot. case_decide as Hc; [|by left]. destruct Hc as [-> ->].
    rw /linked_slot /link_decision. destruct (node_slots w self l d) as [y|];
      [case_decide|]; intros [= <-]; auto. }
  split; [done| |done|].
  - intros j b Hb. destruct (decide (j = node_id self)) as [->|Hne].
    + rw Hself in Hb. injection Hb as <-. destruct Hlk as (t' & -> & Hwf & _).
      exists t'. by rw /= lookup_insert_eq.
    + rw /table_ok (Hother j b Hb Hne). by eapply Ht.
  - intros j b Hb. destruct (Htr j b Hb) as [Hsound Hknown].
    destruct (decide (j = node_id self)) as [->|Hne].
    + rw Hself in Hb. injection Hb as <-. split.
      * intros l' d' x [E|(-> & -> & ->)]%Hmine; [by apply Hsound|done].
      * intros l' d' x [E|(-> & -> & ->)]%Hmine; [by eapply Hknown|done].
    + by rw /sound /node_slots (Hother j b Hb Hne).
Qed.
(** ** Handling one event *)

(** What an event's handler sends: a request goes on, as itself or as its reply. *)
Definition hands_on (e : Envelope) (out : option Envelope) : Prop :=
  match out with
  | Some e' => honest e' ∧ weight e' < weight e ∧ ∀ k, asks k e → carries k e'
  | None => ∀ k, ¬ asks k e
  end.

Definition handled_as b e w (out : option Envelope) : Prop :=
  ∃ r w', node_process_incoming_event b (env_from e) (env_event e) w = Done (r, w')
    ∧ network w' = network w ++ option_list out ∧ system w' ∧ hands_on e out.

Lemma send_queued b (f : Error → Error) dest ev w :
  own (net b) = node_id b →
  map_err f (send_event (net b) dest ev) w
    = Done (Ok tt, set_network (λ q, q ++ [MkEnvelope (node_id b) dest ev]) w).
Proof. intros E. by rw /map_err /= -E. Qed.

Lemma system_posted w f : system w → system (set_network f w).
Proof. by apply system_tables. Qed.

Section handled.
Context (w : W) (e : Envelope) (b : BaseNode).
Context (Hsys : system w) (Hb : nodes !! env_to e = Some b) (Hhon : honest e).

Lemma to_id : node_id b = env_to e.
Proof using Hsys Hb. by eapply sy_id in Hb as [? _]. Qed.
Lemma own_id : own (net b) = node_id b.
Proof using Hsys Hb. rw to_id. by eapply sy_id in Hb as [_ ?]. Qed.
Lemma to_self : nodes !! node_id b = Some b.
Proof using Hsys Hb. by rw to_id. Qed.
Lemma to_ok : table_ok w b.
Proof using Hsys Hb. by eapply sy_table. Qed.

(** An entry of the receiver names a node on its side. *)
Lemma to_entry l d x : node_slots w b l d = Some x → fits b l d x ∧ known nodes x.
Proof using Hsys Hb.
  intros E. destruct (sy_truthful w Hsys _ b Hb) as [Hs Hk]. split; [by apply Hs|by eapply Hk].
Qed.

Lemma search_request_handled req : env_event e = SearchByIdRequest req → ∃ out, handled_as b e w out.
Proof using Hsys Hb Hhon.
  intros Ee. destruct Hhon as [_ Hh]. rw Ee in Hh. destruct Hh as (Horig & Hlvl & Hreach).
  destruct (on_core_search w b req to_ok Hlvl) as (r & l & Es & Ha).
  assert (Hrun : ∀ dest ev, (r = node_id b ∧ dest = isq_origin req
      ∧ ev = SearchByIdResponse (MkIdSearchRes (isq_nonce req) (isq_target req) l r))
    ∨ (r ≠ node_id b ∧ dest = r ∧ ev = SearchByIdRequest (MkIdSearchReq (isq_nonce req) (isq_target req)
      (isq_origin req) l (isq_direction req))) →
    node_process_incoming_event b (env_from e) (env_event e) w
      = Done (Ok tt, set_network (λ q, q ++ [MkEnvelope (node_id b) dest ev]) w)).
  { intros dest ev Hd. rw Ee /= /handle_search_by_id_request.
    rw (bind_ok _ _ _ _ _ (map_err_ok _ _ _ _ _ Es)). cbn [isr_result isr_termination_level].
    destruct Hd as [(Hr & -> & ->)|(Hr & -> & ->)]; rw ?(decide_True _ _ Hr) ?(decide_False _ _ Hr);
      apply send_queued, own_id. }
  destruct Ha as [(-> & -> & _)|(x & (Hle & E & Hxt) & -> & _)].
  - eexists (Some _), _, _.
    split_and!; [apply Hrun; left; done|done|by apply system_posted|]. split_and!; [split; [exact Horig|done]| |].
    + rw /weight Ee /=. lia.
    + rw /asks /carries /replies Ee /=. intros k ->. right.
      split_and!; [done..|rw to_self; by eexists|by rw to_id].
  - destruct (to_entry _ _ _ E) as [(_ & Hbe & _) (c & Hc & _)].
    assert (Hne : id x ≠ node_id b) by (by apply not_eq_sym, (beyond_neq (isq_direction req))).
    eexists (Some _), _, _.
    split_and!; [apply Hrun; right; done|done|by apply system_posted|]. split_and!.
    + split; [by eexists|]. split_and!; [done|by apply (Nat.le_lt_trans _ (isq_level req))|done].
    + rw /weight Ee /=. apply (proj1 (Nat.succ_lt_mono _ _)), (proj1 (Nat.succ_lt_mono _ _)), ahead_decreases;
        [by apply elem_of_dom|by rw -to_id|done].
    + rw /asks /carries Ee. intros k ->. by left.
Qed.

Lemma max_level_request_handled req : env_event e = GetMaxLevelOp req → ∃ out, handled_as b e w out.
Proof using Hsys Hb Hhon.
  intros Ee. destruct Hhon as [_ Hh]. rw Ee in Hh.
  destruct (table_ok_slots w b to_ok) as (t & Et & Hwf & _).
  destruct (max_level_value (core b) t Hwf) as (l & El & _).
  eexists (Some _), _, _. split_and!.
  - rw Ee /= /handle_get_max_level_request.
    rw (bind_ok _ _ _ _ _ (map_err_ok _ _ _ _ _ (on_table_read _ _ _ t _ Et El))).
    apply send_queued, own_id.
  - done.
  - by apply system_posted.
  - split_and!; [split; [exact Hh|done]|rw /weight Ee /=; lia|].
    rw /asks /carries /replies Ee /=. intros k ->. by right.
Qed.

Lemma neighbor_request_handled req : env_event e = GetNeighborOp req → ∃ out, handled_as b e w out.
Proof using Hsys Hb Hhon.
  intros Ee. destruct Hhon as [_ Hh]. rw Ee in Hh. destruct Hh as [Horig Hl].
  eexists (Some _), _, _. split_and!.
  - rw Ee /= /handle_get_neighbor_request.
    rw (bind_ok _ _ _ _ _ (map_err_ok _ _ _ _ _ (on_core_entry w b _ _ to_ok Hl))).
    apply send_queued, own_id.
  - done.
  - by apply system_posted.
  - split_and!; [split; [exact Horig|done]|rw /weight Ee /=; lia|].
    rw /asks /carries /replies Ee /=. intros k ->. right.
    split_and!; [done..|]. intros i Ei. by apply to_entry in Ei as [_ ?].
Qed.

Lemma link_request_handled req : env_event e = GetLinkOp req → ∃ out, handled_as b e w out.
Proof using Hsys Hb Hhon.
  intros Ee. destruct Hhon as [_ Hh]. rw Ee in Hh. destruct Hh as [Hk Hf].
  specialize (Hf b Hb). pose proof Hf as (Hl & Hbe & Hp). pose proof Hk as (c & Hc & Hdesc).
  assert ((∃ x, node_slots w b (lq_level req) (lq_dir req) = Some x
      ∧ beyond (lq_dir req) (id x) (id (lq_candidate req)))
    ∨ (∀ x, node_slots w b (lq_level req) (lq_dir req) = Some x →
      ¬ beyond (lq_dir req) (id x) (id (lq_candidate req)))) as [(x & Ex & Hx)|Hno].
  { destruct (node_slots w b _ _) as [x|]; [|by right].
    destruct (decide (beyond (lq_dir req) (id x) (id (lq_candidate req)))); [left; by exists x|right].
    by intros y [= <-]. }
  - destruct (get_link_forwarded b req w x to_ok Hf Ex Hx) as (w1 & Hlk & _ & Er).
    destruct (to_entry _ _ _ Ex) as [Hfx (c' & Hc' & Hdx)].
    pose proof Hlk as (t' & -> & _).
    eexists (Some _), _, _. split_and!; [rw Ee /= Er; apply send_queued, own_id|done| |].
    + by eapply system_posted, system_linked, Hlk; [|apply to_self|..].
    + split_and!.
      * split; [by eexists|]. split; [done|]. cbn. intros b' Hb'. rw Hc' in Hb'. injection Hb' as <-.
        by eapply forward_fits.
      * rw /weight Ee /=. apply (proj1 (Nat.succ_lt_mono _ _)), (proj1 (Nat.succ_lt_mono _ _)), ahead_decreases;
          [by apply elem_of_dom|rw -to_id; by apply Hfx|by right].
      * rw /asks /carries Ee. intros k ->. by left.
  - destruct (get_link_accepted b req w to_ok Hf) as (w1 & Hlk & _ & Er).
    { exact Hno. }
    pose proof Hlk as (t' & -> & _).
    set (yi := MkIdentity (node_id b) (node_mem_vec b) (addr (net b))).
    assert (Hyi : known nodes yi) by (exists b; split; [apply to_self|done]).
    eexists (Some _), _, _. split_and!; [rw Ee /= Er; apply send_queued, own_id|done| |].
    + by eapply system_posted, system_linked, Hlk; [|apply to_self|..].
    + split_and!.
      * split; [by eexists|]. cbn. by intros i [= <-].
      * rw /weight Ee /=. lia.
      * rw /asks /carries /replies Ee /=. intros k ->. right. split_and!; [done..|].
        exists yi. split_and!; [done..|]. intros c' Hc'. rw Hc in Hc'. injection Hc' as <-.
        destruct Hdesc as [Eid Emv]. split_and!; [done| |].
        -- apply beyond_opposite. by rw -Eid.
        -- by rw -Emv MemVec.common_prefix_bit_sym.
Qed.

(** A reply sends nothing. *)
Lemma reply_handled nonce : reply_nonce (env_event e) = Some nonce → handled_as b e w None.
Proof using Hsys Hb Hhon.
  intros En.
  assert (Hend : ∀ w1 ev, system w1 → network w1 = network w →
    network (resolved b nonce ev w1) = network w ++ option_list (None : option Envelope)
    ∧ system (resolved b nonce ev w1)).
  { intros w1 ev Hs1 En1. rw app_nil_r /resolved. repeat case_match; split; try done;
      by eapply system_tables, Hs1. }
  assert (Hno : hands_on e None) by (intros k; revert En; rw /asks; destruct (env_event e); by intros ? ?).
  destruct (env_event e) as [| |res| |res| |res| |res| |] eqn:Ee; try done; injection En as <-.
  - destruct (Hend w (env_event e) Hsys eq_refl) as [H2 H3]. rw Ee in H2 H3.
    eexists _, _. split_and!; [rw Ee; apply search_response_resolved|done..].
  - destruct (Hend w (env_event e) Hsys eq_refl) as [H2 H3]. rw Ee in H2 H3.
    eexists _, _. split_and!; [rw Ee; apply max_level_response_resolved|done..].
  - destruct (Hend w (env_event e) Hsys eq_refl) as [H2 H3]. rw Ee in H2 H3.
    eexists _, _. split_and!; [rw Ee; apply neighbor_response_resolved|done..].
  - destruct (set_link_resolved b res w to_ok) as (w1 & Ha & Er).
    assert (system w1 ∧ network w1 = network w) as [Hs1 En1].
    { destruct Hhon as [_ Hh]. rw Ee in Hh. rw /applied in Ha.
      destruct (lr_linked res) as [i|]; [|by subst w1]. case_decide as Hf; [|by subst w1].
      split; [eapply (system_linked b); [exact Hsys|apply to_self|exact Hf|by apply Hh|exact Ha]|].
      by destruct Ha as (t' & -> & _). }
    destruct (Hend w1 (env_event e) Hs1 En1) as [H2 H3]. rw Ee in H2 H3.
    eexists _, _. split_and!; [rw Ee; exact Er|done..].
Qed.

Lemma handled : ∃ out, handled_as b e w out.
Proof using Hsys Hb Hhon.
  destruct (env_event e) as [s|req|res|req|res|req|res|req|res|req|req] eqn:Ee;
    try (by eauto using search_request_handled, max_level_request_handled,
      neighbor_request_handled, link_request_handled);
    try (exists None; eapply reply_handled; by rw Ee);
    (exists None; eexists _, w; split_and!; [rw Ee; reflexivity|by rw app_nil_r|done|];
     intros k; rw /asks Ee; tauto).
Qed.
End handled.

(** ** Deliveries *)

(** Deliver the [n]-th event in flight; one that is sent to nobody is lost. *)
Definition deliver_nth (n : nat) : M W () := λ w,
  match network w !! n with
  | None => Done (Ok tt, w)
  | Some e =>
      let w1 := set_network (delete n) w in
      match nodes !! env_to e with
      | None => Done (Ok tt, w1)
      | Some b => node_process_incoming_event b (env_from e) (env_event e) w1
      end
  end.

Definition deliver w (e : Envelope) w' : Prop :=
  ∃ n r, network w !! n = Some e ∧ deliver_nth n w = Done (r, w').

(** The events delivered from [w] to [w'], in order. *)
Inductive run w : list Envelope → W → Prop :=
| run_nil : run w [] w
| run_cons e w1 tr w2 : deliver w e w1 → run w1 tr w2 → run w (e :: tr) w2.

Definition honest_system w : Prop := system w ∧ Forall honest (network w).
Definition total w : nat := sum_list_with weight (network w).

Lemma total_cons w n e :
  network w !! n = Some e → total w = weight e + total (set_network (delete n) w).
Proof.
  intros E. rw /total /=. by rw {1}(delete_Permutation _ _ _ E).
Qed.

(** One delivery: the invariant stays, the work left shrinks, and every request in
    flight is still in flight, or its reply is what was delivered. *)
Lemma deliver_step w e w' :
  honest_system w → deliver w e w' →
  honest_system w' ∧ total w' < total w
  ∧ ∀ k x, x ∈ network w → carries k x →
      (x = e ∧ replies k e) ∨ ∃ x', x' ∈ network w' ∧ carries k x'.
Proof.
  intros [Hsys Hhon] (n & r & En & Er). pose proof Hhon as Hall. rw Forall_forall in Hall.
  assert (He : honest e) by by eapply Hall, list_elem_of_lookup_2.
  pose proof He as ([b Hb] & _). rw /deliver_nth En Hb in Er.
  set (w1 := set_network (delete n) w) in *.
  assert (Hsys1 : system w1) by by apply system_posted.
  destruct (handled w1 e b Hsys1 Hb He) as (out & r' & w2 & Er' & Enet & Hsys2 & Hout).
  rw Er' in Er. injection Er as <- <-.
  assert (Hrest : ∀ x, x ∈ network w ↔ x = e ∨ x ∈ network w1).
  { intros x. rw (delete_Permutation _ _ _ En) elem_of_cons. done. }
  rw (total_cons w n e En) -/w1. split_and!.
  - split; [done|]. rw Enet Forall_app. split.
    + rw Forall_forall. intros x Hx. by apply Hall, Hrest; right.
    + destruct out as [e'|]; [|constructor]. by apply Forall_singleton, Hout.
  - rw /total Enet sum_list_with_app. destruct out as [e'|]; simpl.
    + destruct Hout as (_ & Hlt & _). lia.
    + assert (0 < weight e) by (rw /weight; case_match; lia). lia.
  - intros k x [->|Hx]%Hrest Hk.
    + destruct Hk as [Hk|Hk]; [|by left]. right. destruct out as [e'|]; [|by destruct (Hout k)].
      exists e'. split; [|by apply Hout]. rw Enet elem_of_app. right. by apply list_elem_of_singleton.
    + right. exists x. split; [|done]. rw Enet elem_of_app. by left.
Qed.

Lemma run_step w tr w' :
  honest_system w → run w tr w' →
  honest_system w' ∧ length tr + total w' ≤ total w
  ∧ ∀ k x, x ∈ network w → carries k x →
      (∃ e, e ∈ tr ∧ replies k e) ∨ ∃ x', x' ∈ network w' ∧ carries k x'.
Proof.
  intros Hs Hrun. induction Hrun as [w|w e w1 tr w2 Hd _ IH].
  - split_and!; [done|simpl; lia|]. intros k x Hx Hk. right. by exists x.
  - destruct (deliver_step w e w1 Hs Hd) as (Hs1 & Hlt & Hk1). destruct (IH Hs1) as (Hs2 & Hle & Hk2).
    split_and!; [done|simpl; lia|]. intros k x Hx Hk.
    destruct (Hk1 k x Hx Hk) as [[-> Hr]|(x1 & Hx1 & Hc1)].
    + left. exists e. split; [by left|done].
    + destruct (Hk2 k x1 Hx1 Hc1) as [(e' & He' & Hr)|?]; [|by right].
      left. exists e'. split; [by right|done].
Qed.

(** Any event in flight can be delivered. *)
Lemma can_deliver_nth w n e :
  honest_system w → network w !! n = Some e → ∃ r w', deliver_nth n w = Done (r, w').
Proof.
  intros [Hsys Hhon] En. pose proof (Forall_lookup_1 _ _ _ _ Hhon En) as He.
  pose proof He as ([b Hb] & _).
  destruct (handled (set_network (delete n) w) e b) as (out & r & w' & E & _);
    [by apply system_posted|done..|].
  exists r, w'. by rw /deliver_nth En Hb.
Qed.

Lemma can_deliver w e : honest_system w → e ∈ network w → ∃ w', deliver w e w'.
Proof.
  intros Hs [n En]%list_elem_of_lookup_1.
  destruct (can_deliver_nth w n e Hs En) as (r & w' & Er). by exists w', n, r.
Qed.

Lemma drains w : honest_system w → ∃ tr w', run w tr w' ∧ network w' = [].
Proof.
  remember (total w) as m eqn:Em. revert w Em. induction m as [m IH] using lt_wf_ind. intros w -> Hs.
  destruct (network w) as [|e q] eqn:Eq; [exists [], w; split; [constructor|done]|].
  destruct (can_deliver w e Hs) as [w1 Hd]; [rw Eq; by left|].
  destruct (deliver_step w e w1 Hs Hd) as (Hs1 & Hlt & _).
  destruct (IH _ Hlt w1 eq_refl Hs1) as (tr & w2 & Hrun & Hend).
  exists (e :: tr), w2. split; [by econstructor|done].
Qed.

Lemma weight_bound e : weight e ≤ size nodes + 2.
Proof.
  assert (Ha : ∀ d i j, size (ahead (dom nodes) d i j) ≤ size nodes).
  { intros d i j. rw -(size_dom (D := gset Identifier) nodes). apply ahead_size. }
  rw /weight. case_match; try lia; [specialize (Ha (isq_direction req) (env_to e) (isq_target req))
    |specialize (Ha (lq_dir req) (env_to e) (id (lq_candidate req)))]; lia.
Qed.

Lemma total_bound w : total w ≤ length (network w) * (size nodes + 2).
Proof.
  rw /total. induction (network w) as [|e q IH]; simpl; [lia|]. pose proof (weight_bound e). lia.
Qed.

(** C9: honest requests are answered, whatever the order of deliveries. The condition on
    what is in flight is [honest]: every event goes to a node, requests name their
    originator and ask for real levels, a search has not passed its target, and a link
    request goes to a node that the candidate belongs next to at that level and side. (A
    link request that does not fit its receiver is dropped without an answer; its fate
    is [Refusal.refused_link_only_times_out].) From any state with truthful tables and
    honest events in flight, of any number of concurrent requests: every event in
    flight can be delivered next; no schedule makes more than [size nodes + 2]
    deliveries for each event that was in flight; some schedule delivers everything;
    and whenever nothing is left in flight, each of these requests has had its own reply
    delivered to its originator: a search a node not past its target, a link the node
    for the mirror slot. *)
Theorem honest_requests_are_answered w :
  honest_system w →
  (∃ tr w', run w tr w' ∧ network w' = [])
  ∧ ∀ tr w', run w tr w' →
      length tr ≤ length (network w) * (size nodes + 2)
      ∧ (∀ e, e ∈ network w' → ∃ w'', deliver w' e w'')
      ∧ (network w' = [] → ∀ k e, e ∈ network w → asks k e → ∃ e', e' ∈ tr ∧ replies k e').
Proof.
  intros Hs. split; [by apply drains|]. intros tr w' Hrun.
  destruct (run_step w tr w' Hs Hrun) as (Hs' & Hle & Hk). pose proof (total_bound w).
  split_and!; [lia| |].
  - intros e. by apply can_deliver.
  - intros Hend k e He Ha. destruct (Hk k e He) as [?|(x & Hx & _)]; [by left|done|].
    rw Hend in Hx. by apply not_elem_of_nil in Hx.
Qed.

End system.
End transport.

(** ** Two requests in flight among the sample nodes *)
Module TransportSample.
Import OverlaySample.
Definition own (n : loc) : Identifier :=
  match n with 0 => id n2 | 1 => id n5 | 2 => id n9 | _ => id n7 end.
Definition addr (n : loc) : Address := Sample.address x00.

(** Node 2 searches for 8, and node 7 asks node 2 for its right slot at level 0. *)
Definition search : Envelope := MkEnvelope (id n2) (id n2)
  (SearchByIdRequest (MkIdSearchReq (MkNonce 1) (Sample.ident x08) (id n2) 3 Right)).
Definition link : Envelope := MkEnvelope (id n7) (id n2)
  (GetLinkOp (MkLinkReq (MkNonce 2) n7 Right 0)).
Definition start : World T (list Envelope) :=
  MkWorld (tables OverlaySample.world) ∅ (∅ : gmap loc ChanState) [search; link].

Lemma start_tables : tables start = tables OverlaySample.world.
Proof. by rw /start. Qed.

Lemma start_honest : honest_system own nodes start.
Proof.
  split.
  - split.
    + refine (nodes_cases _ _ _ _ _); done.
    + intros i b Hb. eapply table_ok_tables; [apply start_tables|].
      by eapply ov_table, Hb; apply world_overlay.
    + exact (ov_own_table _ _ _ world_overlay).
    + eapply truthful_tables; [apply start_tables|apply overlay_truthful].
  - apply Forall_cons. split; [|apply Forall_singleton].
    + split; [exists (node 0 n2); exact n2_node|].
      split_and!; [exists (node 0 n2); exact n2_node|apply Nat.ltb_lt; reflexivity|decided].
    + split; [exists (node 0 n2); exact n2_node|]. split.
      * exists (node 3 n7). split; [exact n7_node|done].
      * intros b Hb. cbn [env_to link] in Hb. rw n2_node in Hb. injection Hb as <-. decided.
Qed.
End TransportSample.

(** Both are answered in every schedule that delivers everything, and one does. *)
Lemma honest_requests_are_answered_witness :
  ∃ tr w', run TransportSample.own TransportSample.addr OverlaySample.nodes
      TransportSample.start tr w' ∧ network w' = []
    ∧ length tr ≤ 12
    ∧ (∃ e, e ∈ tr ∧ replies OverlaySample.nodes
         (SearchFor (MkNonce 1) (id OverlaySample.n2) (Sample.ident x08) Right) e)
    ∧ (∃ e, e ∈ tr ∧ replies OverlaySample.nodes
         (LinkOf (MkNonce 2) OverlaySample.n7 0 Right) e).
Proof.
  destruct (honest_requests_are_answered TransportSample.own TransportSample.addr OverlaySample.nodes
    TransportSample.start TransportSample.start_honest) as [(tr & w' & Hrun & Hend) Hall].
  destruct (Hall tr w' Hrun) as (Hlen & _ & Hans). exists tr, w'.
  split; [exact Hrun|]. split; [exact Hend|]. split; [exact Hlen|]. split.
  - apply (Hans Hend _ TransportSample.search); [by constructor|reflexivity].
  - apply (Hans Hend _ TransportSample.link); [by do 2 constructor|reflexivity].
Defined.
