(* ===== verification/Interleaving.v ===== *)
(** * Joins running at the same time

    A schedule runs asynchronous operations of several nodes next to each other on the
    queueing network: each step resumes one of them or delivers one event. Three
    runs of stage 1 of two joins against each other show what the orders of events the
    protocol document discusses ([docs/protocol/concurrent-insert.md], section 5.2) come
    to; what is so for all such joins and orders is in [Crossing] and [Refusal]. *)
From S2P Require Import Prelude Bytes Model LookupTable Core World BaseNode Hub Overlay Handlers Routing Safety Linking Async NodeOps Join Transport Fixtures.
From S2P Require Import Identifier.

(** ** Schedules *)
Section scheduler.
Context `{Oneshot} `{LookupTable L} {A : Type}.
Abbreviation W := (World L (list Envelope)) (only parsing).
Context (own : loc → Identifier) (addr : loc → Address) (nodes : gmap Identifier BaseNode).

(** [Resume i k] wakes branch [k] of operation [i] if what it waits for is there;
    [Expire i k] ends that wait by its timeout; [Drop i] drops the operation; the
    [n]-th event in flight is delivered, lost or repeated. *)
Inductive Action : Type :=
| Resume (i k : nat)
| Expire (i k : nat)
| Drop (i : nat)
| Deliver (n : nat)
| Lose (n : nat)
| Repeat (n : nat).

Definition wake (k : nat) (wk : Trigger → W → option Wake) (c : Co L (list Envelope) A) (w : W)
    : outcome (Co L (list Envelope) A * W) :=
  match c with
  | Suspended bs _ =>
      match bs !! k with
      | Some (t, f) => match wk t w with Some x => f x w | None => Done (c, w) end
      | None => Done (c, w)
      end
  | Ready _ => Done (c, w)
  end.

Definition expires (t : Trigger) (_ : W) : option Wake :=
  match t with Waiting _ => Some TimedOut | Unstarted => None end.

(** The operations, [None] once dropped, and the world they share. *)
Definition Tasks : Type := list (option (Co L (list Envelope) A)).

Definition on_task (i : nat) (f : Co L (list Envelope) A → W → outcome (Co L (list Envelope) A * W))
    (ts : Tasks) (w : W) : outcome (Tasks * W) :=
  match ts !! i with
  | Some (Some c) => next (f c w) (λ c' w', Done (<[i := Some c']> ts, w'))
  | _ => Done (ts, w)
  end.

Definition perform_one (a : Action) (ts : Tasks) (w : W) : outcome (Tasks * W) :=
  match a with
  | Resume i k => on_task i (wake k poll_trigger) ts w
  | Expire i k => on_task i (wake k expires) ts w
  | Drop i =>
      match ts !! i with
      | Some (Some (Suspended _ cancel)) => Done (<[i := None]> ts, cancel w)
      | _ => Done (ts, w)
      end
  | Deliver n => next (deliver_nth own addr nodes n w) (λ _ w', Done (ts, w'))
  | Lose n => Done (ts, set_network (delete n) w)
  | Repeat n => Done (ts, set_network (λ q, q ++ option_list (q !! n)) w)
  end.

Fixpoint perform (acts : list Action) (ts : Tasks) (w : W) : outcome (Tasks * W) :=
  match acts with
  | [] => Done (ts, w)
  | a :: rest => next (perform_one a ts w) (λ ts' w', perform rest ts' w')
  end.

(** What an operation that ended with an error reports. *)
Definition failure (t : option (Co L (list Envelope) A)) : option Error :=
  match t with Some (Ready (Err e)) => Some e | _ => None end.

(** The operation has not ended and nothing it waits for is there. *)
Definition blocked (w : W) (t : option (Co L (list Envelope) A)) : bool :=
  match t with
  | Some (Suspended bs _) =>
      forallb (λ b, match poll_trigger b.1 w with Some _ => false | None => true end) bs
  | _ => false
  end.

(** An event to deliver, or an operation that can go on. *)
Definition to_do (a : Action) (ts : Tasks) (w : W) : bool :=
  match a with
  | Deliver n => match network w !! n with Some _ => true | None => false end
  | Resume i k =>
      match ts !! i with
      | Some (Some (Suspended bs _)) =>
          match bs !! k with
          | Some (t, _) => match poll_trigger t w with Some _ => true | None => false end
          | None => false
          end
      | _ => false
      end
  | _ => false
  end.

(** A schedule of such actions alone: nothing is lost, repeated or given up. *)
Fixpoint busy_schedule (acts : list Action) (ts : Tasks) (w : W) : bool :=
  match acts with
  | [] => true
  | a :: rest =>
      to_do a ts w && match perform_one a ts w with
                      | Done (ts', w') => busy_schedule rest ts' w'
                      | _ => true
                      end
  end.

Definition succeeded (t : option (Co L (list Envelope) A)) : bool :=
  match t with Some (Ready (Ok _)) => true | _ => false end.
End scheduler.

(** ** Four nodes

    [a] and [d] are linked; [b] and [c], in between, join through [a]. *)
Module FourNodes.
Abbreviation T := ArrayLookupTable.InnerArrayLookupTable (only parsing).
Abbreviation W := (World T (list Envelope)) (only parsing).

Definition ia : Identity := Sample.node x02 x00.
Definition ib : Identity := Sample.node x05 x00.
Definition ic : Identity := Sample.node x07 x00.
Definition id' : Identity := Sample.node x09 x00.
Definition node (n : nat) (i : Identity) : BaseNode :=
  MkBaseNode (MkBaseCore (id i) (mem_vec i) n) n n.
Definition a : BaseNode := node 0 ia.
Definition b : BaseNode := node 1 ib.
Definition c : BaseNode := node 2 ic.
Definition d : BaseNode := node 3 id'.
Definition nodes : gmap Identifier BaseNode :=
  <[id ia := a]> (<[id ib := b]> (<[id ic := c]> (<[id id' := d]> ∅))).
Definition own (n : loc) : Identifier :=
  match n with 0 => id ia | 1 => id ib | 2 => id ic | _ => id id' end.
Definition addr (n : loc) : Address := address ia.

Definition start : W :=
  MkWorld {[ 0 := OverlaySample.table [(id', 0, Right)]; 1 := ArrayLookupTable.new;
             2 := ArrayLookupTable.new; 3 := OverlaySample.table [(ia, 0, Left)] ]}
    ∅ (∅ : gmap loc ChanState) [].

Definition join_of (n : BaseNode) (k : N) : Async T (list Envelope) () :=
  join_stage1_link_level0 (Network0 := queueing own addr) n
    (MkJoinNonces (MkNonce k) (MkNonce (k + 1)%N) (MkNonce (k + 2)%N) (MkNonce (k + 3)%N)) (id ia) 0.

(** Both joins up to their link requests, which leave four of them in flight: of [b]
    to [a] and [d], then of [c] to [a] and [d]. *)
Definition ask : list Action :=
  [Resume 0 0; Resume 1 0; Deliver 0; Deliver 0; Deliver 0; Deliver 0;
   Resume 0 0; Resume 1 0; Deliver 0; Deliver 0; Deliver 0; Deliver 0;
   Resume 0 0; Resume 0 0; Resume 0 1; Resume 1 0; Resume 1 0; Resume 1 1].
(** The four replies, and the ends of both joins. *)
Definition finish : list Action :=
  [Deliver 0; Deliver 0; Deliver 0; Deliver 0; Resume 0 0; Resume 0 0; Resume 1 0; Resume 1 0].

(** [c] before [b] at [a], and [b] before [c] at [d]. *)
Definition crossed : list Action := ask ++ [Deliver 2; Deliver 0; Deliver 0; Deliver 0] ++ finish.
(** [b] before [c] at both; [a] forwards [c]'s request to [b], one more delivery. *)
Definition in_order : list Action :=
  ask ++ [Deliver 0; Deliver 0; Deliver 0; Deliver 0; Deliver 0] ++ finish.

(** [c]'s search ends at [a]; then [b] joins in between; then [c] asks [a] for its right
    neighbor, which is now [b], and sends its link requests, to [a] on the right and to
    [b] on the left. All events are delivered, none out of order. *)
Definition overtaken : list Action :=
  [Resume 1 0; Deliver 0; Deliver 0]
  ++ [Resume 0 0; Deliver 0; Deliver 0; Resume 0 0; Deliver 0; Deliver 0;
      Resume 0 0; Resume 0 0; Resume 0 1; Deliver 0; Deliver 0; Deliver 0; Deliver 0;
      Resume 0 0; Resume 0 0]
  ++ [Resume 1 0; Deliver 0; Deliver 0; Resume 1 0; Resume 1 0; Resume 1 1;
      Deliver 0; Deliver 0; Deliver 0; Deliver 0; Resume 1 0].

Definition run_joins (acts : list Action) : outcome (Tasks * W) :=
  perform own addr nodes acts [Some (unstarted (join_of b 1%N)); Some (unstarted (join_of c 11%N))] start.

(** The neighbors of a node at level 0. *)
Definition neighbors (w : W) (n : BaseNode) : option Identifier * option Identifier :=
  (id <$> node_slots w n 0 Left, id <$> node_slots w n 0 Right).

(** The tests' assertion, on the four tables. *)
Definition doubly_linked (w : W) : bool :=
  assert_doubly_linked_at_level [id ia; id ib; id ic; id id']
    (omap (λ n, tables w !! core_lt (core n)) [a; b; c; d]) 0.

(** Every entry of the four nodes is on its side and shares its slot's prefix. *)
Definition ordered (w : W) : bool :=
  forallb (λ n, forallb (λ dir, forallb (λ p : nat * Identity,
      bool_decide (fits n p.1 dir p.2)) (populated (node_slots w n) dir)) [Left; Right]) [a; b; c; d].
End FourNodes.

(** What the ordering of events can and cannot break, on the four nodes. Two nodes join at the same
    time between two linked ones, and both joins report success with nothing left in
    flight. When their link requests reach both neighbors in the same order the four
    nodes form one doubly linked list. When they cross, every entry is still on its
    side, but [b] and [c] do not know each other: [b]'s right neighbor is [d] and [c]'s
    left neighbor is [a], the split of the protocol document, which only its repair
    sweep (not implemented) would heal. *)
Example concurrent_joins_can_split :
  match FourNodes.run_joins FourNodes.in_order with
  | Done (ts, w) => forallb succeeded ts = true ∧ network w = []
      ∧ FourNodes.ordered w = true ∧ FourNodes.doubly_linked w = true
  | _ => False
  end
  ∧ match FourNodes.run_joins FourNodes.crossed with
    | Done (ts, w) => forallb succeeded ts = true ∧ network w = []
        ∧ FourNodes.ordered w = true ∧ FourNodes.doubly_linked w = false
        ∧ FourNodes.neighbors w FourNodes.a = (None, Some (id FourNodes.ib))
        ∧ FourNodes.neighbors w FourNodes.b = (Some (id FourNodes.ia), Some (id FourNodes.id'))
        ∧ FourNodes.neighbors w FourNodes.c = (Some (id FourNodes.ia), Some (id FourNodes.id'))
        ∧ FourNodes.neighbors w FourNodes.d = (Some (id FourNodes.ic), None)
    | _ => False
    end.
Proof. split; vm_compute; split_and!; reflexivity. Qed.

(** On the four nodes, a join can fail with no fault of any node or of the network. [c] searches and
    finds [a]; before it asks [a] for its neighbor, [b] joins between the two. [c] then
    sends [b] a link request for its left slot, in which [c] does not belong, and [b]
    drops it without an answer. All events have been delivered and nothing is in
    flight, [c]'s join waits for that answer, and only its timeout ends it, with an
    error. [c] is linked to [b] by then, and [d] still has [b] as its left neighbor. *)
Example overtaken_join_times_out :
  match FourNodes.run_joins FourNodes.overtaken with
  | Done (ts, w) => network w = []
      ∧ map succeeded ts = [true; false] ∧ map (blocked w) ts = [false; true]
      ∧ FourNodes.ordered w = true
      ∧ FourNodes.neighbors w FourNodes.a = (None, Some (id FourNodes.ib))
      ∧ FourNodes.neighbors w FourNodes.b = (Some (id FourNodes.ia), Some (id FourNodes.ic))
      ∧ FourNodes.neighbors w FourNodes.c = (Some (id FourNodes.ib), None)
      ∧ FourNodes.neighbors w FourNodes.d = (Some (id FourNodes.ib), None)
  | _ => False
  end
  ∧ match FourNodes.run_joins (FourNodes.overtaken ++ [Expire 1 0]) with
    | Done (ts, w) => map failure ts =
        [None; Some (Anyhow "timed out waiting for get link response from {:?} on {:?}"
                       [id_debug (id FourNodes.ib); dir_debug Left])]
    | _ => False
    end.
Proof. split; [vm_compute; split_and!; reflexivity|vm_compute; reflexivity]. Qed.
