(* ===== verification/Crossing.v ===== *)
(** * Two nodes linking into the same gap

    Two nodes [B] and [C] ask the same linked neighbors [A] and [D] for a link at the
    same time, with [A], [B], [C], [D] in key order. What becomes of it depends on the
    order in which the requests reach [A] and [D]: the protocol document's section 5.2
    ([docs/protocol/concurrent-insert.md]) discusses two orders. Here are all of them:
    the handlers at the four nodes refine a finite machine whose schedules are
    enumerated. *)
From S2P Require Import Prelude Bytes Model LookupTable Core World BaseNode Hub Overlay Handlers Routing Safety Linking Async NodeOps Join Transport Fixtures Interleaving.
From S2P Require Import Identifier.

(** ** The machine *)
Module Machine.
Inductive Who : Type := A | B | C | D.
#[global] Instance who_eq_dec : EqDecision Who.
Proof. solve_decision. Defined.

Definition rank (x : Who) : nat := match x with A => 0 | B => 1 | C => 2 | D => 3 end.

(** [y] is beyond [x] in direction [d]. *)
Definition past (d : Direction) (x y : Who) : bool :=
  match d with Right => rank x <? rank y | Left => rank y <? rank x end.

(** The slots between [A] and [D]. *)
Definition inner (x : Who) (d : Direction) : bool :=
  match x, d with A, Left | D, Right => false | _, _ => true end.

Lemma past_inner d x y : past d x y = true → inner x d = true.
Proof. by destruct d, x, y. Qed.

(** A link request for [cand], and the reply naming the node linked to. *)
Inductive Msg : Type :=
| Ask (to cand : Who) (d : Direction)
| Tell (to linked : Who) (d : Direction).

(** Who each slot names. *)
Definition Slots : Type := Who → Direction → option Who.
Record State : Type := MkState { sent : list Msg; named : Slots }.

Definition put (x : Who) (d : Direction) (y : option Who) (s : Slots) : Slots :=
  λ x' d', if decide (x' = x ∧ d' = d) then y else s x' d'.

(** The entry of a slot of [x] that sits before [y], if there is one. *)
Definition before (s : Slots) (x : Who) (d : Direction) (y : Who) : option Who :=
  match s x d with Some e => if past d e y then Some e else None | None => None end.

Definition link (x : Who) (d : Direction) (y : Who) (s : Slots) : Slots :=
  match before s x d y with Some _ => s | None => put x d (Some y) s end.

(** The handlers, on four nodes of one list. *)
Definition handle (m : Msg) (s : Slots) : list Msg * Slots :=
  match m with
  | Ask to cand d =>
      if past d to cand then
        (match before s to d cand with
         | Some e => [Ask e cand d]
         | None => [Tell cand to (opposite d)]
         end, link to d cand s)
      else ([], s)
  | Tell to linked d => ([], if past d to linked then link to d linked s else s)
  end.

Definition deliver (n : nat) (st : State) : option (Msg * State) :=
  match sent st !! n with
  | Some m =>
      let '(out, s) := handle m (named st) in
      Some (m, MkState (delete n (sent st) ++ out) s)
  | None => None
  end.

(** [A] and [D] are linked, [B] and [C] ask both. *)
Definition start : State :=
  MkState [Ask A B Right; Ask D B Left; Ask A C Right; Ask D C Left]
    (put A Right (Some D) (put D Left (Some A) (λ _ _, None))).

(** The candidates of the requests delivered to a node for one of its sides, in order. *)
Definition candidates (x : Who) (d : Direction) (tr : list Msg) : list Who :=
  omap (λ m, match m with
             | Ask to cand d' => if decide (to = x ∧ d' = d) then Some cand else None
             | Tell _ _ _ => None
             end) tr.

(** The farther joiner comes first at both ends. *)
Definition crossed (tr : list Msg) : bool :=
  bool_decide (candidates A Right tr = [C; B] ∧ candidates D Left tr = [B; C]).

(** [B] and [C] know each other, or each knows only the node at its other end. *)
Definition expected_end (tr : list Msg) (s : Slots) : bool :=
  bool_decide (s A Right = Some B ∧ s B Left = Some A ∧ s C Right = Some D ∧ s D Left = Some C)
  && if crossed tr then bool_decide (s B Right = Some D ∧ s C Left = Some A)
     else bool_decide (s B Right = Some C ∧ s C Left = Some B).

(** Every schedule of at most [fuel] deliveries ends, and in such an outcome. *)
Fixpoint explore (fuel : nat) (tr : list Msg) (st : State) : bool :=
  match sent st with
  | [] => expected_end tr (named st)
  | _ =>
      match fuel with
      | 0 => false
      | S fuel =>
          forallb (λ n, match deliver n st with
                        | Some (m, st') => explore fuel (tr ++ [m]) st'
                        | None => true
                        end) (seq 0 (length (sent st)))
      end
  end.

Inductive run (st : State) : list Msg → State → Prop :=
| run_nil : run st [] st
| run_cons n m st1 tr st2 : deliver n st = Some (m, st1) → run st1 tr st2 → run st (m :: tr) st2.

Lemma explore_sound fuel tr0 st tr st' :
  explore fuel tr0 st = true → run st tr st' →
  length tr ≤ fuel ∧ (sent st' = [] → expected_end (tr0 ++ tr) (named st') = true).
Proof.
  intros He Hr. revert fuel tr0 He. induction Hr as [st|st n m st1 tr st2 Hd _ IH]; intros fuel tr0 He.
  - split; [simpl; lia|]. intros E. rw app_nil_r. by destruct fuel; rw /= E in He.
  - assert (Hn : n < length (sent st)).
    { apply lookup_lt_is_Some. rw /deliver in Hd. by destruct (sent st !! n). }
    destruct (sent st) as [|m0 q] eqn:E; [by simpl in Hn; lia|].
    destruct fuel as [|fuel]; cbn [explore] in He; rw E in He; [done|].
    eapply forallb_forall in He; [|apply in_seq; split; [|exact Hn]; lia]. rw Hd in He.
    destruct (IH fuel (tr0 ++ [m]) He) as [Hlen Hout]. rw -app_assoc in Hout. split; [simpl; lia|done].
Qed.

Lemma start_explored : explore 10 [] start = true.
Proof. vm_compute. reflexivity. Qed.

(** A schedule given by its indices. *)
Fixpoint follow (ns : list nat) (st : State) : option (list Msg * State) :=
  match ns with
  | [] => Some ([], st)
  | n :: ns =>
      match deliver n st with
      | Some (m, st1) => (λ p, (m :: p.1, p.2)) <$> follow ns st1
      | None => None
      end
  end.
End Machine.

(** ** Four nodes on the queueing network *)
Section crossing.
Context `{Oneshot} `{LookupTableSpec L}.
Abbreviation W := (World L (list Envelope)) (only parsing).
Context (own : loc → Identifier) (addr : loc → Address) (nodes : gmap Identifier BaseNode).
Context (node : Machine.Who → BaseNode) (l : LookupTableLevel).
Implicit Types (w : W) (x y : Machine.Who) (m : Machine.Msg).
#[local] Instance crossing_network : Network BaseNode W := queueing own addr.

(** The four are nodes with tables of their own, in key order, in one list of level [l]. *)
Record gap : Prop := {
  gp_node x : nodes !! node_id (node x) = Some (node x);
  gp_own x : own (net (node x)) = node_id (node x);
  gp_tables x y : core_lt (core (node x)) = core_lt (core (node y)) → x = y;
  gp_order x y : Machine.rank x < Machine.rank y →
    beyond Right (node_id (node x)) (node_id (node y));
  gp_level : l < LOOKUP_TABLE_LEVELS;
  gp_list x y : l ≤ MemVec.common_prefix_bit (node_mem_vec (node x)) (node_mem_vec (node y))
}.
Context (Hgap : gap).

Lemma past_beyond d x y :
  beyond d (node_id (node x)) (node_id (node y)) ↔ Machine.past d x y = true.
Proof using Hgap.
  assert (Hr : ∀ x y, beyond Right (node_id (node x)) (node_id (node y)) ↔ Machine.rank x < Machine.rank y).
  { intros x' y'. split; [|by apply gp_order]. intros Hb.
    destruct (Nat.lt_trichotomy (Machine.rank x') (Machine.rank y')) as [?|[Er|Hlt]]; [done|..].
    - assert (x' = y') as -> by (by destruct x', y'). by destruct (beyond_irrefl _ _ Hb).
    - by destruct (beyond_asym _ _ _ Hb (gp_order Hgap _ _ Hlt)). }
  destruct d; cbn [Machine.past]; rw Nat.ltb_lt -Hr; [|done]. done.
Qed.

Lemma past_fits d x y i :
  describes i (node y) → fits (node x) l d i ↔ Machine.past d x y = true.
Proof using Hgap.
  intros [Ei Em]. rw -past_beyond /fits Ei Em. split; [by intros (_ & ? & _)|]. intros Hb.
  split_and!; [apply (gp_level Hgap)|done|apply (gp_list Hgap)].
Qed.

(** An event is a message between the four, under any nonce. *)
Definition stands (e : Envelope) m : Prop :=
  match m with
  | Machine.Ask to cand d => env_to e = node_id (node to)
      ∧ ∃ n i, describes i (node cand) ∧ env_event e = GetLinkOp (MkLinkReq n i d l)
  | Machine.Tell to linked d => env_to e = node_id (node to)
      ∧ ∃ n i, describes i (node linked) ∧ env_event e = SetLinkOp (MkLinkRes n d l (Some i))
  end.

(** A slot names the node the machine says. *)
Definition names (o : option Identity) (y : option Machine.Who) : Prop :=
  match o, y with
  | Some i, Some y => describes i (node y)
  | None, None => True
  | _, _ => False
  end.

Record refines w (st : Machine.State) : Prop := {
  rf_table x : table_ok w (node x);
  rf_sent : Forall2 stands (network w) (Machine.sent st);
  rf_named x d : Machine.inner x d = true →
    names (node_slots w (node x) l d) (Machine.named st x d)
}.

(** What a slot decides. *)
Lemma before_spec w s x d y i :
  names (node_slots w (node x) l d) (s x d) → describes i (node y) →
  match Machine.before s x d y with
  | Some z => ∃ e, node_slots w (node x) l d = Some e ∧ describes e (node z) ∧ beyond d (id e) (id i)
  | None => ∀ e, node_slots w (node x) l d = Some e → ¬ beyond d (id e) (id i)
  end.
Proof using Hgap.
  intros Hn [Ei _]. rw /Machine.before.
  destruct (s x d) as [z|], (node_slots w (node x) l d) as [e|]; try done.
  pose proof Hn as [Ee _]. destruct (Machine.past d z y) eqn:Ep.
  - exists e. split_and!; [done..|]. rw Ee Ei. by apply past_beyond.
  - intros e' [= <-]. rw Ee Ei past_beyond Ep. done.
Qed.

(** Linking [i] where it fits. *)
Lemma refines_linked w w1 q st x d y i :
  refines w st → Machine.inner x d = true → describes i (node y) →
  slot_linked (node x) l d i w w1 → Forall2 stands (network w1) q →
  refines w1 (Machine.MkState q (Machine.link x d y (Machine.named st))).
Proof using Hgap.
  intros [Ht Hs Hn] Hxd Hi Hlk Hq. pose proof (before_spec w _ x d y i (Hn x d Hxd) Hi) as Hb.
  assert (Hother : ∀ x', x' ≠ x → tables w1 !! core_lt (core (node x')) = tables w !! core_lt (core (node x'))).
  { intros x' Hne. destruct Hlk as (t' & -> & _). simpl. rw lookup_insert_ne; [|done].
    intros E. apply Hne, (gp_tables Hgap). done. }
  assert (Hslot : names (linked_slot (node_slots w (node x) l d) d i)
    (Machine.link x d y (Machine.named st) x d)).
  { rw /Machine.link /linked_slot /link_decision. destruct (Machine.before _ x d y) as [z|] eqn:Ez.
    - destruct Hb as (e & Ee & He & Hbe). specialize (Hn x d Hxd). rw Ee in Hn *. by rw decide_True.
    - rw /Machine.put decide_True; [done|]. destruct (node_slots w (node x) l d) as [e|]; [|done].
      rw decide_False; [by apply Hb|done]. }
  split; [|done|].
  - intros x'. destruct (decide (x' = x)) as [->|Hne]; [|rw /table_ok (Hother x' Hne); apply Ht].
    destruct Hlk as (t' & -> & Hwf & _). exists t'. by rw /= lookup_insert_eq.
  - intros x' d' Hin. cbn [Machine.named].
    assert (Hrest : (x', d') ≠ (x, d) →
      Machine.link x d y (Machine.named st) x' d' = Machine.named st x' d').
    { intros Hne. rw /Machine.link /Machine.put. destruct (Machine.before _ _ _ _); [done|].
      rw decide_False; [by intros [-> ->]|done]. }
    destruct (decide (x' = x)) as [->|Hne]; last first.
    { rw Hrest; [by intros [= ->]|]. rw /node_slots (Hother x' Hne). by apply Hn. }
    rw (slot_linked_slots _ _ _ _ _ _ _ _ Hlk) /set_slot. destruct (decide (d' = d)) as [->|Hne].
    + by rw decide_True.
    + rw Hrest; [by intros [= ->]|]. rw decide_False; [by intros [_ ?]|by apply Hn].
Qed.

(** The same tables, other events. *)
Lemma refines_same w w1 q st :
  refines w st → tables w1 = tables w → Forall2 stands (network w1) q →
  refines w1 (Machine.MkState q (Machine.named st)).
Proof using Type.
  intros [Ht _ Hn] Et Hq. split; [|done|]; intros x; rw /table_ok /node_slots Et; [apply Ht|apply Hn].
Qed.

(** The waiters a link reply meets do not matter. *)
Lemma resolved_refines b n ev w st : refines w st → refines (resolved b n ev w) st.
Proof using Type.
  intros Hr. destruct st as [q s]. rw /resolved. destruct (_ !! _) as [z|]; [|done].
  destruct (resolves ev z); [|done]. by apply (refines_same w _ q (Machine.MkState q s) Hr); [|apply Hr].
Qed.

(** ** Handling a message *)
Definition handles (b : BaseNode) (o : Identifier) (ev : Event) w (st : Machine.State) : Prop :=
  ∃ r w', node_process_incoming_event b o ev w = Done (r, w') ∧ refines w' st.

(** Linking, and one event sent. *)
Lemma link_sent w w1 q s x d y i e m :
  refines w (Machine.MkState q s) → Machine.inner x d = true → describes i (node y) →
  slot_linked (node x) l d i w w1 → stands e m →
  refines (set_network (λ q, q ++ [e]) w1) (Machine.MkState (q ++ [m]) (Machine.link x d y s)).
Proof using Hgap.
  intros Hr Hxd Hi Hlk He. pose proof Hlk as (t' & Ew & _).
  assert (Hq : Forall2 stands (network w1) q) by (rw Ew; apply Hr).
  eapply (refines_same w1 _ _ (Machine.MkState q (Machine.link x d y s))); [|done|].
  - by eapply (refines_linked w w1 q (Machine.MkState q s)).
  - apply Forall2_app; [done|]. by repeat constructor.
Qed.

Lemma ask_refines w q s to cand d n i o :
  refines w (Machine.MkState q s) → describes i (node cand) →
  handles (node to) o (GetLinkOp (MkLinkReq n i d l)) w
    (Machine.MkState (q ++ (Machine.handle (Machine.Ask to cand d) s).1)
       (Machine.handle (Machine.Ask to cand d) s).2).
Proof using Hgap.
  intros Hr Hi. pose proof Hr as [Ht Hs Hn]. pose proof (past_fits d to cand i Hi) as Hfit.
  set (req := MkLinkReq n i d l). cbn [Machine.handle]. destruct (Machine.past d to cand) eqn:Ep; last first.
  { exists (Ok tt), w. split; [|by rw app_nil_r]. apply (get_link_rejected (node to) req). by rw Hfit. }
  assert (Hf : fits (node to) l d i) by by apply Hfit.
  assert (Hsend : ∀ f dest ev w1, map_err f (send_event (net (node to)) dest ev) w1
    = Done (Ok tt, set_network (λ q, q ++ [MkEnvelope (node_id (node to)) dest ev]) w1)).
  { intros f dest ev w1. by rw /map_err /= (gp_own Hgap). }
  pose proof (Machine.past_inner d to cand Ep) as Hin.
  pose proof (before_spec w s to d cand i (Hn to d Hin) Hi) as Hb.
  destruct (Machine.before s to d cand) as [z|] eqn:Ez.
  - destruct Hb as (e & Ee & Hz & Hbe).
    destruct (get_link_forwarded (node to) req w e (Ht to) Hf Ee Hbe) as (w1 & Hlk & _ & Eh).
    eexists _, _. split; [rw /node_process_incoming_event Eh; apply Hsend|].
    eapply (link_sent w w1 q s to d cand i); [done..|].
    split; [by destruct Hz|]. by exists n, i.
  - destruct (get_link_accepted (node to) req w (Ht to) Hf Hb) as (w1 & Hlk & _ & Eh).
    eexists _, _. split; [rw /node_process_incoming_event Eh; apply Hsend|].
    eapply (link_sent w w1 q s to d cand i); [done..|].
    split; [by destruct Hi|]. by exists n, (self_identity (node to) w1).
Qed.

Lemma tell_refines w q s to linked d n i o :
  refines w (Machine.MkState q s) → describes i (node linked) →
  handles (node to) o (SetLinkOp (MkLinkRes n d l (Some i))) w
    (Machine.MkState (q ++ (Machine.handle (Machine.Tell to linked d) s).1)
       (Machine.handle (Machine.Tell to linked d) s).2).
Proof using Hgap.
  intros Hr Hi. pose proof (past_fits d to linked i Hi) as Hfit.
  set (res := MkLinkRes n d l (Some i)).
  destruct (set_link_resolved (node to) res w (rf_table _ _ Hr to)) as (w1 & Ha & Eh).
  eexists _, _. split; [exact Eh|]. apply resolved_refines. rw /= app_nil_r.
  rw /applied /= in Ha. destruct (Machine.past d to linked) eqn:Ep.
  - rw decide_True in Ha; [by apply Hfit|]. pose proof Ha as (t' & Ew & _).
    pose proof (Machine.past_inner d to linked Ep).
    eapply (refines_linked w w1 q (Machine.MkState q s)); [done..|]. rw Ew. apply Hr.
  - rw decide_False in Ha; [by rw Hfit|]. by subst w1.
Qed.

(** ** Deliveries *)
Lemma delivery_refines w st n e :
  refines w st → network w !! n = Some e →
  ∃ r w' m st', deliver_nth own addr nodes n w = Done (r, w')
    ∧ Machine.deliver n st = Some (m, st') ∧ stands e m ∧ refines w' st'.
Proof using Hgap.
  intros Hr Hn. destruct st as [q s]. pose proof Hr as [Ht Hs Hnm]. cbn [Machine.sent] in Hs.
  destruct (Forall2_lookup_l _ _ _ _ _ Hs Hn) as (m & Em & He).
  set (w1 := set_network (delete n) w).
  assert (Hr1 : refines w1 (Machine.MkState (delete n q) s)).
  { apply (refines_same w w1 _ (Machine.MkState q s)); [done..|]. by apply Forall2_delete. }
  assert (∃ to, env_to e = node_id (node to)
    ∧ handles (node to) (env_from e) (env_event e) w1
        (Machine.MkState (delete n q ++ (Machine.handle m s).1) (Machine.handle m s).2))
    as (to & Eto & r & w' & Eh & Hr').
  { destruct m as [to cand d|to linked d]; destruct He as (Eto & k & i & Hi & Ee); exists to;
      (split; [done|]); rw Ee; [by apply ask_refines|by apply tell_refines]. }
  eexists r, w', m, _. split; [|split; [|split; [exact He|exact Hr']]].
  - by rw /deliver_nth Hn Eto (gp_node Hgap) Eh.
  - rw /Machine.deliver /= Em. by destruct (Machine.handle m s).
Qed.

(** A run of the nodes is a run of the machine, *)
Lemma run_refines w st tr w' :
  refines w st → run own addr nodes w tr w' →
  ∃ ms st', Machine.run st ms st' ∧ Forall2 stands tr ms ∧ refines w' st'.
Proof using Hgap.
  intros Hr Hrun. revert st Hr. induction Hrun as [w|w e w1 tr w2 (n & r & Hn & Ed) _ IH]; intros st Hr.
  - exists [], st. split_and!; [constructor|constructor|done].
  - destruct (delivery_refines w st n e Hr Hn) as (r' & w' & m & st1 & Ed' & Em & He & Hr1).
    rw Ed in Ed'. injection Ed' as <- <-. destruct (IH st1 Hr1) as (ms & st2 & Hms & Htr & Hr2).
    exists (m :: ms), st2. split_and!; [by econstructor|by constructor|done].
Qed.

(** and the other way round. *)
Lemma follow_runs ns w st ms st' :
  refines w st → Machine.follow ns st = Some (ms, st') →
  ∃ tr w', run own addr nodes w tr w' ∧ Forall2 stands tr ms ∧ refines w' st'.
Proof using Hgap.
  revert w st ms. induction ns as [|n ns IH]; intros w st ms Hr; cbn [Machine.follow].
  - intros [= <- <-]. exists [], w. split_and!; [constructor|constructor|done].
  - destruct (Machine.deliver n st) as [[m st1]|] eqn:Ed; [|done].
    destruct (Machine.follow ns st1) as [[ms1 st2]|] eqn:Ef; [|done]. intros [= <- <-].
    assert (Hm : is_Some (Machine.sent st !! n)) by (rw /Machine.deliver in Ed; by destruct (Machine.sent st !! n)).
    destruct Hm as [m0 Hm]. destruct (Forall2_lookup_r _ _ _ _ _ (rf_sent _ _ Hr) Hm) as (e & He & _).
    destruct (delivery_refines w st n e Hr He) as (r & w1 & m' & st1' & Er & Ed' & Hst & Hr1).
    rw Ed in Ed'. injection Ed' as <- <-. destruct (IH w1 st1 ms1 Hr1 Ef) as (tr & w2 & Hrun & Htr & Hr2).
    exists (e :: tr), w2. split_and!; [econstructor; [by exists n, r|done]|by constructor|done].
Qed.

(** ** The four requests *)

(** The link request of [x] for the side [d] of [to]. *)
Definition link_ask (n : Nonce) (i : Identity) (to : Machine.Who) (d : Direction) : Envelope :=
  MkEnvelope (id i) (node_id (node to)) (GetLinkOp (MkLinkReq n i d l)).

(** Which candidates' link requests were delivered to [i] for its side [d], in order. *)
Definition asked_at (i : Identifier) (d : Direction) (tr : list Envelope) : list Identifier :=
  omap (λ e, match env_event e with
             | GetLinkOp req =>
                 if decide (env_to e = i ∧ lq_dir req = d) then Some (id (lq_candidate req)) else None
             | _ => None
             end) tr.

(** The request of the farther joiner came first, at both ends. *)
Definition crossing (tr : list Envelope) : Prop :=
  asked_at (node_id (node Machine.A)) Right tr = [node_id (node Machine.C); node_id (node Machine.B)]
  ∧ asked_at (node_id (node Machine.D)) Left tr = [node_id (node Machine.B); node_id (node Machine.C)].
#[export] Instance crossing_dec tr : Decision (crossing tr).
Proof. unfold crossing; apply _. Defined.

(** The neighbor of a node. *)
Definition neighbor w x d : option Identifier := id <$> node_slots w (node x) l d.
Definition has_neighbor w x d y : Prop := neighbor w x d = Some (node_id (node y)).

#[local] Instance id_inj : Inj (=) (=) (λ x, node_id (node x)).
Proof using Hgap.
  intros x y E. apply (gp_tables Hgap). do 2 f_equal.
  pose proof (gp_node Hgap x) as Hx. rw E (gp_node Hgap y) in Hx. by injection Hx.
Qed.

Lemma asked_candidates tr ms x d :
  Forall2 stands tr ms →
  asked_at (node_id (node x)) d tr = (λ y, node_id (node y)) <$> Machine.candidates x d ms.
Proof using Hgap.
  rw /asked_at /Machine.candidates. induction 1 as [|e m tr ms He _ IH]; [done|].
  destruct m as [to cand d'|to linked d']; destruct He as (Eto & n & i & [Ei _] & Ee);
    cbn [omap list_omap]; rw Ee; cbv beta iota; cbn [lq_dir lq_candidate]; [|exact IH].
  destruct (decide (to = x ∧ d' = d)) as [[-> ->]|Hne].
  - rw decide_True; [by rw Eto|]. cbn [fmap list_fmap]. by rw IH Ei.
  - rw decide_False; [|exact IH]. rw Eto. intros [E ->]. apply Hne. split; [by apply (inj _)|done].
Qed.

Lemma crossing_crossed tr ms : Forall2 stands tr ms → crossing tr ↔ Machine.crossed ms = true.
Proof using Hgap.
  intros Hf. rw /crossing /Machine.crossed bool_decide_eq_true !(asked_candidates tr ms _ _ Hf).
  change [node_id (node Machine.C); node_id (node Machine.B)]
    with ((λ y, node_id (node y)) <$> [Machine.C; Machine.B]).
  change [node_id (node Machine.B); node_id (node Machine.C)]
    with ((λ y, node_id (node y)) <$> [Machine.B; Machine.C]).
  split; intros [Ea Ed]; [split; by apply (inj (fmap (λ y, node_id (node y))))|by rw Ea Ed].
Qed.

Lemma named_neighbor w st x d y :
  refines w st → Machine.inner x d = true → Machine.named st x d = Some y → has_neighbor w x d y.
Proof using Type.
  intros Hr Hin E. pose proof (rf_named w st Hr x d Hin) as Hn. rw E in Hn.
  rw /has_neighbor /neighbor. destruct (node_slots w (node x) l d) as [i|]; [|done].
  destruct Hn as [Ei _]. by rw /= Ei.
Qed.

(** How the machine's outcome reads. *)
Lemma outcome_neighbors w st tr ms :
  refines w st → Forall2 stands tr ms → Machine.expected_end ms (Machine.named st) = true →
  has_neighbor w Machine.A Right Machine.B ∧ has_neighbor w Machine.B Left Machine.A
  ∧ has_neighbor w Machine.C Right Machine.D ∧ has_neighbor w Machine.D Left Machine.C
  ∧ if decide (crossing tr)
    then has_neighbor w Machine.B Right Machine.D ∧ has_neighbor w Machine.C Left Machine.A
    else has_neighbor w Machine.B Right Machine.C ∧ has_neighbor w Machine.C Left Machine.B.
Proof using Hgap.
  intros Hr Htr. rw /Machine.expected_end andb_true_iff bool_decide_eq_true.
  pose proof (λ x d y, named_neighbor w st x d y Hr) as Hn.
  pose proof (crossing_crossed tr ms Htr) as Hc.
  intros [(E1 & E2 & E3 & E4) Hcase]. split_and!; [by apply Hn..|].
  destruct (decide (crossing tr)) as [Hx|Hx].
  - rw (proj1 Hc Hx) bool_decide_eq_true in Hcase. destruct Hcase. split; by apply Hn.
  - destruct (Machine.crossed ms); [by destruct Hx; apply Hc|].
    apply bool_decide_eq_true in Hcase as [? ?]. split; by apply Hn.
Qed.

(** Schedules of both kinds. *)
Lemma schedules_exist b :
  ∃ ns ms st, Machine.follow ns Machine.start = Some (ms, st) ∧ Machine.sent st = []
    ∧ Machine.crossed ms = b.
Proof using Type.
  assert (Hns : ∃ ns, match Machine.follow ns Machine.start with
    | Some (ms, st) => Machine.sent st = [] ∧ Machine.crossed ms = b
    | None => False end).
  { destruct b; [exists [2; 1; 0; 0; 0; 0; 0; 0]|exists (replicate 9 0)]; vm_compute; by split. }
  destruct Hns as [ns Hns]. destruct (Machine.follow ns Machine.start) as [[ms st]|] eqn:E; [|done].
  by exists ns, ms, st.
Qed.

(** C12: two nodes that link into the same gap at the same time end up as neighbors unless
    their requests cross. [A] and [D] are neighbors at some level, [B] and [C] belong
    between them in this order and have no neighbors there yet; each asks [A] for its
    right side and [D] for its left side. Whatever the order of deliveries, the next one
    can be made, there are at most ten, and when nothing is left in flight [A] and [B] are
    each other's neighbors, and so are [C] and [D]. If [A] heard of [C] first and [D] of
    [B], then [B]'s right neighbor is [D] and [C]'s left neighbor is [A]: the list is
    split, although every request was answered. In every other order [B] and [C] are
    each other's neighbors. Schedules of both kinds exist. *)
Theorem crossing_requests_split w n1 n2 n3 n4 ib ic ia id' :
  describes ia (node Machine.A) → describes ib (node Machine.B) → describes ic (node Machine.C) →
  describes id' (node Machine.D) → (∀ x, table_ok w (node x)) →
  node_slots w (node Machine.A) l Right = Some id' → node_slots w (node Machine.D) l Left = Some ia →
  (∀ d, node_slots w (node Machine.B) l d = None ∧ node_slots w (node Machine.C) l d = None) →
  network w = [link_ask n1 ib Machine.A Right; link_ask n2 ib Machine.D Left;
               link_ask n3 ic Machine.A Right; link_ask n4 ic Machine.D Left] →
  (∀ tr w', run own addr nodes w tr w' →
     length tr ≤ 10
     ∧ (∀ n e, network w' !! n = Some e → ∃ r w2, deliver_nth own addr nodes n w' = Done (r, w2))
     ∧ (network w' = [] →
          has_neighbor w' Machine.A Right Machine.B ∧ has_neighbor w' Machine.B Left Machine.A
          ∧ has_neighbor w' Machine.C Right Machine.D ∧ has_neighbor w' Machine.D Left Machine.C
          ∧ if decide (crossing tr)
            then has_neighbor w' Machine.B Right Machine.D ∧ has_neighbor w' Machine.C Left Machine.A
            else has_neighbor w' Machine.B Right Machine.C ∧ has_neighbor w' Machine.C Left Machine.B))
  ∧ (∃ tr w', run own addr nodes w tr w' ∧ network w' = [] ∧ crossing tr)
  ∧ (∃ tr w', run own addr nodes w tr w' ∧ network w' = [] ∧ ¬ crossing tr).
Proof using Hgap.
  intros Ha Hb Hc Hd Htab Ea Ed Hnone Enet.
  assert (Hr : refines w Machine.start).
  { split; [done| |].
    - pose proof Hb as [Eb _]. pose proof Hc as [Ec _]. rw Enet.
      repeat constructor; cbn; eauto 6.
    - intros x d Hin. destruct (Hnone Left) as [HB HC], (Hnone Right) as [HB' HC'].
      destruct x, d; try done; [by rw Ea|by rw HB|by rw HB'|by rw HC|by rw HC'|by rw Ed]. }
  assert (Hdrain : ∀ b, ∃ tr w', run own addr nodes w tr w' ∧ network w' = [] ∧ (crossing tr ↔ b = true)).
  { intros b. destruct (schedules_exist b) as (ns & ms & st & Ef & Es & Ec).
    destruct (follow_runs ns w Machine.start ms st Hr Ef) as (tr & w' & Hrun & Htr & Hr').
    exists tr, w'. split_and!; [done| |by rw (crossing_crossed tr ms Htr) Ec].
    pose proof (rf_sent _ _ Hr') as Hs. rw Es in Hs. by apply Forall2_nil_inv_r in Hs. }
  split_and!.
  - intros tr w' Hrun.
    destruct (run_refines w Machine.start tr w' Hr Hrun) as (ms & st & Hms & Htr & Hr').
    destruct (Machine.explore_sound 10 [] _ ms st Machine.start_explored Hms) as [Hlen Hout].
    rw (Forall2_length _ _ _ Htr). split_and!; [done| |].
    + intros n e Hn. destruct (delivery_refines w' st n e Hr' Hn) as (r & w2 & _ & _ & E & _).
      by exists r, w2.
    + intros Eend. apply (outcome_neighbors w' st tr ms); [done..|]. apply Hout.
      pose proof (rf_sent _ _ Hr') as Hs. rw Eend in Hs. by apply Forall2_nil_inv_l in Hs.
  - destruct (Hdrain true) as (tr & w' & ? & ? & Hx). exists tr, w'. split_and!; [done..|by apply Hx].
  - destruct (Hdrain false) as (tr & w' & ? & ? & Hx). exists tr, w'. split_and!; [done..|by rw Hx].
Qed.
End crossing.

(** ** The four nodes of [Interleaving] *)
Module CrossingSample.
Import FourNodes.
Definition node (x : Machine.Who) : BaseNode :=
  match x with Machine.A => a | Machine.B => b | Machine.C => c | Machine.D => d end.

Lemma sample_gap : gap own nodes node 0.
Proof.
  split.
  - by intros [].
  - by intros [].
  - by intros [] [].
  - intros [] [] Hr; first [exfalso; revert Hr; simpl; lia|clear Hr; decided].
  - apply Nat.ltb_lt. reflexivity.
  - intros x y. apply Nat.le_0_l.
Qed.

(** [b]'s and [c]'s link requests are in flight. *)
Definition asked : World T (list Envelope) :=
  MkWorld (tables start) ∅ (∅ : gmap loc ChanState)
    [link_ask node 0 (MkNonce 3) ib Machine.A Right; link_ask node 0 (MkNonce 4) ib Machine.D Left;
     link_ask node 0 (MkNonce 13) ic Machine.A Right; link_ask node 0 (MkNonce 14) ic Machine.D Left].

Lemma asked_table x : table_ok asked (node x).
Proof. destruct x; (eexists; split; [reflexivity|]; split; vm_compute; reflexivity). Qed.
End CrossingSample.

(** One schedule leaves [b] and [d] as neighbors, another [b] and [c]. *)
Lemma crossing_requests_split_witness :
  (∃ tr w, run FourNodes.own FourNodes.addr FourNodes.nodes CrossingSample.asked tr w
     ∧ has_neighbor CrossingSample.node 0 w Machine.B Right Machine.D)
  ∧ (∃ tr w, run FourNodes.own FourNodes.addr FourNodes.nodes CrossingSample.asked tr w
     ∧ has_neighbor CrossingSample.node 0 w Machine.B Right Machine.C).
Proof.
  destruct (crossing_requests_split FourNodes.own FourNodes.addr FourNodes.nodes CrossingSample.node 0
    CrossingSample.sample_gap CrossingSample.asked (MkNonce 3) (MkNonce 4) (MkNonce 13) (MkNonce 14)
    FourNodes.ib FourNodes.ic FourNodes.ia FourNodes.id')
    as (Hall & (tr1 & w1 & Hrun1 & Hend1 & Hx1) & (tr2 & w2 & Hrun2 & Hend2 & Hx2)).
  1-4: split; reflexivity.
  - exact CrossingSample.asked_table.
  - vm_compute. reflexivity.
  - vm_compute. reflexivity.
  - intros []; split; vm_compute; reflexivity.
  - reflexivity.
  - split.
    + exists tr1, w1. split; [exact Hrun1|].
      destruct (Hall tr1 w1 Hrun1) as (_ & _ & H). destruct (H Hend1) as (_ & _ & _ & _ & Hcase).
      destruct (decide (crossing CrossingSample.node tr1)) as [_|Hno]; [apply Hcase|destruct (Hno Hx1)].
    + exists tr2, w2. split; [exact Hrun2|].
      destruct (Hall tr2 w2 Hrun2) as (_ & _ & H). destruct (H Hend2) as (_ & _ & _ & _ & Hcase).
      destruct (decide (crossing CrossingSample.node tr2)) as [Hyes|_]; [destruct (Hx2 Hyes)|apply Hcase].
Defined.
