(* ===== verification/Cancellation.v ===== *)
(** * Operations that are dropped, time out or are interfered with

    An operation may be resumed by any of its waits in any order, find anything in its
    channels, time out, or be dropped where it waits, while other tasks change the
    world in between. A small program logic follows the waiters an operation may have
    registered at each point; with it, no run of the join leaves a waiter behind. *)
From S2P Require Import Prelude Bytes Model LookupTable Core World BaseNode Async NodeOps Join Transport Interleaving.
From S2P Require Import Identifier.

#[local] Set Warnings "-register-all".

Section waiters.
Context `{Oneshot} {L N : Type}.
Abbreviation W := (World L N) (only parsing).
Implicit Types (w : W) (S F : gset Nonce).
(** The node's waiter map, and the nonces the operation draws. *)
Context (rm : loc) (D : gset Nonce).

(** At most the nonces of [S] among the operation's are registered. *)
Definition at_most S w : Prop :=
  ∀ n, n ∈ D → is_Some (waiter_map rm w !! n) → n ∈ S.

Lemma at_most_map S w w' : waiter_map rm w' = waiter_map rm w → at_most S w → at_most S w'.
Proof. intros E Hs n. rw E. apply Hs. Qed.

Lemma at_most_first S1 S2 F w : at_most (S1 ∪ S2 ∪ F) w ↔ at_most (S1 ∪ (S2 ∪ F)) w.
Proof. split; intros Hs n Hn Hr; specialize (Hs n Hn Hr); rw !elem_of_union in Hs *; tauto. Qed.

Lemma at_most_second S1 S2 F w : at_most (S1 ∪ S2 ∪ F) w ↔ at_most (S2 ∪ (S1 ∪ F)) w.
Proof. split; intros Hs n Hn Hr; specialize (Hs n Hn Hr); rw !elem_of_union in Hs *; tauto. Qed.

Lemma at_most_empty F w : at_most (∅ ∪ F) w ↔ at_most F w.
Proof. by rw union_empty_l_L. Qed.

(** A suspended operation that may have registered [S], ends with at most [post] and
    leaves at most [left] when dropped, whatever [F] others have registered. *)
Inductive holds {A} (post : result A → gset Nonce) (left : gset Nonce)
    : gset Nonce → Co L N A → Prop :=
| holds_ready r : holds post left (post r) (Ready r)
| holds_suspended S bs cancel :
    (∀ F w, at_most (S ∪ F) w → at_most (left ∪ F) (cancel w)) →
    (∀ t f wk w c w', (t, f) ∈ bs → f wk w = Done (c, w') →
       ∃ S', holds post left S' c ∧ ∀ F, at_most (S ∪ F) w → at_most (S' ∪ F) w') →
    holds post left S (Suspended bs cancel).

Lemma holds_induct {A} post left (P : gset Nonce → Co L N A → Prop) :
  (∀ r, P (post r) (Ready r)) →
  (∀ S bs cancel,
     (∀ F w, at_most (S ∪ F) w → at_most (left ∪ F) (cancel w)) →
     (∀ t f wk w c w', (t, f) ∈ bs → f wk w = Done (c, w') →
        ∃ S', holds post left S' c ∧ P S' c ∧ ∀ F, at_most (S ∪ F) w → at_most (S' ∪ F) w') →
     P S (Suspended bs cancel)) →
  ∀ S c, holds post left S c → P S c.
Proof.
  intros Hr Hs. fix IH 3. intros S c [r|S' bs cancel Hc Hstep]; [apply Hr|].
  apply Hs; [exact Hc|]. intros t f wk w c' w' Hin E.
  destruct (Hstep t f wk w c' w' Hin E) as (S2 & Hh & HF).
  exists S2. split; [exact Hh|]. split; [by apply IH|exact HF].
Qed.

(** [m], started with at most [S] registered. *)
Definition keeps {A} S (m : Async L N A) (post : result A → gset Nonce) (left : gset Nonce) : Prop :=
  ∀ w c w', m w = Done (c, w') →
    ∃ S', holds post left S' c ∧ ∀ F, at_most (S ∪ F) w → at_most (S' ∪ F) w'.

Lemma keeps_sync {A} S (m : M W A) post left :
  (∀ w r w' F, m w = Done (r, w') → at_most (S ∪ F) w → at_most (post r ∪ F) w') →
  keeps S (sync m) post left.
Proof.
  intros Hm w c w' E. rw /sync /next in E. destruct (m w) as [[r w1]| |] eqn:Em; simplify_eq.
  exists (post r). split; [constructor|]. intros F. by apply Hm.
Qed.

Lemma keeps_of {A} S (r : result A) post left : post r = S → keeps S (async_of r) post left.
Proof. intros <- w c w' [= <- <-]. exists (post r). split; [constructor|done]. Qed.

Lemma co_bind_holds {A B} (c : Co L N A) (k : A → Async L N B) post1 post2 left S :
  holds post1 left S c → (∀ a, keeps (post1 (Ok a)) (k a) post2 left) →
  (∀ e, post2 (Err e) = post1 (Err e)) → keeps S (co_bind c k) post2 left.
Proof.
  intros Hc Hk He. revert S c Hc.
  apply (holds_induct post1 left (λ S c, keeps S (co_bind c k) post2 left)).
  - intros r w c' w'. destruct r as [a|e]; simpl; [apply Hk|]. intros [= <- <-].
    exists (post2 (Err e)). split; [constructor|by rw He].
  - intros S bs cancel Hcan IH w c' w' E. cbn [co_bind] in E. injection E as <- <-. exists S. split; [|done].
    constructor; [done|]. intros t f wk w1 c1 w2 Hin E1.
    apply list_elem_of_fmap in Hin as ([t0 f0] & [= -> ->] & Hin).
    rw /next in E1. destruct (f0 wk w1) as [[c2 w3]| |] eqn:E2; try done.
    destruct (IH _ _ _ _ _ _ Hin E2) as (S' & _ & Hkeep & HF).
    destruct (Hkeep _ _ _ E1) as (S2 & Hh & HF2). exists S2. split; [done|].
    intros F Hat. by apply HF2, HF.
Qed.

Lemma keeps_bind {A B} S (m : Async L N A) (k : A → Async L N B) post1 post2 left :
  keeps S m post1 left → (∀ a, keeps (post1 (Ok a)) (k a) post2 left) →
  (∀ e, post2 (Err e) = post1 (Err e)) → keeps S (m ≫= k) post2 left.
Proof.
  intros Hm Hk He w c w' E. rw /mbind /async_bind /next in E.
  destruct (m w) as [[c1 w1]| |] eqn:E1; try done.
  destruct (Hm _ _ _ E1) as (S1 & Hh & HF).
  destruct (co_bind_holds c1 k post1 post2 left S1 Hh Hk He w1 c w' E) as (S2 & Hh2 & HF2).
  exists S2. split; [done|]. intros F Hat. by apply HF2, HF.
Qed.

Lemma co_finally_holds {A} (c : Co L N A) (f : W → W) post1 post2 left1 left2 S :
  holds post1 left1 S c →
  (∀ r F w, at_most (post1 r ∪ F) w → at_most (post2 r ∪ F) (f w)) →
  (∀ F w, at_most (left1 ∪ F) w → at_most (left2 ∪ F) (f w)) →
  keeps S (co_finally c f) post2 left2.
Proof.
  intros Hc Hr Hl. revert S c Hc.
  apply (holds_induct post1 left1 (λ S c, keeps S (co_finally c f) post2 left2)).
  - intros r w c' w' [= <- <-]. exists (post2 r). split; [constructor|]. intros F. apply Hr.
  - intros S bs cancel Hcan IH w c' w' E. cbn [co_finally] in E. injection E as <- <-.
    exists S. split; [|done]. constructor; [intros F w1 Hat; by apply Hl, Hcan|].
    intros t g wk w1 c1 w2 Hin E1.
    apply list_elem_of_fmap in Hin as ([t0 g0] & [= -> ->] & Hin).
    rw /next in E1. destruct (g0 wk w1) as [[c2 w3]| |] eqn:E2; try done.
    destruct (IH _ _ _ _ _ _ Hin E2) as (S' & _ & Hkeep & HF).
    destruct (Hkeep _ _ _ E1) as (S2 & Hh & HF2). exists S2. split; [done|].
    intros F Hat. by apply HF2, HF.
Qed.

Lemma keeps_finally {A} S (m : Async L N A) (f : W → W) post1 post2 left1 left2 :
  keeps S m post1 left1 →
  (∀ r F w, at_most (post1 r ∪ F) w → at_most (post2 r ∪ F) (f w)) →
  (∀ F w, at_most (left1 ∪ F) w → at_most (left2 ∪ F) (f w)) →
  keeps S (finally m f) post2 left2.
Proof.
  intros Hm Hr Hl w c w' E. rw /finally /next in E.
  destruct (m w) as [[c1 w1]| |] eqn:E1; try done. destruct (Hm _ _ _ E1) as (S1 & Hh & HF).
  destruct (co_finally_holds c1 f post1 post2 left1 left2 S1 Hh Hr Hl w1 c w' E) as (S2 & Hh2 & HF2).
  exists S2. split; [done|]. intros F Hat. by apply HF2, HF.
Qed.

(** A wait touches no waiter. *)
Lemma keeps_timeout {A} `{Payload A} (rx : Receiver A) S : keeps S (timeout rx) (λ _, S) S.
Proof.
  intros w c w' [= <- <-]. exists S. split; [|done]. constructor.
  - intros F w1. by apply at_most_map.
  - intros t f wk w1 c w2 [= -> ->]%list_elem_of_singleton E. exists S. revert E.
    destruct wk as [|r| |]; [done|destruct (of_reply r)| |]; try done; intros [= <- <-];
      (split; [exact (holds_ready (λ _, S) S _)|]; intros F; by apply at_most_map).
Qed.

Lemma unstarted_holds {A} S (m : Async L N A) post :
  keeps S m post S → holds post S S (unstarted m).
Proof.
  intros Hm. constructor; [done|]. intros t f wk w c w' [= -> ->]%list_elem_of_singleton E.
  by apply Hm.
Qed.

Lemma co_join_holds {A B} (c1 : Co L N A) (c2 : Co L N B) S1 S2 :
  holds (λ _, ∅) ∅ S1 c1 → holds (λ _, ∅) ∅ S2 c2 → holds (λ _, ∅) ∅ (S1 ∪ S2) (co_join c1 c2).
Proof.
  intros H1. revert S2 c2. revert S1 c1 H1.
  apply (holds_induct (λ _, ∅) ∅ (λ S1 c1, ∀ S2 c2, holds (λ _, ∅) ∅ S2 c2 →
    holds (λ _, ∅) ∅ (S1 ∪ S2) (co_join c1 c2))).
  - intros r1.
    apply (holds_induct (λ _, ∅) ∅ (λ S2 c2, holds (λ _, ∅) ∅ (∅ ∪ S2) (co_join (Ready r1) c2))).
    + intros r2. rw union_empty_l_L. exact (holds_ready (λ _, ∅) ∅ _).
    + intros S2 bs2 cancel2 Hcan2 IH2. rw union_empty_l_L. constructor; [done|].
      intros t f wk w c w' Hin E. apply list_elem_of_fmap in Hin as ([t0 f0] & [= -> ->] & Hin).
      rw /next in E. destruct (f0 wk w) as [[c2 w2]| |] eqn:E2; simplify_eq.
      destruct (IH2 _ _ _ _ _ _ Hin E2) as (S' & _ & Hj & HF). exists S'. split; [|done].
      by rw union_empty_l_L in Hj.
  - intros S1 bs1 cancel1 Hcan1 IH1.
    apply (holds_induct (λ _, ∅) ∅ (λ S2 c2,
      holds (λ _, ∅) ∅ (S1 ∪ S2) (co_join (Suspended bs1 cancel1) c2))).
    + intros r2. rw union_empty_r_L. constructor; [done|].
      intros t f wk w c w' Hin E. apply list_elem_of_fmap in Hin as ([t0 f0] & [= -> ->] & Hin).
      rw /next in E. destruct (f0 wk w) as [[c1 w1]| |] eqn:E1; simplify_eq.
      destruct (IH1 _ _ _ _ _ _ Hin E1) as (S' & _ & Hj & HF). exists S'. split; [|done].
      specialize (Hj ∅ (Ready r2) (holds_ready (λ _, ∅) ∅ _)). by rw union_empty_r_L in Hj.
    + intros S2 bs2 cancel2 Hcan2 IH2. constructor.
      { intros F w Hat. apply Hcan2. rw -at_most_empty. apply Hcan1. by apply at_most_first. }
      intros t f wk w c w' Hin E. apply elem_of_app in Hin as [Hin|Hin];
        apply list_elem_of_fmap in Hin as ([t0 f0] & [= -> ->] & Hin); rw /next in E.
      * destruct (f0 wk w) as [[c1 w1]| |] eqn:E1; simplify_eq.
        destruct (IH1 _ _ _ _ _ _ Hin E1) as (S' & _ & Hj & HF). exists (S' ∪ S2). split.
        -- apply Hj. constructor; [done|]. intros t f wk' w2 c w3 Hin2 E2.
           destruct (IH2 _ _ _ _ _ _ Hin2 E2) as (S3 & ? & _ & ?). by exists S3.
        -- intros F Hat. apply at_most_first, HF. by apply at_most_first.
      * destruct (f0 wk w) as [[c2 w1]| |] eqn:E2; simplify_eq.
        destruct (IH2 _ _ _ _ _ _ Hin E2) as (S' & _ & Hj & HF). exists (S1 ∪ S'). split; [exact Hj|].
        intros F Hat. apply at_most_second, HF. by apply at_most_second.
Qed.

Lemma keeps_join {A B} (c1 : Co L N A) (c2 : Co L N B) :
  holds (λ _, ∅) ∅ ∅ c1 → holds (λ _, ∅) ∅ ∅ c2 → keeps ∅ (join c1 c2) (λ _, ∅) ∅.
Proof.
  intros H1 H2 w c w' [= <- <-]. exists ∅. split; [|done].
  rw -(union_empty_l_L ∅). by apply co_join_holds.
Qed.
End waiters.

(** ** The node's operations *)
Section operations.
Context `{Oneshot} `{LookupTable L} {N : Type} `{!Network BaseNode (World L N)}.
Abbreviation W := (World L N) (only parsing).
Context (self : BaseNode) (D : gset Nonce).
(** Sending registers no waiter at this node: only its own operations do. *)
Context (quiet : ∀ h i ev (w : W) r w' n, send_event h i ev w = Done (r, w') →
  is_Some (waiter_map (request_id_map self) w' !! n) →
  is_Some (waiter_map (request_id_map self) w !! n)).
#[local] Set Default Proof Using "quiet".

Abbreviation at_most' := (at_most (request_id_map self) D) (only parsing).
Abbreviation keeps' := (keeps (request_id_map self) D) (only parsing).
Abbreviation nothing := (λ _, ∅) (only parsing).

Lemma insert_at_most nonce x (w : W) F :
  at_most' F w →
  at_most' ({[nonce]} ∪ F) (drop_waiter (waiter_map (request_id_map self) w !! nonce)
    (set_waiter_map (request_id_map self) (<[nonce := x]> (waiter_map (request_id_map self) w)) w)).
Proof using Type.
  intros Hat n Hn.
  rw drop_waiter_map /waiter_map /= lookup_insert_eq /=. rw elem_of_union elem_of_singleton.
  destruct (decide (n = nonce)) as [->|Hne]; [by left|]. rw lookup_insert_ne; [done|].
  intros Hr. right. by apply Hat.
Qed.

Lemma guard_at_most nonce (w : W) F :
  at_most' ({[nonce]} ∪ F) w → at_most' F (guard self nonce w).
Proof using Type.
  intros Hat n Hn.
  rw /guard /guard_drop drop_waiter_map {1}/waiter_map /= lookup_insert_eq /=.
  destruct (decide (n = nonce)) as [->|Hne]; [rw lookup_delete_eq; by intros []|].
  rw lookup_delete_ne; [done|]. intros Hr. specialize (Hat n Hn Hr).
  apply elem_of_union in Hat as [->%elem_of_singleton|?]; done.
Qed.

Lemma send_at_most S F h i ev (w : W) r w' f :
  map_err f (send_event h i ev) w = Done (r, w') → at_most' (S ∪ F) w → at_most' (S ∪ F) w'.
Proof.
  intros E Hat n Hn Hr. apply Hat; [done|]. rw /map_err in E.
  destruct (send_event h i ev w) as [[[x|e] w1]| |] eqn:Es; simplify_eq; by eapply quiet.
Qed.

(** What all four operations share: send, and wait under the guard ... *)
Lemma send_keeps {A B} `{Payload A} nonce (rx : Receiver A) f dest ev (k : Awaited A → Async L N B) :
  (∀ x, keeps' {[nonce]} (k x) (λ _, {[nonce]}) {[nonce]}) →
  keeps' {[nonce]} (_ ← sync (send_or_drop self nonce rx f dest ev);
                    finally (r ← timeout rx; k r) (guard self nonce)) nothing ∅.
Proof.
  intros Hk. eapply (keeps_bind _ _ _ _ _ (λ r, match r with Ok _ => {[nonce]} | Err _ => ∅ end)); [| |done].
  { apply keeps_sync. intros w r w' F E Hat. rw /send_or_drop /on_err in E.
    destruct (map_err f _ w) as [[[x|e] w1]| |] eqn:Es; simplify_eq;
      apply (send_at_most _ _ _ _ _ _ _ _ _ Es) in Hat; [done|].
    rw at_most_empty. eapply at_most_map; [|by eapply guard_at_most]. done. }
  intros _. eapply (keeps_finally _ _ _ _ _ (λ _, {[nonce]}) _ {[nonce]}).
  - eapply (keeps_bind _ _ _ _ _ (λ _, {[nonce]})); [apply keeps_timeout|exact Hk|done].
  - intros r F w Hat. rw at_most_empty. by apply guard_at_most.
  - intros F w Hat. rw at_most_empty. by apply guard_at_most.
Qed.

(** ... after registering the waiter. *)
Lemma register_keeps {A} nonce x (m : () → Async L N A) :
  (∀ u, keeps' {[nonce]} (m u) nothing ∅) →
  keeps' ∅ (sync (insert_waiter (request_id_map self) nonce x) ≫= m) nothing ∅.
Proof using Type.
  intros Hm. eapply (keeps_bind _ _ _ _ _ (λ r, match r with Ok _ => {[nonce]} | Err _ => ∅ end));
    [|exact Hm|done].
  apply keeps_sync. intros w r w' F [= <- <-]. rw at_most_empty. intros Hat.
  exact (insert_at_most nonce x w F Hat).
Qed.

(** A channel is made first. *)
Lemma channel_keeps {A B} (k : Sender A * Receiver A → Async L N B) :
  (∀ ch, keeps' ∅ (k ch) nothing ∅) → keeps' ∅ (sync channel ≫= k) nothing ∅.
Proof using Type.
  intros Hk. eapply (keeps_bind _ _ _ _ _ nothing); [|exact Hk|done].
  apply keeps_sync. intros w r w' F E. rw /channel in E. destruct (chan_new _). simplify_eq.
  by apply at_most_map.
Qed.

Lemma gets_keeps {A B} S (g : W → A) (k : A → Async L N B) post left :
  (∀ a, keeps' S (k a) post left) → (∀ e, post (Err e) = S) →
  keeps' S (sync (gets g) ≫= k) post left.
Proof using Type.
  intros Hk He. eapply (keeps_bind _ _ _ _ _ (λ _, S)); [|exact Hk|done].
  apply keeps_sync. by intros w r w' F [= <- <-].
Qed.

Lemma search_keeps dest nonce target level d :
  keeps' ∅ (send_search_by_id_req self dest nonce target level d) nothing ∅.
Proof.
  apply channel_keeps. intros [tx rx]. apply register_keeps. intros _. apply send_keeps.
  intros []; by apply keeps_of.
Qed.

Lemma neighbor_keeps nonce from d level : keeps' ∅ (get_neighbor self nonce from d level) nothing ∅.
Proof.
  apply channel_keeps. intros [tx rx]. apply register_keeps. intros _. apply send_keeps.
  intros []; by apply keeps_of.
Qed.

Lemma link_keeps nonce dest d level : keeps' ∅ (send_link_request self nonce dest d level) nothing ∅.
Proof.
  apply channel_keeps. intros [tx rx]. apply register_keeps. intros _.
  eapply (keeps_bind _ _ _ _ _ (λ r, match r with Ok _ => {[nonce]} | Err _ => ∅ end)); [| |done].
  { apply keeps_sync. by intros w r w' F [= <- <-]. }
  intros candidate. apply send_keeps. intros []; by apply keeps_of.
Qed.

Lemma join_keeps nonces introducer level :
  keeps' ∅ (join_stage1_link_level0 self nonces introducer level) nothing ∅.
Proof.
  eapply (keeps_bind _ _ _ _ _ nothing); [| |done].
  { repeat case_match; by apply keeps_of. }
  intros d. eapply (keeps_bind _ _ _ _ _ nothing); [apply search_keeps| |done].
  intros res. cbv zeta. destruct (decide _) as [_|_]; [by apply keeps_of|].
  eapply (keeps_bind _ _ _ _ _ nothing); [apply neighbor_keeps| |done].
  intros [query|]; [|apply link_keeps].
  eapply (keeps_bind _ _ _ _ _ nothing); [| |done].
  { apply keeps_join; apply unstarted_holds, link_keeps. }
  intros [r1 r2]. eapply (keeps_bind _ _ _ _ _ nothing); [by apply keeps_of| |done].
  intros _. by apply keeps_of.
Qed.

(** ** Runs with interference *)

(** What other tasks may do: anything, except registering waiters at this node under
    the operation's own nonces. *)
Definition interferes (w w' : W) : Prop :=
  ∀ n, n ∈ D → is_Some (waiter_map (request_id_map self) w' !! n) →
    is_Some (waiter_map (request_id_map self) w !! n).

(** From a suspended operation to a later point: it is woken through any of its waits,
    with any outcome, or others interfere. *)
Inductive proceeds {A} : Co L N A → W → Co L N A → W → Prop :=
| proceeds_stop c w : proceeds c w c w
| proceeds_other c w w1 c' w' : interferes w w1 → proceeds c w1 c' w' → proceeds c w c' w'
| proceeds_wake bs cancel w t f wk c1 w1 c' w' :
    (t, f) ∈ bs → f wk w = Done (c1, w1) → proceeds c1 w1 c' w' →
    proceeds (Suspended bs cancel) w c' w'.

(** The world once the operation is over: ended, or dropped where it waits. *)
Definition when_over {A} (c : Co L N A) (w : W) : W :=
  match c with Ready _ => w | Suspended _ cancel => cancel w end.

Lemma proceeds_holds {A} (c c' : Co L N A) (w w' : W) S :
  proceeds c w c' w' → holds (request_id_map self) D nothing ∅ S c → at_most' S w →
  ∃ S', holds (request_id_map self) D nothing ∅ S' c' ∧ at_most' S' w'.
Proof using Type.
  intros Hp. revert S. induction Hp as [c w|c w w1 c' w' Hi _ IH|bs cancel w t f wk c1 w1 c' w' Hin E _ IH];
    intros S Hh Hat.
  - by exists S.
  - apply (IH S); [done|]. intros n Hn Hr. apply Hat; [done|]. by apply Hi.
  - inversion Hh as [|S0 bs0 cancel0 Hc Hstep]; subst.
    destruct (Hstep _ _ _ _ _ _ Hin E) as (S' & Hh' & HF). apply (IH S'); [done|].
    rw -(union_empty_r_L S'). apply HF. by rw union_empty_r_L.
Qed.
End operations.

Definition join_nonces (nonces : JoinNonces) : gset Nonce :=
  {[search_nonce nonces; neighbor_nonce nonces; search_link_nonce nonces; query_link_nonce nonces]}.

(** C11: stage 1 of the join leaves no waiter behind. On any network whose sends do not
    themselves register waiters at the node: started with its nonces unused, then
    woken through any of its waits in any order and with any outcome (an answer, a
    vanished sender, a timeout), with other tasks doing anything in between short of
    using its nonces, the operation has no waiter registered once it has ended, with
    success or an error, or once it is dropped at whatever point it waits. *)
Theorem join_leaves_no_waiter `{Oneshot} `{LookupTable L} {N : Type}
    {network_ops : Network BaseNode (World L N)} self nonces introducer level
    (w w1 w2 : World L N) c c' :
  (∀ h i ev (v : World L N) r v' n, send_event h i ev v = Done (r, v') →
     is_Some (waiter_map (request_id_map self) v' !! n) →
     is_Some (waiter_map (request_id_map self) v !! n)) →
  (∀ n, n ∈ join_nonces nonces → waiter_map (request_id_map self) w !! n = None) →
  join_stage1_link_level0 self nonces introducer level w = Done (c, w1) →
  proceeds self (join_nonces nonces) c w1 c' w2 →
  ∀ n, n ∈ join_nonces nonces → waiter_map (request_id_map self) (when_over c' w2) !! n = None.
Proof.
  intros Hquiet Hfresh E Hp n Hn.
  assert (Hat : at_most (request_id_map self) (join_nonces nonces) ∅ w).
  { intros k Hk [x Hx]. by rw (Hfresh k Hk) in Hx. }
  destruct (join_keeps self (join_nonces nonces) Hquiet nonces introducer level w c w1 E)
    as (S & Hh & HF).
  destruct (proceeds_holds self (join_nonces nonces) c c' w1 w2 S Hp Hh) as (S' & Hh' & Hat').
  { rw -(union_empty_r_L S). apply HF. by rw union_empty_r_L. }
  assert (Hover : at_most (request_id_map self) (join_nonces nonces) ∅ (when_over c' w2)).
  { destruct Hh' as [r|S' bs cancel Hc _]; [done|]. simpl. rw -(union_empty_r_L ∅). apply Hc.
    by rw union_empty_r_L. }
  destruct (waiter_map _ _ !! n) as [x|] eqn:Ex; [|done].
  assert (n ∈ (∅ : gset Nonce)) as Hin by (apply (Hover n Hn); by rw Ex).
  by apply not_elem_of_empty in Hin.
Qed.

Module CancellationSample.
Import FourNodes.
Definition nonces : JoinNonces := MkJoinNonces (MkNonce 1) (MkNonce 2) (MkNonce 3) (MkNonce 4).

Lemma quiet h i ev (v : W) r v' n :
  @send_event _ _ (queueing own addr) h i ev v = Done (r, v') →
  is_Some (waiter_map (request_id_map b) v' !! n) → is_Some (waiter_map (request_id_map b) v !! n).
Proof. by intros [= _ <-]. Qed.

(** [b]'s join started, and whether its search waiter is there. *)
Definition started : outcome (Co T (list Envelope) () * W) := join_of b 1%N start.
Definition waits : bool :=
  match started with
  | Done (_, w) => match waiter_map 1 w !! MkNonce 1 with Some _ => true | None => false end
  | _ => false
  end.
Lemma started_waits : waits = true.
Proof. vm_compute. reflexivity. Qed.
End CancellationSample.

(** The join of [b] is dropped while it waits for its search: the waiter, there
    before, is gone. *)
Lemma join_leaves_no_waiter_witness :
  ∃ c w1, CancellationSample.started = Done (c, w1)
    ∧ is_Some (waiter_map 1 w1 !! MkNonce 1)
    ∧ waiter_map 1 (when_over c w1) !! MkNonce 1 = None.
Proof.
  pose proof CancellationSample.started_waits as Hw. rw /CancellationSample.waits in Hw.
  destruct CancellationSample.started as [[c w1]| |] eqn:E; [|done..]. exists c, w1.
  split; [reflexivity|]. split.
  { destruct (waiter_map 1 w1 !! MkNonce 1) as [x|]; [by exists x|done]. }
  apply (@join_leaves_no_waiter _ _ _ _ (queueing FourNodes.own FourNodes.addr) FourNodes.b
    CancellationSample.nonces (id FourNodes.ia) 0 FourNodes.start w1 w1 c c).
  - exact CancellationSample.quiet.
  - intros n _. apply lookup_empty.
  - exact E.
  - constructor.
  - rw /join_nonces /CancellationSample.nonces /=. apply elem_of_union_l, elem_of_union_l, elem_of_union_l.
    by apply elem_of_singleton.
Defined.
