(* ===== verification/Concurrent.v ===== *)
(** * The node's operations running concurrently

    Any number of the nodes' own operations, the join among them, run next to each
    other on the queueing network under any schedule: resumed in any order, timed out,
    dropped, with events delivered late, out of order, lost or repeated. A program
    logic for suspended computations lifts what single steps respect to whole
    operations, and a schedule as far as it runs keeps the tables of the whole system
    truthful; that it runs to its end is shown in [Typing]. *)
From S2P Require Import Prelude Bytes Model LookupTable Core World BaseNode Hub Overlay Handlers Routing Safety Linking Async NodeOps Join Transport Interleaving.
From S2P Require Import Identifier.

#[local] Set Warnings "-register-all".

(** ** Steps of suspended computations *)
Section respects.
Context `{Oneshot} {L N : Type}.
Abbreviation W := (World L N) (only parsing).
Context (R : relation (World L N)) `{!PreOrder R}.

(** However it is resumed or dropped, the computation moves the world by [R]. *)
Inductive respects {A} : Co L N A → Prop :=
| respects_ready r : respects (Ready r)
| respects_suspended bs cancel :
    (∀ w, R w (cancel w)) →
    (∀ t f wk w c w', (t, f) ∈ bs → f wk w = Done (c, w') → R w w') →
    (∀ t f wk w c w', (t, f) ∈ bs → f wk w = Done (c, w') → respects c) →
    respects (Suspended bs cancel).

Definition follows {A} (m : Async L N A) : Prop :=
  ∀ w c w', m w = Done (c, w') → R w w' ∧ respects c.

Lemma follows_sync {A} (m : M W A) : moves R m → follows (sync m).
Proof using Type.
  intros Hm w c w' E. rw /sync /next in E. destruct (m w) as [[r w1]| |] eqn:Em; simplify_eq.
  split; [by eapply Hm|constructor].
Qed.

Lemma follows_of {A} (r : result A) : follows (async_of r).
Proof using Type*. intros w c w' [= <- <-]. split; [reflexivity|constructor]. Qed.

Lemma follows_ret {A} (a : A) : follows (mret a).
Proof using Type*. apply (follows_of (Ok a)). Qed.

Lemma co_bind_follows {A B} (c : Co L N A) (k : A → Async L N B) :
  respects c → (∀ a, follows (k a)) → follows (co_bind c k).
Proof using Type*.
  intros Hc Hk. induction Hc as [[a|e]|bs cancel Hcan HR _ IH]; intros w c' w' E.
  - by eapply Hk.
  - injection E as <- <-. split; [reflexivity|constructor].
  - cbn [co_bind] in E. injection E as <- <-. split; [reflexivity|]. constructor; [done|..];
      intros t f wk w1 c1 w2 Hin E1; apply list_elem_of_fmap in Hin as ([t0 f0] & [= -> ->] & Hin);
      rw /next in E1; destruct (f0 wk w1) as [[c2 w3]| |] eqn:E2; try done;
      destruct (IH _ _ _ _ _ _ Hin E2 _ _ _ E1) as [HR2 Hr]; [|done].
    etrans; [by eapply HR|done].
Qed.

Lemma follows_bind {A B} (m : Async L N A) (k : A → Async L N B) :
  follows m → (∀ a, follows (k a)) → follows (m ≫= k).
Proof using Type*.
  intros Hm Hk w c w' E. rw /mbind /async_bind /next in E.
  destruct (m w) as [[c1 w1]| |] eqn:E1; try done. destruct (Hm _ _ _ E1) as [HR Hr].
  destruct (co_bind_follows c1 k Hr Hk w1 c w' E). split; [by etrans|done].
Qed.

Lemma follows_gets_bind {A B} (g : W → A) (k : A → Async L N B) :
  (∀ w, follows (k (g w))) → follows (sync (gets g) ≫= k).
Proof using Type. intros Hk w. apply Hk. Qed.

Lemma co_finally_follows {A} (c : Co L N A) (f : W → W) :
  respects c → (∀ w, R w (f w)) → follows (co_finally c f).
Proof using Type*.
  intros Hc Hf. induction Hc as [r|bs cancel Hcan HR _ IH]; intros w c' w' E.
  - injection E as <- <-. split; [done|constructor].
  - cbn [co_finally] in E. injection E as <- <-. split; [reflexivity|].
    constructor; [intros w1; etrans; [apply Hcan|apply Hf]|..];
      intros t g wk w1 c1 w2 Hin E1; apply list_elem_of_fmap in Hin as ([t0 g0] & [= -> ->] & Hin);
      rw /next in E1; destruct (g0 wk w1) as [[c2 w3]| |] eqn:E2; try done;
      destruct (IH _ _ _ _ _ _ Hin E2 _ _ _ E1) as [HR2 Hr]; [|done].
    etrans; [by eapply HR|done].
Qed.

Lemma follows_finally {A} (m : Async L N A) (f : W → W) :
  follows m → (∀ w, R w (f w)) → follows (finally m f).
Proof using Type*.
  intros Hm Hf w c w' E. rw /finally /next in E.
  destruct (m w) as [[c1 w1]| |] eqn:E1; try done. destruct (Hm _ _ _ E1) as [HR Hr].
  destruct (co_finally_follows c1 f Hr Hf w1 c w' E). split; [by etrans|done].
Qed.

Lemma follows_timeout {A} `{Payload A} (rx : Receiver A) :
  (∀ w, R w (drop_receiver rx w)) → follows (timeout rx).
Proof using Type*.
  intros Hd w c w' [= <- <-]. split; [reflexivity|]. constructor; [done|..];
    intros t f wk w1 c w2 [= -> ->]%list_elem_of_singleton E; revert E;
    (destruct wk as [|r| |]; [done|destruct (of_reply r)| |]; try done); intros [= <- <-];
    first [apply Hd|constructor].
Qed.

Lemma respects_unstarted {A} (m : Async L N A) : follows m → respects (unstarted m).
Proof using Type*.
  intros Hm. constructor; [reflexivity|..];
    intros t f wk w c w' [= -> ->]%list_elem_of_singleton E; by apply Hm in E as [? ?].
Qed.

Lemma co_join_respects {A B} (c1 : Co L N A) (c2 : Co L N B) :
  respects c1 → respects c2 → respects (co_join c1 c2).
Proof using Type*.
  intros H1. revert c2. induction H1 as [r1|bs1 cancel1 Hcan1 HR1 Hr1 IH1]; intros c2 H2.
  - induction H2 as [r2|bs2 cancel2 Hcan2 HR2 Hr2 IH2]; constructor; [done|..];
      intros t f wk w c w' Hin E; apply list_elem_of_fmap in Hin as ([t0 f0] & [= -> ->] & Hin);
      rw /next in E; destruct (f0 wk w) as [[c2 w2]| |] eqn:E2; simplify_eq; eauto.
  - induction H2 as [r2|bs2 cancel2 Hcan2 HR2 Hr2 IH2].
    + constructor; [done|..]; intros t f wk w c w' Hin E;
        apply list_elem_of_fmap in Hin as ([t0 f0] & [= -> ->] & Hin);
        rw /next in E; destruct (f0 wk w) as [[c1 w1]| |] eqn:E1; simplify_eq; [by eapply HR1|].
      eapply (IH1 _ _ _ _ _ _ Hin E1 (Ready r2)). constructor.
    + constructor; [intros w; etrans; [apply Hcan1|apply Hcan2]|..];
        intros t f wk w c w' Hin E; (apply elem_of_app in Hin as [Hin|Hin];
          apply list_elem_of_fmap in Hin as ([t0 f0] & [= -> ->] & Hin); rw /next in E;
          destruct (f0 wk w) as [[c1 w1]| |] eqn:E1; simplify_eq); [by eapply HR1|by eapply HR2|..].
      * eapply (IH1 _ _ _ _ _ _ Hin E1). by constructor.
      * by eapply (IH2 _ _ _ _ _ _ Hin E1).
Qed.

Lemma follows_join {A B} (c1 : Co L N A) (c2 : Co L N B) :
  respects c1 → respects c2 → follows (join c1 c2).
Proof using Type*. intros H1 H2 w c w' [= <- <-]. split; [reflexivity|by apply co_join_respects]. Qed.
End respects.

(** ** The node's operations *)
Section operations.
Context `{Oneshot} `{LookupTableSpec L} {N : Type} (network_ops : Network BaseNode (World L N)).
Context (R : relation (World L N)) `{!PreOrder R} (welcome : Identity → Prop).
Context (self : BaseNode) (Hre : respectful network_ops R welcome self).
(** The operations also register waiters, in the node's own map. *)
Context (Hown : ∀ w w', tables w' = tables w → network w' = network w →
  no_new_waiters (λ rm, rm ≠ request_id_map self) w w' → R w w').
#[local] Set Default Proof Using "Type*".

Lemma own_map_steps o m (w : World L N) :
  R w (drop_waiter o (set_waiter_map (request_id_map self) m w)).
Proof.
  apply Hown; [by destruct o..|]. intros rm n Hne. rw drop_waiter_map /waiter_map /=.
  by rw lookup_insert_ne.
Qed.

Lemma guard_steps nonce (w : World L N) : R w (guard self nonce w).
Proof. apply own_map_steps. Qed.

Lemma chan_steps f (w : World L N) : R w (set_chans f w).
Proof. apply Hown; [done..|by intros ? ? _]. Qed.

(** What all requests share: send under the guard, then wait. *)
Lemma send_follows {A B} `{Payload A} nonce (rx : Receiver A) f dest ev
    (k : Awaited A → Async L N B) :
  proper welcome ev → (∀ x, follows R (k x)) →
  follows R (_ ← sync (send_or_drop self nonce rx f dest ev);
             finally (r ← timeout rx; k r) (guard self nonce)).
Proof.
  intros Hp Hk. apply follows_bind; [done|..].
  - apply follows_sync. intros w r w' E. rw /send_or_drop /on_err in E.
    destruct (map_err f _ w) as [[[x|e] w1]| |] eqn:Es; simplify_eq;
      (apply (moves_map_err f _ (re_send _ _ _ self Hre dest ev Hp)) in Es; [|done..]); [done|].
    etrans; [exact Es|]. etrans; [apply guard_steps|apply chan_steps].
  - intros _. apply follows_finally; [done| |apply guard_steps].
    apply follows_bind; [done| |exact Hk]. apply follows_timeout; [done|].
    intros w. apply chan_steps.
Qed.

Lemma channel_follows {A B} (k : Sender A * Receiver A → Async L N B) :
  (∀ ch, follows R (k ch)) → follows R (sync channel ≫= k).
Proof.
  intros Hk. apply follows_bind; [done| |done]. apply follows_sync.
  intros w r w' E. rw /channel in E. destruct (chan_new _). simplify_eq. apply chan_steps.
Qed.

Lemma register_follows {A} nonce x (m : () → Async L N A) :
  (∀ u, follows R (m u)) →
  follows R (sync (insert_waiter (request_id_map self) nonce x) ≫= m).
Proof.
  intros Hm. apply follows_bind; [done| |done]. apply follows_sync.
  intros w r w' [= _ <-]. apply own_map_steps.
Qed.

Ltac answered := apply send_follows; [done|intros []; by first [apply follows_ret|apply follows_of]].

Lemma max_level_follows nonce introducer : follows R (get_max_level self nonce introducer).
Proof. apply channel_follows. intros [tx rx]. apply register_follows. intros _. answered. Qed.

Lemma search_follows dest nonce target level d :
  follows R (send_search_by_id_req self dest nonce target level d).
Proof. apply channel_follows. intros [tx rx]. apply register_follows. intros _. answered. Qed.

Lemma neighbor_follows nonce from d level : follows R (get_neighbor self nonce from d level).
Proof. apply channel_follows. intros [tx rx]. apply register_follows. intros _. answered. Qed.

Lemma link_follows nonce dest d level : follows R (send_link_request self nonce dest d level).
Proof.
  apply channel_follows. intros [tx rx]. apply register_follows. intros _.
  apply follows_gets_bind. intros w. apply send_follows; [apply (re_self _ _ _ self Hre)|].
  intros []; by first [apply follows_ret|apply follows_of].
Qed.

Lemma node_search_follows req : follows R (node_search_by_id self req).
Proof.
  apply follows_bind; [done|..].
  - apply follows_sync, moves_map_err. by eapply search_moves.
  - intros res. case_decide; [by apply follows_ret|apply search_follows].
Qed.

Lemma join_follows nonces introducer level :
  follows R (join_stage1_link_level0 self nonces introducer level).
Proof.
  apply follows_bind; [done|repeat case_match; by first [apply follows_ret|apply follows_of]|].
  intros d. apply follows_bind; [done|apply search_follows|]. intros res. cbv zeta.
  case_decide; [by apply follows_of|]. apply follows_bind; [done|apply neighbor_follows|].
  intros [query|]; [|apply link_follows]. apply follows_bind; [done|..].
  - by apply follows_join; [|apply respects_unstarted; [|apply link_follows]..].
  - intros [r1 r2]. apply follows_bind; [done|by apply follows_of|]. intros _. by apply follows_of.
Qed.
End operations.

(** ** Schedules of operations *)
Section schedules.
Context `{Oneshot} `{LookupTableSpec L}.
Abbreviation W := (World L (list Envelope)) (only parsing).
Context (own : loc → Identifier) (addr : loc → Address) (nodes : gmap Identifier BaseNode).
Implicit Types (w : W) (b self : BaseNode).

(** Everything in flight names nodes as they describe themselves. *)
Definition sincere (e : Envelope) : Prop := proper (known nodes) (env_event e).
Definition fair w : Prop := system own nodes w ∧ Forall sincere (network w).

(** The system stays fair and the entries of its nodes move inward. *)
Definition advances w w' : Prop :=
  fair w → fair w' ∧ ∀ i b, nodes !! i = Some b → inward w w' b.

#[local] Instance advances_preorder : PreOrder advances.
Proof using Type.
  split.
  - intros w Hw. split; [done|]. intros i b _. apply inward_refl.
  - intros w1 w2 w3 H12 H23 Hw. destruct (H12 Hw) as [Hw2 Hi2]. destruct (H23 Hw2) as [Hw3 Hi3].
    split; [done|]. intros i b Hb. eapply inward_trans; eauto.
Qed.

Lemma advances_locally w w' :
  tables w' = tables w → Forall sincere (network w') → advances w w'.
Proof using Type.
  intros Et Hn [Hs _]. split; [split; [by eapply system_tables|done]|].
  intros i b _. by apply inward_same_tables.
Qed.

Lemma advances_posted w f :
  (Forall sincere (network w) → Forall sincere (f (network w))) → advances w (set_network f w).
Proof using Type. intros Hf Hw. apply advances_locally; [done| |done]. by apply Hf, Hw. Qed.

(** Linking a node where it fits. *)
Lemma advances_linked self l d i :
  nodes !! node_id self = Some self → fits self l d i → known nodes i →
  moves advances (on_core self (core_try_link (core self) l d i) : M W _).
Proof using Type.
  intros Hself Hf Hk w r w' E [Hs Hn].
  assert (Hlk : slot_linked self l d i w w').
  { destruct (on_core_try_link w self l d i) as (t' & E' & Hwf & Ht');
      [by eapply sy_table|by apply Hf|].
    rw E' in E. injection E as _ <-. by exists t'. }
  pose proof Hlk as (t' & Ew & _). split.
  - split; [by eapply system_linked|by rw Ew].
  - intros j b Hb. destruct (decide (j = node_id self)) as [->|Hne].
    + rw Hself in Hb. injection Hb as <-. by apply (inward_linked self l d i).
    + intros Hok. assert (Et : tables w' !! core_lt (core b) = tables w !! core_lt (core b)).
      { rw Ew /= lookup_insert_ne; [|done]. intros El. apply Hne. by eapply (sy_own own nodes w Hs). }
      rw /table_ok /sound /node_slots Et. split_and!; [done..|].
      intros l' d' x Ex. exists x. by split; [|left].
Qed.

Lemma member_respectful b :
  own (net b) = node_id b → nodes !! node_id b = Some b →
  respectful (queueing own addr) advances (known nodes) b.
Proof using Type.
  intros Hown Hb. split.
  - intros w w' Et En _ Hw. apply advances_locally; [done|rw En; apply Hw|done].
  - intros A m Hm w r w' E Hw. rw /on_core /on_table in E.
    destruct (sy_table own nodes w (proj1 Hw) _ b Hb) as (t & Et & Hwf). rw Et in E.
    destruct (m t) as [[r' t']| |] eqn:Em; simplify_eq. rw (Hm t r t' Hwf Em).
    apply advances_locally; [|apply Hw|done]. by rw /= insert_id.
  - intros l d i. by apply advances_linked.
  - intros dest ev Hp w r w' [= _ <-]. apply advances_posted. intros Hn.
    apply Forall_app. split; [done|]. by apply Forall_singleton.
  - intros w. exists b. split; [exact Hb|done].
Qed.

Lemma deliver_advances n : 
  (∀ i b, nodes !! i = Some b → own (net b) = node_id b ∧ node_id b = i) →
  moves advances (deliver_nth own addr nodes n : M W ()).
Proof using Type.
  intros Hids w r w' E. rw /deliver_nth in E. destruct (network w !! n) as [e|] eqn:En; simplify_eq;
    [|done].
  assert (Hdel : advances w (set_network (delete n) w)) by (apply advances_posted, Forall_delete).
  destruct (nodes !! env_to e) as [b|] eqn:Eb; simplify_eq; [|done].
  intros Hw. revert Hw. cut (sincere e → advances w w').
  { intros Hc Hw. apply Hc; [|done]. eapply Forall_lookup_1; [apply Hw|exact En]. }
  intros He. etrans; [exact Hdel|]. destruct (Hids _ _ Eb) as [Hown Hid].
  refine (process_moves _ advances (known nodes) b _ _ _ He _ _ _ E).
  apply member_respectful; [done|by rw Hid].
Qed.

(** ** Clients *)

(** A call of an operation, the draws of its nonces included. *)
Inductive Operation : Type :=
| CallSearch (req : IdSearchReq)
| CallMaxLevel (nonce : Nonce) (introducer : Identifier)
| CallNeighbor (nonce : Nonce) (from : Identifier) (d : Direction) (level : LookupTableLevel)
| CallLink (nonce : Nonce) (dest : Identifier) (d : Direction) (level : LookupTableLevel)
| CallJoin (nonces : JoinNonces) (introducer : Identifier) (level : LookupTableLevel).

(** The call, whoever reads its result. *)
Definition call self (op : Operation) : Async L (list Envelope) () :=
  match op with
  | CallSearch req => _ ← node_search_by_id (Network0 := queueing own addr) self req; mret tt
  | CallMaxLevel nonce introducer =>
      _ ← get_max_level (Network0 := queueing own addr) self nonce introducer; mret tt
  | CallNeighbor nonce from d level =>
      _ ← get_neighbor (Network0 := queueing own addr) self nonce from d level; mret tt
  | CallLink nonce dest d level =>
      send_link_request (Network0 := queueing own addr) self nonce dest d level
  | CallJoin nonces introducer level =>
      join_stage1_link_level0 (Network0 := queueing own addr) self nonces introducer level
  end.

Definition spawn (c : BaseNode * Operation) : option (Co L (list Envelope) ()) :=
  Some (unstarted (call c.1 c.2)).

Lemma call_follows self op :
  respectful (queueing own addr) advances (known nodes) self → follows advances (call self op).
Proof using Type.
  intros Hre.
  assert (Hown : ∀ w w', tables w' = tables w → network w' = network w →
    no_new_waiters (λ rm, rm ≠ request_id_map self) w w' → advances w w').
  { intros w w' Et En _ Hw. apply advances_locally; [done|rw En; apply Hw|done]. }
  destruct op; cbn [call].
  - apply follows_bind; [apply _| |intros ?; apply follows_ret; apply _].
    exact (node_search_follows _ _ _ _ Hre Hown _).
  - apply follows_bind; [apply _| |intros ?; apply follows_ret; apply _].
    exact (max_level_follows _ _ _ _ Hre Hown _ _).
  - apply follows_bind; [apply _| |intros ?; apply follows_ret; apply _].
    exact (neighbor_follows _ _ _ _ Hre Hown _ _ _ _).
  - exact (link_follows _ _ _ _ Hre Hown _ _ _ _).
  - exact (join_follows _ _ _ _ Hre Hown _ _ _).
Qed.

(** One action, on tasks that respect [advances]. *)
Definition respectful_task {A} (t : option (Co L (list Envelope) A)) : Prop :=
  match t with Some c => respects advances c | None => True end.

Lemma wake_advances {A} k wk (c c' : Co L (list Envelope) A) w w' :
  respects advances c → wake k wk c w = Done (c', w') → advances w w' ∧ respects advances c'.
Proof using Type.
  intros Hc E. destruct Hc as [r|bs cancel Hcan HR Hr]; cbn [wake] in E.
  { injection E as <- <-. split; [done|constructor]. }
  destruct (bs !! k) as [[t f]|] eqn:Ek; [destruct (wk t w) as [x|]|].
  - apply list_elem_of_lookup_2 in Ek. split; [by eapply HR|by eapply Hr].
  - injection E as <- <-. split; [done|by constructor].
  - injection E as <- <-. split; [done|by constructor].
Qed.

Lemma on_task_advances {A} i k wk (ts ts' : list (option (Co L (list Envelope) A))) w w' :
  Forall respectful_task ts → on_task i (wake k wk) ts w = Done (ts', w') →
  advances w w' ∧ Forall respectful_task ts'.
Proof using Type.
  intros Ht E. rw /on_task /Tasks in E. destruct (ts !! i) as [[c|]|] eqn:Ei;
    [|by simplify_eq..].
  rw /next in E. destruct (wake k wk c w) as [[c' w1]| |] eqn:Ew; simplify_eq.
  pose proof (Forall_lookup_1 _ _ _ _ Ht Ei) as Hc.
  destruct (wake_advances k wk c c' w w' Hc Ew) as [HR Hc']. split; [done|].
  by apply Forall_insert.
Qed.

Lemma perform_one_advances {A} a (ts ts' : list (option (Co L (list Envelope) A))) w w' :
  (∀ i b, nodes !! i = Some b → own (net b) = node_id b ∧ node_id b = i) →
  Forall respectful_task ts → perform_one own addr nodes a ts w = Done (ts', w') →
  advances w w' ∧ Forall respectful_task ts'.
Proof using Type.
  intros Hids Ht. destruct a as [i k|i k|i|n|n|n]; cbn [perform_one]; rw /Tasks.
  - by apply on_task_advances.
  - by apply on_task_advances.
  - destruct (ts !! i) as [[[r|bs cancel]|]|] eqn:Ei; intros [= <- <-]; try done.
    pose proof (Forall_lookup_1 _ _ _ _ Ht Ei) as Hc. inversion Hc. split; [done|].
    by apply Forall_insert.
  - rw /next. destruct (deliver_nth own addr nodes n w) as [[r w1]| |] eqn:E; intros [= <- <-].
    split; [by apply (deliver_advances n Hids w r w1)|done].
  - intros [= <- <-]. split; [|done]. apply advances_posted, Forall_delete.
  - intros [= <- <-]. split; [|done]. apply advances_posted. intros Hn. apply Forall_app. split; [done|].
    destruct (network w !! n) as [e|] eqn:En; [|constructor]. apply Forall_singleton.
    by eapply Forall_lookup_1.
Qed.

(** A schedule advances the system. *)
Lemma perform_advances {A} acts (ts ts' : list (option (Co L (list Envelope) A))) w w' :
  (∀ i b, nodes !! i = Some b → own (net b) = node_id b ∧ node_id b = i) →
  Forall respectful_task ts → perform own addr nodes acts ts w = Done (ts', w') → advances w w'.
Proof using Type.
  intros Hids. revert ts w. induction acts as [|a acts IH]; intros ts w Ht E; cbn [perform] in E;
    [by simplify_eq|].
  rw /next in E. destruct (perform_one own addr nodes a ts w) as [[ts1 w1]| |] eqn:E1; try done.
  destruct (perform_one_advances a ts ts1 w w1 Hids Ht E1) as [HR Ht1]. etrans; [exact HR|].
  by eapply IH.
Qed.

Lemma fair_ids w i b :
  fair w → nodes !! i = Some b → own (net b) = node_id b ∧ node_id b = i.
Proof using Type. intros [Hs _] Hb. destruct (sy_id own nodes w Hs i b Hb) as [Hi Ho]. by rw Hi. Qed.

Lemma spawned_respectful calls w :
  fair w → (∀ b op, (b, op) ∈ calls → nodes !! node_id b = Some b) →
  Forall respectful_task (map spawn calls).
Proof using Type.
  intros Hw Hcalls. apply Forall_fmap, Forall_forall. intros [b op] Hin. pose proof (Hcalls b op Hin) as Hb.
  apply respects_unstarted; [apply _|].
  by apply call_follows, member_respectful; [apply (fair_ids w (node_id b))|].
Qed.

(** What an advance of a fair system means for its tables. *)
Lemma advances_truthful w w' :
  fair w → advances w w' →
  fair w' ∧ ∀ i b l d, nodes !! i = Some b →
    (∀ x, node_slots w' b l d = Some x → fits b l d x ∧ known nodes x)
    ∧ ∀ x, node_slots w b l d = Some x →
        ∃ y, node_slots w' b l d = Some y ∧ reaches d (id y) (id x).
Proof using Type.
  intros Hw HR. destruct (HR Hw) as [Hw' Hin]. split; [done|]. intros i b l d Hb.
  destruct Hw as [[_ Hok _ _] _]. destruct (Hin i b Hb (Hok i b Hb)) as (_ & _ & Hinw).
  split; [|apply Hinw]. intros x Hx.
  destruct Hw' as [[_ _ _ Htr] _]. destruct (Htr i b Hb) as [Hs Hk].
  split; [by apply Hs|by eapply Hk].
Qed.
End schedules.
