(* ===== verification/Sessions.v ===== *)
(** * The skip graph as a sorted set

    What the whole overlay promises, stated without nodes, tables or messages: a set of
    identifiers in which a join inserts one and a search finds the closest one. Any
    sequence of joins and searches on the in-memory network, each run to its end before
    the next, gives exactly the replies of that set, and ends with tables that pass the
    tests' own assertion. *)
From S2P Require Import Prelude Bytes Model LookupTable Core World BaseNode Hub Overlay Handlers Routing Safety Linking Async NodeOps Join Search Fixtures LocalGraph Concurrent.
From S2P Require Import Identifier.

(** ** The specification *)

(** A node joins through an introducer, or a member searches. *)
Inductive Request : Type :=
| JoinThrough (joiner : Identifier) (nonces : JoinNonces) (introducer : Identifier) (level : LookupTableLevel)
| SearchFrom (member : Identifier) (req : IdSearchReq).
Inductive Reply : Type :=
| Joined
| FoundAt (closest : option Identifier).

(** The better of two: not past the target, and closer to it. *)
Definition nearer (d : Direction) (target j : Identifier) (best : option Identifier) : option Identifier :=
  if decide (reaches d j target) then
    match best with
    | Some b => if decide (reaches d j b) then Some b else Some j
    | None => Some j
    end
  else best.
Definition closest_member (members : gset Identifier) (d : Direction) (target : Identifier)
    : option Identifier :=
  foldr (nearer d target) None (elements members).

Definition taken : Error :=
  Anyhow "stage-1 search resolved a node with this node's own id, another node already holds it" [].

(** The set after a request, and the reply. *)
Definition after (members : gset Identifier) (r : Request) : gset Identifier :=
  match r with
  | JoinThrough joiner _ _ _ => {[joiner]} ∪ members
  | SearchFrom _ _ => members
  end.
Definition reply (members : gset Identifier) (r : Request) : result Reply :=
  match r with
  | JoinThrough joiner _ _ _ => if decide (joiner ∈ members) then Err taken else Ok Joined
  | SearchFrom _ req => Ok (FoundAt (closest_member members (isq_direction req) (isq_target req)))
  end.

Fixpoint replies (members : gset Identifier) (rs : list Request) : list (result Reply) :=
  match rs with
  | [] => []
  | r :: rest => reply members r :: replies (after members r) rest
  end.
Definition after_all : gset Identifier → list Request → gset Identifier := foldl after.

(** Requests that make sense: of nodes that exist, to members, about real levels, and in
    the direction in which the target lies. *)
Definition admissible (nodes members : gset Identifier) (r : Request) : Prop :=
  match r with
  | JoinThrough joiner _ introducer level =>
      joiner ∈ nodes ∧ introducer ∈ members ∧ introducer ≠ joiner ∧ level < 256
  | SearchFrom member req =>
      member ∈ members ∧ reaches (isq_direction req) member (isq_target req) ∧ isq_level req < 256
  end.
Fixpoint all_admissible (nodes members : gset Identifier) (rs : list Request) : Prop :=
  match rs with
  | [] => True
  | r :: rest => admissible nodes members r ∧ all_admissible nodes (after members r) rest
  end.

Lemma closest_member_list d target (l : list Identifier) :
  match foldr (nearer d target) None l with
  | Some r => r ∈ l ∧ reaches d r target ∧ ∀ j, j ∈ l → reaches d j target → reaches d j r
  | None => ∀ j, j ∈ l → ¬ reaches d j target
  end.
Proof.
  induction l as [|i l IH]; cbn [foldr]; [by intros j ?%not_elem_of_nil|]. rw /nearer.
  destruct (decide (reaches d i target)) as [Hi|Hi]; destruct (foldr _ None l) as [r|].
  - destruct IH as (Hr & Hrt & Hmax). case_decide as Hir.
    + split_and!; [by right|done|]. by intros j [->|Hj]%elem_of_cons; [|by apply Hmax].
    + split_and!; [by left|done|]. intros j [->|Hj]%elem_of_cons Hjt; [by left|].
      destruct (beyond_total d i r) as [Hb|[->|Hb]]; [by destruct Hir; right|by destruct Hir; left|].
      eapply reaches_trans; [by apply Hmax|by right].
  - split_and!; [by left|done|]. intros j [->|Hj]%elem_of_cons Hjt; [by left|by destruct (IH j Hj)].
  - destruct IH as (Hr & Hrt & Hmax). split_and!; [by right|done|].
    by intros j [->|Hj]%elem_of_cons; [|by apply Hmax].
  - by intros j [->|Hj]%elem_of_cons; [|by apply IH].
Qed.

(** It is the one the searches are proved to answer with. *)
Lemma closest_member_spec members d target r :
  closest members d target r → closest_member members d target = Some r.
Proof.
  intros (Hr & Hrt & Hmax). rw /closest_member.
  pose proof (closest_member_list d target (elements members)) as Hs.
  apply elem_of_elements in Hr. destruct (foldr _ None _) as [r'|]; [|by destruct (Hs r Hr)].
  destruct Hs as (Hr' & Hrt' & Hmax'). f_equal. apply (reaches_antisym d); [|by apply Hmax'].
  apply Hmax; [by apply elem_of_elements|done].
Qed.

(** ** Nobody else's waiters

    Handlers only take waiters away; an operation registers its own. *)
Section quiet.
Context `{Oneshot} `{LookupTableSpec L}.
Abbreviation W := (World L (MockState BaseNode)) (only parsing).
Implicit Types (w : W) (self : BaseNode) (P : loc → Prop).
#[local] Set Default Proof Using "Type*".

#[export] Instance no_new_waiters_preorder P : PreOrder (no_new_waiters (L := L) (N := MockState BaseNode) P).
Proof using Type. split; [by intros w rm n _|]. intros w1 w2 w3 H12 H23 rm n HP Hn. eauto. Qed.

Lemma on_core_fewer {A} P self (m : M L A) : moves (no_new_waiters P) (on_core self m : M W A).
Proof using Type.
  intros w r w' E. rw /on_core /on_table in E. repeat case_match; simplify_eq. by intros rm n _.
Qed.

Lemma respectful_fewer (network_ops : Network BaseNode W) P self :
  (∀ h i ev, moves (no_new_waiters P) (send_event h i ev)) →
  respectful network_ops (no_new_waiters P) (λ _, True) self.
Proof.
  intros Hs. split; [|intros; apply on_core_fewer..|intros; apply Hs|done].
  intros w w' _ _ Hw rm n _. by apply Hw.
Qed.

Lemma mock_process_fewer P n p o ev :
  moves (no_new_waiters P) (@process_incoming_event _ _ (mock_processor_at n) p o ev : M W ()).
Proof.
  revert p o ev. induction n as [|n IH]; intros p o ev; [by intros w r w' [=]|].
  apply (process_moves (mock_network n) _ (λ _, True)); [|by destruct ev].
  apply respectful_fewer. intros h i e w r w' E.
  apply mock_send_cases in E as [->|(m & c & p' & o' & r' & _ & _ & E)]; [reflexivity|by eapply IH].
Qed.

Lemma mock_send_fewer P n h i ev :
  moves (no_new_waiters P) (@send_event _ _ (mock_network n) h i ev : M W ()).
Proof.
  intros w r w' E.
  apply mock_send_cases in E as [->|(m & c & p' & o' & r' & _ & _ & E)]; [reflexivity|].
  by eapply mock_process_fewer.
Qed.

(** A run ends through some of its waits. *)
Lemma run_suspended {A} bs cancel w (r : result A) w' :
  run (Suspended bs cancel) w = Done (r, w') →
  ∃ t f wk c w1, (t, f) ∈ bs ∧ f wk w = Done (c, w1) ∧ run c w1 = Done (r, w').
Proof using Type.
  cbn [run]. set (timed_out := match bs with [] => _ | _ => _ end). set (Q := ∃ t f wk c w1, _).
  assert (Hall : Forall (λ '(t, f), ∀ wk,
      next (f wk w) (λ c w1, run c w1) = Done (r, w') → Q) bs).
  { apply Forall_forall. intros [t f] Hin wk. rw /next.
    destruct (f wk w) as [[c w1]| |] eqn:E; [intros Er|done..]. by exists t, f, wk, c, w1. }
  assert (Hto : timed_out = Done (r, w') → Q).
  { rw /timed_out. destruct bs as [|[t f] rest]; [done|].
    apply Forall_cons in Hall as [Hf _]. exact (Hf TimedOut). }
  clearbody Q timed_out. induction Hall as [|[t f] rest Hf _ IH]; [done|].
  destruct (poll_trigger t w) as [wk|]; [apply Hf|exact IH].
Qed.

Lemma respects_run {A} (R : relation W) `{!PreOrder R} (c : Co L (MockState BaseNode) A) :
  respects R c → ∀ w r w', run c w = Done (r, w') → R w w'.
Proof using Type.
  induction 1 as [r0|bs cancel _ HR _ IH]; intros w r w' E; [by injection E as _ <-|].
  apply run_suspended in E as (t & f & wk & c & w1 & Hin & Ef & Er).
  etrans; [by eapply HR|by eapply IH].
Qed.

Lemma follows_run_alone {A} (R : relation W) `{!PreOrder R} (m : Async L (MockState BaseNode) A) :
  follows R m → moves R (run_alone m).
Proof using Type.
  intros Hm w r w' E. rw /run_alone /next in E. destruct (m w) as [[c w1]| |] eqn:Em; [|done..].
  destruct (Hm _ _ _ Em) as [HR Hc]. etrans; [exact HR|by eapply respects_run].
Qed.

(** No operation registers a waiter at another node. *)
Lemma join_fewer n self nonces introducer level :
  moves (no_new_waiters (λ rm, rm ≠ request_id_map self))
    (run_alone (join_stage1_link_level0 (Network0 := mock_network n) self nonces introducer level) : M W ()).
Proof using Type*.
  apply follows_run_alone; [apply _|].
  eapply join_follows; [apply _| |done]. apply respectful_fewer. intros. apply mock_send_fewer.
Qed.

Lemma search_fewer n self req :
  moves (no_new_waiters (λ rm, rm ≠ request_id_map self))
    (run_alone (node_search_by_id (Network0 := mock_network n) self req) : M W IdSearchRes).
Proof using Type*.
  apply follows_run_alone; [apply _|].
  eapply node_search_follows; [apply _| |done]. apply respectful_fewer. intros. apply mock_send_fewer.
Qed.
End quiet.

(** ** The overlay serving requests *)
Section sessions.
Context `{OneshotLaws} `{LookupTableSpec L}.
Abbreviation W := (World L (MockState BaseNode)) (only parsing).
Implicit Types (w : W) (self : BaseNode) (members : gset Identifier) (rs : list Request).
Context (hub : loc) (nodes : gmap Identifier BaseNode) (fuel : nat).
#[local] Set Default Proof Using "Type*".

(** A request run to its end, at the node it is a request of. *)
Definition serve (r : Request) : M W Reply :=
  match r with
  | JoinThrough joiner nonces introducer level =>
      match nodes !! joiner with
      | Some self =>
          _ ← run_alone (join_stage1_link_level0 (Network0 := mock_network fuel) self nonces introducer level);
          mret Joined
      | None => panic
      end
  | SearchFrom member req =>
      match nodes !! member with
      | Some self =>
          res ← run_alone (node_search_by_id (Network0 := mock_network fuel) self req);
          mret (FoundAt (Some (isr_result res)))
      | None => panic
      end
  end.

(** One after the other, errors among the results. *)
Fixpoint serve_all rs w : outcome (list (result Reply) * W) :=
  match rs with
  | [] => Done ([], w)
  | r :: rest =>
      next (serve r w) (λ res w1, next (serve_all rest w1) (λ ress w2, Done (res :: ress, w2)))
  end.

(** The world stands for the set: the members form a skip graph, the others have not
    joined, and nobody waits. *)
Record represents members w : Prop := {
  rp_graph : skip_graph hub nodes members w;
  rp_idle i b n : nodes !! i = Some b → waiter_map (request_id_map b) w !! n = None;
  rp_new i b l d : nodes !! i = Some b → i ∉ members → node_slots w b l d = None
}.

(** What an operation of [self] leaves of that. *)
Lemma still_idle members self w w' :
  represents members w → nodes !! node_id self = Some self →
  waiter_map (request_id_map self) w' = waiter_map (request_id_map self) w →
  no_new_waiters (λ rm, rm ≠ request_id_map self) w w' →
  ∀ i b n, nodes !! i = Some b → waiter_map (request_id_map b) w' !! n = None.
Proof.
  intros [_ Hidle _] Hself Em Hw i b n Hb.
  destruct (decide (request_id_map b = request_id_map self)) as [->|Hne];
    [rw Em; by eapply Hidle|].
  apply eq_None_not_Some. intros Hn%(Hw _ _ Hne). by rw (Hidle i b n Hb) in Hn; destruct Hn.
Qed.

Lemma represents_settled members self w w' :
  represents members w → nodes !! node_id self = Some self → settled self w w' →
  no_new_waiters (λ rm, rm ≠ request_id_map self) w w' → represents members w'.
Proof.
  intros Hr Hself Hset Hw. pose proof Hr as [Hg _ Hnew]. split.
  - by eapply sg_settled.
  - by eapply still_idle; [..|apply Hset|].
  - intros i b l d Hb Hi. rw (same_tables_slots w w' b (proj1 Hset)). by eapply Hnew.
Qed.

Context (Hfuel : size nodes + 2 ≤ fuel).

Lemma member_fuel members w : skip_graph hub nodes members w → size members + 2 ≤ fuel.
Proof.
  intros Hg. pose proof (subseteq_size _ _ (sg_members _ _ _ _ Hg)) as Hle. rw size_dom in Hle. lia.
Qed.

Lemma node_at members i w :
  skip_graph hub nodes members w → i ∈ dom nodes → ∃ self, nodes !! i = Some self ∧ node_id self = i.
Proof.
  intros Hg [self Hself]%elem_of_dom. exists self. split; [done|].
  by eapply reg_id, ov_registered; [eapply sg_overlay|].
Qed.

Lemma serve_join members joiner nonces introducer level w :
  represents members w → admissible (dom nodes) members (JoinThrough joiner nonces introducer level) →
  ∃ w', serve (JoinThrough joiner nonces introducer level) w
      = Done (reply members (JoinThrough joiner nonces introducer level), w')
    ∧ represents ({[joiner]} ∪ members) w'.
Proof.
  intros Hr (Hj & Hi & Hne & Hl). pose proof Hr as [Hg Hidle Hnew].
  destruct (node_at members joiner w Hg Hj) as (self & Hself & <-). cbn [serve reply]. rw Hself.
  assert (Hf : fresh_nonces self nonces w) by (intros n _; by eapply Hidle).
  pose proof (join_fewer fuel self nonces introducer level w) as Hw.
  pose proof (member_fuel members w Hg) as Hm. case_decide as Hin.
  - destruct (join_refused hub nodes members self w nonces introducer level fuel)
      as (w' & E & Hset); [done..|]. exists w'. rw /mbind /M_bind E. split; [done|].
    assert (({[node_id self]} ∪ members : gset Identifier) = members) as ->
      by (apply subseteq_union_1_L; by apply singleton_subseteq_l).
    eapply represents_settled; [done..|]. by eapply Hw.
  - destruct (join_run hub nodes members self w nonces introducer level fuel)
      as (w' & E & Hg' & Em & He); [done|done|done|by intros l d; eapply Hnew|done..|].
    exists w'. rw /mbind /M_bind E. split; [done|]. split; [done| |].
    + eapply still_idle; [done..|]. by eapply Hw.
    + intros i b l d Hb Hi'. rw (He i b Hb Hi'). apply (Hnew i); [done|set_solver].
Qed.

Lemma serve_search members member req w :
  represents members w → admissible (dom nodes) members (SearchFrom member req) →
  ∃ w', serve (SearchFrom member req) w = Done (reply members (SearchFrom member req), w')
    ∧ represents members w'.
Proof.
  intros Hr (Hm & Hreach & Hl). pose proof Hr as [Hg Hidle Hnew].
  destruct (node_at members member w Hg) as (self & Hself & <-); [by eapply sg_members|].
  cbn [serve reply]. rw Hself.
  destruct (search_run hub nodes members self w req fuel)
    as (res & w' & E & (_ & _ & Hc) & Hset); [done..|by eapply Hidle|by eapply member_fuel|].
  exists w'. rw /mbind /M_bind E (closest_member_spec _ _ _ _ Hc). split; [done|].
  eapply represents_settled; [done..|]. by eapply search_fewer.
Qed.

Lemma serve_refines members r w :
  represents members w → admissible (dom nodes) members r →
  ∃ w', serve r w = Done (reply members r, w') ∧ represents (after members r) w'.
Proof. destruct r; [apply serve_join|apply serve_search]. Qed.

Lemma serve_all_refines members rs w :
  represents members w → all_admissible (dom nodes) members rs →
  ∃ w', serve_all rs w = Done (replies members rs, w') ∧ represents (after_all members rs) w'.
Proof.
  revert members w. induction rs as [|r rs IH]; intros members w Hr; cbn [all_admissible].
  - intros _. by exists w.
  - intros [Ha Hrest]. destruct (serve_refines members r w Hr Ha) as (w1 & E1 & Hr1).
    destruct (IH _ w1 Hr1 Hrest) as (w2 & E2 & Hr2). exists w2. cbn [serve_all].
    by rw E1 /= E2.
Qed.

(** ** The tests' assertion, on all members *)

(** Identifiers in ascending order, and the tables behind them. *)
Definition ascending members : list Identifier := sort (elements members).
Definition member_tables w (ids : list Identifier) : list L :=
  omap (λ i, b ← nodes !! i; tables w !! core_lt (core b)) ids.

Lemma member_tables_lookup members w (ids : list Identifier) :
  skip_graph hub nodes members w → Forall (λ i, i ∈ members) ids →
  length ids = length (member_tables w ids)
  ∧ ∀ k i t, ids !! k = Some i → member_tables w ids !! k = Some t →
      lt_wf t ∧ ∀ d, next_id nodes w i d = id <$> slots t 0 d.
Proof using Type*.
  intros Hg Hids. induction Hids as [|i ids Hi Hids [Hlen IH]]; [by split; [|intros k i t; rw lookup_nil]|].
  destruct (node_at members i w Hg) as (b & Hb & _); [by eapply sg_members|].
  destruct (table_ok_slots w b) as (t & Et & Hwf & Es); [by eapply ov_table; [eapply sg_overlay|]|].
  rw /member_tables /= Hb /= Et /= -/(member_tables w ids). split; [by rw Hlen|].
  intros [|k] i' t'; [|apply IH]. intros [= <-] [= <-]. split; [done|].
  intros d. by rw /next_id Hb /= Es.
Qed.

Lemma skip_graph_asserted members w :
  skip_graph hub nodes members w →
  assert_doubly_linked_at_level (ascending members) (member_tables w (ascending members)) 0 = true.
Proof.
  intros Hg. assert (Hin : ∀ i, i ∈ ascending members ↔ i ∈ members).
  { intros i. by rw /ascending sort_permutation elem_of_elements. }
  destruct (member_tables_lookup members w (ascending members) Hg) as [Hlen Hall].
  { apply Forall_forall. intros i. apply Hin. }
  apply (linked_asserted _ _ 0 (next_id nodes w)).
  - apply sort_ascending, NoDup_elements.
  - done.
  - apply Forall_lookup. intros k t Ht.
    destruct (lookup_lt_is_Some_2 (ascending members) k) as [i Hi]; [rw Hlen; by eapply lookup_lt_Some|].
    by apply (Hall k i t).
  - change (0 < 256); lia.
  - intros k i t d Hi Ht. by apply (Hall k i t).
  - assert (list_to_set (ascending members) = members) as ->.
    { apply set_eq. intros i. by rw elem_of_list_to_set Hin. }
    apply linked_level0_iff; [by eapply sg_members|by eapply sg_linked].
Qed.

(** Nodes that were only started: the first of them is a skip graph by itself. *)
Lemma started_represents i w :
  overlay hub nodes w → i ∈ dom nodes →
  (∀ j b l d, nodes !! j = Some b → node_slots w b l d = None) →
  (∀ j b n, nodes !! j = Some b → waiter_map (request_id_map b) w !! n = None) →
  represents {[i]} w.
Proof using Type.
  intros Hov Hi Hempty Hidle. split; [|done|by intros j b l d Hb _; eapply Hempty]. split; [done| |..].
  - by apply singleton_subseteq_l.
  - intros j b Hb. split; intros l d e; by rw (Hempty j b).
  - intros j b l d e _ Hb. by rw (Hempty j b).
  - intros j b d Hj Hb. rw (Hempty j b 0 d Hb). intros j' Hj'.
    apply elem_of_singleton in Hj as ->. apply elem_of_singleton in Hj' as ->. apply beyond_irrefl.
Qed.

(** C2: the overlay is a sorted set. Nodes that were only started represent the set of
    one of them. In a world that represents a set of members, any sequence of joins
    (through members, of nodes that may already be members) and of searches from
    members, each run to its end before the next on the in-memory network, terminates
    with exactly the replies of the set: a join inserts the node or, if it is a member,
    is refused; a search finds the closest member that is not past the target. The
    world then represents the set after the requests, and the tables of its members
    pass the tests' assertion that they form one doubly linked list at level 0. *)
Theorem overlay_refines_set members rs :
  (∀ i w, overlay hub nodes w → i ∈ dom nodes →
     (∀ j b l d, nodes !! j = Some b → node_slots w b l d = None) →
     (∀ j b n, nodes !! j = Some b → waiter_map (request_id_map b) w !! n = None) →
     represents {[i]} w)
  ∧ ∀ w, represents members w → all_admissible (dom nodes) members rs →
      ∃ w', serve_all rs w = Done (replies members rs, w')
        ∧ represents (after_all members rs) w'
        ∧ assert_doubly_linked_at_level (ascending (after_all members rs))
            (member_tables w' (ascending (after_all members rs))) 0 = true.
Proof.
  split; [apply started_represents|]. intros w Hr Ha.
  destruct (serve_all_refines members rs w Hr Ha) as (w' & E & Hr'). exists w'.
  split; [exact E|]. split; [exact Hr'|]. apply skip_graph_asserted, Hr'.
Qed.
End sessions.

(** ** Node 7 joins node 2, 5 and 9, and they search *)
Module SessionSample.
Import OverlaySample.

Definition requests : list Request :=
  [SearchFrom (id n9) (MkIdSearchReq (MkNonce 1) (Sample.ident x08) (id n9) 3 Left);
   SearchFrom (id n2) (MkIdSearchReq (MkNonce 1) (Sample.ident x08) (id n2) 3 Right);
   JoinThrough (id n7) JoinSample.nonces (id n2) 1;
   JoinThrough (id n5) JoinSample.nonces (id n7) 0;
   SearchFrom (id n2) (MkIdSearchReq (MkNonce 1) (Sample.ident x08) (id n2) 3 Right)].

Lemma represents_members : represents 0 nodes members world.
Proof.
  split; [apply JoinSample.overlay_skip_graph| |].
  - intros i b n _. rw /waiter_map.
    assert (E : Forall (λ x, x.2 = ∅) (map_to_list (waiters world))) by decided.
    destruct (waiters world !! request_id_map b) as [m|] eqn:Em; [|apply lookup_empty].
    rw Forall_forall in E. apply elem_of_map_to_list, E in Em. cbn in Em. rw Em /=. apply lookup_empty.
  - intros i b l d Hb. revert l d. revert i b Hb.
    refine (nodes_cases _ _ _ _ _); intros l d Hi; try (destruct Hi; apply elem_of_members; decided).
    apply JoinSample.overlay_empty.
Qed.

Lemma requests_admissible : all_admissible (dom nodes) members requests.
Proof.
  cbn [all_admissible requests admissible isq_direction isq_target isq_level].
  split_and!; first [done|by apply Nat.ltb_lt|decided].
Qed.
End SessionSample.

(** Before node 7 joins, 9 and 5 are closest to 8; then 7 is; and 5 cannot join again. *)
Lemma overlay_refines_set_witness :
  ∃ w', serve_all OverlaySample.nodes 6 SessionSample.requests OverlaySample.world
      = Done ([Ok (FoundAt (Some (id OverlaySample.n9))); Ok (FoundAt (Some (id OverlaySample.n5)));
               Ok Joined; Err taken; Ok (FoundAt (Some (id OverlaySample.n7)))], w').
Proof.
  destruct (overlay_refines_set 0 OverlaySample.nodes 6) with
    (members := OverlaySample.members) (rs := SessionSample.requests) as [_ Hall].
  - vm_compute. reflexivity.
  - destruct (Hall OverlaySample.world) as (w' & E & _).
    + exact SessionSample.represents_members.
    + exact SessionSample.requests_admissible.
    + exists w'. rw E. reflexivity.
Defined.
