(* ===== verification/Typing.v ===== *)
(** * Schedules never panic

    The model panics where a value of the wrong type arrives on a channel, where a table
    is missing or where a future is woken that does not wait. A typing of channels rules
    this out: each channel carries one kind of reply, the kind of the waiter that holds
    its sender. Every schedule of the nodes' operations then runs to its end, and with
    [Concurrent] keeps the tables truthful. *)
From S2P Require Import Prelude Bytes Model LookupTable Core World BaseNode Hub Overlay Handlers Routing Safety Linking Async NodeOps Join Transport Interleaving Concurrent.
From S2P Require Import Identifier.

#[local] Set Warnings "-register-all".

(** ** Kinds of replies *)
Inductive Kind : Type := SearchKind | MaxLevelKind | NeighborKind | LinkKind.
#[global] Instance kind_eq_dec : EqDecision Kind.
Proof. solve_decision. Defined.

Definition reply_kind (r : Reply) : Kind :=
  match r with
  | ReplySearch _ => SearchKind
  | ReplyMaxLevel _ => MaxLevelKind
  | ReplyNeighbor _ => NeighborKind
  | ReplyLink _ => LinkKind
  end.
Definition waiter_kind (x : Waiter) : Kind :=
  match x with
  | AsyncSearch _ => SearchKind
  | MaxLevel _ => MaxLevelKind
  | Neighbor _ => NeighborKind
  | Link _ _ _ => LinkKind
  end.

(** The kind of a payload type. *)
Class Kinded (A : Type) `{Payload A} : Type := {
  kind : Kind;
  of_kind r : reply_kind r = kind → is_Some (of_reply r);
  kind_of a : reply_kind (to_reply a) = kind
}.
Arguments kind _ {_ _}.
#[global] Instance search_kinded : Kinded IdSearchRes.
Proof. refine {| kind := SearchKind |}; [intros [] ?; try done; by eexists|done]. Defined.
#[global] Instance max_level_kinded : Kinded MaxLevelRes.
Proof. refine {| kind := MaxLevelKind |}; [intros [] ?; try done; by eexists|done]. Defined.
#[global] Instance neighbor_kinded : Kinded NeighborRes.
Proof. refine {| kind := NeighborKind |}; [intros [] ?; try done; by eexists|done]. Defined.
#[global] Instance link_kinded : Kinded LinkRes.
Proof. refine {| kind := LinkKind |}; [intros [] ?; try done; by eexists|done]. Defined.

(** What typing needs of [oneshot]: new channels are new, and what is received was
    sent. *)
Class OneshotValues `{Oneshot} : Type := {
  chan_known : Chans → gset loc;
  known_new s : ((chan_new s).1 ∉ chan_known s)
    ∧ chan_known (chan_new s).2 = {[(chan_new s).1]} ∪ chan_known s;
  known_send c v s : chan_known (chan_send c v s).2 = chan_known s;
  known_drop_sender c s : chan_known (chan_drop_sender c s) = chan_known s;
  known_drop_receiver c s : chan_known (chan_drop_receiver c s) = chan_known s;
  poll_new s c r : chan_poll c (chan_new s).2 = Received r →
    c ≠ (chan_new s).1 ∧ chan_poll c s = Received r;
  poll_send s c v c' r : chan_poll c' (chan_send c v s).2 = Received r →
    (c' = c ∧ r = v) ∨ chan_poll c' s = Received r;
  poll_drop_sender s c c' r : chan_poll c' (chan_drop_sender c s) = Received r →
    chan_poll c' s = Received r;
  poll_drop_receiver s c c' r : chan_poll c' (chan_drop_receiver c s) = Received r →
    chan_poll c' s = Received r
}.

#[global] Instance map_oneshot_values : @OneshotValues MapOneshot.oneshot.
Proof.
  refine {| chan_known := λ s : @Chans MapOneshot.oneshot, dom (s : gmap loc ChanState) |}; simpl.
  - intros s. split; [apply is_fresh|apply dom_insert_L].
  - intros c v s. destruct (s !! c) as [[]|] eqn:E; try done. simpl. apply dom_insert_lookup_L. by eexists.
  - intros c s. destruct (s !! c) as [[]|] eqn:E; try done. apply dom_insert_lookup_L. by eexists.
  - intros c s. destruct (s !! c) as [x|] eqn:E; [|done]. apply dom_insert_lookup_L. by eexists.
  - intros s c r. destruct (decide (c = fresh (dom s))) as [->|Hne].
    + by rw lookup_insert_eq.
    + by rw lookup_insert_ne.
  - intros s c v c' r. destruct (s !! c) as [[]|] eqn:E; try by right. simpl.
    destruct (decide (c' = c)) as [->|Hne]; [rw lookup_insert_eq; intros [= ->]; by left|].
    rw lookup_insert_ne; [done|]. by right.
  - intros s c c' r. destruct (s !! c) as [[]|] eqn:E; try done.
    destruct (decide (c' = c)) as [->|Hne]; [by rw lookup_insert_eq|by rw lookup_insert_ne].
  - intros s c c' r. destruct (s !! c) as [x|] eqn:E; [|done].
    destruct (decide (c' = c)) as [->|Hne]; [by rw lookup_insert_eq|by rw lookup_insert_ne].
Defined.

(** ** Suspended computations that never panic *)

(** What is known at a point of a schedule, the kinds of the channels made so far among
    it: how it grows whoever acts, and how a computation may let it grow. *)
Class Knowledge (X : Type) : Type := {
  typing : X → gmap loc Kind;
  grows : relation X;
  learns : relation X;
  grows_preorder :: PreOrder grows;
  learns_preorder :: PreOrder learns;
  learns_grows x y : learns x y → grows x y;
  grows_typing x y : grows x y → typing x ⊆ typing y
}.

(** The kinds alone. *)
#[global] Instance kinds_knowledge : Knowledge (gmap loc Kind).
Proof. by refine {| typing := λ G, G; grows := (⊆); learns := (⊆) |}. Defined.

Section safe.
Context `{Oneshot} {L N : Type} `{Knowledge X}.
Abbreviation W := (World L N) (only parsing).
(** The invariant, under what is known. *)
Context (I : X → World L N → Prop).
Implicit Types (G : X) (w : World L N).

Lemma grows_trans G1 G2 G3 : grows G1 G2 → grows G2 G3 → grows G1 G3.
Proof. apply transitivity. Qed.
Lemma learns_trans G1 G2 G3 : learns G1 G2 → learns G2 G3 → learns G1 G3.
Proof. apply transitivity. Qed.
#[local] Ltac grown := first [reflexivity|eauto using grows_trans, learns_trans, learns_grows].

(** [t] can be woken by [wk]. *)
Definition wakes G (t : Trigger) (wk : Wake) : Prop :=
  match t, wk with
  | Unstarted, Started => True
  | Waiting c, Woken r => typing G !! c = Some (reply_kind r)
  | Waiting _, Disconnected | Waiting _, TimedOut => True
  | _, _ => False
  end.

Inductive safe {A} : X → Co L N A → Prop :=
| safe_ready G r : safe G (Ready r)
| safe_suspended G bs cancel :
    (∀ G' w, grows G G' → I G' w → I G' (cancel w)) →
    (∀ t f G' w wk, (t, f) ∈ bs → grows G G' → I G' w → wakes G' t wk →
       ∃ c w' G2, f wk w = Done (c, w') ∧ learns G' G2 ∧ I G2 w' ∧ safe G2 c) →
    safe G (Suspended bs cancel).

Definition ends_safe {A} G (o : outcome (Co L N A * W)) : Prop :=
  ∃ c w' G2, o = Done (c, w') ∧ learns G G2 ∧ I G2 w' ∧ safe G2 c.

(** [m] runs, from any later world. *)
Definition total {A} G (m : Async L N A) : Prop :=
  ∀ G' w, grows G G' → I G' w → ends_safe G' (m w).

Lemma safe_induct {A} (P : X → Co L N A → Prop) :
  (∀ G r, P G (Ready r)) →
  (∀ G bs cancel,
     (∀ G' w, grows G G' → I G' w → I G' (cancel w)) →
     (∀ t f G' w wk, (t, f) ∈ bs → grows G G' → I G' w → wakes G' t wk →
       ∃ c w' G2, f wk w = Done (c, w') ∧ learns G' G2 ∧ I G2 w' ∧ safe G2 c ∧ P G2 c) →
     P G (Suspended bs cancel)) →
  ∀ G c, safe G c → P G c.
Proof.
  intros Hr Hs. fix IH 3. intros G c [G0 r|G0 bs cancel Hc Hstep]; [apply Hr|].
  apply Hs; [exact Hc|]. intros t f G' w wk Hin HG Hw Hwk.
  destruct (Hstep t f G' w wk Hin HG Hw Hwk) as (c' & w' & G2 & E & HG2 & Hw2 & Hsafe).
  exists c', w', G2. split; [exact E|]. split; [exact HG2|]. split; [exact Hw2|].
  split; [exact Hsafe|by apply IH].
Qed.

Lemma safe_mono {A} G G' (c : Co L N A) : grows G G' → safe G c → safe G' c.
Proof.
  intros HG Hc. destruct Hc as [G0 r|G0 bs cancel Hcan Hstep]; [constructor|]. constructor.
  - intros G2 w HG2. apply Hcan. grown.
  - intros t f G2 w wk Hin HG2. apply Hstep; [done|]. grown.
Qed.

Lemma total_mono {A} G G' (m : Async L N A) : grows G G' → total G m → total G' m.
Proof. intros HG Hm G2 w HG2. apply Hm. grown. Qed.

(** A synchronous part that keeps the invariant. *)
Lemma total_sync {A} G (m : M W A) :
  (∀ G' w, grows G G' → I G' w → ∃ r w', m w = Done (r, w') ∧ I G' w') → total G (sync m).
Proof.
  intros Hm G' w HG Hw. destruct (Hm G' w HG Hw) as (r & w' & E & Hw').
  exists (Ready r), w', G'. rw /sync E. split_and!; [done..|constructor].
Qed.

Lemma total_of {A} G (r : result A) : total G (async_of r).
Proof. intros G' w HG Hw. exists (Ready r), w, G'. split_and!; [done..|constructor]. Qed.

Lemma co_bind_total {A B} G (c : Co L N A) (k : A → Async L N B) :
  safe G c → (∀ a, total G (k a)) → total G (co_bind c k).
Proof.
  intros Hc. revert G c Hc.
  apply (safe_induct (λ G c, (∀ a, total G (k a)) → total G (co_bind c k))).
  - intros G [a|e] Hk; [apply Hk|]. intros G' w HG Hw. eexists _, _, _. split_and!; [done..|constructor].
  - intros G bs cancel Hcan IH Hk G' w HG Hw. cbn [co_bind]. eexists _, w, G'. split_and!; [done..|].
    constructor; [intros G2 w2 HG2; apply Hcan; grown|].
    intros t f G2 w2 wk Hin HG2 Hw2 Hwk. apply list_elem_of_fmap in Hin as ([t0 f0] & [= -> ->] & Hin).
    destruct (IH t0 f0 G2 w2 wk Hin) as (c' & w' & G3 & E & HG3 & Hw3 & _ & Ht); [grown|done..|].
    rw E /=. destruct (Ht (λ a, total_mono G G3 (k a) ltac:(grown) (Hk a)) G3 w') as
      (c2 & w4 & G4 & E4 & HG4 & Hw4 & Hs4); [done..|].
    exists c2, w4, G4. split_and!; [done|grown|done..].
Qed.

Lemma total_bind {A B} G (m : Async L N A) (k : A → Async L N B) :
  total G m → (∀ a, total G (k a)) → total G (m ≫= k).
Proof.
  intros Hm Hk G' w HG Hw. rw /mbind /async_bind.
  destruct (Hm G' w HG Hw) as (c & w1 & G1 & -> & HG1 & Hw1 & Hc). simpl.
  destruct (co_bind_total G1 c k Hc) with G1 w1 as (c2 & w2 & G2 & E & HG2 & Hw2 & Hc2); [|done..|].
  - intros a. eapply total_mono, Hk. grown.
  - exists c2, w2, G2. split_and!; [done|grown|done..].
Qed.

Lemma co_finally_total {A} G (c : Co L N A) (f : W → W) :
  safe G c → (∀ G' w, grows G G' → I G' w → I G' (f w)) → total G (co_finally c f).
Proof.
  intros Hc. revert G c Hc.
  apply (safe_induct (λ G c, (∀ G' w, grows G G' → I G' w → I G' (f w)) → total G (co_finally c f))).
  - intros G r Hf G' w HG Hw. eexists _, _, G'. split_and!; [done..|by apply Hf|constructor].
  - intros G bs cancel Hcan IH Hf G' w HG Hw. cbn [co_finally]. eexists _, w, G'. split_and!; [done..|].
    constructor.
    { intros G2 w2 HG2 Hw2. apply Hf; [grown|]. apply Hcan; [grown|done]. }
    intros t g G2 w2 wk Hin HG2 Hw2 Hwk. apply list_elem_of_fmap in Hin as ([t0 g0] & [= -> ->] & Hin).
    destruct (IH t0 g0 G2 w2 wk Hin) as (c' & w' & G3 & E & HG3 & Hw3 & _ & Ht); [grown|done..|].
    rw E /=. destruct Ht with G3 w' as (c2 & w4 & G4 & E4 & HG4 & Hw4 & Hs4); [|done..|].
    + intros G4 w4 HG4. apply Hf. grown.
    + exists c2, w4, G4. split_and!; [done|grown|done..].
Qed.

Lemma total_finally {A} G (m : Async L N A) (f : W → W) :
  total G m → (∀ G' w, grows G G' → I G' w → I G' (f w)) → total G (finally m f).
Proof.
  intros Hm Hf G' w HG Hw. rw /finally.
  destruct (Hm G' w HG Hw) as (c & w1 & G1 & -> & HG1 & Hw1 & Hc). simpl.
  destruct (co_finally_total G1 c f Hc) with G1 w1 as (c2 & w2 & G2 & E & HG2 & Hw2 & Hc2); [|done..|].
  - intros G2 w2 HG2. apply Hf. grown.
  - exists c2, w2, G2. split_and!; [done|grown|done..].
Qed.

Lemma total_timeout {A} `{Kinded A} G (rx : Receiver A) :
  typing G !! receiver_chan rx = Some (kind A) →
  (∀ G' w, grows G G' → I G' w → I G' (drop_receiver rx w)) → total G (timeout rx).
Proof.
  intros Hrx Hd G' w HG Hw. eexists _, w, G'. split_and!; [done..|]. constructor.
  { intros G2 w2 HG2. apply Hd. grown. }
  intros t f G2 w2 wk [= -> ->]%list_elem_of_singleton HG2 Hw2 Hwk.
  assert (Hdone : ∀ o, ∃ c w' G3, (Done (Ready (Ok o), drop_receiver rx w2) : outcome (Co L N (Awaited A) * W))
      = Done (c, w') ∧ learns G2 G3 ∧ I G3 w' ∧ safe G3 c).
  { intros o. eexists _, _, G2. split_and!; [done..| |constructor]. apply Hd; [grown|done]. }
  destruct wk as [|r| |]; simpl in Hwk; try done.
  assert (Hk : reply_kind r = kind A).
  { rw (lookup_weaken _ (typing G2) _ _ Hrx (grows_typing G G2 ltac:(grown))) in Hwk. by injection Hwk. }
  destruct (of_kind r Hk) as [a ->]. apply Hdone.
Qed.

Lemma unstarted_safe {A} G (m : Async L N A) : total G m → safe G (unstarted m).
Proof.
  intros Hm. constructor; [done|].
  intros t f G' w wk [= -> ->]%list_elem_of_singleton HG Hw _. by apply Hm.
Qed.

Lemma co_join_safe {A B} G (c1 : Co L N A) (c2 : Co L N B) :
  safe G c1 → safe G c2 → safe G (co_join c1 c2).
Proof.
  intros H1. cut (∀ G' (c2 : Co L N B), grows G G' → safe G' c2 → safe G' (co_join c1 c2)).
  { intros Hc H2. by apply (Hc G c2); [reflexivity|]. }
  clear c2. revert G c1 H1.
  apply (safe_induct (λ G (c1 : Co L N A), ∀ G' (c2 : Co L N B), grows G G' → safe G' c2 → safe G' (co_join c1 c2))).
  - intros G r1 G' c2 _. revert G' c2. apply (safe_induct (λ G (c2 : Co L N B), safe G (co_join (Ready r1) c2))).
    + intros G0 r2. constructor.
    + intros G0 bs cancel Hcan IH. constructor; [done|]. intros t f G' w wk Hin HG Hw Hwk.
      apply list_elem_of_fmap in Hin as ([t0 f0] & [= -> ->] & Hin).
      destruct (IH t0 f0 G' w wk Hin HG Hw Hwk) as (c & w' & G2 & -> & HG2 & Hw2 & _ & Hs).
      simpl. by eexists _, _, G2.
  - intros G bs1 cancel1 Hcan1 IH1 G' c2 HG H2. revert HG. revert G' c2 H2.
    apply (safe_induct (λ G' (c2 : Co L N B), grows G G' → safe G' (co_join (Suspended bs1 cancel1) c2))).
    + intros G' r2 HG. constructor; [intros G2 w HG2; apply Hcan1; grown|].
      intros t f G2 w wk Hin HG2 Hw Hwk.
      apply list_elem_of_fmap in Hin as ([t0 f0] & [= -> ->] & Hin).
      destruct (IH1 t0 f0 G2 w wk Hin) as (c & w' & G3 & -> & HG3 & Hw3 & _ & Hs); [grown|done..|].
      simpl. eexists _, _, G3. split_and!; [done..|]. apply Hs; [done|constructor].
    + intros G' bs2 cancel2 Hcan2 IH2 HG. constructor.
      { intros G2 w HG2 Hw. apply Hcan2; [done|]. apply Hcan1; [grown|done]. }
      intros t f G2 w wk Hin HG2 Hw Hwk.
      apply elem_of_app in Hin as [Hin|Hin]; apply list_elem_of_fmap in Hin as ([t0 f0] & [= -> ->] & Hin).
      * destruct (IH1 t0 f0 G2 w wk Hin) as (c & w' & G3 & -> & HG3 & Hw3 & _ & Hs); [grown|done..|].
        simpl. eexists _, _, G3. split_and!; [done..|]. apply Hs; [done|].
        apply (safe_mono G'); [grown|]. constructor; [done|].
        intros t' f' G4 w4 wk' Hin' HG4 Hw4 Hwk'.
        destruct (IH2 t' f' G4 w4 wk' Hin' HG4 Hw4 Hwk') as (c' & w5 & G5 & ? & ? & ? & ? & _).
        by exists c', w5, G5.
      * destruct (IH2 t0 f0 G2 w wk Hin HG2 Hw Hwk) as (c & w' & G3 & -> & HG3 & Hw3 & _ & Hs).
        simpl. eexists _, _, G3. split_and!; [done..|]. apply Hs. grown.
Qed.

Lemma total_join {A B} G (c1 : Co L N A) (c2 : Co L N B) :
  safe G c1 → safe G c2 → total G (join c1 c2).
Proof.
  intros H1 H2 G' w HG Hw. eexists _, w, G'. split_and!; [done..|].
  apply co_join_safe; by eapply safe_mono.
Qed.
End safe.

(** ** Schedules of such computations *)
Section schedules.
Context `{Oneshot} `{LookupTable L} `{Knowledge X}.
Abbreviation W := (World L (list Envelope)) (only parsing).
Context (own : loc → Identifier) (addr : loc → Address) (nodes : gmap Identifier BaseNode).
Context (I : X → World L (list Envelope) → Prop).
Implicit Types (G : X) (w : W).
(** The invariant knows what arrives on channels and survives the network. *)
Context (Hpoll : ∀ G t w x, I G w → poll_trigger t w = Some x → wakes G t x).
Context (Hdeliver : ∀ G n w, I G w →
  ∃ r w', deliver_nth own addr nodes n w = Done (r, w') ∧ I G w').
Context (Hfewer : ∀ G w f, (∀ e, e ∈ f (network w) → e ∈ network w) → I G w → I G (set_network f w)).

Definition safe_task {A} G (t : option (Co L (list Envelope) A)) : Prop :=
  match t with Some c => safe I G c | None => True end.

Lemma safe_tasks_mono {A} G G' (ts : list (option (Co L (list Envelope) A))) :
  grows G G' → Forall (safe_task G) ts → Forall (safe_task G') ts.
Proof using Type.
  intros HG Ht. eapply Forall_impl; [exact Ht|]. intros [c|]; [by apply safe_mono|done].
Qed.

(** What a step of a schedule ends in. *)
Definition steps_on {A} G (o : outcome (list (option (Co L (list Envelope) A)) * W)) : Prop :=
  ∃ ts w G', o = Done (ts, w) ∧ learns G G' ∧ I G' w ∧ Forall (safe_task G') ts.

Lemma stays {A} G (ts : list (option (Co L (list Envelope) A))) w :
  I G w → Forall (safe_task G) ts → steps_on G (Done (ts, w)).
Proof using Type. intros Hw Ht. exists ts, w, G. by split_and!. Qed.

Lemma on_task_total {A} G i k wk (ts : list (option (Co L (list Envelope) A))) w :
  (∀ t x, wk t w = Some x → wakes G t x) →
  I G w → Forall (safe_task G) ts → steps_on G (on_task i (wake k wk) ts w).
Proof using Type.
  intros Hwk Hw Ht. pose proof (stays G ts w Hw Ht) as Hstay.
  rw /on_task /Tasks. destruct (ts !! i) as [[c|]|] eqn:Ei; [|done..].
  pose proof (Forall_lookup_1 _ _ _ _ Ht Ei) as Hc.
  assert (Hsame : <[i := Some c]> ts = ts) by by apply list_insert_id.
  destruct Hc as [G r|G bs cancel Hcan Hstep]; cbn [wake]; [by rw /next Hsame|].
  destruct (bs !! k) as [[t f]|] eqn:Ek; [|by rw /next Hsame].
  destruct (wk t w) as [x|] eqn:Ex; [|by rw /next Hsame].
  destruct (Hstep t f G w x) as (c' & w' & G2 & -> & HG & Hw' & Hc');
    [by eapply list_elem_of_lookup_2|reflexivity|done|by apply Hwk|].
  exists (<[i := Some c']> ts), w', G2. split_and!; [done..|].
  apply Forall_insert; [by eapply safe_tasks_mono, Ht; apply learns_grows|exact Hc'].
Qed.

Lemma perform_one_total {A} G a (ts : list (option (Co L (list Envelope) A))) w :
  I G w → Forall (safe_task G) ts → steps_on G (perform_one own addr nodes a ts w).
Proof using Hpoll Hdeliver Hfewer.
  intros Hw Ht. destruct a as [i k|i k|i|n|n|n]; cbn [perform_one]; rw /Tasks.
  - apply on_task_total; [|done..]. intros t x. by apply Hpoll.
  - apply on_task_total; [|done..]. by intros [|c] x [= <-].
  - destruct (ts !! i) as [[[r|bs cancel]|]|] eqn:Ei; try by apply stays.
    pose proof (Forall_lookup_1 _ _ _ _ Ht Ei) as Hc. inversion Hc as [|G0 bs0 cancel0 Hcan _]; subst.
    apply stays; [by apply Hcan|by apply Forall_insert].
  - destruct (Hdeliver G n w Hw) as (r & w' & -> & Hw'). by apply stays.
  - apply stays; [|done]. apply Hfewer; [|done]. intros e. apply list_elem_of_delete_inv.
  - apply stays; [|done]. apply Hfewer; [|done]. intros e. rw elem_of_app. intros [?|Hin]; [done|].
    destruct (network w !! n) as [e'|] eqn:En; [|by apply elem_of_nil in Hin].
    apply list_elem_of_singleton in Hin as ->. by eapply list_elem_of_lookup_2.
Qed.

Lemma perform_total {A} acts G (ts : list (option (Co L (list Envelope) A))) w :
  I G w → Forall (safe_task G) ts →
  ∃ ts' w', perform own addr nodes acts ts w = Done (ts', w').
Proof using Hpoll Hdeliver Hfewer.
  revert G ts w. induction acts as [|a acts IH]; intros G ts w Hw Ht; [by exists ts, w|].
  destruct (perform_one_total G a ts w Hw Ht) as (ts1 & w1 & G1 & E & _ & Hw1 & Ht1).
  cbn [perform]. rw E /=. by eapply IH.
Qed.
End schedules.

(** ** Calls under an invariant *)

(** The nonces a call draws. *)
Definition operation_nonces (op : Operation) : list Nonce :=
  match op with
  | CallSearch req => [isq_nonce req]
  | CallMaxLevel nonce _ | CallNeighbor nonce _ _ _ | CallLink nonce _ _ _ => [nonce]
  | CallJoin nonces _ _ =>
      [search_nonce nonces; neighbor_nonce nonces; search_link_nonce nonces; query_link_nonce nonces]
  end.

Section calls.
Context `{Oneshot} `{LookupTable L} `{Knowledge X}.
Abbreviation W := (World L (list Envelope)) (only parsing).
Context (own : loc → Identifier) (addr : loc → Address) (nodes : gmap Identifier BaseNode).
#[local] Instance calls_network : Network BaseNode W := queueing own addr.
Context (I : X → World L (list Envelope) → Prop) (self : BaseNode) (free : Nonce → Prop).
(** That a request waits on a channel, for a reply of a kind. *)
Context (waits_on : X → loc → Kind → Prop).
Implicit Types (G : X) (w : W).

(** A waiter of one kind. *)
Definition waiter_for {P} `{Kinded P} (mk : Sender P → Waiter) : Prop :=
  ∀ c, waiter_chan (mk (MkSender c)) = c ∧ waiter_kind (mk (MkSender c)) = kind P.

(** The invariant lets the node's requests begin and end. *)
Record accommodates : Prop := {
  ac_waits G c k : waits_on G c k → typing G !! c = Some k;
  ac_later G G' c k : waits_on G c k → grows G G' → waits_on G' c k;
  ac_begin {P} `{Kinded P} (mk : Sender P → Waiter) nonce dest ev G w :
    free nonce → waiter_for mk → proper (known nodes) ev →
    event_key (MkEnvelope (node_id self) dest ev) = Some (node_id self, nonce) → I G w →
    ∃ G', learns G G' ∧ waits_on G' (new_chan w) (kind P)
      ∧ I G' (set_network (λ q, q ++ [MkEnvelope (own (net self)) dest ev]) (requested self nonce mk w));
  ac_end {P} nonce (rx : Receiver P) k G w :
    free nonce → waits_on G (receiver_chan rx) k → I G w → I G (ended self nonce rx w);
  ac_local req G w : I G w →
    ∃ r w', map_err (wrap "failed to perform search by id {}")
              (on_core self (Core.search_by_id (core self) req)) w = Done (r, w') ∧ I G w'
}.
Context (Hac : accommodates) (Hself : nodes !! node_id self = Some self).
#[local] Set Default Proof Using "Type*".

Lemma request_total {P A} `{Kinded P} (mk : Sender P → Waiter) nonce dest ev (ok : P → A) fs m G :
  is_request self nonce mk dest ev ok fs m → free nonce → waiter_for mk →
  (∀ w, proper (known nodes) (ev w)
     ∧ event_key (MkEnvelope (node_id self) dest (ev w)) = Some (node_id self, nonce)) →
  total I G m.
Proof using Hac.
  intros Hm Hfree Hmk Hev G1 w HG Hw. specialize (Hm w). cbv zeta in Hm.
  set (w1 := requested self nonce mk w) in *. destruct (Hev w1) as [Hp Hk].
  cbn [send_event calls_network queueing modify] in Hm. destruct Hm as (resume & cancel & Em & Hres).
  destruct (ac_begin Hac mk nonce dest (ev w1) G1 w Hfree Hmk Hp Hk Hw) as (G2 & HG2 & Hc & Hw2).
  eexists _, _, G2. split_and!; [exact Em|done|exact Hw2|].
  assert (Hend : ∀ G3 w3, grows G2 G3 → I G3 w3 →
    I G3 (ended self nonce (MkReceiver (A := P) (new_chan w)) w3)).
  { intros G3 w3 HG3 Hw3. eapply (ac_end Hac); [done| |done]. by eapply (ac_later Hac). }
  constructor.
  - intros G3 w3 HG3 Hw3. destruct (Hres w3) as (_ & _ & _ & ->). by apply Hend.
  - intros t f G3 w3 wk [= -> ->]%list_elem_of_singleton HG3 Hw3 Hwk.
    destruct (Hres w3) as (Hans & Hdis & Hout & _).
    assert (Hdone : ∀ r, resume wk w3 = Done (Ready r, ended self nonce (MkReceiver (A := P) (new_chan w)) w3) →
      ∃ c w' G4, resume wk w3 = Done (c, w') ∧ learns G3 G4 ∧ I G4 w' ∧ safe I G4 c).
    { intros r ->. eexists _, _, G3. split_and!; [done|reflexivity|by apply Hend|constructor]. }
    destruct wk as [|r| |]; simpl in Hwk; try done; [|by eapply Hdone..].
    rw (ac_waits Hac _ _ _ (ac_later Hac _ _ _ _ Hc HG3)) in Hwk. injection Hwk as Hwk.
    destruct (of_kind r (eq_sym Hwk)) as [a Ha]. apply to_of_reply in Ha as ->. by eapply Hdone.
Qed.

Lemma max_level_total G nonce dest : free nonce → total I G (get_max_level self nonce dest).
Proof using Hac. intros Hf. by apply (request_total _ _ _ _ _ _ _ _ (get_max_level_request self nonce dest)). Qed.

Lemma search_total G dest nonce target level d :
  free nonce → total I G (send_search_by_id_req self dest nonce target level d).
Proof using Hac.
  intros Hf. by apply (request_total _ _ _ _ _ _ _ _ (search_request self nonce dest target level d)).
Qed.

Lemma neighbor_total G nonce from d level :
  free nonce → total I G (get_neighbor self nonce from d level).
Proof using Hac.
  intros Hf. by apply (request_total _ _ _ _ _ _ _ _ (get_neighbor_request self nonce from d level)).
Qed.

Lemma link_total G nonce dest d level :
  free nonce → total I G (send_link_request self nonce dest d level).
Proof.
  intros Hf. apply (request_total _ _ _ _ _ _ _ _ (link_request self nonce dest d level)); [done..|].
  intros w. split; [|done]. exists self. split; [exact Hself|done].
Qed.

Lemma node_search_total G req : free (isq_nonce req) → total I G (node_search_by_id self req).
Proof using Hac.
  intros Hf. apply total_bind; [apply total_sync; intros G' w _; apply (ac_local Hac)|].
  intros res. case_decide; [apply total_of|by apply search_total].
Qed.

Lemma join_total G nonces introducer level :
  (∀ n, n ∈ operation_nonces (CallJoin nonces introducer level) → free n) →
  total I G (join_stage1_link_level0 self nonces introducer level).
Proof.
  cbn [operation_nonces]. intros Hf%Forall_forall. decompose_Forall_hyps.
  apply total_bind; [repeat case_match; apply total_of|]. intros d.
  apply total_bind; [by apply search_total|]. intros res. cbv zeta.
  case_decide; [apply total_of|]. apply total_bind; [by apply neighbor_total|].
  intros [query|]; [|by apply link_total]. apply total_bind.
  - by apply total_join; apply unstarted_safe, link_total.
  - intros [r1 r2]. apply total_bind; [apply total_of|]. intros _. apply total_of.
Qed.

Lemma call_total G op : (∀ n, n ∈ operation_nonces op → free n) → total I G (call own addr self op).
Proof.
  intros Hf. destruct op; cbn [call].
  1-4: specialize (Hf _ ltac:(by left)).
  - apply total_bind; [by apply node_search_total|intros ?; apply total_of].
  - apply total_bind; [by apply max_level_total|intros ?; apply total_of].
  - apply total_bind; [by apply neighbor_total|intros ?; apply total_of].
  - by apply link_total.
  - by apply join_total.
Qed.
End calls.

(** ** Handlers run to their end *)
Section handlers.
Context `{Oneshot} `{LookupTableSpec L} (own : loc → Identifier) (addr : loc → Address).
Abbreviation W := (World L (list Envelope)) (only parsing).
Implicit Types (w : W) (self : BaseNode) (G : gmap loc Kind).
#[local] Instance net_instance : Network BaseNode W := queueing own addr.

(** A run that neither panics nor touches waiters and channels, and sends only events in
    [K]. *)
Definition quiet (K : Envelope → Prop) {A} (m : M W A) w : Prop :=
  ∃ r w' out, m w = Done (r, w') ∧ waiters w' = waiters w ∧ chans w' = chans w
    ∧ network w' = network w ++ out ∧ Forall K out.

Lemma quiet_silent K {A} (m : M W A) w r w' :
  m w = Done (r, w') → waiters w' = waiters w → chans w' = chans w → network w' = network w →
  quiet K m w.
Proof using Type. intros E Ew Ec En. exists r, w', []. by rw app_nil_r. Qed.

Lemma quiet_bind K {A B} (m : M W A) (k : A → M W B) w :
  quiet K m w → (∀ a w', m w = Done (Ok a, w') → quiet K (k a) w') → quiet K (m ≫= k) w.
Proof using Type.
  intros (r & w1 & o1 & E & Ew & Ec & En & Ho1) Hk. rw /quiet /mbind /M_bind E.
  destruct r as [a|e]; [|by eexists _, _, _].
  destruct (Hk a w1 E) as (r & w2 & o2 & E2 & Ew2 & Ec2 & En2 & Ho2). exists r, w2, (o1 ++ o2).
  rw E2 Ew2 Ec2 En2 En app_assoc. split_and!; [done..|]. by apply Forall_app.
Qed.

Lemma quiet_map_err K {A} f (m : M W A) w : quiet K m w → quiet K (map_err f m) w.
Proof using Type.
  intros (r & w1 & out & E & Hw). rw /quiet /map_err E. by destruct r; eexists _, _, _.
Qed.

Lemma quiet_send K h dest ev w :
  K (MkEnvelope (own h) dest ev) → quiet K (send_event h dest ev) w.
Proof using Type. intros HK. eexists _, _, [_]. split_and!; [done..|]. by apply Forall_singleton. Qed.

Lemma quiet_ret K {A} (a : A) w : quiet K (mret a) w.
Proof using Type. by eapply quiet_silent. Qed.

(** Reads of the table. *)
Lemma quiet_read K {A} self (m : M L A) w :
  table_ok w self → (∀ t, lt_wf t → ∃ r, m t = Done (r, t)) → quiet K (on_core self m) w.
Proof using Type.
  intros (t & Et & Hwf) Hm. destruct (Hm t Hwf) as [r E].
  eapply quiet_silent; [by rw /on_core /on_table Et E|done..].
Qed.

Lemma search_reads self req t :
  lt_wf t → ∃ r, Core.search_by_id (core self) req t = Done (r, t).
Proof using Type*.
  intros Hwf. destruct (decide (isq_level req < LOOKUP_TABLE_LEVELS)) as [Hl|Hl].
  - destruct (search_by_id_in_range (core self) req t Hwf Hl) as (r & l & -> & _). by eexists.
  - destruct (search_by_id_out_of_range (core self) req t Hwf ltac:(lia)) as (e & ->). by eexists.
Qed.

(** The handler of a request sends only the request itself or its reply. *)
Definition same_key (ev : Event) (e : Envelope) : Prop :=
  ∀ o dest, event_key e = event_key (MkEnvelope o dest ev).

(** The local search keeps the nonce and the target. *)
Lemma search_nonce_kept self req w w' f res :
  table_ok w self →
  map_err f (on_core self (Core.search_by_id (core self) req)) w = Done (Ok res, w') →
  res = MkIdSearchRes (isq_nonce req) (isq_target req) (isr_termination_level res) (isr_result res).
Proof using Type*.
  intros (t & Et & Hwf) E. rw /map_err /on_core /on_table Et in E.
  destruct (decide (isq_level req < LOOKUP_TABLE_LEVELS)) as [Hl|Hl].
  - destruct (search_by_id_in_range (core self) req t Hwf Hl) as (r & l & Es & _).
    rw Es in E. by injection E as <- _.
  - destruct (search_by_id_out_of_range (core self) req t Hwf ltac:(lia)) as (e & Es). by rw Es in E.
Qed.

Create HintDb quiet.
#[local] Hint Resolve quiet_map_err quiet_send quiet_ret : quiet.
#[local] Hint Extern 1 (same_key _ _) => done : quiet.

Lemma request_quiet self o ev w :
  table_ok w self → reply_nonce ev = None →
  quiet (same_key ev) (node_process_incoming_event self o ev) w.
Proof using Type*.
  intros Hok Hev. destruct ev as [s|req|res|req|res|req|res|req|res|req|req]; try done;
    cbn [node_process_incoming_event]; try by eapply quiet_silent.
  - apply quiet_bind; [apply quiet_map_err, quiet_read; [done|]; intros t; apply search_reads|].
    intros res w' ->%search_nonce_kept; [|done]. case_decide; auto with quiet.
  - apply quiet_bind; [|intros a w' _; auto with quiet]. apply quiet_map_err, quiet_read; [done|].
    intros t Hwf. destruct (max_level_value (core self) t Hwf) as (l & E & _). by eexists.
  - apply quiet_bind; [|intros a w' _; auto with quiet]. apply quiet_map_err, quiet_read; [done|].
    intros t Hwf. rw /neighbor_entry. destruct (decide (nq_level req < LOOKUP_TABLE_LEVELS)) as [Hl|Hl].
    + rw (get_entry_spec t _ _ Hwf Hl). by eexists.
    + destruct (get_entry_oob t (nq_level req) (nq_direction req) ltac:(lia)) as (e & ->). by eexists.
  - rw /handle_get_link_request. destruct (belongs_in_own_slot _ _ _ _) eqn:Hb; cbn [negb]; [|auto with quiet].
    apply belongs_fits in Hb. apply quiet_bind; [|intros [|existing] w' _].
    + apply quiet_map_err. destruct (on_core_try_link w self (lq_level req) (lq_dir req)
        (lq_candidate req) Hok) as (t' & E & _); [by apply Hb|]. by eapply quiet_silent.
    + apply quiet_bind; [by eapply quiet_silent|]. intros i w2 _. auto with quiet.
    + auto with quiet.
Qed.

(** ** Typed waiters and channels *)
Context `{!OneshotValues}.

Record well_typed G w : Prop := {
  wt_known : dom G ⊆ chan_known (chans w);
  wt_value c r : chan_poll c (chans w) = Received r → G !! c = Some (reply_kind r);
  wt_waiter rm n x : waiter_map rm w !! n = Some x → G !! waiter_chan x = Some (waiter_kind x)
}.

Lemma well_typed_same G w w' :
  waiters w' = waiters w → chans w' = chans w → well_typed G w → well_typed G w'.
Proof using Type. intros Ew Ec [Hk Hv Hw]. split; rw ?Ec; try done. intros rm n x. rw /waiter_map Ew. apply Hw. Qed.

Lemma well_typed_chans G w f :
  chan_known (f (chans w)) = chan_known (chans w) →
  (∀ c r, chan_poll c (f (chans w)) = Received r →
     chan_poll c (chans w) = Received r ∨ G !! c = Some (reply_kind r)) →
  well_typed G w → well_typed G (set_chans f w).
Proof using Type.
  intros Hkn Hp [Hk Hv Hw]. split; simpl; [by rw Hkn| |exact Hw].
  intros c r [Hr|Hr]%Hp; [by apply Hv|done].
Qed.

Lemma well_typed_drop_receiver {A} G (rx : Receiver A) w :
  well_typed G w → well_typed G (drop_receiver rx w).
Proof using Type.
  apply well_typed_chans; [apply known_drop_receiver|]. intros c r Hr. left. by eapply poll_drop_receiver.
Qed.

Lemma well_typed_drop_waiter G o w : well_typed G w → well_typed G (drop_waiter o w).
Proof using Type.
  destruct o as [x|]; [|done].
  apply well_typed_chans; [apply known_drop_sender|]. intros c r Hr. left. by eapply poll_drop_sender.
Qed.

Lemma well_typed_waiters G w rm m :
  (∀ n x, m !! n = Some x → G !! waiter_chan x = Some (waiter_kind x)) →
  well_typed G w → well_typed G (set_waiter_map rm m w).
Proof using Type.
  intros Hm [Hk Hv Hw]. split; [done..|]. intros rm' n x. rw /waiter_map /=.
  destruct (decide (rm' = rm)) as [->|Hne]; [rw lookup_insert_eq; apply Hm|].
  rw lookup_insert_ne; [done|]. apply (Hw rm').
Qed.

Lemma well_typed_guard G self nonce w : well_typed G w → well_typed G (guard self nonce w).
Proof using Type.
  intros Hw. apply well_typed_drop_waiter, well_typed_waiters; [|done].
  intros n x [_ Hx]%lookup_delete_Some. by eapply wt_waiter.
Qed.

Lemma well_typed_insert G self nonce x w :
  G !! waiter_chan x = Some (waiter_kind x) → well_typed G w →
  ∃ r w', insert_waiter (request_id_map self) nonce x w = Done (r, w') ∧ well_typed G w'.
Proof using Type.
  intros Hx Hw. eexists _, _. split; [done|].
  apply well_typed_drop_waiter, well_typed_waiters; [|done].
  intros n y [[_ <-]|[_ Hy]]%lookup_insert_Some; [done|by eapply wt_waiter].
Qed.

Lemma well_typed_resolved G self nonce ev w :
  well_typed G w → well_typed G (resolved self nonce ev w).
Proof using Type.
  intros Hw. rw /resolved. destruct (waiter_map _ _ !! nonce) as [x|] eqn:Ex; [|done].
  destruct (resolves ev x) as [r|] eqn:Er; [|done].
  assert (Hr : G !! waiter_chan x = Some (reply_kind r)).
  { rw (wt_waiter _ _ Hw _ _ _ Ex). f_equal. revert Er.
    destruct ev, x; try done; simpl; [..|case_decide; [|done]]; by intros [= <-]. }
  apply well_typed_chans; [apply known_send| |].
  - intros c r' [[-> ->]|Hc]%poll_send; [by right|by left].
  - apply well_typed_waiters; [|done]. intros n y [_ Hy]%lookup_delete_Some. by eapply wt_waiter.
Qed.

(** Any event, to a node with a table. *)
Lemma process_typed G self o ev w :
  table_ok w self → well_typed G w →
  ∃ r w', node_process_incoming_event self o ev w = Done (r, w') ∧ well_typed G w'.
Proof using Type*.
  intros Hok Hw. destruct (reply_nonce ev) as [nonce|] eqn:En.
  - destruct ev as [| |res| |res| |res| |res| |]; try done; cbn [node_process_incoming_event].
    + eexists _, _. split; [apply search_response_resolved|by apply well_typed_resolved].
    + eexists _, _. split; [apply max_level_response_resolved|by apply well_typed_resolved].
    + eexists _, _. split; [apply neighbor_response_resolved|by apply well_typed_resolved].
    + destruct (set_link_resolved self res w Hok) as (w1 & Ha & ->). eexists _, _. split; [done|].
      apply well_typed_resolved. revert Ha. rw /applied.
      destruct (lr_linked res) as [i|]; [case_decide|]; [|by intros ->..].
      intros (t' & -> & _). by eapply well_typed_same, Hw.
  - destruct (request_quiet self o ev w Hok En) as (r & w' & _ & E & Ew & Ec & _).
    exists r, w'. split; [exact E|by eapply well_typed_same, Hw].
Qed.
End handlers.

(** ** Operations run to their end *)
Section operations.
Context `{OneshotValues} `{LookupTableSpec L}.
Abbreviation W := (World L (list Envelope)) (only parsing).
Context (own : loc → Identifier) (addr : loc → Address) (nodes : gmap Identifier BaseNode).
Implicit Types (w : W) (G : gmap loc Kind).
#[local] Instance queue_instance : Network BaseNode W := queueing own addr.

(** A fair system whose channels carry what their waiters expect. *)
Definition well G w : Prop := fair own nodes w ∧ well_typed G w.

Lemma well_locally G w w' :
  tables w' = tables w → network w' = network w → well_typed G w' → well G w → well G w'.
Proof using Type.
  intros Et En Hw' [[Hs Hn] _]. split; [|done]. split; [by eapply system_tables|by rw En].
Qed.

Lemma well_drop_receiver {A} G (rx : Receiver A) w : well G w → well G (drop_receiver rx w).
Proof using Type. intros Hw. eapply well_locally, Hw; [done..|]. apply well_typed_drop_receiver, Hw. Qed.

Section node.
Context (self : BaseNode) (Hown : own (net self) = node_id self) (Hself : nodes !! node_id self = Some self).
#[local] Set Default Proof Using "Type*".

Lemma well_guard G nonce w : well G w → well G (guard self nonce w).
Proof using Type.
  intros Hw. eapply well_locally, Hw;
    [by rw /guard /guard_drop; destruct (waiter_map _ _ !! nonce)..|]. apply well_typed_guard, Hw.
Qed.

Lemma well_send G f dest ev w :
  proper (known nodes) ev → well G w →
  ∃ w', map_err f (send_event (net self) dest ev) w = Done (Ok tt, w') ∧ well G w'.
Proof using Type.
  intros Hp [Hf Hw]. eexists. split; [done|]. split; [|by eapply well_typed_same, Hw].
  apply (advances_posted own nodes w _); [|done]. intros Hn.
  apply Forall_app. split; [done|]. by apply Forall_singleton.
Qed.

(** A new channel of some kind. *)
Lemma well_channel G w k :
  well G w → G !! new_chan w = None
  ∧ well (<[new_chan w := k]> G) (set_chans (λ _, (chan_new (chans w)).2) w).
Proof using Type.
  intros [Hf [Hkn Hv Hw]]. destruct (known_new (chans w)) as [Hnew Hall].
  assert (Hc : G !! new_chan w = None) by (apply not_elem_of_dom; intros Hc; by apply Hnew, Hkn).
  split; [done|]. split.
  { by apply (advances_locally own nodes w (set_chans (λ _, (chan_new (chans w)).2) w) eq_refl); [apply Hf|]. }
  split.
  - rw dom_insert_L /= Hall. by apply union_mono_l.
  - intros c' r [Hne Hr]%poll_new. rw lookup_insert_ne; [by apply not_eq_sym|by apply Hv].
  - intros rm n x Hx. eapply lookup_weaken; [by eapply Hw|by apply insert_subseteq].
Qed.

Lemma well_requested {P} `{Kinded P} G nonce (mk : Sender P → Waiter) w :
  waiter_for mk → well G w → well (<[new_chan w := kind P]> G) (requested self nonce mk w).
Proof using Type.
  intros Hmk Hw. destruct (well_channel G w (kind P) Hw) as [_ Hw1]. destruct (Hmk (new_chan w)) as [Ec Ek].
  destruct (well_typed_insert (<[new_chan w := kind P]> G) self nonce (mk (MkSender (new_chan w)))
    (set_chans (λ _, (chan_new (chans w)).2) w)) as (r & w' & E & Hw'); [by rw Ec Ek lookup_insert_eq|apply Hw1|].
  rw insert_requested in E. injection E as _ <-. eapply well_locally, Hw1; [..|exact Hw'];
    by rw /requested; destruct (waiter_map _ _ !! nonce).
Qed.

Lemma well_accommodates :
  accommodates own nodes well self (λ _, True) (λ G c k, G !! c = Some k).
Proof using Type* addr.
  split.
  - done.
  - intros G G' c k Hc HG. by eapply lookup_weaken.
  - intros P ?? mk nonce dest ev G w _ Hmk Hp _ Hw. exists (<[new_chan w := kind P]> G).
    destruct (well_channel G w (kind P) Hw) as [Hc _]. split_and!.
    + by apply insert_subseteq.
    + by rw lookup_insert_eq.
    + destruct (well_send _ (λ e, e) dest ev _ Hp (well_requested G nonce mk w Hmk Hw)) as (w' & E & Hw').
      by injection E as <-.
  - intros P nonce rx k G w _ _ Hw. by apply well_guard, well_drop_receiver.
  - intros req G w [Hf Hw].
    destruct (quiet_map_err (λ _, True) (wrap "failed to perform search by id {}")
      (on_core self (Core.search_by_id (core self) req)) w) as (r & w' & _ & E & Ew & Ec & _).
    { apply quiet_read; [|intros t; apply search_reads]. eapply sy_table; [apply Hf|exact Hself]. }
    exists r, w'. split; [exact E|]. split; [|by eapply well_typed_same, Hw].
    eapply (moves_map_err _ _ (search_moves _ _ _ self
      (member_respectful own addr nodes self Hown Hself) req)), Hf. exact E.
Qed.
End node.

(** ** Schedules run to their end *)
Lemma poll_wakes G t w x : well G w → poll_trigger t w = Some x → wakes G t x.
Proof using Type.
  intros [_ Hw] E. destruct t as [|c]; simpl in E; [by injection E as <-|].
  destruct (chan_poll c (chans w)) as [|r|] eqn:Ep; [done|..]; injection E as <-; [|done].
  by apply (wt_value _ _ Hw).
Qed.

Lemma deliver_total G n w :
  well G w → ∃ r w', deliver_nth own addr nodes n w = Done (r, w') ∧ well G w'.
Proof using Type.
  intros [Hf Hw].
  assert (Hgo : ∃ r w', deliver_nth own addr nodes n w = Done (r, w') ∧ well_typed G w').
  { rw /deliver_nth. destruct (network w !! n) as [e|] eqn:En; [|by exists (Ok tt), w].
    destruct (nodes !! env_to e) as [b|] eqn:Eb.
    - apply process_typed; [|by eapply well_typed_same, Hw].
      eapply table_ok_tables, (sy_table own nodes w), Eb; [done|apply Hf].
    - eexists _, _. split; [done|by eapply well_typed_same, Hw]. }
  destruct Hgo as (r & w' & E & Hw'). exists r, w'. split; [done|]. split; [|done].
  eapply (deliver_advances own addr nodes n), Hf; [|exact E]. intros i b. by apply fair_ids with w.
Qed.

Lemma fewer_well G w f :
  (∀ e, e ∈ f (network w) → e ∈ network w) → well G w → well G (set_network f w).
Proof using Type.
  intros Hf [Hfair Hw]. split; [|by eapply well_typed_same, Hw].
  apply (advances_posted own nodes w _); [|done]. rw !Forall_forall. auto.
Qed.

(** C8: the nodes' own operations keep the tables truthful, however they are scheduled.
    Any number of searches, queries, link requests and joins of any nodes run
    concurrently, with any introducers, targets, levels and nonces; they are resumed
    in any order, time out or are dropped; events are delivered in any order, late,
    lost or more than once, requests still in flight from earlier included. No such
    schedule panics. Throughout, every entry of every node names an existing node with
    its true membership vector, on its slot's side and with its slot's prefix; a
    populated slot is never emptied and its entries only move inward; and what is in
    flight stays sincere. *)
Theorem operations_keep_tables_truthful calls acts G w :
  well G w → (∀ b op, (b, op) ∈ calls → nodes !! node_id b = Some b) →
  ∃ ts w', perform own addr nodes acts (map (spawn own addr) calls) w = Done (ts, w')
    ∧ fair own nodes w' ∧ ∀ i b l d, nodes !! i = Some b →
      (∀ x, node_slots w' b l d = Some x → fits b l d x ∧ known nodes x)
      ∧ ∀ x, node_slots w b l d = Some x →
          ∃ y, node_slots w' b l d = Some y ∧ reaches d (id y) (id x).
Proof.
  intros Hw Hcalls.
  assert (Ht : Forall (safe_task well G) (map (spawn own addr) calls)).
  { apply Forall_fmap, Forall_forall. intros [b op] Hin. pose proof (Hcalls b op Hin) as Hb.
    apply unstarted_safe. eapply (call_total own addr nodes well b (λ _, True)); [|exact Hb|done].
    apply well_accommodates; [|exact Hb]. by apply (fair_ids own nodes w (node_id b)); [apply Hw|]. }
  destruct (perform_total own addr nodes well poll_wakes deliver_total fewer_well acts G _ w Hw Ht)
    as (ts & w' & E). exists ts, w'. split; [exact E|].
  apply advances_truthful; [apply Hw|]. eapply perform_advances, E.
  - intros i b. apply (fair_ids own nodes w), Hw.
  - eapply spawned_respectful, Hcalls. apply Hw.
Qed.
End operations.

(** ** A schedule on the sample nodes

    Node 7 joins and node 5 asks node 9 for its level, with the two sample requests in
    flight. *)
Module ConcurrentSample.
Import OverlaySample.
Definition calls : list (BaseNode * Operation) :=
  [(node 3 n7, CallJoin (MkJoinNonces (MkNonce 11) (MkNonce 12) (MkNonce 13) (MkNonce 14)) (id n2) 3);
   (node 1 n5, CallMaxLevel (MkNonce 21) (id n9))].
(** The join goes on to its query; the link request is repeated; the
    level query expires. *)
Definition acts : list Action :=
  [Resume 0 0; Resume 1 0; Lose 0; Repeat 0; Deliver 1; Deliver 0; Deliver 0; Deliver 0; Deliver 0;
   Resume 0 0; Deliver 0; Deliver 0; Deliver 0; Expire 1 0; Drop 0].

Lemma start_fair : fair TransportSample.own nodes TransportSample.start.
Proof.
  split; [apply TransportSample.start_honest|]. repeat constructor.
  exists (node 3 n7). by split; [exact n7_node|].
Qed.

Lemma start_well : well TransportSample.own nodes ∅ TransportSample.start.
Proof.
  split; [exact start_fair|]. split.
  - rw dom_empty_L. apply empty_subseteq.
  - intros c r. change (chan_poll c (∅ : gmap loc ChanState) = Received r → (∅ : gmap loc Kind) !! c = Some (reply_kind r)).
    by rw /= lookup_empty.
  - intros rm n x. by rw /waiter_map /= lookup_empty /= lookup_empty.
Qed.
End ConcurrentSample.

(** The schedule runs: the join is still under way, node 9's entry is a known node. *)
Lemma operations_keep_tables_truthful_witness :
  ∃ ts w', perform TransportSample.own TransportSample.addr OverlaySample.nodes
      ConcurrentSample.acts
      (map (spawn TransportSample.own TransportSample.addr) ConcurrentSample.calls)
      TransportSample.start = Done (ts, w')
    ∧ ∀ x, node_slots w' (OverlaySample.node 0 OverlaySample.n2) 0 Right = Some x →
        known OverlaySample.nodes x.
Proof.
  destruct (operations_keep_tables_truthful TransportSample.own TransportSample.addr
    OverlaySample.nodes ConcurrentSample.calls ConcurrentSample.acts ∅ TransportSample.start)
    as (ts & w' & E & _ & Hall).
  - exact ConcurrentSample.start_well.
  - intros b op [[= -> ->]|[[= -> ->]|[]%elem_of_nil]%elem_of_cons]%elem_of_cons;
      [exact OverlaySample.n7_node|exact OverlaySample.n5_node].
  - exists ts, w'. split; [exact E|]. intros x Hx. by apply (Hall _ _ 0 Right OverlaySample.n2_node).
Defined.
