(* ===== verification/Completion.v ===== *)
(** * A node's own request, answered among all others

    [Transport] shows that every request in flight is answered; here the answer reaches
    the operation that asked. A request started with a fresh nonce, among any number of
    other requests in flight and delivered in any order with them, finds its own reply
    in its channel once deliveries end, and ends with success. *)
From S2P Require Import Prelude Bytes Model LookupTable Core World BaseNode Hub Overlay Handlers Routing Safety Linking Async NodeOps Join Transport Interleaving Concurrent Typing.
From S2P Require Import Identifier.

(** ** Waiters and their channels *)
Section chat.
Context `{OneshotLaws} {L N : Type}.
Implicit Types (w : World L N) (b : BaseNode).

(** Each waiter has a channel of its own, on which nothing has been sent. *)
Record tidy w : Prop := {
  td_live rm n x : waiter_map rm w !! n = Some x →
    chan_view (chans w) !! waiter_chan x = Some ChanOpen
    ∨ chan_view (chans w) !! waiter_chan x = Some ChanNoReceiver;
  td_own rm n x rm' n' x' : waiter_map rm w !! n = Some x → waiter_map rm' w !! n' = Some x' →
    waiter_chan x = waiter_chan x' → rm = rm' ∧ n = n'
}.

(** The same waiters and channels. *)
Definition same_chat w w' : Prop := waiters w' = waiters w ∧ chans w' = chans w.

Lemma same_chat_map w w' rm : same_chat w w' → waiter_map rm w' = waiter_map rm w.
Proof using Type. intros [Ew _]. by rw /waiter_map Ew. Qed.

Lemma tidy_same w w' : same_chat w w' → tidy w → tidy w'.
Proof using Type.
  intros Hs [Hl Ho]. pose proof Hs as [_ Ec]. split.
  - intros rm n x. rw (same_chat_map _ _ _ Hs) Ec. apply Hl.
  - intros rm n x rm' n' x'. rw !(same_chat_map _ _ _ Hs). apply Ho.
Qed.

Lemma resolved_same b n ev w w1 :
  same_chat w w1 → same_chat (resolved b n ev w) (resolved b n ev w1).
Proof using Type.
  intros Hs. rw /resolved (same_chat_map _ _ _ Hs). destruct (_ !! n) as [x|]; [|done].
  destruct (resolves ev x); [|done]. destruct Hs as [Ew Ec]. split; simpl; [by rw Ew|by rw Ec].
Qed.

Lemma resolved_tables b n ev w : tables (resolved b n ev w) = tables w.
Proof using Type. rw /resolved. destruct (_ !! n) as [x|]; [|done]. by destruct (resolves ev x). Qed.

(** What a reply does to waiters and channels. *)
Record resolution b n ev w w' : Prop := {
  rs_tidy : tidy w';
  rs_fewer rm m x : waiter_map rm w' !! m = Some x → waiter_map rm w !! m = Some x;
  rs_other rm m : (rm, m) ≠ (request_id_map b, n) → waiter_map rm w' !! m = waiter_map rm w !! m;
  rs_chan c : (∀ x, waiter_map (request_id_map b) w !! n = Some x → waiter_chan x ≠ c) →
    chan_view (chans w') !! c = chan_view (chans w) !! c;
  rs_made c : is_Some (chan_view (chans w) !! c) → is_Some (chan_view (chans w') !! c);
  rs_sent x r : waiter_map (request_id_map b) w !! n = Some x → resolves ev x = Some r →
    chan_view (chans w) !! waiter_chan x = Some ChanOpen →
    chan_view (chans w') !! waiter_chan x = Some (ChanSent r)
    ∧ waiter_map (request_id_map b) w' !! n = None
}.

Lemma resolved_resolution b n ev w : tidy w → resolution b n ev w (resolved b n ev w).
Proof using Type.
  intros Ht. rw /resolved. destruct (waiter_map _ _ !! n) as [x|] eqn:Ex; last first.
  { split; try done. intros y r. by rw Ex. }
  destruct (resolves ev x) as [r|] eqn:Er; last first.
  { split; try done. intros y r'. rw Ex. intros [= <-]. by rw Er. }
  set (w' := set_chans _ _).
  assert (Hview : ∀ c, c ≠ waiter_chan x →
    chan_view (chans w') !! c = chan_view (chans w) !! c).
  { intros c Hc. simpl. destruct (td_live w Ht _ _ _ Ex) as [Hv|Hv].
    - destruct (chan_send_open_law (chans w) _ r Hv) as [_ ->]. by rw lookup_insert_ne.
    - by destruct (chan_send_closed_law (chans w) _ r Hv) as [_ ->]. }
  assert (Hmap : ∀ rm m, waiter_map rm w' !! m =
    if decide ((rm, m) = (request_id_map b, n)) then None else waiter_map rm w !! m).
  { intros rm m. rw /waiter_map /=. case_decide as E.
    - injection E as -> ->. by rw lookup_insert_eq /= lookup_delete_eq.
    - destruct (decide (rm = request_id_map b)) as [->|Hne]; [|by rw lookup_insert_ne].
      rw lookup_insert_eq /= lookup_delete_ne; [by intros ->|done]. }
  assert (Hfewer : ∀ rm m y, waiter_map rm w' !! m = Some y → waiter_map rm w !! m = Some y).
  { intros rm m y. rw Hmap. by case_decide. }
  assert (Hother : ∀ rm m y, waiter_map rm w' !! m = Some y → waiter_chan y ≠ waiter_chan x).
  { intros rm m y Hy E. pose proof (Hfewer _ _ _ Hy) as Hy'. revert Hy. rw Hmap.
    destruct (td_own w Ht _ _ _ _ _ _ Hy' Ex E) as [-> ->]. by rw decide_True. }
  split; [|exact Hfewer| | | |].
  - split.
    + intros rm m y Hy. rw (Hview _ (Hother _ _ _ Hy)). by eapply td_live, Hfewer.
    + intros rm m y rm' m' y' Hy%Hfewer Hy'%Hfewer. by eapply td_own.
  - intros rm m Hne. rw Hmap. by rw decide_False.
  - intros c Hc. apply Hview. apply not_eq_sym. by apply Hc.
  - intros c Hc. destruct (decide (c = waiter_chan x)) as [->|Hne]; [|by rw Hview].
    simpl. destruct (td_live w Ht _ _ _ Ex) as [Hv|Hv].
    + destruct (chan_send_open_law (chans w) _ r Hv) as [_ ->]. by rw lookup_insert_eq.
    + by destruct (chan_send_closed_law (chans w) _ r Hv) as [_ ->].
  - intros y r' Ey Er'. rw Ex in Ey. injection Ey as <-. rw Er in Er'. injection Er' as <-. intros Hv.
    split; [|rw Hmap; by rw decide_True]. simpl.
    destruct (chan_send_open_law (chans w) _ r Hv) as [_ ->]. by rw lookup_insert_eq.
Qed.

Lemma resolution_same b n ev w w1 :
  same_chat w w1 → tidy w → resolution b n ev w (resolved b n ev w1).
Proof using Type.
  intros Hs Ht. destruct (resolved_resolution b n ev w Ht) as [Htd Hf Ho Hc Hm Hsent].
  pose proof (resolved_same b n ev w w1 Hs) as Hs'. pose proof Hs' as [_ Ec].
  split; rw ?Ec; try done.
  - by eapply tidy_same.
  - intros rm m x. rw (same_chat_map _ _ _ Hs'). apply Hf.
  - intros rm m. rw (same_chat_map _ _ _ Hs'). apply Ho.
  - intros x r. rw (same_chat_map _ _ _ Hs'). apply Hsent.
Qed.

(** Registering a waiter under an unused nonce: exactly one waiter and one channel. *)
Lemma requested_maps {A} self nonce (mk : Sender A → Waiter) w :
  waiter_map (request_id_map self) w !! nonce = None →
  let w1 := requested self nonce mk w in
  (∀ rm m, waiter_map rm w1 !! m =
     if decide ((rm, m) = (request_id_map self, nonce)) then Some (mk (MkSender (new_chan w)))
     else waiter_map rm w !! m)
  ∧ chan_view (chans w) !! new_chan w = None
  ∧ chan_view (chans w1) = <[new_chan w := ChanOpen]> (chan_view (chans w))
  ∧ tables w1 = tables w ∧ network w1 = network w.
Proof using Type.
  intros Hf w1. destruct (chan_new_law (chans w)) as [Hnew Hview].
  assert (Ew1 : w1 = set_waiter_map (request_id_map self)
    (<[nonce := mk (MkSender (new_chan w))]> (waiter_map (request_id_map self) w))
    (set_chans (λ _, (chan_new (chans w)).2) w)).
  { rw /w1 /requested /=. change (waiter_map (request_id_map self) (set_chans _ w))
      with (waiter_map (request_id_map self) w). by rw Hf. }
  split_and!; [|done|by rw Ew1 /= Hview|by rw Ew1..].
  intros rm m. rw Ew1 /waiter_map /=. case_decide as E.
  - injection E as -> ->. by rw lookup_insert_eq /= lookup_insert_eq.
  - destruct (decide (rm = request_id_map self)) as [->|Hne]; [|by rw lookup_insert_ne].
    rw lookup_insert_eq /= lookup_insert_ne; [by intros ->|done].
Qed.

Lemma waiter_not_new w rm n x : tidy w → chan_view (chans w) !! new_chan w = None →
  waiter_map rm w !! n = Some x → waiter_chan x ≠ new_chan w.
Proof using Type.
  intros Ht Hnew Hx E. destruct (td_live w Ht _ _ _ Hx) as [Hv|Hv]; rw E Hnew in Hv; done.
Qed.

Lemma requested_tidy {A} self nonce (mk : Sender A → Waiter) w :
  (∀ c, waiter_chan (mk (MkSender c)) = c) →
  tidy w → waiter_map (request_id_map self) w !! nonce = None →
  let w1 := requested self nonce mk w in
  tidy w1 ∧ waiter_map (request_id_map self) w1 !! nonce = Some (mk (MkSender (new_chan w)))
  ∧ chan_view (chans w1) !! new_chan w = Some ChanOpen
  ∧ tables w1 = tables w ∧ network w1 = network w.
Proof using Type.
  intros Hmk Ht Hf w1. destruct (requested_maps self nonce mk w Hf) as (Hmap & Hnew & Hv1 & Etab & Enet).
  split_and!; [|by rw Hmap decide_True|by rw Hv1 lookup_insert_eq|done|done]. split.
  - intros rm m x. rw Hmap Hv1. case_decide as E.
    + intros [= <-]. rw Hmk lookup_insert_eq. by left.
    + intros Hx. rw lookup_insert_ne; [by apply not_eq_sym, (waiter_not_new w rm m)|]. by eapply td_live.
  - intros rm m x rm' m' x'. rw !Hmap. case_decide as E; case_decide as E'.
    + by injection E as -> ->; injection E' as -> ->.
    + intros [= <-] Hx'. rw Hmk. intros Hc. by destruct (waiter_not_new w _ _ _ Ht Hnew Hx').
    + intros Hx [= <-]. rw Hmk. intros Hc. by destruct (waiter_not_new w _ _ _ Ht Hnew Hx).
    + by apply td_own.
Qed.

(** The end of a request takes its waiter, if there is one, and its receiver: the maps, *)
Lemma ended_waiters {A} self nonce (rx : Receiver A) w rm m :
  waiter_map rm (ended self nonce rx w) !! m =
    if decide ((rm, m) = (request_id_map self, nonce)) then None else waiter_map rm w !! m.
Proof using Type.
  rw /ended /guard /guard_drop drop_waiter_map /waiter_map /=. case_decide as Ek.
  - injection Ek as -> ->. by rw lookup_insert_eq /= lookup_delete_eq.
  - destruct (decide (rm = request_id_map self)) as [->|Hne]; [|by rw lookup_insert_ne].
    rw lookup_insert_eq /= lookup_delete_ne; [by intros ->|done].
Qed.

(** and the channels. *)
Lemma ended_view {A} self nonce (rx : Receiver A) w c :
  is_Some (chan_view (chans w) !! receiver_chan rx) →
  let v := chan_view (chans (ended self nonce rx w)) in
  v !! c = <[receiver_chan rx := ChanNoReceiver]> (chan_view (chans w)) !! c
  ∨ (v !! c = Some ChanNoSender
     ∧ ∃ x, waiter_map (request_id_map self) w !! nonce = Some x ∧ waiter_chan x = c).
Proof using Type.
  intros Hrx. rw -(chan_drop_receiver_law _ _ Hrx) /ended /guard /guard_drop.
  change (waiter_map (request_id_map self) (drop_receiver rx w)) with (waiter_map (request_id_map self) w).
  destruct (waiter_map _ w !! nonce) as [x|]; [|by left]. simpl.
  set (s := chan_drop_receiver _ _).
  assert (chan_view s !! waiter_chan x = Some ChanOpen ∨ chan_view s !! waiter_chan x ≠ Some ChanOpen)
    as [Ho|Ho] by (destruct (chan_view s !! _) as [[]|]; first [by left|by right]).
  - rw (chan_drop_sender_law s _ Ho). destruct (decide (c = waiter_chan x)) as [->|Hne].
    + right. rw lookup_insert_eq. split; [done|]. by exists x.
    + left. by rw lookup_insert_ne.
  - left. by rw (chan_drop_sender_done_law s _ Ho).
Qed.

Lemma ended_tidy {A} self nonce (rx : Receiver A) w :
  is_Some (chan_view (chans w) !! receiver_chan rx) → tidy w → tidy (ended self nonce rx w).
Proof using Type.
  intros Hrx Ht. split.
  - intros rm m x. rw ended_waiters. case_decide as Ek; [done|]. intros Hx.
    destruct (ended_view self nonce rx w (waiter_chan x) Hrx) as [->|(_ & y & Hy & Ec)].
    + destruct (decide (receiver_chan rx = waiter_chan x)) as [->|Hne];
        [rw lookup_insert_eq; by right|rw lookup_insert_ne; [done|by eapply td_live]].
    + destruct Ek. by destruct (td_own w Ht _ _ _ _ _ _ Hx Hy) as [-> ->].
  - intros rm m x rm' m' x'. rw !ended_waiters. case_decide; [done|]. case_decide; [done|]. by apply td_own.
Qed.

Lemma ended_maps {A} self nonce (rx : Receiver A) w :
  is_Some (chan_view (chans w) !! receiver_chan rx) → tidy w →
  let w1 := ended self nonce rx w in
  (∀ rm m, waiter_map rm w1 !! m =
     if decide ((rm, m) = (request_id_map self, nonce)) then None else waiter_map rm w !! m)
  ∧ (∀ c, is_Some (chan_view (chans w) !! c) → is_Some (chan_view (chans w1) !! c))
  ∧ (∀ c, c ≠ receiver_chan rx →
       (∀ x, waiter_map (request_id_map self) w !! nonce = Some x → waiter_chan x ≠ c) →
       chan_view (chans w1) !! c = chan_view (chans w) !! c)
  ∧ tables w1 = tables w ∧ network w1 = network w ∧ tidy w1.
Proof using Type.
  intros Hrx Ht w1. pose proof (λ c, ended_view self nonce rx w c Hrx) as Hview. cbv zeta in Hview.
  split_and!; [intros; apply ended_waiters| | |by rw /w1 /ended /guard /guard_drop; destruct (_ !! nonce)..
    |by apply ended_tidy].
  - intros c Hc. rw /w1. destruct (Hview c) as [->|[-> _]]; [|done].
    destruct (decide (c = receiver_chan rx)) as [->|Hne]; [by rw lookup_insert_eq|by rw lookup_insert_ne].
  - intros c Hne Hno. rw /w1. destruct (Hview c) as [->|(_ & x & Hx & Ec)]; [|by destruct (Hno x Hx)].
    by rw lookup_insert_ne.
Qed.
End chat.

(** ** Requests in flight *)
Section completion.
Context `{OneshotLaws} `{LookupTableSpec L}.
Abbreviation W := (World L (list Envelope)) (only parsing).
Context (own : loc → Identifier) (addr : loc → Address) (nodes : gmap Identifier BaseNode).
Implicit Types (w : W) (b self : BaseNode) (e : Envelope) (k : Pursuit).
#[local] Instance queueing_instance : Network BaseNode W := queueing own addr.
#[local] Set Default Proof Using "Type*".

(** Where the reply goes and the nonce it bears. *)
Definition asked_key k : Identifier * Nonce :=
  match k with
  | SearchFor nonce origin _ _ => (origin, nonce)
  | MaxLevelOf nonce origin => (origin, nonce)
  | NeighborOf nonce origin _ _ => (origin, nonce)
  | LinkOf nonce candidate _ _ => (id candidate, nonce)
  end.
Lemma asks_key k e : asks k e → event_key e = Some (asked_key k).
Proof using Type. rw /asks /event_key. by destruct (env_event e); intros ?; subst. Qed.

Lemma replies_key k e :
  replies nodes k e →
  env_to e = (asked_key k).1 ∧ reply_nonce (env_event e) = Some (asked_key k).2.
Proof using Type.
  rw /replies. destruct k, (env_event e); try done;
    by first [intros [-> <-]|intros (-> & <- & _)].
Qed.

Lemma carries_key k e : carries nodes k e → event_key e = Some (asked_key k).
Proof using Type.
  intros [Ha|Hr]; [by apply asks_key|]. destruct (replies_key k e Hr) as [Et En].
  rw /event_key. rw (surjective_pairing (asked_key k)) -Et.
  destruct (env_event e); try discriminate En; cbv beta iota; by rw En.
Qed.

(** A request is asked for by some operation, or it is a reply or a test message. *)
Lemma asks_or_quiet e : (∃ k, asks k e) ∨ ∀ k, ¬ asks k e.
Proof using Type. rw /asks. destruct (env_event e); eauto. Qed.

Lemma asks_no_reply k e : asks k e → reply_nonce (env_event e) = None.
Proof using Type. rw /asks. by destruct (env_event e). Qed.

(** The handler of an event that asks for nothing sends nothing. *)
Lemma silent_handled w e b :
  system own nodes w → nodes !! env_to e = Some b → honest nodes e → (∀ k, ¬ asks k e) →
  handled_as own addr nodes b e w None.
Proof.
  intros Hs Hb Hh Hno. destruct (reply_nonce (env_event e)) as [n|] eqn:En; [by eapply reply_handled|].
  destruct (env_event e) as [s|req|res|req|res|req|res|req|res|req|req] eqn:Ee; try done;
    try (exfalso; eapply Hno; rw /asks Ee; reflexivity);
    (eexists _, w; split_and!; [rw Ee; reflexivity|by rw app_nil_r|done|exact Hno]).
Qed.

(** One delivery, in full: what is in flight, and what became of waiters and channels. *)
Lemma deliver_effect w e w' :
  honest_system own nodes w → tidy w → deliver own addr nodes w e w' →
  ∃ b rest out, nodes !! env_to e = Some b ∧ network w ≡ₚ e :: rest
    ∧ network w' = rest ++ option_list out
    ∧ (∀ e', out = Some e' → ∃ k, asks k e ∧ carries nodes k e')
    ∧ (∀ k, asks k e → is_Some out)
    ∧ match reply_nonce (env_event e) with
      | Some n => resolution b n (env_event e) w w'
      | None => same_chat w w'
      end.
Proof.
  intros [Hs Hn] Ht (n & r & En & Er). assert (He : honest nodes e) by by eapply Forall_lookup_1.
  destruct (He) as [[b Hb] _]. rw /deliver_nth En Hb in Er. set (w1 := set_network (delete n) w) in *.
  assert (Hs1 : system own nodes w1) by by apply system_posted.
  assert (Hchat : match reply_nonce (env_event e) with
    | Some n => resolution b n (env_event e) w w' | None => same_chat w w' end).
  { destruct (reply_nonce (env_event e)) as [m|] eqn:Em.
    - destruct (reply_resolved b (env_from e) (env_event e) m w1) as (w2 & E & _ & _ & Ew & Ec);
        [by eapply sy_table|done|]. rw E in Er. injection Er as _ <-. by apply resolution_same.
    - destruct (request_quiet own addr b (env_from e) (env_event e) w1) as (r' & w2 & _ & E & Ew & Ec & _);
        [by eapply sy_table|done|]. rw E in Er. by injection Er as _ <-. }
  destruct (asks_or_quiet e) as [[k Hk]|Hno].
  - destruct (handled own addr nodes w1 e b Hs1 Hb He) as (out & r' & w2 & E & Enet & _ & Hout).
    rw E in Er. injection Er as _ <-. exists b, (network w1), out.
    split_and!; [done|by apply delete_Permutation|done|..|done].
    + intros e' ->. exists k. split; [done|]. by apply Hout.
    + intros k' Hk'. destruct out; [done|]. by destruct (Hout k').
  - destruct (silent_handled w1 e b Hs1 Hb He Hno) as (r' & w2 & E & Enet & _ & _).
    rw E in Er. injection Er as _ <-. exists b, (network w1), None.
    split_and!; [done|by apply delete_Permutation|done|done| |done]. intros k Hk. by destruct (Hno k).
Qed.

Lemma asks_functional k k' e : asks k e → asks k' e → k' = k.
Proof using Type. rw /asks. by destruct (env_event e); intros ?; intros ?; subst. Qed.

(** What an honest system keeps in its tables while events are delivered. *)
Lemma honest_fair w : honest_system own nodes w → fair own nodes w.
Proof using Type.
  intros [Hs Hn]. split; [done|]. eapply Forall_impl; [exact Hn|]. intros e [_ Hh].
  rw /sincere /proper. by destruct (env_event e); [done..|apply Hh| |done|done].
Qed.

Lemma deliver_inward w e w' i b :
  honest_system own nodes w → deliver own addr nodes w e w' → nodes !! i = Some b → inward w w' b.
Proof.
  intros Hw (n & r & _ & Er) Hb. pose proof (honest_fair w Hw) as Hf.
  eapply (deliver_advances own addr nodes n); [|exact Er|exact Hf|exact Hb].
  intros j c. by apply fair_ids with w.
Qed.

(** ** One request among the others *)
Section request.
Context (self : BaseNode) (k : Pursuit) (x : Waiter).
Context (Hself : nodes !! node_id self = Some self) (Horigin : (asked_key k).1 = node_id self).
Context (Hmaps : ∀ i j a b, nodes !! i = Some a → nodes !! j = Some b →
  request_id_map a = request_id_map b → i = j).
Context (Haccepts : ∀ e, replies nodes k e → is_Some (resolves (env_event e) x)).

(** A link that was answered is in the node's table. *)
Definition settled w : Prop :=
  match k with
  | LinkOf _ _ level d => is_Some (node_slots w self level (opposite d))
  | _ => True
  end.

(** The request, or its reply, is on its way and the waiter is there for it, *)
Definition pending w : Prop :=
  waiter_map (request_id_map self) w !! (asked_key k).2 = Some x
  ∧ chan_view (chans w) !! waiter_chan x = Some ChanOpen
  ∧ ∃ e rest, network w ≡ₚ e :: rest ∧ carries nodes k e
      ∧ Forall (λ e', event_key e' ≠ Some (asked_key k)) rest.

(** or the reply is in the channel, which no waiter sends to any more. *)
Definition answered w : Prop :=
  (∃ e r, replies nodes k e ∧ resolves (env_event e) x = Some r
     ∧ chan_view (chans w) !! waiter_chan x = Some (ChanSent r))
  ∧ (∀ rm n y, waiter_map rm w !! n = Some y → waiter_chan y ≠ waiter_chan x)
  ∧ settled w.

Lemma settled_step w e w' :
  honest_system own nodes w → deliver own addr nodes w e w' → settled w → settled w'.
Proof.
  rw /settled. destruct k; try done. intros Hw Hd [y Hy].
  destruct (deliver_inward w e w' _ self Hw Hd Hself) as (_ & _ & Hin); [by eapply sy_table; [apply Hw|]|].
  destruct (Hin _ _ y Hy) as (z & -> & _). by eexists.
Qed.

Lemma reply_settles w e w' :
  honest_system own nodes w → deliver own addr nodes w e w' → replies nodes k e → settled w'.
Proof.
  intros Hw (n & r & En & Er) Hr. rw /settled. destruct k as [| | |nonce cand level d] eqn:Ek; try done.
  rw /replies in Hr. destruct (env_event e) as [| | | | | | | |res| |] eqn:Ee; try done.
  destruct Hr as (Et & _ & El & Ed & i & Ei & _ & Hf). simpl in Horigin.
  rw Horigin in Hf Et. specialize (Hf self Hself). rw /deliver_nth En Et Hself Ee in Er.
  destruct (set_link_resolved self res (set_network (delete n) w)) as (w1 & Ha & E).
  { eapply table_ok_tables, (sy_table own nodes w), Hself; [done|apply Hw]. }
  rw /node_process_incoming_event E in Er. injection Er as _ <-.
  assert (Es : node_slots (resolved self (lr_nonce res) (SetLinkOp res) w1) self = node_slots w1 self).
  { by rw /node_slots resolved_tables. }
  rw Es. rw /applied Ei El Ed decide_True in Ha; [done|].
  rw (slot_linked_slots _ _ _ _ _ _ _ _ Ha) /set_slot decide_True; [done|].
  rw /linked_slot. by destruct (link_decision _ _ _).
Qed.

Lemma answered_step w e w' :
  honest_system own nodes w → tidy w → deliver own addr nodes w e w' → answered w →
  tidy w' ∧ answered w'.
Proof.
  intros Hw Ht Hd ((e0 & r & Hr & Es & Hv) & Hno & Hs).
  destruct (deliver_effect w e w' Hw Ht Hd) as (b & rest & out & _ & _ & _ & _ & _ & Hchat).
  pose proof (settled_step w e w' Hw Hd Hs) as Hs'.
  destruct (reply_nonce (env_event e)) as [n|].
  - destruct Hchat as [Htd Hfew _ Hc _ _]. split; [done|]. split_and!; [|by eauto|done].
    exists e0, r. split_and!; [done..|]. rw Hc; [|done]. intros y. apply Hno.
  - pose proof Hchat as [_ Ec]. split; [by eapply tidy_same|]. split_and!; [|..|done].
    + exists e0, r. by rw Ec.
    + intros rm n y. rw (same_chat_map _ _ _ Hchat). apply Hno.
Qed.

(** The one event that bears the key is delivered. *)
Lemma pending_own w e w' rest :
  honest_system own nodes w → tidy w → deliver own addr nodes w e w' →
  waiter_map (request_id_map self) w !! (asked_key k).2 = Some x →
  chan_view (chans w) !! waiter_chan x = Some ChanOpen →
  network w ≡ₚ e :: rest → carries nodes k e →
  Forall (λ e', event_key e' ≠ Some (asked_key k)) rest →
  tidy w' ∧ (pending w' ∨ answered w').
Proof.
  intros Hw Ht Hd Hx Hv Hnet Hk Hrest.
  destruct (deliver_effect w e w' Hw Ht Hd) as (b & rest0 & out & Hb & Hnet0 & Enet & Hout & Hsome & Hchat).
  assert (Hperm : rest0 ≡ₚ rest) by (apply (Permutation_cons_inv (a := e)); by rw -Hnet0 -Hnet).
  destruct Hk as [Ha|Hr].
  - rw (asks_no_reply k e Ha) in Hchat. pose proof Hchat as [_ Ec]. split; [by eapply tidy_same|]. left.
    destruct (Hsome k Ha) as [e' ->]. destruct (Hout e' eq_refl) as (k' & Hk' & Hc).
    rw (asks_functional k k' e Ha Hk') in Hc. split_and!; [by rw (same_chat_map _ _ _ Hchat)|by rw Ec|].
    exists e', rest. split_and!; [|done..]. by rw Enet Hperm Permutation_app_comm.
  - destruct (replies_key k e Hr) as [Et En]. rw En in Hchat. rw Et Horigin Hself in Hb.
    injection Hb as <-. destruct Hchat as [Htd Hfew _ _ _ Hsent]. split; [done|]. right.
    destruct (Haccepts e Hr) as [r Er]. destruct (Hsent x r Hx Er Hv) as [Hv' Hgone].
    split_and!; [by exists e, r| |by eapply reply_settles].
    intros rm n y Hy Ey. destruct (td_own w Ht _ _ _ _ _ _ (Hfew _ _ _ Hy) Hx Ey) as [-> ->].
    by rw Hgone in Hy.
Qed.

(** Another event is delivered. *)
Lemma pending_other w e w' :
  honest_system own nodes w → tidy w → deliver own addr nodes w e w' →
  event_key e ≠ Some (asked_key k) → pending w → tidy w' ∧ pending w'.
Proof.
  intros Hw Ht Hd Hne (Hx & Hv & e0 & rest & Hnet & Hk & Hrest).
  destruct (deliver_effect w e w' Hw Ht Hd) as (b & rest0 & out & Hb & Hnet0 & Enet & Hout & _ & Hchat).
  assert (∃ rest1, rest0 ≡ₚ e0 :: rest1 ∧ rest ≡ₚ e :: rest1) as (rest1 & Hp0 & Hp).
  { assert (Hin : e ∈ rest).
    { assert (Hin : e ∈ e0 :: rest) by (rw -Hnet Hnet0; by left).
      apply elem_of_cons in Hin as [->|Hin]; [|done]. by destruct Hne; apply carries_key. }
    apply elem_of_Permutation in Hin as [rest1 Hp]. exists rest1. split; [|done].
    apply (Permutation_cons_inv (a := e)). by rw -Hnet0 Hnet Hp Permutation_swap. }
  assert (Hnet' : ∃ e1 rest2, network w' ≡ₚ e1 :: rest2 ∧ carries nodes k e1
    ∧ Forall (λ e', event_key e' ≠ Some (asked_key k)) rest2).
  { exists e0, (rest1 ++ option_list out). split_and!; [by rw Enet Hp0|done|].
    rw Hp in Hrest. apply Forall_cons in Hrest as [_ Hrest]. apply Forall_app. split; [done|].
    destruct out as [e'|]; [|constructor]. apply Forall_singleton.
    destruct (Hout e' eq_refl) as (k' & Hk' & Hc). by rw (carries_key k' e' Hc) -(asks_key k' e Hk'). }
  destruct (reply_nonce (env_event e)) as [n|] eqn:En; last first.
  { pose proof Hchat as [_ Ec]. split; [by eapply tidy_same|]. rw /pending (same_chat_map _ _ _ Hchat) Ec.
    by split_and!. }
  destruct Hchat as [Htd _ Hother Hc _ _].
  assert (Hdiff : (request_id_map b, n) ≠ (request_id_map self, (asked_key k).2)).
  { intros [= Erm En']. apply Hne. rw (surjective_pairing (asked_key k)) Horigin -En'.
    rw -(Hmaps _ _ b self Hb Hself Erm) /event_key.
    destruct (env_event e); try discriminate En; cbv beta iota; by rw En. }
  split; [done|]. split_and!; [rw Hother; [by apply not_eq_sym|done]| |done].
  rw Hc; [|done]. intros y Hy Ey. destruct (td_own w Ht _ _ _ _ _ _ Hy Hx Ey) as [Erm En'].
  by rw Erm En' in Hdiff.
Qed.

Lemma request_step w e w' :
  honest_system own nodes w → tidy w → deliver own addr nodes w e w' → pending w ∨ answered w →
  tidy w' ∧ (pending w' ∨ answered w').
Proof.
  intros Hw Ht Hd [Hp|Ha]; [|by destruct (answered_step w e w' Hw Ht Hd Ha); auto].
  destruct (decide (event_key e = Some (asked_key k))) as [Hkey|Hne];
    [|by destruct (pending_other w e w' Hw Ht Hd Hne Hp); auto].
  destruct Hp as (Hx & Hv & e0 & rest & Hnet & Hk & Hrest).
  assert (e = e0) as <-; [|exact (pending_own w e w' rest Hw Ht Hd Hx Hv Hnet Hk Hrest)].
  destruct (deliver_effect w e w' Hw Ht Hd) as (b & rest0 & out & _ & Hnet0 & _).
  assert (Hin : e ∈ e0 :: rest) by (rw -Hnet Hnet0; by left).
  apply elem_of_cons in Hin as [->|Hin]; [done|]. rw Forall_forall in Hrest. by destruct (Hrest e Hin).
Qed.

Lemma request_run w tr w' :
  honest_system own nodes w → tidy w → pending w ∨ answered w → run own addr nodes w tr w' →
  pending w' ∨ answered w'.
Proof.
  intros Hw Ht Hp Hrun. revert Hw Ht Hp. induction Hrun as [w|w e w1 tr w2 Hd _ IH]; [done|].
  intros Hw Ht Hp. destruct (deliver_step own addr nodes w e w1 Hw Hd) as (Hw1 & _ & _).
  destruct (request_step w e w1 Hw Ht Hd Hp) as [Ht1 Hp1]. by apply IH.
Qed.
End request.

(** ** Operations that complete *)

(** Nodes do not share waiter maps. *)
Definition apart : Prop := ∀ i j a b, nodes !! i = Some a → nodes !! j = Some b →
  request_id_map a = request_id_map b → i = j.

(** No waiter and no event in flight bears the nonce. *)
Definition unused self (nonce : Nonce) w : Prop :=
  waiter_map (request_id_map self) w !! nonce = None
  ∧ Forall (λ e, event_key e ≠ Some (node_id self, nonce)) (network w).

(** The operation suspends on its channel. Deliveries can drain; at any point of any
    schedule of them it either waits, with events left in flight, or finds the reply,
    and then ends with [good], its waiter gone. *)
Definition completes {A} self (nonce : Nonce) (m : Async L (list Envelope) A)
    (good : A → W → Prop) w : Prop :=
  ∃ c resume cancel w1, m w = Done (Suspended [(Waiting c, resume)] cancel, w1)
  ∧ (∃ tr w2, run own addr nodes w1 tr w2 ∧ network w2 = [])
  ∧ ∀ tr w2, run own addr nodes w1 tr w2 →
      (chan_poll c (chans w2) = NotReady ∧ network w2 ≠ [])
      ∨ ∃ r v w3, chan_poll c (chans w2) = Received r
          ∧ resume (Woken r) w2 = Done (Ready (Ok v), w3) ∧ good v w3
          ∧ waiter_map (request_id_map self) w3 !! nonce = None.

Lemma ended_tables {A} self nonce (rx : Receiver A) w : tables (ended self nonce rx w) = tables w.
Proof using Type. rw /ended /guard /guard_drop. by destruct (waiter_map _ _ !! nonce). Qed.

Lemma settled_tables self k w w' : tables w' = tables w → settled self k w → settled self k w'.
Proof using Type. intros E. rw /settled. destruct k; try done. by rw /node_slots E. Qed.

(** Where a reply for the waiter is good. *)
Definition fulfils {P A} `{Payload P} self k (x : Waiter) (ok : P → A) (good : A → W → Prop) : Prop :=
  ∀ e, replies nodes k e → ∃ a, resolves (env_event e) x = Some (to_reply a)
    ∧ ∀ w, settled self k w → good (ok a) w.

(** A request with event [ev] and waiter [mk] that some pursuit under [nonce] asks for
    honestly, whose replies the waiter takes and [res] describes. *)
Definition answerable {P A} `{Payload P} self (nonce : Nonce) (mk : Sender P → Waiter)
    (dest : Identifier) (ev : W → Event) (ok : P → A) (res : A → W → Prop) : Prop :=
  ∃ k, asked_key k = (node_id self, nonce)
    ∧ (∀ w, asks k (MkEnvelope (node_id self) dest (ev w))
            ∧ honest nodes (MkEnvelope (node_id self) dest (ev w)))
    ∧ ∀ c, waiter_chan (mk (MkSender c)) = c ∧ fulfils self k (mk (MkSender c)) ok res.

Lemma request_completes {P A} `{Payload P} self nonce (mk : Sender P → Waiter) dest ev
    (ok : P → A) fs (m : Async L (list Envelope) A) good w :
  is_request self nonce mk dest ev ok fs m → answerable self nonce mk dest ev ok good →
  honest_system own nodes w → tidy w → nodes !! node_id self = Some self → apart →
  unused self nonce w → completes self nonce m good w.
Proof.
  intros Hm (k & Hk & Hev & Hmkf) [Hs Hn] Ht Hself Hmaps [Hfree Hnet].
  assert (Hmk : ∀ c, waiter_chan (mk (MkSender c)) = c) by apply Hmkf.
  assert (Hful : ∀ c, fulfils self k (mk (MkSender c)) ok good) by apply Hmkf.
  destruct (requested_tidy self nonce mk w Hmk Ht Hfree) as (Ht1 & Hx & Hv & Etab & Enet).
  specialize (Hm w). cbv zeta in Hm. set (w1 := requested self nonce mk w) in *.
  destruct (Hev w1) as [Hask Hhon].
  assert (Hown : own (net self) = node_id self) by by eapply sy_id.
  cbn [send_event queueing_instance queueing modify] in Hm. rw Hown in Hm.
  destruct Hm as (resume & cancel & Em & Hres).
  set (w2 := set_network _ w1) in *.
  assert (Hw2 : honest_system own nodes w2).
  { split; [by eapply system_tables; [|exact Hs]|]. rw /w2 /= Enet. apply Forall_app.
    split; [done|]. by apply Forall_singleton. }
  exists (new_chan w), resume, cancel, w2. split_and!; [exact Em|by apply drains|].
  intros tr w3 Hrun. set (x := mk (MkSender (new_chan w))) in *.
  assert (Hp : pending self k x w2).
  { rw /pending Hk /x Hmk. split_and!; [done..|].
    exists (MkEnvelope (node_id self) dest (ev w1)), (network w). rw /w2 /= Enet.
    split_and!; [by rw Permutation_app_comm|by left|done]. }
  assert (Hacc : ∀ e, replies nodes k e → is_Some (resolves (env_event e) x)).
  { intros e He. destruct (Hful (new_chan w) e He) as (a & Ea & _). by exists (to_reply a). }
  assert (Ht2 : tidy w2) by by apply (tidy_same w1).
  destruct (request_run self k x Hself) with w2 tr w3 as [(_ & Hv3 & e & rest & Hnet3 & _)
    |((e & r & He & Er & Hv3) & _ & Hset)]; [by rw Hk|done|done|done|done|by left|done|..];
    rw /x Hmk in Hv3; pose proof (chan_poll_law (chans w3) (new_chan w)) as Hpoll; rw Hv3 in Hpoll.
  - left. split; [done|]. intros E. rw E in Hnet3. by apply Permutation_nil_cons in Hnet3.
  - right. destruct (Hful (new_chan w) e He) as (a & Ea & Hgood). rw Ea in Er. injection Er as <-.
    destruct (Hres w3) as (Hans & _). eexists _, _, _. split_and!; [exact Hpoll|apply Hans| |].
    + eapply Hgood, settled_tables, Hset. apply ended_tables.
    + apply guard_removes.
Qed.

(** ** The four operations *)
Section operations.
Context (self : BaseNode) (nonce : Nonce) (dest : Identifier).
Context (Hself : nodes !! node_id self = Some self) (Hdest : is_Some (nodes !! dest)).
#[local] Set Default Proof Using "Type".

Lemma max_level_answerable :
  answerable self nonce MaxLevel dest (λ _, GetMaxLevelOp (MkMaxLevelReq nonce (node_id self)))
    mlr_max_level (λ _ _, True).
Proof using Hself Hdest.
  exists (MaxLevelOf nonce (node_id self)). split_and!; [done|by split; [|split; [|exists self]]|].
  intros c. split; [done|]. intros e. rw /replies. destruct (env_event e) as [| | | |res| | | | | |]; try done.
  intros _. by exists res.
Qed.

Lemma neighbor_answerable d level : level < LOOKUP_TABLE_LEVELS →
  answerable self nonce Neighbor dest
    (λ _, GetNeighborOp (MkNeighborReq nonce (node_id self) level d)) nr_neighbor
    (λ o _, ∀ i, o = Some i → known nodes i).
Proof using Hself Hdest.
  intros Hl. exists (NeighborOf nonce (node_id self) level d).
  split_and!; [done|by split; [|split; [|split; [exists self|]]]|].
  intros c. split; [done|]. intros e. rw /replies. destruct (env_event e) as [| | | | | |res| | | |]; try done.
  intros (_ & _ & _ & _ & Hi). by exists res.
Qed.

(** A search result: a node on the way to the target. *)
Definition on_the_way (d : Direction) (target : Identifier) (res : IdSearchRes) : Prop :=
  isr_target res = target ∧ is_Some (nodes !! isr_result res) ∧ reaches d (isr_result res) target.

Lemma search_answerable target level d : level < LOOKUP_TABLE_LEVELS → reaches d dest target →
  answerable self nonce AsyncSearch dest
    (λ _, SearchByIdRequest (MkIdSearchReq nonce target (node_id self) level d)) (λ res, res)
    (λ res _, on_the_way d target res).
Proof using Hself Hdest.
  intros Hl Hr. exists (SearchFor nonce (node_id self) target d).
  split_and!; [done|intros w; split; [done|split; [done|split_and!; [by exists self|done..]]]|].
  intros c. split; [done|]. intros e. rw /replies. destruct (env_event e) as [| |res| | | | | | | |]; try done.
  intros (_ & _ & Hi). by exists res.
Qed.

Lemma link_answerable d level w0 :
  (∀ b, nodes !! dest = Some b → fits b level d (self_identity self w0)) →
  answerable self nonce (λ tx, Link tx level (opposite d)) dest
    (λ w, GetLinkOp (MkLinkReq nonce (self_identity self w) d level)) (λ _, tt)
    (λ _ w, is_Some (node_slots w self level (opposite d))).
Proof using Hself Hdest.
  intros Hf. exists (LinkOf nonce (self_identity self w0) level d).
  split_and!; [done|by split; [|split; [|split; [exists self|]]]|].
  intros c. split; [done|]. intros e. rw /replies. destruct (env_event e) as [| | | | | | | |res| |]; try done.
  intros (_ & _ & El & Ed & _). exists res. cbn [resolves]. rw decide_True; [done|]. by split.
Qed.
End operations.

(** A node's own request is answered, whatever else goes on. On a network with
    truthful tables and honest events in flight, of any number of other requests, a
    node starts an operation under a nonce nothing there bears. Whatever the order of
    deliveries, at any moment either the operation waits and something is in flight,
    or its own reply is in its channel; deliveries can drain, and then it is. When it
    finds the reply the operation ends with success and without its waiter: a neighbor
    query with a node, a search with a node on the way to its target, and a link
    request with the slot for the reply filled. *)
Theorem requests_complete self nonce dest target level d w :
  honest_system own nodes w → tidy w → apart → nodes !! node_id self = Some self →
  unused self nonce w → is_Some (nodes !! dest) → level < LOOKUP_TABLE_LEVELS →
  completes self nonce (get_max_level self nonce dest) (λ _ _, True) w
  ∧ completes self nonce (get_neighbor self nonce dest d level)
      (λ o _, ∀ i, o = Some i → known nodes i) w
  ∧ (reaches d dest target →
     completes self nonce (send_search_by_id_req self dest nonce target level d)
       (λ res _, on_the_way d target res) w)
  ∧ ((∀ b, nodes !! dest = Some b → fits b level d (self_identity self w)) →
     completes self nonce (send_link_request self nonce dest d level)
       (λ _ w', is_Some (node_slots w' self level (opposite d))) w).
Proof.
  intros Hs Ht Hm Hself Hnew Hdest Hl. split_and!.
  - eapply (request_completes _ _ _ _ _ _ _ _ _ _ (get_max_level_request self nonce dest)); [by apply max_level_answerable|done..].
  - eapply (request_completes _ _ _ _ _ _ _ _ _ _ (get_neighbor_request self nonce dest d level)); [by apply neighbor_answerable|done..].
  - intros Hr. eapply (request_completes _ _ _ _ _ _ _ _ _ _ (search_request self nonce dest target level d)); [by apply search_answerable|done..].
  - intros Hf. eapply (request_completes _ _ _ _ _ _ _ _ _ _ (link_request self nonce dest d level)); [by eapply link_answerable|done..].
Qed.
End completion.

(** ** A link request of node 5 next to the sample requests *)
Module CompletionSample.
Import OverlaySample.
Lemma start_tidy : tidy TransportSample.start.
Proof. split; intros rm n x; by rw /waiter_map /= lookup_empty /= lookup_empty. Qed.

Lemma nodes_apart : apart nodes.
Proof.
  intros i j a b Ha Hb. revert i a Ha.
  refine (nodes_cases (λ i a, request_id_map a = request_id_map b → i = j) _ _ _ _); revert j b Hb;
    by refine (nodes_cases _ _ _ _ _).
Qed.

Lemma start_unused : unused (node 1 n5) (MkNonce 3) TransportSample.start.
Proof. split; [done|]. apply Forall_cons. split; [done|by apply Forall_singleton]. Qed.
End CompletionSample.

(** Some schedule drains, and in its last world the link request has its reply. *)
Lemma requests_complete_witness :
  ∃ c resume cancel w1 tr w2,
    send_link_request (Network0 := queueing TransportSample.own TransportSample.addr)
      (OverlaySample.node 1 OverlaySample.n5) (MkNonce 3) (id OverlaySample.n2) Right 0
      TransportSample.start = Done (Suspended [(Waiting c, resume)] cancel, w1)
    ∧ run TransportSample.own TransportSample.addr OverlaySample.nodes w1 tr w2
    ∧ ∃ r v w3, chan_poll c (chans w2) = Received r
        ∧ resume (Woken r) w2 = Done (Ready (Ok v), w3)
        ∧ is_Some (node_slots w3 (OverlaySample.node 1 OverlaySample.n5) 0 Left).
Proof.
  destruct (requests_complete TransportSample.own TransportSample.addr OverlaySample.nodes
    (OverlaySample.node 1 OverlaySample.n5) (MkNonce 3) (id OverlaySample.n2)
    (Sample.ident x08) 0 Right TransportSample.start) as (_ & _ & _ & Hlink).
  - exact TransportSample.start_honest.
  - exact CompletionSample.start_tidy.
  - exact CompletionSample.nodes_apart.
  - exact OverlaySample.n5_node.
  - exact CompletionSample.start_unused.
  - exists (OverlaySample.node 0 OverlaySample.n2). exact OverlaySample.n2_node.
  - apply Nat.ltb_lt. reflexivity.
  - destruct Hlink as (c & resume & cancel & w1 & Em & (tr & w2 & Hrun & Hend) & Hall).
    { intros b Hb. rw OverlaySample.n2_node in Hb. injection Hb as <-. decided. }
    exists c, resume, cancel, w1, tr, w2. split; [exact Em|]. split; [exact Hrun|].
    destruct (Hall tr w2 Hrun) as [[_ Hne]|(r & v & w3 & Hp & Hres & Hgood & _)]; [by destruct Hne|].
    by exists r, v, w3.
Defined.
