(* ===== verification/Refusal.v ===== *)
(** * Link requests their receiver refuses

    A node drops a link request from a candidate that does not belong in the slot it
    names, and answers nothing. A join comes to send such a request when another join
    has outdated its search result ([Interleaving.overtaken_join_times_out]). Here is what
    becomes of the one who waits, in any schedule of the node's operations and those of
    all others: no answer ever comes, and only its own timeout ends the wait. *)
From S2P Require Import Prelude Bytes Model LookupTable Core World BaseNode Hub Overlay Handlers Routing Safety Linking Async NodeOps Join Transport Interleaving Concurrent Typing Completion.
From S2P Require Import Identifier.

#[local] Set Warnings "-register-all".

(** ** Starting and ending other requests *)
Section effects.
Context `{OneshotLaws} {L N : Type}.
Implicit Types (w : World L N).

(** Registering a waiter, in place of another under the same nonce if there is one: the
    maps, *)
Lemma requested_waiters {A} self n (mk : Sender A → Waiter) w rm m :
  waiter_map rm (requested self n mk w) !! m =
    if decide ((rm, m) = (request_id_map self, n)) then Some (mk (MkSender (new_chan w)))
    else waiter_map rm w !! m.
Proof using Type.
  rw /requested drop_waiter_map {1}/waiter_map /=. case_decide as E.
  - injection E as -> ->. by rw lookup_insert_eq /= lookup_insert_eq.
  - destruct (decide (rm = request_id_map self)) as [->|Hne]; [|by rw lookup_insert_ne].
    rw lookup_insert_eq /= lookup_insert_ne; [by intros ->|done].
Qed.

(** and the channels, where the replaced waiter loses its sender. *)
Lemma requested_view {A} self n (mk : Sender A → Waiter) w c :
  let v := chan_view (chans (requested self n mk w)) in
  v !! c = <[new_chan w := ChanOpen]> (chan_view (chans w)) !! c
  ∨ (v !! c = Some ChanNoSender
     ∧ ∃ z, waiter_map (request_id_map self) w !! n = Some z ∧ waiter_chan z = c).
Proof using Type.
  destruct (chan_new_law (chans w)) as [_ Hview]. fold (new_chan w) in Hview. rw -Hview /requested.
  set (s := (chan_new (chans w)).2).
  change (waiter_map (request_id_map self) w) with (waiter_map (request_id_map self) (set_chans (λ _, s) w)).
  destruct (waiter_map _ _ !! n) as [z|]; [|by left]. simpl.
  assert (chan_view s !! waiter_chan z = Some ChanOpen ∨ chan_view s !! waiter_chan z ≠ Some ChanOpen)
    as [Ho|Ho] by (destruct (chan_view s !! _) as [[]|]; first [by left|by right]).
  - rw (chan_drop_sender_law s _ Ho). destruct (decide (waiter_chan z = c)) as [<-|Hne].
    + right. rw lookup_insert_eq. split; [done|]. by exists z.
    + left. by rw lookup_insert_ne.
  - left. by rw (chan_drop_sender_done_law s _ Ho).
Qed.

Lemma requested_effect {A} self n (mk : Sender A → Waiter) w :
  (∀ c, waiter_chan (mk (MkSender c)) = c) → tidy w →
  let w1 := requested self n mk w in
  chan_view (chans w) !! new_chan w = None
  ∧ (∀ c, c ≠ new_chan w →
       (∀ z, waiter_map (request_id_map self) w !! n = Some z → waiter_chan z ≠ c) →
       chan_view (chans w1) !! c = chan_view (chans w) !! c)
  ∧ (∀ c, c = new_chan w ∨ is_Some (chan_view (chans w) !! c) → is_Some (chan_view (chans w1) !! c))
  ∧ tidy w1 ∧ network w1 = network w.
Proof using Type.
  intros Hmk Ht w1. destruct (chan_new_law (chans w)) as [Hnew _]. fold (new_chan w) in Hnew.
  pose proof (requested_view self n mk w) as Hview. cbv zeta in Hview. fold w1 in Hview.
  pose proof (requested_waiters self n mk w) as Hmap. fold w1 in Hmap.
  assert (Hfar : ∀ rm m z, waiter_map rm w !! m = Some z → waiter_chan z ≠ new_chan w).
  { intros rm m z. by apply waiter_not_new. }
  assert (Hkeep : ∀ c, c ≠ new_chan w →
    (∀ z, waiter_map (request_id_map self) w !! n = Some z → waiter_chan z ≠ c) →
    chan_view (chans w1) !! c = chan_view (chans w) !! c).
  { intros c Hne Hc. destruct (Hview c) as [->|(_ & z & Hz & Ez)]; [by rw lookup_insert_ne|by destruct (Hc z)]. }
  split_and!; [done|done| | |by rw /w1 /requested; destruct (waiter_map _ _ !! n)].
  { intros c Hc. destruct (Hview c) as [->|[-> _]]; [|done].
    destruct (decide (new_chan w = c)) as [->|Hne]; [by rw lookup_insert_eq|].
    rw lookup_insert_ne; [done|]. by destruct Hc as [->|]. }
  split.
  - intros rm m z. rw Hmap. case_decide as E.
    + intros [= <-]. rw Hmk. left. destruct (Hview (new_chan w)) as [->|(_ & z & Hz & Ez)];
        [by rw lookup_insert_eq|by destruct (Hfar _ _ _ Hz)].
    + intros Hz. rw Hkeep; [by apply (Hfar rm m)| |by eapply td_live].
      intros z' Hz' Ec. destruct E. by destruct (td_own w Ht _ _ _ _ _ _ Hz' Hz Ec) as [-> ->].
  - intros rm m z rm' m' z'. rw !Hmap. case_decide as E; case_decide as E'.
    + by injection E as -> ->; injection E' as -> ->.
    + intros [= <-] Hz'. rw Hmk. intros Hc. by destruct (Hfar _ _ _ Hz').
    + intros Hz [= <-]. rw Hmk. intros Hc. by destruct (Hfar _ _ _ Hz).
    + by apply td_own.
Qed.
End effects.

(** ** Where the refused request stands *)
Inductive Stage : Type :=
| Fresh
| Waits (c : loc)
| Over.

(** A wait starts on a channel that is new, and no other operation moves it. *)
#[global] Instance stage_knowledge : Knowledge (Stage * gmap loc Kind).
Proof.
  refine {|
    typing := snd;
    grows x y := x.2 ⊆ y.2 ∧ ∀ c, y.1 = Waits c → x.1 = Waits c ∨ x.2 !! c = None;
    learns x y := x.1 = y.1 ∧ x.2 ⊆ y.2
  |}.
  - split.
    + intros x. split; [done|by left].
    + intros x y z [Hxy Hx] [Hyz Hy]. split; [by etrans|]. intros c Hc.
      destruct (Hy c Hc) as [Hc'|Hn]; [by apply Hx|]. right. by eapply lookup_weaken_None.
  - split; [done|]. intros x y z [-> Hxy] [-> Hyz]. split; [done|by etrans].
  - intros x y [E Hxy]. split; [done|]. rw E. by left.
  - by intros x y [].
Defined.

Section refusal.
Context `{OneshotLaws} `{!OneshotValues} `{LookupTableSpec L}.
Abbreviation W := (World L (list Envelope)) (only parsing).
Context (own : loc → Identifier) (addr : loc → Address) (nodes : gmap Identifier BaseNode).
#[local] Instance refusal_network : Network BaseNode W := queueing own addr.
Implicit Types (w : W) (e : Envelope) (x y : Stage * gmap loc Kind).

(** Node [self] asks node [dest] for its slot at [level] and [d], where it does not
    belong, under a nonce it uses for nothing else. *)
Context (self : BaseNode) (nonce : Nonce) (dest : Identifier) (d : Direction) (level : LookupTableLevel).
Definition candidate : Identity := MkIdentity (node_id self) (node_mem_vec self) (addr (net self)).
Definition refused_at (b : BaseNode) : Prop := nodes !! dest = Some b ∧ ¬ fits b level d candidate.
Context (b : BaseNode) (Hrefused : refused_at b).
Context (Hself : nodes !! node_id self = Some self) (Hapart : apart nodes).
#[local] Set Default Proof Using "Type*".

(** The events that bear the nonce: the request. *)
Definition only_asked e : Prop :=
  event_key e = Some (node_id self, nonce) →
  env_to e = dest ∧ env_event e = GetLinkOp (MkLinkReq nonce candidate d level).

Definition its_waiter w : option Waiter := waiter_map (request_id_map self) w !! nonce.
Definition staged (st : Stage) w : Prop :=
  match st with
  | Waits c => its_waiter w = Some (Link (MkSender c) level (opposite d))
      ∧ chan_view (chans w) !! c = Some ChanOpen
  | _ => its_waiter w = None
  end.

Record refuses x w : Prop := {
  rf_well : well own nodes x.2 w;
  rf_tidy : tidy w;
  rf_made c : is_Some (x.2 !! c) → is_Some (chan_view (chans w) !! c);
  rf_sent : Forall only_asked (network w);
  rf_staged : staged x.1 w
}.

(** Another request does not wait on the same channel. *)
Definition waits_apart x (c : loc) (k : Kind) : Prop := x.2 !! c = Some k ∧ x.1 ≠ Waits c.

(** The wait goes on as long as its waiter and its channel are left alone. *)
Lemma staged_kept st w w' :
  its_waiter w' = its_waiter w →
  (∀ c, its_waiter w = Some (Link (MkSender c) level (opposite d)) →
     chan_view (chans w') !! c = chan_view (chans w) !! c) →
  staged st w → staged st w'.
Proof using Type. rw /staged. intros -> Hc. destruct st as [|c|]; [done| |done]. intros [Hx Hv]. by rw Hc. Qed.

Lemma refuses_same x w w' :
  well own nodes x.2 w' → same_chat w w' → Forall only_asked (network w') → refuses x w → refuses x w'.
Proof using Type.
  intros Hw' Hs Hn [_ Ht Hm _ Hst]. pose proof Hs as [_ Ec]. split; [done|by eapply tidy_same| |done|].
  - intros c Hc. rw Ec. by apply Hm.
  - eapply staged_kept, Hst; [by rw /its_waiter (same_chat_map _ _ _ Hs)|by rw Ec].
Qed.

(** Other waiters have other channels. *)
Lemma other_channel w rm n z c :
  tidy w → (rm, n) ≠ (request_id_map self, nonce) →
  its_waiter w = Some (Link (MkSender c) level (opposite d)) →
  waiter_map rm w !! n = Some z → waiter_chan z ≠ c.
Proof using Type.
  intros Ht Hne Hx Hy Ec. apply Hne. by destruct (td_own w Ht _ _ _ _ _ _ Hy Hx Ec) as [-> ->].
Qed.

(** ** Other operations *)

(** The nonces another call of node [i] may draw. *)
Definition other_nonce (i : Identifier) (n : Nonce) : Prop := (i, n) ≠ (node_id self, nonce).

Lemma other_key i c n :
  nodes !! i = Some c → other_nonce i n → (request_id_map c, n) ≠ (request_id_map self, nonce).
Proof. intros Hc Hn [= Em ->]. apply Hn. by rw (Hapart _ _ _ _ Hc Hself Em). Qed.

(** Starting any request keeps all but the stage, *)
Lemma requested_refuses c n (P : Type) `{Kinded P} (mk : Sender P → Waiter) to ev st x w :
  nodes !! node_id c = Some c → own (net c) = node_id c → waiter_for mk → proper (known nodes) ev →
  only_asked (MkEnvelope (node_id c) to ev) → refuses x w → staged st (requested c n mk w) →
  refuses (st, <[new_chan w := kind P]> x.2)
    (set_network (λ q, q ++ [MkEnvelope (own (net c)) to ev]) (requested c n mk w)).
Proof using Type.
  intros Hc Hown Hmk Hp Hask [Hw Ht Hm Hs _] Hst.
  destruct (requested_effect c n mk w (λ l, proj1 (Hmk l)) Ht) as (_ & _ & Hsome & Ht' & Enet).
  split.
  - destruct (well_send own addr nodes c _ (λ z, z) to ev _ Hp
      (well_requested own nodes c x.2 n mk w Hmk Hw)) as (w' & E & Hw'). by injection E as <-.
  - by eapply tidy_same, Ht'.
  - intros l. cbn [snd]. rw lookup_insert_is_Some. intros [Hl|[_ Hl]]; apply Hsome; [by left|right; by apply Hm].
  - rw /= Enet. apply Forall_app. split; [done|]. apply Forall_singleton. by rw Hown.
  - done.
Qed.

(** and that of another also the stage. *)
Lemma refuses_begin i c n (P : Type) `{Kinded P} (mk : Sender P → Waiter) to ev x w :
  nodes !! i = Some c → node_id c = i → own (net c) = i → other_nonce i n → waiter_for mk →
  proper (known nodes) ev → event_key (MkEnvelope i to ev) = Some (i, n) → refuses x w →
  let x' := (x.1, <[new_chan w := kind P]> x.2) in
  learns x x' ∧ waits_apart x' (new_chan w) (kind P)
  ∧ refuses x' (set_network (λ q, q ++ [MkEnvelope (own (net c)) to ev]) (requested c n mk w)).
Proof.
  intros Hc Hid Hown Hn Hmk Hp Hk Hx. pose proof Hx as [Hw Ht _ _ Hst]. subst i. cbv zeta.
  destruct (requested_effect c n mk w (λ l, proj1 (Hmk l)) Ht) as (Hnew & Hview & _).
  destruct (well_channel own nodes x.2 w (kind P) Hw) as [Hfresh _].
  assert (Hstay : ∀ l, its_waiter w = Some (Link (MkSender l) level (opposite d)) → l ≠ new_chan w).
  { intros l Hl. by apply (waiter_not_new w _ _ _ Ht Hnew Hl). }
  split_and!.
  - split; [done|by apply insert_subseteq].
  - split; [by rw lookup_insert_eq|]. intros E. simpl in E. rw E in Hst. destruct Hst as [Hwt _].
    by apply (Hstay _ Hwt).
  - apply requested_refuses; [done..| |done|].
    { rw /only_asked Hk. intros [= Ei En]. destruct Hn. by rw Ei En. }
    eapply staged_kept, Hst.
    + rw /its_waiter requested_waiters decide_False; [|done]. by apply not_eq_sym, (other_key (node_id c)).
    + intros l Hl. apply Hview; [by apply Hstay|]. intros z. apply (other_channel _ _ _ _ _ Ht); [|done].
      by apply (other_key (node_id c)).
Qed.

(** Ending any request keeps all but the stage, *)
Lemma ended_refuses c n (P : Type) (rx : Receiver P) st x w :
  is_Some (x.2 !! receiver_chan rx) → refuses x w → staged st (ended c n rx w) →
  refuses (st, x.2) (ended c n rx w).
Proof using Type.
  intros Hrx [Hw Ht Hm Hs _] Hst.
  destruct (ended_maps c n rx w (Hm _ Hrx) Ht) as (_ & Hmade & _ & _ & Enet & Ht').
  split; [|done| |by rw Enet|done].
  - by apply well_guard, well_drop_receiver.
  - intros l Hl. apply Hmade. by apply Hm.
Qed.

(** and that of another also the stage. *)
Lemma refuses_end i c n (P : Type) (rx : Receiver P) k x w :
  nodes !! i = Some c → other_nonce i n → waits_apart x (receiver_chan rx) k → refuses x w →
  refuses x (ended c n rx w).
Proof.
  intros Hc Hn [Hk Hst] Hx. pose proof Hx as [_ Ht Hm _ Hstg].
  assert (Hrx : is_Some (x.2 !! receiver_chan rx)) by by eexists.
  destruct (ended_maps c n rx w (Hm _ Hrx) Ht) as (Hmap & _ & Hview & _).
  pose proof (other_key i c n Hc Hn) as Hne.
  assert (refuses (x.1, x.2) (ended c n rx w)); [|by destruct x].
  apply ended_refuses; [done|done|].
  destruct x as [[|l|] G]; cbn [fst staged] in *;
    (assert (its_waiter (ended c n rx w) = its_waiter w) as ->;
      [by rw /its_waiter Hmap decide_False; [by apply not_eq_sym|]|]); [done| |done].
  destruct Hstg as [Hwt Hv]. split; [done|]. rw Hview; [by intros ->| |done].
  intros z. by apply (other_channel w _ _ _ _ Ht Hne).
Qed.

Lemma refuses_fewer x w f :
  (∀ e, e ∈ f (network w) → e ∈ network w) → refuses x w → refuses x (set_network f w).
Proof using Type.
  intros Hf Hx. apply (refuses_same x w); [apply (fewer_well own nodes _ _ _ Hf), Hx|done| |done].
  destruct Hx as [_ _ _ Hs _]. rw !Forall_forall in Hs *. auto.
Qed.

Lemma refuses_accommodates i c :
  nodes !! i = Some c → node_id c = i → own (net c) = i →
  accommodates own nodes refuses c (other_nonce i) waits_apart.
Proof.
  intros Hc Hid Hown. split.
  - by intros x l k [].
  - intros x y l k [Hk Hne] [Hsub Hy]. split; [by eapply lookup_weaken|]. intros E.
    destruct (Hy l E) as [?|Hn]; [done|]. by rw Hk in Hn.
  - intros P ?? mk n to ev x w Hn Hmk Hp Hkey Hx. subst i.
    exists (x.1, <[new_chan w := kind P]> x.2). by apply (refuses_begin (node_id c)).
  - intros P n rx k x w. by apply (refuses_end i).
  - intros req x w Hx. subst i.
    destruct (ac_local _ _ _ _ _ _ (well_accommodates own addr nodes c Hown Hc) req x.2 w) as (r & w' & E & Hw');
      [apply Hx|].
    exists r, w'. split; [exact E|].
    destruct (quiet_map_err (λ _, False) (wrap "failed to perform search by id {}")
      (on_core c (Core.search_by_id (core c) req)) w) as (r' & w2 & out & E' & Ew & Ec & En & Hout).
    { apply quiet_read; [|intros t; apply search_reads]. eapply sy_table; [apply Hx|exact Hc]. }
    rw E in E'. injection E' as _ <-. destruct out as [|e out]; [|by inversion Hout].
    rw app_nil_r in En. apply (refuses_same x w); [exact Hw'|done| |done]. rw En. apply Hx.
Qed.

(** ** Deliveries *)

(** A reply finds the waiter of another request or none. *)
Lemma refuses_reply c n ev x w w1 :
  nodes !! node_id c = Some c → other_nonce (node_id c) n → well own nodes x.2 (resolved c n ev w1) →
  same_chat w w1 → network w1 = network w → refuses x w → refuses x (resolved c n ev w1).
Proof.
  intros Hc Hn Hw' Hs En [_ Ht Hm Hsent Hst].
  destruct (resolution_same c n ev w w1 Hs Ht) as [Ht' _ Hother Hview Hmade _].
  pose proof (other_key _ c n Hc Hn) as Hne. split; [done|done|auto| |].
  - assert (network (resolved c n ev w1) = network w) as ->; [|done].
    rw -En /resolved. by repeat case_match.
  - eapply staged_kept, Hst; [by apply Hother, not_eq_sym|]. intros l Hl. apply Hview.
    intros z. by apply (other_channel w _ _ _ _ Ht Hne).
Qed.

(** The refused request is dropped; another has no part in the nonce. *)
Lemma refuses_request e c x w r w' :
  nodes !! env_to e = Some c → reply_nonce (env_event e) = None → only_asked e →
  node_process_incoming_event c (env_from e) (env_event e) w = Done (r, w') →
  well own nodes x.2 w' → refuses x w → refuses x w'.
Proof.
  intros Hc Hr He E Hw' Hx. destruct Hrefused as [Hb Hfit].
  destruct (decide (event_key e = Some (node_id self, nonce))) as [Hk|Hk].
  - destruct (He Hk) as [Et Ee]. rw Et Hb in Hc. injection Hc as <-. revert E. rw Ee.
    cbn [node_process_incoming_event]. rw get_link_rejected; [done|]. by intros [= _ <-].
  - destruct (request_quiet own addr c (env_from e) (env_event e) w) as (r' & w2 & out & E' & Ew & Ec & En & Hout);
      [by eapply sy_table; [apply Hx|]|done|]. rw E in E'. injection E' as _ <-.
    apply (refuses_same x w); [done|done| |done]. rw En. apply Forall_app. split; [apply Hx|].
    eapply Forall_impl; [exact Hout|]. intros e' Hsame Hk'. destruct Hk.
    rw -Hk'. by rw (Hsame (env_from e) (env_to e)); destruct e.
Qed.

Lemma refuses_deliver x n w :
  refuses x w → ∃ r w', deliver_nth own addr nodes n w = Done (r, w') ∧ refuses x w'.
Proof.
  intros Hx. destruct (deliver_total own addr nodes x.2 n w (rf_well x w Hx)) as (r & w' & E & Hw').
  exists r, w'. split; [exact E|]. rw /deliver_nth in E.
  destruct (network w !! n) as [e|] eqn:En; [|by injection E as _ <-].
  assert (Hx1 : refuses x (set_network (delete n) w)).
  { apply refuses_fewer; [|done]. intros e'. apply list_elem_of_delete_inv. }
  destruct (nodes !! env_to e) as [c|] eqn:Hc; [|by injection E as _ <-].
  assert (He : only_asked e) by (eapply Forall_lookup_1; [apply Hx|exact En]).
  destruct (reply_nonce (env_event e)) as [m|] eqn:Er; [|by eapply refuses_request].
  set (w1 := set_network (delete n) w) in *.
  assert (Hid : node_id c = env_to e) by (eapply sy_id; [apply Hx|exact Hc]).
  destruct (reply_resolved c (env_from e) (env_event e) m w1) as (w2 & E2 & _ & En2 & Ew & Ec);
    [by eapply sy_table; [apply Hx1|]|done|]. rw E2 in E. injection E as _ <-.
  apply (refuses_reply c m _ x w1); [by rw Hid| |done..].
  intros [= Ei Em]. assert (Hk : event_key e = Some (node_id self, nonce)).
  { rw /event_key. destruct (env_event e); try discriminate Er; cbv beta iota; by rw Er /= -Hid Ei Em. }
  destruct (He Hk) as [_ Ee]. by rw Ee in Er.
Qed.

Lemma refuses_wakes x t w z : refuses x w → poll_trigger t w = Some z → wakes x t z.
Proof using Type.
  intros Hx E. pose proof (poll_wakes own nodes x.2 t w z (rf_well x w Hx) E) as Hwk.
  by destruct t, z.
Qed.

(** ** The refused request itself *)
Abbreviation request := (send_link_request self nonce dest d level) (only parsing).

(** Where its task is: not yet polled; waiting, to be ended by its timeout or by being
    dropped, as [acts] did. *)
Inductive fate (acts : list Action) : Stage → option (Co L (list Envelope) ()) → Prop :=
| fate_fresh : fate acts Fresh (Some (unstarted request))
| fate_waits c resume cancel :
    (∀ w, resume TimedOut w = Done (Ready (Err (timed_out (link_failures dest d))),
                                    ended self nonce (MkReceiver (A := LinkRes) c) w)
       ∧ cancel w = ended self nonce (MkReceiver (A := LinkRes) c) w) →
    fate acts (Waits c) (Some (Suspended [(Waiting c, resume)] cancel))
| fate_timed_out k : Expire 0 k ∈ acts →
    fate acts Over (Some (Ready (Err (timed_out (link_failures dest d)))))
| fate_dropped : Drop 0 ∈ acts → fate acts Over None.

(** What its own steps come to. *)
Definition goes_on (acts : list Action) x (ts : list (option (Co L (list Envelope) ())))
    (o : outcome (list (option (Co L (list Envelope) ())) * W)) : Prop :=
  ∃ t w' y, o = Done (t :: ts, w') ∧ grows x y ∧ refuses y w' ∧ fate acts y.1 t.

Lemma goes_on_same acts x t ts w :
  refuses x w → fate acts x.1 t → goes_on acts x ts (Done (t :: ts, w)).
Proof using Type. intros Hx Hf. by exists t, w, x. Qed.

Lemma waiting_made x c w : refuses x w → x.1 = Waits c → is_Some (x.2 !! c).
Proof using Type.
  intros [[_ Hw] _ _ _ Hst] E. rw E in Hst. destruct Hst as [Hx _]. eexists.
  by apply (wt_waiter _ _ Hw _ _ _ Hx).
Qed.

Lemma request_starts acts k x ts w :
  refuses x w → x.1 = Fresh → goes_on acts x ts (on_task 0 (wake k poll_trigger) (Some (unstarted request) :: ts) w).
Proof.
  intros Hx Ex. rw /on_task /unstarted. cbn [wake].
  destruct k as [|k]; cbn; [|apply goes_on_same; [done|rw Ex; constructor]].
  pose proof (link_request self nonce dest d level w) as Hreq. cbv zeta in Hreq.
  set (w1 := requested self nonce _ w) in *. cbn [send_event refusal_network queueing modify] in Hreq.
  destruct Hreq as (resume & cancel & Em & Hres).
  pose proof Hx as [Hw Ht _ _ Hst]. destruct (sy_id own nodes w (proj1 (proj1 Hw)) _ _ Hself) as [_ Hown].
  destruct (well_channel own nodes x.2 w LinkKind Hw) as [Hfresh _].
  assert (Hmk : waiter_for (λ tx, Link tx level (opposite d))) by done.
  eexists _, _, (Waits (new_chan w), <[new_chan w := kind LinkRes]> x.2). split_and!.
  - rw Em. reflexivity.
  - split; [by apply insert_subseteq|]. intros c [= <-]. by right.
  - apply requested_refuses; [done..|exists self; by split|done|done|].
    split; [by rw /its_waiter requested_waiters decide_True|].
    destruct (requested_tidy self nonce (λ tx, Link tx level (opposite d)) w) as (_ & _ & Hv & _); [done..| |exact Hv].
    by rw Ex in Hst.
  - cbn [fst]. constructor. intros w3. destruct (Hres w3) as (_ & _ & Hout & Hcan). by split.
Qed.

(** The end of its wait. *)
Lemma request_ends acts x c t ts w :
  refuses x w → x.1 = Waits c → fate acts Over t →
  goes_on acts x ts (Done (t :: ts, ended self nonce (MkReceiver (A := LinkRes) c) w)).
Proof using Type.
  intros Hx Ex Hf. eexists _, _, (Over, x.2). split_and!; [done|by split|..|done].
  apply ended_refuses; [by eapply waiting_made|done|]. apply guard_removes.
Qed.

Lemma own_step acts a t ts x w :
  a ∈ acts → (∃ k, a = Resume 0 k) ∨ (∃ k, a = Expire 0 k) ∨ a = Drop 0 →
  refuses x w → fate acts x.1 t → goes_on acts x ts (perform_one own addr nodes a (t :: ts) w).
Proof.
  intros Hin Ha Hx Hf. pose proof (goes_on_same acts x t ts w Hx Hf) as Hsame.
  destruct x as [st G]. cbn [fst] in Hf.
  destruct Hf as [|c resume cancel Hres|k Hk|Hd]; destruct Ha as [[k' ->]|[[k' ->]| ->]]; cbn [perform_one];
    rw /on_task; cbn [lookup list_lookup wake next]; try exact Hsame.
  - by apply request_starts.
  - destruct k' as [|k']; exact Hsame.
  - eexists _, _, (Over, G). split_and!; [done|by split| |by constructor].
    destruct Hx as [? ? ? ? Hst]. by split.
  - destruct k' as [|k']; [|exact Hsame]. cbn [lookup list_lookup poll_trigger].
    pose proof (chan_poll_law (chans w) c) as Hp. destruct (rf_staged _ _ Hx) as [_ Hv]. rw Hv in Hp. rw Hp.
    exact Hsame.
  - destruct k' as [|k']; [|exact Hsame]. cbn [lookup list_lookup expires]. destruct (Hres w) as [-> _].
    apply (request_ends _ _ c); [done..|]. by apply (fate_timed_out _ 0).
  - destruct (Hres w) as [_ ->]. apply (request_ends _ _ c); [done..|by constructor].
Qed.

(** ** Schedules *)

(** An action of the other tasks, among them. *)
Definition others' (a : Action) : option Action :=
  match a with
  | Resume (S i) k => Some (Resume i k)
  | Expire (S i) k => Some (Expire i k)
  | Drop (S i) => Some (Drop i)
  | Resume 0 _ | Expire 0 _ | Drop 0 => None
  | a => Some a
  end.

Lemma perform_others a a' t (ts : list (option (Co L (list Envelope) ()))) w :
  others' a = Some a' →
  perform_one own addr nodes a (t :: ts) w
    = next (perform_one own addr nodes a' ts w) (λ ts' w', Done (t :: ts', w')).
Proof using Type.
  destruct a as [[|i] k|[|i] k|[|i]|n|n|n]; intros [= <-]; cbn [perform_one]; rw /on_task /Tasks;
    cbn [lookup list_lookup].
  - destruct (ts !! i) as [[c|]|]; [|done..]. by destruct (wake _ _ _ _) as [[c' w']| |].
  - destruct (ts !! i) as [[c|]|]; [|done..]. by destruct (wake _ _ _ _) as [[c' w']| |].
  - by destruct (ts !! i) as [[[r|bs cancel]|]|].
  - by destruct (deliver_nth _ _ _ _ _) as [[c' w']| |].
  - done.
  - done.
Qed.

Lemma own_action a : others' a = None → (∃ k, a = Resume 0 k) ∨ (∃ k, a = Expire 0 k) ∨ a = Drop 0.
Proof using Type. destruct a as [[|i] k|[|i] k|[|i]|n|n|n]; eauto; done. Qed.

Lemma refused_schedule acts todo x t ts w :
  (∀ a, a ∈ todo → a ∈ acts) → refuses x w → fate acts x.1 t → Forall (safe_task refuses x) ts →
  ∃ t' ts' w' y, perform own addr nodes todo (t :: ts) w = Done (t' :: ts', w')
    ∧ refuses y w' ∧ fate acts y.1 t'.
Proof.
  revert x t ts w. induction todo as [|a todo IH]; intros x t ts w Hin Hx Hf Hts; [by exists t, ts, w, x|].
  assert (Hrest : ∀ a, a ∈ todo → a ∈ acts) by (intros a' Ha'; apply Hin; by right).
  cbn [perform]. destruct (others' a) as [a'|] eqn:Ea.
  - rw (perform_others a a' t ts w Ea).
    destruct (perform_one_total own addr nodes refuses (λ x t w z, refuses_wakes x t w z) refuses_deliver
      refuses_fewer x a' ts w Hx Hts) as (ts1 & w1 & y & -> & [Ey _] & Hy & Hts1). cbn [next].
    rw Ey in Hf. by eapply IH.
  - destruct (own_step acts a t ts x w) as (t1 & w1 & y & -> & Hg & Hy & Hf1);
      [by apply Hin; left|by apply own_action|done..|]. cbn [next].
    eapply IH; [done..|]. by eapply safe_tasks_mono.
Qed.

(** C13: a link request its receiver refuses can only time out. Node [self] asks node
    [dest] for a slot in which [self] does not belong, under a nonce nothing bears, next
    to any number of calls of any nodes under other nonces. Whatever the schedule, with
    resumptions, timeouts, drops, late, lost and repeated events in any order, it does
    not panic, and the request never succeeds: it has not been polled; or it is blocked,
    its waiter registered, and its timeout would end it with the timeout error; or it
    was dropped; or its own timeout ended it with that error. In the last two cases its
    waiter is gone. *)
Theorem refused_link_only_times_out calls acts G w :
  well own nodes G w → tidy w → (∀ c, is_Some (G !! c) → is_Some (chan_view (chans w) !! c)) →
  unused self nonce w →
  (∀ c op, (c, op) ∈ calls → nodes !! node_id c = Some c
     ∧ ∀ n, n ∈ operation_nonces op → other_nonce (node_id c) n) →
  ∃ t ts w', perform own addr nodes acts
      (Some (unstarted request) :: map (spawn own addr) calls) w = Done (t :: ts, w')
    ∧ (t = Some (unstarted request)
      ∨ (blocked w' t = true
         ∧ (∃ c, its_waiter w' = Some (Link (MkSender c) level (opposite d)))
         ∧ ∃ w2, perform_one own addr nodes (Expire 0 0) (t :: ts) w'
             = Done (Some (Ready (Err (timed_out (link_failures dest d)))) :: ts, w2))
      ∨ (its_waiter w' = None
         ∧ ((t = None ∧ Drop 0 ∈ acts)
            ∨ (t = Some (Ready (Err (timed_out (link_failures dest d)))) ∧ ∃ k, Expire 0 k ∈ acts)))).
Proof.
  intros Hw Ht Hm [Hnone Hnet] Hcalls.
  assert (Hx : refuses (Fresh, G) w).
  { split; [done..| |exact Hnone]. eapply Forall_impl; [exact Hnet|]. by intros e Hne Hk. }
  destruct (refused_schedule acts acts (Fresh, G) (Some (unstarted request)) (map (spawn own addr) calls) w)
    as (t & ts & w' & y & E & Hy & Hf); [done|done|constructor| |].
  { apply Forall_fmap, Forall_forall. intros [c op] Hin. destruct (Hcalls c op Hin) as [Hc Hn].
    apply unstarted_safe. eapply (call_total own addr nodes refuses c (other_nonce (node_id c)));
      [|exact Hc|done].
    apply refuses_accommodates; [done..|]. by apply (sy_id own nodes w (proj1 (proj1 Hw)) (node_id c)). }
  exists t, ts, w'. split; [exact E|]. destruct Hy as [_ _ _ _ Hst]. revert Hst.
  destruct Hf as [|c resume cancel Hres|k Hk|Hd]; cbn [staged]; [by left|..]; intros Hst; right.
  - left. destruct Hst as [Hwt Hv]. split_and!; [|by exists c|].
    + cbn [blocked forallb fst poll_trigger]. pose proof (chan_poll_law (chans w') c) as Hp.
      rw Hv in Hp. by rw Hp.
    + destruct (Hres w') as [Hout _]. eexists. cbn [perform_one]. rw /on_task. cbn [lookup list_lookup wake expires].
      by rw Hout.
  - right. split; [done|]. right. by eauto.
  - right. split; [done|]. by left.
Qed.
End refusal.

(** Node 5 asks node 2 for its left slot, next to the calls of [ConcurrentSample]; every
    event is delivered and the request waits. *)
Lemma refused_link_only_times_out_witness :
  ∃ t ts w', perform TransportSample.own TransportSample.addr OverlaySample.nodes
      [Resume 0 0; Resume 1 0; Resume 2 0; Deliver 2; Deliver 0; Deliver 0; Deliver 0]
      (Some (unstarted (send_link_request
          (Network0 := queueing TransportSample.own TransportSample.addr)
          (OverlaySample.node 1 OverlaySample.n5) (MkNonce 3) (id OverlaySample.n2) Left 0))
       :: map (spawn TransportSample.own TransportSample.addr) ConcurrentSample.calls)
      TransportSample.start = Done (t :: ts, w')
    ∧ succeeded t = false ∧ failure t = None.
Proof.
  destruct (refused_link_only_times_out TransportSample.own TransportSample.addr OverlaySample.nodes
    (OverlaySample.node 1 OverlaySample.n5) (MkNonce 3) (id OverlaySample.n2) Left 0
    (OverlaySample.node 0 OverlaySample.n2)) with
    (calls := ConcurrentSample.calls) (G := ∅ : gmap loc Kind) (w := TransportSample.start)
    (acts := [Resume 0 0; Resume 1 0; Resume 2 0; Deliver 2; Deliver 0; Deliver 0; Deliver 0])
    as (t & ts & w' & E & Hend).
  - split; [exact OverlaySample.n2_node|decided].
  - exact OverlaySample.n5_node.
  - exact CompletionSample.nodes_apart.
  - exact ConcurrentSample.start_well.
  - exact CompletionSample.start_tidy.
  - intros c. rw lookup_empty. by intros [].
  - exact CompletionSample.start_unused.
  - intros c op [[= -> ->]|[[= -> ->]|[]%elem_of_nil]%elem_of_cons]%elem_of_cons.
    + split; [exact OverlaySample.n7_node|]. by intros n _ [=].
    + split; [exact OverlaySample.n5_node|]. by intros n ->%list_elem_of_singleton [=].
  - exists t, ts, w'. split; [exact E|].
    destruct Hend as [->|[(Hb & _)|(_ & [[_ Hd]|[_ [k Hk]]])]].
    + done.
    + by destruct t as [[|]|].
    + by repeat (apply elem_of_cons in Hd as [Hd|Hd]; [done|]); apply elem_of_nil in Hd.
    + by repeat (apply elem_of_cons in Hk as [Hk|Hk]; [done|]); apply elem_of_nil in Hk.
Defined.
