(* ===== verification/RelyGuarantee.v ===== *)
(** * A rely-guarantee logic for progress

    [Concurrent] and [Typing] say what suspended computations keep under any schedule;
    here is what they reach when nothing is lost. A computation is fruitful when at any
    moment, whatever the others did within the relation it relies on, something is in
    flight or it can go on, and going on stays within its guarantee and leads to an
    end in a bounded number of steps. States carry ghost data beside the world. *)
From S2P Require Import Prelude Bytes Model LookupTable Core World Async.

#[local] Set Warnings "-register-all".

Section logic.
Context `{Oneshot} {L N Ghost : Type}.
Abbreviation W := (World L N) (only parsing).
(** Ghost data and the world. *)
Definition State : Type := Ghost * World L N.
(** Something that is not a computation will still act. *)
Context (busy : World L N → Prop).
Implicit Types (s : State) (R Gu : relation State).

(** One of the branches can go on. *)
Definition can_go {A} (bs : list (Trigger * (Wake → W → outcome (Co L N A * W)))) (w : W) : Prop :=
  ∃ t f x, (t, f) ∈ bs ∧ poll_trigger t w = Some x.

(** At most [n] more steps, to an end in [Q], relying on [R], with [Gu] guaranteed. *)
Inductive fruitful {A} R Gu (Q : result A → State → Prop) : nat → Co L N A → State → Prop :=
| fruitful_ready n r s : Q r s → fruitful R Gu Q n (Ready r) s
| fruitful_suspended n bs cancel s :
    (∀ s', R s s' → busy s'.2 ∨ can_go bs s'.2) →
    (∀ s' t f x, R s s' → (t, f) ∈ bs → poll_trigger t s'.2 = Some x →
       ∃ c s'', f x s'.2 = Done (c, s''.2) ∧ Gu s' s'' ∧ fruitful R Gu Q n c s'') →
    fruitful R Gu Q (S n) (Suspended bs cancel) s.

(** The computation [m] started in [s]. *)
Definition bears {A} R Gu (Q : result A → State → Prop) (n : nat) (m : Async L N A) s : Prop :=
  ∃ c s', m s.2 = Done (c, s'.2) ∧ Gu s s' ∧ fruitful R Gu Q n c s'.

Lemma fruitful_induct {A} R Gu (Q : result A → State → Prop) (P : nat → Co L N A → State → Prop) :
  (∀ n r s, Q r s → P n (Ready r) s) →
  (∀ n bs cancel s,
     (∀ s', R s s' → busy s'.2 ∨ can_go bs s'.2) →
     (∀ s' t f x, R s s' → (t, f) ∈ bs → poll_trigger t s'.2 = Some x →
       ∃ c s'', f x s'.2 = Done (c, s''.2) ∧ Gu s' s'' ∧ fruitful R Gu Q n c s'' ∧ P n c s'') →
     P (S n) (Suspended bs cancel) s) →
  ∀ n c s, fruitful R Gu Q n c s → P n c s.
Proof.
  intros Hr Hs. fix IH 4. intros n c s [n0 r s0 HQ|n0 bs cancel s0 Hp Hstep]; [by apply Hr|].
  apply Hs; [exact Hp|]. intros s' t f x HR Hin Hx.
  destruct (Hstep s' t f x HR Hin Hx) as (c' & s'' & E & HG & Hf).
  exists c', s''. split; [exact E|]. split; [exact HG|]. split; [exact Hf|by apply IH].
Qed.

(** [Q] holds on once it holds. *)
Definition stable {A} R (Q : result A → State → Prop) : Prop := ∀ r s s', R s s' → Q r s → Q r s'.

Lemma fruitful_rely {A} R `{!PreOrder R} Gu (Q : result A → State → Prop) n c s s' :
  stable R Q → R s s' → fruitful R Gu Q n c s → fruitful R Gu Q n c s'.
Proof.
  intros Hst HR Hf. destruct Hf as [n r s HQ|n bs cancel s Hp Hstep]; [constructor; by eapply Hst|].
  constructor.
  - intros s2 HR2. apply Hp. by etrans.
  - intros s2 t f x HR2. apply Hstep. by etrans.
Qed.

(** Weaker relies, stronger guarantees, more steps, and what holds besides. *)
Lemma fruitful_weaken {A} R R' Gu Gu' (Q Q' : result A → State → Prop) (F : State → Prop) n c s :
  (∀ s s', R' s s' → R s s') → (∀ s s', F s → Gu s s' → Gu' s s' ∧ F s') →
  (∀ s s', F s → R' s s' → F s') → (∀ r s, Q r s → F s → Q' r s) →
  F s → fruitful R Gu Q n c s → ∀ m, n ≤ m → fruitful R' Gu' Q' m c s.
Proof.
  intros HR HG HFR HQ HF Hf. revert n c s Hf HF.
  apply (fruitful_induct R Gu Q (λ n c s, F s → ∀ m, n ≤ m → fruitful R' Gu' Q' m c s)).
  - intros n' r s' HQ' HF m _. constructor. by apply HQ.
  - intros n' bs cancel s' Hp Hstep HF [|m] Hle; [lia|]. constructor.
    + intros s2 HR2. apply Hp. by apply HR.
    + intros s2 t f x HR2 Hin Hx.
      destruct (Hstep s2 t f x (HR _ _ HR2) Hin Hx) as (c' & s3 & E & HG3 & _ & IH).
      destruct (HG _ _ (HFR _ _ HF HR2) HG3) as [HG' HF']. exists c', s3. split_and!; [done..|].
      apply IH; [done|lia].
Qed.

Lemma bears_weaken {A} R R' Gu Gu' (Q Q' : result A → State → Prop) (F : State → Prop) n m s :
  (∀ s s', R' s s' → R s s') → (∀ s s', F s → Gu s s' → Gu' s s' ∧ F s') →
  (∀ s s', F s → R' s s' → F s') → (∀ r s, Q r s → F s → Q' r s) →
  F s → bears R Gu Q n m s → bears R' Gu' Q' n m s.
Proof.
  intros HR HG HFR HQ HF (c & s' & E & HG' & Hf). destruct (HG _ _ HF HG') as [HG2 HF2].
  exists c, s'. split_and!; [done..|]. by eapply fruitful_weaken.
Qed.

Lemma bears_of {A} R Gu `{!PreOrder Gu} (Q : result A → State → Prop) n (r : result A) s :
  Q r s → bears R Gu Q n (async_of r) s.
Proof. intros HQ. exists (Ready r), s. split_and!; [done|reflexivity|by constructor]. Qed.

(** A synchronous part. *)
Lemma bears_sync_bind {A B} R Gu `{!PreOrder Gu} (Q : result B → State → Prop) n
    (m : M W A) (k : A → Async L N B) s a s' :
  m s.2 = Done (Ok a, s'.2) → Gu s s' → bears R Gu Q n (k a) s' → bears R Gu Q n (sync m ≫= k) s.
Proof.
  intros Em HG (c & s2 & E & HG2 & Hf). exists c, s2. split_and!; [|by etrans|done].
  by rw /mbind /async_bind /sync Em /= E.
Qed.

Lemma co_bind_bears {A B} R Gu `{!PreOrder Gu} (Q1 : result A → State → Prop)
    (Q : result B → State → Prop) n1 n2 (c : Co L N A) (k : A → Async L N B) s :
  (∀ a s, Q1 (Ok a) s → bears R Gu Q n2 (k a) s) → (∀ e s, Q1 (Err e) s → Q (Err e) s) →
  fruitful R Gu Q1 n1 c s → bears R Gu Q (n1 + n2) (co_bind c k) s.
Proof.
  intros Hk He. revert n1 c s.
  apply (fruitful_induct R Gu Q1 (λ n1 c s, bears R Gu Q (n1 + n2) (co_bind c k) s)).
  - intros n1 [a|e] s HQ; cbn [co_bind].
    + destruct (Hk a s HQ) as (c & s' & E & HG & Hf). exists c, s'. split_and!; [done..|].
      eapply (fruitful_weaken R R Gu Gu Q Q (λ _, True)); eauto. lia.
    + exists (Ready (Err e)), s. split_and!; [done|reflexivity|]. constructor. by apply He.
  - intros n1 bs cancel s Hp Hstep. cbn [co_bind plus]. eexists _, s. split_and!; [done|reflexivity|].
    constructor.
    + intros s' HR. destruct (Hp s' HR) as [?|(t & f & x & Hin & Hx)]; [by left|right].
      eexists t, _, x. split; [|done]. apply list_elem_of_fmap. exists (t, f). by split.
    + intros s' t f x HR Hin Hx. apply list_elem_of_fmap in Hin as ([t0 f0] & [= -> ->] & Hin).
      destruct (Hstep s' t0 f0 x HR Hin Hx) as (c' & s2 & E & HG & _ & c2 & s3 & E3 & HG3 & Hf3).
      exists c2, s3. split_and!; [|by etrans|done]. by rw E /= E3.
Qed.

Lemma bears_bind {A B} R Gu `{!PreOrder Gu} (Q1 : result A → State → Prop)
    (Q : result B → State → Prop) n1 n2 (m : Async L N A) (k : A → Async L N B) s :
  bears R Gu Q1 n1 m s →
  (∀ a s, Q1 (Ok a) s → bears R Gu Q n2 (k a) s) → (∀ e s, Q1 (Err e) s → Q (Err e) s) →
  bears R Gu Q (n1 + n2) (m ≫= k) s.
Proof.
  intros (c & s1 & E & HG & Hf) Hk He.
  destruct (co_bind_bears R Gu Q1 Q n1 n2 c k s1 Hk He Hf) as (c2 & s2 & E2 & HG2 & Hf2).
  exists c2, s2. split_and!; [|by etrans|done]. by rw /mbind /async_bind E /= E2.
Qed.

(** A future that has not been polled yet. *)
Lemma fruitful_unstarted {A} R Gu (Q : result A → State → Prop) n (m : Async L N A) s :
  (∀ s', R s s' → bears R Gu Q n m s') → fruitful R Gu Q (S n) (unstarted m) s.
Proof.
  intros Hm. constructor.
  - intros s' _. right. eexists _, _, _. split; [by left|done].
  - intros s' t f x HR [= -> ->]%list_elem_of_singleton _. by apply Hm.
Qed.

Lemma fruitful_suspended_inv {A} R Gu (Q : result A → State → Prop) n bs cancel s :
  fruitful R Gu Q n (Suspended bs cancel) s →
  ∃ m, n = S m ∧ (∀ s', R s s' → busy s'.2 ∨ can_go bs s'.2)
    ∧ ∀ s' t f x, R s s' → (t, f) ∈ bs → poll_trigger t s'.2 = Some x →
        ∃ c s'', f x s'.2 = Done (c, s''.2) ∧ Gu s' s'' ∧ fruitful R Gu Q m c s''.
Proof. intros Hf. inversion Hf as [|m ? ? ? Hp Hstep]; subst. by exists m. Qed.

Lemma fruitful_ready_inv {A} R Gu (Q : result A → State → Prop) n r s :
  fruitful R Gu Q n (Ready r) s → Q r s.
Proof. intros Hf. by inversion Hf. Qed.

Lemma co_finally_bears {A} R Gu `{!PreOrder Gu} (Q1 Q : result A → State → Prop) n
    (c : Co L N A) (f : W → W) s :
  (∀ r s, Q1 r s → ∃ s', f s.2 = s'.2 ∧ Gu s s' ∧ Q r s') →
  fruitful R Gu Q1 n c s → bears R Gu Q n (co_finally c f) s.
Proof.
  intros Hend. revert n c s.
  apply (fruitful_induct R Gu Q1 (λ n c s, bears R Gu Q n (co_finally c f) s)).
  - intros n r s HQ. destruct (Hend r s HQ) as (s' & E & HG & HQ'). exists (Ready r), s'.
    split_and!; [cbn [co_finally]; by rw E|done|by constructor].
  - intros n bs cancel s Hp Hstep. cbn [co_finally]. eexists _, s. split_and!; [done|reflexivity|].
    constructor.
    + intros s' HR. destruct (Hp s' HR) as [?|(t & g & x & Hin & Hx)]; [by left|right].
      eexists t, _, x. split; [|done]. apply list_elem_of_fmap. exists (t, g). by split.
    + intros s' t g x HR Hin Hx. apply list_elem_of_fmap in Hin as ([t0 g0] & [= -> ->] & Hin).
      destruct (Hstep s' t0 g0 x HR Hin Hx) as (c' & s2 & E & HG & _ & c2 & s3 & E3 & HG3 & Hf3).
      exists c2, s3. split_and!; [|by etrans|done]. by rw E /= E3.
Qed.

Lemma bears_finally {A} R Gu `{!PreOrder Gu} (Q1 Q : result A → State → Prop) n
    (m : Async L N A) (f : W → W) s :
  bears R Gu Q1 n m s → (∀ r s, Q1 r s → ∃ s', f s.2 = s'.2 ∧ Gu s s' ∧ Q r s') →
  bears R Gu Q n (finally m f) s.
Proof.
  intros (c & s1 & E & HG & Hf) Hend.
  destruct (co_finally_bears R Gu Q1 Q n c f s1 Hend Hf) as (c2 & s2 & E2 & HG2 & Hf2).
  exists c2, s2. split_and!; [|by etrans|done]. by rw /finally E /= E2.
Qed.

(** A wait that only ends with an answer. *)
Lemma bears_timeout {A} `{Payload A} R Gu `{!PreOrder Gu} (Q : result (Awaited A) → State → Prop)
    (rx : Receiver A) s :
  (∀ s', R s s' → busy s'.2 ∨ is_Some (poll_trigger (Waiting (receiver_chan rx)) s'.2)) →
  (∀ s' x, R s s' → poll_trigger (Waiting (receiver_chan rx)) s'.2 = Some x →
     ∃ a s'', x = Woken (to_reply a) ∧ s''.2 = drop_receiver rx s'.2 ∧ Gu s' s''
       ∧ Q (Ok (Answer a)) s'') →
  bears R Gu Q 1 (timeout rx) s.
Proof.
  intros Hp Hgo. eexists _, s. split_and!; [done|reflexivity|]. constructor.
  - intros s' HR. destruct (Hp s' HR) as [?|[x Hx]]; [by left|right].
    eexists _, _, x. split; [by left|exact Hx].
  - intros s' t f x HR [= -> ->]%list_elem_of_singleton Hx.
    destruct (Hgo s' x HR Hx) as (a & s2 & -> & E & HG & HQ).
    exists (Ready (Ok (Answer a))), s2. rw of_to_reply E. split_and!; [done..|by constructor].
Qed.

(** ** Side by side

    What each of two computations guarantees, the other relies on. *)
Section parallel.
Context {A B : Type} (R R1 R2 Gu Gu1 Gu2 : relation State) `{!PreOrder R1} `{!PreOrder R2}.
Context (Q1 : result A → State → Prop) (Q2 : result B → State → Prop).
Context (HR1 : ∀ s s', R s s' → R1 s s') (HR2 : ∀ s s', R s s' → R2 s s').
Context (H12 : ∀ s s', Gu1 s s' → R2 s s') (H21 : ∀ s s', Gu2 s s' → R1 s s').
Context (HG1 : ∀ s s', Gu1 s s' → Gu s s') (HG2 : ∀ s s', Gu2 s s' → Gu s s').
Context (Hst1 : stable R1 Q1) (Hst2 : stable R2 Q2).

Definition both (r : result (result A * result B)) s : Prop :=
  ∃ r1 r2, r = Ok (r1, r2) ∧ Q1 r1 s ∧ Q2 r2 s.

(** One branch of the joined computation steps. *)
Lemma mapped_can_go {C D} (bs : list (Trigger * (Wake → W → outcome (Co L N C * W))))
    (g : Co L N C → Co L N D) w :
  can_go bs w →
  can_go (map (λ '(t, f), (t, λ wk w, next (f wk w) (λ c w', Done (g c, w')))) bs) w.
Proof.
  intros (t & f & x & Hin & Hx). eexists t, _, x. split; [|done].
  apply list_elem_of_fmap. exists (t, f). by split.
Qed.

Lemma can_go_app {C} (bs bs' : list (Trigger * (Wake → W → outcome (Co L N C * W)))) w :
  can_go bs w ∨ can_go bs' w → can_go (bs ++ bs') w.
Proof.
  intros [(t & f & x & Hin & Hx)|(t & f & x & Hin & Hx)]; exists t, f, x; rw elem_of_app; auto.
Qed.

(** What is left of a join when one side steps, by the bound [m] for the rest. *)
Definition join_within (m : nat) : Prop :=
  ∀ n1 n2 c1 c2 s, n1 + n2 ≤ m →
    fruitful R1 Gu1 Q1 n1 c1 s → fruitful R2 Gu2 Q2 n2 c2 s → fruitful R Gu both m (co_join c1 c2) s.

Lemma join_left m n1 n2 (c2 : Co L N B) s bs cancel s' t f x :
  join_within m → S n1 + n2 ≤ S m → fruitful R1 Gu1 Q1 (S n1) (Suspended bs cancel) s →
  fruitful R2 Gu2 Q2 n2 c2 s → R s s' → (t, f) ∈ bs → poll_trigger t s'.2 = Some x →
  ∃ c s'', f x s'.2 = Done (c, s''.2) ∧ Gu s' s'' ∧ fruitful R Gu both m (co_join c c2) s''.
Proof using Type*.
  intros IH Hm Hf1 Hf2 HR Hin Hx.
  destruct (fruitful_suspended_inv _ _ _ _ _ _ _ Hf1) as (? & [= <-] & _ & Hstep).
  destruct (Hstep s' t f x (HR1 _ _ HR) Hin Hx) as (c & s2 & E & HG & Hf). exists c, s2.
  split_and!; [done|by apply HG1|]. apply (IH n1 n2); [lia|exact Hf|].
  eapply fruitful_rely; [done..| |exact Hf2]. etrans; [by apply HR2|by apply H12].
Qed.

Lemma join_right m n1 n2 (c1 : Co L N A) s bs cancel s' t f x :
  join_within m → n1 + S n2 ≤ S m → fruitful R1 Gu1 Q1 n1 c1 s →
  fruitful R2 Gu2 Q2 (S n2) (Suspended bs cancel) s → R s s' → (t, f) ∈ bs →
  poll_trigger t s'.2 = Some x →
  ∃ c s'', f x s'.2 = Done (c, s''.2) ∧ Gu s' s'' ∧ fruitful R Gu both m (co_join c1 c) s''.
Proof using Type*.
  intros IH Hm Hf1 Hf2 HR Hin Hx.
  destruct (fruitful_suspended_inv _ _ _ _ _ _ _ Hf2) as (? & [= <-] & _ & Hstep).
  destruct (Hstep s' t f x (HR2 _ _ HR) Hin Hx) as (c & s2 & E & HG & Hf). exists c, s2.
  split_and!; [done|by apply HG2|]. apply (IH n1 n2); [lia| |exact Hf].
  eapply fruitful_rely; [done..| |exact Hf1]. etrans; [by apply HR1|by apply H21].
Qed.

Lemma co_join_within m : join_within m.
Proof using Type*.
  induction m as [|m IH]; intros n1 n2 c1 c2 s Hm Hf1 Hf2.
  { destruct c1 as [r1|]; [|by destruct (fruitful_suspended_inv _ _ _ _ _ _ _ Hf1) as (? & -> & _); lia].
    destruct c2 as [r2|]; [|by destruct (fruitful_suspended_inv _ _ _ _ _ _ _ Hf2) as (? & -> & _); lia].
    constructor. exists r1, r2. split_and!; [done|by eapply fruitful_ready_inv..]. }
  destruct c1 as [r1|bs1 cancel1], c2 as [r2|bs2 cancel2].
  - constructor. exists r1, r2. split_and!; [done|by eapply fruitful_ready_inv..].
  - destruct (fruitful_suspended_inv _ _ _ _ _ _ _ Hf2) as (k & -> & Hp & _). constructor.
    + intros s' HR. destruct (Hp s' (HR2 _ _ HR)); [by left|right]. by apply mapped_can_go.
    + intros s' t f x HR Hin Hx. apply list_elem_of_fmap in Hin as ([t0 f0] & [= -> ->] & Hin).
      destruct (join_right m n1 k _ s _ _ s' t0 f0 x IH Hm Hf1 Hf2 HR Hin Hx) as (c & s2 & E & HG & Hf).
      eexists _, s2. rw E. by split_and!.
  - destruct (fruitful_suspended_inv _ _ _ _ _ _ _ Hf1) as (k & -> & Hp & _). constructor.
    + intros s' HR. destruct (Hp s' (HR1 _ _ HR)); [by left|right]. by apply mapped_can_go.
    + intros s' t f x HR Hin Hx. apply list_elem_of_fmap in Hin as ([t0 f0] & [= -> ->] & Hin).
      destruct (join_left m k n2 _ s _ _ s' t0 f0 x IH Hm Hf1 Hf2 HR Hin Hx) as (c & s2 & E & HG & Hf).
      eexists _, s2. rw E. by split_and!.
  - destruct (fruitful_suspended_inv _ _ _ _ _ _ _ Hf1) as (k1 & -> & Hp & _).
    destruct (fruitful_suspended_inv _ _ _ _ _ _ _ Hf2) as (k2 & -> & _). constructor.
    + intros s' HR. destruct (Hp s' (HR1 _ _ HR)); [by left|right].
      apply can_go_app. left. by apply mapped_can_go.
    + intros s' t f x HR Hin Hx. apply elem_of_app in Hin as [Hin|Hin];
        apply list_elem_of_fmap in Hin as ([t0 f0] & [= -> ->] & Hin).
      * destruct (join_left m k1 (S k2) _ s _ _ s' t0 f0 x IH Hm Hf1 Hf2 HR Hin Hx) as (c & s2 & E & HG & Hf).
        eexists _, s2. rw E. by split_and!.
      * destruct (join_right m (S k1) k2 _ s _ _ s' t0 f0 x IH Hm Hf1 Hf2 HR Hin Hx) as (c & s2 & E & HG & Hf).
        eexists _, s2. rw E. by split_and!.
Qed.

Lemma co_join_fruitful n1 n2 (c1 : Co L N A) (c2 : Co L N B) s :
  fruitful R1 Gu1 Q1 n1 c1 s → fruitful R2 Gu2 Q2 n2 c2 s →
  fruitful R Gu both (n1 + n2) (co_join c1 c2) s.
Proof using Type*. by apply co_join_within. Qed.
End parallel.
End logic.
