(* ===== verification/Progress.v ===== *)
(** * Concurrent operations, and how they end

    Any number of searches, queries and link requests of any nodes run next to each
    other, their events delivered in any order but not lost. Each operation owns the
    nonce it draws and relies on the others to leave it alone; the logic of
    [RelyGuarantee] then shows that every schedule ends, and that it ends with all of
    them answered. *)
From S2P Require Import Prelude Bytes Model LookupTable Core World BaseNode Hub Overlay Handlers Routing Safety Linking Async NodeOps Join Transport Interleaving Concurrent Typing Completion RelyGuarantee.
From S2P Require Import Identifier.

(** ** Who owns which reply channel *)
Section ownership.
Context `{OneshotLaws} `{LookupTableSpec L}.
Abbreviation W := (World L (list Envelope)) (only parsing).
Context (own : loc → Identifier) (addr : loc → Address) (nodes : gmap Identifier BaseNode).
Implicit Types (w : W) (b self : BaseNode) (e : Envelope) (k : Pursuit).
#[local] Instance queueing_instance : Network BaseNode W := queueing own addr.
#[local] Set Default Proof Using "Type*".

(** A node and a nonce it drew. *)
Definition Key : Type := Identifier * Nonce.
(** The ghost state: the key each reply channel was made for. *)
Definition Owners : Type := gmap loc Key.
Abbreviation St := (@State _ L (list Envelope) Owners) (only parsing).
Implicit Types (s : St) (K : Key → Prop).

Record good s : Prop := {
  gd_honest : honest_system own nodes s.2;
  gd_tidy : tidy s.2;
  gd_made c key : s.1 !! c = Some key → is_Some (chan_view (chans s.2) !! c);
  gd_once c c' key : s.1 !! c = Some key → s.1 !! c' = Some key → c = c'
}.

(** A key that nothing bears yet. *)
Definition spare self (n : Nonce) s : Prop :=
  unused self n s.2 ∧ ∀ c, s.1 !! c ≠ Some (node_id self, n).

(** What is left to deliver when every key in the ghost state was paid for. *)
Definition charge : nat := size nodes + 2.

Lemma one_more (x y n : nat) : x ≤ charge → y + x + charge * n ≤ y + charge * S n.
Proof using Type. lia. Qed.

(** A request by [self] that waits with [x]. *)
Record claim self k (x : Waiter) : Prop := {
  cl_node : nodes !! node_id self = Some self;
  cl_origin : (asked_key k).1 = node_id self;
  cl_accepts e : replies nodes k e → is_Some (resolves (env_event e) x)
}.

(** It is on its way or answered, on a channel of its own. *)
Definition held self k (x : Waiter) s : Prop :=
  s.1 !! waiter_chan x = Some (asked_key k)
  ∧ (pending nodes self k x s.2 ∨ answered nodes self k x s.2).

(** A step that leaves the keys in [K] alone. *)
Record keeping K s s' : Prop := {
  kp_good : good s';
  kp_owners : s.1 ⊆ s'.1;
  kp_held self k x : claim self k x → K (asked_key k) → held self k x s → held self k x s';
  kp_made c key : K key → s'.1 !! c = Some key → s.1 !! c = Some key;
  kp_unused self n : nodes !! node_id self = Some self → K (node_id self, n) →
    unused self n s.2 → unused self n s'.2;
  kp_total : Transport.total nodes s'.2 + charge * size s.1 ≤ Transport.total nodes s.2 + charge * size s'.1;
  kp_inward i b : nodes !! i = Some b → inward s.2 s'.2 b
}.
Definition keeps K s s' : Prop := good s → keeping K s s'.

#[export] Instance keeps_preorder K : PreOrder (keeps K).
Proof using Type.
  split.
  - intros s Hs. split; [done..|]. intros i b _. apply inward_refl.
  - intros s1 s2 s3 H12 H23 Hs. destruct (H12 Hs) as [Hs2 Ho2 Hh2 Hm2 Hu2 Ht2 Hi2].
    destruct (H23 Hs2) as [Hs3 Ho3 Hh3 Hm3 Hu3 Ht3 Hi3].
    split; [done|by etrans|by auto|by eauto|by auto|lia|].
    intros i b Hb. eapply inward_trans; eauto.
Qed.

Lemma kept_spare K s s' self n :
  keeping K s s' → nodes !! node_id self = Some self → K (node_id self, n) →
  spare self n s → spare self n s'.
Proof using Type.
  intros Hk Hself HK [Hu Hc]. split; [by eapply kp_unused|].
  intros c E. apply (Hc c). by eapply kp_made.
Qed.

Lemma keeps_fewer K K' s s' : (∀ key, K' key → K key) → keeps K s s' → keeps K' s s'.
Proof using Type. intros HK Hk Hs. destruct (Hk Hs). split; auto. Qed.

(** ** Deliveries keep everything *)
Context (Hmaps : apart nodes).

Lemma deliver_keeps K s e w' : deliver own addr nodes s.2 e w' → keeps K s (s.1, w').
Proof.
  destruct s as [G w]. intros Hd [Hw Ht Hmade Honce]. simpl in *.
  destruct (deliver_step own addr nodes w e w' Hw Hd) as (Hw' & Hlt & _).
  destruct (deliver_effect own addr nodes w e w' Hw Ht Hd)
    as (b & rest & out & Hb & Hnet & Enet & Hout & _ & Hchat).
  assert (Ht' : tidy w') by (destruct (reply_nonce _); [apply Hchat|by eapply tidy_same]).
  assert (Hfew : ∀ rm n x, waiter_map rm w' !! n = Some x → waiter_map rm w !! n = Some x).
  { intros rm n x. destruct (reply_nonce _); [apply Hchat|by rw (same_chat_map _ _ _ Hchat)]. }
  split; simpl.
  - split; [done..| |done]. intros c key Hc. specialize (Hmade c key Hc). simpl.
    destruct (reply_nonce (env_event e)) as [n|]; [by apply Hchat|by destruct Hchat as [_ ->]].
  - done.
  - intros self k x [Hself Ho Ha] _ [HG Hp]. split; [done|].
    by apply (request_step own addr nodes self k x Hself Ho Hmaps Ha w e w').
  - done.
  - intros self n Hself _ [Hnone Hkeys]. split.
    + destruct (waiter_map (request_id_map self) w' !! n) as [x|] eqn:Ex; [|done].
      apply Hfew in Ex. by rw Ex in Hnone.
    + simpl. rw Enet. rw Hnet in Hkeys. apply Forall_cons in Hkeys as [He Hkeys].
      apply Forall_app. split; [done|]. destruct out as [e'|]; [|constructor]. apply Forall_singleton.
      destruct (Hout e' eq_refl) as (k & Hk & Hc). by rw (carries_key nodes k e' Hc) -(asks_key k e Hk).
  - lia.
  - intros i c Hc. by eapply deliver_inward.
Qed.

(** ** What an operation does to the others *)

(** Another claim after a step that leaves its waiter, its channel and the events with
    its key alone. *)
Lemma held_frame self k x s s' out :
  claim self k x → held self k x s →
  s'.1 !! waiter_chan x = s.1 !! waiter_chan x → tables s'.2 = tables s.2 →
  waiter_map (request_id_map self) s'.2 !! (asked_key k).2
    = waiter_map (request_id_map self) s.2 !! (asked_key k).2 →
  (∀ rm n y, waiter_map rm s'.2 !! n = Some y →
     waiter_map rm s.2 !! n = Some y ∨ waiter_chan y ≠ waiter_chan x) →
  chan_view (chans s'.2) !! waiter_chan x = chan_view (chans s.2) !! waiter_chan x →
  network s'.2 = network s.2 ++ out → Forall (λ e, event_key e ≠ Some (asked_key k)) out →
  held self k x s'.
Proof using Type.
  intros _ [HG Hp] EG Et Ew Hold Ec En Hout. split; [by rw EG|].
  destruct Hp as [(Hx & Hv & e & rest & Hnet & Hk & Hrest)|((e & r & He & Er & Hv) & Hno & Hset)].
  - left. rw /pending Ew Ec. split_and!; [done..|]. exists e, (rest ++ out).
    split_and!; [by rw En Hnet|done|]. by apply Forall_app.
  - right. split_and!; [exists e, r; by rw Ec| |by eapply settled_tables].
    intros rm n y Hy. destruct (Hold rm n y Hy) as [Hy'|?]; [by eapply Hno|done].
Qed.

(** The keys of two nodes' waiters are apart. *)
Lemma slot_apart self self' (n n' : Nonce) :
  nodes !! node_id self = Some self → nodes !! node_id self' = Some self' →
  (node_id self', n') ≠ (node_id self, n) → (request_id_map self', n') ≠ (request_id_map self, n).
Proof. intros Hs Hs' Hne [= Erm ->]. apply Hne. f_equal. by eapply Hmaps. Qed.

Lemma claim_key self k x : claim self k x → asked_key k = (node_id self, (asked_key k).2).
Proof using Type. intros [_ Ho _]. by rw (surjective_pairing (asked_key k)) Ho. Qed.

(** The start of a request: its waiter registered, its event sent, its key noted. *)
Definition begun {A} (mk : Sender A → Waiter) self nonce e s : St :=
  (<[new_chan s.2 := (node_id self, nonce)]> s.1,
   set_network (λ q, q ++ [e]) (requested self nonce mk s.2)).

Lemma posted_map (w : W) f rm : waiter_map rm (set_network f w) = waiter_map rm w.
Proof using Type. done. Qed.

(** Nothing was noted about the channel before. *)
Lemma new_unowned s : good s → chan_view (chans s.2) !! new_chan s.2 = None → s.1 !! new_chan s.2 = None.
Proof using Type.
  intros [_ _ Hmade _] Hnew. destruct (s.1 !! new_chan s.2) as [key|] eqn:E; [|done].
  destruct (Hmade _ _ E) as [y Hy]. by rw Hnew in Hy.
Qed.

Lemma begun_good {A} (mk : Sender A → Waiter) self nonce e s :
  good s → (∀ c, waiter_chan (mk (MkSender c)) = c) → spare self nonce s → honest nodes e →
  good (begun mk self nonce e s).
Proof.
  destruct s as [G w]. intros [[Hs Hn] Ht Hmade Honce] Hmk [[Hfree _] Hspare] He. simpl in *.
  destruct (requested_maps self nonce mk w Hfree) as (_ & _ & Hv & Etab & Enet).
  destruct (requested_tidy self nonce mk w Hmk Ht Hfree) as (Ht1 & _). split; simpl.
  - split; [by eapply system_tables|]. rw /= Enet. apply Forall_app. split; [done|by apply Forall_singleton].
  - by apply (tidy_same (requested self nonce mk w)).
  - intros c key. rw Hv. intros [[<- _]|[Hne Hc]]%lookup_insert_Some; [by rw lookup_insert_eq|].
    rw lookup_insert_ne; [done|by eapply Hmade].
  - intros c c' key. simpl.
    intros [[<- <-]|[Hne Hc]]%lookup_insert_Some [[<- E]|[Hne' Hc']]%lookup_insert_Some;
      [done|by destruct (Hspare c')|subst key; by destruct (Hspare c)|by eapply Honce].
Qed.

(** It leaves the other keys alone. *)
Lemma begun_keeping {A} (mk : Sender A → Waiter) self nonce k e s :
  good s → (∀ c, waiter_chan (mk (MkSender c)) = c) → nodes !! node_id self = Some self →
  asked_key k = (node_id self, nonce) → spare self nonce s → asks k e → honest nodes e →
  keeping (λ key, key ≠ (node_id self, nonce)) s (begun mk self nonce e s).
Proof.
  intros Hg Hmk Hself Hkey Hsp Ha He. pose proof (begun_good mk self nonce e s Hg Hmk Hsp He) as Hg'.
  destruct s as [G w]. destruct Hsp as [[Hfree Hnet] Hspare]. simpl in *.
  destruct (requested_maps self nonce mk w Hfree) as (Hmap & Hnew & Hv & Etab & Enet).
  pose proof (new_unowned (G, w) Hg Hnew) as HG. simpl in HG.
  split; [done|by apply insert_subseteq|..].
  - intros self' k' x' Hcl' Hne Hheld. pose proof (cl_node _ _ _ Hcl') as Hself'.
    assert (Hc : new_chan w ≠ waiter_chan x').
    { intros E. destruct Hheld as [Hc _]. by rw /= -E HG in Hc. }
    eapply (held_frame self' k' x' (G, w) (begun mk self nonce e (G, w)) [e]); [done|done|..]; simpl.
    + by rw lookup_insert_ne.
    + done.
    + rw posted_map Hmap decide_False; [|done]. apply slot_apart; [done..|]. by rw -(claim_key _ _ _ Hcl').
    + intros rm n y. rw posted_map Hmap. case_decide as Ek; [|by left].
      intros [= <-]. right. by rw Hmk.
    + by rw Hv lookup_insert_ne.
    + by rw Enet.
    + apply Forall_singleton. rw (asks_key k e Ha). intros [= E]. by rw -E Hkey in Hne.
  - intros c key Hne. simpl. by intros [[_ <-]|[_ ?]]%lookup_insert_Some.
  - intros self' n Hself' Hne [Hfree' Hnet']. split; simpl.
    + rw posted_map Hmap decide_False; [by apply slot_apart|done].
    + rw Enet. apply Forall_app. split; [done|]. apply Forall_singleton.
      rw (asks_key k e Ha) Hkey. intros [= E1 E2]. by rw E1 E2 in Hne.
  - simpl. rw map_size_insert_None; [done|]. rw /Transport.total /= Enet sum_list_with_app /= Nat.add_0_r.
    apply one_more, weight_bound.
  - intros i b _. by apply inward_same_tables.
Qed.

(** And holds its own claim. *)
Lemma begun_held {A} (mk : Sender A → Waiter) self nonce k e s :
  good s → (∀ c, waiter_chan (mk (MkSender c)) = c) →
  asked_key k = (node_id self, nonce) → spare self nonce s → asks k e →
  held self k (mk (MkSender (new_chan s.2))) (begun mk self nonce e s).
Proof.
  destruct s as [G w]. intros [_ Ht _ _] Hmk Hkey [[Hfree Hnet] _] Ha. simpl in *.
  destruct (requested_maps self nonce mk w Hfree) as (_ & _ & _ & _ & Enet).
  destruct (requested_tidy self nonce mk w Hmk Ht Hfree) as (_ & Hx & Hvx & _ & _).
  split; simpl; [by rw Hmk lookup_insert_eq Hkey|]. left. split_and!; simpl.
  - by rw posted_map Hkey Hx.
  - by rw Hmk Hvx.
  - exists e, (network w). rw Enet. split_and!; [by rw Permutation_app_comm|by left|by rw Hkey].
Qed.

(** Its end, whatever happened to it. *)
Lemma end_keeping {A} (rx : Receiver A) self nonce s :
  let s' := (s.1, ended self nonce rx s.2) in
  good s → nodes !! node_id self = Some self →
  s.1 !! receiver_chan rx = Some (node_id self, nonce) →
  keeping (λ key, key ≠ (node_id self, nonce)) s s'.
Proof.
  destruct s as [G w]. intros s' [Hw Ht Hmade Honce] Hself Hrx. simpl in *.
  destruct (ended_maps self nonce rx w (Hmade _ _ Hrx) Ht) as (Hmap & Hmade' & Hview & Etab & Enet & Ht').
  split; simpl.
  - split; simpl; [|done|by eauto|done]. destruct Hw as [Hs Hn].
    split; [by eapply system_tables|by rw Enet].
  - done.
  - intros self' k' x' Hcl' Hne Hheld. pose proof (cl_node _ _ _ Hcl') as Hself'.
    pose proof Hheld as [Hx' Hp]. simpl in Hx', Hp.
    assert (Hslot : (request_id_map self', (asked_key k').2) ≠ (request_id_map self, nonce)).
    { apply slot_apart; [done..|]. by rw -(claim_key _ _ _ Hcl'). }
    assert (Hc : waiter_chan x' ≠ receiver_chan rx).
    { intros E. rw E Hrx in Hx'. injection Hx' as E'. by rw -E' in Hne. }
    eapply (held_frame self' k' x' (G, w) s' []); [done|done|done|done|..]; simpl.
    + by rw Hmap decide_False.
    + intros rm n y. rw Hmap. case_decide; [done|by left].
    + apply Hview; [done|]. intros y Hy Ey.
      destruct Hp as [(Hx & _)|(_ & Hno & _)]; [|by eapply Hno].
      apply Hslot. by destruct (td_own w Ht _ _ _ _ _ _ Hx Hy (eq_sym Ey)) as [-> ->].
    + by rw app_nil_r.
    + constructor.
  - done.
  - intros self' n Hself' Hne [Hfree Hnet]. split; simpl; [|by rw Enet].
    rw Hmap. by case_decide.
  - by rw /Transport.total Enet.
  - intros i b _. by apply inward_same_tables.
Qed.

(** ** A request bears its answer *)
Definition in_flight w : Prop := network w ≠ [].

(** What an operation ends with; [res] holds of its value from then on. *)
Definition ends_well {A} (res : A → W → Prop) (r : result A) s : Prop :=
  good s ∧ ∃ a, r = Ok a ∧ res a s.2.
Definition lasting {A} (res : A → W → Prop) : Prop :=
  ∀ a s s', good s → keeping (λ _, False) s s' → res a s.2 → res a s'.2.

Lemma ends_well_stable {A} (res : A → W → Prop) K : lasting res → stable (keeps K) (ends_well res).
Proof using Type.
  intros Hl r s s' Hk [Hs (a & -> & Ha)]. pose proof (Hk Hs) as Hkp. split; [by eapply kp_good|].
  exists a. split; [done|]. eapply Hl; [exact Hs| |exact Ha].
  by apply (keeps_fewer K (λ _, False) s s').
Qed.

(** The key of an operation's request is its own. *)
Definition mine self (nonce : Nonce) (key : Key) : Prop := key = (node_id self, nonce).
Definition others self (nonce : Nonce) (key : Key) : Prop := key ≠ (node_id self, nonce).

(** It waits: its answer is on its way or there, and then it ends well. *)
Lemma request_waits {P A} `{Payload P} self nonce (mk : Sender P → Waiter) k (ok : P → A)
    (res : A → W → Prop) c resume cancel s :
  let x := mk (MkSender c) in
  waiter_chan x = c → asked_key k = (node_id self, nonce) → nodes !! node_id self = Some self →
  claim self k x → fulfils nodes self k x ok res → good s → held self k x s →
  (∀ w a, resume (Woken (to_reply a)) w
     = Done (Ready (Ok (ok a)), ended self nonce (MkReceiver (A := P) c) w)) →
  fruitful in_flight (keeps (mine self nonce)) (keeps (others self nonce)) (ends_well res) 1
    (Suspended [(Waiting c, resume)] cancel) s.
Proof.
  intros x Hx Hk Hself Hcl Hful Hs Hheld Hres.
  assert (Hheld' : ∀ s', keeps (mine self nonce) s s' → good s' ∧ held self k x s').
  { intros s' HR. destruct (HR Hs) as [Hg _ Hh _ _ _ _]. split; [done|]. by apply Hh. }
  constructor.
  - intros s' HR. destruct (Hheld' s' HR) as (_ & _ & [(_ & _ & e & rest & Hnet & _)|((e & r & _ & _ & Hv) & _)]).
    + left. intros E. rw E in Hnet. by apply Permutation_nil_cons in Hnet.
    + right. pose proof (chan_poll_law (chans s'.2) c) as Hp. rw Hx in Hv. rw Hv in Hp.
      exists (Waiting c), resume, (Woken r). split; [by left|]. by rw /poll_trigger Hp.
  - intros s' t f y HR [= -> ->]%list_elem_of_singleton Hy.
    destruct (Hheld' s' HR) as (Hg & Hc & Hp). rw Hx in Hc. rw Hk in Hc.
    pose proof (chan_poll_law (chans s'.2) c) as Hpoll. cbn [poll_trigger] in Hy.
    destruct Hp as [(_ & Hv & _)|((e & r & He & Er & Hv) & _ & Hset)]; rw Hx in Hv; rw Hv in Hpoll;
      rw Hpoll in Hy; [done|injection Hy as <-].
    destruct (Hful e He) as (a & Ea & Hgood). rw Ea in Er. injection Er as <-.
    exists (Ready (Ok (ok a))), (s'.1, ended self nonce (MkReceiver (A := P) c) s'.2).
    pose proof (end_keeping (MkReceiver (A := P) c) self nonce s' Hg Hself Hc) as Hend.
    split; [apply Hres|]. split; [by intros _|]. constructor. split; [by eapply kp_good|].
    exists (ok a). split; [done|]. apply Hgood. eapply settled_tables, Hset. apply ended_tables.
Qed.

Lemma request_bears {P A} `{Payload P} self nonce (mk : Sender P → Waiter) dest ev
    (ok : P → A) fs (m : Async L (list Envelope) A) (res : A → W → Prop) s :
  is_request self nonce mk dest ev ok fs m → answerable nodes self nonce mk dest ev ok res →
  good s → nodes !! node_id self = Some self → spare self nonce s →
  bears in_flight (keeps (mine self nonce)) (keeps (others self nonce)) (ends_well res) 1 m s.
Proof.
  intros Hm (k & Hk & Hev & Hmkf) Hs Hself Hfree. pose proof (gd_honest s Hs) as [Hsys _].
  assert (Hmk : ∀ c, waiter_chan (mk (MkSender c)) = c) by apply Hmkf.
  assert (Hful : ∀ c, fulfils nodes self k (mk (MkSender c)) ok res) by apply Hmkf.
  specialize (Hm s.2). cbv zeta in Hm. destruct (Hev (requested self nonce mk s.2)) as [Hask Hhon].
  assert (Hown : own (net self) = node_id self) by by eapply sy_id.
  cbn [send_event queueing_instance queueing modify] in Hm. rw Hown in Hm.
  destruct Hm as (resume & cancel & Em & Hres).
  assert (Hcl : claim self k (mk (MkSender (new_chan s.2)))).
  { split; [done|by rw Hk|]. intros e He. destruct (Hful (new_chan s.2) e He) as (a & Ea & _).
    by exists (to_reply a). }
  set (e := MkEnvelope _ _ _) in Em.
  pose proof (begun_keeping mk self nonce k e s Hs Hmk Hself Hk Hfree Hask Hhon) as Hkp.
  exists (Suspended [(Waiting (new_chan s.2), resume)] cancel), (begun mk self nonce e s).
  split; [exact Em|]. split; [by intros _|].
  eapply (request_waits self nonce mk k ok res); [done..|by eapply kp_good|by apply begun_held|].
  intros w a. by destruct (Hres w) as (Hans & _).
Qed.

(** ** Calls *)

(** A search, a query or a link request, with the nonce it draws. *)
Inductive Query : Type :=
| AskSearch (req : IdSearchReq)
| AskMaxLevel (nonce : Nonce) (dest : Identifier)
| AskNeighbor (nonce : Nonce) (dest : Identifier) (d : Direction) (level : LookupTableLevel)
| AskLink (nonce : Nonce) (dest : Identifier) (d : Direction) (level : LookupTableLevel).
Inductive Report : Type :=
| SearchFound (res : IdSearchRes)
| MaxLevelIs (level : LookupTableLevel)
| NeighborIs (neighbor : option Identity)
| LinkMade.

Definition query_nonce (q : Query) : Nonce :=
  match q with
  | AskSearch req => isq_nonce req
  | AskMaxLevel nonce _ | AskNeighbor nonce _ _ _ | AskLink nonce _ _ _ => nonce
  end.

Definition ask self (q : Query) : Async L (list Envelope) Report :=
  match q with
  | AskSearch req => res ← node_search_by_id self req; mret (SearchFound res)
  | AskMaxLevel nonce dest => level ← get_max_level self nonce dest; mret (MaxLevelIs level)
  | AskNeighbor nonce dest d level =>
      neighbor ← get_neighbor self nonce dest d level; mret (NeighborIs neighbor)
  | AskLink nonce dest d level => _ ← send_link_request self nonce dest d level; mret LinkMade
  end.

(** Honest questions: to nodes, about real levels, on the right side. *)
Definition well_asked self (q : Query) : Prop :=
  match q with
  | AskSearch req => isq_level req < LOOKUP_TABLE_LEVELS
      ∧ reaches (isq_direction req) (node_id self) (isq_target req)
  | AskMaxLevel _ dest => is_Some (nodes !! dest)
  | AskNeighbor _ dest _ level => is_Some (nodes !! dest) ∧ level < LOOKUP_TABLE_LEVELS
  | AskLink _ dest d level => is_Some (nodes !! dest) ∧ ∀ b, nodes !! dest = Some b →
      fits b level d (MkIdentity (node_id self) (node_mem_vec self) (addr (net self)))
  end.

Definition well_reported self (q : Query) (r : Report) w : Prop :=
  match q, r with
  | AskSearch req, SearchFound res => on_the_way nodes (isq_direction req) (isq_target req) res
  | AskMaxLevel _ _, MaxLevelIs _ => True
  | AskNeighbor _ _ _ _, NeighborIs o => ∀ i, o = Some i → known nodes i
  | AskLink _ _ d level, LinkMade => is_Some (node_slots w self level (opposite d))
  | _, _ => False
  end.

Lemma reported_lasting self q :
  nodes !! node_id self = Some self → lasting (well_reported self q).
Proof using Type.
  intros Hself r s s' Hs Hkp. destruct q, r; try done. simpl. intros [x Hx].
  destruct (kp_inward _ _ _ Hkp _ _ Hself) as (_ & _ & Hin).
  { eapply sy_table, Hself. apply (gd_honest s Hs). }
  destruct (Hin _ _ x Hx) as (y & -> & _). by eexists.
Qed.

(** A request whose result only gets a name. *)
Lemma named_bears {A} self nonce (m : Async L (list Envelope) A) (name : A → Report)
    (res : A → W → Prop) (res' : Report → W → Prop) s :
  bears in_flight (keeps (mine self nonce)) (keeps (others self nonce)) (ends_well res) 1 m s →
  (∀ a w, res a w → res' (name a) w) →
  bears in_flight (keeps (mine self nonce)) (keeps (others self nonce)) (ends_well res') 1
    (a ← m; mret (name a)) s.
Proof using Type.
  intros Hm Hn. eapply (bears_bind _ _ _ _ _ 1 0); [exact Hm|..].
  - intros a s' (Hg & a' & [= <-] & Ha). apply (bears_of _ _ _ _ _ (Ok (name a))).
    split; [done|]. exists (name a). split; [done|by apply Hn].
  - by intros e s' (_ & a & [=] & _).
Qed.

Lemma node_search_bears self req s :
  good s → nodes !! node_id self = Some self → spare self (isq_nonce req) s →
  well_asked self (AskSearch req) →
  bears in_flight (keeps (mine self (isq_nonce req))) (keeps (others self (isq_nonce req)))
    (ends_well (λ res _, on_the_way nodes (isq_direction req) (isq_target req) res)) 1
    (node_search_by_id self req) s.
Proof.
  intros Hs Hself Hfree [Hl Hr]. pose proof (gd_honest s Hs) as [Hsys _].
  assert (Hok : table_ok s.2 self) by by eapply sy_table.
  destruct (on_core_search s.2 self req Hok Hl) as (r & l & Es & Ha).
  eapply (bears_sync_bind _ _ _ _ _ _ _ s _ s); [by apply map_err_ok|reflexivity|]. cbn [isr_result isr_termination_level].
  destruct (decide (r = node_id self)) as [->|Hne].
  - apply (bears_of _ _ _ _ _ (Ok _)). split; [done|]. eexists. split; [done|].
    split_and!; [done|by exists self|done].
  - destruct Ha as [(-> & _)|(e & (Hle & Ee & Hre) & -> & _)]; [done|].
    destruct (sy_truthful own nodes s.2 Hsys _ self Hself) as [_ Hk].
    destruct (Hk l (isq_direction req) e Ee) as (c & Hc & _).
    eapply (request_bears _ _ _ _ _ _ _ _ _ _ (search_request self (isq_nonce req) (id e) (isq_target req) l (isq_direction req)));
      [|done..].
    apply search_answerable; [done|by eexists|by eapply Nat.le_lt_trans|done].
Qed.

Lemma ask_bears self q s :
  good s → nodes !! node_id self = Some self → spare self (query_nonce q) s → well_asked self q →
  bears in_flight (keeps (mine self (query_nonce q))) (keeps (others self (query_nonce q)))
    (ends_well (well_reported self q)) 1 (ask self q) s.
Proof.
  intros Hs Hself Hfree Hq. destruct q as [req|nonce dest|nonce dest d level|nonce dest d level]; cbn [ask].
  - by eapply named_bears; [by apply node_search_bears|].
  - eapply named_bears; [eapply (request_bears _ _ _ _ _ _ _ _ _ _ (get_max_level_request self nonce dest));
      [by apply max_level_answerable|done..]|done].
  - destruct Hq as [Hd Hl]. eapply named_bears; [|].
    + eapply (request_bears _ _ _ _ _ _ _ _ _ _ (get_neighbor_request self nonce dest d level));
        [by apply neighbor_answerable|done..].
    + by intros a w Ha.
  - destruct Hq as [Hd Hf]. eapply named_bears; [|].
    + eapply (request_bears _ _ _ _ _ _ _ _ _ _ (link_request self nonce dest d level));
        [by eapply (link_answerable own addr nodes self nonce dest Hself Hd d level s.2)|done..].
    + by intros a w Ha.
Qed.

(** ** All the calls *)

Definition Call : Type := BaseNode * Query.
Definition call_key (c : Call) : Key := (node_id c.1, query_nonce c.2).
Definition started (calls : list Call) : Tasks :=
  map (λ c : Call, Some (unstarted (ask c.1 c.2))) calls.

Section pool.
Context (calls : list Call) (Hkeys : NoDup (map call_key calls)).
Context (Hnodes : ∀ c, c ∈ calls → nodes !! node_id c.1 = Some c.1).
Implicit Types (ts : Tasks (L := L) (A := Report)) (ns : list nat).

(** A call's task, with at most [n] steps to go. *)
Definition on_course (c : Call) (n : nat) (m : Co L (list Envelope) Report) s : Prop :=
  fruitful in_flight (keeps (mine c.1 (query_nonce c.2))) (keeps (others c.1 (query_nonce c.2)))
    (ends_well (well_reported c.1 c.2)) n m s.

Record pool ns ts s : Prop := {
  pl_good : good s;
  pl_keys c key : s.1 !! c = Some key → key ∈ map call_key calls;
  pl_steps : length ns = length calls;
  pl_length : length ts = length calls;
  pl_tasks i c : calls !! i = Some c →
    ∃ n m, ns !! i = Some n ∧ ts !! i = Some (Some m) ∧ on_course c n m s
}.

Lemma still_on_course c n m s s' :
  c ∈ calls → keeps (mine c.1 (query_nonce c.2)) s s' → on_course c n m s → on_course c n m s'.
Proof.
  intros Hc. apply fruitful_rely; [apply _|]. apply ends_well_stable, reported_lasting. by apply Hnodes.
Qed.

(** Each key has one channel at most. *)
Lemma few_channels ns ts s : pool ns ts s → size s.1 ≤ length calls.
Proof.
  intros [Hg Hk _ _ _]. rw -(length_map_to_list s.1) -(length_map call_key calls) -(length_map snd (map_to_list s.1)).
  apply NoDup_incl_length.
  - apply NoDup_ListNoDup, NoDup_fmap_2_strong; [|apply NoDup_map_to_list].
    intros [c1 k1] [c2 k2] Hc1%elem_of_map_to_list Hc2%elem_of_map_to_list. simpl. intros ->.
    f_equal. by eapply gd_once.
  - intros key Hin%list_elem_of_In. apply list_elem_of_fmap in Hin as ([c k'] & -> & Hc%elem_of_map_to_list).
    by eapply list_elem_of_In, Hk.
Qed.

(** What is left: deliveries, those of requests still to be made, and resumptions. *)
Definition left_to_do ns s : nat :=
  Transport.total nodes s.2 + charge * (length calls - size s.1) + sum_list ns.

Lemma sum_list_insert ns i n m :
  ns !! i = Some n → sum_list (<[i := m]> ns) + n = sum_list ns + m.
Proof using Type.
  revert i. induction ns as [|n0 ns IH]; intros [|i] E; try done.
  - injection E as ->. simpl. lia.
  - specialize (IH i E). simpl. lia.
Qed.

Lemma pool_deliver ns ts s e w' :
  pool ns ts s → deliver own addr nodes s.2 e w' →
  pool ns ts (s.1, w') ∧ left_to_do ns (s.1, w') < left_to_do ns s.
Proof.
  intros [Hg Hk Hns Hts Htasks] Hd.
  pose proof (deliver_keeps (λ _, True) s e w' Hd) as Hall. destruct (Hall Hg) as [Hg' _ _ _ _ _ _].
  split; [split; [done..|]|].
  - intros i c Hc. destruct (Htasks i c Hc) as (n & m & En & Em & Hon). exists n, m.
    split_and!; [done..|]. eapply still_on_course, Hon; [by eapply list_elem_of_lookup_2|].
    by eapply keeps_fewer, Hall.
  - destruct (deliver_step own addr nodes s.2 e w' (gd_honest s Hg) Hd) as (_ & Hlt & _).
    rw /left_to_do /=. lia.
Qed.

Lemma pool_resume ns ts s i c n m s' :
  pool ns ts s → calls !! i = Some c → ns !! i = Some (S n) →
  keeps (others c.1 (query_nonce c.2)) s s' → on_course c n m s' →
  pool (<[i := n]> ns) (<[i := Some m]> ts) s'
  ∧ left_to_do (<[i := n]> ns) s' < left_to_do ns s.
Proof.
  intros Hp Hc En HG Hon. pose proof Hp as [Hg Hk Hns Hts Htasks].
  destruct (HG Hg) as [Hg' _ _ Hmade _ Htot _].
  assert (Hp' : pool (<[i := n]> ns) (<[i := Some m]> ts) s').
  { split; [done| |by rw length_insert..|].
    - intros ch key Hch. destruct (decide (key = call_key c)) as [->|Hne].
      + apply list_elem_of_fmap. exists c. split; [done|by eapply list_elem_of_lookup_2].
      + by eapply Hk, Hmade.
    - intros j c' Hc'. destruct (decide (i = j)) as [<-|Hne].
      + rw Hc in Hc'. injection Hc' as <-. exists n, m.
        split_and!; [apply list_lookup_insert_eq; rw ?Hns ?Hts; by eapply lookup_lt_Some..|done].
      + destruct (Htasks j c' Hc') as (n2 & m2 & En2 & Em2 & Hon2). exists n2, m2.
        split_and!; [by rw list_lookup_insert_ne..|].
        eapply still_on_course, Hon2; [by eapply list_elem_of_lookup_2|]. eapply keeps_fewer, HG.
        intros key -> E. apply Hne. apply (NoDup_lookup (map call_key calls) i j (call_key c)); [done|..];
          apply list_lookup_fmap_Some; [by exists c|by exists c']. }
  split; [exact Hp'|]. pose proof (few_channels _ _ _ Hp). pose proof (few_channels _ _ _ Hp').
  pose proof (sum_list_insert ns i (S n) n En). rw /left_to_do !Nat.mul_sub_distr_l.
  assert (charge * size s.1 ≤ charge * length calls ∧ charge * size s'.1 ≤ charge * length calls) as [? ?]
    by (split; by apply Nat.mul_le_mono_l). lia.
Qed.

(** Whatever there is to do can be done, and leaves less. *)
Lemma pool_step ns ts s a :
  pool ns ts s → to_do a ts s.2 = true →
  ∃ ns' ts' s', perform_one own addr nodes a ts s.2 = Done (ts', s'.2)
    ∧ pool ns' ts' s' ∧ left_to_do ns' s' < left_to_do ns s.
Proof.
  intros Hp. destruct a as [i k|i k|i|n|n|n]; cbn [to_do]; try done.
  - destruct (ts !! i) as [[[r|bs cancel]|]|] eqn:Et; try done.
    destruct (bs !! k) as [[t f]|] eqn:Eb; [|done].
    destruct (poll_trigger t s.2) as [x|] eqn:Ex; [intros _|done].
    destruct (lookup_lt_is_Some_2 calls i) as [c Hc].
    { rw -(pl_length _ _ _ Hp). by eapply lookup_lt_Some. }
    destruct (pl_tasks _ _ _ Hp i c Hc) as (n & m & En & Em & Hon). rw Et in Em. injection Em as <-.
    destruct (fruitful_suspended_inv _ _ _ _ _ _ _ _ Hon) as (n' & -> & _ & Hstep).
    destruct (Hstep s t f x) as (m & s' & E & HG & Hon'); [reflexivity|by eapply list_elem_of_lookup_2|done|].
    exists (<[i := n']> ns), (<[i := Some m]> ts), s'. split; [|by eapply pool_resume].
    by rw /perform_one /on_task Et /wake Eb Ex E.
  - destruct (network s.2 !! n) as [e|] eqn:En; [intros _|done].
    destruct (can_deliver_nth own addr nodes s.2 n e) as (r & w' & Er); [apply (gd_honest s), Hp|done|].
    exists ns, ts, (s.1, w'). rw /perform_one Er. split; [done|].
    eapply pool_deliver; [exact Hp|by exists n, r].
Qed.

(** When there is nothing to do, every call has ended well. *)
Lemma pool_done ns ts s :
  pool ns ts s → (∀ a, to_do a ts s.2 = false) →
  network s.2 = []
  ∧ Forall2 (λ c t, ∃ r, t = Some (Ready (Ok r)) ∧ well_reported c.1 c.2 r s.2) calls ts.
Proof.
  intros Hp Hno.
  assert (Hnet : network s.2 = []).
  { specialize (Hno (Deliver 0)). cbn [to_do] in Hno. by destruct (network s.2). }
  split; [done|]. apply Forall2_same_length_lookup_2; [by rw (pl_length _ _ _ Hp)|].
  intros i c t Hc Ht. destruct (pl_tasks _ _ _ Hp i c Hc) as (n & m & _ & Em & Hon).
  rw Ht in Em. injection Em as ->. destruct m as [r|bs cancel].
  - destruct (fruitful_ready_inv _ _ _ _ _ _ _ Hon) as (_ & a & -> & Ha). by exists a.
  - destruct (fruitful_suspended_inv _ _ _ _ _ _ _ _ Hon) as (n' & _ & Hgo & _).
    destruct (Hgo s) as [Hb|(t & f & x & [k Hk]%list_elem_of_lookup_1 & Hx)]; [reflexivity|done|].
    specialize (Hno (Resume i k)). cbn [to_do] in Hno. by rw Ht Hk Hx in Hno.
Qed.

(** Something is to do, or nothing is. *)
Lemma to_do_or_not ts w : (∃ a, to_do a ts w = true) ∨ ∀ a, to_do a ts w = false.
Proof using Type.
  set (ready := λ b : Trigger * (Wake → W → outcome (Co L (list Envelope) Report * W)),
    is_Some (poll_trigger b.1 w)).
  set (awake := λ t : option (Co L (list Envelope) Report),
    match t with Some (Suspended bs _) => Exists ready bs | _ => False end).
  assert (Hdec : ∀ t, Decision (awake t)) by (intros [[|]|]; apply _).
  destruct (decide (Exists awake ts)) as [Hex|Hno].
  - left. apply Exists_exists in Hex as (t & [i Hi]%list_elem_of_lookup_1 & Ht).
    destruct t as [[|bs cancel]|]; try done. apply Exists_exists in Ht as ([t f] & [k Hk]%list_elem_of_lookup_1 & x & Hx).
    exists (Resume i k). cbn [to_do]. simpl in Hx. by rw Hi Hk Hx.
  - destruct (network w) as [|e q] eqn:En; [right|left; exists (Deliver 0); by rw /= En].
    intros [i k| | |n| |]; try done; cbn [to_do]; [|by rw En].
    destruct (ts !! i) as [[[|bs cancel]|]|] eqn:Ei; try done.
    destruct (bs !! k) as [[t f]|] eqn:Ek; [|done]. destruct (poll_trigger t w) as [x|] eqn:Ex; [|done].
    destruct Hno. apply Exists_exists. eexists. split; [by eapply list_elem_of_lookup_2|].
    apply Exists_exists. exists (t, f). split; [by eapply list_elem_of_lookup_2|by exists x].
Qed.

Lemma pool_runs ns ts s acts :
  pool ns ts s → busy_schedule own addr nodes acts ts s.2 = true →
  ∃ ns' ts' s', perform own addr nodes acts ts s.2 = Done (ts', s'.2)
    ∧ pool ns' ts' s' ∧ length acts + left_to_do ns' s' ≤ left_to_do ns s.
Proof.
  revert ns ts s. induction acts as [|a acts IH]; intros ns ts s Hp; cbn [busy_schedule perform].
  - intros _. by exists ns, ts, s.
  - intros [Ha Hrest]%andb_true_iff. destruct (pool_step ns ts s a Hp Ha) as (ns1 & ts1 & s1 & E & Hp1 & Hlt).
    rw E in Hrest. destruct (IH ns1 ts1 s1 Hp1 Hrest) as (ns2 & ts2 & s2 & E2 & Hp2 & Hle).
    exists ns2, ts2, s2. rw E /=. split_and!; [done..|lia].
Qed.

Lemma pool_started w :
  honest_system own nodes w → tidy w →
  (∀ c, c ∈ calls → well_asked c.1 c.2 ∧ unused c.1 (query_nonce c.2) w) →
  pool (replicate (length calls) 2) (started calls) (∅, w).
Proof.
  intros Hw Ht Hcalls.
  split; [by split|done|by rw length_replicate|by rw length_map|].
  intros i c Hc. assert (Hin : c ∈ calls) by by eapply list_elem_of_lookup_2.
  destruct (Hcalls c Hin) as [Hask Hfree]. exists 2, (unstarted (ask c.1 c.2)).
  split_and!; [apply lookup_replicate_2; by eapply lookup_lt_Some|by rw list_lookup_fmap Hc|].
  apply fruitful_unstarted. intros s' HR.
  assert (Hk : keeping (mine c.1 (query_nonce c.2)) (∅, w) s') by by apply HR.
  apply ask_bears; [by eapply kp_good|by apply Hnodes| |done].
  eapply kept_spare; [exact Hk|by apply Hnodes|done|by split].
Qed.
End pool.

(** C10: concurrent requests all succeed, whatever the order of events. Any number of
    searches, level, neighbor and link requests are started by nodes with truthful
    tables, some of them by the same node, each under a nonce of its own, next to
    requests already in flight. A schedule starts and resumes them and delivers events
    in any order; none is lost and no wait is given up. Every such schedule runs without
    a panic and has a bounded number of steps; and there is nothing left to do only when
    the network is empty and every operation has ended with success: a search with a
    node on the way to its target, a neighbor query with a node, a link request with
    the slot for the reply filled. *)
Theorem queries_complete (calls : list Call) w acts :
  honest_system own nodes w → tidy w → NoDup (map call_key calls) →
  (∀ c, c ∈ calls → nodes !! node_id c.1 = Some c.1 ∧ well_asked c.1 c.2
     ∧ unused c.1 (query_nonce c.2) w) →
  busy_schedule own addr nodes acts (started calls) w = true →
  length acts ≤ (length (network w) + length calls) * (size nodes + 2) + 2 * length calls
  ∧ ∃ ts w', perform own addr nodes acts (started calls) w = Done (ts, w')
      ∧ ((∃ a, to_do a ts w' = true)
         ∨ network w' = []
           ∧ Forall2 (λ c t, ∃ r, t = Some (Ready (Ok r)) ∧ well_reported c.1 c.2 r w') calls ts).
Proof.
  intros Hw Ht Hkeys Hcalls Hacts.
  assert (Hnodes : ∀ c, c ∈ calls → nodes !! node_id c.1 = Some c.1) by (intros c Hc; by apply Hcalls).
  destruct (pool_runs calls Hkeys Hnodes (replicate (length calls) 2) (started calls) (∅, w) acts)
    as (ns & ts & s & E & Hp & Hle); [|done|].
  { apply pool_started; [done..|]. intros c Hc. by apply Hcalls. }
  split; [|exists ts, s.2; split; [exact E|]].
  - pose proof (total_bound nodes w). revert Hle. rw /left_to_do /= map_size_empty sum_list_replicate /charge.
    rw Nat.sub_0_r Nat.mul_add_distr_r (Nat.mul_comm (size nodes + 2) (length calls)). lia.
  - destruct (to_do_or_not ts s.2) as [?|Hno]; [by left|right]. by eapply pool_done.
Qed.
End ownership.

(** ** Three calls of two nodes next to the sample requests *)
Module ProgressSample.
Import OverlaySample.

Definition n5_links : Call := (node 1 n5, AskLink (MkNonce 3) (id n2) Right 0).
Definition n5_asks : Call := (node 1 n5, AskMaxLevel (MkNonce 4) (id n9)).
Definition n9_searches : Call :=
  (node 2 n9, AskSearch (MkIdSearchReq (MkNonce 3) (Sample.ident x03) (id n9) 3 Left)).
Definition calls : list Call := [n5_links; n5_asks; n9_searches].
Definition start : World T (list Envelope) := TransportSample.start.

Definition schedule : list Action :=
  [Resume 2 0; Deliver 1; Resume 0 0; Resume 1 0; Deliver 0; Deliver 2; Deliver 0; Deliver 0;
   Deliver 0; Deliver 0; Deliver 0; Deliver 0; Deliver 0; Deliver 0; Resume 1 0; Resume 0 0;
   Resume 2 0; Deliver 0; Deliver 0].

Lemma calls_fine c : c ∈ calls →
  nodes !! node_id c.1 = Some c.1 ∧ well_asked TransportSample.addr nodes c.1 c.2
  ∧ unused c.1 (query_nonce c.2) start.
Proof.
  intros Hc. revert c Hc. apply Forall_forall.
  apply Forall_cons; split; [|apply Forall_cons; split; [|apply Forall_singleton]].
  - split; [exact n5_node|split; [|exact CompletionSample.start_unused]].
    split; [by exists (node 0 n2)|]. intros b Hb. rw n2_node in Hb. injection Hb as <-. decided.
  - split; [exact n5_node|split; [by exists (node 2 n9)|]]. by split; [|repeat constructor].
  - split; [exact n9_node|split; [split; [apply Nat.ltb_lt; reflexivity|decided]|]].
    by split; [|repeat constructor].
Qed.
End ProgressSample.

(** With nothing in flight and every operation at its end there is nothing to do. *)
Lemma nothing_to_do {A} (ts : Tasks (L := OverlaySample.T) (A := A)) (w : World OverlaySample.T (list Envelope)) a :
  network w = [] → forallb succeeded ts = true → to_do a ts w = false.
Proof.
  intros En Hts. destruct a as [i k| | |n| |]; try done; cbn [to_do]; [|by rw En].
  destruct (ts !! i) as [t|] eqn:Ei; [|done].
  assert (Ht : succeeded t = true) by (eapply forallb_forall; [exact Hts|by eapply list_elem_of_In, list_elem_of_lookup_2]).
  by destruct t as [[]|].
Qed.

(** They end, the search of node 9 for 3 at a node not before 3. *)
Lemma queries_complete_witness :
  length ProgressSample.schedule ≤ 36
  ∧ ∃ ts w', perform TransportSample.own TransportSample.addr OverlaySample.nodes
        ProgressSample.schedule
        (started TransportSample.own TransportSample.addr ProgressSample.calls) ProgressSample.start
      = Done (ts, w')
    ∧ network w' = []
    ∧ Forall2 (λ c t, ∃ r, t = Some (Ready (Ok r))
        ∧ well_reported OverlaySample.nodes c.1 c.2 r w') ProgressSample.calls ts.
Proof.
  destruct (queries_complete TransportSample.own TransportSample.addr OverlaySample.nodes
    CompletionSample.nodes_apart ProgressSample.calls ProgressSample.start ProgressSample.schedule)
    as (Hlen & ts & w' & E & Hend).
  - exact TransportSample.start_honest.
  - exact CompletionSample.start_tidy.
  - decided.
  - exact ProgressSample.calls_fine.
  - vm_compute. reflexivity.
  - split; [exact Hlen|]. exists ts, w'. split; [exact E|].
    destruct Hend as [[a Ha]|Hend]; [exfalso|exact Hend].
    assert (Hdone : match perform TransportSample.own TransportSample.addr OverlaySample.nodes
        ProgressSample.schedule
        (started TransportSample.own TransportSample.addr ProgressSample.calls) ProgressSample.start with
      | Done (ts, w) => network w = [] ∧ forallb succeeded ts = true
      | _ => False end) by (vm_compute; split; reflexivity).
    rw E in Hdone. destruct Hdone as [Hnet Hts]. by rw (nothing_to_do ts w' a Hnet Hts) in Ha.
Defined.
