(* ===== verification/NodeTests.v ===== *)
(** * The node's unit tests ([src/node/base_node.rs], module [tests])

    Every unit test of the node, as a function of its random draws, on the model: the
    mocked network answers with the test's closure and records what is sent, the two
    futures of a [tokio::join!] run next to each other, and a failed assertion is a
    panic. That the model passes them ties the definitions the theorems are about to
    the behaviour the repository itself checks. *)
From S2P Require Import Prelude Bytes Model LookupTable Core World BaseNode Hub Overlay Handlers Routing Safety Linking Async NodeOps Join Search Fixtures LocalGraph ModelTests.
From S2P Require Import Identifier.

Section harness.
Context `{Oneshot}.
Abbreviation T := ArrayLookupTable.InnerArrayLookupTable (only parsing).
(** What was sent through the mock. *)
Definition Sent : Type := list (Identifier * Event).
Abbreviation W := (World T Sent) (only parsing).

(** The mocked [Network]: [on_send] are the assertions of the [send_event] closure,
    [unmocked] where the test gives none; registrations succeed. *)
Definition unimock (a : Address) (on_send : Identifier → Event → bool) : Network BaseNode W := {|
  net_address _ _ := a;
  send_event _ dest event := λ w,
    if on_send dest event then Done (Ok tt, set_network (λ q, q ++ [(dest, event)]) w)
    else Panicked;
  register_processor _ _ := mret tt
|}.
Definition unmocked (_ : Identifier) (_ : Event) : bool := false.

Definition assert {N} (b : bool) : M (World T N) () := if b then mret tt else panic.
Definition of_outcome {N A} (o : outcome A) : M (World T N) A := λ w,
  match o with Done a => Done (Ok a, w) | Panicked => Panicked | OutOfFuel => OutOfFuel end.
(** A result at hand, [expect]ed to be there. *)
Definition expect {N A} (r : result A) : M (World T N) A := λ w,
  match r with Ok a => Done (Ok a, w) | Err _ => Panicked end.
Definition expect_some {N A} (o : option A) : M (World T N) A :=
  match o with Some a => mret a | None => panic end.

(** [.once()], verified at the end of a test. *)
Definition sent_once : M W () := q ← gets network; assert (length q =? 1)%nat.

(** A node on a new table, through [BaseNode::new]. *)
Definition new_node (net : Network BaseNode W) (id : Identifier) (mv : MembershipVector)
    (lt : loc) : M W BaseNode :=
  or_panic (node_new (Network0 := net) (MkBaseCore id mv lt) 0).
Definition get {N} (lt : loc) (level : LookupTableLevel) (d : Direction)
    : M (World T N) (option Identity) := or_panic (on_table lt (get_entry level d)).
Definition seed (lt : loc) (i : Identity) (level : LookupTableLevel) (d : Direction) : M W () :=
  or_panic (on_table lt (update_entry i level d)).
Definition entry_id (e : option Identity) (i : option Identifier) : bool :=
  bool_decide (id <$> e = i).

(** The node handles an event, expected not to fail. *)
Definition handle (net : Network BaseNode W) (node : BaseNode) (origin : Identifier)
    (event : Event) : M W () :=
  or_panic (node_process_incoming_event (Network0 := net) node origin event).

(** The last nonce a closure stored for a kind of event. *)
Definition captured (f : Identifier → Event → option Nonce) (w : W) : option Nonce :=
  last (omap (λ p : Identifier * Event, f p.1 p.2) (network w)).
Definition max_level_nonce (_ : Identifier) (ev : Event) : option Nonce :=
  match ev with GetMaxLevelOp req => Some (mlq_nonce req) | _ => None end.
Definition search_request_nonce (_ : Identifier) (ev : Event) : option Nonce :=
  match ev with SearchByIdRequest req => Some (isq_nonce req) | _ => None end.
Definition neighbor_request_nonce (_ : Identifier) (ev : Event) : option Nonce :=
  match ev with GetNeighborOp req => Some (nq_nonce req) | _ => None end.
Definition link_request_nonce (to dest : Identifier) (ev : Event) : option Nonce :=
  match ev with
  | GetLinkOp req => if decide (dest = to) then Some (lq_nonce req) else None
  | _ => None
  end.

(** [poll_until_some], with a bound on the checks. *)
Fixpoint poll_until_some {A} (checks : nat) (probe : W → option A) : Async T Sent A := λ w,
  match probe w with
  | Some value => Done (Ready (Ok value), w)
  | None =>
      match checks with
      | 0 => OutOfFuel
      | S n => Done (Suspended [(Unstarted, λ _ w, poll_until_some n probe w)] (λ w, w), w)
      end
  end.
Definition checks : nat := 4.

(** [tokio::join!] of an operation and the test's own block. *)
Definition join_block {A} (op : Async T Sent A) (block : Async T Sent ()) : M W (result A) :=
  r ← run_alone (join (unstarted op) (unstarted block));
  let '(res, done) := r in
  _ ← expect done;
  mret res.

(** The first poll of a spawned task, and [JoinHandle::abort] while it waits. *)
Definition poll_once {A} (m : Async T Sent A) : M W (Co T Sent A) := λ w,
  next (m w) (λ c w', Done (Ok c, w')).
Definition abort {A} (c : Co T Sent A) : M W () :=
  match c with Suspended _ cancel => modify cancel | Ready _ => panic end.

Definition no_waiters (node : BaseNode) : M W bool :=
  gets (λ w, bool_decide (waiter_map (request_id_map node) w = ∅)).

Definition blank {N} (n : N) (cs : Chans) : World T N := MkWorld ∅ ∅ cs n.
Definition passes {N A} (m : M (World T N) A) (w : World T N) : bool :=
  match m w with Done (Ok _, _) => true | _ => false end.
End harness.

(** ** Requests and their replies *)
Section request_tests.
Context `{Oneshot}.
Abbreviation T := ArrayLookupTable.InnerArrayLookupTable (only parsing).
Abbreviation W := (World T Sent) (only parsing).
(** The draws: this node's identifier, vector and address, and a nonce per request. *)
Context (id' : Identifier) (mem_vec' : MembershipVector) (address' : Address) (nonce : Nonce).

Definition test_base_node : M W () :=
  let net := unimock address' unmocked in
  lt ← table_new;
  node ← new_node net id' mem_vec' lt;
  _ ← assert (bool_decide (node_id node = id'));
  assert (bool_decide (node_mem_vec node = mem_vec')).

Definition test_get_max_level_resolves (introducer : Identifier) : M W () :=
  let expected_level := 7 in
  let net := unimock address' (λ dest event,
    bool_decide (dest = introducer)
    && match event with GetMaxLevelOp _ => true | _ => false end) in
  lt ← table_new;
  node ← new_node net id' mem_vec' lt;
  level_result ← join_block (get_max_level (Network0 := net) node nonce introducer)
    (sync (n ← gets (captured max_level_nonce);
           n ← expect_some n;
           handle net (node_clone node) introducer
             (RetMaxLevelOp (MkMaxLevelRes n expected_level))));
  level ← expect level_result;
  _ ← assert (level =? expected_level)%nat;
  sent_once.

Definition test_send_search_by_id_req_resolves (introducer expected_anchor : Identifier) : M W () :=
  let search_level := 3 in
  let net := unimock address' (λ dest event,
    bool_decide (dest = introducer)
    && match event with
       | SearchByIdRequest req =>
           bool_decide (isq_direction req = Right) && (isq_level req =? search_level)%nat
       | _ => false
       end) in
  lt ← table_new;
  node ← new_node net id' mem_vec' lt;
  r ← join_block
    (send_search_by_id_req (Network0 := net) node introducer nonce id' search_level Right)
    (sync (handle net node introducer
       (SearchByIdResponse (MkIdSearchRes nonce id' search_level expected_anchor))));
  res ← expect r;
  _ ← assert (bool_decide (isr_result res = expected_anchor));
  sent_once.

Definition test_get_neighbor_resolves (from : Identifier) (expected_neighbor : Identity) : M W () :=
  let query_level := 3 in
  let net := unimock address' (λ dest event,
    bool_decide (dest = from)
    && match event with
       | GetNeighborOp req =>
           bool_decide (nq_direction req = Right) && (nq_level req =? query_level)%nat
       | _ => false
       end) in
  lt ← table_new;
  node ← new_node net id' mem_vec' lt;
  r ← join_block (get_neighbor (Network0 := net) node nonce from Right query_level)
    (sync (n ← gets (captured neighbor_request_nonce);
           n ← expect_some n;
           handle net (node_clone node) from
             (RetNeighborOp (MkNeighborRes n query_level Right (Some expected_neighbor)))));
  neighbor ← expect r;
  _ ← assert (entry_id neighbor (Some (id expected_neighbor)));
  sent_once.

Definition test_get_neighbor_resolves_to_none (from : Identifier) : M W () :=
  let query_level := 2 in
  let net := unimock address' (λ dest event,
    bool_decide (dest = from)
    && match event with GetNeighborOp _ => true | _ => false end) in
  lt ← table_new;
  node ← new_node net id' mem_vec' lt;
  r ← join_block (get_neighbor (Network0 := net) node nonce from Right query_level)
    (sync (n ← gets (captured neighbor_request_nonce);
           n ← expect_some n;
           handle net (node_clone node) from
             (RetNeighborOp (MkNeighborRes n query_level Right None))));
  neighbor ← expect r;
  _ ← assert (bool_decide (neighbor = None));
  sent_once.

Definition test_process_incoming_event_answers_get_max_level_request (origin : Identifier)
    (drawn : Identity) : M W () :=
  let expected_level := 4 in
  let net := unimock address' (λ dest event,
    bool_decide (dest = origin)
    && match event with
       | RetMaxLevelOp res => (mlr_max_level res =? expected_level)%nat
       | _ => false
       end) in
  lt ← table_new;
  _ ← seed lt drawn expected_level Right;
  node ← new_node net id' mem_vec' lt;
  _ ← handle net node origin (GetMaxLevelOp (MkMaxLevelReq nonce origin));
  sent_once.

Definition test_process_incoming_event_answers_get_neighbor_request (origin : Identifier)
    (expected_neighbor : Identity) : M W () :=
  let net := unimock address' (λ dest event,
    bool_decide (dest = origin)
    && match event with
       | RetNeighborOp res =>
           (nr_level res =? 0)%nat && bool_decide (nr_direction res = Right)
           && entry_id (nr_neighbor res) (Some (id expected_neighbor))
       | _ => false
       end) in
  lt ← table_new;
  _ ← seed lt expected_neighbor 0 Right;
  node ← new_node net id' mem_vec' lt;
  _ ← handle net node origin (GetNeighborOp (MkNeighborReq nonce origin 0 Right));
  sent_once.
End request_tests.

(** ** Link requests *)
Section link_tests.
Context `{Oneshot}.
Abbreviation T := ArrayLookupTable.InnerArrayLookupTable (only parsing).
Abbreviation W := (World T Sent) (only parsing).
Context (id' : Identifier) (mem_vec' : MembershipVector) (address' : Address) (nonce : Nonce).
(** What identity fixtures draw besides the identifier, and the identifier they fall
    back to at the extremes. *)
Context (mv : MembershipVector) (a : Address) (drawn : Identifier).

Definition identity_above (i : Identifier) : M W Identity :=
  j ← of_outcome (random_identifier_greater_than i drawn); mret (MkIdentity j mv a).
Definition identity_below (i : Identifier) : M W Identity :=
  j ← of_outcome (random_identifier_less_than i drawn); mret (MkIdentity j mv a).

Definition test_process_incoming_event_links_get_link_request_directly : M W () :=
  candidate ← identity_above id';
  let net := unimock address' (λ dest event,
    bool_decide (dest = id candidate)
    && match event with
       | SetLinkOp res =>
           bool_decide (lr_dir res = Left) && (lr_level res =? 0)%nat
           && entry_id (lr_linked res) (Some id')
       | _ => false
       end) in
  lt ← table_new;
  node ← new_node net id' mem_vec' lt;
  _ ← handle net node (id candidate) (GetLinkOp (MkLinkReq nonce candidate Right 0));
  sent_once.

Definition test_process_incoming_event_forwards_get_link_request : M W () :=
  existing ← identity_above id';
  candidate ← identity_above (id existing);
  lt ← table_new;
  _ ← seed lt existing 0 Right;
  let net := unimock address' (λ dest event,
    bool_decide (dest = id existing)
    && match event with
       | GetLinkOp req =>
           bool_decide (id (lq_candidate req) = id candidate)
           && bool_decide (lq_dir req = Right) && (lq_level req =? 0)%nat
       | _ => false
       end) in
  node ← new_node net id' mem_vec' lt;
  _ ← handle net node (id candidate) (GetLinkOp (MkLinkReq nonce candidate Right 0));
  sent_once.

Definition test_send_link_request_resolves (dest : Identifier) : M W () :=
  linked_identity ← identity_below id';
  let net := unimock address' (λ event_dest event,
    bool_decide (event_dest = dest)
    && match event with
       | GetLinkOp req =>
           bool_decide (lq_candidate req = MkIdentity id' mem_vec' address')
           && bool_decide (lq_dir req = Right) && (lq_level req =? 0)%nat
       | _ => false
       end) in
  lt ← table_new;
  node ← new_node net id' mem_vec' lt;
  send_result ← join_block (send_link_request (Network0 := net) node nonce dest Right 0)
    (sync (n ← gets (captured (link_request_nonce dest));
           n ← expect_some n;
           handle net (node_clone node) dest
             (SetLinkOp (MkLinkRes n Left 0 (Some linked_identity)))));
  _ ← expect send_result;
  e ← get lt 0 Left;
  _ ← assert (entry_id e (Some (id linked_identity)));
  sent_once.

Definition test_set_link_op_rejects_out_of_range_level (origin : Identifier) : M W () :=
  linked_identity ← identity_below id';
  let net := unimock address' unmocked in
  lt ← table_new;
  node ← new_node net id' mem_vec' lt;
  ch ← channel (A := LinkRes);
  let '(tx, rx) := ch in
  _ ← insert_waiter (request_id_map node) nonce (Link tx LOOKUP_TABLE_LEVELS Left);
  _ ← handle net node origin
        (SetLinkOp (MkLinkRes nonce Left LOOKUP_TABLE_LEVELS (Some linked_identity)));
  r ← run_alone (timeout rx);
  _ ← match r with
      | Answer resolved => assert (bool_decide (lr_nonce resolved = nonce))
      | _ => panic
      end;
  e ← get lt 0 Left;
  assert (bool_decide (e = None)).

Definition test_get_link_op_rejects_a_wrong_side_candidate : M W () :=
  candidate ← identity_below id';
  let net := unimock address' unmocked in
  lt ← table_new;
  node ← new_node net id' mem_vec' lt;
  _ ← handle net node (id candidate) (GetLinkOp (MkLinkReq nonce candidate Right 0));
  e ← get lt 0 Right;
  assert (bool_decide (e = None)).

(** [far_bytes[0] ^= 0x80] *)
Definition flip_top_bit (bytes : list u8) : list u8 :=
  alter (λ b, u8_of (Z.lxor (u8_val b) 128)) 0 bytes.

Definition test_get_link_op_rejects_a_prefix_mismatch_above_level_zero : M W () :=
  far_id ← of_outcome (random_identifier_greater_than id' drawn);
  far_mv ← expect (MemVec.from_bytes (flip_top_bit (MemVec.to_bytes mem_vec')));
  let candidate := MkIdentity far_id far_mv a in
  let net := unimock address' unmocked in
  lt ← table_new;
  node ← new_node net id' mem_vec' lt;
  _ ← handle net node (id candidate) (GetLinkOp (MkLinkReq nonce candidate Right 1));
  e ← get lt 1 Right;
  assert (bool_decide (e = None)).

Definition test_set_link_op_rejects_a_wrong_side_linked_node (origin : Identifier) : M W () :=
  linked ← identity_below id';
  let net := unimock address' unmocked in
  lt ← table_new;
  node ← new_node net id' mem_vec' lt;
  _ ← handle net node origin (SetLinkOp (MkLinkRes nonce Right 0 (Some linked)));
  e ← get lt 0 Right;
  assert (bool_decide (e = None)).

Definition test_set_link_op_ignores_a_reply_naming_another_slot (origin : Identifier) : M W () :=
  linked ← identity_above id';
  let net := unimock address' unmocked in
  lt ← table_new;
  node ← new_node net id' mem_vec' lt;
  ch ← channel (A := LinkRes);
  let '(tx, _) := ch in
  _ ← insert_waiter (request_id_map node) nonce (Link tx 0 Left);
  _ ← handle net node origin (SetLinkOp (MkLinkRes nonce Right 0 (Some linked)));
  x ← gets (λ w : W, waiter_map (request_id_map node) w !! nonce);
  assert (match x with Some _ => true | None => false end).

Definition test_set_link_op_applies_an_unsolicited_write (origin : Identifier) : M W () :=
  linked ← identity_above id';
  let net := unimock address' unmocked in
  lt ← table_new;
  node ← new_node net id' mem_vec' lt;
  empty ← no_waiters node;
  _ ← assert empty;
  _ ← handle net node origin (SetLinkOp (MkLinkRes nonce Right 0 (Some linked)));
  e ← get lt 0 Right;
  assert (entry_id e (Some (id linked))).
End link_tests.

(** ** Round trips over a hub of sorted nodes ([src/node/testutil.rs]) *)
Section round_trips.
Context `{Oneshot} `{FixedStr}.
Abbreviation T := ArrayLookupTable.InnerArrayLookupTable (only parsing).
Abbreviation W := (World T (MockState BaseNode)) (only parsing).
(** The depth of nested deliveries: more than twice the nodes a request can visit. *)
Definition depth : nat := 12.

Fixpoint tables_new (n : nat) : M W (list loc) :=
  match n with
  | 0 => mret []
  | S k => lt ← table_new; lts ← tables_new k; mret (lt :: lts)
  end.

Fixpoint fixture_nodes (hub : loc) (l : list (Identifier * loc * (MembershipVector * Address)))
    : M W (list BaseNode) :=
  match l with
  | [] => mret []
  | ((id, lt), (mv, a)) :: rest =>
      net ← or_panic (new_mock_network hub id a);
      node ← or_panic (node_new (Network0 := mock_network depth) (MkBaseCore id mv lt) net);
      nodes ← fixture_nodes hub rest;
      mret (node :: nodes)
  end.

(** The draws of [n] nodes; [random_sorted_identifiers] sorts the identifiers. *)
Definition sorted_nodes_fixture (drawn : list Identifier) (others : list (MembershipVector * Address))
    : M W (list Identifier * list BaseNode * list loc) :=
  hub ← hub_new;
  let ids := sort drawn in
  lts ← tables_new (length drawn);
  nodes ← fixture_nodes hub (zip (zip ids lts) others);
  mret (ids, nodes, lts).

(** Each candidate's request in turn. *)
Fixpoint link_all (dest : Identifier) (dir : Direction) (candidates : list (BaseNode * Nonce))
    : M W () :=
  match candidates with
  | [] => mret tt
  | (candidate, nonce) :: rest =>
      _ ← or_panic (run_alone
            (send_link_request (Network0 := mock_network depth) candidate nonce dest dir 0));
      link_all dest dir rest
  end.

Definition assert_linked (ids : list Identifier) (lts : list loc) : M W () :=
  ts ← gets (λ w : W, omap (λ lt, tables w !! lt) lts);
  assert (assert_doubly_linked_at_level ids ts 0).

Context (drawn : list Identifier) (others : list (MembershipVector * Address)) (nonces : list Nonce).

Definition test_link_round_trip_fills_the_candidates_mirror_slot : M W () :=
  f ← sorted_nodes_fixture drawn others;
  let '(ids, nodes, lts) := f in
  responder_id ← index ids 0;
  candidate_id ← index ids 1;
  responder_lt ← index lts 0;
  candidate_lt ← index lts 1;
  candidate ← index nodes 1;
  nonce ← index nonces 0;
  _ ← or_panic (run_alone
        (send_link_request (Network0 := mock_network depth) candidate nonce responder_id Right 0));
  e ← get responder_lt 0 Right;
  _ ← assert (entry_id e (Some candidate_id));
  e ← get candidate_lt 0 Left;
  _ ← assert (entry_id e (Some responder_id));
  e ← get candidate_lt 0 Right;
  assert (bool_decide (e = None)).

Definition test_link_round_trip_forwards_twice_rightward : M W () :=
  f ← sorted_nodes_fixture drawn others;
  let '(ids, nodes, lts) := f in
  smallest ← index ids 0;
  _ ← link_all smallest Right (zip (drop 1 nodes) nonces);
  assert_linked ids lts.

Definition test_link_round_trip_forwards_twice_leftward : M W () :=
  f ← sorted_nodes_fixture drawn others;
  let '(ids, nodes, lts) := f in
  let largest := length ids - 1 in
  largest_id ← index ids largest;
  _ ← link_all largest_id Left (zip (reverse (take largest nodes)) nonces);
  assert_linked ids lts.
End round_trips.

(** ** Concurrent requests, timeouts and cancellation *)
Section waiter_tests.
Context `{Oneshot}.
Abbreviation T := ArrayLookupTable.InnerArrayLookupTable (only parsing).
Abbreviation W := (World T Sent) (only parsing).
Context (id' : Identifier) (mem_vec' : MembershipVector) (address' : Address) (nonce : Nonce).

Definition test_concurrent_requests_of_different_types_resolve_independently
    (introducer target drawn expected_search_result : Identifier) (mv : MembershipVector)
    (a : Address) (search_nonce : Nonce) : M W () :=
  lt ← table_new;
  relay_target ← of_outcome (random_identifier_greater_than target drawn);
  _ ← seed lt (MkIdentity relay_target mv a) 0 Left;
  let expected_max_level := 3 in
  let net := unimock address' (λ _ event,
    match event with SearchByIdRequest _ | GetMaxLevelOp _ => true | _ => false end) in
  node ← new_node net id' mem_vec' lt;
  let node_search := node_clone node in
  let search_req := MkIdSearchReq search_nonce target id' 0 Left in
  let both (w : W) : option (Nonce * Nonce) :=
    match captured search_request_nonce w, captured max_level_nonce w with
    | Some s, Some m => Some (s, m)
    | _, _ => None
    end in
  let deliver : Async T Sent () :=
    p ← poll_until_some checks both;
    let '(s, m) := p in
    _ ← sync (handle net node introducer (RetMaxLevelOp (MkMaxLevelRes m expected_max_level)));
    sync (handle net node relay_target
      (SearchByIdResponse (MkIdSearchRes s target 0 expected_search_result))) in
  r ← run_alone (join (unstarted (node_search_by_id (Network0 := net) node_search search_req))
        (unstarted (join (unstarted (get_max_level (Network0 := net) node nonce introducer))
           (unstarted deliver))));
  let '(search_result, rest) := r in
  rest ← expect rest;
  let '(max_level_result, done) := rest in
  _ ← expect done;
  search_result ← expect search_result;
  _ ← assert (bool_decide (isr_result search_result = expected_search_result));
  max_level ← expect max_level_result;
  assert (max_level =? expected_max_level)%nat.

Definition test_get_max_level_times_out_and_cleans_up (introducer : Identifier) : M W () :=
  let net := unimock address' (λ _ _, true) in
  lt ← table_new;
  node ← new_node net id' mem_vec' lt;
  c ← poll_once (get_max_level (Network0 := net) node nonce introducer);
  r ← (λ w, next (run c w) (λ r w', Done (Ok r, w')) : outcome (result (result _) * W));
  _ ← assert (negb (is_ok r));
  empty ← no_waiters node;
  assert empty.

Definition test_get_max_level_cleans_up_on_cancellation (introducer : Identifier) : M W () :=
  let net := unimock address' (λ dest event,
    bool_decide (dest = introducer)
    && match event with GetMaxLevelOp _ => true | _ => false end) in
  lt ← table_new;
  node ← new_node net id' mem_vec' lt;
  handle ← poll_once (get_max_level (Network0 := net) (node_clone node) nonce introducer);
  n ← gets (captured max_level_nonce);
  _ ← expect_some n;
  empty ← no_waiters node;
  _ ← assert (negb empty);
  _ ← abort handle;
  empty ← no_waiters node;
  _ ← assert empty;
  sent_once.
End waiter_tests.

(** ** Stage 1 of the join *)
Section join_tests.
Context `{Oneshot}.
Abbreviation T := ArrayLookupTable.InnerArrayLookupTable (only parsing).
Abbreviation W := (World T Sent) (only parsing).
Context (id' : Identifier) (mem_vec' : MembershipVector) (address' : Address) (nonces : JoinNonces).
Context (mv : MembershipVector) (a : Address) (drawn : Identifier).

(** The closures' assertions: the search goes to the introducer, the query to what it
    found, both in the search's direction; [on_link] are those on link requests. *)
Definition join_closure (introducer : Identifier) (dir : Direction) (found : Identifier)
    (on_link : Identifier → LinkReq → bool) (dest : Identifier) (event : Event) : bool :=
  match event with
  | SearchByIdRequest req => bool_decide (dest = introducer) && bool_decide (isq_direction req = dir)
  | GetNeighborOp req => bool_decide (dest = found) && bool_decide (nq_direction req = dir)
  | GetLinkOp req => on_link dest req
  | _ => false
  end.
Definition links_both (s_id z_id : Identifier) (dest : Identifier) (req : LinkReq) : bool :=
  if decide (dest = s_id) then bool_decide (lq_dir req = Right)
  else if decide (dest = z_id) then bool_decide (lq_dir req = Left)
  else false.

(** The replies of the deliver blocks. *)
Definition reply_search net (node : BaseNode) (introducer found : Identifier) : Async T Sent () :=
  n ← poll_until_some checks (captured search_request_nonce);
  sync (handle net node introducer (SearchByIdResponse (MkIdSearchRes n id' 0 found))).
Definition reply_neighbor net (node : BaseNode) (from : Identifier) (dir : Direction)
    (neighbor : option Identity) : Async T Sent () :=
  n ← poll_until_some checks (captured neighbor_request_nonce);
  sync (handle net node from (RetNeighborOp (MkNeighborRes n 0 dir neighbor))).
Definition reply_link net (node : BaseNode) (n : Nonce) (dir : Direction) (linked : Identity)
    : Async T Sent () :=
  sync (handle net node (id linked) (SetLinkOp (MkLinkRes n dir 0 (Some linked)))).

(** The common body of the tests in which both sides are there. *)
Definition joins_between (introducer : Identifier) (s_identity z_identity : Identity) : M W () :=
  let s_id := id s_identity in
  let z_id := id z_identity in
  let net := unimock address' (join_closure introducer Right s_id (links_both s_id z_id)) in
  lt ← table_new;
  node ← new_node net id' mem_vec' lt;
  let node_reply := node_clone node in
  let both (w : W) : option (Nonce * Nonce) :=
    match captured (link_request_nonce s_id) w, captured (link_request_nonce z_id) w with
    | Some s, Some z => Some (s, z)
    | _, _ => None
    end in
  join_result ← join_block (join_stage1_link_level0 (Network0 := net) node nonces introducer 0)
    (_ ← reply_search net node_reply introducer s_id;
     _ ← reply_neighbor net node_reply s_id Right (Some z_identity);
     p ← poll_until_some checks both;
     let '(s, z) := p in
     _ ← reply_link net node_reply s Left s_identity;
     reply_link net node_reply z Right z_identity);
  _ ← expect join_result;
  e ← get lt 0 Left;
  _ ← assert (entry_id e (Some s_id));
  e ← get lt 0 Right;
  assert (entry_id e (Some z_id)).

Definition test_join_stage1_link_level0_links_both_sides : M W () :=
  introducer ← of_outcome (random_identifier_less_than id' drawn);
  s_identity ← identity_below mv a drawn id';
  z_identity ← identity_above mv a drawn id';
  joins_between introducer s_identity z_identity.

Definition test_join_stage1_link_level0_introducer_is_the_closest : M W () :=
  s_identity ← identity_below mv a drawn id';
  z_identity ← identity_above mv a drawn id';
  joins_between (id s_identity) s_identity z_identity.

Definition test_join_stage1_link_level0_aborts_on_id_collision : M W () :=
  introducer ← of_outcome (random_identifier_less_than id' drawn);
  let net := unimock address' (λ _ event,
    match event with SearchByIdRequest _ => true | _ => false end) in
  lt ← table_new;
  node ← new_node net id' mem_vec' lt;
  join_result ← join_block (join_stage1_link_level0 (Network0 := net) node nonces introducer 0)
    (reply_search net (node_clone node) introducer id');
  assert (negb (is_ok join_result)).

Definition test_join_stage1_link_level0_rejects_introducer_with_own_id : M W () :=
  let net := unimock address' unmocked in
  lt ← table_new;
  node ← new_node net id' mem_vec' lt;
  c ← poll_once (join_stage1_link_level0 (Network0 := net) node nonces id' 0);
  match c with Ready (Err _) => mret tt | _ => panic end.

(** The common body of the tests with one side only: [found], in direction [side] of
    this node; the single link request goes to it. *)
Definition joins_at_end (introducer : Identifier) (found : Identity) (dir side : Direction)
    (on_link : LinkReq → bool) : M W () :=
  let net := unimock address'
    (join_closure introducer dir (id found) (λ dest req, bool_decide (dest = id found) && on_link req)) in
  lt ← table_new;
  node ← new_node net id' mem_vec' lt;
  let node_reply := node_clone node in
  join_result ← join_block (join_stage1_link_level0 (Network0 := net) node nonces introducer 0)
    (_ ← reply_search net node_reply introducer (id found);
     _ ← reply_neighbor net node_reply (id found) dir None;
     n ← poll_until_some checks (captured (link_request_nonce (id found)));
     reply_link net node_reply n side found);
  _ ← expect join_result;
  q ← gets network;
  let link_request_count :=
    length (omap (λ p : Identifier * Event,
      match p.2 with GetLinkOp req => Some req | _ => None end) q) in
  _ ← assert (link_request_count =? 1)%nat;
  e ← get lt 0 side;
  _ ← assert (entry_id e (Some (id found)));
  e ← get lt 0 (opposite side);
  assert (bool_decide (e = None)).

Definition test_join_stage1_link_level0_no_right_neighbor_sends_single_link_request : M W () :=
  introducer ← of_outcome (random_identifier_less_than id' drawn);
  s_identity ← identity_below mv a drawn id';
  joins_at_end introducer s_identity Right Left (λ _, true).

Definition test_join_stage1_link_level0_new_leftmost_node_sends_single_link_request : M W () :=
  introducer ← of_outcome (random_identifier_greater_than id' drawn);
  z_identity ← identity_above mv a drawn id';
  joins_at_end introducer z_identity Left Right (λ req, bool_decide (lq_dir req = Left)).
End join_tests.

(** ** All of them *)
Section suite.
Context `{Oneshot} `{FixedStr}.
Abbreviation T := ArrayLookupTable.InnerArrayLookupTable (only parsing).

(** What one run of the suite draws; every test may use any of it. *)
Record Draws : Type := MkDraws {
  dr_id : Identifier;
  dr_mem_vec : MembershipVector;
  dr_address : Address;
  dr_other : Identifier;
  dr_second : Identifier;
  dr_identity : Identity;
  dr_nonce : Nonce;
  dr_nonces : JoinNonces;
  dr_hub_ids : list Identifier;
  dr_hub_others : list (MembershipVector * Address);
  dr_hub_nonces : list Nonce
}.

Definition unit_tests (r : Draws) : list (M (World T Sent) ()) :=
  let i := dr_id r in
  let v := dr_mem_vec r in
  let a := dr_address r in
  let n := dr_nonce r in
  let o := dr_other r in
  let mv := mem_vec (dr_identity r) in
  let b := address (dr_identity r) in
  let d := dr_second r in
  [test_base_node i v a;
   test_get_max_level_resolves i v a n o;
   test_send_search_by_id_req_resolves i v a n o d;
   test_get_neighbor_resolves i v a n o (dr_identity r);
   test_get_neighbor_resolves_to_none i v a n o;
   test_process_incoming_event_answers_get_max_level_request i v a n o (dr_identity r);
   test_process_incoming_event_answers_get_neighbor_request i v a n o (dr_identity r);
   test_process_incoming_event_links_get_link_request_directly i v a n mv b d;
   test_process_incoming_event_forwards_get_link_request i v a n mv b d;
   test_send_link_request_resolves i v a n mv b d o;
   test_set_link_op_rejects_out_of_range_level i v a n mv b d o;
   test_get_link_op_rejects_a_wrong_side_candidate i v a n mv b d;
   test_get_link_op_rejects_a_prefix_mismatch_above_level_zero i v a n b d;
   test_set_link_op_rejects_a_wrong_side_linked_node i v a n mv b d o;
   test_set_link_op_ignores_a_reply_naming_another_slot i v a n mv b d o;
   test_set_link_op_applies_an_unsolicited_write i v a n mv b d o;
   test_concurrent_requests_of_different_types_resolve_independently i v a n o d i o mv b
     (search_nonce (dr_nonces r));
   test_get_max_level_times_out_and_cleans_up i v a n o;
   test_get_max_level_cleans_up_on_cancellation i v a n o;
   test_join_stage1_link_level0_links_both_sides i v a (dr_nonces r) mv b d;
   test_join_stage1_link_level0_aborts_on_id_collision i v a (dr_nonces r) d;
   test_join_stage1_link_level0_rejects_introducer_with_own_id i v a (dr_nonces r);
   test_join_stage1_link_level0_introducer_is_the_closest i v a (dr_nonces r) mv b d;
   test_join_stage1_link_level0_no_right_neighbor_sends_single_link_request i v a (dr_nonces r) mv b d;
   test_join_stage1_link_level0_new_leftmost_node_sends_single_link_request i v a (dr_nonces r) mv b d].

Definition hub_tests (r : Draws) : list (M (World T (MockState BaseNode)) ()) :=
  [test_link_round_trip_fills_the_candidates_mirror_slot (take 2 (dr_hub_ids r)) (dr_hub_others r)
     (dr_hub_nonces r);
   test_link_round_trip_forwards_twice_rightward (dr_hub_ids r) (dr_hub_others r) (dr_hub_nonces r);
   test_link_round_trip_forwards_twice_leftward (dr_hub_ids r) (dr_hub_others r) (dr_hub_nonces r)].
End suite.

(** ** Runs of the suite *)
Module NodeTestRuns.
Import MapOneshot Sample.
Definition edge (hi lo : u8) : Identifier :=
  Identifier.MkIdentifier (MkArray32 (hi :: replicate 30 xff ++ [lo]) eq_refl).
Definition nonces (k : N) : JoinNonces :=
  MkJoinNonces (MkNonce k) (MkNonce (k + 1)%N) (MkNonce (k + 2)%N) (MkNonce (k + 3)%N).
Definition hub_nonces : list Nonce := [MkNonce 1; MkNonce 2; MkNonce 3].

(** Small identifiers; ones next to a carry into the first byte; and ones a bit away
    from the extremes. *)
Definition small : Draws :=
  MkDraws (ident x05) (memvec x35) (address x00) (ident x09) (ident x02) (node x07 x10)
    (MkNonce 1) (nonces 2) [ident x09; ident x02; ident x44; ident x05]
    (replicate 4 (memvec x35, address x00)) hub_nonces.
Definition carry : Draws :=
  MkDraws (edge x10 xff) (memvec x80) (address x01) (edge x20 x00) (edge x0e xff)
    (MkIdentity (edge x11 x00) (memvec x7f) (address x02)) (MkNonce 0) (nonces 7)
    [edge x30 x00; edge x20 xff; edge x20 x01; edge x10 xff]
    (replicate 4 (memvec x01, address x03)) hub_nonces.
Definition extreme : Draws :=
  MkDraws (edge xff xfd) (memvec xff) (address xff) (ident x01) (edge xff xfb)
    (MkIdentity (ident x01) (memvec x00) (address x00)) (MkNonce 340282366920938463463374607431768211455)
    (nonces 100) [edge xff xfe; ident x01; edge x00 x00; ident x02]
    (replicate 4 (memvec x00, address x00)) hub_nonces.
Definition runs : list Draws := [small; carry; extreme].

Definition suite_passes (r : Draws) : bool :=
  forallb (λ m, passes m (blank [] (∅ : gmap loc ChanState))) (unit_tests r)
  && forallb (λ m, passes m (blank (MkMockState ∅ ∅) (∅ : gmap loc ChanState))) (hub_tests r).
End NodeTestRuns.

(** The model behaves as the repository's own unit tests say. All 28 tests of the
    node pass on it: replies resolve the request with their nonce, the handlers answer,
    forward or drop as asserted, link requests travel over a hub of nodes in both
    directions, concurrent requests do not mix, timed-out and aborted requests leave no
    waiter, and stage 1 of the join goes through its six scenarios; for draws of small
    identifiers, identifiers next to carries and identifiers at the ends of the range.
    So do the tests of identifiers and of membership vectors, for four sets of draws. *)
Example unit_tests_pass :
  forallb NodeTestRuns.suite_passes NodeTestRuns.runs = true
  ∧ forallb (λ r, forallb Datatypes.id (@model_tests HexCodec.codec r)) ModelTestRuns.runs = true.
Proof. split; vm_compute; reflexivity. Qed.
