(* ===== verification/Repair.v ===== *)
(** * The repair schedule ([src/node/repair_schedule.rs])

    [RepairSchedule::tick] waits for the next repair. The production schedule is a runtime
    [Interval] behind an asynchronous [Mutex]; the tests' schedule is a [Notify]. All
    three are classes here, with their documented behaviour as laws. Instants are
    numbers of a unit of time; tick futures have numbers, and are polled and dropped in
    any order. Instants below the runtime's last one are natural numbers. *)
From S2P Require Import Prelude.

(** ** The runtime's timer, lock and notification *)

(** [tokio::time::interval], which panics on a zero period; [set_missed_tick_behavior]
    with [MissedTickBehavior::Skip]; one poll of [Interval::tick] at an instant. *)
Class Timer : Type := {
  Interval : Type;
  interval : nat → nat → outcome Interval;
  skip_missed : Interval → Interval;
  poll_interval : nat → Interval → bool * Interval
}.
(** The first tick completes at once. A tick never completes before it is due, and some
    time after that, which may be later than its due instant, a poll completes it. A tick
    that completes at most [tolerance] (5 ms) late does not count as missed: the next
    one is due a period after it was due. After a later one, with [Skip], the next is due
    at the first multiple of the period, from when it was due, that is still ahead. *)
Class TimerLaws `{Timer} : Type := {
  tolerance : nat;
  last_instant : nat;
  due : Interval → nat;
  noticed : Interval → nat;
  (** the intervals a skipping one made with [period] goes through *)
  skipping : nat → Interval → Prop;
  interval_zero now : interval 0 now = Panicked;
  interval_new period now : 0 < period →
    ∃ i, interval period now = Done i ∧ skipping period (skip_missed i)
      ∧ due (skip_missed i) = now ∧ noticed (skip_missed i) = now;
  poll_early now i : now < due i → (poll_interval now i).1 = false;
  poll_noticed now i : noticed i ≤ now → (poll_interval now i).1 = true;
  poll_pending period now i i' : skipping period i → poll_interval now i = (false, i') →
    skipping period i' ∧ due i' = due i ∧ noticed i' = noticed i;
  poll_tick period now i i' : skipping period i → now + period ≤ last_instant →
    poll_interval now i = (true, i') →
    skipping period i' ∧ due i' = if decide (now ≤ due i + tolerance) then due i + period
                                  else due i + period * ((now - due i) / period + 1)
}.

(** [tokio::sync::Mutex]: a future's poll of [lock], and the end of a guard or of a
    pending [lock]. *)
Class AsyncLock : Type := {
  Lock : Type;
  lock_new : Lock;
  poll_lock : nat → Lock → bool * Lock;
  release : nat → Lock → Lock
}.
(** At most one future holds the lock. When it is released it may pass to a future that
    waits for it; [unlocked] says nobody holds it or waits. *)
Class AsyncLockLaws `{AsyncLock} : Type := {
  holder : Lock → option nat;
  unlocked : Lock → Prop;
  lock_new_unlocked : unlocked lock_new;
  poll_lock_held i l l' : poll_lock i l = (true, l') →
    holder l' = Some i ∧ ∀ j, holder l = Some j → j = i;
  poll_lock_pending i l l' : poll_lock i l = (false, l') → holder l' = holder l;
  release_other i l : holder l ≠ Some i → holder (release i l) = holder l;
  poll_unlocked i l : unlocked l → ∃ l', poll_lock i l = (true, l') ∧ unlocked (release i l')
}.

(** [tokio::sync::Notify]: [notify_one], and a future's poll of [notified]. *)
Class Notification : Type := {
  Notify : Type;
  notify_new : Notify;
  notify_one : Notify → Notify;
  poll_notified : nat → Notify → bool * Notify
}.
(** Without waiting futures: a permit is stored, at most one; a poll takes it, or
    waits for the next one. *)
Class NotificationLaws `{Notification} : Type := {
  idle : bool → Notify → Prop;
  notify_new_idle : idle false notify_new;
  notify_one_idle p n : idle p n → idle true (notify_one n);
  poll_permit i n : idle true n → ∃ n', poll_notified i n = (true, n') ∧ idle false n';
  poll_no_permit i n : idle false n → ∃ n', poll_notified i n = (false, n')
      ∧ ∃ n2, poll_notified i (notify_one n') = (true, n2) ∧ idle false n2
}.

(** ** [TokioRepairSchedule] *)
Section tokio.
Context `{Timer} `{AsyncLock}.

Record TokioRepairSchedule : Type := MkTokioRepairSchedule {
  lock : Lock;
  contents : Interval
}.

Definition tokio_new (period now : nat) : outcome TokioRepairSchedule :=
  match interval period now with
  | Done i => Done (MkTokioRepairSchedule lock_new (skip_missed i))
  | Panicked => Panicked
  | OutOfFuel => OutOfFuel
  end.

(** Where a [tick] future is: before [lock().await], before [tick().await], done. *)
Inductive TickFuture : Type := Locking | Ticking | Ticked.

(** One poll of future [i] at [now]; the guard ends with the body. *)
Definition poll_ticking (i now : nat) (s : TokioRepairSchedule) : TickFuture * TokioRepairSchedule :=
  match poll_interval now (contents s) with
  | (true, c) => (Ticked, MkTokioRepairSchedule (release i (lock s)) c)
  | (false, c) => (Ticking, MkTokioRepairSchedule (lock s) c)
  end.
Definition tokio_tick (i now : nat) (f : TickFuture) (s : TokioRepairSchedule)
    : TickFuture * TokioRepairSchedule :=
  match f with
  | Locking =>
      match poll_lock i (lock s) with
      | (true, l) => poll_ticking i now (MkTokioRepairSchedule l (contents s))
      | (false, l) => (Locking, MkTokioRepairSchedule l (contents s))
      end
  | Ticking => poll_ticking i now s
  | Ticked => (Ticked, s)
  end.
Definition drop_tick (i : nat) (f : TickFuture) (s : TokioRepairSchedule) : TokioRepairSchedule :=
  match f with
  | Locking | Ticking => MkTokioRepairSchedule (release i (lock s)) (contents s)
  | Ticked => s
  end.

(** Futures that share a schedule; one that was not polled yet is [Locking]. *)
Inductive TickAction : Type := Poll (i : nat) | Drop (i : nat).
Definition future (fs : gmap nat TickFuture) (i : nat) : TickFuture := default Locking (fs !! i).

(** Whether the action at [now] completed a tick. *)
Definition act (now : nat) (a : TickAction) (fs : gmap nat TickFuture) (s : TokioRepairSchedule)
    : bool * gmap nat TickFuture * TokioRepairSchedule :=
  match a with
  | Poll i =>
      let '(f, s') := tokio_tick i now (future fs i) s in
      (match future fs i, f with
       | Locking, Ticked | Ticking, Ticked => true
       | _, _ => false
       end, <[i := f]> fs, s')
  | Drop i => (false, <[i := Ticked]> fs, drop_tick i (future fs i) s)
  end.

(** The instants at which ticks complete, and what is left. *)
Fixpoint run_ticks (trace : list (nat * TickAction)) (fs : gmap nat TickFuture)
    (s : TokioRepairSchedule) : list nat * gmap nat TickFuture * TokioRepairSchedule :=
  match trace with
  | [] => ([], fs, s)
  | (now, a) :: rest =>
      let '(done, fs1, s1) := act now a fs s in
      let '(cs, fs2, s2) := run_ticks rest fs1 s1 in
      ((if done then [now] else []) ++ cs, fs2, s2)
  end.

Section cadence.
Context `{!TimerLaws, !AsyncLockLaws} (period start horizon : nat).
Context (Hperiod : 0 < period) (Hhorizon : horizon + period ≤ last_instant).
#[local] Set Default Proof Using "Type*".

(** The instant tick number [k] is due, and the period an instant is in. *)
Definition slot (k : nat) : nat := start + period * k.
Definition window (t : nat) : nat := (t - start) / period.

(** An interval that waits for tick number [k]. *)
Definition awaits (k : nat) (c : Interval) : Prop := skipping period c ∧ due c = slot k.

(** After tick number [k] has completed at [c], the next one is tick number [k']. *)
Definition then_comes (c k k' : nat) : Prop :=
  k < k' ∧ (c < slot k' ∨ c + period ≤ slot k' + tolerance).

(** Only the lock's holder waits for the interval. *)
Definition exclusive (fs : gmap nat TickFuture) (s : TokioRepairSchedule) : Prop :=
  ∀ i, future fs i = Ticking → holder (lock s) = Some i.

Lemma window_lt c k : c < slot k → slot 0 ≤ c → window c < k.
Proof. rw /slot /window. intros Hc Hc0. apply Nat.Div0.div_lt_upper_bound. lia. Qed.

Lemma window_ge c k : slot k ≤ c → k ≤ window c.
Proof. rw /slot /window. intros Hc. apply Nat.div_le_lower_bound; lia. Qed.

(** One poll of the interval. *)
Lemma poll_awaits now k c done c' :
  now ≤ horizon → awaits k c → poll_interval now c = (done, c') →
  if done then slot k ≤ now ∧ ∃ k', awaits k' c' ∧ then_comes now k k' else awaits k c'.
Proof.
  intros Hnow [Hs Hd] E. destruct done; last first.
  { destruct (poll_pending period now c c' Hs E) as (Hs' & Hd' & _). split; [done|]. by rw Hd'. }
  destruct (poll_tick period now c c' Hs ltac:(lia) E) as [Hs' Hd']. rw Hd in Hd'.
  assert (Hk : slot k ≤ now).
  { rw -Hd. destruct (le_lt_dec (due c) now) as [?|Hlt]; [done|]. pose proof (poll_early now c Hlt) as He.
    by rw E in He. }
  split; [done|]. case_decide as Hin.
  - exists (k + 1). rw /awaits /then_comes. split_and!; [done|rw Hd' /slot; lia|lia|]. right.
    revert Hin. rw /slot. lia.
  - set (q := (now - slot k) / period) in Hd'. exists (k + (q + 1)). rw /awaits /then_comes.
    split_and!; [done|rw Hd' /slot; lia|lia|]. left.
    pose proof (Nat.div_mod_eq (now - slot k) period) as Hq. fold q in Hq.
    pose proof (Nat.mod_upper_bound (now - slot k) period ltac:(lia)).
    assert (Es : slot (k + (q + 1)) = slot k + period * q + period) by (rw /slot; lia). lia.
Qed.

Lemma future_insert fs i j f : future (<[i := f]> fs) j = if decide (i = j) then f else future fs j.
Proof using Type.
  rw /future. case_decide as E; [subst; by rw lookup_insert_eq|by rw lookup_insert_ne].
Qed.

(** What an action leaves: a tick completes only when it is due. *)
Definition acted (now k : nat) (done : bool) (s' : TokioRepairSchedule) : Prop :=
  if done then slot k ≤ now ∧ ∃ k', awaits k' (contents s') ∧ then_comes now k k'
  else awaits k (contents s').

(** The holder of the lock polls the interval. *)
Lemma poll_ticking_spec now k i f fs s s' :
  now ≤ horizon → awaits k (contents s) → holder (lock s) = Some i →
  (∀ j, future fs j = Ticking → j = i) → poll_ticking i now s = (f, s') →
  exclusive (<[i := f]> fs) s'
  ∧ acted now k (match f with Ticked => true | _ => false end) s'.
Proof.
  intros Hnow Ha Hh Hone. rw /poll_ticking.
  destruct (poll_interval now (contents s)) as [[] c] eqn:Ec; intros [= <- <-];
    pose proof (poll_awaits now k _ _ _ Hnow Ha Ec) as Hp; (split; [|done]);
    intros j; rw future_insert; case_decide; try done; [|by subst|];
    intros Hj; by destruct (Hone j Hj).
Qed.

Lemma act_spec now a k fs s done fs' s' :
  now ≤ horizon → awaits k (contents s) → exclusive fs s → act now a fs s = (done, fs', s') →
  exclusive fs' s' ∧ acted now k done s'.
Proof.
  intros Hnow Ha He. destruct a as [i|i]; cbn [act].
  - destruct (tokio_tick i now (future fs i) s) as [f s1] eqn:E. intros [= <- <- <-]. revert E.
    destruct (future fs i) eqn:Ef; cbn [tokio_tick].
    + destruct (poll_lock i (lock s)) as [[] l] eqn:El.
      * destruct (poll_lock_held i _ l El) as [Hh Hone]. intros E.
        destruct (poll_ticking_spec now k i f fs (MkTokioRepairSchedule l (contents s)) s1 Hnow Ha Hh
          (λ j Hj, Hone j (He j Hj)) E). by destruct f.
      * intros [= <- <-]. split; [|done]. intros j. rw future_insert.
        case_decide; [done|]. rw (poll_lock_pending i _ l El). apply He.
    + intros E. destruct (poll_ticking_spec now k i f fs s s1 Hnow Ha (He i Ef)) as [? ?]; [|done|by destruct f].
      intros j Hj. pose proof (He j Hj) as Hh. rw (He i Ef) in Hh. by injection Hh.
    + intros [= <- <-]. split; [|done]. intros j. rw future_insert. case_decide; [done|apply He].
  - intros [= <- <- <-]. split; [|by destruct (future fs i)].
    intros j. rw future_insert. case_decide as Hij; [done|]. intros Hj. pose proof (He j Hj) as Hh.
    destruct (future fs i); simpl; [..|done]; (rw release_other; [rw Hh; by intros [= ->]|done]).
Qed.

(** A completed tick: when, and its number. *)
Definition earlier (x y : nat * nat) : Prop := then_comes x.1 x.2 y.2.

(** With a period longer than the tolerance, later ticks are in later periods. *)
Lemma sorted_windows ticks :
  tolerance < period → StronglySorted earlier ticks → (∀ c n, (c, n) ∈ ticks → slot n ≤ c) →
  StronglySorted (λ a b, window a < window b) ticks.*1.
Proof.
  intros Htol. induction 1 as [|[c k] ticks _ IH Hall]; intros Hslot; [constructor|].
  constructor; [apply IH; intros c' n Hin; apply Hslot; by right|].
  rw Forall_forall in Hall. apply Forall_forall. intros c' Hin.
  apply list_elem_of_fmap in Hin as ([? k'] & -> & Hin). destruct (Hall _ Hin) as [_ Hc]. simpl in *.
  apply Nat.lt_le_trans with k'; [apply window_lt; [lia|]|apply window_ge, Hslot; by right].
  assert (Hk : slot k ≤ c) by (apply Hslot; by left). revert Hk. rw /slot. lia.
Qed.

Lemma run_ticks_spec trace k fs s cs fs' s' :
  (∀ now a, (now, a) ∈ trace → now ≤ horizon) →
  awaits k (contents s) → exclusive fs s → run_ticks trace fs s = (cs, fs', s') →
  exclusive fs' s' ∧ ∃ ticks, cs = ticks.*1 ∧ StronglySorted earlier ticks
    ∧ ∀ c n, (c, n) ∈ ticks → k ≤ n ∧ slot n ≤ c ∧ c ≤ horizon.
Proof.
  revert k fs s cs. induction trace as [|[now a] rest IH]; intros k fs s cs Htr Ha He; cbn [run_ticks].
  { intros [= <- <- <-]. split; [done|]. exists []. split_and!; [done|constructor|]. by intros c n []%elem_of_nil. }
  destruct (act now a fs s) as [[done fs1] s1] eqn:Ea.
  destruct (run_ticks rest fs1 s1) as [[cs1 fs2] s2] eqn:Er. intros [= <- <- <-].
  assert (Hnow : now ≤ horizon) by (apply (Htr now a); by left).
  assert (Hrest : ∀ n a, (n, a) ∈ rest → n ≤ horizon) by (intros n b Hin; apply (Htr n b); by right).
  destruct (act_spec now a k fs s done fs1 s1 Hnow Ha He Ea) as [He1 Hd]. destruct done; simpl in Hd.
  - destruct Hd as (Hk & k' & Ha' & Hthen).
    destruct (IH k' fs1 s1 cs1 Hrest Ha' He1 Er) as (He2 & ticks & -> & Hs & Hall). split; [done|].
    exists ((now, k) :: ticks). split_and!; [done| |].
    + constructor; [done|]. apply Forall_forall. intros [c n] Hin. destruct (Hall c n Hin) as [Hle _].
      rw /earlier /=. destruct Hthen as [Hlt Hc]. split; [lia|]. assert (slot k' ≤ slot n); [|lia].
      rw /slot. nia.
    + intros c n [[= -> ->]|Hin]%elem_of_cons; [done|]. destruct (Hall c n Hin).
      destruct Hthen. split; [lia|done].
  - destruct (IH k fs1 s1 cs1 Hrest Hd He1 Er) as (He2 & ticks & -> & Hs & Hall).
    split; [done|]. by exists ticks.
Qed.
End cadence.

(** A strictly increasing list of numbers up to [k] has at most [k + 1] elements. *)
Lemma increasing_length {A} (f : A → nat) (l : list A) k :
  StronglySorted (λ a b, f a < f b) l → (∀ x, x ∈ l → f x ≤ k) → length l ≤ k + 1.
Proof using Type.
  intros Hs. revert k. induction l as [|x l IH] using rev_ind; intros k Hk; [simpl; lia|].
  rw length_app /=. pose proof (Hk x ltac:(apply elem_of_app; right; by left)) as Hx.
  destruct (StronglySorted_split _ l x [] Hs) as [Hlt _].
  assert (Hl : StronglySorted (λ a b, f a < f b) l) by by eapply StronglySorted_app_1_l.
  destruct (f x) as [|m] eqn:Em.
  - destruct l as [|y l]; [simpl; lia|]. specialize (Hlt y ltac:(by left)). simpl in Hlt. lia.
  - specialize (IH Hl m). assert (length l ≤ m + 1); [|lia]. apply IH.
    intros y Hy. specialize (Hlt y Hy). simpl in Hlt. lia.
Qed.

(** Used by one future at a time, a tick completes when it is polled late enough, and one
    that is dropped before it is due leaves the timer as it was. *)
Lemma tick_alone `{!TimerLaws, !AsyncLockLaws} period i now s :
  skipping period (contents s) → unlocked (lock s) →
  ∃ f s', tokio_tick i now Locking s = (f, s')
    ∧ (noticed (contents s) ≤ now → f = Ticked ∧ unlocked (lock s'))
    ∧ (now < due (contents s) → f = Ticking ∧ unlocked (lock (drop_tick i f s'))
         ∧ due (contents (drop_tick i f s')) = due (contents s)
         ∧ noticed (contents (drop_tick i f s')) = noticed (contents s)).
Proof using Type.
  intros Hs Hu. destruct (poll_unlocked i _ Hu) as (l & El & Hl). rw /= El /poll_ticking /=.
  pose proof (poll_early now (contents s)) as He. pose proof (poll_noticed now (contents s)) as Hn.
  destruct (poll_interval now (contents s)) as [[] c] eqn:Ec; simpl in *; eexists _, _; (split; [done|]); split.
  - done.
  - intros Hd. by specialize (He Hd).
  - intros Hd. by specialize (Hn Hd).
  - intros _. destruct (poll_pending period now _ c Hs Ec) as (_ & Hd & Hno). by split_and!.
Qed.

(** C35: the production schedule keeps its cadence. A zero period is refused. Otherwise,
    however many [tick] calls share the schedule, and in whatever order and at whatever
    instants they are polled and dropped, each tick that completes has a number of its
    own, the numbers increase, and tick number [n] never completes before the start of
    period [n]: up to [horizon] at most one more tick completes than periods have passed.
    Missed ticks are skipped, not made up for: once a tick has completed at [c], no tick
    that was due before [c] follows, except one that is at most the timer's tolerance late;
    with a period longer than the tolerance no two ticks complete in the same period.
    Only one call at a time waits for the timer, and the first call completes at its
    first poll. *)
Theorem ticks_keep_cadence `{!TimerLaws, !AsyncLockLaws} period start horizon s trace cs fs s' :
  0 < period → horizon + period ≤ last_instant → tokio_new period start = Done s →
  (∀ now a, (now, a) ∈ trace → now ≤ horizon) → run_ticks trace ∅ s = (cs, fs, s') →
  tokio_new 0 start = Panicked
  ∧ (∃ ticks, cs = ticks.*1 ∧ StronglySorted (earlier period start) ticks
       ∧ ∀ c n, (c, n) ∈ ticks → slot period start n ≤ c)
  ∧ length cs ≤ window period start horizon + 1
  ∧ (tolerance < period → StronglySorted (λ a b, window period start a < window period start b) cs)
  ∧ (∀ i j, future fs i = Ticking → future fs j = Ticking → i = j)
  ∧ ∀ i now, start ≤ now → ∃ s1, tokio_tick i now Locking s = (Ticked, s1).
Proof using Type.
  intros Hp Hh Hnew Htr Hrun. revert Hnew. rw /tokio_new.
  destruct (interval_new period start Hp) as (c & Ec & Hskip & Hdue & Hnoticed).
  rw Ec interval_zero. intros [= <-].
  destruct (run_ticks_spec period start horizon Hp Hh trace 0 ∅ (MkTokioRepairSchedule lock_new (skip_missed c))
    cs fs s' Htr) as (He & ticks & -> & Hs & Hall).
  { split; [done|]. rw /= Hdue /slot. lia. }
  { intros i. by rw /future lookup_empty. }
  { exact Hrun. }
  split_and!; [done|exists ticks; split_and!; [done..|]; intros k n Hin; by apply Hall| | | |].
  - rw length_fmap. apply (increasing_length snd).
    + rw -(list_fmap_id ticks).
      by apply (StronglySorted_fmap (λ x, x) (earlier period start)); [intros x y [? _]|].
    + intros [k n] Hin. destruct (Hall k n Hin) as (_ & Hk & Hle).
      apply (window_ge period start horizon Hp Hh). simpl. lia.
  - intros Htol. apply (sorted_windows period start horizon Hp Hh); [done..|].
    intros k n Hin. by apply Hall.
  - intros i j Hi Hj. pose proof (He i Hi) as Hhi. rw (He j Hj) in Hhi. by injection Hhi.
  - intros i now Hnow.
    destruct (tick_alone period i now (MkTokioRepairSchedule lock_new (skip_missed c)) Hskip
      lock_new_unlocked) as (f & s1 & E & Hf & _).
    rw /= Hnoticed in Hf. destruct (Hf Hnow) as [-> _]. by exists s1.
Qed.
End tokio.

(** ** Concrete instances *)
Module RepairSample.
(** Instants in milliseconds. An interval as whether it skips missed ticks, its period
    and the instant its next tick is due. *)
#[export] Instance timer : Timer := {|
  Interval := bool * nat * nat;
  interval period now := if decide (period = 0) then Panicked else Done (false, period, now);
  skip_missed '(_, period, next) := (true, period, next);
  poll_interval now '(skip, period, next) :=
    if decide (next ≤ now) then
      (true, (skip, period,
              if decide (skip = false ∨ now ≤ next + 5) then next + period
              else next + period * ((now - next) / period + 1)))
    else (false, (skip, period, next))
|}.
#[export] Instance timer_laws : TimerLaws.
Proof.
  refine {| tolerance := 5; last_instant := 1000; due := λ i : @Interval timer, snd i;
            noticed := λ i : @Interval timer, snd i;
            skipping := λ p (i : @Interval timer), fst i = (true, p) |}; simpl.
  - done.
  - intros [|p] now Hp; [lia|]. by eexists.
  - intros now [[b p] n] Hn. simpl in *. rw decide_False; [lia|done].
  - intros now [[b p] n] Hn. simpl in *. by rw decide_True.
  - intros period now [[b p] n] i' [= -> ->]. case_decide; [done|]. by intros [= <-].
  - intros period now [[b p] n] i' [= -> ->] _. simpl. case_decide; [|done]. intros [= <-]. split; [done|].
    simpl. case_decide as Ho; case_decide as Hn; [done|by destruct Ho|destruct Ho; by right|done].
Defined.

(** A lock as its holder and the queue behind it. *)
#[export] Instance async_lock : AsyncLock := {|
  Lock := option nat * list nat;
  lock_new := (None, []);
  poll_lock i '(h, q) :=
    match h with
    | None => (true, (Some i, q))
    | Some j => if decide (i = j) then (true, (h, q)) else (false, (h, q ++ [i]))
    end;
  release i '(h, q) :=
    if decide (h = Some i) then (head q, tail q) else (h, base.filter (λ j, j ≠ i) q)
|}.
#[export] Instance async_lock_laws : AsyncLockLaws.
Proof.
  refine {| holder := λ l : @Lock async_lock, fst l;
            unlocked := λ l : @Lock async_lock, l = (None, []) |}; simpl.
  - done.
  - intros i [[j|] q] l'; simpl; [|by intros [= <-]].
    destruct (decide (i = j)) as [->|]; [|done]. intros [= <-]. split; [done|]. by intros ? [= ->].
  - intros i [[j|] q] l'; simpl; [|done]. destruct (decide (i = j)); [done|by intros [= <-]].
  - intros i [h q] Hh. simpl in *. by rw decide_False.
  - intros i l ->. eexists. split; [done|]. simpl. by rw decide_True.
Defined.

(** Four calls share a schedule of period 10 made at 5; the second is polled again only
    after three periods, the third is dropped while it holds the lock, the fourth
    completes within the tolerance. *)
Definition trace : list (nat * TickAction) :=
  [(5, Poll 1); (6, Poll 2); (7, Poll 3); (38, Poll 2); (39, Poll 3); (40, Poll 4); (41, Drop 3);
   (44, Poll 4); (46, Poll 4)].
Definition schedule : TokioRepairSchedule := MkTokioRepairSchedule lock_new (true, 10, 5).
Definition ran : list nat := fst (fst (run_ticks trace ∅ schedule)).
End RepairSample.

Lemma ticks_keep_cadence_witness :
  RepairSample.ran = [5; 38; 46] ∧ length RepairSample.ran ≤ window 10 5 46 + 1.
Proof.
  split; [vm_compute; reflexivity|].
  assert (E : ∃ fs s', run_ticks RepairSample.trace ∅ RepairSample.schedule = (RepairSample.ran, fs, s')).
  { rw /RepairSample.ran. destruct (run_ticks _ _ _) as [[cs fs] s']. by eexists _, _. }
  destruct E as (fs & s' & E).
  destruct (@ticks_keep_cadence _ _ RepairSample.timer_laws RepairSample.async_lock_laws 10 5 46 RepairSample.schedule RepairSample.trace RepairSample.ran fs s')
    as (_ & _ & Hlen & _); [| | | | |exact Hlen].
  - lia.
  - apply Nat.leb_le. vm_compute. reflexivity.
  - reflexivity.
  - intros now a Ha. assert (Hall : Forall (λ p : nat * TickAction, p.1 ≤ 46) RepairSample.trace) by decided.
    rw Forall_forall in Hall. exact (Hall _ Ha).
  - exact E.
Defined.

(** ** [ManualRepairSchedule] *)
Section manual.
Context `{Notification}.
Definition manual_new : Notify := notify_new.
Definition fire : Notify → Notify := notify_one.
Definition manual_tick (i : nat) : Notify → bool * Notify := poll_notified i.

(** Permits do not accumulate: however often it fires, one future tick completes, and
    the next one waits for the next fire. *)
Lemma fires_do_not_accumulate `{!NotificationLaws} k i j :
  ∃ n1 n2 n3, manual_tick i (Nat.iter (S k) fire manual_new) = (true, n1)
    ∧ manual_tick j n1 = (false, n2) ∧ manual_tick j (fire n2) = (true, n3).
Proof.
  assert (Hk : ∃ p, idle p (Nat.iter k fire manual_new)).
  { induction k as [|k [p IH]]; [exists false; apply notify_new_idle|]. exists true. by eapply notify_one_idle. }
  destruct Hk as [p Hp]. apply notify_one_idle in Hp.
  destruct (poll_permit i _ Hp) as (n1 & E1 & H1).
  destruct (poll_no_permit j n1 H1) as (n2 & E2 & n3 & E3 & _). by exists n1, n2, n3.
Qed.
End manual.
